(* ===== verification/_CoqProject ===== *)
-Q . S2P
Prelude.v
Async.v
Threads.v
PyBase.v
Bytes.v
PyDict.v
Types.v
Store.v
LwwStore.v
LwwHistory.v
BasicStore.v
Ring.v
Dispatcher.v
Wire.v
Pool.v
PoolShare.v
PoolClose.v
PoolSpec.v
Mux.v
MuxShare.v
MuxIo.v
MuxSpec.v
PoolOps.v
Consistency.v
Discovery.v
Gossip.v
GossipSpec.v
Membership.v
Eviction.v
Node.v
NodeSpec.v
Churn.v
Replicas.v
Cluster.v
Protocol.v
ClusterSpec.v
ClusterTtl.v
ClusterFrame.v
Fleet.v
Startup.v
Process.v
ProcessGossip.v
QuickStart.v
Web.v
Workload.v
Report.v
Bench.v
BenchSpec.v
StoreBench.v
StoreReport.v
TcpBench.v
Profile.v
ProfileSpec.v
ProfileReport.v
