(* ===== verification/Prelude.v ===== *)
(** * A verification of dlstorage

    dlstorage ([src/dlstorage]) is a distributed in-memory key-value store.  Each
    node keeps a last-write-wins store, runs a TCP server, knows the other nodes
    through discovery and gossip, and places every key on a few nodes of a
    rendezvous ring.  [get], [set] and [delete] go from any node to the replicas
    of the key through a pool of connections.  There is a threaded node and an
    asyncio node; they speak the same wire protocol.

    ** The parts and the files

    A client calls [StorageNode.set] ([Node.node_set]).  The node asks its ring for
    the replicas of the key ([Ring.ring_get_nodes]), makes a handle for each
    ([Node.make_handle]) and calls them; a handle acts on the node's own store
    ([LwwStore.lww_set]) or sends a message through the pool ([Pool.execute], or
    [Mux.mux_execute]), which frames it ([Wire.send_message]).  The peer's handler
    ([Node._handle_client]) reads the message and has it served by the dispatcher
    ([Dispatcher.dispatch]) or by gossip ([Gossip.handle_message]).  For [get] a
    merge policy ([Consistency.lww_read_resolve]) chooses among the answers.

    - [Prelude]: Python exceptions, the state and exception monad [M], loops,
      lemmas and automation.  [Async]: [asyncio.gather] under any schedule.
      [Threads]: programs of atomic actions, their interleavings, an ownership
      logic [wp] and a rely-guarantee logic [rg] for them.  [PyBase]: strings, integers and binary64 floats.
      [Bytes]: big-endian integers and SHA-256, executable.  [PyDict]:
      insertion-ordered dictionaries.
    - [Types] is [types.py].  [Store] is the vocabulary of [store/interface.py], the
      abstract specification [Spec] of a store, and the class [VersionedStore] its
      clients are proved against; [LwwStore] is [store/lww.py] and [LwwHistory] its
      behaviour over histories; [BasicStore] is [store/basic.py].
    - [Ring] is [ring/rendezvous.py] and the class [Ring] of [ring/interface.py].
      [Dispatcher] is [node/dispatcher.py].  [Consistency] is [consistency/lww.py]
      and [fhw.py].
    - [Wire] is [connection_pool/wire.py]; [Pool] is [sync.py] and [async_.py], with
      [PoolShare] (many threads or coroutines), [PoolClose] (calls overtaken by a close) and
      [PoolSpec] (one call alone);
      [Mux] is [mux.py], with [MuxShare] (what callers do to the shared state), [MuxIo]
      (what the selector thread does) and [MuxSpec] (both together); [PoolOps] is
      [interface.py] as a class, with the pools that implement it.
    - [Discovery] is [discovery/]; [Gossip] is [peer_comm/gossip.py] and
      [GossipSpec] its theorems, over any ring and any pool.
    - [Node] is [node/sync.py] and [node/async_.py], over any ring and any pool;
      [NodeSpec] has the theorems on serving and on the life cycle, [Replicas] those
      on calls to different replicas.  [Cluster] puts nodes behind a network that
      loses and repeats messages; [ClusterSpec] has the end-to-end theorems,
      [ClusterTtl] those on values that expire and [ClusterFrame] what a call leaves
      alone.  [Fleet] has all nodes at once, each in a process of its own, and
      clients that call any of them; [Startup] starts them.  In [Process] the nodes, all
      threaded or all asyncio, share a process, and with it the default ring and pool of their
      class; in [ProcessGossip] they gossip at the same time; [QuickStart] is [examples/quickstart.py].  [Membership] puts gossiping nodes
      behind a network that loses nothing; [Eviction] lets some of them be gone, and in
      [Churn] nodes start, stop and crash.  [Protocol] gives the messages types.
    - [Web] is the web servers of [examples/], over a cluster, from the environment they
      read to the end of their life.  [Workload] is the two worker pools of
      [benchmarks/framework.py] and how [benchmarks/nodes/] divides its operations
      among workers, [Report] what the benchmarks print.  [Bench] is the benchmarks of
      several processes ([nodes/sync_bench.py], [nodes/async_bench.py], [redis/bench.py]):
      the program of [main], the processes it starts and the system they form, of which
      [BenchSpec] has the theorems.  [StoreBench] and [StoreReport] are
      [benchmarks/store/], on [BasicStore]; [TcpBench] is [benchmarks/tcp/].  [Profile] is
      [profilers/sync.py] and [async.py], [ProfileSpec] what their step timings do and
      [ProfileReport] what they print of it.

    A definition has the name of the Python function it models, with a prefix where
    two classes share a name ([lww_set], [basic_set], [node_set]) and the suffix
    [_async] for the asyncio version.

    ** What the theorems show

    - End to end: an acknowledged write is what any node of the same membership
      reads as long as one replica that has it answers, whatever the network did to
      the other requests ([ClusterSpec.acknowledged_write_is_read]); a call through a node
      of a healthy cluster does what it would do to a single last-write-wins store
      ([ClusterSpec.cluster_is_one_store]), and so do all calls of all clients through
      all nodes ([Fleet.clients_see_one_store]), from the moment the nodes of a new cluster
      have been started ([Startup.started_cluster_serves]), also where they share
      the ring ([Process.process_serves], [Process.shared_defaults]), as in the quick
      start, whose output is known but for a value that expires ([QuickStart.quickstart_prints]);
      the last of the nodes that share a ring stays in it when they stop
      ([Process.stopped_nodes_linger]), the first threaded one to stop cuts the others off
      from all answers, though not their peers from the requests ([Process.shared_defaults]),
      and their gossip teaches nothing and evicts for all
      ([ProcessGossip.shared_gossip_only_evicts]); the asyncio node does what the threaded
      node does under every schedule ([Replicas.async_node_equiv]); a value with a
      time to live is read until the last replica's clock has passed its expiry
      ([ClusterTtl.ttl_read_until_last]), after which a replica that missed the write
      shows the older value ([ClusterTtl.expired_write_uncovers]).
    - Stores: refinement to a map of registers; timestamps never go back; deletes
      are not undone by late writes; replicas that received the same writes in
      different orders agree.
    - Placement: agreement of nodes with the same members, minimal remapping, the
      best [n] members.
    - Wire and serving: messages survive any fragmentation, a cut frame is an
      error, the handler answers in order and always ends.
    - Pools: no two callers use a connection at the same time and none is lost or
      pooled twice, for every interleaving, but a call whose queue is dropped while it runs
      leaks its connection ([PoolClose.overtaken_call_leaks]); what a call returns and leaves behind;
      the multiplexed reader is the blocking one; every request submitted to the
      selector thread is answered ([MuxSpec.mux_answers]), and none after the thread
      has ended.
    - Membership: what handling a message, exchanging lists and announcing do to
      ring and discovery; starting and stopping a node; everybody who takes part in
      enough rounds of gossip learns of every node ([Membership.membership_spreads]);
      the network of nodes that gossip, start, stop and crash refines a system in which a
      node is the set of its members ([Churn.churn_refines]), from which follow what
      starting and stopping do to everybody, when a dead node is forgotten for good, and
      that it need not be ([Eviction.dead_peer_circulates]); a node used in a [with]
      statement leaves however its block ends ([NodeSpec.with_node_stops]).
    - Protocol: a node answers every well-formed request with a well-formed reply and
      nothing else with one, and sends no other requests
      ([Protocol.answer_typed], [Protocol.nodes_speak_typed]).
    - Programs around the store: the three web servers of a cluster serve one store
      ([Web.http_is_one_store]); the workers of a benchmark carry out every operation
      once, for every interleaving ([Workload.async_phase_exact],
      [StoreBench.run_one_exact], [Profile.bench_coro_exact]); what the processes of a
      benchmark did is what its [main] adds up ([BenchSpec.bench_counts]), and all of them
      get to the end where nothing raises ([BenchSpec.bench_completes]) but [main] never does
      where one has died; a number printed with commas is read back
      ([Report.Fmt.commas_roundtrip]), and decimals are the nearest there are
      ([Report.Num.scaled_nearest]); the profilers report medians
      ([Profile.timeit_median]) of calls that succeed ([ProfileSpec.step_timings_complete]).

    ** Modelling choices

    State is passed explicitly and an exception keeps the updates made before it.
    Time is an argument: a call takes the clock readings it makes.  In the stores
    every method is atomic, as the lock makes it; in the pools each access to shared
    data is an action of its own and calls are interleaved action by action; in
    coroutines what runs between two awaits is one action.  Queues and connections
    are references into a heap, so that a call may hold a queue that another has
    dropped.  The payload of a message is a record of optional fields.  Sets whose
    iteration order Python leaves open are duplicate-free lists, and the results
    are proved independent of the order or hold for each order.

    Parameters, with what is assumed of them as named hypotheses: [pickle]
    ([Wire.PickleLaws]: loading inverts dumping, no bytes are not a pickle), name
    resolution ([Discovery.Resolver]), the JSON encoding of the web frameworks
    ([encode]), the client of redis-py and the clock of the benchmarks
    ([perf_counter_ns]), of which nothing is assumed.  SHA-256 is computed;
    agreement of rings assumes that no two members have equal scores for the key
    ([Ring.no_ties]).

    Bounds: [Wire.recv_loop] has as much fuel as bytes missing, since every round
    receives a byte; [Pool.drain] and [Mux.pump] take their fuel as an argument and
    the theorems say how much is enough (the length of the queue, the bytes of the
    input); [Node.serve] takes one clock reading per iteration and ends within a
    quarter of the bytes received; a benchmark's worker that takes indexes from the
    shared counter has one round for each index and one to find none left; the thread
    counts of a sweep double, so that there are fewer than threads and one more; a
    benchmark of [n] processes takes at most [18 n + 38] steps.

    ** What is not modelled

    Logging, and the printed forms of the discovery backends, which nothing reads; the
    sleeping of background threads (their iterations are modelled); cancellation of tasks,
    and time-outs other than as errors of a socket, since both strike at moments that no
    line of the program determines; how long [close_all] of the multiplexed pool and [main]
    of a benchmark wait in [join].  Nodes listen where they say they do; for the quick start
    and the profilers that means a machine whose own name resolves to 127.0.0.1.  [start] sets the gossip
    loop going, whose rounds are events of [Churn] and tasks of [ProcessGossip]; where nodes
    that share a ring are started one after the other ([Process.process_serves]) no round comes in between.  What [cProfile]
    observes is the interpreter, not the program; the parsing of command lines and the limit
    on open files are calls of the standard library with constant arguments.  The
    [__init__.py] files only re-export. *)

From stdpp Require Export base tactics option list numbers gmap strings.
From stdpp Require Export sorting.

(** ** Exceptions and results *)

(** The Python exception classes the modelled code raises or catches. *)
Inductive exn :=
  | KeyError | TypeError | ValueError | AttributeError | OverflowError
  | EOFError | OSError | RuntimeError | ImportError | PicklingError
  | UnpicklingError | TimeoutError | AssertionError | QueueEmpty | QueueFull
  | BlockingIOError | InterruptedError | GaiError | IndexError | ZeroDivisionError.

#[export] Instance exn_eq_dec : EqDecision exn.
Proof. solve_decision. Defined.

(** The outcome of a Python call: a value or a raised exception. *)
Inductive result (A : Type) :=
  | Ok (a : A)
  | Raise (e : exn).
Arguments Ok {A} _.
Arguments Raise {A} _.

#[export] Instance result_eq_dec `{EqDecision A} : EqDecision (result A).
Proof. solve_decision. Defined.

#[export] Instance result_ret : MRet result := λ A a, Ok a.
#[export] Instance result_bind : MBind result := λ A B f r,
  match r with Ok a => f a | Raise e => Raise e end.

(** ** A state and exception monad

    A call reads and updates a state; when it raises, the updates made before
    the exception remain, as they do in Python. *)
Definition M (S A : Type) : Type := S → result A * S.

#[export] Instance M_ret {S} : MRet (M S) := λ A a s, (Ok a, s).
#[export] Instance M_bind {S} : MBind (M S) := λ A B f m s,
  match m s with
  | (Ok a, s') => f a s'
  | (Raise e, s') => (Raise e, s')
  end.

Definition raise {S A} (e : exn) : M S A := λ s, (Raise e, s).
Definition get_state {S} : M S S := λ s, (Ok s, s).
Definition put_state {S} (s' : S) : M S unit := λ _, (Ok tt, s').
Definition modify {S} (f : S → S) : M S unit := λ s, (Ok tt, f s).
Definition lift_result {S A} (r : result A) : M S A := λ s, (r, s).

(** [try: m / except Exception as e: h e]. *)
Definition try_except {S A} (m : M S A) (h : exn → M S A) : M S A := λ s,
  match m s with
  | (Ok a, s') => (Ok a, s')
  | (Raise e, s') => h e s'
  end.

(** [for x in xs: body x], left to right, stopping at the first exception. *)
Fixpoint for_each {S A} (xs : list A) (body : A → M S unit) : M S unit :=
  match xs with
  | [] => mret tt
  | x :: xs => body x ;; for_each xs body
  end.

(** [[body x for x in xs]]. *)
Fixpoint map_each {S A B} (xs : list A) (body : A → M S B) : M S (list B) :=
  match xs with
  | [] => mret []
  | x :: xs => y ← body x; ys ← map_each xs body; mret (y :: ys)
  end.

(** Running a computation that only touches a component of the state. *)
Definition zoom {S T A} (getter : S → T) (setter : T → S → S) (m : M T A) : M S A := λ s,
  let '(r, t) := m (getter s) in (r, setter t s).

(** A computation returns normally from a state. *)
Definition returns {S A} (m : M S A) (s : S) (a : A) (s' : S) : Prop := m s = (Ok a, s').

(** ** Tactics *)

(** Unfold the monad down to the state transformer it is. *)
Ltac unfold_M :=
  unfold mbind, M_bind, mret, M_ret, raise, get_state, put_state, modify,
    lift_result, try_except, zoom, returns in *.

(** Compute a monadic program as far as its scrutinees are known. *)
Ltac run_M := unfold_M; cbn in *.

(** Split on the next scrutinee of the goal, keeping the equation, and clean up. *)
Ltac split_match :=
  match goal with
  | |- context [match ?x with _ => _ end] =>
      lazymatch x with
      | context [match _ with _ => _ end] => fail
      | _ => destruct x eqn:?
      end
  end; simplify_eq/=.

(** ** Generic lemmas *)

Lemma M_bind_Ok {S A B} (m : M S A) (f : A → M S B) s a s' :
  m s = (Ok a, s') → (m ≫= f) s = f a s'.
Proof. intros Hm. unfold mbind, M_bind. by rewrite Hm. Qed.

Lemma M_bind_Raise {S A B} (m : M S A) (f : A → M S B) s e s' :
  m s = (Raise e, s') → (m ≫= f) s = (Raise e, s').
Proof. intros Hm. unfold mbind, M_bind. by rewrite Hm. Qed.

Lemma zoom_run {S T A} (getter : S → T) (setter : T → S → S) (m : M T A) s r t :
  m (getter s) = (r, t) → zoom getter setter m s = (r, setter t s).
Proof. intros Hm. unfold zoom. by rewrite Hm. Qed.

(** Run the first call of a sequence, whose outcome is known. *)
Ltac step_M H := first [erewrite M_bind_Ok by exact H | erewrite M_bind_Raise by exact H].

Lemma for_each_returns_inv {S A} (Inv : S → Prop) (xs : list A) (body : A → M S unit) s :
  (∀ x s, x ∈ xs → Inv s → ∃ s', body x s = (Ok tt, s') ∧ Inv s') →
  Inv s → ∃ s', for_each xs body s = (Ok tt, s') ∧ Inv s'.
Proof.
  induction xs as [|x xs IH] in s |- *; intros Hbody Hs.
  - by exists s.
  - destruct (Hbody x s) as (s' & Heq & Hs'); [set_solver..|].
    destruct (IH s') as (s'' & Heq' & Hs''); [set_solver..|].
    exists s''. split; [|done]. simpl. unfold_M. by rewrite Heq.
Qed.

Lemma for_each_same {S A} (xs : list A) (body : A → M S unit) s :
  (∀ x, x ∈ xs → body x s = (Ok tt, s)) → for_each xs body s = (Ok tt, s).
Proof.
  intros Hbody. destruct (for_each_returns_inv (.= s) xs body s) as (s' & Hrun & ->); [|done|done].
  intros x s' Hx ->. exists s. split; [by apply Hbody|done].
Qed.

Lemma NoDup_filter_fst {A B} (P : A * B → Prop) `{∀ x, Decision (P x)} (l : list (A * B)) :
  NoDup l.*1 → NoDup (filter P l).*1.
Proof.
  induction l as [|[a b] l IH]; [done|].
  rewrite fmap_cons, NoDup_cons. intros [Hnin Hnd].
  rewrite filter_cons. case_decide; [|by apply IH].
  rewrite fmap_cons. apply NoDup_cons. split; [|by apply IH].
  intros ([a' b'] & Heq & Hin)%list_elem_of_fmap. apply Hnin. simpl in *. subst.
  apply list_elem_of_filter in Hin as [_ Hin].
  apply list_elem_of_fmap. by exists (a', b').
Qed.

Lemma length_filter_split {A} (P : A → Prop) `{∀ x, Decision (P x)} (l : list A) :
  length (filter P l) + length (filter (λ x, ¬ P x) l) = length l.
Proof.
  induction l as [|x l IH]; [done|].
  rewrite !filter_cons. repeat case_decide; simpl; try lia; done.
Qed.

Lemma filter_ext_in {A} (P Q : A → Prop) `{∀ x, Decision (P x)} `{∀ x, Decision (Q x)} (l : list A) :
  (∀ x, x ∈ l → P x ↔ Q x) → filter P l = filter Q l.
Proof.
  induction l as [|x l IH]; intros Hiff; [done|].
  rewrite !filter_cons, IH by set_solver.
  specialize (Hiff x). repeat case_decide; set_solver.
Qed.

Lemma filter_all {A} (P : A → Prop) `{∀ x, Decision (P x)} (l : list A) :
  (∀ x, x ∈ l → P x) → filter P l = l.
Proof.
  induction l as [|x l IH]; intros HP; [done|].
  rewrite filter_cons_True by set_solver. f_equal. set_solver.
Qed.

Lemma omap_id_Some {A} (l : list A) : omap id (Some <$> l) = l.
Proof. induction l as [|x l IH]; [done|]. csimpl. by rewrite IH. Qed.

Lemma omap_lookup_seq {A} (pre l : list A) :
  omap ((pre ++ l) !!.) (seq (length pre) (length l)) = l.
Proof.
  revert pre. induction l as [|x l IH]; intros pre; [done|]. csimpl.
  rewrite list_lookup_middle by done. csimpl. f_equal.
  specialize (IH (pre ++ [x])). rewrite <- app_assoc, length_app, Nat.add_1_r in IH. apply IH.
Qed.

(** ** Automation shared by the components *)
Create HintDb dls.
Create Rewrite HintDb dls.
