(* ===== verification/Async.v ===== *)
(** * Concurrent tasks ([asyncio.gather])

    [asyncio.gather] with [return_exceptions=True] runs the tasks concurrently
    and returns their outcomes in the order of the tasks, whatever the order in
    which they finish.  A schedule is the order in which the tasks take effect;
    each task's effect is one step of the model.  At the end, what a program keeps
    throughout, whether it raises or not. *)
From S2P Require Import Prelude.

Section gather.
Context {S A : Type}.
Implicit Types (tasks : list (M S A)) (order : list nat) (s : S).

(** The state and the outcomes recorded so far, by task number. *)
Definition gather_step tasks (st : S * list (option (result A))) (i : nat) :=
  match tasks !! i with
  | Some t => let '(r, s') := t st.1 in (s', <[i := Some r]> st.2)
  | None => st
  end.

Definition gather order tasks : M S (list (result A)) := λ s,
  let '(s', slots) := foldl (gather_step tasks) (s, replicate (length tasks) None) order in
  (Ok (omap id slots), s').

(** Every task runs exactly once. *)
Definition schedule_of tasks order : Prop := order ≡ₚ seq 0 (length tasks).

(** The tasks one after the other, all outcomes kept. *)
Fixpoint run_all tasks s : list (result A) * S :=
  match tasks with
  | [] => ([], s)
  | t :: ts => let '(r, s1) := t s in let '(rs, s2) := run_all ts s1 in (r :: rs, s2)
  end.

Lemma gather_in_order_aux (pre tasks : list (M S A)) s (rs : list (result A)) :
  length rs = length pre →
  foldl (gather_step (pre ++ tasks))
    (s, (Some <$> rs) ++ replicate (length tasks) None) (seq (length pre) (length tasks)) =
  ((run_all tasks s).2, Some <$> (rs ++ (run_all tasks s).1)).
Proof.
  revert pre s rs. induction tasks as [|t ts IH]; intros pre s rs Hlen; simpl.
  { by rewrite !app_nil_r. }
  assert (gather_step (pre ++ t :: ts)
      (s, (Some <$> rs) ++ None :: replicate (length ts) None) (length pre) =
    ((t s).2, (Some <$> (rs ++ [(t s).1])) ++ replicate (length ts) None)) as ->.
  { unfold gather_step. rewrite list_lookup_middle by done. cbn [fst snd].
    destruct (t s) as [r s1]. cbn [fst snd]. f_equal.
    rewrite insert_app_r_alt by (rewrite length_fmap; lia).
    rewrite length_fmap, Hlen, Nat.sub_diag. simpl. by rewrite fmap_app, <- app_assoc. }
  specialize (IH (pre ++ [t]) (t s).2 (rs ++ [(t s).1])).
  rewrite !length_app, <- app_assoc in IH. simpl in IH. rewrite !Nat.add_1_r in IH.
  rewrite IH by lia.
  destruct (t s) as [r s1]. simpl. destruct (run_all ts s1). simpl. by rewrite <- app_assoc.
Qed.

Lemma gather_in_order tasks s :
  gather (seq 0 (length tasks)) tasks s = (Ok (run_all tasks s).1, (run_all tasks s).2).
Proof.
  unfold gather. pose proof (gather_in_order_aux [] tasks s [] eq_refl) as H. simpl in H.
  by rewrite H, omap_id_Some.
Qed.

(** Two tasks may be exchanged, from the states of interest. *)
Definition commute (Inv : S → Prop) (t1 t2 : M S A) : Prop :=
  ∀ s, Inv s →
    (t2 (t1 s).2).2 = (t1 (t2 s).2).2 ∧
    (t2 (t1 s).2).1 = (t2 s).1 ∧ (t1 (t2 s).2).1 = (t1 s).1.

Definition preserves (Inv : S → Prop) (t : M S A) : Prop := ∀ s, Inv s → Inv (t s).2.

Lemma gather_permute (Inv : S → Prop) tasks order1 order2 st :
  order1 ≡ₚ order2 → NoDup order1 → Inv st.1 →
  (∀ i t, tasks !! i = Some t → preserves Inv t) →
  (∀ i j t1 t2, i ≠ j → tasks !! i = Some t1 → tasks !! j = Some t2 → commute Inv t1 t2) →
  foldl (gather_step tasks) st order1 = foldl (gather_step tasks) st order2.
Proof.
  intros Hperm. revert st.
  induction Hperm as [|i o1 o2 Hperm IH|i j o|o1 o2 o3 H1 IH1 H2 IH2];
    intros st Hnd Hst Hpres Hcomm; simpl; [done| | |].
  - apply IH; [by apply NoDup_cons in Hnd as [_ ?]| |done|done].
    unfold gather_step. destruct (tasks !! i) as [t|] eqn:Hi; [|done].
    specialize (Hpres i t Hi st.1 Hst). by destruct (t st.1).
  - f_equal. unfold gather_step.
    assert (i ≠ j) as Hne by (apply NoDup_cons in Hnd as [? _]; set_solver).
    destruct (tasks !! i) as [ti|] eqn:Hi, (tasks !! j) as [tj|] eqn:Hj; try done.
    destruct (Hcomm i j ti tj Hne Hi Hj st.1 Hst) as (Hs & Hj' & Hi').
    destruct (ti st.1) as [ri si] eqn:Hti, (tj st.1) as [rj sj] eqn:Htj. simpl in *.
    destruct (tj si) as [rj' sij] eqn:Htij, (ti sj) as [ri' sji] eqn:Htji. simpl in *.
    subst. f_equal. by apply list_insert_insert_ne.
  - rewrite IH1 by done. apply IH2; [by rewrite <- H1|done..].
Qed.

(** Commuting tasks yield the same outcomes and the same state under any
    schedule, those of running them one after the other. *)
Lemma gather_any_schedule (Inv : S → Prop) tasks order s :
  schedule_of tasks order → Inv s →
  (∀ i t, tasks !! i = Some t → preserves Inv t) →
  (∀ i j t1 t2, i ≠ j → tasks !! i = Some t1 → tasks !! j = Some t2 → commute Inv t1 t2) →
  gather order tasks s = (Ok (run_all tasks s).1, (run_all tasks s).2).
Proof.
  intros Hord Hs Hpres Hcomm. rewrite <- gather_in_order. unfold gather.
  rewrite (gather_permute Inv tasks order (seq 0 (length tasks))); [done|done| |done..].
  rewrite Hord. apply NoDup_seq.
Qed.
End gather.

(** Where the tasks are the same call for the elements of a list and never raise, gathering
    them is making the calls one after the other, in the order in which they take effect. *)
Lemma gather_for_each {S A X} (Inv : S → Prop) (t : X → M S A) (xs : list X) order s :
  (∀ x s, Inv s → ∃ a s', t x s = (Ok a, s') ∧ Inv s') → Inv s →
  ∃ rs, gather order (t <$> xs) s = (Ok rs, (for_each (omap (xs !!.) order) (λ x, t x ;; mret tt) s).2).
Proof.
  intros Ht. unfold gather. generalize (replicate (length (t <$> xs)) (@None (result A))) as slots.
  revert s. induction order as [|i order IH]; intros s slots Hs; [by eexists|].
  cbn [foldl]. unfold gather_step at 2. cbn [fst snd]. rewrite list_lookup_fmap.
  cbn [omap list_omap]. destruct (xs !! i) as [x|] eqn:Hx; [|by apply IH].
  cbn [fmap option_fmap option_map]. destruct (Ht x s Hs) as (a & s' & Hrun & Hs'). rewrite Hrun.
  destruct (IH s' (<[i := Some (Ok a)]> slots) Hs') as [rs Hrs]. exists rs. rewrite Hrs. cbn [for_each].
  assert ((t x ;; mret tt) s = (Ok tt, s')) as Hstep by by step_M Hrun. by step_M Hstep.
Qed.

(** ** What a program keeps

    [R] is a preorder on states; a program is within it when it only moves along it. *)
Section within.
Context {S : Type} (R : relation S) `{!PreOrder R}.

Definition within {A} (m : M S A) : Prop := ∀ s, R s (m s).2.

Lemma within_ret {A} (a : A) : within (mret a).
Proof. intros s. simpl. reflexivity. Qed.

Lemma within_lift {A} (r : result A) : within (lift_result r).
Proof. intros s. unfold lift_result. simpl. reflexivity. Qed.

Lemma within_bind {A B} (m : M S A) (f : A → M S B) : within m → (∀ a, within (f a)) → within (m ≫= f).
Proof.
  intros Hm Hf s. specialize (Hm s). unfold mbind, M_bind. destruct (m s) as [[a|e] s']; [|done].
  etrans; [exact Hm|apply Hf].
Qed.

Lemma within_state {A} (f : S → M S A) : (∀ s, within (f s)) → within (get_state ≫= f).
Proof. intros Hf s. exact (Hf s s). Qed.

Lemma within_try {A} (m : M S A) (h : exn → M S A) : within m → (∀ e, within (h e)) → within (try_except m h).
Proof.
  intros Hm Hh s. specialize (Hm s). unfold try_except. destruct (m s) as [[a|e] s']; [done|].
  etrans; [exact Hm|apply Hh].
Qed.

Lemma within_map_each {A B} (xs : list A) (body : A → M S B) :
  (∀ x, x ∈ xs → within (body x)) → within (map_each xs body).
Proof.
  induction xs as [|x xs IH]; intros Hb; [apply within_ret|].
  apply within_bind; [apply Hb; left|]. intros y. apply within_bind; [|intros ys; apply within_ret].
  apply IH. intros z Hz. apply Hb. by right.
Qed.

Lemma within_for_each {A} (xs : list A) (body : A → M S unit) :
  (∀ x, x ∈ xs → within (body x)) → within (for_each xs body).
Proof.
  induction xs as [|x xs IH]; intros Hb; [apply within_ret|].
  apply within_bind; [apply Hb; left|]. intros []. apply IH. intros z Hz. apply Hb. by right.
Qed.

Lemma within_gather {A} order (tasks : list (M S A)) :
  (∀ t, t ∈ tasks → within t) → within (gather order tasks).
Proof.
  intros Ht s. unfold gather.
  assert (∀ st, R st.1 (foldl (gather_step tasks) st order).1) as Hfold.
  { induction order as [|i order IH]; intros st; [reflexivity|]. simpl. etrans; [|apply IH].
    unfold gather_step. destruct (tasks !! i) as [t|] eqn:Hi; [|reflexivity].
    specialize (Ht t (list_elem_of_lookup_2 _ _ _ Hi) st.1). by destruct (t st.1). }
  specialize (Hfold (s, replicate (length tasks) None)). by destruct (foldl _ _ _).
Qed.
End within.
