(* ===== verification/Threads.v ===== *)
(** * Threads

    Code that several threads (or coroutines) run on a shared object is a
    program: a tree of atomic actions on the shared state, each followed by a
    continuation for its outcome.  One program run alone is a computation of the
    state monad; several run interleaved, one atomic action at a time.  A thread
    holds a finite set of resources (here, connections taken from a pool);
    [wp] proves an invariant of the shared state for every interleaving. *)
From S2P Require Import Prelude.

Inductive prog (S A : Type) : Type :=
  | Ret (r : result A)
  | Act {X : Type} (m : M S X) (k : result X → prog S A).
Arguments Ret {S A} _.
Arguments Act {S A X} _ _.

(** [p], then [f] on its value; an exception skips [f]. *)
Fixpoint prog_bind {S A B} (f : A → prog S B) (p : prog S A) : prog S B :=
  match p with
  | Ret (Ok a) => f a
  | Ret (Raise e) => Ret (Raise e)
  | Act m k => Act m (λ r, prog_bind f (k r))
  end.

#[export] Instance prog_ret {S} : MRet (prog S) := λ A a, Ret (Ok a).
#[export] Instance prog_mbind {S} : MBind (prog S) := λ A B, prog_bind.

(** [try: p / except Exception: h e]. *)
Fixpoint prog_try {S A} (p : prog S A) (h : exn → prog S A) : prog S A :=
  match p with
  | Ret (Ok a) => Ret (Ok a)
  | Ret (Raise e) => h e
  | Act m k => Act m (λ r, prog_try (k r) h)
  end.

(** A single atomic action. *)
Definition act {S X} (m : M S X) : prog S X := Act m Ret.

(** The program run without interruption. *)
Fixpoint run {S A} (p : prog S A) : M S A :=
  match p with
  | Ret r => λ s, (r, s)
  | Act m k => λ s, let '(r, s') := m s in run (k r) s'
  end.

(** The outcomes a program may end with, its actions being taken in any states. *)
Fixpoint may_end {S A} (p : prog S A) (r : result A) : Prop :=
  match p with
  | Ret r' => r = r'
  | Act m k => ∃ s, may_end (k (m s).1) r
  end.

(** A program acting on a component of the state. *)
Fixpoint prog_zoom {S T A} (getter : S → T) (setter : T → S → S) (p : prog T A) : prog S A :=
  match p with
  | Ret r => Ret r
  | Act m k => Act (zoom getter setter m) (λ r, prog_zoom getter setter (k r))
  end.

Section run.
Context {S A B : Type}.
Implicit Types (p : prog S A) (s : S).

Lemma run_bind (f : A → prog S B) p s :
  run (p ≫= f) s =
    match run p s with
    | (Ok a, s') => run (f a) s'
    | (Raise e, s') => (Raise e, s')
    end.
Proof.
  revert s. induction p as [[a|e]|X m k IH]; intros s; [done..|].
  simpl. destruct (m s) as [r s']. apply (IH r s').
Qed.

Lemma run_try p h s :
  run (prog_try p h) s =
    match run p s with
    | (Ok a, s') => (Ok a, s')
    | (Raise e, s') => run (h e) s'
    end.
Proof.
  revert s. induction p as [[a|e]|X m k IH]; intros s; [done..|].
  simpl. destruct (m s) as [r s']. apply (IH r s').
Qed.

Lemma run_act (m : M S A) s : run (act m) s = m s.
Proof. simpl. by destruct (m s). Qed.
End run.

(** ** Interleaving *)

(** One atomic action of thread [i], if it has one left. *)
Definition thread_step {S A} (st : list (prog S A) * S) (i : nat) : list (prog S A) * S :=
  match st.1 !! i with
  | Some (Act m k) => let '(r, s') := m st.2 in (<[i := k r]> st.1, s')
  | _ => st
  end.

(** The threads run interleaved, in the order in which they are scheduled. *)
Definition interleave {S A} (order : list nat) (st : list (prog S A) * S) :=
  foldl thread_step st order.

Definition finished {S A} (p : prog S A) : bool :=
  match p with Ret _ => true | Act _ _ => false end.

(** ** A logic of held resources *)

(** [same x s s']: the resource [x] is the same in both states. *)
Class Unchanged {R S} (same : R → S → S → Prop) := {
  same_refl x : Reflexive (same x);
  same_trans x : Transitive (same x);
}.
#[export] Existing Instances same_refl same_trans.

Section wp.
Context {R S : Type} `{Countable R}.

(** [Inv held s]: the invariant of the shared state, [held] being the resources
    all the threads hold together. *)
Context (Inv : gset R → S → Prop).

Context (same : R → S → S → Prop) `{!Unchanged same}.

(** A thread holding [held] runs safely, and ends with an outcome and resources
    satisfying [Q]: each of its actions, taken when the other threads hold
    [others], keeps the invariant and does not touch what the others hold. *)
Fixpoint wp {A} (held : gset R) (p : prog S A) (Q : gset R → result A → Prop) : Prop :=
  match p with
  | Ret r => Q held r
  | Act m k => ∀ others s, held ## others → Inv (held ∪ others) s →
      ∃ held', held' ## others ∧ Inv (held' ∪ others) (m s).2 ∧
        (∀ x, x ∈ others → same x s (m s).2) ∧ wp held' (k (m s).1) Q
  end.

Lemma wp_mono {A} held (p : prog S A) (Q Q' : gset R → result A → Prop) :
  wp held p Q → (∀ held' r, Q held' r → Q' held' r) → wp held p Q'.
Proof.
  intros Hwp HQ. revert held Hwp. induction p as [r|X m k IH]; intros held Hwp; [by apply HQ|].
  intros others s Hd Hinv. destruct (Hwp others s Hd Hinv) as (held' & ? & ? & ? & ?).
  exists held'. split_and!; [done..|]. by apply IH.
Qed.

Lemma wp_bind {A B} held (p : prog S A) (f : A → prog S B) Q :
  wp held p (λ held' r, match r with
    | Ok a => wp held' (f a) Q
    | Raise e => Q held' (Raise e) end) →
  wp held (p ≫= f) Q.
Proof.
  revert held. induction p as [[a|e]|X m k IH]; intros held Hwp; [done..|].
  intros others s Hd Hinv. destruct (Hwp others s Hd Hinv) as (held' & ? & ? & ? & ?).
  exists held'. split_and!; [done..|]. by apply IH.
Qed.

Lemma wp_try {A} held (p : prog S A) h Q :
  wp held p (λ held' r, match r with
    | Ok a => Q held' (Ok a)
    | Raise e => wp held' (h e) Q end) →
  wp held (prog_try p h) Q.
Proof.
  revert held. induction p as [[a|e]|X m k IH]; intros held Hwp; [done..|].
  intros others s Hd Hinv. destruct (Hwp others s Hd Hinv) as (held' & ? & ? & ? & ?).
  exists held'. split_and!; [done..|]. by apply IH.
Qed.

Lemma wp_act {X} held (m : M S X) (Q : gset R → result X → Prop) :
  (∀ others s, held ## others → Inv (held ∪ others) s →
     ∃ held', held' ## others ∧ Inv (held' ∪ others) (m s).2 ∧
       (∀ x, x ∈ others → same x s (m s).2) ∧ Q held' (m s).1) →
  wp held (act m) Q.
Proof. done. Qed.

(** A component of the state the invariant says nothing about. *)
Lemma wp_zoom {T A} held (getter : S → T) setter (p : prog T A) (Q : gset R → result A → Prop) :
  (∀ held s t, Inv held s → Inv held (setter t s)) → (∀ x s t, same x s (setter t s)) →
  (∀ r, may_end p r → Q held r) → wp held (prog_zoom getter setter p) Q.
Proof.
  intros Hinv Hsame HQ. induction p as [r|X m k IH]; [by apply HQ|]. intros others s Hd Hs. exists held.
  unfold zoom. destruct (m (getter s)) as [r t] eqn:Hm. simpl. split_and!; auto.
  apply IH. intros r' Hr. apply HQ. exists (getter s). by rewrite Hm.
Qed.

(** Several operations in one atomic action. *)
Lemma wp_act_bind {X Y} held (m : M S X) (f : X → M S Y)
    (Q : gset R → result Y → Prop) :
  wp held (act m) (λ held' r, match r with
    | Ok a => wp held' (act (f a)) Q
    | Raise e => Q held' (Raise e) end) →
  wp held (act (m ≫= f)) Q.
Proof.
  intros Hwp others s Hd Hinv. unfold mbind, M_bind.
  destruct (Hwp others s Hd Hinv) as (h1 & Hd1 & Hinv1 & Hs1 & HQ).
  destruct (m s) as [[a|e] s1]; simpl in *; [|by exists h1].
  destruct (HQ others s1 Hd1 Hinv1) as (h2 & Hd2 & Hinv2 & Hs2 & HQ2).
  destruct (f a s1) as [r s2]; simpl in *. exists h2. split_and!; [done..| |done].
  intros x Hx. etrans; [by apply Hs1|by apply Hs2].
Qed.

Lemma wp_act_try {X} held (m : M S X) h
    (Q : gset R → result X → Prop) :
  wp held (act m) (λ held' r, match r with
    | Ok a => Q held' (Ok a)
    | Raise e => wp held' (act (h e)) Q
    end) →
  wp held (act (try_except m h)) Q.
Proof.
  intros Hwp others s Hd Hinv. unfold try_except.
  destruct (Hwp others s Hd Hinv) as (h1 & Hd1 & Hinv1 & Hs1 & HQ).
  destruct (m s) as [[a|e] s1]; simpl in *; [by exists h1|].
  destruct (HQ others s1 Hd1 Hinv1) as (h2 & Hd2 & Hinv2 & Hs2 & HQ2).
  destruct (h e s1) as [r s2]; simpl in *. exists h2. split_and!; [done..| |done].
  intros x Hx. etrans; [by apply Hs1|by apply Hs2].
Qed.

Lemma wp_act_ret {X} held (a : X) (Q : gset R → result X → Prop) :
  Q held (Ok a) → wp held (act (mret a)) Q.
Proof. intros HQ others s Hd Hinv. by exists held. Qed.

(** Every thread is safe with what it holds, thread [i] ending as [Q i] says, no resource is held twice, and the
    invariant holds. *)
Definition safe_threads {A} (Q : nat → gset R → result A → Prop) (helds : list (gset R))
    (st : list (prog S A) * S) : Prop :=
  (length helds = length st.1 ∧
   ∀ i held p, helds !! i = Some held → st.1 !! i = Some p → wp held p (Q i)) ∧
  (∀ i j h1 h2, i ≠ j → helds !! i = Some h1 → helds !! j = Some h2 → h1 ## h2) ∧
  Inv (⋃ helds) st.2.

Lemma union_list_split (helds : list (gset R)) i h :
  helds !! i = Some h →
  (∀ i j h1 h2, i ≠ j → helds !! i = Some h1 → helds !! j = Some h2 → h1 ## h2) →
  ∃ others, ⋃ helds = h ∪ others ∧ h ## others ∧
    (∀ j hj, i ≠ j → helds !! j = Some hj → hj ⊆ others) ∧
    ∀ h', ⋃ (<[i := h']> helds) = h' ∪ others ∧
      (h' ## others → ∀ j hj, i ≠ j → helds !! j = Some hj → h' ## hj).
Proof.
  intros Hi Hdisj. exists (⋃ (delete i helds)).
  assert (∀ x, x ∈ ⋃ (delete i helds) ↔ ∃ j hj, i ≠ j ∧ helds !! j = Some hj ∧ x ∈ hj) as Hdel.
  { intros x. rewrite elem_of_union_list. split.
    - intros (hj & [j Hj]%list_elem_of_lookup_1 & Hx).
      destruct (decide (j < i)).
      + rewrite list_lookup_delete_lt in Hj by done. exists j, hj. split_and!; [lia|done..].
      + rewrite list_lookup_delete_ge in Hj by lia. exists (Datatypes.S j), hj.
        split_and!; [lia|done..].
    - intros (j & hj & Hne & Hj & Hx). exists hj. split; [|done].
      destruct (decide (j < i)).
      + apply (list_elem_of_lookup_2 _ j). by rewrite list_lookup_delete_lt.
      + apply (list_elem_of_lookup_2 _ (pred j)). rewrite list_lookup_delete_ge by lia.
        rewrite Nat.lt_succ_pred with (z := i); [done|lia]. }
  assert (∀ h', ⋃ (<[i := h']> helds) = h' ∪ ⋃ (delete i helds)) as Hins.
  { intros h'. apply set_eq. intros x. rewrite elem_of_union, Hdel, elem_of_union_list.
    apply lookup_lt_Some in Hi as Hlt. split.
    - intros (hj & [j Hj]%list_elem_of_lookup_1 & Hx). destruct (decide (i = j)) as [<-|Hne].
      + rewrite list_lookup_insert_eq in Hj by done. left. congruence.
      + rewrite list_lookup_insert_ne in Hj by done. right. by exists j, hj.
    - intros [Hx|(j & hj & Hne & Hj & Hx)].
      + exists h'. split; [|done]. apply (list_elem_of_lookup_2 _ i).
        by rewrite list_lookup_insert_eq.
      + exists hj. split; [|done]. apply (list_elem_of_lookup_2 _ j).
        by rewrite list_lookup_insert_ne. }
  split_and!.
  - rewrite <- (Hins h). by rewrite list_insert_id.
  - intros x Hx (j & hj & Hne & Hj & Hx')%Hdel. by eapply (Hdisj i j).
  - intros j hj Hne Hj x Hx. apply Hdel. by exists j, hj.
  - intros h'. split; [done|]. intros Hd j hj Hne Hj x Hx Hx'. apply (Hd x Hx).
    apply Hdel. by exists j, hj.
Qed.

Lemma thread_step_safe {A} (Q : nat → gset R → result A → Prop) helds st i :
  safe_threads Q helds st →
  (∀ j h x, i ≠ j → helds !! j = Some h → x ∈ h → same x st.2 (thread_step st i).2) ∧
  ∃ helds', safe_threads Q helds' (thread_step st i) ∧
    ∀ j, i ≠ j → helds' !! j = helds !! j.
Proof.
  destruct st as [ts s]. intros (Hwp & Hdisj & Hinv). unfold thread_step. simpl in *.
  destruct (ts !! i) as [[r|X m k]|] eqn:Hi; [by split; [|exists helds]| |by split; [|exists helds]].
  destruct Hwp as [Hlen Hwp]. destruct (lookup_lt_is_Some_2 helds i) as [h Hh].
  { rewrite Hlen. by eapply lookup_lt_Some. }
  pose proof (Hwp i h _ Hh Hi) as Hk.
  destruct (union_list_split helds i h Hh Hdisj) as (others & Heq & Hd & Hsub & Hins).
  rewrite Heq in Hinv. destruct (Hk others s Hd Hinv) as (h' & Hd' & Hinv' & Hsame & Hk').
  destruct (m s) as [r s'] eqn:Hm. simpl in *. split.
  { intros j hj x Hne Hj Hx. apply Hsame. by apply (Hsub j hj). }
  exists (<[i := h']> helds). split; [|intros j Hne; by rewrite list_lookup_insert_ne].
  split; [|split]; simpl.
  - split; [by rewrite !length_insert|]. intros j hj p.
    intros [(<- & <- & _)|[Hne Hj]]%list_lookup_insert_Some.
    + rewrite list_lookup_insert_eq by (by eapply lookup_lt_Some). by intros [= <-].
    + rewrite list_lookup_insert_ne by done. by apply Hwp.
  - intros j1 j2 h1 h2 Hne H1 H2.
    apply list_lookup_insert_Some in H1 as [(-> & <- & _)|[Hne1 H1]];
      apply list_lookup_insert_Some in H2 as [(-> & <- & _)|[Hne2 H2]]; try done.
    + by eapply Hins.
    + symmetry. by eapply Hins.
    + by eapply (Hdisj j1 j2).
  - by rewrite (proj1 (Hins h')).
Qed.

(** The threads start with nothing. *)
Lemma safe_start {A} (Q : nat → gset R → result A → Prop) ts s :
  (∀ i p, ts !! i = Some p → wp ∅ p (Q i)) → Inv ∅ s →
  safe_threads Q (replicate (length ts) ∅) (ts, s).
Proof.
  intros Hts Hinv. split; [|split]; simpl.
  - split; [by rewrite length_replicate|].
    intros i held p [-> _]%lookup_replicate Hp. by apply Hts.
  - intros i j h1 h2 _ [-> _]%lookup_replicate _. set_solver.
  - assert (⋃ replicate (length ts) (∅ : gset R) = ∅) as ->; [|done].
    clear. induction (length ts); [done|]. simpl. set_solver.
Qed.

(** The invariant holds under every interleaving. *)
Lemma interleave_safe {A} (Q : nat → gset R → result A → Prop) helds order st :
  safe_threads Q helds st → ∃ helds', safe_threads Q helds' (interleave order st).
Proof.
  revert helds st. induction order as [|i order IH]; intros helds st Hst; [by exists helds|].
  destruct (thread_step_safe Q helds st i Hst) as (_ & helds' & Hst' & _). by eapply IH.
Qed.

(** A program run alone. *)
Lemma run_safe {A} held (p : prog S A) Q s :
  wp held p Q → Inv held s →
  ∃ held', Inv held' (run p s).2 ∧ Q held' (run p s).1.
Proof.
  revert held s. induction p as [r|X m k IH]; intros held s Hwp Hinv; [by exists held|].
  destruct (Hwp ∅ s) as (held' & _ & Hinv' & _ & Hk); [set_solver|by rewrite union_empty_r_L|].
  rewrite union_empty_r_L in Hinv'. simpl. destruct (m s) as [r s'].
  by apply (IH r held').
Qed.
End wp.

(** ** Programs all of whose actions respect a relation *)

Inductive every {S A} (P : S → S → Prop) : prog S A → Prop :=
  | every_ret r : every P (Ret r)
  | every_act {X} (m : M S X) k :
      (∀ s, P s (m s).2) → (∀ r, every P (k r)) → every P (Act m k).

Section every.
Context {S : Type} (P : S → S → Prop).

Lemma every_bind {A B} (p : prog S A) (f : A → prog S B) :
  every P p → (∀ a, every P (f a)) → every P (p ≫= f).
Proof.
  intros Hp Hf. induction Hp as [[a|e]|X m k Hm _ IH]; [apply Hf|constructor|].
  by constructor.
Qed.

Lemma every_try {A} (p : prog S A) h : every P p → (∀ e, every P (h e)) → every P (prog_try p h).
Proof.
  intros Hp Hh. induction Hp as [[a|e]|X m k Hm _ IH]; [constructor|apply Hh|].
  by constructor.
Qed.

Lemma every_one {X} (m : M S X) : (∀ s, P s (m s).2) → every P (act m).
Proof. intros Hm. constructor; [done|]. intros r. constructor. Qed.

Lemma every_step {A} (st : list (prog S A) * S) i :
  (∀ t, t ∈ st.1 → every P t) → (∀ s, P s s) →
  (∀ t, t ∈ (thread_step st i).1 → every P t) ∧ P st.2 (thread_step st i).2.
Proof.
  intros Hall Hrefl. unfold thread_step. destruct (st.1 !! i) as [t|] eqn:Hi; [|by split].
  assert (every P t) as Ht by (by eapply Hall, list_elem_of_lookup_2).
  inversion Ht as [r|X m k Hm Hk]; subst; [by split|]. specialize (Hm st.2).
  destruct (m st.2) as [r s']. split; [|done]. simpl. intros t Hin.
  apply list_elem_of_lookup in Hin as [j Hj].
  apply list_lookup_insert_Some in Hj as [(_ & <- & _)|[_ Hj]]; [done|].
  by eapply Hall, list_elem_of_lookup_2.
Qed.

Lemma every_residual {A} order (st : list (prog S A) * S) j p :
  st.1 !! j = Some p → every P p → ∃ p', (interleave order st).1 !! j = Some p' ∧ every P p'.
Proof.
  revert p st. induction order as [|i order IH]; intros p st Hj Hp; [by exists p|]. simpl.
  destruct (decide (i = j)) as [->|Hne].
  - unfold thread_step. rewrite Hj. inversion Hp as [r|X m k Hm Hk]; subst; [by eapply IH|].
    destruct (m st.2) as [r s']. eapply (IH (k r)); [|done]. simpl.
    apply list_lookup_insert_eq. by eapply lookup_lt_Some.
  - eapply (IH p); [|done]. unfold thread_step.
    destruct (st.1 !! i) as [[|]|]; try done. destruct (m st.2). simpl.
    by rewrite list_lookup_insert_ne.
Qed.
End every.

Lemma interleave_length {S A} order (st : list (prog S A) * S) :
  length (interleave order st).1 = length st.1.
Proof.
  revert st. induction order as [|i order IH]; intros st; [done|]. simpl. rewrite IH.
  unfold thread_step. destruct (st.1 !! i) as [[|]|]; try done. destruct (m st.2).
  apply length_insert.
Qed.

(** A thread that has ended did so in a way it may end alone, in some states. *)
Lemma interleave_may_end {S A} order (st : list (prog S A) * S) i p r :
  st.1 !! i = Some p → (interleave order st).1 !! i = Some (Ret r) → may_end p r.
Proof.
  revert p st. induction order as [|j order IH]; intros p st Hi; simpl.
  { rewrite Hi. by intros [= ->]. }
  intros Hr. destruct (decide (j = i)) as [->|Hne].
  - unfold thread_step in Hr. rewrite Hi in Hr. destruct p as [r'|X m k]; [by apply (IH _ st)|].
    exists st.2. destruct (m st.2) as [x s'] eqn:Hm. simpl. eapply IH; [|exact Hr]. simpl.
    apply list_lookup_insert_eq. by eapply lookup_lt_Some.
  - eapply (IH p); [|exact Hr]. unfold thread_step. destruct (st.1 !! j) as [[|]|]; try done.
    destruct (m st.2). simpl. by rewrite list_lookup_insert_ne.
Qed.

Lemma may_end_some {S A} (p : prog S A) : inhabited S → ∃ r, may_end p r.
Proof.
  intros [s]. induction p as [r|X m k IH]; [by exists r|]. destruct (IH (m s).1) as [r Hr]. exists r. by exists s.
Qed.

(** Threads never block: whatever has been scheduled, they can all be brought to their
    ends. *)
Lemma interleave_app {S A} o1 o2 (st : list (prog S A) * S) :
  interleave (o1 ++ o2) st = interleave o2 (interleave o1 st).
Proof. apply foldl_app. Qed.

Lemma thread_finishes {S A} (p : prog S A) i ts s :
  ts !! i = Some p → ∃ order r s', interleave order (ts, s) = (<[i := Ret r]> ts, s').
Proof.
  revert ts s. induction p as [r|X m k IH]; intros ts s Hi.
  { exists [], r, s. by rewrite list_insert_id. }
  destruct (m s) as [r s1] eqn:Hm.
  destruct (IH r (<[i := k r]> ts) s1) as (order & r' & s' & Hrun).
  { apply list_lookup_insert_eq. by eapply lookup_lt_Some. }
  exists (i :: order), r', s'. cbn [interleave foldl]. unfold thread_step at 2. simpl.
  rewrite Hi, Hm. fold (interleave order (<[i:=k r]> ts, s1)). rewrite Hrun. by rewrite list_insert_insert_eq.
Qed.

Lemma interleave_finishes {S A} (st : list (prog S A) * S) :
  ∃ order, Forall (λ p, finished p = true) (interleave order st).1.
Proof.
  destruct st as [ts s].
  assert (∀ n, n ≤ length ts → ∃ order, let st := interleave order (ts, s) in
    length st.1 = length ts ∧ ∀ i p, i < n → st.1 !! i = Some p → finished p = true) as Hn.
  { induction n as [|n IH]; intros Hlt; [exists []; by split; [|lia]|].
    destruct IH as (o1 & Hlen & Hdone); [lia|].
    destruct (interleave o1 (ts, s)) as [ts1 s1] eqn:H1. simpl in *.
    destruct (lookup_lt_is_Some_2 ts1 n) as [p Hp]; [lia|].
    destruct (thread_finishes p n ts1 s1 Hp) as (o2 & r & s2 & H2).
    exists (o1 ++ o2). rewrite interleave_app, H1, H2. simpl. rewrite length_insert.
    split; [done|]. intros i q Hi [(-> & <- & _)|[Hne Hq]]%list_lookup_insert_Some; [done|].
    eapply (Hdone i); [lia|done]. }
  destruct (Hn (length ts)) as (order & Hlen & Hdone); [done|]. exists order.
  apply Forall_lookup. intros i p Hp. eapply Hdone; [|done]. rewrite <- Hlen. by eapply lookup_lt_Some.
Qed.

(** One thread among others that keep what its own proof needs. *)
Fixpoint stable_wp {S A} (Inv : S → Prop) (p : prog S A) (Q : result A → Prop) : Prop :=
  match p with
  | Ret r => Q r
  | Act m k => ∀ s, Inv s → Inv (m s).2 ∧ stable_wp Inv (k (m s).1) Q
  end.

Lemma stable_bind {S A B} (Inv : S → Prop) (p : prog S A) (f : A → prog S B) Q :
  stable_wp Inv p (λ r, match r with Ok a => stable_wp Inv (f a) Q | Raise e => Q (Raise e) end) →
  stable_wp Inv (p ≫= f) Q.
Proof.
  induction p as [[a|e]|X m k IH]; intros Hwp; [done..|]. intros s Hs.
  destruct (Hwp s Hs) as [? ?]. split; [done|]. by apply IH.
Qed.

Lemma stable_try {S A} (Inv : S → Prop) (p : prog S A) h Q :
  stable_wp Inv p (λ r, match r with Ok a => Q (Ok a) | Raise e => stable_wp Inv (h e) Q end) →
  stable_wp Inv (prog_try p h) Q.
Proof.
  induction p as [[a|e]|X m k IH]; intros Hwp; [done..|]. intros s Hs.
  destruct (Hwp s Hs) as [? ?]. split; [done|]. by apply IH.
Qed.

Lemma stable_mono {S A} (Inv : S → Prop) (p : prog S A) (Q Q' : result A → Prop) :
  stable_wp Inv p Q → (∀ r, Q r → Q' r) → stable_wp Inv p Q'.
Proof.
  intros Hwp HQ. induction p as [r|X m k IH]; [by apply HQ|]. intros s Hs.
  destruct (Hwp s Hs) as [? ?]. split; [done|]. by apply IH.
Qed.

(** An action that respects [P], which [Inv] survives. *)
Lemma stable_one {S X} (Inv : S → Prop) (P : S → S → Prop) (m : M S X) (Q : result X → Prop) :
  (∀ s s', Inv s → P s s' → Inv s') → (∀ s, P s (m s).2) → (∀ s, Inv s → Q (m s).1) →
  stable_wp Inv (act m) Q.
Proof. intros Hst Hm HQ s Hs. split; [by eapply Hst|by apply HQ]. Qed.

Lemma interleave_stable {S A} (Inv : S → Prop) (P : S → S → Prop) (Q : result A → Prop) order j p
    (st : list (prog S A) * S) :
  (∀ s, P s s) → (∀ s s', Inv s → P s s' → Inv s') →
  (∀ t, t ∈ st.1 → every P t) → st.1 !! j = Some p → stable_wp Inv p Q → Inv st.2 →
  ∃ p', (interleave order st).1 !! j = Some p' ∧ stable_wp Inv p' Q.
Proof.
  intros Hrefl Hstable. revert p st. induction order as [|i order IH]; intros p st Hall Hj Hp Hinv.
  { by exists p. }
  destruct (every_step P st i Hall Hrefl) as [Hall' HP]. simpl.
  assert (Inv (thread_step st i).2) as Hinv' by (by eapply Hstable).
  destruct (decide (i = j)) as [->|Hne].
  - unfold thread_step in *. rewrite Hj in *. destruct p as [r|X m k]; [by eapply IH|].
    destruct (Hp st.2 Hinv) as [_ Hk]. destruct (m st.2) as [r s']. simpl in *.
    eapply (IH (k r)); [done| |done|done]. simpl. apply list_lookup_insert_eq.
    by eapply lookup_lt_Some.
  - eapply (IH p); [done| |done|done]. unfold thread_step.
    destruct (st.1 !! i) as [[|]|]; try done. destruct (m st.2). simpl.
    by rewrite list_lookup_insert_ne.
Qed.

(** ** Rely and guarantee

    [G i s s'] is what a step of thread [i] may do.  An assertion of a thread is stable
    when no step of another thread can make it false. *)
Section rely.
Context {S : Type} (G : nat → S → S → Prop).

Definition stable_for (i : nat) (Φ : S → Prop) : Prop := ∀ j s s', j ≠ i → Φ s → G j s s' → Φ s'.

(** Thread [i], when [Φ] holds, takes the steps it may and ends as [Q] says. *)
Fixpoint rg {A} (i : nat) (Φ : S → Prop) (p : prog S A) (Q : result A → S → Prop) : Prop :=
  match p with
  | Ret r => ∀ s, Φ s → Q r s
  | Act m k => ∀ s, Φ s → G i s (m s).2 ∧ ∃ Φ', stable_for i Φ' ∧ Φ' (m s).2 ∧ rg i Φ' (k (m s).1) Q
  end.

Lemma rg_mono {A} i Φ Φ' (p : prog S A) (Q Q' : result A → S → Prop) :
  rg i Φ p Q → (∀ s, Φ' s → Φ s) → (∀ r s, Q r s → Q' r s) → rg i Φ' p Q'.
Proof.
  intros Hp HΦ HQ. revert Φ Φ' Hp HΦ. induction p as [r|X m k IH]; intros Φ Φ' Hp HΦ; cbn [rg] in *; [by auto|].
  intros s Hs. destruct (Hp s (HΦ s Hs)) as (HG & Φ1 & ? & ? & Hk). split; [done|]. exists Φ1. split_and!; [done..|].
  by eapply IH.
Qed.

Lemma rg_bind {A B} i Φ (Ψ : A → S → Prop) (p : prog S A) (f : A → prog S B) (Q : result B → S → Prop) :
  rg i Φ p (λ r s, match r with Ok a => Ψ a s | Raise e => Q (Raise e) s end) →
  (∀ a, rg i (Ψ a) (f a) Q) → rg i Φ (p ≫= f) Q.
Proof.
  intros Hp Hf. revert Φ Hp. induction p as [[a|e]|X m k IH]; intros Φ Hp; [by apply (rg_mono i (Ψ a) Φ (f a) Q Q)|exact Hp|].
  intros s Hs. destruct (Hp s Hs) as (HG & Φ1 & ? & ? & Hk). split; [done|]. exists Φ1. split_and!; [done..|]. by apply IH.
Qed.

Lemma rg_try {A} i Φ (Ψ : exn → S → Prop) (p : prog S A) h (Q : result A → S → Prop) :
  rg i Φ p (λ r s, match r with Ok a => Q (Ok a) s | Raise e => Ψ e s end) →
  (∀ e, rg i (Ψ e) (h e) Q) → rg i Φ (prog_try p h) Q.
Proof.
  intros Hp Hh. revert Φ Hp. induction p as [[a|e]|X m k IH]; intros Φ Hp; [exact Hp|by apply (rg_mono i (Ψ e) Φ (h e) Q Q)|].
  intros s Hs. destruct (Hp s Hs) as (HG & Φ1 & ? & ? & Hk). split; [done|]. exists Φ1. split_and!; [done..|]. by apply IH.
Qed.

(** An action whose outcomes are described by stable assertions. *)
Lemma rg_act {X} i (Φ : S → Prop) (m : M S X) (Q : result X → S → Prop) :
  (∀ r, stable_for i (Q r)) → (∀ s, Φ s → G i s (m s).2 ∧ Q (m s).1 (m s).2) → rg i Φ (act m) Q.
Proof. intros HQ Hm s Hs. destruct (Hm s Hs) as [? ?]. split; [done|]. exists (Q (m s).1).
  split; [apply HQ|]. split; [done|]. intros s'. exact id.
Qed.

(** All threads, each with its assertion. *)
Definition rg_threads {A} (Q : nat → result A → S → Prop) (st : list (prog S A) * S) : Prop :=
  ∀ i p, st.1 !! i = Some p → ∃ Φ, stable_for i Φ ∧ Φ st.2 ∧ rg i Φ p (Q i).

Lemma rg_step {A} (Q : nat → result A → S → Prop) st i : rg_threads Q st → rg_threads Q (thread_step st i).
Proof.
  intros Hst. unfold thread_step. destruct (st.1 !! i) as [[r|X m k]|] eqn:Hi; [done| |done].
  destruct (Hst i _ Hi) as (Φ & _ & HΦ & Hp). destruct (Hp _ HΦ) as (HG & Φ1 & Hst1 & HΦ1 & Hk).
  destruct (m st.2) as [r s']. intros j p. cbn [fst snd].
  intros [(<- & <- & _)|[Hne Hj]]%list_lookup_insert_Some; [by exists Φ1|].
  destruct (Hst j p Hj) as (Φj & Hsj & HΦj & Hpj). exists Φj. split; [done|]. split; [|done].
  by apply (Hsj i st.2 s').
Qed.

(** Under every interleaving, a thread that has ended did as it says. *)
Lemma rg_interleave {A} (Q : nat → result A → S → Prop) order st :
  rg_threads Q st → rg_threads Q (interleave order st).
Proof. revert st. induction order as [|i order IH]; intros st Hst; [done|]. by apply IH, rg_step. Qed.

Lemma rg_invariant {A} (I : S → Prop) (Q : nat → result A → S → Prop) order st :
  (∀ i s s', I s → G i s s' → I s') → rg_threads Q st → I st.2 → I (interleave order st).2.
Proof.
  intros HI. revert st. induction order as [|i order IH]; intros st Hst HIst; [done|]. cbn [interleave foldl].
  apply IH; [by apply rg_step|]. unfold thread_step. destruct (st.1 !! i) as [[r|X m k]|] eqn:Hi; [done| |done].
  destruct (Hst i _ Hi) as (Φ & _ & HΦ & Hp). destruct (Hp _ HΦ) as (HG & _).
  destruct (m st.2). by apply (HI i st.2).
Qed.

Lemma rg_ended {A} (Q : nat → result A → S → Prop) st i r :
  rg_threads Q st → st.1 !! i = Some (Ret r) → Q i r st.2.
Proof. intros Hst Hi. destruct (Hst i _ Hi) as (Φ & _ & HΦ & Hr). by apply Hr. Qed.
End rely.

(** What has ended stays ended. *)
Lemma interleave_ended {S A} order (st : list (prog S A) * S) i r :
  st.1 !! i = Some (Ret r) → (interleave order st).1 !! i = Some (Ret r).
Proof.
  revert st. induction order as [|j order IH]; intros st Hi; [done|]. apply IH. unfold thread_step.
  destruct (decide (j = i)) as [->|Hne]; [by rewrite Hi|].
  destruct (st.1 !! j) as [[|]|]; try done. destruct (m st.2). cbn. by rewrite list_lookup_insert_ne.
Qed.

(** Follow the structure of an atomic action. *)
Ltac wp_atomic :=
  first [apply wp_act_try; [apply _|] | apply wp_act_bind; [apply _|]
        | apply wp_act_ret; [apply _|]]; cbn beta.
