(* ===== verification/PyBase.v ===== *)
(** * Python scalars: strings, integers and floats

    A [str] is the [string] of its UTF-8 bytes, so [encode()] is the identity
    on bytes; an [int] is a [Z]; a [float] is an IEEE 754 binary64 datum, with
    the addition and the comparisons of [SpecFloat] (NaN and the infinities
    included). *)
From S2P Require Import Prelude.
From stdpp Require Import pretty.
From Stdlib Require Import SpecFloat Ascii.

(** ** Floats *)
Module Float.
Abbreviation t := spec_float.

#[global] Instance eq_dec : EqDecision t.
Proof. solve_decision. Defined.

(** [x + y] in binary64, round to nearest even. *)
Definition add (x y : t) : t := SFadd 53 1024 x y.
(** [x < y]; false when either is NaN, as every Python comparison is. *)
Definition ltb (x y : t) : bool := SFltb x y.
(** [x <= y]. *)
Definition leb (x y : t) : bool := SFleb x y.

Definition is_nan (x : t) : bool := match x with S754_nan => true | _ => false end.

(** The exact binary64 datum of a small integer, used by the examples. *)
Definition of_Z (z : Z) : t := binary_normalize 53 1024 z 0 false.

Lemma compare_swap x y : SFcompare y x = CompOpp <$> SFcompare x y.
Proof.
  destruct x as [sx|sx| |sx mx ex], y as [sy|sy| |sy my ey]; simpl;
    try (by repeat case_match; simplify_eq); try done.
  f_equal. rewrite (Z.compare_antisym ey ex).
  change (PosDef.Pos.compare_cont Eq) with Pos.compare.
  rewrite (Pos.compare_antisym my mx).
  destruct sx, sy, (ey ?= ex)%Z; simpl; by rewrite ?CompOpp_involutive.
Qed.

Lemma ltb_irrefl x : ltb x x = false.
Proof.
  unfold ltb, SFltb. pose proof (compare_swap x x) as H.
  by destruct (SFcompare x x) as [[]|].
Qed.

Lemma ltb_asym x y : ltb x y = true → ltb y x = false.
Proof.
  unfold ltb, SFltb. rewrite (compare_swap x y).
  by destruct (SFcompare x y) as [[]|].
Qed.

(** On comparable operands [x <= y] is the negation of [y < x]. *)
Lemma leb_negb_ltb x y :
  is_nan x = false → is_nan y = false → leb x y = negb (ltb y x).
Proof.
  intros Hx Hy. unfold leb, SFleb, ltb, SFltb. rewrite (compare_swap x y).
  destruct (SFcompare x y) as [[]|] eqn:Hc; try done.
  destruct x, y; simpl in *; by repeat case_match.
Qed.

Lemma ltb_leb x y : ltb x y = true → leb x y = true.
Proof. unfold ltb, SFltb, leb, SFleb. by destruct (SFcompare x y) as [[]|]. Qed.

Lemma nan_ltb_l x y : is_nan x = true → ltb x y = false.
Proof. by destruct x. Qed.
Lemma nan_ltb_r x y : is_nan y = true → ltb x y = false.
Proof. by destruct x, y. Qed.
Lemma nan_leb_l x y : is_nan x = true → leb x y = false.
Proof. by destruct x. Qed.

Lemma lex_compare_trans (s : bool) m1 e1 m2 e2 m3 e3 :
  ltb (S754_finite s m1 e1) (S754_finite s m2 e2) = true →
  ltb (S754_finite s m2 e2) (S754_finite s m3 e3) = true →
  ltb (S754_finite s m1 e1) (S754_finite s m3 e3) = true.
Proof.
  unfold ltb, SFltb, SFcompare.
  change (PosDef.Pos.compare_cont Eq) with Pos.compare.
  destruct s;
    destruct (Z.compare_spec e1 e2), (Z.compare_spec e2 e3), (Z.compare_spec e1 e3);
    subst; try done; try lia;
    destruct (Pos.compare_spec m1 m2), (Pos.compare_spec m2 m3), (Pos.compare_spec m1 m3);
    simpl; subst; try done; lia.
Qed.

Lemma ltb_trans x y z : ltb x y = true → ltb y z = true → ltb x z = true.
Proof.
  destruct x as [sx|sx| |sx mx ex], y as [sy|sy| |sy my ey], z as [sz|sz| |sz mz ez];
    try (by unfold ltb, SFltb, SFcompare; repeat case_match; simplify_eq).
  destruct sx, sy, sz; try apply lex_compare_trans; done.
Qed.
End Float.

#[export] Hint Resolve Float.ltb_irrefl Float.ltb_asym Float.ltb_leb : dls.

(** ** Strings *)
Module Str.
(** [pattern in k]: [pattern] is a prefix of some suffix of [k]. *)
Fixpoint contains (pattern k : string) : bool :=
  String.prefix pattern k ||
  match k with
  | EmptyString => false
  | String _ k' => contains pattern k'
  end.

Lemma prefix_app p s : String.prefix p (p +:+ s) = true.
Proof.
  induction p as [|c p IH]; [by destruct s|].
  change (String c p +:+ s) with (String c (p +:+ s)). simpl.
  by destruct (ascii_dec c c).
Qed.

Lemma prefix_inv p s : String.prefix p s = true → ∃ t, s = p +:+ t.
Proof.
  revert s. induction p as [|c p IH]; intros [|c' s] Hp; try done.
  - by exists "".
  - by exists (String c' s).
  - simpl in Hp. destruct (ascii_dec c c') as [->|]; [|done].
    destruct (IH _ Hp) as [t ->]. by exists t.
Qed.

(** The substring test is what it says: [pattern] occurs in [k]. *)
Lemma contains_spec pattern k :
  contains pattern k = true ↔ ∃ a b, k = a +:+ (pattern +:+ b).
Proof.
  induction k as [|c k IH].
  - destruct pattern as [|c p]; simpl.
    + split; [|done]. intros _. by exists "", "".
    + split; [done|]. by intros ([|? ?] & b & Heq); cbv [String.append] in Heq.
  - cbn [contains]. rewrite orb_true_iff, IH. split.
    + intros [[t Ht]%prefix_inv | (a & b & ->)].
      * by exists "", t.
      * by exists (String c a), b.
    + intros ([|c' a] & b & Heq).
      * left. change ("" +:+ (pattern +:+ b)) with (pattern +:+ b) in Heq.
        rewrite Heq. apply prefix_app.
      * right. change (String c k = String c' (a +:+ (pattern +:+ b))) in Heq.
        injection Heq as -> Hk. eauto.
Qed.

#[global] Arguments contains : simpl never.

Fixpoint mem (c : ascii) (s : string) : bool :=
  match s with
  | EmptyString => false
  | String c' s => if decide (c = c') then true else mem c s
  end.

(** [s.rsplit(c, 1)] for a one-character separator: [None] when the result
    has one element only (the separator does not occur). *)
Fixpoint rsplit1 (c : ascii) (s : string) : option (string * string) :=
  match s with
  | EmptyString => None
  | String c' s' =>
      match rsplit1 c s' with
      | Some (a, b) => Some (String c' a, b)
      | None => if decide (c = c') then Some (EmptyString, s') else None
      end
  end.

Lemma rsplit1_None c s : mem c s = false → rsplit1 c s = None.
Proof.
  induction s as [|c' s IH]; [done|]. simpl.
  destruct (decide (c = c')); [done|]. intros Hm. by rewrite IH.
Qed.

Lemma rsplit1_app c a b :
  mem c b = false → rsplit1 c (a +:+ String c b) = Some (a, b).
Proof.
  intros Hb. induction a as [|c' a IH].
  - change ("" +:+ String c b) with (String c b). simpl.
    rewrite rsplit1_None by done. by destruct (decide (c = c)).
  - change (String c' a +:+ String c b) with (String c' (a +:+ String c b)). simpl.
    by rewrite IH.
Qed.

Lemma rsplit1_Some c s a b : rsplit1 c s = Some (a, b) → s = a +:+ String c b.
Proof.
  revert a b. induction s as [|c' s IH]; intros a b; [done|]. simpl.
  destruct (rsplit1 c s) as [[a' b']|].
  - intros [= <- <-]. by rewrite (IH a' b').
  - destruct (decide (c = c')) as [->|]; [|done]. by intros [= <- <-].
Qed.

(** [s.rstrip(c)] for a one-character set. *)
Fixpoint rstrip (c : ascii) (s : string) : string :=
  match s with
  | EmptyString => EmptyString
  | String c' s' =>
      match rstrip c s' with
      | EmptyString => if decide (c = c') then EmptyString else String c' EmptyString
      | t => String c' t
      end
  end.
End Str.

(** ** Integers: [int(s)] and [f"{z}"] *)
Module Int.
(** [f"{z}"]: decimal, with a minus sign for negative integers. *)
Definition to_str (z : Z) : string := pretty z.

Definition is_space (c : ascii) : bool :=
  match nat_of_ascii c with
  | 9 | 10 | 11 | 12 | 13 | 32 => true
  | _ => false
  end.

Definition digit (c : ascii) : option N :=
  let n := N_of_ascii c in
  if decide (48 ≤ n ∧ n ≤ 57)%N then Some (n - 48)%N else None.

(** Digits with single underscores between them, accumulated; [prev] tells
    whether the previous character was a digit. *)
Fixpoint digits (prev : bool) (acc : N) (s : string) : option (N * string) :=
  match s with
  | EmptyString => if prev then Some (acc, EmptyString) else None
  | String c s' =>
      match digit c with
      | Some d => digits true (acc * 10 + d)%N s'
      | None =>
          if prev then
            if decide (c = "_"%char) then digits false acc s' else Some (acc, s)
          else None
      end
  end.

Fixpoint skip_space (s : string) : string :=
  match s with
  | String c s' => if is_space c then skip_space s' else s
  | EmptyString => EmptyString
  end.

(** [int(s)] on ASCII strings, base 10: surrounding whitespace, a sign, digits
    and underscores between digits; [ValueError] otherwise. *)
Definition of_str (s : string) : result Z :=
  let s := skip_space s in
  let '(neg, s) := match s with
    | String c s' =>
        if decide (c = "-"%char) then (true, s') else
        if decide (c = "+"%char) then (false, s') else (false, s)
    | EmptyString => (false, s)
    end in
  match digits false 0 s with
  | Some (n, rest) =>
      match skip_space rest with
      | EmptyString => Ok (if neg then - Z.of_N n else Z.of_N n)%Z
      | _ => Raise ValueError
      end
  | None => Raise ValueError
  end.

Lemma digit_pretty_N_char x : (x < 10)%N → digit (pretty_N_char x) = Some x.
Proof.
  intros Hx.
  assert (x = 0 ∨ x = 1 ∨ x = 2 ∨ x = 3 ∨ x = 4 ∨ x = 5 ∨ x = 6
        ∨ x = 7 ∨ x = 8 ∨ x = 9)%N as Hcases by lia.
  by repeat destruct Hcases as [->|Hcases]; subst.
Qed.

Lemma digits_pretty_N_go x s acc :
  (0 < x)%N → ∃ k, digits false acc (pretty_N_go x s) = digits true (acc * k + x)%N s.
Proof.
  revert s. induction (N.lt_wf_0 x) as [x _ IH]; intros s Hx.
  rewrite pretty_N_go_step by done.
  assert (x `mod` 10 < 10)%N by (by apply N.mod_lt).
  destruct (decide (x `div` 10 = 0)%N) as [H0|Hne].
  - rewrite H0, pretty_N_go_0. simpl.
    rewrite digit_pretty_N_char by done. exists 10%N. f_equal.
    pose proof (N.div_mod' x 10). lia.
  - assert (x `div` 10 < x)%N as Hlt by (apply N.div_lt; lia).
    assert (0 < x `div` 10)%N as Hpos by (revert Hne; generalize (x `div` 10)%N; lia).
    destruct (IH _ Hlt (String (pretty_N_char (x `mod` 10)) s) Hpos) as [k Hk].
    rewrite Hk. simpl. rewrite digit_pretty_N_char by done.
    exists (k * 10)%N. f_equal. pose proof (N.div_mod' x 10). lia.
Qed.

Lemma digits_pretty_N x : digits false 0 (pretty x) = Some (x, "").
Proof.
  unfold pretty, pretty_N. case_decide as Hx; [by subst|].
  destruct (digits_pretty_N_go x "" 0) as [k Hk]; [lia|].
  by rewrite Hk, N.mul_0_l, N.add_0_l.
Qed.

Lemma digits_head_not_space acc s n rest :
  digits false acc s = Some (n, rest) → ∃ c s' d, s = String c s' ∧ digit c = Some d.
Proof.
  destruct s as [|c s]; [done|]. simpl. destruct (digit c) eqn:?; [eauto|done].
Qed.

Lemma digit_not_special c d : digit c = Some d →
  is_space c = false ∧ c ≠ "-"%char ∧ c ≠ "+"%char ∧ c ≠ ":"%char ∧ c ≠ "_"%char.
Proof. by destruct c as [[] [] [] [] [] [] [] []]. Qed.

(** Printing and parsing are inverse: [int(f"{z}") == z]. *)
Lemma of_str_to_str z : of_str (to_str z) = Ok z.
Proof.
  unfold to_str. destruct z as [|p|p]; [done| |].
  - change (pretty (Z.pos p)) with (pretty (N.pos p)).
    pose proof (digits_pretty_N (N.pos p)) as Hd.
    destruct (digits_head_not_space _ _ _ _ Hd) as (c & s & d & Hs & Hc).
    rewrite Hs in *. destruct (digit_not_special _ _ Hc) as (Hsp & Hm & Hp & _).
    unfold of_str. simpl. rewrite Hsp.
    destruct (decide (c = "-"%char)); [done|]. destruct (decide (c = "+"%char)); [done|].
    simpl in Hd. simpl. by rewrite Hd.
  - change (pretty (Z.neg p)) with (String "-" (pretty (N.pos p))).
    unfold of_str. simpl. by rewrite digits_pretty_N.
Qed.

Lemma digits_no_colon b acc s n : digits b acc s = Some (n, "") → Str.mem ":" s = false.
Proof.
  revert b acc. induction s as [|c s IH]; intros b acc Hd; [done|].
  simpl in Hd. simpl. destruct (digit c) as [d|] eqn:Hc.
  - destruct (digit_not_special _ _ Hc) as (_ & _ & _ & Hcol & _).
    destruct (decide (":"%char = c)) as [<-|]; [done|]. eauto.
  - destruct b; [|done]. destruct (decide (c = "_"%char)) as [->|]; [|by simplify_eq].
    simpl. eauto.
Qed.

Lemma to_str_no_colon z : Str.mem ":" (to_str z) = false.
Proof.
  unfold to_str. destruct z as [|p|p]; [done| |].
  - eapply digits_no_colon. apply (digits_pretty_N (N.pos p)).
  - change (pretty (Z.neg p)) with (String "-" (pretty (N.pos p))). simpl.
    eapply digits_no_colon. apply (digits_pretty_N (N.pos p)).
Qed.
End Int.
