(* ===== verification/Bytes.v ===== *)
(** * Bytes, big-endian integers and SHA-256

    What the source uses of [int.to_bytes], [int.from_bytes] and
    [hashlib.sha256].  A [bytes] object is a [list byte]. *)
From S2P Require Import Prelude PyBase.
From Stdlib Require Export Strings.Byte.

Open Scope Z_scope.

#[export] Instance byte_eq_dec : EqDecision byte := Byte.byte_eq_dec.

(** ** Big-endian integers *)

Definition byte_to_Z (b : byte) : Z := Z.of_N (Byte.to_N b).
(** The byte of [z mod 256]. *)
Definition byte_of_Z (z : Z) : byte :=
  default x00 (Byte.of_N (Z.to_N (z mod 256))).

(** [int.from_bytes(bs, "big")]. *)
Definition from_bytes (bs : list byte) : Z := foldl (λ acc b, acc * 256 + byte_to_Z b) 0 bs.

Fixpoint bytes_be (n : nat) (z : Z) : list byte :=
  match n with
  | O => []
  | S n => bytes_be n (z / 256) ++ [byte_of_Z z]
  end.

(** [z.to_bytes(n, "big")]: [OverflowError] when [z] is negative or too big. *)
Definition to_bytes (n : nat) (z : Z) : result (list byte) :=
  if bool_decide (0 ≤ z < 256 ^ Z.of_nat n) then Ok (bytes_be n z) else Raise OverflowError.

(** [s.encode()]: strings are kept as their UTF-8 bytes. *)
Definition encode_str (s : string) : list byte := String.list_byte_of_string s.

Lemma byte_to_Z_bound b : 0 ≤ byte_to_Z b < 256.
Proof. unfold byte_to_Z. pose proof (Byte.to_N_bounded b). lia. Qed.

Lemma byte_of_to_Z b : byte_of_Z (byte_to_Z b) = b.
Proof.
  unfold byte_of_Z. rewrite Z.mod_small by apply byte_to_Z_bound.
  unfold byte_to_Z. by rewrite N2Z.id, Byte.of_to_N.
Qed.

Lemma byte_to_of_Z z : byte_to_Z (byte_of_Z z) = z mod 256.
Proof.
  unfold byte_of_Z. pose proof (Z.mod_pos_bound z 256 eq_refl).
  destruct (Byte.of_N _) as [b|] eqn:Hb; simpl.
  - apply Byte.to_of_N in Hb. unfold byte_to_Z. rewrite Hb. lia.
  - apply Byte.of_N_None_iff in Hb. lia.
Qed.

Lemma length_bytes_be n z : length (bytes_be n z) = n.
Proof. revert z. induction n as [|n IH]; intros z; [done|]. simpl. rewrite length_app, IH. simpl. lia. Qed.

Lemma from_bytes_snoc bs b : from_bytes (bs ++ [b]) = from_bytes bs * 256 + byte_to_Z b.
Proof. unfold from_bytes. by rewrite foldl_app. Qed.

Lemma from_bytes_bound bs : 0 ≤ from_bytes bs < 256 ^ Z.of_nat (length bs).
Proof.
  induction bs as [|b bs IH] using rev_ind; [done|].
  rewrite from_bytes_snoc, length_app. pose proof (byte_to_Z_bound b).
  replace (Z.of_nat (length bs + length [b])) with (Z.succ (Z.of_nat (length bs))) by (simpl; lia).
  rewrite Z.pow_succ_r by lia. lia.
Qed.

Lemma from_bytes_be n z : 0 ≤ z < 256 ^ Z.of_nat n → from_bytes (bytes_be n z) = z.
Proof.
  revert z. induction n as [|n IH]; intros z Hz; [simpl in Hz; unfold from_bytes; simpl; lia|].
  rewrite Nat2Z.inj_succ, Z.pow_succ_r in Hz by lia. simpl.
  rewrite from_bytes_snoc, byte_to_of_Z, IH.
  - pose proof (Z.div_mod z 256). lia.
  - split; [apply Z.div_pos; lia|]. apply Z.div_lt_upper_bound; lia.
Qed.

Lemma bytes_be_from bs : bytes_be (length bs) (from_bytes bs) = bs.
Proof.
  induction bs as [|b bs IH] using rev_ind; [done|].
  rewrite length_app, Nat.add_comm. simpl. rewrite from_bytes_snoc.
  pose proof (byte_to_Z_bound b).
  rewrite Z.div_add_l, (Z.div_small (byte_to_Z b)), Z.add_0_r, IH by lia. do 2 f_equal.
  rewrite <- (byte_of_to_Z b) at 2. unfold byte_of_Z.
  by rewrite Z.add_comm, Z.mod_add, (Z.mod_small (byte_to_Z b)) by lia.
Qed.

(** ** SHA-256 (FIPS 180-4) *)
Module Sha256.
Definition w32 (x : Z) : Z := Z.land x 0xFFFFFFFF.
Definition add32 (x y : Z) : Z := w32 (x + y).
Definition rotr (n x : Z) : Z := Z.lor (Z.shiftr x n) (w32 (Z.shiftl x (32 - n))).
Definition xor3 (x y z : Z) : Z := Z.lxor x (Z.lxor y z).

Definition Ch x y z := Z.lxor (Z.land x y) (Z.land (Z.lxor x 0xFFFFFFFF) z).
Definition Maj x y z := xor3 (Z.land x y) (Z.land x z) (Z.land y z).
Definition Sigma0 x := xor3 (rotr 2 x) (rotr 13 x) (rotr 22 x).
Definition Sigma1 x := xor3 (rotr 6 x) (rotr 11 x) (rotr 25 x).
Definition sigma0 x := xor3 (rotr 7 x) (rotr 18 x) (Z.shiftr x 3).
Definition sigma1 x := xor3 (rotr 17 x) (rotr 19 x) (Z.shiftr x 10).

Definition K : list Z :=
  [1116352408; 1899447441; 3049323471; 3921009573;  961987163; 1508970993; 2453635748; 2870763221;
   3624381080;  310598401;  607225278; 1426881987; 1925078388; 2162078206; 2614888103; 3248222580;
   3835390401; 4022224774;  264347078;  604807628;  770255983; 1249150122; 1555081692; 1996064986;
   2554220882; 2821834349; 2952996808; 3210313671; 3336571891; 3584528711;  113926993;  338241895;
   666307205;  773529912; 1294757372; 1396182291; 1695183700; 1986661051; 2177026350; 2456956037;
   2730485921; 2820302411; 3259730800; 3345764771; 3516065817; 3600352804; 4094571909;  275423344;
   430227734;  506948616;  659060556;  883997877;  958139571; 1322822218; 1537002063; 1747873779;
   1955562222; 2024104815; 2227730452; 2361852424; 2428436474; 2756734187; 3204031479; 3329325298].

(** The eight working variables. *)
Record hash := mkHash { a : Z; b : Z; c : Z; d : Z; e : Z; f : Z; g : Z; h : Z }.

Definition init : hash :=
  mkHash 0x6a09e667 0xbb67ae85 0x3c6ef372 0xa54ff53a 0x510e527f 0x9b05688c 0x1f83d9ab 0x5be0cd19.

Definition round (s : hash) (k w : Z) : hash :=
  let t1 := add32 (h s) (add32 (Sigma1 (e s)) (add32 (Ch (e s) (f s) (g s)) (add32 k w))) in
  let t2 := add32 (Sigma0 (a s)) (Maj (a s) (b s) (c s)) in
  mkHash (add32 t1 t2) (a s) (b s) (c s) (add32 (d s) t1) (e s) (f s) (g s).

(** The message schedule, newest word first; [n] words still to produce. *)
Fixpoint schedule (n : nat) (ws : list Z) : list Z :=
  match n with
  | O => rev ws
  | S n =>
      let w := add32 (add32 (sigma1 (nth 1 ws 0)) (nth 6 ws 0))
                     (add32 (sigma0 (nth 14 ws 0)) (nth 15 ws 0)) in
      schedule n (w :: ws)
  end.

Fixpoint words (n : nat) (bs : list byte) : list Z :=
  match n with
  | O => []
  | S n => from_bytes (take 4 bs) :: words n (drop 4 bs)
  end.

Definition compress (s : hash) (block : list byte) : hash :=
  let ws := schedule 48 (rev (words 16 block)) in
  let s' := foldl (λ s kw, round s kw.1 kw.2) s (zip K ws) in
  mkHash (add32 (a s) (a s')) (add32 (b s) (b s')) (add32 (c s) (c s')) (add32 (d s) (d s'))
         (add32 (e s) (e s')) (add32 (f s) (f s')) (add32 (g s) (g s')) (add32 (h s) (h s')).

Definition pad (msg : list byte) : list byte :=
  let n := Z.of_nat (length msg) in
  msg ++ [x80] ++ repeat x00 (Z.to_nat ((55 - n) mod 64)) ++ bytes_be 8 (8 * n).

Fixpoint blocks (n : nat) (s : hash) (bs : list byte) : hash :=
  match n with
  | O => s
  | S n => blocks n (compress s (take 64 bs)) (drop 64 bs)
  end.

Definition digest (msg : list byte) : list byte :=
  let m := pad msg in
  let s := blocks (length m / 64)%nat init m in
  bytes_be 4 (a s) ++ bytes_be 4 (b s) ++ bytes_be 4 (c s) ++ bytes_be 4 (d s) ++
  bytes_be 4 (e s) ++ bytes_be 4 (f s) ++ bytes_be 4 (g s) ++ bytes_be 4 (h s).

(** The FIPS test vectors for "abc" and the empty message. *)
Example digest_abc :
  from_bytes (digest (encode_str "abc")) =
    0xba7816bf8f01cfea414140de5dae2223b00361a396177a9cb410ff61f20015ad.
Proof. vm_compute. reflexivity. Qed.
Example digest_empty :
  from_bytes (digest []) =
    0xe3b0c44298fc1c149afbf4c8996fb92427ae41e4649b934ca495991b7852b855.
Proof. vm_compute. reflexivity. Qed.
(** Two blocks. *)
Example digest_two_blocks :
  from_bytes (digest (encode_str "abcdbcdecdefdefgefghfghighijhijkijkljklmklmnlmnomnopnopq")) =
    0x248d6a61d20638b8e5c026930c3e6039a33ce45964ff2167f6ecedd419db06c1.
Proof. vm_compute. reflexivity. Qed.

Lemma length_digest msg : length (digest msg) = 32%nat.
Proof. unfold digest. by rewrite !length_app, !length_bytes_be. Qed.
End Sha256.

#[global] Arguments Sha256.digest : simpl never.
#[global] Arguments from_bytes : simpl never.
Close Scope Z_scope.
