(* ===== verification/PyDict.v ===== *)
(** * Python dictionaries with string keys

    [_data] of both stores and the per-peer tables of the connection pools are
    dictionaries.  Iteration is observable (the key listings return the keys in
    iteration order), so a dictionary is the list of its items in insertion
    order; [to_map] forgets the order. *)
From S2P Require Import Prelude.

Section dict.
Context {V : Type}.
Implicit Types (d : list (string * V)) (k : string) (v : V).

(** [d.get(k)]. *)
Fixpoint dict_get d k : option V :=
  match d with
  | [] => None
  | (k', v) :: d => if decide (k = k') then Some v else dict_get d k
  end.

(** [d[k] = v]: an existing key keeps its position, a new one goes last. *)
Fixpoint dict_set d k v : list (string * V) :=
  match d with
  | [] => [(k, v)]
  | (k', v') :: d => if decide (k = k') then (k, v) :: d else (k', v') :: dict_set d k v
  end.

(** The dictionary after [d.pop(k, None)]. *)
Fixpoint dict_remove d k : list (string * V) :=
  match d with
  | [] => []
  | (k', v') :: d => if decide (k = k') then d else (k', v') :: dict_remove d k
  end.

(** [del d[k]]: raises [KeyError] when the key is absent. *)
Definition dict_del k : M (list (string * V)) unit := λ d,
  match dict_get d k with
  | None => (Raise KeyError, d)
  | Some _ => (Ok tt, dict_remove d k)
  end.

(** No key occurs twice: the invariant of the representation. *)
Definition dict_wf d : Prop := NoDup d.*1.

Definition to_map d : gmap string V := list_to_map d.

(** Same content, possibly another iteration order. *)
Definition dict_equiv d1 d2 : Prop := to_map d1 = to_map d2.

#[export] Instance dict_equiv_equivalence : Equivalence dict_equiv.
Proof. unfold dict_equiv. split; [done|congruence..]. Qed.

Lemma dict_get_lookup d k : dict_get d k = to_map d !! k.
Proof.
  induction d as [|[k' v] d IH]; [done|]. simpl.
  unfold to_map in *. simpl. case_decide; by simplify_map_eq.
Qed.

#[export] Instance dict_get_proper : Proper (dict_equiv ==> (=) ==> (=)) dict_get.
Proof. intros d1 d2 Heq k ? <-. by rewrite !dict_get_lookup, Heq. Qed.

Lemma dict_get_elem_of d k v : dict_wf d → dict_get d k = Some v ↔ (k, v) ∈ d.
Proof.
  intros Hwf. rewrite dict_get_lookup. unfold to_map.
  by rewrite <- elem_of_list_to_map.
Qed.

Lemma dict_get_None d k : dict_get d k = None ↔ k ∉ d.*1.
Proof. rewrite dict_get_lookup. symmetry. apply not_elem_of_list_to_map. Qed.

Lemma dict_set_lookup d k v : to_map (dict_set d k v) = <[k:=v]> (to_map d).
Proof.
  unfold to_map. induction d as [|[k' v'] d IH]; [done|]. simpl.
  case_decide; simplify_eq/=.
  - by rewrite insert_insert_eq.
  - rewrite IH. by rewrite insert_insert_ne.
Qed.

Lemma dict_remove_lookup d k : dict_wf d → to_map (dict_remove d k) = delete k (to_map d).
Proof.
  unfold to_map, dict_wf.
  induction d as [|[k' v'] d IH]; intros Hwf; simpl.
  { by rewrite delete_empty. }
  rewrite fmap_cons, NoDup_cons in Hwf. destruct Hwf as [Hnin Hwf].
  case_decide; simplify_eq/=.
  - rewrite delete_insert_id; [done|]. by apply not_elem_of_list_to_map.
  - by rewrite IH, delete_insert_ne.
Qed.

Lemma dict_set_keys d k v :
  (dict_set d k v).*1 = if decide (k ∈ d.*1) then d.*1 else d.*1 ++ [k].
Proof.
  induction d as [|[k' v'] d IH]; [done|]. simpl.
  destruct (decide (k = k')) as [->|Hne].
  - rewrite decide_True by set_solver. done.
  - rewrite fmap_cons, IH. simpl. repeat case_decide; set_solver.
Qed.

Lemma dict_set_wf d k v : dict_wf d → dict_wf (dict_set d k v).
Proof.
  unfold dict_wf. rewrite dict_set_keys. case_decide; [done|].
  intros. apply NoDup_app. split_and!; [done|set_solver|apply NoDup_singleton].
Qed.

Lemma dict_remove_sublist d k : sublist (dict_remove d k) d.
Proof.
  induction d as [|[k' v'] d IH]; [done|]. simpl.
  case_decide; [by apply sublist_cons | by apply sublist_skip].
Qed.

Lemma dict_remove_wf d k : dict_wf d → dict_wf (dict_remove d k).
Proof.
  unfold dict_wf. intros. eapply sublist_NoDup; [done|].
  apply fmap_sublist, dict_remove_sublist.
Qed.

Lemma dict_remove_filter d k :
  dict_wf d → dict_remove d k = filter (λ kv, kv.1 ≠ k) d.
Proof.
  unfold dict_wf. induction d as [|[k' v'] d IH]; [done|].
  rewrite fmap_cons, NoDup_cons. simpl. intros [Hnin Hwf].
  rewrite filter_cons. simpl. repeat case_decide; simplify_eq; [|by f_equal; auto].
  symmetry. apply filter_all. intros [k'' v''] Hin Heq. simpl in Heq. subst. apply Hnin.
  apply list_elem_of_fmap. by exists (k, v'').
Qed.

Lemma dict_wf_nil : dict_wf [].
Proof. constructor. Qed.

Lemma filter_lookup (P : string * V → Prop) `{∀ x, Decision (P x)} d :
  dict_wf d → to_map (filter P d) = filter P (to_map d).
Proof.
  intros Hwf. apply map_eq. intros k. apply option_eq. intros v.
  rewrite map_lookup_filter_Some. unfold to_map.
  rewrite <- !elem_of_list_to_map by (try apply NoDup_filter_fst; done).
  rewrite list_elem_of_filter. tauto.
Qed.

Lemma filter_wf (P : string * V → Prop) `{∀ x, Decision (P x)} d :
  dict_wf d → dict_wf (filter P d).
Proof. apply NoDup_filter_fst. Qed.

(** *** Changing one register of the dictionary *)
Definition dict_alter (f : option V → option V) d k : list (string * V) :=
  match f (dict_get d k) with
  | Some v => dict_set d k v
  | None => dict_remove d k
  end.

Lemma dict_set_id d k v : dict_get d k = Some v → dict_set d k v = d.
Proof.
  induction d as [|[k' v'] d IH]; [done|]. simpl.
  case_decide; intros; simplify_eq; [done|by f_equal; auto].
Qed.

Lemma dict_remove_id d k : dict_get d k = None → dict_remove d k = d.
Proof.
  induction d as [|[k' v'] d IH]; [done|]. simpl.
  case_decide; intros; simplify_eq; by f_equal; auto.
Qed.

Lemma dict_alter_id f d k : f (dict_get d k) = dict_get d k → dict_alter f d k = d.
Proof.
  unfold dict_alter. destruct (dict_get d k) eqn:Hk; intros ->;
    auto using dict_set_id, dict_remove_id.
Qed.

Lemma dict_alter_lookup f d k :
  dict_wf d → to_map (dict_alter f d k) = partial_alter f k (to_map d).
Proof.
  intros Hwf. unfold dict_alter. rewrite dict_get_lookup.
  destruct (f (to_map d !! k)) eqn:Hf.
  - rewrite dict_set_lookup. apply map_eq. intros k'.
    rewrite lookup_partial_alter, lookup_insert. by case_decide.
  - rewrite dict_remove_lookup by done. apply map_eq. intros k'.
    rewrite lookup_partial_alter, lookup_delete. by case_decide.
Qed.

Lemma dict_alter_wf f d k : dict_wf d → dict_wf (dict_alter f d k).
Proof.
  intros. unfold dict_alter. case_match; auto using dict_set_wf, dict_remove_wf.
Qed.

Lemma dict_alter_get f d k k' :
  dict_wf d →
  dict_get (dict_alter f d k) k' = if decide (k = k') then f (dict_get d k) else dict_get d k'.
Proof.
  intros Hwf. rewrite !dict_get_lookup, dict_alter_lookup by done.
  case_decide; subst; by rewrite ?lookup_partial_alter_eq, ?lookup_partial_alter_ne.
Qed.

Lemma dict_del_alter d k v :
  dict_get d k = Some v → dict_del k d = (Ok tt, dict_alter (λ _, None) d k).
Proof. unfold dict_del. by intros ->. Qed.

(** *** Listings *)
Lemma filter_keys (P : string * V → Prop) `{∀ x, Decision (P x)} d :
  dict_wf d →
  NoDup (filter P d).*1 ∧ list_to_set (filter P d).*1 = dom (filter P (to_map d)).
Proof.
  intros Hwf. split; [by apply NoDup_filter_fst|].
  rewrite <- filter_lookup by done. unfold to_map. by rewrite dom_list_to_map_L.
Qed.

Lemma filter_count (P : string * V → Prop) `{∀ x, Decision (P x)} d :
  dict_wf d → length (filter P d).*1 = size (filter P (to_map d)).
Proof.
  intros Hwf. rewrite <- filter_lookup by done. unfold to_map.
  rewrite <- (length_map_to_list (list_to_map _)), map_to_list_to_map, length_fmap; [done|].
  by apply NoDup_filter_fst.
Qed.

(** Deleting, one by one, the keys selected by a scan of the dictionary never
    raises and removes exactly the selected items. *)
Lemma for_each_del_filter (P : string * V → Prop) `{∀ x, Decision (P x)} d :
  dict_wf d →
  for_each (filter P d).*1 dict_del d = (Ok tt, filter (λ kv, ¬ P kv) d).
Proof.
  intros Hwf.
  assert (∀ ks d', dict_wf d' → NoDup ks → ks ⊆ d'.*1 →
    for_each ks dict_del d' = (Ok tt, filter (λ kv, kv.1 ∉ ks) d')) as Hgen.
  { clear d Hwf. induction ks as [|k ks IH]; intros d Hwf Hnd Hsub.
    - simpl. run_M. f_equal. symmetry. apply filter_all. set_solver.
    - apply NoDup_cons in Hnd as [Hnin Hnd]. simpl. unfold_M.
      assert (is_Some (dict_get d k)) as [v Hv].
      { apply not_eq_None_Some. rewrite dict_get_None. set_solver. }
      unfold dict_del at 1. rewrite Hv.
      rewrite IH; [|by apply dict_remove_wf|done|].
      + f_equal. rewrite dict_remove_filter by done.
        rewrite list_filter_filter. apply list_filter_iff. set_solver.
      + intros k' Hk'. rewrite dict_remove_filter by done.
        assert (k' ∈ d.*1) as Hin by set_solver.
        apply list_elem_of_fmap in Hin as (kv & -> & Hin).
        apply list_elem_of_fmap. exists kv. split; [done|].
        apply list_elem_of_filter. split; [|done]. intros Heq. by rewrite Heq in Hk'. }
  rewrite Hgen; [|done|by apply NoDup_filter_fst|].
  - f_equal. apply filter_ext_in. intros [k v] Hin. simpl.
    split; intros Hk.
    + intros HP. apply Hk. apply list_elem_of_fmap. exists (k, v).
      by rewrite list_elem_of_filter.
    + intros ([k' v'] & Heq & [HP Hin']%list_elem_of_filter)%list_elem_of_fmap.
      simpl in Heq. subst. apply (dict_get_elem_of _ _ _ Hwf) in Hin, Hin'.
      by simplify_eq.
  - intros k (kv & -> & [_ ?]%list_elem_of_filter)%list_elem_of_fmap.
    apply list_elem_of_fmap. by exists kv.
Qed.
End dict.

#[export] Hint Resolve dict_wf_nil dict_set_wf dict_remove_wf filter_wf : dls.
#[export] Hint Rewrite @dict_set_lookup @dict_get_lookup : dls.
