(* ===== verification/Types.v ===== *)
(** * The wire-level data types ([dlstorage/types.py])

    [MessageType], [NodeInfo] and [Message], with the dictionaries that carry
    them.  A message payload is a Python dictionary whose keys are the fixed set
    of field names the code base uses, so it is a record of optional fields:
    [None] means the key is absent.  Extra keys are never looked at. *)
From S2P Require Import Prelude PyBase.
From Stdlib Require Import Ascii.

(** ** Values *)

(** The Python objects a user stores.  The code only tests them for being
    [None]; an object of any other class is known by its identity. *)
Inductive pyval :=
  | VNone
  | VBool (b : bool)
  | VInt (z : Z)
  | VFloat (f : Float.t)
  | VStr (s : string)
  | VBytes (s : string)
  | VObj (id : N).

#[export] Instance pyval_eq_dec : EqDecision pyval.
Proof. solve_decision. Defined.

(** [v is not None]. *)
Definition is_not_none (v : pyval) : bool := match v with VNone => false | _ => true end.

(** ** Message types *)
Inductive MessageType :=
  | PING | PONG | PEER_LIST | PEER_ANNOUNCE | PEER_LEAVE
  | GET | SET | DELETE
  | OK | NOT_FOUND | ERROR.

#[export] Instance MessageType_eq_dec : EqDecision MessageType.
Proof. solve_decision. Defined.

Definition all_message_types : list MessageType :=
  [PING; PONG; PEER_LIST; PEER_ANNOUNCE; PEER_LEAVE; GET; SET; DELETE; OK; NOT_FOUND; ERROR].

(** [t.value]. *)
Definition mt_value (t : MessageType) : string :=
  match t with
  | PING => "ping" | PONG => "pong" | PEER_LIST => "peer_list"
  | PEER_ANNOUNCE => "peer_announce" | PEER_LEAVE => "peer_leave"
  | GET => "get" | SET => "set" | DELETE => "delete"
  | OK => "ok" | NOT_FOUND => "not_found" | ERROR => "error"
  end.

(** [MessageType(s)]: the member with that value, else [ValueError]. *)
Definition mt_of_value (s : string) : result MessageType :=
  match list_find (λ t, mt_value t = s) all_message_types with
  | Some (_, t) => Ok t
  | None => Raise ValueError
  end.

(** [f"{t}"]: since Python 3.12 a mixed-in enum formats as its qualified name. *)
Definition mt_format (t : MessageType) : string :=
  match t with
  | PING => "MessageType.PING" | PONG => "MessageType.PONG"
  | PEER_LIST => "MessageType.PEER_LIST" | PEER_ANNOUNCE => "MessageType.PEER_ANNOUNCE"
  | PEER_LEAVE => "MessageType.PEER_LEAVE" | GET => "MessageType.GET"
  | SET => "MessageType.SET" | DELETE => "MessageType.DELETE" | OK => "MessageType.OK"
  | NOT_FOUND => "MessageType.NOT_FOUND" | ERROR => "MessageType.ERROR"
  end.

Definition is_gossip (t : MessageType) : bool :=
  bool_decide (t ∈ [PING; PONG; PEER_LIST; PEER_ANNOUNCE; PEER_LEAVE]).

(** ** Nodes *)
Record NodeInfo := mkNodeInfo { host : string; port : Z }.

(** [f"{host}:{port}"], which is also the key of the pools' tables. *)
Definition join_address (h : string) (p : Z) : string := h +:+ String ":"%char (Int.to_str p).

Definition address (n : NodeInfo) : string := join_address (host n) (port n).

(** [repr(node)]. *)
Definition node_info_repr (n : NodeInfo) : string := "NodeInfo(" +:+ address n +:+ ")".

(** [NodeInfo.__eq__]: equality of addresses. *)
Definition node_eqb (a b : NodeInfo) : bool := bool_decide (address a = address b).

(** [NodeInfo.from_address]. *)
Definition from_address (s : string) : result NodeInfo :=
  match Str.rsplit1 ":"%char s with
  | None => Raise ValueError  (* not enough values to unpack *)
  | Some (h, p) => p ← Int.of_str p; mret (mkNodeInfo h p)
  end.

(** The dictionary [{"host": ..., "port": ...}]. *)
Record node_dict := mkNodeDict { nd_host : option string; nd_port : option Z }.

#[export] Instance node_dict_eq_dec : EqDecision node_dict.
Proof. solve_decision. Defined.

Definition node_to_dict (n : NodeInfo) : node_dict :=
  {| nd_host := Some (host n); nd_port := Some (port n) |}.

(** [d[k]] on an optional field. *)
Definition item {A} (field : option A) : result A :=
  match field with Some a => Ok a | None => Raise KeyError end.

Definition node_from_dict (d : node_dict) : result NodeInfo :=
  h ← item (nd_host d); p ← item (nd_port d); mret (mkNodeInfo h p).

Lemma from_address_address n : from_address (address n) = Ok n.
Proof.
  unfold from_address, address, join_address.
  rewrite Str.rsplit1_app by apply Int.to_str_no_colon.
  rewrite Int.of_str_to_str. by destruct n.
Qed.

Lemma address_inj a b : address a = address b → a = b.
Proof.
  intros Heq. pose proof (from_address_address a) as Ha.
  rewrite Heq, from_address_address in Ha. by simplify_eq.
Qed.

Lemma join_address_inj h1 p1 h2 p2 :
  join_address h1 p1 = join_address h2 p2 → h1 = h2 ∧ p1 = p2.
Proof.
  intros Heq. assert (mkNodeInfo h1 p1 = mkNodeInfo h2 p2) by (by apply address_inj).
  by simplify_eq.
Qed.

Lemma node_eqb_eq a b : node_eqb a b = true ↔ a = b.
Proof.
  unfold node_eqb. rewrite bool_decide_eq_true. split; [apply address_inj|by intros ->].
Qed.

(** Node equality is decided as [__eq__] does, through the address. *)
#[export] Instance NodeInfo_eq_dec : EqDecision NodeInfo := λ a b,
  match node_eqb a b as e return (e = true ↔ a = b) → {a = b} + {a ≠ b} with
  | true => λ H, left (proj1 H eq_refl)
  | false => λ H, right (λ Heq, Bool.diff_false_true (proj2 H Heq))
  end (node_eqb_eq a b).

#[export] Instance NodeInfo_countable : Countable NodeInfo.
Proof.
  refine (inj_countable' address
    (λ s, match from_address s with Ok n => n | Raise _ => mkNodeInfo "" 0 end) _).
  intros n. by rewrite from_address_address.
Defined.

Lemma node_from_to_dict n : node_from_dict (node_to_dict n) = Ok n.
Proof. by destruct n. Qed.

(** ** Messages *)
Record payload := mkPayload {
  p_key : option string;
  p_value : option pyval;
  p_ttl : option Float.t;
  p_ts : option Z;
  p_tombstone : option bool;
  p_peer : option node_dict;
  p_peers : option (list node_dict);
  p_requester : option node_dict;
  p_node : option node_dict;
  p_error : option string;
}.

#[export] Instance payload_eq_dec : EqDecision payload.
Proof. solve_decision. Defined.

(** [{}] and the dictionary displays the code writes. *)
Definition no_fields : payload := mkPayload None None None None None None None None None None.
Definition key_fields (k : string) : payload :=
  mkPayload (Some k) None None None None None None None None None.
Definition key_ts_fields (k : string) (ts : Z) : payload :=
  mkPayload (Some k) None None (Some ts) None None None None None None.
Definition tombstone_fields (k : string) (ts : Z) : payload :=
  mkPayload (Some k) None None (Some ts) (Some true) None None None None None.
Definition versioned_fields (k : string) (v : pyval) (ts : Z) : payload :=
  mkPayload (Some k) (Some v) None (Some ts) None None None None None None.
Definition set_fields (k : string) (v : pyval) (ttl : option Float.t) (ts : Z) : payload :=
  mkPayload (Some k) (Some v) ttl (Some ts) None None None None None None.
Definition peer_fields (d : node_dict) : payload :=
  mkPayload None None None None None (Some d) None None None None.
Definition peers_fields (ds : list node_dict) : payload :=
  mkPayload None None None None None None (Some ds) None None None.
Definition requester_fields (d : node_dict) : payload :=
  mkPayload None None None None None None None (Some d) None None.
Definition node_fields (d : node_dict) : payload :=
  mkPayload None None None None None None None None (Some d) None.
Definition error_fields (s : string) : payload :=
  mkPayload None None None None None None None None None (Some s).

(** [payload] is [None] when it is the Python [None], its default. *)
Record Message := mkMessage { m_type : MessageType; m_payload : option payload }.

#[export] Instance Message_eq_dec : EqDecision Message.
Proof. solve_decision. Defined.

(** [msg.payload[field]]. *)
Definition payload_item {A} (field : payload → option A) (msg : Message) : result A :=
  match m_payload msg with
  | None => Raise TypeError
  | Some p => item (field p)
  end.

(** [msg.payload.get(field)]. *)
Definition payload_get {A} (field : payload → option A) (msg : Message) : result (option A) :=
  match m_payload msg with
  | None => Raise AttributeError
  | Some p => Ok (field p)
  end.

(** The dictionary [{"type": ..., "payload": ...}]. *)
Record message_dict := mkMessageDict {
  md_type : option string;
  md_payload : option (option payload);
}.

Definition message_to_dict (m : Message) : message_dict :=
  {| md_type := Some (mt_value (m_type m)); md_payload := Some (m_payload m) |}.

Definition message_from_dict (d : message_dict) : result Message :=
  s ← item (md_type d); t ← mt_of_value s; mret (mkMessage t (mjoin (md_payload d))).

(** ** Properties *)

(** A node is identified by its address: [NodeInfo.__eq__], which compares
    the rendered [host:port] strings, holds exactly between nodes with the same
    host and the same port, whatever the host contains, and [from_address]
    recovers the node from its rendering. *)
Theorem node_identity a b :
  (node_eqb a b = true ↔ host a = host b ∧ port a = port b) ∧
  from_address (address a) = Ok a.
Proof.
  split; [|apply from_address_address].
  rewrite node_eqb_eq. destruct a, b; simpl. naive_solver.
Qed.

(** The dictionary forms are faithful: decoding what [to_dict] produced gives
    back the node and the message, and decoding succeeds only on dictionaries
    that carry the required keys and a known type value. *)
Theorem dict_roundtrip n m d :
  node_from_dict (node_to_dict n) = Ok n ∧
  message_from_dict (message_to_dict m) = Ok m ∧
  (∀ m', message_from_dict d = Ok m' →
     md_type d = Some (mt_value (m_type m')) ∧ m_payload m' = mjoin (md_payload d)).
Proof.
  split_and!; [apply node_from_to_dict|by destruct m as [[] ?]|].
  intros m'. unfold message_from_dict. destruct (md_type d) as [s|]; [|done]. simpl.
  unfold mt_of_value.
  destruct (list_find _ _) as [[i t]|] eqn:Hf; simpl; [|done].
  apply list_find_Some in Hf as (_ & <- & _). intros [= <-]. done.
Qed.
