(* ===== verification/Store.v ===== *)
(** * What a store is ([dlstorage/store/interface.py])

    The clocks a store reads, the operations of the [Store] and [VersionedStore]
    protocols as data, the abstract specification of a versioned store as a map
    of last-write-wins registers, and the interface its clients rely on. *)
From S2P Require Import Prelude PyBase PyDict Types.

(** ** Clocks *)

(** One reading of [time.monotonic()] and of [time.time_ns()]. *)
Record clock := mkClock { monotonic : Float.t; time_ns : Z }.

(** [time.monotonic() + ttl if ttl is not None else None]. *)
Definition expires_at (c : clock) (ttl : option Float.t) : option Float.t :=
  Float.add (monotonic c) <$> ttl.
#[global] Arguments expires_at : simpl never.

(** [expires_at is not None and time.monotonic() > expires_at], the test of reads. *)
Definition past (now : Float.t) (exp : option Float.t) : bool :=
  match exp with None => false | Some e => Float.ltb e now end.

(** [exp is None or exp > now], the test of listings. *)
Definition unexpired (now : Float.t) (exp : option Float.t) : bool :=
  match exp with None => true | Some e => Float.ltb now e end.

(** [exp is not None and exp <= now], the test of the purge. *)
Definition purgeable (now : Float.t) (exp : option Float.t) : bool :=
  match exp with None => false | Some e => Float.leb e now end.

Definition exp_is_nan (exp : option Float.t) : bool :=
  match exp with None => false | Some e => Float.is_nan e end.

(** The three tests agree except at the instant of expiry itself and on NaN. *)
Lemma purgeable_unexpired now exp :
  Float.is_nan now = false → exp_is_nan exp = false →
  purgeable now exp = negb (unexpired now exp).
Proof. destruct exp; [|done]. intros. by apply Float.leb_negb_ltb. Qed.

Lemma past_purgeable now exp : past now exp = true → purgeable now exp = true.
Proof. destruct exp; [|done]. apply Float.ltb_leb. Qed.

(** ** Entries *)

(** A stored value, or the [_TOMBSTONE] sentinel, which no user object is. *)
Inductive cell := Val (v : pyval) | TOMBSTONE.

#[export] Instance cell_eq_dec : EqDecision cell.
Proof. solve_decision. Defined.

Definition is_tombstone (x : cell) : bool :=
  match x with TOMBSTONE => true | Val _ => false end.

(** [(value_or_TOMBSTONE, expires_at, ts_ns)]. *)
Record entry := mkEntry { e_cell : cell; e_exp : option Float.t; e_ts : Z }.

#[export] Instance entry_eq_dec : EqDecision entry.
Proof. solve_decision. Defined.

(** [(value, ts_ns, is_tombstone)], the result of [get_versioned]. *)
Abbreviation versioned := (pyval * Z * bool)%type.

(** ** Operations of the protocols as data *)
Inductive store_op :=
  | OpSet (key : string) (value : pyval) (ttl : option Float.t) (ts : option Z)
  | OpGet (key : string)
  | OpGetVersioned (key : string)
  | OpDelete (key : string) (ts : option Z)
  | OpExists (key : string)
  | OpKeys
  | OpScan (pattern : string)
  | OpScanKeys (pattern : string)
  | OpFlushAll
  | OpFlushKeys (pattern : string)
  | OpClear
  | OpPurgeExpired
  | OpLen.

Inductive store_res :=
  | RNone
  | RBool (b : bool)
  | RVal (v : pyval)
  | RVersioned (o : option versioned)
  | RKeys (ks : list string)
  | RItems (kvs : list (string * pyval))
  | RCount (n : nat).

(** What a listing means: a set of keys, a map of items; the order is not
    specified. *)
Inductive spec_res :=
  | SRes (r : store_res)
  | SKeys (ks : gset string)
  | SItems (m : gmap string pyval).

Definition res_agree (r : store_res) (s : spec_res) : Prop :=
  match s, r with
  | SRes r', _ => r = r'
  | SKeys X, RKeys ks => NoDup ks ∧ list_to_set ks = X
  | SItems m, RItems kvs => NoDup kvs.*1 ∧ list_to_map kvs = m
  | _, _ => False
  end.

(** ** The abstract specification: a map of last-write-wins registers *)
Module Spec.
(** A write is refused exactly when the register holds a newer timestamp. *)
Definition write (new : entry) (o : option entry) : bool * option entry :=
  match o with
  | Some e => if bool_decide (e_ts new < e_ts e)%Z then (false, o) else (true, Some new)
  | None => (true, Some new)
  end.

(** A read forgets an expired value and shows a tombstone as such. *)
Definition read (now : Float.t) (o : option entry) : option versioned * option entry :=
  match o with
  | None => (None, None)
  | Some e =>
      match e_cell e with
      | TOMBSTONE => (Some (VNone, e_ts e, true), o)
      | Val v => if past now (e_exp e) then (None, None) else (Some (v, e_ts e, false), o)
      end
  end.

(** [None if missing, expired or deleted]. *)
Definition visible (r : option versioned) : pyval :=
  match r with
  | None => VNone
  | Some (v, _, true) => VNone
  | Some (v, _, false) => v
  end.

Definition lived (o : option entry) : bool :=
  match o with Some e => negb (is_tombstone (e_cell e)) | None => false end.

Definition listed (now : Float.t) (e : entry) : bool :=
  negb (is_tombstone (e_cell e)) && unexpired now (e_exp e).

Definition purged (now : Float.t) (e : entry) : bool :=
  negb (is_tombstone (e_cell e)) && purgeable now (e_exp e).

Definition cell_value (e : entry) : option pyval :=
  match e_cell e with Val v => Some v | TOMBSTONE => None end.

(** [kwargs.get("ts")], with the wall clock as the default. *)
Definition stamp (c : clock) (ts : option Z) : Z := default (time_ns c) ts.

Definition step (c : clock) (op : store_op) (m : gmap string entry) :
    spec_res * gmap string entry :=
  let now := monotonic c in
  let look k := filter (λ kv : string * entry, listed now kv.2 && Str.contains k kv.1) m in
  match op with
  | OpSet k v ttl ts =>
      let new := mkEntry (Val v) (expires_at c ttl) (stamp c ts) in
      (SRes (RBool (write new (m !! k)).1), partial_alter (λ o, (write new o).2) k m)
  | OpDelete k ts =>
      let new := mkEntry TOMBSTONE None (stamp c ts) in
      (SRes (RBool (lived (m !! k))), partial_alter (λ o, (write new o).2) k m)
  | OpGet k =>
      (SRes (RVal (visible (read now (m !! k)).1)), partial_alter (λ o, (read now o).2) k m)
  | OpGetVersioned k =>
      (SRes (RVersioned (read now (m !! k)).1), partial_alter (λ o, (read now o).2) k m)
  | OpExists k =>
      (SRes (RBool (is_not_none (visible (read now (m !! k)).1))),
       partial_alter (λ o, (read now o).2) k m)
  | OpKeys => (SKeys (dom (filter (λ kv : string * entry, listed now kv.2) m)), m)
  | OpScan p => (SItems (omap cell_value (look p)), m)
  | OpScanKeys p => (SKeys (dom (look p)), m)
  | OpFlushAll | OpClear => (SRes RNone, ∅)
  | OpFlushKeys p =>
      (SRes (RCount (size (filter (λ kv : string * entry, Str.contains p kv.1) m))),
       filter (λ kv : string * entry, ¬ Str.contains p kv.1) m)
  | OpPurgeExpired =>
      (SRes (RCount (size (filter (λ kv : string * entry, purged now kv.2) m))),
       filter (λ kv : string * entry, ¬ purged now kv.2) m)
  | OpLen => (SRes (RCount (size (filter (λ kv : string * entry, listed now kv.2) m))), m)
  end.

(** *** Laws of the registers *)

Lemma write_idemp new o : (write new (write new o).2).2 = (write new o).2.
Proof.
  destruct o as [e|]; simpl; repeat case_bool_decide; simpl;
    repeat case_bool_decide; done || lia.
Qed.

(** Two writes commute unless they carry the same timestamp. *)
Lemma write_comm new1 new2 o :
  e_ts new1 ≠ e_ts new2 ∨ new1 = new2 →
  (write new1 (write new2 o).2).2 = (write new2 (write new1 o).2).2.
Proof.
  intros [Hne| ->]; [|done].
  destruct o as [e|]; simpl; repeat case_bool_decide; simpl;
    repeat case_bool_decide; done || lia.
Qed.

(** After a write the register is at least as new as the write and as it was. *)
Lemma write_ts new o :
  ∃ e, (write new o).2 = Some e ∧ (e_ts new ≤ e_ts e)%Z ∧
    (∀ e0, o = Some e0 → e_ts e0 ≤ e_ts e)%Z.
Proof.
  destruct o as [e|]; simpl; [case_bool_decide|]; simpl; eexists; split_and!;
    try done; try lia; intros ? [= <-]; lia.
Qed.
End Spec.

(** ** The interface a versioned store offers *)

(** The operations of [VersionedStore] the nodes and the dispatcher call. *)
Class VersionedStore (S : Type) := {
  vs_get : clock → string → M S pyval;
  vs_get_versioned : clock → string → M S (option versioned);
  vs_set : clock → string → pyval → option Float.t → option Z → M S bool;
  vs_delete : clock → string → option Z → M S bool;
}.

(** What they promise: on a well-formed store no call raises, the key's register
    evolves as specified and the other keys keep theirs. *)
Class VersionedStoreLaws (S : Type) `{VersionedStore S} := {
  vs_wf : S → Prop;
  vs_entry : S → string → option entry;
  vs_get_spec c k s : vs_wf s → ∃ s',
    vs_get c k s = (Ok (Spec.visible (Spec.read (monotonic c) (vs_entry s k)).1), s') ∧
    vs_wf s' ∧
    ∀ k', vs_entry s' k' =
      if decide (k = k') then (Spec.read (monotonic c) (vs_entry s k)).2 else vs_entry s k';
  vs_get_versioned_spec c k s : vs_wf s → ∃ s',
    vs_get_versioned c k s = (Ok (Spec.read (monotonic c) (vs_entry s k)).1, s') ∧
    vs_wf s' ∧
    ∀ k', vs_entry s' k' =
      if decide (k = k') then (Spec.read (monotonic c) (vs_entry s k)).2 else vs_entry s k';
  vs_set_spec c k v ttl ts s : vs_wf s →
    let new := mkEntry (Val v) (expires_at c ttl) (Spec.stamp c ts) in
    ∃ s', vs_set c k v ttl ts s = (Ok (Spec.write new (vs_entry s k)).1, s') ∧
    vs_wf s' ∧
    ∀ k', vs_entry s' k' =
      if decide (k = k') then (Spec.write new (vs_entry s k)).2 else vs_entry s k';
  vs_delete_spec c k ts s : vs_wf s →
    let new := mkEntry TOMBSTONE None (Spec.stamp c ts) in
    ∃ s', vs_delete c k ts s = (Ok (Spec.lived (vs_entry s k)), s') ∧
    vs_wf s' ∧
    ∀ k', vs_entry s' k' =
      if decide (k = k') then (Spec.write new (vs_entry s k)).2 else vs_entry s k';
}.
