(* ===== verification/LwwStore.v ===== *)
(** * The last-write-wins store ([dlstorage/store/lww.py])

    [LocalLWWStore]: its only state is the dictionary [_data].  Every method
    body runs under the store's re-entrant lock, so a method is one atomic
    transition; the clock readings a call makes are its [clock] argument. *)
From S2P Require Import Prelude PyBase PyDict Types Store.

(** [self._data]. *)
Abbreviation lww_store := (list (string * entry)).

(** ** Operations *)

Definition lww_set (c : clock) (key : string) (value : pyval) (ttl : option Float.t)
    (ts : option Z) : M lww_store bool :=
  let ts := match ts with Some ts => ts | None => time_ns c end in
  let exp := expires_at c ttl in
  data ← get_state;
  match dict_get data key with
  | Some existing =>
      if bool_decide (e_ts existing > ts)%Z then mret false
      else put_state (dict_set data key (mkEntry (Val value) exp ts)) ;; mret true
  | None => put_state (dict_set data key (mkEntry (Val value) exp ts)) ;; mret true
  end.

Definition lww_get_versioned (c : clock) (key : string) : M lww_store (option versioned) :=
  data ← get_state;
  match dict_get data key with
  | None => mret None
  | Some (mkEntry TOMBSTONE _ ts) => mret (Some (VNone, ts, true))
  | Some (mkEntry (Val value) exp ts) =>
      if past (monotonic c) exp then dict_del key ;; mret None
      else mret (Some (value, ts, false))
  end.

Definition lww_get (c : clock) (key : string) : M lww_store pyval :=
  result ← lww_get_versioned c key;
  match result with
  | None => mret VNone
  | Some (value, ts, is_tomb) => mret (if is_tomb : bool then VNone else value)
  end.

Definition lww_delete (c : clock) (key : string) (ts : option Z) : M lww_store bool :=
  let ts := match ts with Some ts => ts | None => time_ns c end in
  data ← get_state;
  let existing := dict_get data key in
  let lived := match existing with
    | Some e => negb (is_tombstone (e_cell e))
    | None => false end in
  (if match existing with Some e => bool_decide (e_ts e ≤ ts)%Z | None => true end
   then put_state (dict_set data key (mkEntry TOMBSTONE None ts)) else mret tt) ;;
  mret lived.

Definition lww_exists (c : clock) (key : string) : M lww_store bool :=
  v ← lww_get c key; mret (is_not_none v).

Definition lww_keys (c : clock) : M lww_store (list string) :=
  data ← get_state;
  mret (filter (λ kv : string * entry,
    negb (is_tombstone (e_cell kv.2)) && unexpired (monotonic c) (e_exp kv.2)) data).*1.

(** The items of [scan]; a live entry's cell is a value, which [cell_get] reads. *)
Definition cell_get (x : cell) : pyval := match x with Val v => v | TOMBSTONE => VNone end.

Definition lww_scan (c : clock) (pattern : string) : M lww_store (list (string * pyval)) :=
  data ← get_state;
  mret ((λ kv : string * entry, (kv.1, cell_get (e_cell kv.2))) <$>
    filter (λ kv : string * entry,
      negb (is_tombstone (e_cell kv.2)) && Str.contains pattern kv.1 &&
      unexpired (monotonic c) (e_exp kv.2)) data).

Definition lww_scan_keys (c : clock) (pattern : string) : M lww_store (list string) :=
  data ← get_state;
  mret (filter (λ kv : string * entry,
      negb (is_tombstone (e_cell kv.2)) && Str.contains pattern kv.1 &&
      unexpired (monotonic c) (e_exp kv.2)) data).*1.

Definition lww_flush_all : M lww_store unit := put_state [].

Definition lww_flush_keys (pattern : string) : M lww_store nat :=
  data ← get_state;
  let to_delete := (filter (λ kv : string * entry, Str.contains pattern kv.1) data).*1 in
  for_each to_delete dict_del ;; mret (length to_delete).

Definition lww_clear : M lww_store unit := put_state [].

Definition lww_purge_expired (c : clock) : M lww_store nat :=
  data ← get_state;
  let expired := (filter (λ kv : string * entry,
    negb (is_tombstone (e_cell kv.2)) && purgeable (monotonic c) (e_exp kv.2)) data).*1 in
  for_each expired dict_del ;; mret (length expired).

Definition lww_len (c : clock) : M lww_store nat :=
  ks ← lww_keys c; mret (length ks).

(** [repr(store)], which has the name of the other class. *)
Definition lww_repr (c : clock) : M lww_store string :=
  n ← lww_len c; mret ("LocalStore(keys=" +:+ Int.to_str (Z.of_nat n) +:+ ")").

(** Every public method, by name. *)
Definition lww_run (c : clock) (op : store_op) : M lww_store store_res :=
  match op with
  | OpSet k v ttl ts => r ← lww_set c k v ttl ts; mret (RBool r)
  | OpGet k => r ← lww_get c k; mret (RVal r)
  | OpGetVersioned k => r ← lww_get_versioned c k; mret (RVersioned r)
  | OpDelete k ts => r ← lww_delete c k ts; mret (RBool r)
  | OpExists k => r ← lww_exists c k; mret (RBool r)
  | OpKeys => r ← lww_keys c; mret (RKeys r)
  | OpScan p => r ← lww_scan c p; mret (RItems r)
  | OpScanKeys p => r ← lww_scan_keys c p; mret (RKeys r)
  | OpFlushAll => lww_flush_all ;; mret RNone
  | OpFlushKeys p => r ← lww_flush_keys p; mret (RCount r)
  | OpClear => lww_clear ;; mret RNone
  | OpPurgeExpired => r ← lww_purge_expired c; mret (RCount r)
  | OpLen => r ← lww_len c; mret (RCount r)
  end.

(** ** Each operation is its register transition *)

Section runs.
Implicit Types (d : lww_store) (c : clock) (k p : string).

Lemma lww_set_run c k v ttl ts d :
  let new := mkEntry (Val v) (expires_at c ttl) (Spec.stamp c ts) in
  lww_set c k v ttl ts d =
    (Ok (Spec.write new (dict_get d k)).1, dict_alter (λ o, (Spec.write new o).2) d k).
Proof.
  cbv zeta. unfold lww_set. unfold_M. unfold Spec.stamp, default, dict_alter.
  destruct (dict_get d k) as [e|] eqn:Hk; simpl; [|by destruct ts].
  destruct ts as [ts|]; simpl; repeat case_bool_decide; simpl;
    first [lia | by rewrite ?(dict_set_id _ _ _ Hk)].
Qed.

Lemma lww_delete_run c k ts d :
  let new := mkEntry TOMBSTONE None (Spec.stamp c ts) in
  lww_delete c k ts d =
    (Ok (Spec.lived (dict_get d k)), dict_alter (λ o, (Spec.write new o).2) d k).
Proof.
  cbv zeta. unfold lww_delete. unfold_M. unfold Spec.stamp, default, dict_alter.
  destruct (dict_get d k) as [e|] eqn:Hk; simpl; [|by destruct ts].
  destruct ts as [ts|]; simpl; repeat case_bool_decide; simpl;
    first [lia | by rewrite ?(dict_set_id _ _ _ Hk)].
Qed.

Lemma lww_get_versioned_run c k d :
  lww_get_versioned c k d =
    (Ok (Spec.read (monotonic c) (dict_get d k)).1,
     dict_alter (λ o, (Spec.read (monotonic c) o).2) d k).
Proof.
  unfold lww_get_versioned. unfold_M.
  destruct (dict_get d k) as [[[v|] exp ts]|] eqn:Hk; simpl.
  - destruct (past (monotonic c) exp) eqn:Hp.
    + rewrite (dict_del_alter _ _ _ Hk). unfold dict_alter. rewrite Hk. simpl. by rewrite Hp.
    + rewrite dict_alter_id; [done|]. rewrite Hk. simpl. by rewrite Hp.
  - rewrite dict_alter_id; [done|by rewrite Hk].
  - rewrite dict_alter_id; [done|by rewrite Hk].
Qed.

Lemma lww_get_run c k d :
  lww_get c k d =
    (Ok (Spec.visible (Spec.read (monotonic c) (dict_get d k)).1),
     dict_alter (λ o, (Spec.read (monotonic c) o).2) d k).
Proof.
  unfold lww_get. unfold_M. rewrite lww_get_versioned_run.
  by destruct (Spec.read _ _).1 as [[[? ?] []]|].
Qed.

Lemma lww_purge_expired_run c d :
  dict_wf d →
  lww_purge_expired c d =
    (Ok (length (filter (λ kv : string * entry, Spec.purged (monotonic c) kv.2) d).*1),
     filter (λ kv : string * entry, ¬ Spec.purged (monotonic c) kv.2) d).
Proof.
  intros Hwf. unfold lww_purge_expired. unfold_M. cbn.
  by rewrite (for_each_del_filter (λ kv : string * entry, Spec.purged (monotonic c) kv.2)).
Qed.

Lemma lww_flush_keys_run p d :
  dict_wf d →
  lww_flush_keys p d =
    (Ok (length (filter (λ kv : string * entry, Str.contains p kv.1) d).*1),
     filter (λ kv : string * entry, ¬ Str.contains p kv.1) d).
Proof.
  intros Hwf. unfold lww_flush_keys. unfold_M. cbn.
  by rewrite (for_each_del_filter (λ kv : string * entry, Str.contains p kv.1)).
Qed.

(** The three listings filter with conditions in the order the code tests them. *)
Lemma scan_filter now p d :
  filter (λ kv : string * entry,
    negb (is_tombstone (e_cell kv.2)) && Str.contains p kv.1 && unexpired now (e_exp kv.2)) d =
  filter (λ kv : string * entry, Spec.listed now kv.2 && Str.contains p kv.1) d.
Proof.
  apply filter_ext_in. intros [k e] _. simpl. unfold Spec.listed.
  destruct (is_tombstone _), (Str.contains _ _), (unexpired _ _); simpl; tauto.
Qed.

Lemma scan_items (P : string * entry → bool) d :
  dict_wf d → (∀ kv, P kv → is_tombstone (e_cell kv.2) = false) →
  list_to_map ((λ kv : string * entry, (kv.1, cell_get (e_cell kv.2))) <$> filter P d)
    = (omap Spec.cell_value (filter P (to_map d)) : gmap string pyval).
Proof.
  intros Hwf HP. rewrite <- filter_lookup by done.
  assert (dict_wf (filter P d)) as Hwf' by (by apply filter_wf).
  apply map_eq. intros k. apply option_eq. intros v.
  rewrite <- elem_of_list_to_map by (by rewrite <- list_fmap_compose).
  rewrite lookup_omap, bind_Some, list_elem_of_fmap. split.
  - intros ([k' e] & [= -> ->] & Hin). exists e. split.
    + unfold to_map. by rewrite <- elem_of_list_to_map.
    + apply list_elem_of_filter in Hin as [Hl _]. apply HP in Hl. simpl in Hl.
      unfold Spec.cell_value. by destruct (e_cell e).
  - intros (e & Hin & Hv). unfold to_map in Hin. rewrite <- elem_of_list_to_map in Hin by done.
    exists (k, e). split; [|done]. simpl. unfold Spec.cell_value in Hv.
    destruct (e_cell e); by simplify_eq.
Qed.
End runs.

(** ** Refinement *)

(** C9. [LocalLWWStore] refines the map of last-write-wins registers: on a
    well-formed dictionary every public method returns normally (no [KeyError]
    from its deletions), keeps the dictionary well formed, and returns the result
    and reaches the state of the abstract step, listings being compared as sets
    and maps. *)
Theorem lww_refines_spec c op d :
  dict_wf d →
  ∃ r d', lww_run c op d = (Ok r, d') ∧ dict_wf d' ∧
    res_agree r (Spec.step c op (to_map d)).1 ∧ to_map d' = (Spec.step c op (to_map d)).2.
Proof.
  intros Hwf.
  pose proof (filter_keys (λ kv : string * entry, Spec.listed (monotonic c) kv.2) d Hwf).
  destruct op as [k v ttl ts|k|k|k ts|k| |p|p| |p| | |]; unfold lww_run; unfold_M.
  - rewrite lww_set_run. do 2 eexists.
    split_and!; [done|by apply dict_alter_wf| |by apply dict_alter_lookup].
    simpl. by rewrite dict_get_lookup.
  - rewrite lww_get_run. do 2 eexists.
    split_and!; [done|by apply dict_alter_wf| |by apply dict_alter_lookup].
    simpl. by rewrite dict_get_lookup.
  - rewrite lww_get_versioned_run. do 2 eexists.
    split_and!; [done|by apply dict_alter_wf| |by apply dict_alter_lookup].
    simpl. by rewrite dict_get_lookup.
  - rewrite lww_delete_run. do 2 eexists.
    split_and!; [done|by apply dict_alter_wf| |by apply dict_alter_lookup].
    simpl. by rewrite dict_get_lookup.
  - unfold lww_exists. unfold_M. rewrite lww_get_run. do 2 eexists.
    split_and!; [done|by apply dict_alter_wf| |by apply dict_alter_lookup].
    simpl. by rewrite dict_get_lookup.
  - by do 2 eexists.
  - do 2 eexists. split_and!; [done|done| |done]. simpl.
    rewrite scan_filter. split; [|apply scan_items; [done|]]; cycle 1.
    { intros [? e]. simpl. unfold Spec.listed. by destruct (is_tombstone _). }
    rewrite <- list_fmap_compose. by apply NoDup_filter_fst.
  - do 2 eexists. split_and!; [done|done| |done]. simpl.
    rewrite scan_filter. by apply filter_keys.
  - do 2 eexists. by split_and!; [done|apply dict_wf_nil| |].
  - rewrite lww_flush_keys_run by done. do 2 eexists.
    split_and!; [done|by apply filter_wf| |by apply filter_lookup].
    simpl. by rewrite filter_count.
  - do 2 eexists. by split_and!; [done|apply dict_wf_nil| |].
  - rewrite lww_purge_expired_run by done. do 2 eexists.
    split_and!; [done|by apply filter_wf| |by apply filter_lookup].
    simpl. by rewrite filter_count.
  - do 2 eexists. split_and!; [done|done| |done]. simpl.
    by rewrite <- filter_count.
Qed.

(** A store with a live key, a deleted one and one whose value expires. *)
Definition sample_store : lww_store :=
  [("a", mkEntry (Val (VInt 1)) None 5);
   ("b", mkEntry TOMBSTONE None 7);
   ("c", mkEntry (Val (VStr "x")) (Some (Float.of_Z 3)) 6)].
Definition sample_clock : clock := mkClock (Float.of_Z 4) 100.

Lemma sample_store_wf : dict_wf sample_store.
Proof. unfold dict_wf. simpl. repeat (apply NoDup_cons; split; [set_solver|]). constructor. Qed.

Lemma lww_refines_spec_witness :
  ∃ r d', lww_run sample_clock OpPurgeExpired sample_store = (Ok r, d') ∧ dict_wf d' ∧
    res_agree r (Spec.step sample_clock OpPurgeExpired (to_map sample_store)).1 ∧
    to_map d' = (Spec.step sample_clock OpPurgeExpired (to_map sample_store)).2.
Proof. apply (lww_refines_spec sample_clock OpPurgeExpired sample_store sample_store_wf). Defined.

(** ** The store offers the versioned-store interface *)
#[export] Instance lww_versioned : VersionedStore lww_store := {
  vs_get := lww_get;
  vs_get_versioned := lww_get_versioned;
  vs_set := lww_set;
  vs_delete := lww_delete;
}.

#[export] Program Instance lww_versioned_laws : VersionedStoreLaws lww_store := {
  vs_wf := dict_wf;
  vs_entry := dict_get;
}.
Next Obligation.
  intros c k d Hwf. simpl. rewrite lww_get_run. eexists.
  split_and!; [done|by apply dict_alter_wf|intros; by rewrite dict_alter_get].
Qed.
Next Obligation.
  intros c k d Hwf. simpl. rewrite lww_get_versioned_run. eexists.
  split_and!; [done|by apply dict_alter_wf|intros; by rewrite dict_alter_get].
Qed.
Next Obligation.
  intros c k v ttl ts d Hwf new. simpl. rewrite lww_set_run. eexists.
  split_and!; [done|by apply dict_alter_wf|intros; by rewrite dict_alter_get].
Qed.
Next Obligation.
  intros c k ts d Hwf new. simpl. rewrite lww_delete_run. eexists.
  split_and!; [done|by apply dict_alter_wf|intros; by rewrite dict_alter_get].
Qed.

(** ** Histories *)

(** The store after a sequence of calls, each with the clocks it read. *)
Definition replay (h : list (clock * store_op)) (d : lww_store) : lww_store :=
  foldl (λ d ev, (lww_run ev.1 ev.2 d).2) d h.

(** The register after one call, on any key. *)
Definition reg_step (c : clock) (op : store_op) (k : string) (o : option entry) : option entry :=
  let now := monotonic c in
  match op with
  | OpSet k' v ttl ts =>
      if decide (k' = k) then (Spec.write (mkEntry (Val v) (expires_at c ttl) (Spec.stamp c ts)) o).2 else o
  | OpDelete k' ts =>
      if decide (k' = k) then (Spec.write (mkEntry TOMBSTONE None (Spec.stamp c ts)) o).2 else o
  | OpGet k' | OpGetVersioned k' | OpExists k' =>
      if decide (k' = k) then (Spec.read now o).2 else o
  | OpKeys | OpScan _ | OpScanKeys _ | OpLen => o
  | OpFlushAll | OpClear => None
  | OpFlushKeys p => if Str.contains p k then None else o
  | OpPurgeExpired =>
      match o with Some e => if Spec.purged now e then None else o | None => None end
  end.

Lemma get_filter (P : string * entry → bool) d k :
  dict_wf d →
  dict_get (filter P d) k =
    match dict_get d k with Some e => if P (k, e) then Some e else None | None => None end.
Proof.
  intros Hwf. rewrite !dict_get_lookup, filter_lookup, map_lookup_filter by done.
  destruct (to_map d !! k) as [e|]; simpl; [|done].
  case_guard; by destruct (P (k, e)).
Qed.

Lemma get_filter_not (P : string * entry → bool) d k :
  dict_wf d →
  dict_get (filter (λ kv, ¬ P kv) d) k =
    match dict_get d k with Some e => if P (k, e) then None else Some e | None => None end.
Proof.
  intros Hwf.
  rewrite (filter_ext_in _ (λ kv, negb (P kv))) by (intros x _; destruct (P x); simpl; tauto).
  rewrite (get_filter (λ kv, negb (P kv))) by done.
  destruct (dict_get d k) as [e|]; [|done]. simpl. by destruct (P (k, e)).
Qed.

Lemma lww_run_reg c op d k :
  dict_wf d →
  dict_wf (lww_run c op d).2 ∧
  dict_get (lww_run c op d).2 k = reg_step c op k (dict_get d k).
Proof.
  intros Hwf.
  destruct op as [k' v ttl ts|k'|k'|k' ts|k'| |p|p| |p| | |];
    unfold lww_run, lww_exists; unfold_M;
    rewrite ?lww_set_run, ?lww_get_run, ?lww_get_versioned_run, ?lww_delete_run,
      ?lww_flush_keys_run, ?lww_purge_expired_run by done;
    simpl; rewrite ?dict_alter_get by done.
  all: try (split; [by eauto using dict_alter_wf with dls|]; case_decide; by subst).
  all: try (split; [by eauto with dls|done]).
  - split; [by apply filter_wf|].
    rewrite (get_filter_not (λ kv, Str.contains p kv.1)) by done. simpl.
    by destruct (dict_get d k), (Str.contains p k).
  - split; [by apply filter_wf|].
    rewrite (get_filter_not (λ kv, Spec.purged (monotonic c) kv.2)) by done. simpl. by destruct (dict_get d k).
Qed.

Lemma replay_wf h d : dict_wf d → dict_wf (replay h d).
Proof.
  revert d. induction h as [|[c op] h IH]; intros d Hwf; [done|].
  apply IH. by apply (lww_run_reg c op d "").
Qed.

(** The register of a key along a history, step by step. *)
Lemma replay_get h d k :
  dict_wf d →
  dict_get (replay h d) k = foldl (λ o ev, reg_step ev.1 ev.2 k o) (dict_get d k) h.
Proof.
  revert d. induction h as [|[c op] h IH]; intros d Hwf; [done|].
  simpl. rewrite <- (proj2 (lww_run_reg c op d k Hwf)).
  apply IH. by apply lww_run_reg.
Qed.
