(* ===== verification/LwwHistory.v ===== *)
(** * Histories of a last-write-wins store

    What [LocalLWWStore] guarantees over sequences of calls: timestamps never go
    back, tombstones hold, listings agree with reads, and replicas that received
    the same writes in different orders agree. *)
From S2P Require Import Prelude PyBase PyDict Types Store LwwStore.

Implicit Types (d : lww_store) (c : clock) (k : string) (op : store_op) (o : option entry).

(** ** Timestamps *)

(** A call that empties the register of [k] regardless of its timestamp. *)
Definition flushes (k : string) (op : store_op) : bool :=
  match op with
  | OpFlushAll | OpClear => true
  | OpFlushKeys p => Str.contains p k
  | _ => false
  end.

(** The value has reached its expiry according to the reading [now]. *)
Definition expired_value (now : Float.t) (e : entry) : bool :=
  negb (is_tombstone (e_cell e)) && purgeable now (e_exp e).

Lemma read_step now e :
  (Spec.read now (Some e)).2 = Some e ∨
  (Spec.read now (Some e)).2 = None ∧ expired_value now e = true.
Proof.
  destruct e as [[v|] exp ts]; simpl; [|by left].
  destruct (past now exp) eqn:Hp; [|by left]. right.
  unfold expired_value. simpl. by rewrite past_purgeable.
Qed.

Lemma reg_step_monotone c op k e :
  match reg_step c op k (Some e) with
  | Some e' => (e_ts e ≤ e_ts e')%Z
  | None => flushes k op = true ∨ expired_value (monotonic c) e = true
  end.
Proof.
  assert (∀ new, match (Spec.write new (Some e)).2 with
    | Some e' => (e_ts e ≤ e_ts e')%Z | None => False end) as Hwrite.
  { intros new. simpl. case_bool_decide; simpl; lia. }
  assert (match (Spec.read (monotonic c) (Some e)).2 with
    | Some e' => (e_ts e ≤ e_ts e')%Z
    | None => expired_value (monotonic c) e = true end) as Hread.
  { destruct (read_step (monotonic c) e) as [->|[-> ?]]; [lia|done]. }
  destruct op; unfold reg_step; cbv zeta; try case_decide; subst; try (by left); try lia.
  all: try (match goal with |- context [Spec.write ?n _] => specialize (Hwrite n) end;
    by destruct (Spec.write _ _).2).
  all: try (destruct (Spec.read _ _).2; [done|by right]).
  - simpl. destruct (Str.contains pattern k); [by left|lia].
  - unfold Spec.purged. destruct (_ && _) eqn:Hp; [by right|lia].
Qed.

(** Timestamps never go back: after any call of a public method the entry of
    a key is still there with a timestamp at least as new, unless the call
    flushed the key or the entry was a value that had reached its expiry. *)
Theorem lww_timestamp_monotone c op d k e :
  dict_wf d → dict_get d k = Some e →
  match dict_get (lww_run c op d).2 k with
  | Some e' => (e_ts e ≤ e_ts e')%Z
  | None => flushes k op = true ∨ expired_value (monotonic c) e = true
  end.
Proof.
  intros Hwf Hk. rewrite (proj2 (lww_run_reg c op d k Hwf)), Hk.
  apply reg_step_monotone.
Qed.

Lemma lww_timestamp_monotone_witness :
  let op := OpSet "a" (VInt 9) None (Some 3%Z) in
  match dict_get (lww_run sample_clock op sample_store).2 "a" with
  | Some e' => (5 ≤ e_ts e')%Z
  | None => flushes "a" op = true ∨
      expired_value (monotonic sample_clock) (mkEntry (Val (VInt 1)) None 5) = true
  end.
Proof.
  apply (lww_timestamp_monotone sample_clock _ sample_store "a" (mkEntry (Val (VInt 1)) None 5)
    sample_store_wf). reflexivity.
Defined.

(** ** Tombstones *)

(** The call neither flushes [k] nor writes a value to it stamped [ts] or later. *)
Definition stale_for (k : string) (ts : Z) (ev : clock * store_op) : bool :=
  negb (flushes k ev.2) &&
  match ev.2 with
  | OpSet k' _ _ ts' => bool_decide (k' ≠ k ∨ Spec.stamp ev.1 ts' < ts)%Z
  | _ => true
  end.

Definition deleted_since (ts : Z) (o : option entry) : Prop :=
  ∃ exp ts', o = Some (mkEntry TOMBSTONE exp ts') ∧ (ts ≤ ts')%Z.

Lemma deleted_since_step k ts ev o :
  stale_for k ts ev = true → deleted_since ts o → deleted_since ts (reg_step ev.1 ev.2 k o).
Proof.
  intros Hst (exp & ts' & -> & Hle). destruct ev as [c op]. unfold stale_for in Hst.
  apply andb_true_iff in Hst as [Hfl Hst]. simpl in *.
  destruct op as [k' v ttl tso|k'|k'|k' tso|k'| |p|p| |p| | |]; simpl in *; try done;
    try (by exists exp, ts'); try case_decide; subst; try (by exists exp, ts').
  - apply bool_decide_eq_true in Hst. destruct Hst as [|Hst]; [done|].
    rewrite bool_decide_eq_true_2 by lia. by exists exp, ts'.
  - case_bool_decide; simpl; [by exists exp, ts'|].
    eexists _, _. split; [done|]. lia.
  - destruct (Str.contains p k); [done|]. by exists exp, ts'.
Qed.

Lemma deleted_since_replay k ts h o :
  Forall (λ ev, stale_for k ts ev = true) h → deleted_since ts o →
  deleted_since ts (foldl (λ o ev, reg_step ev.1 ev.2 k o) o h).
Proof.
  intros Hh. revert o. induction Hh as [|ev h Hev Hh IH]; intros o Ho; [done|].
  apply IH. by apply deleted_since_step.
Qed.

(** C35. A late write cannot resurrect a deleted key: once a delete stamped [ts] is
    applied to a key whose entry is not newer, then after any later traffic
    whose writes of values to that key are stamped before [ts] (reads, other
    keys, further deletes and purges included) the key reads as missing and is
    reported as a tombstone at least as new as [ts]. *)
Theorem tombstone_blocks_stale_writes c ts k h c' d :
  dict_wf d →
  (∀ e, dict_get d k = Some e → (e_ts e ≤ ts)%Z) →
  Forall (λ ev, stale_for k ts ev = true) h →
  let d' := replay h (lww_run c (OpDelete k (Some ts)) d).2 in
  (lww_get c' k d').1 = Ok VNone ∧
  ∃ ts', (lww_get_versioned c' k d').1 = Ok (Some (VNone, ts', true)) ∧ (ts ≤ ts')%Z.
Proof.
  intros Hwf Hold Hh d'.
  destruct (lww_run_reg c (OpDelete k (Some ts)) d k Hwf) as [Hwf1 Hget1].
  assert (deleted_since ts (dict_get d' k)) as (exp & ts' & Hd' & Hle).
  { unfold d'. rewrite replay_get by done. apply deleted_since_replay; [done|].
    rewrite Hget1. simpl. rewrite decide_True by done.
    destruct (dict_get d k) as [e|]; [|by eexists _, _].
    specialize (Hold e eq_refl). simpl.
    rewrite bool_decide_eq_false_2 by lia. by eexists _, _. }
  rewrite lww_get_run, lww_get_versioned_run, Hd'. simpl. split; [done|]. by exists ts'.
Qed.

Lemma tombstone_blocks_stale_writes_witness :
  let h := [(sample_clock, OpSet "a" (VInt 2) None (Some 8%Z)); (sample_clock, OpPurgeExpired);
            (sample_clock, OpGet "a"); (sample_clock, OpSet "b" VNone None None)] in
  let d' := replay h (lww_run sample_clock (OpDelete "a" (Some 9%Z)) sample_store).2 in
  (lww_get sample_clock "a" d').1 = Ok VNone ∧
  ∃ ts', (lww_get_versioned sample_clock "a" d').1 = Ok (Some (VNone, ts', true)) ∧ (9 ≤ ts')%Z.
Proof.
  apply (tombstone_blocks_stale_writes sample_clock 9%Z "a" _ sample_clock sample_store
    sample_store_wf).
  - intros e He. vm_compute in He. injection He as <-. simpl. lia.
  - repeat constructor.
Defined.

(** The timestamp of an expired value is forgotten with it: once a value has
    expired, a read or a purge drops the entry, and a replayed older write is then
    accepted and becomes visible.  The guard of [set] therefore protects an
    unexpired entry or a tombstone only. *)
Theorem expiry_forgets_timestamp c c' c'' k v_new v_old ttl ts ts_old d :
  dict_wf d →
  (∀ e, dict_get d k = Some e → (e_ts e ≤ ts)%Z) →
  (ts_old < ts)%Z →
  past (monotonic c') (expires_at c (Some ttl)) = true →
  let d1 := (lww_run c (OpSet k v_new (Some ttl) (Some ts)) d).2 in
  (* before expiry the older write is refused *)
  (lww_set c'' k v_old None (Some ts_old) d1).1 = Ok false ∧
  (* after a read, or a sweep, at an instant past the expiry it is accepted *)
  ∀ op, op = OpGet k ∨ op = OpPurgeExpired →
  let d2 := (lww_run c' op d1).2 in
  (lww_set c'' k v_old None (Some ts_old) d2).1 = Ok true ∧
  (lww_get c'' k (lww_set c'' k v_old None (Some ts_old) d2).2).1 = Ok v_old.
Proof.
  intros Hwf Hold Hlt Hpast d1.
  destruct (lww_run_reg c (OpSet k v_new (Some ttl) (Some ts)) d k Hwf) as [Hwf1 Hget1].
  fold d1 in Hwf1, Hget1.
  assert (dict_get d1 k = Some (mkEntry (Val v_new) (expires_at c (Some ttl)) ts)) as Hd1.
  { rewrite Hget1. unfold reg_step. rewrite decide_True by done.
    destruct (dict_get d k) as [e|] eqn:He; [|done]. specialize (Hold e eq_refl).
    unfold Spec.write. simpl. by rewrite bool_decide_eq_false_2 by lia. }
  split.
  - rewrite lww_set_run, Hd1. simpl. by rewrite bool_decide_eq_true_2 by lia.
  - intros op Hop d2. destruct (lww_run_reg c' op d1 k Hwf1) as [Hwf2 Hget2].
    fold d2 in Hwf2, Hget2.
    assert (dict_get d2 k = None) as Hd2.
    { rewrite Hget2, Hd1. destruct Hop as [-> | ->]; simpl.
      - rewrite decide_True by done. unfold past, expires_at in Hpast.
        simpl in Hpast. by rewrite Hpast.
      - apply past_purgeable in Hpast. unfold purgeable, expires_at in Hpast.
        simpl in Hpast. unfold Spec.purged. simpl. by rewrite Hpast. }
    rewrite lww_set_run, Hd2. split; [done|]. simpl.
    rewrite lww_get_run, dict_alter_get, decide_True, Hd2 by done. done.
Qed.

Lemma expiry_forgets_timestamp_witness :
  let c1 := mkClock (Float.of_Z 1) 0 in
  let d1 := (lww_run c1 (OpSet "a" (VInt 2) (Some (Float.of_Z 2)) (Some 9%Z)) sample_store).2 in
  (lww_set sample_clock "a" (VInt 1) None (Some 5%Z) d1).1 = Ok false ∧
  ∀ op, op = OpGet "a" ∨ op = OpPurgeExpired →
  let d2 := (lww_run sample_clock op d1).2 in
  (lww_set sample_clock "a" (VInt 1) None (Some 5%Z) d2).1 = Ok true ∧
  (lww_get sample_clock "a" (lww_set sample_clock "a" (VInt 1) None (Some 5%Z) d2).2).1
    = Ok (VInt 1).
Proof.
  apply (expiry_forgets_timestamp (mkClock (Float.of_Z 1) 0) sample_clock sample_clock "a"
    (VInt 2) (VInt 1) (Float.of_Z 2) 9%Z 5%Z sample_store sample_store_wf).
  - intros e He. vm_compute in He. injection He as <-. simpl. lia.
  - lia.
  - reflexivity.
Defined.

(** ** Listings and reads *)

Lemma elem_of_keys c d k ks d' :
  dict_wf d → lww_keys c d = (Ok ks, d') →
  k ∈ ks ↔ ∃ e, dict_get d k = Some e ∧ Spec.listed (monotonic c) e = true.
Proof.
  intros Hwf. unfold lww_keys. unfold_M. intros [= <- <-].
  rewrite list_elem_of_fmap. split.
  - intros ([k' e] & -> & [Hl Hin]%list_elem_of_filter). exists e.
    rewrite dict_get_elem_of by done. split; [done|]. by apply Is_true_true_1.
  - intros (e & He & Hl). exists (k, e). split; [done|].
    apply list_elem_of_filter. split; [by apply Is_true_true_2|].
    by rewrite <- dict_get_elem_of.
Qed.

(** Listings agree with reads: at one reading of the clock a listed key reads
    back its stored value; and a live key that is not listed either is about to
    read as missing or sits exactly at its expiry instant (or has a NaN expiry),
    the one case where [get] still returns the value while [keys], [scan] and
    [len] leave it out and [purge_expired] removes it. *)
Theorem listing_agrees_with_get c d k ks d' :
  dict_wf d → lww_keys c d = (Ok ks, d') →
  (k ∈ ks → ∃ v exp ts, dict_get d k = Some (mkEntry (Val v) exp ts) ∧
     lww_get_versioned c k d = (Ok (Some (v, ts, false)), d)) ∧
  (∀ v exp ts, dict_get d k = Some (mkEntry (Val v) exp ts) → k ∉ ks →
     (lww_get_versioned c k d).1 = Ok None ∨
     ∃ e, exp = Some e ∧ Float.ltb (monotonic c) e = false ∧ Float.ltb e (monotonic c) = false ∧
       (lww_get_versioned c k d).1 = Ok (Some (v, ts, false))).
Proof.
  intros Hwf Hks. pose proof (elem_of_keys c d k ks d' Hwf Hks) as Hin.
  setoid_rewrite lww_get_versioned_run. split.
  - intros ([[v|] exp ts] & He & Hl)%Hin; [|done]. exists v, exp, ts. split; [done|].
    assert (past (monotonic c) exp = false) as Hp.
    { destruct exp as [x|]; [|done]. by apply Float.ltb_asym. }
    rewrite dict_alter_id; rewrite He; simpl; by rewrite Hp.
  - intros v exp ts He Hnin. rewrite He. simpl.
    destruct (past (monotonic c) exp) eqn:Hp; [by left|]. right.
    destruct exp as [x|].
    + exists x. split_and!; [done| |done|done].
      apply not_true_is_false. intros Hlt. apply Hnin, Hin. by eexists.
    + exfalso. apply Hnin, Hin. by eexists.
Qed.

Lemma listing_agrees_with_get_witness :
  let c3 := mkClock (Float.of_Z 3) 0 in
  ("c" ∈ ["a"] → ∃ v exp ts, dict_get sample_store "c" = Some (mkEntry (Val v) exp ts) ∧
     lww_get_versioned c3 "c" sample_store = (Ok (Some (v, ts, false)), sample_store)) ∧
  (∀ v exp ts, dict_get sample_store "c" = Some (mkEntry (Val v) exp ts) → "c" ∉ ["a"] →
     (lww_get_versioned c3 "c" sample_store).1 = Ok None ∨
     ∃ e, exp = Some e ∧ Float.ltb (monotonic c3) e = false ∧ Float.ltb e (monotonic c3) = false ∧
       (lww_get_versioned c3 "c" sample_store).1 = Ok (Some (v, ts, false))).
Proof.
  apply (listing_agrees_with_get (mkClock (Float.of_Z 3) 0) sample_store "c" ["a"] sample_store
    sample_store_wf). reflexivity.
Defined.

(** ** Convergence of replicas *)

(** What replication compares: the cell and its timestamp.  Expiry instants are
    local to a node (each node adds the ttl to its own monotonic clock). *)
Definition version_of (e : entry) : cell * Z := (e_cell e, e_ts e).

Definition same_versions (d1 d2 : lww_store) : Prop :=
  ∀ k, version_of <$> dict_get d1 k = version_of <$> dict_get d2 k.

#[export] Instance same_versions_equivalence : Equivalence same_versions.
Proof.
  split; [done|intros d1 d2 H k; by symmetry|intros d1 d2 d3 H1 H2 k].
  by rewrite H1, H2.
Qed.

(** The write a call carries: key, new cell, timestamp. *)
Definition op_write (ev : clock * store_op) : option (string * (cell * Z)) :=
  match ev.2 with
  | OpSet k v _ ts => Some (k, (Val v, Spec.stamp ev.1 ts))
  | OpDelete k ts => Some (k, (TOMBSTONE, Spec.stamp ev.1 ts))
  | _ => None
  end.

(** Traffic without time-to-live and without flushes. *)
Definition plain (op : store_op) : bool :=
  match op with
  | OpSet _ _ ttl _ => bool_decide (ttl = None)
  | OpFlushAll | OpFlushKeys _ | OpClear => false
  | _ => true
  end.

Definition no_expiry (o : option entry) : Prop := ∀ e, o = Some e → e_exp e = None.

(** No two different writes to one key carry the same timestamp. *)
Definition unambiguous (ws : list (string * (cell * Z))) : Prop :=
  ∀ w1 w2, w1 ∈ ws → w2 ∈ ws → w1.1 = w2.1 → w1.2.2 = w2.2.2 → w1 = w2.

Definition vwrite (new : cell * Z) (o : option (cell * Z)) : option (cell * Z) :=
  match o with
  | Some old => if bool_decide (new.2 < old.2)%Z then o else Some new
  | None => Some new
  end.

Definition vapply (k : string) (w : string * (cell * Z)) (o : option (cell * Z)) :=
  if decide (w.1 = k) then vwrite w.2 o else o.

Lemma vwrite_write new o :
  version_of <$> (Spec.write new o).2 = vwrite (version_of new) (version_of <$> o).
Proof. destruct o as [e|]; simpl; [|done]. by case_bool_decide. Qed.

Lemma plain_step c op k o :
  plain op = true → no_expiry o →
  no_expiry (reg_step c op k o) ∧
  version_of <$> reg_step c op k o =
    match op_write (c, op) with
    | Some w => vapply k w (version_of <$> o)
    | None => version_of <$> o
    end.
Proof.
  intros Hp Hexp.
  assert (∀ new, e_exp new = None → no_expiry (Spec.write new o).2) as Hw.
  { intros new Hnew e. destruct o as [e0|]; simpl; [|naive_solver].
    case_bool_decide; [|naive_solver]. intros [= <-]. by apply Hexp. }
  assert ((Spec.read (monotonic c) o).2 = o) as Hr.
  { destruct o as [[[v|] exp ts]|]; try done. simpl.
    by rewrite (Hexp _ eq_refl : exp = None). }
  unfold op_write, vapply.
  destruct op; simpl in Hp |- *; try done; try case_decide; subst; simpl;
    rewrite ?Hr; try done.
  - apply bool_decide_eq_true in Hp as ->. split; [by apply Hw|by rewrite vwrite_write].
  - split; [by apply Hw|by rewrite vwrite_write].
  - destruct o as [e|]; [|done]. unfold Spec.purged.
    rewrite (Hexp e eq_refl), andb_false_r. done.
Qed.

Lemma plain_history h k o :
  Forall (λ ev, plain ev.2 = true) h → no_expiry o →
  version_of <$> foldl (λ o ev, reg_step ev.1 ev.2 k o) o h =
    foldl (λ x w, vapply k w x) (version_of <$> o) (omap op_write h).
Proof.
  intros Hh. revert o. induction Hh as [|[c op] h Hev Hh IH]; intros o Ho; [done|].
  destruct (plain_step c op k o Hev Ho) as [Ho' Hv]. simpl.
  rewrite IH, Hv by done. by destruct (op_write (c, op)).
Qed.

Lemma vapply_comm k w1 w2 x :
  (w1.1 = w2.1 → w1.2.2 = w2.2.2 → w1 = w2) →
  vapply k w1 (vapply k w2 x) = vapply k w2 (vapply k w1 x).
Proof.
  intros Hun. unfold vapply. repeat case_decide; try done.
  destruct (decide (w1.2.2 = w2.2.2)) as [|Hne]; [by rewrite Hun by congruence|].
  destruct x as [old|]; simpl; repeat case_bool_decide; simpl;
    repeat case_bool_decide; done || lia.
Qed.

Lemma vapply_permutation k ws1 ws2 x :
  ws1 ≡ₚ ws2 → unambiguous ws1 →
  foldl (λ x w, vapply k w x) x ws1 = foldl (λ x w, vapply k w x) x ws2.
Proof.
  intros Hperm. revert x.
  induction Hperm as [|w ws1 ws2 Hperm IH|w1 w2 ws|ws1 ws2 ws3 H1 IH1 H2 IH2];
    intros x Hun; simpl; [done| | |].
  - apply IH. intros ????. apply Hun; by right.
  - rewrite vapply_comm; [done|]. intros. apply Hun; set_solver.
  - rewrite IH1 by done. apply IH2. intros ????. apply Hun; by rewrite H1.
Qed.

(** C24. Replicas converge.  Two replicas that start with the same versions and
    receive the same timestamped sets and deletes, in any two orders and
    interleaved with any reads, listings and purge sweeps, end with the same
    versions of every key, provided the traffic has no time-to-live and no two
    different writes to one key share a timestamp. *)
Theorem replicas_converge h1 h2 d1 d2 :
  dict_wf d1 → dict_wf d2 → same_versions d1 d2 →
  (∀ k, no_expiry (dict_get d1 k)) → (∀ k, no_expiry (dict_get d2 k)) →
  Forall (λ ev, plain ev.2 = true) h1 → Forall (λ ev, plain ev.2 = true) h2 →
  omap op_write h1 ≡ₚ omap op_write h2 → unambiguous (omap op_write h1) →
  same_versions (replay h1 d1) (replay h2 d2).
Proof.
  intros Hwf1 Hwf2 Heq He1 He2 Hp1 Hp2 Hperm Hun k.
  rewrite !replay_get, !plain_history by done.
  rewrite (Heq k). by apply vapply_permutation.
Qed.

Definition converge_h1 : list (clock * store_op) :=
  [(sample_clock, OpSet "a" (VInt 1) None (Some 10%Z)); (sample_clock, OpGet "a");
   (sample_clock, OpDelete "a" (Some 12%Z)); (sample_clock, OpSet "b" (VInt 2) None (Some 11%Z))].
Definition converge_h2 : list (clock * store_op) :=
  [(sample_clock, OpDelete "a" (Some 12%Z)); (sample_clock, OpSet "b" (VInt 2) None (Some 11%Z));
   (sample_clock, OpPurgeExpired); (sample_clock, OpSet "a" (VInt 1) None (Some 10%Z))].

Lemma replicas_converge_witness :
  same_versions (replay converge_h1 []) (replay converge_h2 []).
Proof.
  apply (replicas_converge converge_h1 converge_h2 [] []).
  - apply dict_wf_nil.
  - apply dict_wf_nil.
  - done.
  - done.
  - done.
  - repeat constructor.
  - repeat constructor.
  - simpl. apply (Permutation_cons_append [_; _] _).
  - intros w1 w2 H1 H2. simpl in H1, H2.
    repeat (apply elem_of_cons in H1 as [->|H1]); try (by apply elem_of_nil in H1);
    repeat (apply elem_of_cons in H2 as [->|H2]); try (by apply elem_of_nil in H2); done.
Defined.

(** Writes with equal timestamps are settled by arrival: the later arrival
    replaces the earlier one, so two replicas that receive two different values
    with the same timestamp in opposite orders disagree. *)
Theorem equal_timestamps_last_arrival_wins c1 c2 k v1 v2 ts d :
  dict_wf d → (∀ e, dict_get d k = Some e → (e_ts e ≤ ts)%Z) →
  let w v := OpSet k v None (Some ts) in
  let d12 := replay [(c1, w v1); (c2, w v2)] d in
  let d21 := replay [(c2, w v2); (c1, w v1)] d in
  version_of <$> dict_get d12 k = Some (Val v2, ts) ∧
  version_of <$> dict_get d21 k = Some (Val v1, ts) ∧
  (same_versions d12 d21 → v1 = v2).
Proof.
  intros Hwf Hold w d12 d21.
  assert (∀ ca cb va vb, version_of <$>
    dict_get (replay [(ca, w va); (cb, w vb)] d) k = Some (Val vb, ts)) as Hlast.
  { intros. rewrite replay_get by done. simpl. rewrite !decide_True by done.
    destruct (dict_get d k) as [e|]; simpl.
    - specialize (Hold e eq_refl). rewrite bool_decide_eq_false_2 by lia. simpl.
      by rewrite bool_decide_eq_false_2 by lia.
    - by rewrite bool_decide_eq_false_2 by lia. }
  split_and!; [apply Hlast..|]. intros Hsame. specialize (Hsame k).
  unfold d12, d21 in Hsame. rewrite !Hlast in Hsame. by simplify_eq.
Qed.

Lemma equal_timestamps_last_arrival_wins_witness :
  let w v := OpSet "a" v None (Some 5%Z) in
  let d12 := replay [(sample_clock, w (VInt 1)); (sample_clock, w (VInt 2))] sample_store in
  let d21 := replay [(sample_clock, w (VInt 2)); (sample_clock, w (VInt 1))] sample_store in
  version_of <$> dict_get d12 "a" = Some (Val (VInt 2), 5%Z) ∧
  version_of <$> dict_get d21 "a" = Some (Val (VInt 1), 5%Z) ∧
  (same_versions d12 d21 → VInt 1 = VInt 2).
Proof.
  apply (equal_timestamps_last_arrival_wins sample_clock sample_clock "a" (VInt 1) (VInt 2) 5%Z
    sample_store sample_store_wf).
  intros e He. vm_compute in He. injection He as <-. simpl. lia.
Defined.
