(* ===== verification/BasicStore.v ===== *)
(** * The simple store ([dlstorage/store/basic.py])

    [LocalStore]: a dictionary from keys to [(value, expires_at)], each method
    atomic under the store's lock.  It has no timestamps: [set] and [delete]
    accept and ignore the keyword arguments of the protocol. *)
From S2P Require Import Prelude PyBase PyDict Types Store.

(** [(value, expires_at)] and [self._data]. *)
Abbreviation basic_entry := (pyval * option Float.t)%type.
Abbreviation basic_store := (list (string * basic_entry)).

Definition basic_set (c : clock) (key : string) (value : pyval) (ttl : option Float.t) :
    M basic_store bool :=
  data ← get_state;
  put_state (dict_set data key (value, expires_at c ttl)) ;; mret true.

Definition basic_get (c : clock) (key : string) : M basic_store pyval :=
  data ← get_state;
  match dict_get data key with
  | None => mret VNone
  | Some (value, exp) =>
      if past (monotonic c) exp then dict_del key ;; mret VNone else mret value
  end.

(** [self._data.pop(key, None) is not None]: entries are tuples, never [None]. *)
Definition basic_delete (key : string) : M basic_store bool :=
  data ← get_state;
  put_state (dict_remove data key) ;; mret (bool_decide (is_Some (dict_get data key))).

Definition basic_exists (c : clock) (key : string) : M basic_store bool :=
  v ← basic_get c key; mret (is_not_none v).

Definition basic_keys (c : clock) : M basic_store (list string) :=
  data ← get_state;
  mret (filter (λ kv : string * basic_entry, unexpired (monotonic c) kv.2.2) data).*1.

Definition basic_scan (c : clock) (pattern : string) : M basic_store (list (string * pyval)) :=
  data ← get_state;
  mret ((λ kv : string * basic_entry, (kv.1, kv.2.1)) <$>
    filter (λ kv : string * basic_entry,
      Str.contains pattern kv.1 && unexpired (monotonic c) kv.2.2) data).

Definition basic_scan_keys (c : clock) (pattern : string) : M basic_store (list string) :=
  data ← get_state;
  mret (filter (λ kv : string * basic_entry,
      Str.contains pattern kv.1 && unexpired (monotonic c) kv.2.2) data).*1.

Definition basic_flush_all : M basic_store unit := put_state [].

Definition basic_flush_keys (pattern : string) : M basic_store nat :=
  data ← get_state;
  let to_delete := (filter (λ kv : string * basic_entry, Str.contains pattern kv.1) data).*1 in
  for_each to_delete dict_del ;; mret (length to_delete).

Definition basic_clear : M basic_store unit := put_state [].

Definition basic_purge_expired (c : clock) : M basic_store nat :=
  data ← get_state;
  let expired :=
    (filter (λ kv : string * basic_entry, purgeable (monotonic c) kv.2.2) data).*1 in
  for_each expired dict_del ;; mret (length expired).

Definition basic_len (c : clock) : M basic_store nat :=
  ks ← basic_keys c; mret (length ks).

(** [__init__], and [repr(store)]. *)
Definition basic_init : basic_store := [].

Definition basic_repr (c : clock) : M basic_store string :=
  n ← basic_len c; mret ("LocalStore(keys=" +:+ Int.to_str (Z.of_nat n) +:+ ")").

(** Every public method, by name; [get_versioned] is not one of them. *)
Definition basic_run (c : clock) (op : store_op) : M basic_store store_res :=
  match op with
  | OpSet k v ttl _ => r ← basic_set c k v ttl; mret (RBool r)
  | OpGet k => r ← basic_get c k; mret (RVal r)
  | OpGetVersioned _ => raise AttributeError
  | OpDelete k _ => r ← basic_delete k; mret (RBool r)
  | OpExists k => r ← basic_exists c k; mret (RBool r)
  | OpKeys => r ← basic_keys c; mret (RKeys r)
  | OpScan p => r ← basic_scan c p; mret (RItems r)
  | OpScanKeys p => r ← basic_scan_keys c p; mret (RKeys r)
  | OpFlushAll => basic_flush_all ;; mret RNone
  | OpFlushKeys p => r ← basic_flush_keys p; mret (RCount r)
  | OpClear => basic_clear ;; mret RNone
  | OpPurgeExpired => r ← basic_purge_expired c; mret (RCount r)
  | OpLen => r ← basic_len c; mret (RCount r)
  end.

(** ** The abstract specification: a map with expiry *)
Module BasicSpec.
Definition read (now : Float.t) (o : option basic_entry) : pyval * option basic_entry :=
  match o with
  | None => (VNone, None)
  | Some (v, exp) => if past now exp then (VNone, None) else (v, o)
  end.

Definition step (c : clock) (op : store_op) (m : gmap string basic_entry) :
    spec_res * gmap string basic_entry :=
  let now := monotonic c in
  let live kv := unexpired now kv.2.2 in
  match op with
  | OpSet k v ttl _ => (SRes (RBool true), <[k := (v, expires_at c ttl)]> m)
  | OpDelete k _ => (SRes (RBool (bool_decide (k ∈ dom m))), delete k m)
  | OpGet k => (SRes (RVal (read now (m !! k)).1), partial_alter (λ o, (read now o).2) k m)
  | OpExists k =>
      (SRes (RBool (is_not_none (read now (m !! k)).1)),
       partial_alter (λ o, (read now o).2) k m)
  | OpKeys => (SKeys (dom (filter (λ kv : string * basic_entry, live kv) m)), m)
  | OpScan p =>
      (SItems (fst <$> filter (λ kv : string * basic_entry, Str.contains p kv.1 && live kv) m), m)
  | OpScanKeys p =>
      (SKeys (dom (filter (λ kv : string * basic_entry, Str.contains p kv.1 && live kv) m)), m)
  | OpGetVersioned _ => (SRes RNone, m)
  | OpFlushAll | OpClear => (SRes RNone, ∅)
  | OpFlushKeys p =>
      (SRes (RCount (size (filter (λ kv : string * basic_entry, Str.contains p kv.1) m))),
       filter (λ kv : string * basic_entry, ¬ Str.contains p kv.1) m)
  | OpPurgeExpired =>
      (SRes (RCount (size (filter (λ kv : string * basic_entry, purgeable now kv.2.2) m))),
       filter (λ kv : string * basic_entry, ¬ purgeable now kv.2.2) m)
  | OpLen => (SRes (RCount (size (filter (λ kv : string * basic_entry, live kv) m))), m)
  end.
End BasicSpec.

Section runs.
Implicit Types (d : basic_store) (c : clock) (k p : string).

Lemma basic_get_run c k d :
  basic_get c k d =
    (Ok (BasicSpec.read (monotonic c) (dict_get d k)).1,
     dict_alter (λ o, (BasicSpec.read (monotonic c) o).2) d k).
Proof.
  unfold basic_get. unfold_M.
  destruct (dict_get d k) as [[v exp]|] eqn:Hk; simpl.
  - destruct (past (monotonic c) exp) eqn:Hp.
    + rewrite (dict_del_alter _ _ _ Hk). unfold dict_alter. rewrite Hk. simpl. by rewrite Hp.
    + rewrite dict_alter_id; [done|]. rewrite Hk. simpl. by rewrite Hp.
  - rewrite dict_alter_id; [done|by rewrite Hk].
Qed.

Lemma basic_purge_expired_run c d :
  dict_wf d →
  basic_purge_expired c d =
    (Ok (length (filter (λ kv : string * basic_entry, purgeable (monotonic c) kv.2.2) d).*1),
     filter (λ kv : string * basic_entry, ¬ purgeable (monotonic c) kv.2.2) d).
Proof.
  intros Hwf. unfold basic_purge_expired. unfold_M. cbn.
  by rewrite (for_each_del_filter (λ kv : string * basic_entry, purgeable (monotonic c) kv.2.2)).
Qed.

Lemma basic_flush_keys_run p d :
  dict_wf d →
  basic_flush_keys p d =
    (Ok (length (filter (λ kv : string * basic_entry, Str.contains p kv.1) d).*1),
     filter (λ kv : string * basic_entry, ¬ Str.contains p kv.1) d).
Proof.
  intros Hwf. unfold basic_flush_keys. unfold_M. cbn.
  by rewrite (for_each_del_filter (λ kv : string * basic_entry, Str.contains p kv.1)).
Qed.

Lemma basic_scan_items (P : string * basic_entry → bool) d :
  dict_wf d →
  list_to_map ((λ kv : string * basic_entry, (kv.1, kv.2.1)) <$> filter P d)
    = (fst <$> filter P (to_map d) : gmap string pyval).
Proof.
  intros Hwf. rewrite <- filter_lookup by done. unfold to_map.
  by rewrite <- list_to_map_fmap.
Qed.
End runs.

(** C37. [LocalStore] refines a finite map with expiry: on a well-formed
    dictionary every public method returns normally, keeps the dictionary well
    formed, and returns the result and reaches the state of the abstract step. *)
Theorem basic_refines_spec c op d :
  dict_wf d → (∀ k, op ≠ OpGetVersioned k) →
  ∃ r d', basic_run c op d = (Ok r, d') ∧ dict_wf d' ∧
    res_agree r (BasicSpec.step c op (to_map d)).1 ∧
    to_map d' = (BasicSpec.step c op (to_map d)).2.
Proof.
  intros Hwf Hnot.
  destruct op as [k v ttl ts|k|k|k ts|k| |p|p| |p| | |];
    unfold basic_run, basic_exists; unfold_M; rewrite ?basic_get_run;
    [| |by destruct (Hnot k)|..]; do 2 eexists.
  - split_and!; [done|by apply dict_set_wf|done|by apply dict_set_lookup].
  - split_and!; [done|by apply dict_alter_wf| |by apply dict_alter_lookup].
    simpl. by rewrite dict_get_lookup.
  - split_and!; [done|by apply dict_remove_wf| |by apply dict_remove_lookup].
    simpl. do 2 f_equal. apply bool_decide_ext. by rewrite elem_of_dom, dict_get_lookup.
  - split_and!; [done|by apply dict_alter_wf| |by apply dict_alter_lookup].
    simpl. by rewrite dict_get_lookup.
  - split_and!; [done|done| |done]. by apply filter_keys.
  - split_and!; [done|done| |done]. split; [|by apply basic_scan_items].
    rewrite <- list_fmap_compose. by apply NoDup_filter_fst.
  - split_and!; [done|done| |done]. by apply filter_keys.
  - by split_and!; [done|apply dict_wf_nil| |].
  - rewrite basic_flush_keys_run by done.
    split_and!; [done|by apply filter_wf| |by apply filter_lookup].
    simpl. by rewrite filter_count.
  - by split_and!; [done|apply dict_wf_nil| |].
  - rewrite basic_purge_expired_run by done.
    split_and!; [done|by apply filter_wf| |by apply filter_lookup].
    simpl. by rewrite filter_count.
  - split_and!; [done|done| |done]. simpl. by rewrite <- filter_count.
Qed.

Definition basic_sample : basic_store :=
  [("a", (VInt 1, None)); ("b", (VStr "x", Some (Float.of_Z 3))); ("ab", (VNone, None))].

Lemma basic_sample_wf : dict_wf basic_sample.
Proof. unfold dict_wf. simpl. repeat (apply NoDup_cons; split; [set_solver|]). constructor. Qed.

Lemma basic_refines_spec_witness :
  let c := mkClock (Float.of_Z 4) 0 in
  ∃ r d', basic_run c (OpScan "a") basic_sample = (Ok r, d') ∧ dict_wf d' ∧
    res_agree r (BasicSpec.step c (OpScan "a") (to_map basic_sample)).1 ∧
    to_map d' = (BasicSpec.step c (OpScan "a") (to_map basic_sample)).2.
Proof.
  apply (basic_refines_spec (mkClock (Float.of_Z 4) 0) (OpScan "a") basic_sample basic_sample_wf).
  done.
Defined.

(** The sweep is complete: right after [purge_expired], at the same reading of
    the clock, every key left in the dictionary is listed, so [len] counts the
    whole dictionary; the count returned is the number of entries dropped.  Only
    a NaN expiry escapes the sweep and the listings alike. *)
Theorem basic_purge_complete c d :
  dict_wf d → Float.is_nan (monotonic c) = false →
  (∀ k v exp, dict_get d k = Some (v, exp) → exp_is_nan exp = false) →
  ∃ n d', basic_purge_expired c d = (Ok n, d') ∧
    basic_keys c d' = (Ok d'.*1, d') ∧ basic_len c d' = (Ok (length d'), d') ∧
    n + length d' = length d ∧
    (∀ k v exp, dict_get d k = Some (v, exp) →
       dict_get d' k = if unexpired (monotonic c) exp then Some (v, exp) else None).
Proof.
  intros Hwf Hnow Hexp. rewrite basic_purge_expired_run by done.
  set (P := λ kv : string * basic_entry, purgeable (monotonic c) kv.2.2).
  do 2 eexists. split; [done|].
  assert (∀ kv, kv ∈ d → purgeable (monotonic c) kv.2.2 = negb (unexpired (monotonic c) kv.2.2))
    as Hiff.
  { intros [k [v exp]] Hin. apply purgeable_unexpired; [done|].
    eapply Hexp. by apply dict_get_elem_of. }
  assert (basic_keys c (filter (λ kv, ¬ P kv) d) =
    (Ok (filter (λ kv, ¬ P kv) d).*1, filter (λ kv, ¬ P kv) d)) as Hkeys.
  { unfold basic_keys. unfold_M. cbn. do 3 f_equal.
    apply filter_all. intros kv [Hn Hin]%list_elem_of_filter. unfold P in Hn.
    rewrite (Hiff kv Hin) in Hn. by destruct (unexpired _ _). }
  split_and!.
  - exact Hkeys.
  - unfold P in Hkeys. unfold basic_len. unfold_M. rewrite Hkeys. by rewrite length_fmap.
  - rewrite length_fmap. apply (length_filter_split (λ kv : string * basic_entry, P kv)).
  - intros k v exp Hk. apply option_eq. intros [v' exp'].
    rewrite dict_get_elem_of by (by apply filter_wf). rewrite list_elem_of_filter.
    rewrite <- dict_get_elem_of, Hk by done.
    apply dict_get_elem_of in Hk; [|done]. apply Hiff in Hk. unfold P. simpl in *.
    destruct (unexpired (monotonic c) exp) eqn:Hu; simpl in Hk; split.
    + by intros [? ?].
    + intros [= <- <-]. rewrite Hk. by split; [intros []|].
    + intros [Hn [= <- <-]]. destruct Hn. by rewrite Hk.
    + done.
Qed.

Lemma basic_purge_complete_witness :
  let c := mkClock (Float.of_Z 4) 0 in
  ∃ n d', basic_purge_expired c basic_sample = (Ok n, d') ∧
    basic_keys c d' = (Ok d'.*1, d') ∧ basic_len c d' = (Ok (length d'), d') ∧
    n + length d' = length basic_sample ∧
    (∀ k v exp, dict_get basic_sample k = Some (v, exp) →
       dict_get d' k = if unexpired (monotonic c) exp then Some (v, exp) else None).
Proof.
  apply (basic_purge_complete (mkClock (Float.of_Z 4) 0) basic_sample basic_sample_wf).
  - reflexivity.
  - intros k v exp Hk. simpl in Hk.
    repeat (case_decide; [by injection Hk as <- <-|]). done.
Defined.
