(* ===== verification/Ring.v ===== *)
(** * The rendezvous ring ([dlstorage/ring])

    [RendezvousRing] keeps a set of nodes and ranks them per key by the SHA-256
    of [address:key].  The set is a duplicate-free list, whose order stands for
    the unspecified iteration order of a Python set; the results are proved not
    to depend on it. *)
From S2P Require Import Prelude PyBase Bytes Types.

(** [self._nodes]. *)
Abbreviation ring := (list NodeInfo).

(** ** The parts of Python the ring uses *)
Section python.
Context {A : Type} (f : A → Z).

(** [max(xs, key=f)] on a non-empty iterable: the first maximal element. *)
Definition max_by (x : A) (xs : list A) : A :=
  foldl (λ best y, if bool_decide (f best < f y)%Z then y else best) x xs.

(** [sorted(xs, key=f, reverse=True)]: descending and stable. *)
Fixpoint insert_desc (x : A) (l : list A) : list A :=
  match l with
  | [] => [x]
  | y :: l' => if bool_decide (f y ≤ f x)%Z then x :: l else y :: insert_desc x l'
  end.
Definition sorted_desc (xs : list A) : list A := foldr insert_desc [] xs.

(** [xs[:n]]: a negative bound counts from the end. *)
Definition slice_to (n : Z) (xs : list A) : list A :=
  take (Z.to_nat (if bool_decide (0 ≤ n)%Z then n else Z.of_nat (length xs) + n)) xs.

Definition desc (x y : A) : Prop := (f y ≤ f x)%Z.

#[local] Instance desc_trans : Transitive desc.
Proof. unfold desc. intros x y z. lia. Qed.

Lemma insert_desc_perm x l : insert_desc x l ≡ₚ x :: l.
Proof.
  induction l as [|y l IH]; [done|]. simpl. case_bool_decide; [done|].
  rewrite IH. by constructor.
Qed.

Lemma sorted_desc_perm xs : sorted_desc xs ≡ₚ xs.
Proof. induction xs as [|x xs IH]; [done|]. simpl. by rewrite insert_desc_perm, IH. Qed.

Lemma insert_desc_sorted x l : StronglySorted desc l → StronglySorted desc (insert_desc x l).
Proof.
  induction 1 as [|y l Hl IH Hy]; simpl; [by repeat constructor|].
  case_bool_decide as Hyx.
  - constructor; [by constructor|]. constructor; [done|].
    eapply Forall_impl; [exact Hy|]. intros z ?. by transitivity y.
  - constructor; [done|]. rewrite insert_desc_perm. constructor; [|done].
    unfold desc. lia.
Qed.

Lemma sorted_desc_sorted xs : StronglySorted desc (sorted_desc xs).
Proof. induction xs; simpl; [constructor|by apply insert_desc_sorted]. Qed.

(** Without ties the ranking depends on the set of elements only. *)
Lemma sorted_desc_unique l1 l2 :
  (∀ x y, x ∈ l1 → y ∈ l1 → f x = f y → x = y) →
  l1 ≡ₚ l2 → sorted_desc l1 = sorted_desc l2.
Proof.
  intros Hinj Hperm.
  apply (StronglySorted_unique_strong desc); try apply sorted_desc_sorted.
  - intros x1 x2. rewrite !sorted_desc_perm, <- Hperm. unfold desc.
    intros ????. apply Hinj; [done..|lia].
  - by rewrite !sorted_desc_perm.
Qed.

Lemma max_by_spec x xs :
  max_by x xs ∈ x :: xs ∧ ∀ y, y ∈ x :: xs → (f y ≤ f (max_by x xs))%Z.
Proof.
  unfold max_by. revert x. induction xs as [|y xs IH]; intros x; simpl.
  { split; [set_solver|]. intros y Hy%list_elem_of_singleton. subst. lia. }
  destruct (IH (if bool_decide (f x < f y)%Z then y else x)) as [Hin Hmax].
  split; [case_bool_decide; set_solver|].
  pose proof (Hmax _ (list_elem_of_here _ _)) as Hhd.
  intros z [->|[->|Hz]%elem_of_cons]%elem_of_cons; [| |apply Hmax; set_solver];
    etransitivity; try exact Hhd; case_bool_decide; lia.
Qed.
End python.

(** ** The ring *)

(** [_score]: the digest of [address:key] as a big-endian integer. *)
Definition _score (node : NodeInfo) (key : string) : Z :=
  from_bytes (Sha256.digest (encode_str (address node +:+ (":" +:+ key)))).

Definition ring_init : ring := [].

(** [self._nodes.add(node)]. *)
Definition ring_add (node : NodeInfo) (r : ring) : ring :=
  if decide (node ∈ r) then r else r ++ [node].

(** [self._nodes.discard(node)]. *)
Definition ring_remove (node : NodeInfo) (r : ring) : ring := filter (λ n, n ≠ node) r.

Definition ring_get_node (r : ring) (key : string) : option NodeInfo :=
  match r with
  | [] => None
  | x :: xs => Some (max_by (λ n, _score n key) x xs)
  end.

Definition ring_get_nodes (r : ring) (key : string) (n : Z) : list NodeInfo :=
  match r with
  | [] => []
  | _ => slice_to n (sorted_desc (λ node, _score node key) r)
  end.

Definition ring_nodes (r : ring) : list NodeInfo := r.
Definition ring_len (r : ring) : nat := length r.

Definition ring_repr (r : ring) : string :=
  "RendezvousRing(nodes=" +:+ Int.to_str (Z.of_nat (ring_len r)) +:+ ")".

(** A ring holds a node once. *)
Definition ring_wf (r : ring) : Prop := NoDup r.

(** No two members have the same score for the key. *)
Definition no_ties (key : string) (r : ring) : Prop :=
  ∀ a b, a ∈ r → b ∈ r → _score a key = _score b key → a = b.

#[export] Instance no_ties_proper key : Proper ((≡ₚ) ==> iff) (no_ties key).
Proof. intros r1 r2 Heq. unfold no_ties. by setoid_rewrite Heq. Qed.

Lemma score_bound node key : (0 ≤ _score node key < 2 ^ 256)%Z.
Proof.
  unfold _score. set (bs := Sha256.digest _). pose proof (from_bytes_bound bs) as H.
  by rewrite (Sha256.length_digest _ : length bs = 32) in H.
Qed.

Lemma elem_of_ring_add x node r : x ∈ ring_add node r ↔ x = node ∨ x ∈ r.
Proof.
  unfold ring_add. case_decide; [naive_solver|].
  rewrite elem_of_app, list_elem_of_singleton. tauto.
Qed.
Lemma elem_of_ring_remove x node r : x ∈ ring_remove node r ↔ x ≠ node ∧ x ∈ r.
Proof. unfold ring_remove. by rewrite list_elem_of_filter. Qed.

Lemma ring_add_wf node r : ring_wf r → ring_wf (ring_add node r).
Proof.
  unfold ring_wf, ring_add. case_decide; [done|]. intros.
  apply NoDup_app. split_and!; [done|set_solver|apply NoDup_singleton].
Qed.
Lemma ring_remove_wf node r : ring_wf r → ring_wf (ring_remove node r).
Proof. apply NoDup_filter. Qed.

#[export] Hint Resolve ring_add_wf ring_remove_wf NoDup_nil_2 : dls.

(** Rings with the same members, in any iteration order, are interchangeable. *)
#[export] Instance ring_add_proper node : Proper ((≡ₚ) ==> (≡ₚ)) (ring_add node).
Proof.
  intros r1 r2 Heq. unfold ring_add.
  rewrite (decide_ext (node ∈ r1) (node ∈ r2)) by (by rewrite Heq).
  case_decide; by rewrite Heq.
Qed.
#[export] Instance ring_remove_proper node : Proper ((≡ₚ) ==> (≡ₚ)) (ring_remove node).
Proof. intros r1 r2 Heq. unfold ring_remove. by rewrite Heq. Qed.

Lemma ring_get_nodes_eq r key n :
  ring_get_nodes r key n = slice_to n (sorted_desc (λ node, _score node key) r).
Proof. destruct r; [|done]. unfold slice_to. simpl. by rewrite take_nil. Qed.

(** ** The interface of a ring ([ring/interface.py]) *)
Class Ring (R : Type) := {
  r_add : NodeInfo → R → R;
  r_remove : NodeInfo → R → R;
  r_get_node : R → string → option NodeInfo;
  r_get_nodes : R → string → Z → list NodeInfo;
  r_nodes : R → list NodeInfo;
  r_len : R → nat;
}.

(** What the nodes rely on: a ring is a set of members; [get_nodes] picks
    distinct members and depends on the membership only. *)
Class RingLaws (R : Type) `{Ring R} := {
  r_wf : R → Prop;
  r_untied : string → R → Prop;
  r_nodes_nodup r : r_wf r → NoDup (r_nodes r);
  r_len_nodes r : r_len r = length (r_nodes r);
  r_add_wf n r : r_wf r → r_wf (r_add n r);
  r_remove_wf n r : r_wf r → r_wf (r_remove n r);
  r_add_nodes x n r : x ∈ r_nodes (r_add n r) ↔ x = n ∨ x ∈ r_nodes r;
  r_remove_nodes x n r : x ∈ r_nodes (r_remove n r) ↔ x ≠ n ∧ x ∈ r_nodes r;
  r_get_nodes_sub r k n x : x ∈ r_get_nodes r k n → x ∈ r_nodes r;
  r_get_nodes_nodup r k n : r_wf r → NoDup (r_get_nodes r k n);
  r_get_nodes_length r k n :
    (0 ≤ n)%Z → length (r_get_nodes r k n) = Z.to_nat n `min` length (r_nodes r);
  r_get_nodes_agree r1 r2 k n :
    r_nodes r1 ≡ₚ r_nodes r2 → r_untied k r1 → r_get_nodes r1 k n = r_get_nodes r2 k n;
}.

(** ** Lemmas on slices of rankings *)
Section slices.
Context {A : Type} `{EqDecision A}.
Implicit Types (x y : A) (l : list A).

Lemma slice_to_sub n l x : x ∈ slice_to n l → x ∈ l.
Proof. unfold slice_to. intros Hin. eapply elem_of_take in Hin as (i & Hi & _). by eapply list_elem_of_lookup_2. Qed.

Lemma slice_to_pos n l : (0 ≤ n)%Z → slice_to n l = take (Z.to_nat n) l.
Proof. intros. unfold slice_to. by rewrite bool_decide_eq_true_2. Qed.

Lemma take_filter_ne n x l :
  x ∉ take n l → take n (filter (λ y, y ≠ x) l) = take n l.
Proof.
  intros Hnin. rewrite <- (take_drop n l) at 1. rewrite filter_app.
  rewrite (filter_all _ (take n l)) by (intros y Hy ->; done).
  destruct (decide (n ≤ length l)).
  - rewrite take_app_length'; [done|]. rewrite length_take. lia.
  - by rewrite drop_ge, filter_nil, app_nil_r, take_take, Nat.min_id by lia.
Qed.

Lemma take_filter_ne_mono n x y l :
  y ∈ take n l → y ≠ x → y ∈ take n (filter (λ y, y ≠ x) l).
Proof.
  revert n. induction l as [|z l IH]; intros [|n]; simpl; [set_solver..|].
  intros [->|Hy]%elem_of_cons Hne.
  - rewrite filter_cons_True by done. simpl. set_solver.
  - rewrite filter_cons. case_decide; simpl; [set_solver|].
    specialize (IH n Hy Hne). eapply elem_of_take in IH as (i & Hi & Hlt).
    apply elem_of_take. exists i. split; [done|lia].
Qed.

Lemma filter_sorted_desc (f : A → Z) (P : A → Prop) `{∀ x, Decision (P x)} l :
  (∀ x y, x ∈ l → y ∈ l → f x = f y → x = y) →
  sorted_desc f (filter P l) = filter P (sorted_desc f l).
Proof.
  intros Hinj. apply (StronglySorted_unique_strong (desc f)).
  - intros x1 x2. rewrite sorted_desc_perm, !list_elem_of_filter, sorted_desc_perm.
    unfold desc. intros [_ ?] [_ ?] ??. apply Hinj; [done..|lia].
  - apply sorted_desc_sorted.
  - pose proof (sorted_desc_sorted f l) as Hs.
    induction Hs as [|x l' Hs IH Hx]; [constructor|].
    rewrite filter_cons. case_decide; [|done]. constructor; [done|].
    rewrite Forall_forall in Hx |- *. intros y [_ Hy]%list_elem_of_filter. by apply Hx.
  - by rewrite !sorted_desc_perm.
Qed.

Lemma max_by_cons (f : A → Z) x y ys :
  max_by f x (y :: ys) =
    if bool_decide (f x < f (max_by f y ys))%Z then max_by f y ys else x.
Proof.
  revert x y. induction ys as [|z ys IH]; intros x y.
  - unfold max_by. simpl. by repeat case_bool_decide.
  - change (max_by f x (y :: z :: ys)) with
      (max_by f (if bool_decide (f x < f y)%Z then y else x) (z :: ys)).
    rewrite !IH. repeat case_bool_decide; try done; lia.
Qed.

(** [max] and the head of the stable descending sort pick the same element. *)
Lemma max_by_head (f : A → Z) x xs : head (sorted_desc f (x :: xs)) = Some (max_by f x xs).
Proof.
  revert x. induction xs as [|y ys IH]; intros x; [done|].
  rewrite max_by_cons. specialize (IH y). cbn [sorted_desc foldr] in *.
  fold (sorted_desc f ys) in *.
  destruct (insert_desc f y (sorted_desc f ys)) as [|h t]; [done|].
  simpl in IH. simplify_eq. simpl.
  repeat case_bool_decide; done || lia.
Qed.
End slices.

#[export] Instance rendezvous_ring : Ring ring := {
  r_add := ring_add; r_remove := ring_remove; r_get_node := ring_get_node;
  r_get_nodes := ring_get_nodes; r_nodes := ring_nodes; r_len := ring_len;
}.

Lemma ring_get_nodes_sub r key n x : x ∈ ring_get_nodes r key n → x ∈ r.
Proof. rewrite ring_get_nodes_eq. intros Hin%slice_to_sub. by rewrite sorted_desc_perm in Hin. Qed.

(** How many nodes are chosen depends on the number of members only. *)
Lemma ring_get_nodes_size r1 r2 key n :
  length r1 = length r2 → length (ring_get_nodes r1 key n) = length (ring_get_nodes r2 key n).
Proof.
  intros Hlen. rewrite !ring_get_nodes_eq. unfold slice_to. rewrite !length_take.
  by rewrite !(Permutation_length (sorted_desc_perm _ _)), Hlen.
Qed.

Lemma ring_get_nodes_nodup r key n : ring_wf r → NoDup (ring_get_nodes r key n).
Proof.
  rewrite ring_get_nodes_eq. intros Hwf.
  eapply sublist_NoDup; [|apply sublist_take]. by rewrite sorted_desc_perm.
Qed.

Lemma ring_get_nodes_length r key n :
  (0 ≤ n)%Z → length (ring_get_nodes r key n) = Z.to_nat n `min` length r.
Proof.
  intros. rewrite ring_get_nodes_eq, slice_to_pos, length_take by done.
  by rewrite sorted_desc_perm.
Qed.

Lemma ring_get_nodes_agree r1 r2 key n :
  r1 ≡ₚ r2 → no_ties key r1 → ring_get_nodes r1 key n = ring_get_nodes r2 key n.
Proof.
  intros Hperm Hnt. rewrite !ring_get_nodes_eq.
  by rewrite (sorted_desc_unique _ r1 r2).
Qed.

#[export] Instance rendezvous_ring_laws : RingLaws ring := {
  r_wf := ring_wf;
  r_untied := no_ties;
  r_nodes_nodup := λ r H, H;
  r_len_nodes := λ r, eq_refl;
  r_add_wf := ring_add_wf;
  r_remove_wf := ring_remove_wf;
  r_add_nodes := elem_of_ring_add;
  r_remove_nodes := elem_of_ring_remove;
  r_get_nodes_sub := ring_get_nodes_sub;
  r_get_nodes_nodup := ring_get_nodes_nodup;
  r_get_nodes_length := ring_get_nodes_length;
  r_get_nodes_agree := ring_get_nodes_agree;
}.

(** ** Properties *)

(** [get_nodes] is the top-[n] of the ranking: it returns min(n, size)
    distinct members in descending order of score, every member chosen scores at
    least as high as every member left out, and [get_node] is its first element,
    ties included. *)
Theorem ring_top_n r key n :
  ring_wf r → (0 ≤ n)%Z →
  let chosen := ring_get_nodes r key n in
  NoDup chosen ∧ length chosen = Z.to_nat n `min` length r ∧
  StronglySorted (λ a b, _score b key ≤ _score a key)%Z chosen ∧
  (∀ a b, a ∈ chosen → b ∈ r → b ∉ chosen → (_score b key ≤ _score a key)%Z) ∧
  (1 ≤ n → ring_get_node r key = head chosen)%Z.
Proof.
  intros Hwf Hn chosen.
  set (f := λ node, _score node key).
  pose proof (sorted_desc_sorted f r) as Hs.
  assert (chosen = take (Z.to_nat n) (sorted_desc f r)) as Hc.
  { unfold chosen. by rewrite ring_get_nodes_eq, slice_to_pos. }
  rewrite <- (take_drop (Z.to_nat n) (sorted_desc f r)), <- Hc in Hs.
  apply StronglySorted_app in Hs as (Hcross & Hs & _).
  split_and!; [by apply ring_get_nodes_nodup|by apply ring_get_nodes_length|done| |].
  - intros a b Ha Hb Hnb. apply Hcross; [done|].
    rewrite <- (sorted_desc_perm f r), <- (take_drop (Z.to_nat n) (sorted_desc f r)), <- Hc in Hb.
    by apply elem_of_app in Hb as [|].
  - intros Hn1. rewrite Hc. destruct r as [|x xs].
    + simpl. by rewrite take_nil.
    + simpl ring_get_node. rewrite <- (max_by_head f). fold f.
      destruct (Z.to_nat n) eqn:?; [lia|]. by destruct (sorted_desc f (x :: xs)).
Qed.

(** C25. Placement depends on the membership only: two rings with the same members,
    whatever the order in which they joined, choose the same replicas in the same
    order, and the same primary, for every key without a score tie. *)
Theorem ring_agreement r1 r2 key n :
  r1 ≡ₚ r2 → no_ties key r1 →
  ring_get_nodes r1 key n = ring_get_nodes r2 key n ∧ ring_get_node r1 key = ring_get_node r2 key.
Proof.
  intros Hperm Hnt. split; [by apply ring_get_nodes_agree|].
  set (f := λ node, _score node key).
  assert (∀ r, ring_get_node r key = head (sorted_desc f r)) as Hhd.
  { intros [|x xs]; [done|]. by rewrite max_by_head. }
  by rewrite !Hhd, (sorted_desc_unique f r1 r2).
Qed.

(** C26. Minimal remapping.  When a node leaves, the replicas of every key it did
    not hold are unchanged, and the surviving replicas of a key it held stay
    replicas; when a node joins, a key's new replicas are old ones or the joiner. *)
Theorem ring_minimal_remapping r x key n :
  (0 ≤ n)%Z → no_ties key (ring_add x r) →
  (x ∉ ring_get_nodes r key n →
     ring_get_nodes (ring_remove x r) key n = ring_get_nodes r key n) ∧
  (∀ y, y ∈ ring_get_nodes r key n → y ≠ x → y ∈ ring_get_nodes (ring_remove x r) key n) ∧
  (∀ y, y ∈ ring_get_nodes (ring_add x r) key n → y = x ∨ y ∈ ring_get_nodes r key n).
Proof.
  intros Hn Hnt.
  assert (no_ties key r) as Hnt'.
  { intros a b Ha Hb. apply Hnt; apply elem_of_ring_add; by right. }
  assert (∀ r', no_ties key r' → ring_get_nodes (ring_remove x r') key n =
    take (Z.to_nat n) (filter (λ y, y ≠ x) (sorted_desc (λ node, _score node key) r'))) as Hrm.
  { intros r' Hr'. rewrite ring_get_nodes_eq, slice_to_pos by done. unfold ring_remove.
    by rewrite filter_sorted_desc. }
  split_and!.
  - rewrite Hrm by done. rewrite ring_get_nodes_eq, slice_to_pos by done. apply take_filter_ne.
  - intros y. rewrite Hrm by done. rewrite ring_get_nodes_eq, slice_to_pos by done.
    apply take_filter_ne_mono.
  - intros y Hy. destruct (decide (y = x)) as [->|Hne]; [by left|right].
    destruct (decide (x ∈ r)) as [Hin|Hnin].
    { unfold ring_add in Hy. by rewrite decide_True in Hy. }
    assert (ring_remove x (ring_add x r) = r) as Heq.
    { unfold ring_remove, ring_add. rewrite decide_False by done.
      rewrite filter_app, filter_all by (intros ? ? ->; done).
      rewrite filter_cons_False by (intros []; done). by rewrite filter_nil, app_nil_r. }
    rewrite <- Heq, Hrm by done. apply take_filter_ne_mono; [|done].
    by rewrite ring_get_nodes_eq, slice_to_pos in Hy.
Qed.

(** ** Concrete rings *)

Lemma no_ties_nodup key r : NoDup ((λ n, _score n key) <$> r) → no_ties key r.
Proof.
  intros Hnd a b [i Hi]%list_elem_of_lookup [j Hj]%list_elem_of_lookup Heq.
  assert (i = j) as ->; [|by simplify_eq].
  eapply (NoDup_lookup _ _ _ (_score a key)); [exact Hnd| |];
    rewrite list_lookup_fmap; [by rewrite Hi|by rewrite Hj, Heq].
Qed.

Definition node1 : NodeInfo := mkNodeInfo "127.0.0.1" 7001.
Definition node2 : NodeInfo := mkNodeInfo "127.0.0.1" 7002.
Definition node3 : NodeInfo := mkNodeInfo "127.0.0.1" 7003.
Definition sample_ring : ring := [node1; node2; node3].

Lemma sample_ring_wf : ring_wf sample_ring.
Proof. apply (bool_decide_eq_true_1 (NoDup sample_ring)). vm_compute. reflexivity. Qed.

Lemma sample_ring_no_ties : no_ties "key1" sample_ring.
Proof.
  apply no_ties_nodup. apply (bool_decide_eq_true_1 (NoDup _)). vm_compute. reflexivity.
Qed.

Lemma ring_top_n_witness :
  let chosen := ring_get_nodes sample_ring "key1" 2 in
  NoDup chosen ∧ length chosen = 2 `min` 3 ∧
  StronglySorted (λ a b, _score b "key1" ≤ _score a "key1")%Z chosen ∧
  (∀ a b, a ∈ chosen → b ∈ sample_ring → b ∉ chosen → (_score b "key1" ≤ _score a "key1")%Z) ∧
  (1 ≤ 2 → ring_get_node sample_ring "key1" = head chosen)%Z.
Proof. apply (ring_top_n sample_ring "key1" 2 sample_ring_wf). lia. Defined.

Lemma ring_agreement_witness :
  ring_get_nodes sample_ring "key1" 2 = ring_get_nodes [node3; node1; node2] "key1" 2 ∧
  ring_get_node sample_ring "key1" = ring_get_node [node3; node1; node2] "key1".
Proof.
  apply (ring_agreement sample_ring [node3; node1; node2] "key1" 2).
  - apply Permutation_sym, (Permutation_cons_append [_; _]).
  - apply sample_ring_no_ties.
Defined.

Lemma ring_minimal_remapping_witness :
  (node3 ∉ ring_get_nodes sample_ring "key1" 2 →
     ring_get_nodes (ring_remove node3 sample_ring) "key1" 2 = ring_get_nodes sample_ring "key1" 2) ∧
  (∀ y, y ∈ ring_get_nodes sample_ring "key1" 2 → y ≠ node3 →
     y ∈ ring_get_nodes (ring_remove node3 sample_ring) "key1" 2) ∧
  (∀ y, y ∈ ring_get_nodes (ring_add node3 sample_ring) "key1" 2 →
     y = node3 ∨ y ∈ ring_get_nodes sample_ring "key1" 2).
Proof.
  apply (ring_minimal_remapping sample_ring node3 "key1" 2); [lia|].
  apply sample_ring_no_ties.
Defined.
