(* ===== verification/Dispatcher.v ===== *)
(** * Store requests ([dlstorage/node/dispatcher.py])

    [dispatch] serves a GET, SET or DELETE message against any store that offers
    the [VersionedStore] interface. *)
From S2P Require Import Prelude PyBase PyDict Types Store.

Section dispatch.
Context {S : Type} `{VersionedStore S}.

Definition dispatch (c : clock) (msg : Message) : M S Message :=
  match m_type msg with
  | GET =>
      key ← lift_result (payload_item p_key msg);
      entry ← vs_get_versioned c key;
      match entry with
      | None => mret (mkMessage NOT_FOUND (Some (key_ts_fields key 0)))
      | Some (value, ts, is_tomb) =>
          if is_tomb : bool
          then mret (mkMessage NOT_FOUND (Some (tombstone_fields key ts)))
          else mret (mkMessage OK (Some (versioned_fields key value ts)))
      end
  | SET =>
      key ← lift_result (payload_item p_key msg);
      value ← lift_result (payload_item p_value msg);
      ttl ← lift_result (payload_get p_ttl msg);
      ts ← lift_result (payload_get p_ts msg);
      vs_set c key value ttl ts ;;
      mret (mkMessage OK (Some (key_fields key)))
  | DELETE =>
      key ← lift_result (payload_item p_key msg);
      ts ← lift_result (payload_get p_ts msg);
      deleted ← vs_delete c key ts;
      if deleted : bool
      then mret (mkMessage OK (Some (key_fields key)))
      else mret (mkMessage NOT_FOUND (Some (key_fields key)))
  | _ =>
      mret (mkMessage ERROR
        (Some (error_fields ("unknown message type: " +:+ mt_format (m_type msg)))))
  end.
End dispatch.

(** The requests the nodes send. *)
Definition get_request (k : string) : Message := mkMessage GET (Some (key_fields k)).
Definition set_request (k : string) (v : pyval) (ttl : option Float.t) (ts : Z) : Message :=
  mkMessage SET (Some (set_fields k v ttl ts)).
Definition delete_request (k : string) (ts : Z) : Message :=
  mkMessage DELETE (Some (key_ts_fields k ts)).

(** The reply to a GET, from what the register shows. *)
Definition get_reply (k : string) (r : option versioned) : Message :=
  match r with
  | None => mkMessage NOT_FOUND (Some (key_ts_fields k 0))
  | Some (_, ts, true) => mkMessage NOT_FOUND (Some (tombstone_fields k ts))
  | Some (v, ts, false) => mkMessage OK (Some (versioned_fields k v ts))
  end.

Definition delete_reply (k : string) (lived : bool) : Message :=
  mkMessage (if lived then OK else NOT_FOUND) (Some (key_fields k)).

Section laws.
Context {S : Type} `{VersionedStoreLaws S}.
Implicit Types (s : S) (c : clock) (k : string).

(** The written register, on any key. *)
Definition written (new : entry) (k k' : string) (o : option entry) : option entry :=
  if decide (k = k') then (Spec.write new o).2 else o.

Lemma written_comm n1 n2 k1 k2 k o :
  (k1 = k2 → e_ts n1 ≠ e_ts n2 ∨ n1 = n2) →
  written n1 k1 k (written n2 k2 k o) = written n2 k2 k (written n1 k1 k o).
Proof.
  intros Hc. unfold written. repeat case_decide; try done. apply Spec.write_comm.
  apply Hc. congruence.
Qed.

Lemma dispatch_get_run c k s :
  vs_wf s → ∃ s', dispatch c (get_request k) s =
    (Ok (get_reply k (Spec.read (monotonic c) (vs_entry s k)).1), s') ∧
  vs_wf s' ∧
  ∀ k', vs_entry s' k' =
    if decide (k = k') then (Spec.read (monotonic c) (vs_entry s k)).2 else vs_entry s k'.
Proof.
  intros Hwf. destruct (vs_get_versioned_spec c k s Hwf) as (s' & Heq & Hwf' & He).
  exists s'. split; [|done]. unfold dispatch. unfold_M. simpl. rewrite Heq.
  by destruct (Spec.read _ _).1 as [[[? ?] []]|].
Qed.

Lemma dispatch_set_run c k v ttl ts s :
  vs_wf s → ∃ s', dispatch c (set_request k v ttl ts) s =
    (Ok (mkMessage OK (Some (key_fields k))), s') ∧
  vs_wf s' ∧
  ∀ k', vs_entry s' k' =
    written (mkEntry (Val v) (expires_at c ttl) ts) k k' (vs_entry s k').
Proof.
  intros Hwf. destruct (vs_set_spec c k v ttl (Some ts) s Hwf) as (s' & Heq & Hwf' & He).
  exists s'. split; [|split; [done|]].
  - unfold dispatch. unfold_M. simpl. by rewrite Heq.
  - intros k'. rewrite He. unfold written. case_decide; by subst.
Qed.

Lemma dispatch_delete_run c k ts s :
  vs_wf s → ∃ s', dispatch c (delete_request k ts) s =
    (Ok (delete_reply k (Spec.lived (vs_entry s k))), s') ∧
  vs_wf s' ∧
  ∀ k', vs_entry s' k' = written (mkEntry TOMBSTONE None ts) k k' (vs_entry s k').
Proof.
  intros Hwf. destruct (vs_delete_spec c k (Some ts) s Hwf) as (s' & Heq & Hwf' & He).
  exists s'. split; [|split; [done|]].
  - unfold dispatch. unfold_M. simpl. rewrite Heq. by destruct (Spec.lived _).
  - intros k'. rewrite He. unfold written. case_decide; by subst.
Qed.

Lemma lived_written_tombstone ts k o :
  Spec.lived (written (mkEntry TOMBSTONE None ts) k k o) =
    match o with Some e => Spec.lived o && bool_decide (ts < e_ts e)%Z | None => false end.
Proof.
  unfold written. rewrite decide_True by done. destruct o as [e|]; simpl; [|done].
  case_bool_decide; simpl; by rewrite ?andb_true_r, ?andb_false_r.
Qed.

(** A served request does what the client asked: a GET after a SET that was
    not stale returns the value with its timestamp as long as it has not
    expired, a GET after a DELETE that was not stale reports a tombstone with
    the timestamp of the delete, and a GET of a key never written reports a
    zero timestamp. *)
Theorem dispatch_serves c c' k v ttl ts s :
  vs_wf s → (∀ e, vs_entry s k = Some e → (e_ts e ≤ ts)%Z) →
  (∃ r1 s1 s2, dispatch c (set_request k v ttl ts) s = (Ok r1, s1) ∧ m_type r1 = OK ∧
     dispatch c' (get_request k) s1 = (Ok (if past (monotonic c') (expires_at c ttl)
       then mkMessage NOT_FOUND (Some (key_ts_fields k 0))
       else mkMessage OK (Some (versioned_fields k v ts))), s2)) ∧
  (∃ r1 s1 s2, dispatch c (delete_request k ts) s = (Ok r1, s1) ∧
     dispatch c' (get_request k) s1 =
       (Ok (mkMessage NOT_FOUND (Some (tombstone_fields k ts))), s2)) ∧
  (vs_entry s k = None → ∃ s1, dispatch c' (get_request k) s =
     (Ok (mkMessage NOT_FOUND (Some (key_ts_fields k 0))), s1)).
Proof.
  intros Hwf Hold.
  assert (∀ new, e_ts new = ts → written new k k (vs_entry s k) = Some new) as Hwr.
  { intros new Hts. unfold written. rewrite decide_True by done.
    destruct (vs_entry s k) as [e|]; [|done]. specialize (Hold e eq_refl). simpl.
    by rewrite bool_decide_eq_false_2 by lia. }
  split_and!.
  - destruct (dispatch_set_run c k v ttl ts s Hwf) as (s1 & H1 & Hwf1 & He1).
    destruct (dispatch_get_run c' k s1 Hwf1) as (s2 & H2 & _ & _).
    do 3 eexists. split_and!; [exact H1|done|]. rewrite H2, He1, Hwr by done.
    unfold Spec.read. simpl e_cell. cbn match. simpl e_exp. by destruct (past _ _).
  - destruct (dispatch_delete_run c k ts s Hwf) as (s1 & H1 & Hwf1 & He1).
    destruct (dispatch_get_run c' k s1 Hwf1) as (s2 & H2 & _ & _).
    do 3 eexists. split; [exact H1|]. by rewrite H2, He1, Hwr.
  - intros Hnone. destruct (dispatch_get_run c' k s Hwf) as (s1 & H1 & _ & _).
    exists s1. by rewrite H1, Hnone.
Qed.

(** Requests may be delivered twice: serving a SET or a DELETE again, later,
    leaves every register as it was after the first delivery, for a DELETE and
    for a SET without ttl, whatever was stored before; but the repeated DELETE,
    unless the key holds a newer value, answers NOT_FOUND. *)
Theorem dispatch_at_least_once c c' k v ts s :
  vs_wf s →
  (∃ r s1 s2, dispatch c (set_request k v None ts) s = (Ok r, s1) ∧
     dispatch c' (set_request k v None ts) s1 = (Ok r, s2) ∧
     ∀ k', vs_entry s2 k' = vs_entry s1 k') ∧
  (∃ r1 r2 s1 s2, dispatch c (delete_request k ts) s = (Ok r1, s1) ∧
     dispatch c' (delete_request k ts) s1 = (Ok r2, s2) ∧
     (∀ k', vs_entry s2 k' = vs_entry s1 k') ∧
     ((∀ e, vs_entry s k = Some e → (e_ts e ≤ ts)%Z) → m_type r2 = NOT_FOUND)).
Proof.
  intros Hwf.
  assert (∀ new k' o, written new k k' (written new k k' o) = written new k k' o) as Hidem.
  { intros new k' o. unfold written. case_decide; [apply Spec.write_idemp|done]. }
  split.
  - destruct (dispatch_set_run c k v None ts s Hwf) as (s1 & H1 & Hwf1 & He1).
    destruct (dispatch_set_run c' k v None ts s1 Hwf1) as (s2 & H2 & _ & He2).
    do 3 eexists. split_and!; [exact H1|exact H2|]. intros k'.
    rewrite He2, He1. apply Hidem.
  - destruct (dispatch_delete_run c k ts s Hwf) as (s1 & H1 & Hwf1 & He1).
    destruct (dispatch_delete_run c' k ts s1 Hwf1) as (s2 & H2 & _ & He2).
    do 4 eexists. split_and!; [exact H1|exact H2| |].
    + intros k'. rewrite He2, He1. apply Hidem.
    + intros Hold. rewrite He1, lived_written_tombstone.
      destruct (vs_entry s k) as [e|]; [|done]. specialize (Hold e eq_refl).
      by rewrite bool_decide_eq_false_2, andb_false_r by lia.
Qed.

(** The reply to a SET does not tell whether the write was stored: a write
    refused because the key holds a newer entry changes nothing and is answered
    OK like an accepted one. *)
Theorem dispatch_set_hides_refusal c k v ttl ts s e :
  vs_wf s → vs_entry s k = Some e → (ts < e_ts e)%Z →
  ∃ s', dispatch c (set_request k v ttl ts) s = (Ok (mkMessage OK (Some (key_fields k))), s') ∧
    ∀ k', vs_entry s' k' = vs_entry s k'.
Proof.
  intros Hwf He Hlt. destruct (dispatch_set_run c k v ttl ts s Hwf) as (s' & H1 & _ & He1).
  exists s'. split; [done|]. intros k'. rewrite He1. unfold written. case_decide; [|done].
  subst. rewrite He. simpl. by rewrite bool_decide_eq_true_2.
Qed.

(** Requests the dispatcher cannot serve leave the store alone: a message of
    another type is answered with an error, a request without a key, or a SET
    without a value, raises before the store is touched. *)
Theorem dispatch_rejects c msg s :
  (m_type msg ∉ [GET; SET; DELETE] →
     ∃ p, dispatch c msg s = (Ok (mkMessage ERROR (Some p)), s)) ∧
  (m_type msg ∈ [GET; SET; DELETE] → m_payload msg = None →
     dispatch c msg s = (Raise TypeError, s)) ∧
  (∀ p, m_type msg ∈ [GET; SET; DELETE] → m_payload msg = Some p →
     p_key p = None ∨ (m_type msg = SET ∧ p_value p = None) →
     dispatch c msg s = (Raise KeyError, s)).
Proof.
  destruct msg as [t p]. unfold dispatch, payload_item. unfold_M. simpl. split_and!.
  - destruct t; try (by eexists); intros Hnin; destruct Hnin; set_solver.
  - intros Ht ->. destruct t; try done; set_solver.
  - intros q Ht -> [Hk | [-> Hv]].
    + rewrite Hk. destruct t; try done; set_solver.
    + simpl. destruct (p_key q); simpl; [|done]. by rewrite Hv.
Qed.
End laws.

(** ** The requests served by a last-write-wins store *)
From S2P Require Import LwwStore.

Lemma sample_vs_wf : vs_wf sample_store.
Proof. exact sample_store_wf. Qed.

Lemma sample_not_newer ts : (5 ≤ ts)%Z →
  ∀ e, vs_entry sample_store "a" = Some e → (e_ts e ≤ ts)%Z.
Proof. intros Hle e He. vm_compute in He. injection He as <-. done. Qed.

Lemma dispatch_serves_witness :
  let ttl := Some (Float.of_Z 1) in
  (∃ r1 s1 s2, dispatch sample_clock (set_request "a" (VInt 3) ttl 9) sample_store = (Ok r1, s1) ∧
     m_type r1 = OK ∧
     dispatch sample_clock (get_request "a") s1 =
       (Ok (if past (monotonic sample_clock) (expires_at sample_clock ttl)
         then mkMessage NOT_FOUND (Some (key_ts_fields "a" 0))
         else mkMessage OK (Some (versioned_fields "a" (VInt 3) 9))), s2)) ∧
  (∃ r1 s1 s2, dispatch sample_clock (delete_request "a" 9) sample_store = (Ok r1, s1) ∧
     dispatch sample_clock (get_request "a") s1 =
       (Ok (mkMessage NOT_FOUND (Some (tombstone_fields "a" 9))), s2)) ∧
  (vs_entry sample_store "a" = None → ∃ s1, dispatch sample_clock (get_request "a") sample_store =
     (Ok (mkMessage NOT_FOUND (Some (key_ts_fields "a" 0))), s1)).
Proof.
  apply (dispatch_serves (S := lww_store) sample_clock sample_clock "a" (VInt 3) (Some (Float.of_Z 1)) 9
    sample_store sample_vs_wf). apply sample_not_newer. lia.
Defined.

Lemma dispatch_at_least_once_witness :
  (∃ r s1 s2, dispatch sample_clock (set_request "a" (VInt 3) None 9) sample_store = (Ok r, s1) ∧
     dispatch sample_clock (set_request "a" (VInt 3) None 9) s1 = (Ok r, s2) ∧
     ∀ k', vs_entry s2 k' = vs_entry s1 k') ∧
  (∃ r1 r2 s1 s2, dispatch sample_clock (delete_request "a" 9) sample_store = (Ok r1, s1) ∧
     dispatch sample_clock (delete_request "a" 9) s1 = (Ok r2, s2) ∧
     (∀ k', vs_entry s2 k' = vs_entry s1 k') ∧
     ((∀ e, vs_entry sample_store "a" = Some e → (e_ts e ≤ 9)%Z) → m_type r2 = NOT_FOUND)).
Proof.
  apply (dispatch_at_least_once (S := lww_store) sample_clock sample_clock "a" (VInt 3) 9
    sample_store sample_vs_wf).
Defined.

Lemma dispatch_set_hides_refusal_witness :
  ∃ s', dispatch sample_clock (set_request "a" (VInt 3) None 2) sample_store =
      (Ok (mkMessage OK (Some (key_fields "a"))), s') ∧
    ∀ k', vs_entry s' k' = vs_entry sample_store k'.
Proof.
  apply (dispatch_set_hides_refusal (S := lww_store) sample_clock "a" (VInt 3) None 2 sample_store
    (mkEntry (Val (VInt 1)) None 5) sample_vs_wf eq_refl). reflexivity.
Defined.

Lemma dispatch_rejects_witness :
  let msg := mkMessage SET (Some (key_fields "a")) in
  (m_type msg ∉ [GET; SET; DELETE] →
     ∃ p, dispatch sample_clock msg sample_store = (Ok (mkMessage ERROR (Some p)), sample_store)) ∧
  (m_type msg ∈ [GET; SET; DELETE] → m_payload msg = None →
     dispatch sample_clock msg sample_store = (Raise TypeError, sample_store)) ∧
  (∀ p, m_type msg ∈ [GET; SET; DELETE] → m_payload msg = Some p →
     p_key p = None ∨ (m_type msg = SET ∧ p_value p = None) →
     dispatch sample_clock msg sample_store = (Raise KeyError, sample_store)).
Proof.
  apply (dispatch_rejects (S := lww_store) sample_clock (mkMessage SET (Some (key_fields "a")))
    sample_store).
Defined.
