(* ===== verification/Wire.v ===== *)
(** * The wire protocol ([dlstorage/connection_pool/wire.py])

    A frame is a four-byte big-endian length and the pickled message.  [pickle]
    is a parameter: it serialises or raises, and loading inverts dumping.  A
    socket delivers the bytes of the stream in pieces of arbitrary sizes, may
    fail in the middle and ends when the peer closes. *)
From S2P Require Import Prelude PyBase Bytes Types.

(** ** Pickle *)
Class Pickle := {
  dumps : Message → result (list byte);
  loads : list byte → result Message;
}.

(** Documented behaviour: a loaded pickle is the object that was dumped, and the
    empty string is not a pickle. *)
Class PickleLaws `{Pickle} := {
  loads_dumps msg data : dumps msg = Ok data → loads data = Ok msg;
  loads_empty : ∃ e, loads [] = Raise e;
}.

(** ** Sockets *)

(** What the network delivers next: a non-empty piece of the stream, or an error
    (a reset, a time-out).  After the last event the peer has closed. *)
Inductive rx := Data (b : byte) (bs : list byte) | Err (e : exn).

(** Input still to come, output sent so far, and the way the next [sendall]
    fails, if it does: after how many bytes and with which exception. *)
Record sock := mkSock { s_in : list rx; s_out : list byte; s_fault : option (nat * exn) }.

Definition set_in (i : list rx) (s : sock) : sock := mkSock i (s_out s) (s_fault s).
Definition set_out (o : list byte) (s : sock) : sock := mkSock (s_in s) o (s_fault s).

(** Put back the unread end of a piece. *)
Definition unread (bs : list byte) (i : list rx) : list rx :=
  match bs with [] => i | b :: bs => Data b bs :: i end.

(** [sock.recv(n)]: at most [n] bytes, as many as the next piece holds; the empty
    string at the end of the stream, and for [n = 0]. *)
Definition recv (n : nat) : M sock (list byte) := λ s,
  match n, s_in s with
  | O, _ => (Ok [], s)
  | _, [] => (Ok [], s)
  | _, Err e :: i => (Raise e, set_in i s)
  | _, Data b bs :: i => (Ok (take n (b :: bs)), set_in (unread (drop n (b :: bs)) i) s)
  end.

Definition sendall (data : list byte) : M sock unit := λ s,
  match s_fault s with
  | None => (Ok tt, set_out (s_out s ++ data) s)
  | Some (k, e) => (Raise e, set_out (s_out s ++ take k data) s)
  end.

(** ** Framing *)
Definition HEADER_SIZE : nat := 4.

Section wire.
Context `{Pickle}.

(** [header + data]. *)
Definition frame (msg : Message) : result (list byte) :=
  data ← dumps msg;
  header ← to_bytes HEADER_SIZE (Z.of_nat (length data));
  mret (header ++ data).

Definition send_message (msg : Message) : M sock unit :=
  bytes ← lift_result (frame msg);
  sendall bytes.

(** [writer.write(...); await writer.drain()]: the bytes are handed to the
    transport, whose errors surface in [drain]. *)
Definition send_message_async (msg : Message) : M sock unit :=
  data ← lift_result (dumps msg);
  header ← lift_result (to_bytes HEADER_SIZE (Z.of_nat (length data)));
  sendall (header ++ data).

(** The loop of [_recvexactly]: [need] bytes are missing, [buf] holds those
    received.  Every round receives a byte at least, so [need] rounds do. *)
Fixpoint recv_loop (fuel need : nat) (buf : list byte) : M sock (list byte) :=
  match need, fuel with
  | O, _ => mret buf
  | S _, O => raise RuntimeError
  | S _, S fuel =>
      chunk ← recv need;
      match chunk with
      | [] => raise EOFError
      | _ => recv_loop fuel (need - length chunk) (buf ++ chunk)
      end
  end.

Definition _recvexactly (n : nat) : M sock (list byte) := recv_loop n n [].

Definition recv_message : M sock Message :=
  header ← _recvexactly HEADER_SIZE;
  let length := from_bytes header in
  data ← _recvexactly (Z.to_nat length);
  lift_result (loads data).

(** [StreamReader.readexactly(n)]: waits until [n] bytes are buffered; raises
    [IncompleteReadError], an [EOFError], if the stream ends before. *)
Fixpoint read_rx (n : nat) (acc : list byte) (i : list rx) : result (list byte) * list rx :=
  match n, i with
  | O, _ => (Ok acc, i)
  | _, [] => (Raise EOFError, [])
  | _, Err e :: i => (Raise e, i)
  | _, Data b bs :: i =>
      if bool_decide (S (length bs) ≤ n) then read_rx (n - S (length bs)) (acc ++ b :: bs) i
      else (Ok (acc ++ take n (b :: bs)), unread (drop n (b :: bs)) i)
  end.

Definition readexactly (n : nat) : M sock (list byte) := λ s,
  let '(r, i) := read_rx n [] (s_in s) in (r, set_in i s).

Definition recv_message_async : M sock Message :=
  header ← readexactly HEADER_SIZE;
  let length := from_bytes header in
  data ← readexactly (Z.to_nat length);
  lift_result (loads data).
End wire.

(** ** The receive loop reads the stream *)

Lemma set_in_in s : set_in (s_in s) s = s.
Proof. by destruct s. Qed.

Lemma read_rx_0 acc i : read_rx 0 acc i = (Ok acc, i).
Proof. by destruct i as [|[]]. Qed.

(** The loop terminates within its fuel and agrees with the specification of
    [readexactly], the unread input included. *)
Lemma recv_loop_read fuel n buf s :
  n ≤ fuel →
  recv_loop fuel n buf s = (let '(r, i) := read_rx n buf (s_in s) in (r, set_in i s)).
Proof.
  revert n buf s. induction fuel as [|fuel IH]; intros n buf s Hle.
  { replace n with 0 by lia. rewrite read_rx_0. simpl. unfold_M. by rewrite set_in_in. }
  destruct n as [|n].
  { rewrite read_rx_0. simpl. unfold_M. by rewrite set_in_in. }
  cbn [recv_loop]. unfold_M. unfold recv.
  destruct s as [[|[b bs|e] i] out flt]; try done.
  cbn [s_in]. rewrite firstn_cons.
  rewrite IH by (simpl; lia). cbn [read_rx s_in set_in length].
  rewrite length_take. case_bool_decide as Hb.
  - rewrite take_ge, drop_ge by (simpl; lia). cbn [unread].
    replace (S n - S (n `min` length bs)) with (S n - S (length bs)) by lia. done.
  - replace (S n - S (n `min` length bs)) with 0 by lia. by rewrite read_rx_0.
Qed.

Lemma recvexactly_readexactly n s : _recvexactly n s = readexactly n s.
Proof. unfold _recvexactly, readexactly. by rewrite recv_loop_read. Qed.

(** The bytes of an input without errors. *)
Fixpoint rx_bytes (i : list rx) : option (list byte) :=
  match i with
  | [] => Some []
  | Data b bs :: i => (λ l, b :: bs ++ l) <$> rx_bytes i
  | Err _ :: _ => None
  end.

Lemma rx_bytes_unread bs i : rx_bytes (unread bs i) = (bs ++.) <$> rx_bytes i.
Proof. destruct bs; simpl; by destruct (rx_bytes i). Qed.

(** Reading a prefix of the stream returns it and leaves the rest, however the
    stream is cut into pieces. *)
Lemma read_rx_prefix n acc i bs rest :
  rx_bytes i = Some (bs ++ rest) → length bs = n →
  ∃ i', read_rx n acc i = (Ok (acc ++ bs), i') ∧ rx_bytes i' = Some rest.
Proof.
  revert n acc bs. induction i as [|[b p|e] i IH]; intros n acc bs Hi Hlen; simpl in Hi.
  - injection Hi as Hi. symmetry in Hi. apply app_nil in Hi as [-> ->].
    simpl in Hlen. subst. rewrite read_rx_0, app_nil_r. by eexists.
  - destruct n as [|n].
    { apply nil_length_inv in Hlen as ->. rewrite read_rx_0, app_nil_r. by eexists. }
    destruct (rx_bytes i) as [l|] eqn:Hl; [|done]. simpl in Hi. injection Hi as Hi.
    cbn [read_rx]. case_bool_decide as Hb.
    + assert (bs = (b :: p) ++ drop (S (length p)) bs) as Hbs.
      { rewrite <- (take_drop (S (length p)) bs) at 1. f_equal.
        apply (f_equal (take (S (length p)))) in Hi.
        rewrite take_app_le in Hi by lia. rewrite <- Hi. simpl. by rewrite take_app_length. }
      destruct (IH (S n - S (length p)) (acc ++ b :: p) (drop (S (length p)) bs))
        as (i' & Hr & Hi').
      * f_equal. apply (f_equal (drop (S (length p)))) in Hi.
        rewrite drop_app_le in Hi by lia. rewrite <- Hi. simpl. by rewrite drop_app_length.
      * rewrite length_drop. lia.
      * exists i'. split; [|done]. rewrite Hr, <- app_assoc. do 2 f_equal. by rewrite Hbs at 2.
    + eexists. split; [|rewrite rx_bytes_unread, Hl; simpl].
      * do 3 f_equal. change (b :: p ++ l) with ((b :: p) ++ l) in Hi.
        apply (f_equal (take (S n))) in Hi.
        rewrite take_app_le in Hi by (simpl; lia). rewrite Hi, take_app_le by lia.
        apply take_ge. lia.
      * f_equal. change (b :: p ++ l) with ((b :: p) ++ l) in Hi.
        apply (f_equal (drop (S n))) in Hi. rewrite drop_app_le in Hi by (simpl; lia).
        change (drop n p ++ l) with (drop (S n) (b :: p) ++ l). rewrite Hi, drop_app_le by lia.
        by rewrite drop_ge by lia.
  - done.
Qed.

Lemma read_rx_length n acc i bs i' :
  read_rx n acc i = (Ok bs, i') → length bs = length acc + n.
Proof.
  revert n acc. induction i as [|[b p|e] i IH]; intros n acc Hr; destruct n as [|n]; simpl in Hr;
    simplify_eq; try lia.
  case_bool_decide.
  - apply IH in Hr. rewrite length_app in Hr. simpl in Hr. lia.
  - simplify_eq. rewrite length_app. simpl. rewrite length_take. lia.
Qed.

(** A stream that ends early makes the read fail with [EOFError]. *)
Lemma read_rx_short n acc i bs :
  rx_bytes i = Some bs → length bs < n → read_rx n acc i = (Raise EOFError, []).
Proof.
  revert n acc bs. induction i as [|[b p|e] i IH]; intros n acc bs Hi Hlen; simpl in Hi; [|..|done].
  - by destruct n; [lia|].
  - destruct (rx_bytes i) as [l|] eqn:Hl; [|done]. simpl in Hi. injection Hi as <-.
    simpl in Hlen. rewrite length_app in Hlen. destruct n as [|n]; [lia|].
    cbn [read_rx]. rewrite bool_decide_eq_true_2 by lia. eapply IH; [done|lia].
Qed.

(** ** Frames *)
Section frames.
Context `{PickleLaws}.

Lemma frame_Ok msg bytes :
  frame msg = Ok bytes ↔
  ∃ data, dumps msg = Ok data ∧ (Z.of_nat (length data) < 256 ^ 4)%Z ∧
    bytes = bytes_be HEADER_SIZE (Z.of_nat (length data)) ++ data.
Proof.
  unfold frame. destruct (dumps msg) as [data|e]; simpl; [|naive_solver].
  unfold to_bytes. case_bool_decide as Hb; simpl.
  - split; [intros [= <-]; eexists; split_and!; [done|apply Hb|done]|].
    by intros (? & [= <-] & _ & ->).
  - split; [done|]. intros (? & [= <-] & Hlt & _). destruct Hb.
    split; [lia|]. unfold HEADER_SIZE. simpl. lia.
Qed.

Lemma recv_message_frame msg bytes rest i s :
  frame msg = Ok bytes → s_in s = i → rx_bytes i = Some (bytes ++ rest) →
  ∃ i', recv_message s = (Ok msg, set_in i' s) ∧ rx_bytes i' = Some rest.
Proof.
  intros (data & Hd & Hlt & ->)%frame_Ok Hs Hi. rewrite <- app_assoc in Hi.
  destruct (read_rx_prefix HEADER_SIZE [] i _ _ Hi) as (i1 & Hr1 & Hi1);
    [apply length_bytes_be|].
  destruct (read_rx_prefix (length data) [] i1 _ _ Hi1 eq_refl) as (i2 & Hr2 & Hi2).
  exists i2. split; [|done]. unfold recv_message. unfold_M.
  rewrite recvexactly_readexactly. unfold readexactly at 1. rewrite Hs, Hr1. cbn [app].
  rewrite from_bytes_be by (unfold HEADER_SIZE; simpl; lia). rewrite Nat2Z.id.
  rewrite recvexactly_readexactly. unfold readexactly. simpl s_in. rewrite Hr2.
  cbn [app]. by rewrite (loads_dumps _ _ Hd).
Qed.

Lemma recv_messages_frames msgs frames rest s :
  mapM frame msgs = Ok frames → rx_bytes (s_in s) = Some (concat frames ++ rest) →
  ∃ i', map_each msgs (λ _, recv_message) s = (Ok msgs, set_in i' s) ∧
    rx_bytes i' = Some rest.
Proof.
  revert frames s. induction msgs as [|msg msgs IH]; intros frames s Hf Hi.
  { injection Hf as <-. exists (s_in s). split; [|done]. simpl. unfold_M. by rewrite set_in_in. }
  simpl in Hf. destruct (frame msg) as [fr|] eqn:Hfr; simpl in Hf; [|done].
  destruct (mapM frame msgs) as [frs|] eqn:Hfrs; simpl in Hf; [|done]. injection Hf as <-.
  simpl in Hi. rewrite <- app_assoc in Hi.
  destruct (recv_message_frame msg fr _ _ s Hfr eq_refl Hi) as (i1 & H1 & Hi1).
  destruct (IH frs (set_in i1 s) eq_refl Hi1) as (i2 & H2 & Hi2).
  exists i2. split; [|done]. simpl. unfold_M. rewrite H1, H2. done.
Qed.

Lemma send_message_out msg s s' :
  send_message msg s = (Ok tt, s') →
  ∃ fr, frame msg = Ok fr ∧ s' = set_out (s_out s ++ fr) s ∧ s_fault s = None.
Proof.
  unfold send_message. unfold_M. destruct (frame msg) as [fr|]; [|done].
  unfold sendall. destruct (s_fault s) as [[? ?]|]; [done|]. intros [= <-]. by exists fr.
Qed.

Lemma send_messages_out msgs s s' :
  for_each msgs send_message s = (Ok tt, s') →
  ∃ frames, mapM frame msgs = Ok frames ∧ s_out s' = s_out s ++ concat frames.
Proof.
  revert s. induction msgs as [|msg msgs IH]; intros s Hs.
  { injection Hs as <-. exists []. by rewrite app_nil_r. }
  simpl in Hs. unfold_M. destruct (send_message msg s) as [[[]|] s1] eqn:H1; [|done].
  apply send_message_out in H1 as (fr & Hfr & -> & _).
  apply IH in Hs as (frs & Hfrs & Hout). exists (fr :: frs). split.
  - simpl. by rewrite Hfr, Hfrs.
  - rewrite Hout. simpl. by rewrite app_assoc.
Qed.

(** C28. Framing is faithful for any delivery: when a peer has sent a sequence of
    messages on a connection, then however the network cuts the bytes into
    pieces, and whatever follows them, the receiver reads the same messages in
    order and leaves exactly what follows. *)
Theorem wire_roundtrip msgs tx tx' rx rest :
  s_out tx = [] → for_each msgs send_message tx = (Ok tt, tx') →
  rx_bytes (s_in rx) = Some (s_out tx' ++ rest) →
  ∃ i', map_each msgs (λ _, recv_message) rx = (Ok msgs, set_in i' rx) ∧
    rx_bytes i' = Some rest.
Proof.
  intros Hout Hsend Hrx. apply send_messages_out in Hsend as (frames & Hf & Heq).
  rewrite Heq, Hout in Hrx. by apply (recv_messages_frames msgs frames).
Qed.

(** C36. A cut connection never yields a message: if the peer closes after a
    proper prefix of a frame, receiving raises [EOFError]; a message that cannot
    be pickled, or whose pickle needs more than four bytes of length, is refused
    before a byte is sent. *)
Theorem wire_cut_or_oversize msg s :
  (∀ bytes n, frame msg = Ok bytes → n < length bytes →
     rx_bytes (s_in s) = Some (take n bytes) → (recv_message s).1 = Raise EOFError) ∧
  (∀ e, dumps msg = Raise e → send_message msg s = (Raise e, s)) ∧
  (∀ data, dumps msg = Ok data → (2 ^ 32 ≤ Z.of_nat (length data))%Z →
     send_message msg s = (Raise OverflowError, s)).
Proof.
  split_and!.
  - intros bytes n (data & Hd & Hlt & ->)%frame_Ok Hn Hi.
    rewrite length_app, length_bytes_be in Hn.
    unfold recv_message. unfold_M. rewrite recvexactly_readexactly. unfold readexactly at 1.
    destruct (decide (n < HEADER_SIZE)).
    { erewrite read_rx_short; [done|exact Hi|].
      rewrite length_take, length_app, length_bytes_be. lia. }
    rewrite take_app_ge in Hi by (rewrite length_bytes_be; lia).
    destruct (read_rx_prefix HEADER_SIZE [] (s_in s) _ _ Hi) as (i1 & Hr1 & Hi1);
      [apply length_bytes_be|].
    rewrite Hr1. cbn [app]. rewrite from_bytes_be by (unfold HEADER_SIZE; simpl; lia).
    rewrite Nat2Z.id, recvexactly_readexactly. unfold readexactly. simpl s_in.
    erewrite read_rx_short; [done|exact Hi1|].
    rewrite length_take, length_bytes_be. unfold HEADER_SIZE in *. lia.
  - intros e He. unfold send_message, frame. unfold_M. by rewrite He.
  - intros data Hd Hlt. unfold send_message, frame, to_bytes. unfold_M. rewrite Hd. simpl.
    rewrite bool_decide_eq_false_2; [done|]. unfold HEADER_SIZE. simpl. lia.
Qed.
End frames.

(** ** The asynchronous functions are the synchronous ones *)

Lemma send_message_async_eq `{Pickle} msg s : send_message_async msg s = send_message msg s.
Proof.
  unfold send_message_async, send_message, frame. unfold_M.
  destruct (dumps msg) as [data|e]; [|done]. simpl. by destruct (to_bytes HEADER_SIZE _).
Qed.

Lemma recv_message_async_eq `{Pickle} s : recv_message_async s = recv_message s.
Proof.
  unfold recv_message_async, recv_message. unfold_M. rewrite recvexactly_readexactly.
  destruct (readexactly HEADER_SIZE s) as [[header|e] s1]; [|done].
  by rewrite recvexactly_readexactly.
Qed.

(** Synchronous and asynchronous nodes are wire compatible: on every socket,
    errors and early ends included, the two receivers return the same outcome
    and leave the same input unread, and the two senders emit the same bytes. *)
Theorem async_wire_equiv `{Pickle} msg s :
  recv_message_async s = recv_message s ∧ send_message_async msg s = send_message msg s.
Proof. split; [apply recv_message_async_eq|apply send_message_async_eq]. Qed.

(** ** A concrete pickle, for one message *)
Definition sample_msg : Message := mkMessage PING (Some no_fields).

Definition sample_pickle : Pickle := {|
  dumps msg := if decide (msg = sample_msg) then Ok [x80; x05] else Raise PicklingError;
  loads data := if decide (data = [x80; x05]) then Ok sample_msg else Raise UnpicklingError;
|}.

Lemma sample_pickle_laws : @PickleLaws sample_pickle.
Proof.
  constructor; [|by eexists]. intros msg data. simpl. case_decide; [|done].
  by intros [= <-]; subst.
Qed.

Lemma wire_roundtrip_witness :
  let tx := mkSock [] [] None in
  let rx := mkSock [Data x00 [x00]; Data x00 [x02; x80]; Data x05 [x00; x00; x00; x02; x80];
                    Data x05 [x07]] [] None in
  s_out tx = [] ∧
  ∃ i', map_each [sample_msg; sample_msg] (λ _, recv_message (H := sample_pickle)) rx =
      (Ok [sample_msg; sample_msg], set_in i' rx) ∧ rx_bytes i' = Some [x07].
Proof.
  split; [done|].
  apply (wire_roundtrip (H := sample_pickle) (H0 := sample_pickle_laws) [sample_msg; sample_msg]
    (mkSock [] [] None)
    (mkSock [] [x00; x00; x00; x02; x80; x05; x00; x00; x00; x02; x80; x05] None) _ [x07]);
    vm_compute; reflexivity.
Defined.

Lemma wire_cut_or_oversize_witness :
  let s := mkSock [Data x00 [x00; x00; x02]; Data x80 []] [] None in
  (∀ bytes n, frame (H := sample_pickle) sample_msg = Ok bytes → n < length bytes →
     rx_bytes (s_in s) = Some (take n bytes) →
     (recv_message (H := sample_pickle) s).1 = Raise EOFError) ∧
  (∀ e, dumps (Pickle := sample_pickle) sample_msg = Raise e →
     send_message (H := sample_pickle) sample_msg s = (Raise e, s)) ∧
  (∀ data, dumps (Pickle := sample_pickle) sample_msg = Ok data →
     (2 ^ 32 ≤ Z.of_nat (length data))%Z →
     send_message (H := sample_pickle) sample_msg s = (Raise OverflowError, s)).
Proof.
  apply (@wire_cut_or_oversize sample_pickle sample_msg
    (mkSock [Data x00 [x00; x00; x02]; Data x80 []] [] None)).
Defined.
