(* ===== verification/Pool.v ===== *)
(** * Connection pools ([dlstorage/connection_pool/sync.py] and [async_.py])

    [ConnectionPool] and [AsyncConnectionPool] keep, for each peer address, a LIFO
    queue of idle connections.  Queues are objects: a call that fetched the queue
    of a peer keeps its reference while another call drops the queue from the
    table, so the model has a heap of queues.  Every method is a program of
    atomic actions on the pool and the network. *)
From S2P Require Import Prelude PyBase PyDict Types Wire Threads.

(** ** State *)

(** References to queues and connections carry the peer address they were created
    for; the number makes them distinct. *)
Abbreviation ref := (string * nat)%type.

(** A connection: its socket, whether it is still open on our side, whether
    closing it fails, and what the next calls of [writer.is_closing()] find out
    about a transport that the peer or the network closed. *)
Record conn := mkConn {
  c_sock : sock;
  c_open : bool;
  c_close_fails : bool;
  c_checks : list bool;
}.

(** [_queues], the queue objects (most recent item first), the connections, the
    outcomes of the connection attempts to come, and the next free number. *)
Record pool := mkPool {
  p_queues : list (string * ref);
  p_heap : gmap ref (list ref);
  p_conns : gmap ref conn;
  p_dials : list (result conn);
  p_next : nat;
}.

Definition set_queues q p := mkPool q (p_heap p) (p_conns p) (p_dials p) (p_next p).
Definition set_heap h p := mkPool (p_queues p) h (p_conns p) (p_dials p) (p_next p).
Definition set_conns c p := mkPool (p_queues p) (p_heap p) c (p_dials p) (p_next p).

Definition set_sock s c := mkConn s (c_open c) (c_close_fails c) (c_checks c).
Definition closed c := mkConn (c_sock c) false (c_close_fails c) (c_checks c).

(** ** Connections *)

(** An operation on the socket of a connection; on a closed one it raises. *)
Definition on_sock {A} (s : ref) (m : M sock A) : M pool A := λ p,
  match p_conns p !! s with
  | Some c =>
      if c_open c then
        let '(r, k) := m (c_sock c) in (r, set_conns (<[s := set_sock k c]> (p_conns p)) p)
      else (Raise OSError, p)
  | None => (Raise OSError, p)
  end.

(** [sock.close()]: the descriptor is released even when an error is reported;
    closing again does nothing. *)
Definition sock_close (s : ref) : M pool unit := λ p,
  match p_conns p !! s with
  | Some c =>
      if c_open c then
        (if c_close_fails c then Raise OSError else Ok tt,
         set_conns (<[s := closed c]> (p_conns p)) p)
      else (Ok tt, p)
  | None => (Ok tt, p)
  end.

(** [writer.close()] never raises. *)
Definition writer_close (s : ref) : M pool unit := λ p, (Ok tt, (sock_close s p).2).

(** [writer.is_closing()]: a transport that is closing releases the connection. *)
Definition is_closing (s : ref) : M pool bool := λ p,
  match p_conns p !! s with
  | Some c =>
      let lost := default false (head (c_checks c)) in
      let c' := mkConn (c_sock c) (c_open c && negb lost) (c_close_fails c) (tail (c_checks c)) in
      (Ok (negb (c_open c) || lost), set_conns (<[s := c']> (p_conns p)) p)
  | None => (Ok true, p)
  end.

(** [_new_connection]: the attempt fails, or yields an open connection. *)
Definition _new_connection (h : string) (prt : Z) : M pool ref := λ p,
  match p_dials p with
  | [] => (Raise OSError, p)
  | Raise e :: ds => (Raise e, mkPool (p_queues p) (p_heap p) (p_conns p) ds (p_next p))
  | Ok c :: ds =>
      let s := (join_address h prt, p_next p) in
      let c := mkConn (c_sock c) true (c_close_fails c) (c_checks c) in
      (Ok s, mkPool (p_queues p) (p_heap p) (<[s := c]> (p_conns p)) ds (S (p_next p)))
  end.

(** The asynchronous one, whose time-out is an error of the attempt. *)
Definition _new_connection_async (h : string) (prt : Z) : M pool ref := _new_connection h prt.

(** ** Queues *)

(** [q.get_nowait()]. *)
Definition get_nowait (q : ref) : M pool ref := λ p,
  match p_heap p !! q with
  | Some (s :: items) => (Ok s, set_heap (<[q := items]> (p_heap p)) p)
  | _ => (Raise QueueEmpty, p)
  end.

(** [q.put_nowait(s)] for a queue created with [maxsize = max]; it is unbounded
    when [max] is not positive. *)
Definition put_nowait (max : Z) (q s : ref) : M pool unit := λ p,
  match p_heap p !! q with
  | Some items =>
      if bool_decide (0 < max ≤ Z.of_nat (length items))%Z then (Raise QueueFull, p)
      else (Ok tt, set_heap (<[q := s :: items]> (p_heap p)) p)
  | None => (Raise RuntimeError, p)  (* no reference dangles *)
  end.

(** [try: q.get_nowait() / except Empty: None]. *)
Definition try_get (q : ref) : M pool (option ref) :=
  try_except (s ← get_nowait q; mret (Some s))
    (λ e, match e with QueueEmpty => mret None | e => raise e end).

(** [LifoQueue(maxsize)], stored in the table. *)
Definition create_queue (a : string) : M pool ref := λ p,
  let q := (a, p_next p) in
  (Ok q, mkPool (dict_set (p_queues p) a q) (<[q := []]> (p_heap p)) (p_conns p) (p_dials p)
           (S (p_next p))).

(** [self._queues.get(address)]. *)
Definition lookup_queue (a : string) : M pool (option ref) := λ p,
  (Ok (dict_get (p_queues p) a), p).

(** The section under [_init_lock]: a queue is created if there is none, then the
    table is looked up.  The lock keeps other creators out, so test and creation are
    one action; it does not keep out [close_peer] and [close_all], which may drop the
    queue before it is looked up. *)
Definition locked_create (a : string) : M pool unit :=
  q ← lookup_queue a;
  match q with Some _ => mret tt | None => create_queue a ;; mret tt end.

(** [self._queues[address]]. *)
Definition queue_item (a : string) : M pool ref := λ p,
  (match dict_get (p_queues p) a with Some q => Ok q | None => Raise KeyError end, p).

(** [self._queues.pop(address, None)]. *)
Definition pop_queue (a : string) : M pool (option ref) := λ p,
  (Ok (dict_get (p_queues p) a), set_queues (dict_remove (p_queues p) a) p).

(** ** The synchronous pool *)
Section sync.
Context `{Pickle} (max : Z).

Definition _queue (a : string) : prog pool ref :=
  q ← act (lookup_queue a);
  match q with Some q => mret q | None => act (locked_create a) ;; act (queue_item a) end.

(** [try: sock.close() / except Exception: pass]. *)
Definition close_quietly (s : ref) : prog pool unit :=
  prog_try (act (sock_close s)) (λ _, mret tt).

(** Send, receive, and give the connection back; a full queue has it closed. *)
Definition exchange (q s : ref) (msg : Message) : prog pool Message :=
  act (on_sock s (send_message msg)) ;;
  response ← act (on_sock s recv_message);
  prog_try (act (put_nowait max q s))
    (λ e, match e with QueueFull => act (sock_close s) | e => Ret (Raise e) end) ;;
  mret response.

(** [try: self._new_connection(host, port) / except Exception: None]. *)
Definition dial (h : string) (prt : Z) : prog pool (option ref) :=
  prog_try (s ← act (_new_connection h prt); mret (Some s)) (λ _, mret None).

(** [execute], once it has the queue of the peer. *)
Definition execute_on (q : ref) (h : string) (prt : Z) (msg : Message) :
    prog pool (option Message) :=
  idle ← act (try_get q);
  let reused := bool_decide (is_Some idle) in
  sock ← match idle with Some s => mret (Some s) | None => dial h prt end;
  match sock with
  | None => mret None
  | Some s =>
      prog_try (response ← exchange q s msg; mret (Some response)) (λ _,
        close_quietly s ;;
        if reused then
          sock ← dial h prt;
          match sock with
          | None => mret None
          | Some s =>
              prog_try (response ← exchange q s msg; mret (Some response)) (λ _,
                close_quietly s ;; mret None)
          end
        else mret None)
  end.

Definition execute (h : string) (prt : Z) (msg : Message) : prog pool (option Message) :=
  let address := join_address h prt in
  q ← _queue address;
  execute_on q h prt msg.

(** [while True: q.get_nowait().close()], until the queue is empty or a close
    fails. *)
Fixpoint drain (fuel : nat) (q : ref) : prog pool unit :=
  match fuel with
  | O => mret tt
  | S fuel =>
      more ← prog_try (s ← act (get_nowait q); act (sock_close s) ;; mret true)
        (λ e, match e with QueueEmpty | OSError => mret false | e => Ret (Raise e) end);
      if more : bool then drain fuel q else mret tt
  end.

Definition close_peer (fuel : nat) (h : string) (prt : Z) : prog pool unit :=
  q ← act (pop_queue (join_address h prt));
  match q with None => mret tt | Some q => drain fuel q end.

(** The iterator over [self._queues.values()], created when the table had [size]
    entries: it raises when the size has changed, and otherwise gives the next queue,
    the first of those numbered from [from] on; queues are numbered in the order in
    which they were inserted. *)
Definition next_queue (size from : nat) : M pool (option ref) := λ p,
  (if decide (length (p_queues p) = size)
   then Ok (head (filter (λ q : ref, from ≤ q.2) (p_queues p).*2))
   else Raise RuntimeError, p).

(** The loop of [close_all], for at most [rounds] queues. *)
Fixpoint drain_all (rounds fuel size from : nat) : prog pool unit :=
  match rounds with
  | O => mret tt
  | S rounds =>
      q ← act (next_queue size from);
      match q with
      | None => mret tt
      | Some q => drain fuel q ;; drain_all rounds fuel size (S q.2)
      end
  end.

Definition close_all (rounds fuel : nat) : prog pool unit :=
  size ← act (λ p, (Ok (length (p_queues p)), p));
  drain_all rounds fuel size 0 ;;
  act (modify (set_queues [])).
End sync.

(** ** The asynchronous pool

    Coroutines switch only where they await, so everything between two awaits is
    one action. *)
Section async.
Context `{Pickle} (max : Z).

Definition _queue_async (a : string) : M pool ref :=
  q ← lookup_queue a;
  match q with Some q => mret q | None => create_queue a end.

(** [while not q.empty(): ...]: the connections found closing are dropped. *)
Fixpoint checkout (fuel : nat) (q : ref) : M pool (option ref) :=
  match fuel with
  | O => mret None
  | S fuel =>
      idle ← try_get q;
      match idle with
      | None => mret None
      | Some s =>
          closing ← is_closing s;
          if closing : bool then checkout fuel q else mret (Some s)
      end
  end.

(** The queue and an idle connection, if any; a round per item is enough. *)
Definition checkout_queue (q : ref) : M pool (option ref) := λ p,
  checkout (length (default [] (p_heap p !! q))) q p.

Definition checkout_async (a : string) : M pool (ref * option ref) :=
  q ← _queue_async a;
  idle ← checkout_queue q;
  mret (q, idle).

(** After the response: give the connection back unless it is closing. *)
Definition release_async (q s : ref) : M pool unit :=
  closing ← is_closing s;
  if closing : bool then mret tt
  else try_except (put_nowait max q s)
    (λ e, match e with QueueFull => writer_close s | e => raise e end).

Definition exchange_async (q s : ref) (msg : Message) : prog pool Message :=
  act (on_sock s (send_message_async msg)) ;;
  response ← act (on_sock s recv_message_async);
  act (release_async q s) ;;
  mret response.

Definition execute_async (h : string) (prt : Z) (msg : Message) : prog pool (option Message) :=
  let address := join_address h prt in
  st ← act (checkout_async address);
  let '(q, idle) := st in
  let reused := bool_decide (is_Some idle) in
  sock ← match idle with Some s => mret (Some s) | None => dial h prt end;
  match sock with
  | None => mret None
  | Some s =>
      prog_try (response ← exchange_async q s msg; mret (Some response)) (λ _,
        act (writer_close s) ;;
        if reused then
          sock ← dial h prt;
          match sock with
          | None => mret None
          | Some s =>
              prog_try (response ← exchange_async q s msg; mret (Some response)) (λ _,
                act (writer_close s) ;; mret None)
          end
        else mret None)
  end.

(** [while not q.empty(): ...; writer.close()]. *)
Fixpoint drain_async (fuel : nat) (q : ref) : M pool unit :=
  match fuel with
  | O => mret tt
  | S fuel =>
      idle ← try_get q;
      match idle with
      | None => mret tt
      | Some s => writer_close s ;; drain_async fuel q
      end
  end.

Definition drain_queue_async (q : ref) : M pool unit := λ p,
  drain_async (length (default [] (p_heap p !! q))) q p.

Definition close_peer_async (h : string) (prt : Z) : M pool unit :=
  q ← pop_queue (join_address h prt);
  match q with None => mret tt | Some q => drain_queue_async q end.

Definition close_all_async : M pool unit :=
  p ← get_state;
  for_each (p_queues p).*2 drain_queue_async ;;
  modify (set_queues []).
End async.
