(* ===== verification/PoolShare.v ===== *)
(** * Sharing a connection pool

    The calls of both pools run concurrently on one object.  The invariant below
    holds between any two atomic actions of any number of calls: an open
    connection is idle in exactly one queue, of its own peer, or held by exactly
    one call. *)
From S2P Require Import Prelude PyBase Bytes PyDict Types Wire Threads Pool.

Implicit Types (h : gmap ref (list ref)) (p : pool) (q s : ref) (b : bool).

Definition idle_in h q s : Prop := ∃ items, h !! q = Some items ∧ s ∈ items.

Definition is_open p s : Prop := ∃ c, p_conns p !! s = Some c ∧ c_open c = true.

(** What a call holds: a connection taken from the pool or dialled, with the flag
    telling whether it is still open. *)
Abbreviation holding := (gset (ref * bool)).

(** A queue holds connections to its own peer, at most [max] of them, and no
    connection is queued twice. *)
Record heap_inv (max : Z) h : Prop := {
  hi_addr q s : idle_in h q s → s.1 = q.1;
  hi_nodup q items : h !! q = Some items → NoDup items;
  hi_bound q items : h !! q = Some items → (0 < max → Z.of_nat (length items) ≤ max)%Z;
  hi_excl q1 q2 s : idle_in h q1 s → idle_in h q2 s → q1 = q2;
}.

Record pool_inv (max : Z) (held : holding) p : Prop := {
  pi_heap : heap_inv max (p_heap p);
  (* idle connections are open *)
  pi_idle_open q s : idle_in (p_heap p) q s → is_open p s;
  (* the queue in the table under an address is one of that address *)
  pi_table a q : dict_get (p_queues p) a = Some q → q.1 = a ∧ is_Some (p_heap p !! q);
  pi_table_wf : dict_wf (p_queues p);
  (* a held connection is not idle; an open one is idle or held *)
  pi_held s b : (s, b) ∈ held → ∃ c, p_conns p !! s = Some c ∧ c_open c = b;
  pi_held_idle q s b : (s, b) ∈ held → ¬ idle_in (p_heap p) q s;
  pi_owned s : is_open p s → (s, true) ∈ held ∨ ∃ q, idle_in (p_heap p) q s;
  (* numbers not yet used *)
  pi_fresh_conn s : is_Some (p_conns p !! s) → s.2 < p_next p;
  pi_fresh_queue q : is_Some (p_heap p !! q) → q.2 < p_next p;
}.

(** ** Queues *)

Lemma idle_insert h q items q' s :
  idle_in (<[q := items]> h) q' s ↔ (q' = q ∧ s ∈ items) ∨ (q' ≠ q ∧ idle_in h q' s).
Proof.
  unfold idle_in. destruct (decide (q' = q)) as [->|Hne].
  - setoid_rewrite lookup_insert_eq. naive_solver.
  - setoid_rewrite lookup_insert_ne; naive_solver.
Qed.

Lemma idle_lookup h q items s : h !! q = Some items → idle_in h q s ↔ s ∈ items.
Proof. unfold idle_in. naive_solver. Qed.

Lemma idle_pop max h q s items :
  heap_inv max h → h !! q = Some (s :: items) →
  ∀ q' s', idle_in (<[q := items]> h) q' s' ↔ idle_in h q' s' ∧ s' ≠ s.
Proof.
  intros Hh Hq q' s'. rewrite idle_insert.
  pose proof (hi_nodup _ _ Hh _ _ Hq) as [Hs _]%NoDup_cons.
  assert (idle_in h q s) as Hqs by (rewrite idle_lookup by done; set_solver).
  split.
  - intros [[-> Hin]|[Hne Hi]].
    + rewrite idle_lookup by done. set_solver.
    + split; [done|]. intros ->. apply Hne. by eapply hi_excl.
  - intros [Hi Hne]. destruct (decide (q' = q)) as [->|]; [|by right].
    left. rewrite idle_lookup in Hi by done. set_solver.
Qed.

Lemma heap_inv_pop max h q s items :
  heap_inv max h → h !! q = Some (s :: items) → heap_inv max (<[q := items]> h).
Proof.
  intros Hh Hq. pose proof (idle_pop _ _ _ _ _ Hh Hq) as Hidle. split.
  - intros q' s' [? _]%Hidle. by apply (hi_addr _ _ Hh).
  - intros q' items' [[<- <-]|[_ H']]%lookup_insert_Some; [|by eapply hi_nodup].
    by pose proof (hi_nodup _ _ Hh _ _ Hq) as [_ ?]%NoDup_cons.
  - intros q' items' [[<- <-]|[_ H']]%lookup_insert_Some Hm; [|by eapply hi_bound].
    pose proof (hi_bound _ _ Hh _ _ Hq Hm) as Hb. simpl in Hb. lia.
  - intros q1 q2 s' [? _]%Hidle [? _]%Hidle. by eapply (hi_excl _ _ Hh).
Qed.

Lemma idle_push h q s items :
  h !! q = Some items →
  ∀ q' s', idle_in (<[q := s :: items]> h) q' s' ↔ idle_in h q' s' ∨ (q' = q ∧ s' = s).
Proof.
  intros Hq q' s'. rewrite idle_insert. destruct (decide (q' = q)) as [->|].
  - rewrite (idle_lookup _ _ _ _ Hq). set_solver.
  - naive_solver.
Qed.

Lemma heap_inv_push max h q s items :
  heap_inv max h → h !! q = Some items → s.1 = q.1 → (∀ q', ¬ idle_in h q' s) →
  ((0 < max → Z.of_nat (length items) < max)%Z) →
  heap_inv max (<[q := s :: items]> h).
Proof.
  intros Hh Hq Ha Hs Hb. pose proof (idle_push _ _ s _ Hq) as Hidle. split.
  - intros q' s' [?|[-> ->]]%Hidle; [by apply (hi_addr _ _ Hh)|done].
  - intros q' items' [[<- <-]|[_ H']]%lookup_insert_Some; [|by eapply hi_nodup].
    apply NoDup_cons. split; [|by eapply hi_nodup]. intros Hin. apply (Hs q). by exists items.
  - intros q' items' [[<- <-]|[_ H']]%lookup_insert_Some Hm; [|by eapply hi_bound].
    specialize (Hb Hm). simpl. lia.
  - intros q1 q2 s' [H1|[H1 H1']]%Hidle [H2|[H2 H2']]%Hidle; subst; try done;
      [by eapply (hi_excl _ _ Hh)|by apply Hs in H1|by apply Hs in H2].
Qed.

Lemma idle_new_queue h q :
  h !! q = None → ∀ q' s', idle_in (<[q := []]> h) q' s' ↔ idle_in h q' s'.
Proof.
  intros Hq q' s'. rewrite idle_insert. destruct (decide (q' = q)) as [->|]; [|naive_solver].
  unfold idle_in. rewrite Hq. set_solver.
Qed.

Lemma heap_inv_new_queue max h q :
  heap_inv max h → h !! q = None → heap_inv max (<[q := []]> h).
Proof.
  intros Hh Hq. pose proof (idle_new_queue _ _ Hq) as Hidle. split.
  - intros q' s' ?%Hidle. by apply (hi_addr _ _ Hh).
  - intros q' items' [[<- <-]|[_ H']]%lookup_insert_Some; [constructor|by eapply hi_nodup].
  - intros q' items' [[<- <-]|[_ H']]%lookup_insert_Some Hm; [simpl; lia|by eapply hi_bound].
  - intros q1 q2 s' ?%Hidle ?%Hidle. by eapply (hi_excl _ _ Hh).
Qed.

(** The connection is untouched. *)
Definition same_conn (x : ref * bool) (p p' : pool) : Prop :=
  p_conns p' !! x.1 = p_conns p !! x.1.

#[export] Instance same_conn_unchanged : Unchanged same_conn.
Proof. unfold same_conn. split; [by intros x p|]. intros x p1 p2 p3. congruence. Qed.

(** Nothing that is open is held. *)
Definition closed_only (held : holding) : Prop := ∀ s, (s, true) ∉ held.

Lemma closed_only_empty : closed_only ∅.
Proof. intros s. set_solver. Qed.
Lemma closed_only_false s : closed_only {[(s, false)]}.
Proof. intros s' [= ?]%elem_of_singleton. Qed.
#[export] Hint Resolve closed_only_empty closed_only_false : dls.

Section actions.
Context (max : Z).
Abbreviation wpp := (wp (pool_inv max) same_conn).
Implicit Types (held others : holding).

Lemma pool_inv_drop held others p :
  closed_only held → pool_inv max (held ∪ others) p → pool_inv max others p.
Proof.
  intros Hc []. split; try done.
  - intros s b Hin. apply pi_held0. set_solver.
  - intros q s b Hin. apply (pi_held_idle0 q s b). set_solver.
  - intros s Ho. destruct (pi_owned0 s Ho) as [[Hin|?]%elem_of_union|?]; [by apply Hc in Hin|eauto..].
Qed.

(** Closed connections may be forgotten before an action. *)
Lemma wp_drop {X} held (m : M pool X) Q :
  closed_only held → wpp ∅ (act m) Q → wpp held (act m) Q.
Proof.
  intros Hc Hwp others p Hd Hinv. destruct (Hwp others p) as (hd & ? & ? & ? & ?).
  - set_solver.
  - rewrite union_empty_l_L. by eapply pool_inv_drop.
  - by exists hd.
Qed.

(** Changing a connection that is held. *)
Lemma pool_inv_conn s b c b' others p :
  (s, b) ∉ others → pool_inv max ({[(s, b)]} ∪ others) p → c_open c = b' →
  (b' = true → b = true) →
  {[(s, b')]} ## others ∧
  pool_inv max ({[(s, b')]} ∪ others) (set_conns (<[s := c]> (p_conns p)) p) ∧
  ∀ x, x ∈ others → same_conn x p (set_conns (<[s := c]> (p_conns p)) p).
Proof.
  intros Hni [] Hc Hb.
  destruct (pi_held0 s b) as (c0 & Hc0 & Hb0); [set_solver|].
  assert (∀ s' b'', (s', b'') ∈ others → s' ≠ s) as Hne.
  { intros s' b'' Hin ->. destruct (pi_held0 s b'') as (c1 & Hc1 & Hb1); [set_solver|].
    simplify_eq. done. }
  assert (∀ s', s' ≠ s → <[s := c]> (p_conns p) !! s' = p_conns p !! s') as Hother.
  { intros. by rewrite lookup_insert_ne. }
  split_and!.
  - intros [s' b''] [= -> ->]%elem_of_singleton Hin. by eapply Hne.
  - split; try done.
    + intros q s' Hi. destruct (decide (s' = s)) as [->|Hne'].
      { exfalso. eapply (pi_held_idle0 q s b); [set_solver|done]. }
      unfold is_open. simpl. rewrite Hother by done. by eapply pi_idle_open0.
    + intros s' b'' [[= -> ->]%elem_of_singleton|Hin]%elem_of_union; simpl.
      * exists c. by rewrite lookup_insert_eq.
      * rewrite Hother by (by eapply Hne). apply pi_held0. set_solver.
    + intros q s' b'' [[= -> ->]%elem_of_singleton|Hin]%elem_of_union.
      * eapply (pi_held_idle0 q s b). set_solver.
      * apply (pi_held_idle0 q s' b''). set_solver.
    + intros s' (c' & Hc' & Ho). simpl in Hc'. destruct (decide (s' = s)) as [->|Hne'].
      * rewrite lookup_insert_eq in Hc'. simplify_eq. left. rewrite Ho. set_solver.
      * rewrite Hother in Hc' by done.
        destruct (pi_owned0 s') as [Hin|?]; [by exists c'| |by right]. left. set_solver.
    + intros s' Hs. simpl in *. destruct (decide (s' = s)) as [->|Hne'].
      * apply pi_fresh_conn0. by rewrite Hc0.
      * rewrite Hother in Hs by done. by apply pi_fresh_conn0.
  - intros [s' b''] Hin. unfold same_conn. simpl. apply Hother. by eapply Hne.
Qed.

Lemma wp_conn {X} s b (m : M pool X) (Q : holding → result X → Prop) :
  (∀ p c, p_conns p !! s = Some c → c_open c = b → ∃ c' b',
     (m p).2 = set_conns (<[s := c']> (p_conns p)) p ∧ c_open c' = b' ∧
     (b' = true → b = true) ∧ Q {[(s, b')]} (m p).1) →
  wpp {[(s, b)]} (act m) Q.
Proof.
  intros Hm others p Hd Hinv. destruct (pi_held _ _ _ Hinv s b) as (c & Hc & Ho); [set_solver|].
  destruct (Hm p c Hc Ho) as (c' & b' & -> & Hc' & Hb & HQ).
  destruct (pool_inv_conn s b c' b' others p) as (? & ? & ?); [set_solver|done..|].
  by exists {[(s, b')]}.
Qed.

Lemma wp_on_sock {A} s b (m : M sock A) :
  wpp {[(s, b)]} (act (on_sock s m)) (λ hd r, hd = {[(s, b)]} ∧ (∀ a, r = Ok a → b = true)).
Proof.
  apply wp_conn. intros p c Hc Ho. unfold on_sock. rewrite Hc. destruct (c_open c) eqn:Hoc.
  - destruct (m (c_sock c)) as [r k]. exists (set_sock k c), b. simpl. subst. by split_and!.
  - exists c, b. simpl. split_and!; [|by subst..|done].
    rewrite insert_id by done. by destruct p.
Qed.

Lemma wp_sock_close s b :
  wpp {[(s, b)]} (act (sock_close s))
    (λ hd r, hd = {[(s, false)]} ∧ ∀ e, r = Raise e → e = OSError).
Proof.
  apply wp_conn. intros p c Hc Ho. unfold sock_close. rewrite Hc.
  destruct (c_open c) eqn:Hoc; simpl.
  - exists (closed c), false. destruct (c_close_fails c); split_and!; naive_solver.
  - exists c, false. split_and!; [|done..]. rewrite insert_id by done. by destruct p.
Qed.

Lemma wp_writer_close s b :
  wpp {[(s, b)]} (act (writer_close s)) (λ hd r, hd = {[(s, false)]} ∧ r = Ok tt).
Proof.
  intros others p Hd Hinv. destruct (wp_sock_close s b others p Hd Hinv) as (hd & ? & ? & ? & ? & _).
  exists hd. simpl. destruct (sock_close s p). by split_and!.
Qed.

Lemma wp_is_closing s b :
  wpp {[(s, b)]} (act (is_closing s)) (λ hd r, ∃ lost, r = Ok lost ∧ hd = {[(s, negb lost)]}).
Proof.
  apply wp_conn. intros p c Hc Ho. unfold is_closing. rewrite Hc. simpl.
  eexists _, (b && negb (default false (head (c_checks c)))). simpl. subst.
  split_and!; [done..|by destruct (c_open c)|]. eexists. split; [done|].
  by rewrite negb_orb, negb_involutive.
Qed.

Lemma wp_get_nowait q :
  wpp ∅ (act (get_nowait q)) (λ hd r, match r with
    | Ok s => hd = {[(s, true)]} ∧ s.1 = q.1
    | Raise e => hd = ∅ ∧ e = QueueEmpty end).
Proof.
  intros others p Hd Hinv. rewrite union_empty_l_L in Hinv. unfold get_nowait.
  destruct (p_heap p !! q) as [[|s items]|] eqn:Hq; simpl;
    [exists ∅; rewrite union_empty_l_L; by split_and!| |exists ∅; rewrite union_empty_l_L; by split_and!].
  destruct Hinv. pose proof (idle_pop _ _ _ _ _ pi_heap0 Hq) as Hidle.
  assert (idle_in (p_heap p) q s) as Hs by (exists (s :: items); split; [done|set_solver]).
  exists {[(s, true)]}. split_and!; [| |done|done|by apply (hi_addr _ _ pi_heap0 q s)].
  { intros [s' b] [= -> ->]%elem_of_singleton Hin. by eapply pi_held_idle0. }
  split; simpl.
  - by eapply heap_inv_pop.
  - intros q' s' [? _]%Hidle. by apply (pi_idle_open0 q').
  - intros a q' Ha. destruct (pi_table0 a q' Ha) as [? ?]. split; [done|].
    apply lookup_insert_is_Some. destruct (decide (q = q')); [by left|by right].
  - done.
  - intros s' b [[= -> ->]%elem_of_singleton|Hin]%elem_of_union; [|by apply pi_held0].
    apply (pi_idle_open0 q s Hs).
  - intros q' s' b [[= -> ->]%elem_of_singleton|Hin]%elem_of_union [? ?]%Hidle; [done|].
    by eapply pi_held_idle0.
  - intros s' Ho. destruct (decide (s' = s)) as [->|Hne]; [left; set_solver|].
    destruct (pi_owned0 s' Ho) as [?|[q' Hi]]; [left; set_solver|right].
    exists q'. by apply Hidle.
  - done.
  - intros q'. rewrite lookup_insert_is_Some. intros [<-|[_ ?]]; apply pi_fresh_queue0;
      [by rewrite Hq|done].
Qed.

(** [put_nowait] hands an open connection over to the queue of its peer. *)
Lemma wp_put_nowait q s :
  s.1 = q.1 →
  wpp {[(s, true)]} (act (put_nowait max q s)) (λ held r, match r with
    | Ok _ => held = ∅
    | Raise _ => held = {[(s, true)]} end).
Proof.
  intros Ha others p Hd Hinv. unfold put_nowait.
  destruct (p_heap p !! q) as [items|] eqn:Hq; [|by exists {[(s, true)]}].
  case_bool_decide as Hfull; [by exists {[(s, true)]}|].
  exists ∅. rewrite union_empty_l_L. destruct Hinv.
  pose proof (idle_push _ _ s _ Hq) as Hidle.
  assert (∀ b, (s, b) ∉ others) as Hns.
  { intros b Hin. destruct (pi_held0 s b) as (c & Hc & Hb); [set_solver|].
    destruct (pi_held0 s true) as (c' & Hc' & Hb'); [set_solver|]. simplify_eq.
    rewrite Hb' in *. set_solver. }
  split_and!; [set_solver| |done|done]. split; simpl.
  - eapply heap_inv_push; try done.
    + intros q'. apply (pi_held_idle0 q' s true). set_solver.
    + intros. lia.
  - intros q' s' [?|[-> ->]]%Hidle; [by apply (pi_idle_open0 q')|].
    destruct (pi_held0 s true) as (c & ? & ?); [set_solver|by exists c].
  - intros a q' Ha'. destruct (pi_table0 a q' Ha') as [? ?]. split; [done|].
    apply lookup_insert_is_Some. destruct (decide (q = q')); [by left|by right].
  - done.
  - intros s' b Hin. apply pi_held0. set_solver.
  - intros q' s' b Hin [?|[-> ->]]%Hidle; [|by eapply Hns].
    apply (pi_held_idle0 q' s' b); [set_solver|done].
  - intros s' Ho. destruct (pi_owned0 s' Ho) as [Hin|[q' Hi]]; [|right; exists q'; apply Hidle; by left].
    destruct (decide (s' = s)) as [->|]; [right; exists q; apply Hidle; by right|left; set_solver].
  - done.
  - intros q'. rewrite lookup_insert_is_Some. intros [<-|[_ ?]]; apply pi_fresh_queue0;
      [by rewrite Hq|done].
Qed.

(** A new connection is held by the call that dialled it. *)
Lemma wp_new_connection hst prt :
  wpp ∅ (act (_new_connection hst prt)) (λ held r, match r with
    | Ok s => held = {[(s, true)]} ∧ s.1 = join_address hst prt
    | Raise _ => held = ∅ end).
Proof.
  intros others p Hd Hinv. rewrite union_empty_l_L in Hinv. unfold _new_connection.
  destruct (p_dials p) as [|[c|e] ds]; simpl.
  1, 3: exists ∅; rewrite union_empty_l_L; split_and!; try done; by destruct Hinv.
  set (s := (join_address hst prt, p_next p)). exists {[(s, true)]}. destruct Hinv.
  assert (p_conns p !! s = None) as Hfresh.
  { apply eq_None_not_Some. intros ?%pi_fresh_conn0. simpl in *. lia. }
  assert (∀ s', is_Some (p_conns p !! s') → s' ≠ s) as Hne by (intros s' [? ?] ->; congruence).
  assert (∀ s' b, (s', b) ∈ others → s' ≠ s) as Hnh.
  { intros s' b (c' & ? & _)%pi_held0. apply Hne. by eexists. }
  assert (∀ q' s', idle_in (p_heap p) q' s' → s' ≠ s) as Hni.
  { intros q' s' (c' & ? & _)%pi_idle_open0. apply Hne. by eexists. }
  split_and!; [| | |done|done].
  { intros [s' b] [= -> ->]%elem_of_singleton Hin. by eapply Hnh. }
  2: { intros [s' b] Hin. unfold same_conn. simpl. rewrite lookup_insert_ne; [done|].
       by eapply not_eq_sym, Hnh. }
  split; simpl; try done.
  - intros q' s' Hi. unfold is_open. simpl.
    rewrite lookup_insert_ne by (by eapply not_eq_sym, Hni). by eapply pi_idle_open0.
  - intros s' b [[= -> ->]%elem_of_singleton|Hin]%elem_of_union.
    + rewrite lookup_insert_eq. by eexists.
    + rewrite lookup_insert_ne by (by eapply not_eq_sym, Hnh). by apply pi_held0.
  - intros q' s' b [[= -> ->]%elem_of_singleton|Hin]%elem_of_union Hi; [by eapply Hni|].
    by eapply pi_held_idle0.
  - intros s' (c' & Hc' & Ho). simpl in Hc'. destruct (decide (s' = s)) as [->|Hns]; [left; set_solver|].
    rewrite lookup_insert_ne in Hc' by done.
    destruct (pi_owned0 s') as [?|?]; [by exists c'|left; set_solver|by right].
  - intros s'. rewrite lookup_insert_is_Some. intros [<-|[_ ?%pi_fresh_conn0]]; simpl; lia.
  - intros q' ?%pi_fresh_queue0. lia.
Qed.

(** The table. *)
Lemma wp_lookup_queue held a :
  wpp held (act (lookup_queue a)) (λ held' r, held' = held ∧ ∃ o, r = Ok o ∧ ∀ q, o = Some q → q.1 = a).
Proof.
  intros others p Hd Hinv. exists held. split_and!; [done..|]. split; [done|].
  eexists. split; [done|]. intros q Hq. by apply (pi_table _ _ _ Hinv).
Qed.

Lemma wp_create_queue a :
  wpp ∅ (act (create_queue a)) (λ held r, held = ∅ ∧ ∃ q, r = Ok q ∧ q.1 = a).
Proof.
  intros others p Hd Hinv. exists ∅. rewrite union_empty_l_L in *. destruct Hinv.
  assert (p_heap p !! (a, p_next p) = None) as Hfresh.
  { apply eq_None_not_Some. intros ?%pi_fresh_queue0. simpl in *. lia. }
  pose proof (idle_new_queue _ _ Hfresh) as Hidle.
  split_and!; [done| |done|by split; [|eexists]]. split; simpl.
  - by apply heap_inv_new_queue.
  - intros q s ?%Hidle. by eapply pi_idle_open0.
  - intros a' q. rewrite dict_get_lookup, dict_set_lookup, lookup_insert_Some.
    rewrite <- dict_get_lookup, lookup_insert_is_Some. intros [[<- <-]|[? Hq]]; [by split; [|left]|].
    destruct (pi_table0 _ _ Hq) as [? ?]. split; [done|].
    destruct (decide ((a, p_next p) = q)); [by left|by right].
  - by apply dict_set_wf.
  - done.
  - intros q s b Hin ?%Hidle. by eapply pi_held_idle0.
  - intros s Ho. destruct (pi_owned0 s Ho) as [?|[q ?]]; [by left|right; exists q; by apply Hidle].
  - intros s ?%pi_fresh_conn0. lia.
  - intros q. rewrite lookup_insert_is_Some. intros [<-|[_ ?%pi_fresh_queue0]]; simpl; lia.
Qed.

Lemma wp_pop_queue a :
  wpp ∅ (act (pop_queue a)) (λ held r, held = ∅ ∧ ∃ o, r = Ok o ∧ ∀ q, o = Some q → q.1 = a).
Proof.
  intros others p Hd Hinv. exists ∅. rewrite union_empty_l_L in *.
  split_and!; [done| |done|split; [done|]].
  - destruct Hinv. split; simpl; try done.
    + intros a' q. rewrite dict_get_lookup, dict_remove_lookup, lookup_delete_Some by done.
      rewrite <- dict_get_lookup. intros [_ ?]. by apply pi_table0.
    + by apply dict_remove_wf.
  - eexists. split; [done|]. intros q Hq. by apply (pi_table _ _ _ Hinv).
Qed.

Lemma wp_try_get q :
  wpp ∅ (act (try_get q)) (λ held r, ∃ o, r = Ok o ∧ match o with
    | Some s => held = {[(s, true)]} ∧ s.1 = q.1
    | None => held = ∅ end).
Proof.
  wp_atomic. wp_atomic.
  eapply wp_mono; [apply wp_get_nowait|]. intros held [s|e] Hq.
  - wp_atomic. by exists (Some s).
  - destruct Hq as [-> ->]. wp_atomic. by exists None.
Qed.
End actions.

(** ** The calls of the synchronous pool *)
Section sync_calls.
Context `{Pickle} (max : Z).
Abbreviation wpp := (wp (pool_inv max) same_conn).
Implicit Types (held : holding) (hst : string) (prt : Z) (msg : Message).

(** Split a sequence and continue with the outcomes of its first part. *)
Ltac wp_step lem :=
  first [apply wp_bind | apply wp_try | idtac];
  eapply wp_mono; [apply lem; eauto with dls|]; cbn beta.

(** Another thread may drop the queue just created. *)
Lemma wp_queue a :
  wpp ∅ (_queue a) (λ held r, held = ∅ ∧ (r = Raise KeyError ∨ ∃ q, r = Ok q ∧ q.1 = a)).
Proof.
  wp_step wp_lookup_queue. intros held r (-> & o & -> & Ho). destruct o as [q|].
  { split; [done|]. right. exists q. auto. }
  apply wp_bind. apply (wp_mono _ _ _ _ (λ held r, held = ∅ ∧ r = Ok tt)).
  { wp_atomic. wp_step wp_lookup_queue. intros held r (-> & o & -> & _). destruct o as [q|]; [by wp_atomic|].
    wp_atomic. wp_step wp_create_queue. intros held r (-> & q & -> & _). by wp_atomic. }
  intros held r [-> ->] others p Hd Hinv. exists ∅. split; [done|]. split; [done|]. split; [done|].
  split; [done|]. unfold queue_item. simpl. destruct (dict_get (p_queues p) a) as [q|] eqn:Hq; [|by left].
  right. exists q. split; [done|]. by apply (pi_table _ _ _ Hinv).
Qed.

Lemma wp_close_quietly s b :
  wpp {[(s, b)]} (close_quietly s) (λ held r, closed_only held ∧ r = Ok tt).
Proof.
  wp_step wp_sock_close. intros held [[]|e] [-> _]; simpl; auto with dls.
Qed.

Lemma wp_exchange q s msg :
  s.1 = q.1 →
  wpp {[(s, true)]} (exchange max q s msg) (λ held r, match r with
    | Ok _ => closed_only held
    | Raise _ => ∃ b, held = {[(s, b)]} end).
Proof.
  intros Ha. wp_step wp_on_sock. intros held [[]|e] [-> _]; [|by eexists].
  wp_step wp_on_sock. intros held [response|e] [-> _]; [|by eexists].
  apply wp_bind, wp_try. eapply wp_mono; [by apply wp_put_nowait|].
  intros held [[]|e] ->; [simpl; auto with dls|].
  destruct e; try (by eexists). wp_step wp_sock_close.
  intros held [[]|e] [-> _]; [simpl; auto with dls|by eexists].
Qed.

Lemma wp_dial held hst prt :
  closed_only held →
  wpp held (dial hst prt) (λ held' r, ∃ o, r = Ok o ∧ match o with
    | Some s => held' = {[(s, true)]} ∧ s.1 = join_address hst prt
    | None => closed_only held' end).
Proof.
  intros Hc. apply wp_try, wp_bind, wp_drop; [done|].
  eapply wp_mono; [apply wp_new_connection|]. intros held' [s|e]; simpl.
  - intros [-> Hs]. by exists (Some s).
  - intros ->. exists None. auto with dls.
Qed.

Lemma wp_attempt q s msg (k : exn → prog pool (option Message)) :
  s.1 = q.1 →
  (∀ e b, wpp {[(s, b)]} (k e) (λ held r, closed_only held ∧ ∃ o, r = Ok o)) →
  wpp {[(s, true)]} (prog_try (response ← exchange max q s msg; mret (Some response)) k)
    (λ held r, closed_only held ∧ ∃ o, r = Ok o).
Proof.
  intros Hs Hk. apply wp_try, wp_bind. eapply wp_mono; [by apply wp_exchange|].
  intros held [response|e]; simpl; [by eauto|]. intros [b ->]. apply Hk.
Qed.

Lemma wp_execute_on q hst prt msg :
  q.1 = join_address hst prt →
  wpp ∅ (execute_on max q hst prt msg) (λ held r, closed_only held ∧ ∃ o, r = Ok o).
Proof.
  intros Hq. wp_step wp_try_get. intros held r (idle & -> & Hidle).
  apply wp_bind, (wp_mono _ _ _ _ (λ held' r, ∃ o, r = Ok o ∧ match o with
    | Some s => held' = {[(s, true)]} ∧ s.1 = q.1
    | None => closed_only held' end)).
  { destruct idle as [s|]; [by exists (Some s)|]. rewrite Hidle, Hq. apply wp_dial. auto with dls. }
  intros held' r ([s|] & -> & Hs); [|by split; eauto]. destruct Hs as [-> Hs].
  apply wp_attempt; [done..|]. intros _ b. wp_step wp_close_quietly.
  intros held1 r [Hc ->]. case_match; [|by split; eauto]. wp_step wp_dial.
  intros held2 r (o & -> & Ho). destruct o as [s'|]; [|by split; eauto]. destruct Ho as [-> Hs'].
  apply wp_attempt; [by rewrite Hs', Hq|]. intros _ b'. wp_step wp_close_quietly.
  intros held3 r [Hc' ->]. by split; eauto.
Qed.

Lemma wp_execute hst prt msg :
  wpp ∅ (execute max hst prt msg)
    (λ held r, closed_only held ∧ (r = Raise KeyError ∨ ∃ o, r = Ok o)).
Proof.
  wp_step wp_queue. intros held r (-> & [->|(q & -> & Hq)]); [split; auto with dls|].
  eapply wp_mono; [by apply wp_execute_on|]. intros held r [? ?]. auto.
Qed.

Lemma wp_drain held fuel q :
  closed_only held → wpp held (drain fuel q) (λ held r, closed_only held ∧ r = Ok tt).
Proof.
  revert held. induction fuel as [|fuel IH]; intros held Hc; [done|].
  apply wp_bind, wp_try, wp_bind, wp_drop; [done|].
  eapply wp_mono; [apply wp_get_nowait|]. intros held' [s|e]; cbn beta iota.
  - intros [-> _]. apply wp_bind. eapply wp_mono; [apply wp_sock_close|].
    intros held' [[]|e] [-> He]; [apply IH; auto with dls|].
    rewrite (He e) by done. split; auto with dls.
  - intros [-> ->]. split; auto with dls.
Qed.

Lemma wp_close_peer fuel hst prt :
  wpp ∅ (close_peer fuel hst prt) (λ held r, closed_only held ∧ r = Ok tt).
Proof.
  wp_step wp_pop_queue. intros held r (-> & [q|] & -> & Hq); [|split; auto with dls].
  apply wp_drain. auto with dls.
Qed.

Lemma wp_next_queue held size from :
  wpp held (act (next_queue size from)) (λ held' r, held' = held ∧ (r = Raise RuntimeError ∨ ∃ o, r = Ok o)).
Proof.
  intros others p Hd Hinv. exists held. split; [done|]. split; [done|]. split; [done|]. split; [done|].
  unfold next_queue. case_decide; [right|by left]. by eexists.
Qed.

Lemma wp_drain_all held rounds fuel size from :
  closed_only held →
  wpp held (drain_all rounds fuel size from)
    (λ held r, closed_only held ∧ (r = Raise RuntimeError ∨ r = Ok tt)).
Proof.
  revert held from. induction rounds as [|rounds IH]; intros held from Hc; [by split; [|right]|].
  wp_step wp_next_queue. intros held' r (-> & [->|[[q|] ->]]); [by split; [|left]| |by split; [|right]].
  wp_step wp_drain. intros held' r [Hc' ->]. by apply IH.
Qed.

Lemma wp_clear_queues :
  wpp ∅ (act (modify (set_queues []))) (λ held r, closed_only held ∧ r = Ok tt).
Proof.
  intros others p Hd Hinv. exists ∅. split_and!; [done| |done|split; auto with dls].
  destruct Hinv. split; simpl; try done. constructor.
Qed.

Lemma wp_close_all rounds fuel :
  wpp ∅ (close_all rounds fuel)
    (λ held r, closed_only held ∧ (r = Raise RuntimeError ∨ r = Ok tt)).
Proof.
  unfold close_all. apply wp_bind, (wp_mono _ _ _ _ (λ held r, held = ∅ ∧ ∃ n, r = Ok n)).
  { intros others p Hd Hinv. exists ∅. split; [done|]. split; [done|]. split; [done|]. split; [done|].
    by eexists. }
  intros held r [-> [n ->]]. wp_step wp_drain_all. intros held r [Hc [->| ->]]; [by split; [|left]|].
  apply wp_drop; [done|]. eapply wp_mono; [apply wp_clear_queues|]. intros held' r [? ->]. auto.
Qed.
End sync_calls.

(** ** The calls of the asynchronous pool *)
Section async_calls.
Context `{Pickle} (max : Z).
Abbreviation wpp := (wp (pool_inv max) same_conn).
Implicit Types (held : holding) (hst : string) (prt : Z) (msg : Message).

Lemma wp_queue_async a : wpp ∅ (act (_queue_async a)) (λ held r, held = ∅ ∧ ∃ q, r = Ok q ∧ q.1 = a).
Proof.
  wp_atomic. eapply wp_mono; [apply wp_lookup_queue|].
  intros held r (-> & o & -> & Ho). destruct o as [q|]; [|apply wp_create_queue].
  wp_atomic. split; [done|]. exists q. auto.
Qed.

Lemma wp_checkout held fuel q :
  closed_only held →
  wpp held (act (checkout fuel q)) (λ held' r, ∃ o, r = Ok o ∧ match o with
    | Some s => held' = {[(s, true)]} ∧ s.1 = q.1
    | None => closed_only held' end).
Proof.
  revert held. induction fuel as [|fuel IH]; intros held Hc.
  { simpl checkout. wp_atomic. by exists None. }
  simpl checkout. apply wp_drop; [done|]. wp_atomic. eapply wp_mono; [apply wp_try_get|].
  intros held' r ([s|] & -> & Hs); cbn beta iota.
  2: { wp_atomic. exists None. subst. auto with dls. }
  destruct Hs as [-> Hs]. wp_atomic. eapply wp_mono; [apply wp_is_closing|].
  intros held' r ([] & -> & ->); cbn beta iota.
  - apply IH. auto with dls.
  - wp_atomic. by exists (Some s).
Qed.

Lemma wp_checkout_queue held q :
  closed_only held →
  wpp held (act (checkout_queue q)) (λ held' r, ∃ o, r = Ok o ∧ match o with
    | Some s => held' = {[(s, true)]} ∧ s.1 = q.1
    | None => closed_only held' end).
Proof. intros Hc others p. by apply wp_checkout. Qed.

Lemma wp_checkout_async a :
  wpp ∅ (act (checkout_async a)) (λ held r, ∃ q o, r = Ok (q, o) ∧ q.1 = a ∧ match o with
    | Some s => held = {[(s, true)]} ∧ s.1 = q.1
    | None => closed_only held end).
Proof.
  unfold checkout_async. wp_atomic. eapply wp_mono; [apply wp_queue_async|].
  intros held r (-> & q & -> & Hq); cbn beta iota. wp_atomic.
  eapply wp_mono; [apply wp_checkout_queue; auto with dls|].
  intros held r (o & -> & Ho); cbn beta iota. wp_atomic. eauto.
Qed.

Lemma wp_release_async q s b :
  s.1 = q.1 →
  wpp {[(s, true)]} (act (release_async max q s)) (λ held r, match r with
    | Ok _ => closed_only held
    | Raise _ => ∃ b, held = {[(s, b)]} end).
Proof.
  intros Ha. unfold release_async. wp_atomic. eapply wp_mono; [apply wp_is_closing|].
  intros held r ([] & -> & ->); cbn beta iota.
  { wp_atomic. auto with dls. }
  wp_atomic. eapply wp_mono; [by apply wp_put_nowait|].
  intros held [[]|e] ->; [auto with dls|].
  destruct e; try by (intros others p Hd Hinv; eexists; split_and!; eauto; by eexists).
  eapply wp_mono; [apply wp_writer_close|]. intros held r [-> ->]. auto with dls.
Qed.

Lemma wp_exchange_async q s msg :
  s.1 = q.1 →
  wpp {[(s, true)]} (exchange_async max q s msg) (λ held r, match r with
    | Ok _ => closed_only held
    | Raise _ => ∃ b, held = {[(s, b)]} end).
Proof.
  intros Ha. apply wp_bind. eapply wp_mono; [apply wp_on_sock|].
  intros held [[]|e] [-> _]; [|by eexists].
  apply wp_bind. eapply wp_mono; [apply wp_on_sock|].
  intros held [response|e] [-> _]; [|by eexists].
  apply wp_bind. eapply wp_mono; [by apply (wp_release_async _ _ true)|].
  by intros held [[]|e].
Qed.

Lemma wp_attempt_async q s msg (k : exn → prog pool (option Message)) :
  s.1 = q.1 →
  (∀ e b, wpp {[(s, b)]} (k e) (λ held r, closed_only held ∧ ∃ o, r = Ok o)) →
  wpp {[(s, true)]} (prog_try (response ← exchange_async max q s msg; mret (Some response)) k)
    (λ held r, closed_only held ∧ ∃ o, r = Ok o).
Proof.
  intros Hs Hk. apply wp_try, wp_bind. eapply wp_mono; [by apply wp_exchange_async|].
  intros held [response|e]; simpl; [by eauto|]. intros [b ->]. apply Hk.
Qed.

Lemma wp_close_then held s b (p : prog pool (option Message)) :
  (∀ held', closed_only held' → wpp held' p (λ held r, closed_only held ∧ ∃ o, r = Ok o)) →
  held = {[(s, b)]} →
  wpp held (act (writer_close s) ;; p) (λ held r, closed_only held ∧ ∃ o, r = Ok o).
Proof.
  intros Hp ->. apply wp_bind. eapply wp_mono; [apply wp_writer_close|].
  intros held' r [-> ->]. apply Hp. auto with dls.
Qed.

Lemma wp_execute_async hst prt msg :
  wpp ∅ (execute_async max hst prt msg) (λ held r, closed_only held ∧ ∃ o, r = Ok o).
Proof.
  apply wp_bind. eapply wp_mono; [apply wp_checkout_async|].
  intros held r (q & idle & -> & Hq & Hidle).
  apply wp_bind, (wp_mono _ _ _ _ (λ held' r, ∃ o, r = Ok o ∧ match o with
    | Some s => held' = {[(s, true)]} ∧ s.1 = q.1
    | None => closed_only held' end)).
  { destruct idle as [s|]; [by exists (Some s)|]. rewrite Hq. by apply wp_dial. }
  intros held' r ([s|] & -> & Hs); [|by split; eauto]. destruct Hs as [-> Hs].
  apply wp_attempt_async; [done..|]. intros _ b. eapply wp_close_then; [|done].
  intros held1 Hc. case_match; [|by split; eauto].
  apply wp_bind. eapply wp_mono; [by apply wp_dial|].
  intros held2 r (o & -> & Ho). destruct o as [s'|]; [|by split; eauto]. destruct Ho as [-> Hs'].
  apply wp_attempt_async; [by rewrite Hs', Hq|]. intros _ b'. eapply wp_close_then; [|done].
  intros held3 Hc'. by split; eauto.
Qed.

Lemma wp_drain_queue_async held q :
  closed_only held →
  wpp held (act (drain_queue_async q)) (λ held r, closed_only held ∧ r = Ok tt).
Proof.
  assert (∀ fuel held, closed_only held →
    wpp held (act (drain_async fuel q)) (λ held r, closed_only held ∧ r = Ok tt)) as Hdrain.
  { clear held. induction fuel as [|fuel IH]; intros held Hc; simpl drain_async; [by wp_atomic|].
    apply wp_drop; [done|]. wp_atomic. eapply wp_mono; [apply wp_try_get|].
    intros held' r ([s|] & -> & Hs); cbn beta iota; [|wp_atomic; subst; split; auto with dls].
    destruct Hs as [-> _]. wp_atomic. eapply wp_mono; [apply wp_writer_close|].
    intros held' r [-> ->]. apply IH. auto with dls. }
  intros Hc others p. exact (Hdrain _ held Hc others p).
Qed.

Lemma wp_close_peer_async hst prt :
  wpp ∅ (act (close_peer_async hst prt)) (λ held r, closed_only held ∧ r = Ok tt).
Proof.
  unfold close_peer_async. wp_atomic. eapply wp_mono; [apply wp_pop_queue|].
  intros held r (-> & [q|] & -> & Hq); cbn beta iota.
  - apply wp_drain_queue_async. auto with dls.
  - wp_atomic. split; auto with dls.
Qed.

Lemma wp_close_all_async :
  wpp ∅ (act close_all_async) (λ held r, closed_only held ∧ r = Ok tt).
Proof.
  assert (∀ qs held, closed_only held →
    wpp held (act (for_each qs drain_queue_async)) (λ held r, closed_only held ∧ r = Ok tt)) as Hall.
  { induction qs as [|q qs IH]; intros held Hc; simpl for_each; [by wp_atomic|].
    wp_atomic. eapply wp_mono; [by apply wp_drain_queue_async|]. intros held' r [Hc' ->].
    by apply IH. }
  unfold close_all_async. intros others p Hd Hinv.
  cut (wpp ∅ (act (for_each (p_queues p).*2 drain_queue_async ;; modify (set_queues [])))
    (λ held r, closed_only held ∧ r = Ok tt)).
  { intros Hwp. exact (Hwp others p Hd Hinv). }
  wp_atomic. eapply wp_mono; [apply Hall; auto with dls|]. intros held r [Hc ->].
  apply wp_drop; [done|]. apply wp_clear_queues.
Qed.
End async_calls.

(** ** Concurrent calls *)

(** The calls of a pool's users. *)
Inductive call :=
  | Execute (hst : string) (prt : Z) (msg : Message)
  | ClosePeer (fuel : nat) (hst : string) (prt : Z)
  | CloseAll (rounds fuel : nat).

Definition call_prog `{Pickle} (max : Z) (c : call) : prog pool (option Message) :=
  match c with
  | Execute hst prt msg => execute max hst prt msg
  | ClosePeer fuel hst prt => close_peer fuel hst prt ;; mret None
  | CloseAll rounds fuel => close_all rounds fuel ;; mret None
  end.

Definition call_prog_async `{Pickle} (max : Z) (c : call) : prog pool (option Message) :=
  match c with
  | Execute hst prt msg => execute_async max hst prt msg
  | ClosePeer _ hst prt => act (close_peer_async hst prt) ;; mret None
  | CloseAll _ _ => act close_all_async ;; mret None
  end.

(** What a call may raise when it runs among others: [execute] when the queue it
    has just created is dropped before it looks it up, [close_all] when queues come
    or go while it iterates. *)
Definition may_raise (c : call) : option exn :=
  match c with
  | Execute _ _ _ => Some KeyError
  | ClosePeer _ _ _ => None
  | CloseAll _ _ => Some RuntimeError
  end.

(** Call [i] has returned, or raised what [raises] allows it. *)
Definition ended {X : Type} (raises : nat → option exn) (i : nat) (held : holding) (r : result X) : Prop :=
  closed_only held ∧ match r with Ok _ => True | Raise e => raises i = Some e end.

(** A moment of a concurrent execution, [helds] being what each call holds: no
    connection is held twice, the invariant holds, a finished call holds nothing open
    and has raised nothing but what it may, and the next action of any call does not
    touch a connection another call holds. *)
Record shares (max : Z) (raises : nat → option exn) (helds : list holding)
    (st : list (prog pool (option Message)) * pool) : Prop := {
  sh_each : length helds = length st.1;
  sh_once i j x1 x2 : i ≠ j → helds !! i = Some x1 → helds !! j = Some x2 → x1 ## x2;
  sh_inv : pool_inv max (⋃ helds) st.2;
  sh_done i held r : helds !! i = Some held → st.1 !! i = Some (Ret r) → ended raises i held r;
  sh_alone i j held s b : i ≠ j → helds !! j = Some held → (s, b) ∈ held →
    p_conns (thread_step st i).2 !! s = p_conns st.2 !! s;
}.

Lemma interleave_shares max raises (ts : list (prog pool (option Message))) order p :
  (∀ i t, ts !! i = Some t → wp (pool_inv max) same_conn ∅ t (ended raises i)) →
  pool_inv max ∅ p →
  ∃ helds, shares max raises helds (interleave order (ts, p)).
Proof.
  intros Hts Hp.
  destruct (interleave_safe (pool_inv max) same_conn (ended raises) _ order _
    (safe_start _ _ _ _ _ Hts Hp)) as [helds Hsafe].
  exists helds. pose proof Hsafe as ((Hlen & Hwp) & Hdisj & Hinv). split; try done.
  - intros i held r Hh Ht. exact (Hwp i held _ Hh Ht).
  - intros i j held s b Hne Hh Hs.
    by apply (proj1 (thread_step_safe _ _ _ _ _ i Hsafe) j held (s, b)).
Qed.

(** When every call has returned, nothing is held any more. *)
Lemma shares_finished max raises helds st :
  shares max raises helds st → (∀ t, t ∈ st.1 → finished t = true) → pool_inv max ∅ st.2.
Proof.
  intros [] Hf. apply (pool_inv_drop max (⋃ helds)); [|by rewrite union_empty_r_L].
  intros s (held & Hin & Hs)%elem_of_union_list.
  apply list_elem_of_lookup in Hin as [i Hi].
  destruct (lookup_lt_is_Some_2 st.1 i) as [t Ht].
  { rewrite <- sh_each0. by eapply lookup_lt_Some. }
  specialize (Hf t ltac:(by eapply list_elem_of_lookup_2)). destruct t as [r|]; [|done].
  destruct (sh_done0 i held r Hi Ht) as [Hc _]. by eapply Hc.
Qed.

Lemma wp_call `{Pickle} max c :
  wp (pool_inv max) same_conn ∅ (call_prog max c)
    (λ held r, closed_only held ∧ match r with Ok _ => True | Raise e => may_raise c = Some e end).
Proof.
  destruct c as [hst prt msg|fuel hst prt|rounds fuel]; cbn [call_prog].
  - eapply wp_mono; [apply wp_execute|]. by intros held r [? [->|[o ->]]].
  - apply wp_bind. eapply wp_mono; [apply wp_close_peer|]. by intros held r [? ->].
  - apply wp_bind. eapply wp_mono; [apply wp_close_all|]. by intros held r [? [->| ->]].
Qed.

Lemma wp_call_async `{Pickle} max c :
  wp (pool_inv max) same_conn ∅ (call_prog_async max c)
    (λ held r, closed_only held ∧ ∃ o, r = Ok o).
Proof.
  destruct c as [hst prt msg|fuel hst prt|rounds fuel]; cbn [call_prog_async];
    [apply wp_execute_async|..]; apply wp_bind;
    (eapply wp_mono; [first [apply wp_close_peer_async|apply wp_close_all_async]|]);
    intros held r [? ->]; split; eauto.
Qed.

(** What call [i] may raise. *)
Definition raises_of (calls : list call) (i : nat) : option exn := calls !! i ≫= may_raise.

(** C11. Threads share the synchronous pool safely: whatever the number of
    concurrent calls of [execute], [close_peer] and [close_all] and however their
    actions interleave, a connection is used by one call at a time, is never idle
    while in use, goes back only to a queue of its own peer, and stays below the
    bound; no call raises, except that [execute] may raise [KeyError] when the queue
    it has just created is dropped and [close_all] may raise [RuntimeError] when queues
    come or go while it iterates; and once all calls have ended every open connection is
    idle in exactly one queue. *)
Theorem pool_shared_safely `{Pickle} max p calls order :
  pool_inv max ∅ p →
  let st := interleave order (call_prog max <$> calls, p) in
  (∃ helds, shares max (raises_of calls) helds st) ∧
  ((∀ t, t ∈ st.1 → finished t = true) → pool_inv max ∅ st.2).
Proof.
  intros Hp st.
  assert (∃ helds, shares max (raises_of calls) helds st) as [helds Hsh].
  { apply interleave_shares; [|done]. intros i t (c & -> & Hc)%list_lookup_fmap_Some.
    unfold ended, raises_of. rewrite Hc. apply wp_call. }
  split; [by exists helds|]. by eapply shares_finished.
Qed.

(** C30. Coroutines share the asynchronous pool safely, in the same sense, for all
    its calls and every interleaving of them at the awaits; none of them raises. *)
Theorem async_pool_shared_safely `{Pickle} max p calls order :
  pool_inv max ∅ p →
  let st := interleave order (call_prog_async max <$> calls, p) in
  (∃ helds, shares max (λ _, None) helds st) ∧
  ((∀ t, t ∈ st.1 → finished t = true) → pool_inv max ∅ st.2).
Proof.
  intros Hp st.
  assert (∃ helds, shares max (λ _, None) helds st) as [helds Hsh].
  { apply interleave_shares; [|done]. intros i t (c & -> & Hc)%list_lookup_fmap_Some.
    eapply wp_mono; [apply wp_call_async|]. by intros held r [? [o ->]]. }
  split; [by exists helds|]. by eapply shares_finished.
Qed.

(** ** A sample pool *)

Definition pool_init (dials : list (result conn)) : pool := mkPool [] ∅ ∅ dials 0.

Lemma pool_init_inv max dials : pool_inv max ∅ (pool_init dials).
Proof.
  assert (∀ q s, ¬ idle_in ∅ q s) as Hidle by (by intros q s (? & ? & _)).
  split; simpl.
  - split; [by intros q s ?%Hidle|done..|by intros q1 q2 s ?%Hidle].
  - by intros q s ?%Hidle.
  - done.
  - constructor.
  - set_solver.
  - set_solver.
  - by intros s (? & ? & _).
  - by intros s [? ?].
  - by intros q [? ?].
Qed.

(** A peer that answers one request with [sample_msg]. *)
Definition sample_conn : conn :=
  mkConn (mkSock [Data x00 [x00; x00; x02; x80; x05]] [] None) true false [].

Definition sample_calls : list call :=
  [Execute "10.0.0.2" 7000 sample_msg; ClosePeer 5 "10.0.0.2" 7000; CloseAll 5 5].

Lemma pool_shared_safely_witness :
  let p := pool_init [Ok sample_conn; Raise OSError] in
  let st := interleave [0; 1; 0; 0; 1; 0; 0; 0; 0; 1]
    (call_prog (H := sample_pickle) 16 <$> sample_calls, p) in
  (∃ helds, shares 16 (raises_of sample_calls) helds st) ∧
  ((∀ t, t ∈ st.1 → finished t = true) → pool_inv 16 ∅ st.2).
Proof.
  apply (pool_shared_safely (H := sample_pickle) 16 (pool_init [Ok sample_conn; Raise OSError])).
  apply pool_init_inv.
Defined.

Lemma async_pool_shared_safely_witness :
  let p := pool_init [Ok sample_conn; Raise OSError] in
  let st := interleave [0; 2; 0; 1; 0; 0; 2]
    (call_prog_async (H := sample_pickle) 16 <$> sample_calls, p) in
  (∃ helds, shares 16 (λ _, None) helds st) ∧
  ((∀ t, t ∈ st.1 → finished t = true) → pool_inv 16 ∅ st.2).
Proof.
  apply (async_pool_shared_safely (H := sample_pickle) 16
    (pool_init [Ok sample_conn; Raise OSError])).
  apply pool_init_inv.
Defined.
