(* ===== verification/PoolClose.v ===== *)
(** * Calls overtaken by a close

    [close_peer] and [close_all] drop queues from the table of the synchronous pool without
    the lock, while calls of [execute] may hold them.  What becomes of the connection of
    such a call, in any company, and what else can happen in between. *)
From S2P Require Import Prelude PyBase Bytes PyDict Types Wire Threads Pool PoolShare.

Implicit Types (p : pool) (s : ref).

Section overtaken.
Context `{Pickle} (max : Z) (q : ref).

(** The queue exists and is in the table no more. *)
Definition orphan p : Prop :=
  (q ∉ (p_queues p).*2) ∧ q.2 < p_next p ∧ is_Some (p_heap p !! q).

Definition filled p : Prop := ∃ s items, p_heap p !! q = Some (s :: items).

(** What the steps of thread [i] do to the queue, thread 0 being the call that has it:
    nobody finds it again. *)
Definition guarantee (i : nat) p p' : Prop :=
  orphan p → orphan p' ∧ (i ≠ 0 → p_heap p' !! q = p_heap p !! q).

(** ** Actions that leave the queue alone *)
Definition aside {X} (m : M pool X) : Prop :=
  ∀ p, orphan p → orphan (m p).2 ∧ p_heap (m p).2 !! q = p_heap p !! q.

Lemma aside_same {X} (m : M pool X) :
  (∀ p, p_queues (m p).2 = p_queues p ∧ p_heap (m p).2 = p_heap p ∧ p_next p ≤ p_next (m p).2) → aside m.
Proof.
  intros Hm p (Ht & Hn & Hq). destruct (Hm p) as (Hqs & Hh & Hnx). unfold orphan. rewrite Hqs, Hh.
  split_and!; [done|lia|done..].
Qed.

Lemma aside_on_sock {A} s (m : M sock A) : aside (on_sock s m).
Proof.
  apply aside_same. intros p. unfold on_sock. destruct (p_conns p !! s) as [c|]; [|done].
  destruct (c_open c); [|done]. by destruct (m (c_sock c)).
Qed.

Lemma aside_close s : aside (sock_close s).
Proof. apply aside_same. intros p. unfold sock_close. destruct (p_conns p !! s) as [c|]; [|done]. by destruct (c_open c). Qed.

Lemma aside_dial hst prt : aside (_new_connection hst prt).
Proof. apply aside_same. intros p. unfold _new_connection. destruct (p_dials p) as [|[c|e] ds]; simpl; auto with lia. Qed.

Lemma aside_lookup a : aside (lookup_queue a).
Proof. by apply aside_same. Qed.
Lemma aside_item a : aside (queue_item a).
Proof. by apply aside_same. Qed.
Lemma aside_next size from : aside (next_queue size from).
Proof. by apply aside_same. Qed.

(** Dropping queues, and creating others. *)
Lemma aside_pop a : aside (pop_queue a).
Proof.
  intros p (Ht & Hn & Hq). split; [|done]. split; [|done]. intros Hin. apply Ht. revert Hin.
  apply sublist_subseteq, fmap_sublist, dict_remove_sublist.
Qed.

Lemma aside_clear : aside (modify (set_queues [])).
Proof. intros p (Ht & Hn & Hq). split; [|done]. split; [|done]. by intros ?%elem_of_nil. Qed.

Lemma dict_set_values (d : list (string * ref)) a r x : x ∈ (dict_set d a r).*2 → x = r ∨ x ∈ d.*2.
Proof.
  induction d as [|[c v] d IH]; simpl; [set_solver|]. case_decide; simpl; set_solver.
Qed.

Lemma aside_locked a : aside (locked_create a).
Proof.
  intros p (Ht & Hn & Hq). unfold locked_create, lookup_queue, mbind, M_bind.
  destruct (dict_get (p_queues p) a); [done|]. unfold orphan. simpl.
  assert (q ≠ (a, p_next p)) as Hne by (intros Heq; rewrite Heq in Hn; simpl in Hn; lia).
  rewrite lookup_insert_ne by done. split; [|done]. split; [|by split; [lia|]]. by intros [?|?]%dict_set_values.
Qed.

(** Other queues. *)
Lemma aside_heap p r items : orphan p → r ≠ q → orphan (set_heap (<[r := items]> (p_heap p)) p) ∧
  p_heap (set_heap (<[r := items]> (p_heap p)) p) !! q = p_heap p !! q.
Proof. intros (Ht & Hn & Hq) Hne. unfold orphan. simpl. by rewrite lookup_insert_ne. Qed.

(** ** Steps, one at a time *)

(** An action thread [i] may take. *)
Definition may {X} (i : nat) (m : M pool X) : Prop := ∀ p, guarantee i p (m p).2.

(** Thread [i] keeps the queue out of the table; when it is the call that has the queue, and [F], then something is in
    the queue. *)
Definition keeps (i : nat) (F : Prop) p : Prop := orphan p ∧ (i = 0 → F → filled p).

Lemma may_aside {X} i (m : M pool X) : aside m → may i m.
Proof. intros Hm p Hp. destruct (Hm p Hp). by split. Qed.

Lemma may_get i r : (i ≠ 0 → r ≠ q) → may i (get_nowait r).
Proof.
  intros Hr p Hp. unfold get_nowait. destruct (p_heap p !! r) as [[|s l]|]; [done| |done]. cbn [snd].
  destruct (decide (r = q)) as [->|Hne]; [|by destruct (aside_heap p r l Hp Hne)].
  split; [|intros Hi; by destruct (Hr Hi)]. destruct Hp as (Ht & Hn & _). split; [done|]. split; [done|].
  cbn. rewrite lookup_insert_eq. by eexists.
Qed.

Lemma may_try_get i r : (i ≠ 0 → r ≠ q) → may i (try_get r).
Proof.
  intros Hr p Hp. pose proof (may_get i r Hr p Hp) as Hg. unfold try_get, try_except, mbind, M_bind.
  destruct (get_nowait r p) as [[s|[]] p']; exact Hg.
Qed.

Lemma may_put i r s : (i ≠ 0 → r ≠ q) → may i (put_nowait max r s).
Proof.
  intros Hr p Hp. unfold put_nowait. destruct (p_heap p !! r) as [l|]; [|done]. case_bool_decide; [done|]. cbn [snd].
  destruct (decide (r = q)) as [->|Hne]; [|by destruct (aside_heap p r (s :: l) Hp Hne)].
  split; [|intros Hi; by destruct (Hr Hi)]. destruct Hp as (Ht & Hn & _). split; [done|]. split; [done|].
  cbn. rewrite lookup_insert_eq. by eexists.
Qed.

(** A connection given to a queue is in it, or the queue was full. *)
Lemma put_fills s p : orphan p →
  match (put_nowait max q s p).1 with Ok _ | Raise QueueFull => filled (put_nowait max q s p).2 | Raise _ => True end.
Proof.
  intros (_ & _ & [l Hl]). unfold put_nowait, filled. rewrite Hl. case_bool_decide as Hfull; simpl.
  - destruct l as [|s' l]; [simpl in Hfull; lia|]. by exists s', l.
  - rewrite lookup_insert_eq. by exists s, l.
Qed.

Lemma keeps_stable i F : stable_for guarantee i (keeps i F).
Proof.
  intros j p p' Hne [Ho Hf] HG. destruct (HG Ho) as [Ho' Hs]. split; [done|]. intros -> HF.
  destruct (Hf eq_refl HF) as (s & l & Hl). exists s, l. by rewrite Hs.
Qed.

Lemma keeps_weaken i (F F' : Prop) p : (F' → F) → keeps i F p → keeps i F' p.
Proof. intros HF [Ho Hf]. split; auto. Qed.

Abbreviation rgp i := (rg guarantee i).

Lemma rg_pure {A} i F (φ : Prop) (c : prog pool A) Q :
  (φ → rgp i (keeps i F) c Q) → rgp i (λ p, keeps i F p ∧ φ) c Q.
Proof. intros Hc. destruct c as [r|X m k]; [intros p [Hp Hφ]; by apply Hc|]. intros p [Hp Hφ]. by apply Hc. Qed.

Lemma rg_post {X} i Φ (m : M pool X) (F : result X → Prop) (φ : result X → Prop) :
  (∀ p, Φ p → guarantee i p (m p).2 ∧ keeps i (F (m p).1) (m p).2 ∧ φ (m p).1) →
  rgp i Φ (act m) (λ r p, keeps i (F r) p ∧ φ r).
Proof.
  intros Hm. apply rg_act; [|done]. intros r j p p' Hne [Hk Hφ] HG. split; [|done]. by eapply keeps_stable.
Qed.

(** An action that leaves the queue alone, and one that may not. *)
Lemma rg_aside {X} i F (m : M pool X) (φ : result X → Prop) :
  aside m → (∀ p, orphan p → φ (m p).1) → rgp i (keeps i F) (act m) (λ r p, keeps i F p ∧ φ r).
Proof.
  intros Hm Hφ. apply (rg_post i _ m (λ _, F)). intros p [Ho Hf]. destruct (Hm p Ho) as [Ho' Hq].
  split_and!; [by apply may_aside| |by apply Hφ]. split; [done|]. intros Hi HF.
  destruct (Hf Hi HF) as (s & l & Hl). exists s, l. by rewrite Hq.
Qed.

Lemma rg_may {X} i F (m : M pool X) (φ : result X → Prop) :
  may i m → (∀ p, orphan p → φ (m p).1) → rgp i (keeps i F) (act m) (λ r p, keeps i False p ∧ φ r).
Proof.
  intros Hm Hφ. apply (rg_post i _ m (λ _, False)). intros p [Ho _].
  split_and!; [by apply Hm| |by apply Hφ]. split; [by apply Hm|done].
Qed.

(** ** Programs *)

(** What a program of thread [i] ends with: [F r] as above for its outcome [r], and [φ r]. *)
Definition post {X} (i : nat) (F φ : result X → Prop) (r : result X) p : Prop := keeps i (F r) p ∧ φ r.

Lemma rg_ret {X} i (F0 : Prop) (F φ : result X → Prop) r : (F r → F0) → φ r → rgp i (keeps i F0) (Ret r) (post i F φ).
Proof. intros HF Hφ p Hp. split; [by eapply keeps_weaken|done]. Qed.

Lemma rg_weaken {X} i (F0 F0' : Prop) (c : prog pool X) Q :
  (F0 → F0') → rgp i (keeps i F0) c Q → rgp i (keeps i F0') c Q.
Proof. intros HF Hc. eapply rg_mono; [exact Hc| |done]. intros p. by apply keeps_weaken. Qed.

Lemma rg_post_mono {X} i F0 (c : prog pool X) (F F' φ φ' : result X → Prop) :
  rgp i (keeps i F0) c (post i F φ) → (∀ r, F' r → F r) → (∀ r, φ r → φ' r) → rgp i (keeps i F0) c (post i F' φ').
Proof.
  intros Hc HF Hφ. eapply rg_mono; [exact Hc|done|]. intros r p [Hk ?]. split; [|by apply Hφ].
  apply (keeps_weaken i (F r)); auto.
Qed.

Lemma rg_seq {X B} i F0 (c : prog pool X) (F φ : result X → Prop) (f : X → prog pool B) (F' φ' : result B → Prop) :
  rgp i (keeps i F0) c (post i F φ) → (∀ a, φ (Ok a) → rgp i (keeps i (F (Ok a))) (f a) (post i F' φ')) →
  (∀ e, φ (Raise e) → (F' (Raise e) → F (Raise e)) ∧ φ' (Raise e)) → rgp i (keeps i F0) (c ≫= f) (post i F' φ').
Proof.
  intros Hc Hf He. apply (rg_bind _ i _ (λ a p, keeps i (F (Ok a)) p ∧ φ (Ok a))).
  - eapply rg_mono; [exact Hc|done|]. intros [a|e] p [Hk Hφ]; [by split|]. destruct (He e Hφ). split; [|done].
    by apply (keeps_weaken i (F (Raise e))).
  - intros a. by apply rg_pure, Hf.
Qed.

Lemma rg_catch {X} i F0 (c : prog pool X) (F φ : result X → Prop) h (F' φ' : result X → Prop) :
  rgp i (keeps i F0) c (post i F φ) → (∀ a, φ (Ok a) → (F' (Ok a) → F (Ok a)) ∧ φ' (Ok a)) →
  (∀ e, φ (Raise e) → rgp i (keeps i (F (Raise e))) (h e) (post i F' φ')) →
  rgp i (keeps i F0) (prog_try c h) (post i F' φ').
Proof.
  intros Hc Ha Hh. apply (rg_try _ i _ (λ e p, keeps i (F (Raise e)) p ∧ φ (Raise e))).
  - eapply rg_mono; [exact Hc|done|]. intros [a|e] p [Hk Hφ]; [|by split]. destruct (Ha a Hφ). split; [|done].
    by apply (keeps_weaken i (F (Ok a))).
  - intros e. by apply rg_pure, Hh.
Qed.

Abbreviation anyhow := (λ _, True).
Abbreviation none := (λ _, False).

Lemma rg_step_aside {X} i F0 (m : M pool X) (φ : result X → Prop) :
  aside m → (∀ p, orphan p → φ (m p).1) → rgp i (keeps i F0) (act m) (post i (λ _, F0) φ).
Proof. apply rg_aside. Qed.

Lemma rg_step_may {X} i F0 (m : M pool X) : may i m → rgp i (keeps i F0) (act m) (post i none anyhow).
Proof. intros Hm. by apply rg_may. Qed.

Ltac unraised := first [done | by intros ? _; split; [intros [??]|]].

Lemma rg_dial i F0 hst prt : rgp i (keeps i F0) (dial hst prt) (post i none anyhow).
Proof.
  apply (rg_catch i F0 _ (λ _, F0) anyhow); [|done|intros e _; by apply rg_ret].
  apply (rg_seq i F0 _ (λ _, F0) anyhow); [apply rg_step_aside; [apply aside_dial|done]|intros s _; by apply rg_ret|done].
Qed.

Lemma rg_close_quietly i F0 s : rgp i (keeps i F0) (close_quietly s) (post i none anyhow).
Proof.
  apply (rg_catch i F0 _ (λ _, F0) anyhow); [|done|intros e _; by apply rg_ret].
  apply rg_step_aside; [apply aside_close|done].
Qed.

(** The connection goes back to the queue, or is closed because the queue is full. *)
Lemma rg_exchange i F0 r s msg : (i = 0 ↔ r = q) →
  rgp i (keeps i F0) (exchange max r s msg) (post i (λ res, ∃ m, res = Ok m) anyhow).
Proof.
  intros Hi. assert (i ≠ 0 → r ≠ q) as Hne by (intros Hi0 ?%Hi; done). unfold exchange.
  apply (rg_seq i F0 _ (λ _, F0) anyhow); [apply rg_step_aside; [apply aside_on_sock|done]| |unraised].
  intros [] _. apply (rg_seq i F0 _ (λ _, F0) anyhow); [apply rg_step_aside; [apply aside_on_sock|done]| |unraised].
  intros response _. apply (rg_seq i F0 _ (λ res, res = Ok tt) anyhow); [|intros [] _; apply rg_ret; [done|exact I]|unraised].
  apply (rg_catch i F0 _ (λ res, match res with Ok _ | Raise QueueFull => True | Raise _ => False end) anyhow).
  - apply (rg_post i _ (put_nowait max r s)). intros p [Ho Hf]. split; [by apply may_put|]. split; [|done].
    split; [exact (proj1 (may_put i r s Hne p Ho))|]. intros Hi0. rewrite ((proj1 Hi) Hi0). pose proof (put_fills s p Ho) as Hp.
    destruct (put_nowait max q s p) as [[[]|[]] p'] eqn:Heq; simpl in *; done.
  - by intros [] _.
  - intros [] _; try (apply rg_ret; [by intros ?|exact I]).
    eapply rg_post_mono; [apply (rg_step_aside _ _ _ anyhow); [apply aside_close|done]|done|done].
Qed.

Lemma rg_attempt i F0 r s msg k : (i = 0 ↔ r = q) →
  (∀ e, rgp i (keeps i False) (k e) (post i (λ res, ∃ m, res = Ok (Some m)) anyhow)) →
  rgp i (keeps i F0) (prog_try (response ← exchange max r s msg; mret (Some response)) k)
    (post i (λ res, ∃ m, res = Ok (Some m)) anyhow).
Proof.
  intros Hi Hk. apply (rg_catch i F0 _ (λ res, ∃ m, res = Ok (Some m)) anyhow); [|done|].
  - apply (rg_seq i F0 _ (λ res, ∃ m, res = Ok m) anyhow); [by apply rg_exchange| |unraised].
    intros m _. apply rg_ret; [|done]. intros _. by exists m.
  - intros e _. eapply rg_weaken; [|apply Hk]. done.
Qed.

(** [execute] on a queue: the caller of thread 0 is on [q], the others on other queues. *)
Lemma rg_execute_on i r hst prt msg : (i = 0 ↔ r = q) →
  rgp i (keeps i False) (execute_on max r hst prt msg) (post i (λ res, ∃ m, res = Ok (Some m)) anyhow).
Proof.
  intros Hi. assert (i ≠ 0 → r ≠ q) as Hne by (intros Hi0 ?%Hi; done). unfold execute_on.
  apply (rg_seq i _ _ none anyhow); [by apply rg_step_may, may_try_get| |unraised]. intros idle _. cbn zeta.
  apply (rg_seq i _ _ none anyhow); [|intros [s|] _|unraised].
  - destruct idle; [by apply rg_ret|apply rg_dial].
  - apply rg_attempt; [done|]. intros e. apply (rg_seq i _ _ none anyhow); [apply rg_close_quietly|intros _ _|unraised].
    case_match; [|apply rg_ret; [by intros [m ?]|exact I]].
    apply (rg_seq i _ _ none anyhow); [apply rg_dial|intros [s'|] _|unraised]; [|apply rg_ret; [by intros [m ?]|exact I]].
    apply rg_attempt; [done|]. intros e'. apply (rg_seq i _ _ none anyhow); [apply rg_close_quietly|intros _ _|unraised].
    apply rg_ret; [by intros [m ?]|exact I].
  - apply rg_ret; [by intros [m ?]|exact I].
Qed.

(** ** The calls of the other threads *)
Section others.
Context (i : nat) (Hi : i ≠ 0).

Lemma values_get (d : list (string * ref)) a r : dict_get d a = Some r → r ∈ d.*2.
Proof. induction d as [|[c v] d IH]; [done|]. simpl. case_decide; [intros [= ->]; by left|]. intros ?%IH. by right. Qed.

(** What is found in the table is another queue. *)
Lemma rg_queue a : rgp i (keeps i False) (_queue a) (post i none (λ r, r ≠ Ok q)).
Proof.
  apply (rg_seq i _ _ none (λ r, r ≠ Ok (Some q))); [apply rg_step_aside; [apply aside_lookup|] | |done].
  - intros p (Ht & _) [= Hq]. by apply Ht, (values_get _ a).
  - intros [r|] Hr; [apply rg_ret; [done|congruence]|].
    apply (rg_seq i _ _ none anyhow); [apply rg_step_aside; [apply aside_locked|done]|intros _ _|by intros e _].
    apply rg_step_aside; [apply aside_item|]. intros p (Ht & _). unfold queue_item. simpl.
    destruct (dict_get (p_queues p) a) as [r|] eqn:Hq; [|done]. intros [= ->]. by apply Ht, (values_get _ a).
Qed.

Lemma rg_execute hst prt msg : rgp i (keeps i False) (execute max hst prt msg) (post i none anyhow).
Proof.
  apply (rg_seq i _ _ none (λ r, r ≠ Ok q)); [apply rg_queue|intros r Hr|done].
  eapply rg_post_mono; [apply rg_execute_on|done|done]. split; [done|]. by intros ->.
Qed.

Lemma rg_drain fuel r : r ≠ q → rgp i (keeps i False) (drain fuel r) (post i none anyhow).
Proof.
  intros Hr. induction fuel as [|fuel IH]; [by apply rg_ret|]. cbn [drain].
  apply (rg_seq i _ _ none anyhow); [|intros [] _; [exact IH|by apply rg_ret]|done].
  apply (rg_catch i _ _ none anyhow); [|done|intros [] _; by apply rg_ret].
  apply (rg_seq i _ _ none anyhow); [by apply rg_step_may, may_get|intros s _|done].
  apply (rg_seq i _ _ none anyhow); [apply rg_step_aside; [apply aside_close|done]|intros _ _; by apply rg_ret|done].
Qed.

Lemma rg_close_peer fuel hst prt : rgp i (keeps i False) (close_peer fuel hst prt) (post i none anyhow).
Proof.
  apply (rg_seq i _ _ none (λ r, r ≠ Ok (Some q))); [apply rg_step_aside; [apply aside_pop|]|intros [r|] Hr|done].
  - intros p (Ht & _) [= Hq]. by apply Ht, (values_get _ (join_address hst prt)).
  - apply rg_drain. congruence.
  - by apply rg_ret.
Qed.

Lemma rg_drain_all rounds fuel size from :
  rgp i (keeps i False) (drain_all rounds fuel size from) (post i none anyhow).
Proof.
  revert from. induction rounds as [|rounds IH]; intros from; [by apply rg_ret|]. cbn [drain_all].
  apply (rg_seq i _ _ none (λ r, r ≠ Ok (Some q))); [apply rg_step_aside; [apply aside_next|]|intros [r|] Hr|done].
  - intros p (Ht & _). unfold next_queue. simpl. case_decide; [|done]. intros [= Hq].
    apply Ht. apply head_Some_elem_of, list_elem_of_filter in Hq. by destruct Hq.
  - apply (rg_seq i _ _ none anyhow); [apply rg_drain; congruence|intros _ _; apply IH|done].
  - by apply rg_ret.
Qed.

Lemma rg_call c : rgp i (keeps i False) (call_prog max c) (post i none anyhow).
Proof.
  destruct c as [hst prt msg|fuel hst prt|rounds fuel]; cbn [call_prog]; [apply rg_execute|..].
  - apply (rg_seq i _ _ none anyhow); [apply rg_close_peer|intros _ _; by apply rg_ret|done].
  - apply (rg_seq i _ _ none anyhow); [|intros _ _; by apply rg_ret|done]. unfold close_all.
    apply (rg_seq i _ _ none anyhow); [apply rg_step_aside; [by apply aside_same|done]|intros n _|done].
    apply (rg_seq i _ _ none anyhow); [apply rg_drain_all|intros _ _|done].
    apply rg_step_aside; [apply aside_clear|done].
Qed.
End others.
End overtaken.

(** ** A call whose queue was dropped *)
Section leak.
Context `{Pickle} (max : Z) (q : ref) (hst : string) (prt : Z) (msg : Message) (calls : list call).
Hypothesis Hq : q.1 = join_address hst prt.

(** The call, which has fetched its queue, and those that run beside it. *)
Definition overtaken : list (prog pool (option Message)) := execute_on max q hst prt msg :: (call_prog max <$> calls).

Definition leaks (i : nat) : result (option Message) → pool → Prop := post q i (λ r, ∃ m, r = Ok (Some m)) (λ _, True).

Lemma overtaken_rg p : orphan q p → rg_threads (guarantee q) leaks (overtaken, p).
Proof.
  intros Hp i c Hc. exists (keeps q i False). split; [apply keeps_stable|]. split; [by split|]. destruct i as [|i].
  - cbn in Hc. simplify_eq. by apply rg_execute_on.
  - cbn in Hc. apply list_lookup_fmap_Some in Hc as (d & -> & _).
    eapply rg_mono; [by apply (rg_call max q (S i))|done|]. intros r p' [[Ho _] _]. split; [split; [done|intros [=]]|exact I].
Qed.

Lemma overtaken_shares p order : pool_inv max ∅ p →
  ∃ helds raises, shares max raises helds (interleave order (overtaken, p)).
Proof.
  intros Hp.
  destruct (interleave_shares max (λ i, match i with O => None | S i => raises_of calls i end) overtaken order p)
    as [helds Hs]; [|done|by eexists _, _].
  intros [|i] c Hc; cbn in Hc.
  - simplify_eq. eapply wp_mono; [by apply wp_execute_on|]. intros held r [? [o ->]]. by split.
  - apply list_lookup_fmap_Some in Hc as (d & -> & Hd). unfold ended, raises_of. rewrite Hd. apply wp_call.
Qed.

(** What is in the queue when the call has ended stays in it. *)
Lemma overtaken_stays p order later r x : orphan q p →
  let st := interleave order (overtaken, p) in
  st.1 !! 0 = Some (Ret r) → p_heap st.2 !! q = x → p_heap (interleave later st).2 !! q = x.
Proof.
  intros Hp st H0 Hx.
  assert (rg_threads (guarantee q) leaks st) as Hrg by (by apply rg_interleave, overtaken_rg).
  assert (orphan q st.2) as Ho.
  { apply (rg_invariant (guarantee q) (orphan q) leaks); [|by apply overtaken_rg|done].
    intros i p1 p2 Ho HG. by apply HG. }
  set (Q i := if decide (i = 0) then λ (_ : result (option Message)) p', orphan q p' ∧ p_heap p' !! q = x else leaks i).
  assert (rg_threads (guarantee q) Q st) as HQ.
  { intros [|i] c Hc.
    - rewrite H0 in Hc. simplify_eq. exists (Q 0 r). split; [|split; [by split|by intros s]].
      intros j p1 p2 Hj [Ho1 Hx1] HG. destruct (HG Ho1) as [Ho2 Hs]. split; [done|]. by rewrite Hs.
    - by apply Hrg. }
  by destruct (rg_ended _ _ _ 0 r (rg_interleave _ _ later _ HQ) (interleave_ended later _ _ _ H0)).
Qed.

End leak.

(** ** Samples *)

(** One call fetches the queue of its peer, and another closes the peer. *)
Definition sample_address : string := join_address "10.0.0.2" 7000.
Definition sample_fetched : result ref * pool := run (_queue sample_address) (pool_init [Ok sample_conn]).
Definition sample_dropped : pool := (run (close_peer 5 "10.0.0.2" 7000) sample_fetched.2).2.
Definition sample_queue : ref := (sample_address, 0).

Lemma sample_dropped_inv : pool_inv 16 ∅ sample_dropped.
Proof.
  destruct (run_safe (pool_inv 16) same_conn ∅ (_queue sample_address) _ (pool_init [Ok sample_conn])
    (wp_queue 16 _) (pool_init_inv _ _)) as (h1 & H1 & -> & _).
  destruct (run_safe (pool_inv 16) same_conn ∅ (close_peer 5 "10.0.0.2" 7000) _ sample_fetched.2
    (wp_close_peer 16 5 _ _) H1) as (h2 & H2 & Hc & _).
  apply (pool_inv_drop 16 h2); [done|]. by rewrite union_empty_r_L.
Qed.


(** The exceptions that [PoolShare.pool_shared_safely] leaves open do occur: [execute] raises when the queue it has just
    created is dropped before it looks it up, [close_all] when a queue is created while it iterates. *)
Definition sample_race (order : list nat) :=
  interleave order (call_prog (H := sample_pickle) 16 <$> sample_calls, pool_init [Ok sample_conn]).

Example execute_raises : (sample_race [0; 0; 1; 0]).1 !! 0 = Some (Ret (Raise KeyError)).
Proof. by vm_compute. Qed.

Example close_all_raises : (sample_race [2; 0; 0; 2]).1 !! 2 = Some (Ret (Raise RuntimeError)).
Proof. by vm_compute. Qed.
