(* ===== verification/PoolSpec.v ===== *)
(** * What a call of a connection pool does

    The calls run alone: the result of [execute], the connections it uses and the
    state it leaves; the agreement of the two pools; and what [close_peer] and
    [close_all] reach. *)
From S2P Require Import Prelude PyBase Bytes PyDict Types Wire Threads Pool PoolShare.

Implicit Types (p : pool) (q s : ref) (c : conn) (msg : Message).

(** The connection [execute] reuses: the most recent idle one of the peer. *)
Definition idle_top (a : string) p : option ref :=
  q ← dict_get (p_queues p) a; items ← p_heap p !! q; head items.

(** A request and its response on a connection. *)
Definition talk `{Pickle} msg c : result Message * sock :=
  (send_message msg ;; recv_message) (c_sock c).

Section runs.
Context `{Pickle} (max : Z).

(** There is room for one more connection. *)
Definition room (items : list ref) : Prop := (0 < max → Z.of_nat (length items) < max)%Z.

Lemma put_nowait_room q s items p :
  p_heap p !! q = Some items → room items →
  put_nowait max q s p = (Ok tt, set_heap (<[q := s :: items]> (p_heap p)) p).
Proof.
  intros Hq Hr. unfold put_nowait. rewrite Hq. case_bool_decide; [|done].
  unfold room in Hr. lia.
Qed.

Lemma try_get_items q items p :
  p_heap p !! q = Some items →
  try_get q p = match items with
    | s :: items => (Ok (Some s), set_heap (<[q := items]> (p_heap p)) p)
    | [] => (Ok None, p)
    end.
Proof. intros Hq. unfold try_get, get_nowait. unfold_M. rewrite Hq. by destruct items. Qed.

(** Send and receive on an open connection. *)
Definition send_recv s msg : prog pool Message :=
  act (on_sock s (send_message msg)) ;; act (on_sock s recv_message).

Lemma run_send_recv s msg c p :
  p_conns p !! s = Some c → c_open c = true →
  run (send_recv s msg) p =
    ((talk msg c).1, set_conns (<[s := set_sock (talk msg c).2 c]> (p_conns p)) p).
Proof.
  intros Hc Ho. unfold send_recv. rewrite run_bind, run_act.
  unfold talk. unfold_M. unfold on_sock at 1. rewrite Hc, Ho.
  destruct (send_message msg (c_sock c)) as [[[]|e] k]; [|done].
  rewrite run_act. unfold on_sock. simpl. rewrite lookup_insert_eq. simpl. rewrite Ho.
  destruct (recv_message k) as [r k']. simpl.
  unfold set_conns. simpl. by rewrite insert_insert_eq.
Qed.

Lemma run_exchange q s msg items c p :
  p_heap p !! q = Some items → room items → p_conns p !! s = Some c → c_open c = true →
  run (exchange max q s msg) p =
    let p1 := set_conns (<[s := set_sock (talk msg c).2 c]> (p_conns p)) p in
    match (talk msg c).1 with
    | Ok r => (Ok r, set_heap (<[q := s :: items]> (p_heap p)) p1)
    | Raise e => (Raise e, p1)
    end.
Proof.
  intros Hq Hr Hc Ho. pose proof (run_send_recv s msg c p Hc Ho) as Hsr.
  unfold send_recv, exchange in *. rewrite run_bind, run_act in *.
  destruct (on_sock s (send_message msg) p) as [[[]|e] p1].
  2: { destruct (talk msg c) as [[]]; simpl in *; by simplify_eq. }
  rewrite run_act in Hsr. rewrite run_bind, run_act, Hsr.
  destruct (talk msg c) as [[r|e] k]; simpl fst; cbv beta iota zeta; [|done].
  rewrite run_bind, run_try, run_act. by rewrite (put_nowait_room q s items).
Qed.

Lemma run_dial hst prt p :
  run (dial hst prt) p =
    match p_dials p with
    | Ok c :: ds =>
        let s := (join_address hst prt, p_next p) in
        (Ok (Some s), mkPool (p_queues p) (p_heap p)
          (<[s := mkConn (c_sock c) true (c_close_fails c) (c_checks c)]> (p_conns p))
          ds (Datatypes.S (p_next p)))
    | Raise e :: ds => (Ok None, mkPool (p_queues p) (p_heap p) (p_conns p) ds (p_next p))
    | [] => (Ok None, p)
    end.
Proof.
  unfold dial. rewrite run_try, run_bind, run_act.
  unfold _new_connection. by destruct (p_dials p) as [|[c|e] ds].
Qed.

Lemma run_close_quietly s p : run (close_quietly s) p = (Ok tt, (sock_close s p).2).
Proof.
  unfold close_quietly. rewrite run_try, run_act. by destruct (sock_close s p) as [[[]|e] p'].
Qed.

(** The queue of the peer, created if needed. *)
Lemma run_queue a p :
  pool_inv max ∅ p → ∃ q p1 items, run (_queue a) p = (Ok q, p1) ∧ q.1 = a ∧
    dict_get (p_queues p1) a = Some q ∧ p_heap p1 !! q = Some items ∧
    head items = idle_top a p ∧ p_conns p1 = p_conns p ∧ p_dials p1 = p_dials p ∧
    pool_inv max ∅ p1.
Proof.
  intros Hinv. unfold _queue, idle_top. rewrite run_bind, run_act. unfold lookup_queue at 1.
  cbv beta iota. destruct (dict_get (p_queues p) a) as [q|] eqn:Ha; cbv beta iota.
  { destruct (pi_table _ _ _ Hinv a q Ha) as [Hq [items Hitems]].
    exists q, p, items. split_and!; try done. simpl. by rewrite Hitems. }
  rewrite run_bind, run_act. unfold locked_create, lookup_queue. unfold_M. rewrite Ha.
  pose proof (wp_create_queue max a ∅ p) as Hwp.
  destruct Hwp as (h & _ & Hinv' & _ & (-> & q & Hr & Hqa));
    [set_solver|by rewrite union_empty_r_L|]. rewrite union_empty_r_L in Hinv'.
  unfold create_queue in *. simpl in *. simplify_eq. unfold queue_item. simpl.
  rewrite dict_get_lookup, dict_set_lookup, lookup_insert_eq.
  do 2 eexists. exists []. split; [done|]. simpl. split_and!; try done.
  - rewrite dict_get_lookup, dict_set_lookup. by rewrite lookup_insert_eq.
  - by rewrite lookup_insert_eq.
Qed.
End runs.

(** ** The synchronous call *)
Section execute.
Context `{Pickle} (max : Z).

(** An attempt on connection [s], and [k] if it fails. *)
Lemma run_attempt q s msg items c k p :
  p_heap p !! q = Some items → room max items → p_conns p !! s = Some c → c_open c = true →
  run (prog_try (response ← exchange max q s msg; mret (Some response))
         (λ _, close_quietly s ;; k)) p =
    match (talk msg c).1 with
    | Ok r => (Ok (Some r), set_heap (<[q := s :: items]> (p_heap p))
        (set_conns (<[s := set_sock (talk msg c).2 c]> (p_conns p)) p))
    | Raise _ => run k (set_conns (<[s := closed (set_sock (talk msg c).2 c)]> (p_conns p)) p)
    end.
Proof.
  intros Hq Hr Hc Ho. rewrite run_try, run_bind.
  rewrite (run_exchange max q s msg items c) by done. cbv zeta.
  destruct (talk msg c) as [[r|e] st]; simpl fst; cbv beta iota; [done|].
  rewrite run_bind, run_close_quietly. unfold sock_close. simpl. rewrite lookup_insert_eq.
  simpl. rewrite Ho. simpl. unfold set_conns. simpl. by rewrite insert_insert_eq.
Qed.

(** Dialling a new connection and talking on it once, from connections [conns]:
    the result [o] and the state [p'] it leads to. *)
Definition fresh_call (a : string) msg (conns : gmap ref conn) (dials : list (result conn))
    (o : option Message) p' : Prop :=
  match dials with
  | Ok c :: ds => p_dials p' = ds ∧ ∃ s, s.1 = a ∧ conns !! s = None ∧
      match talk msg c with
      | (Ok m, k) => o = Some m ∧ idle_top a p' = Some s ∧
          p_conns p' = <[s := mkConn k true (c_close_fails c) (c_checks c)]> conns
      | (Raise _, k) => o = None ∧
          p_conns p' = <[s := mkConn k false (c_close_fails c) (c_checks c)]> conns
      end
  | Raise _ :: ds => o = None ∧ p_conns p' = conns ∧ p_dials p' = ds
  | [] => o = None ∧ p_conns p' = conns ∧ p_dials p' = []
  end.

Lemma run_fresh q hst prt msg (k : ref → prog pool (option Message)) items p :
  dict_get (p_queues p) (join_address hst prt) = Some q →
  p_heap p !! q = Some items → room max items →
  (∀ s, is_Some (p_conns p !! s) → s.2 < p_next p) →
  (∀ s p, run (k s) p = (Ok None, p)) →
  ∃ o p',
    run (sock ← dial hst prt;
         match sock with
         | None => mret None
         | Some s => prog_try (response ← exchange max q s msg; mret (Some response))
             (λ _, close_quietly s ;; k s)
         end) p = (Ok o, p') ∧
    fresh_call (join_address hst prt) msg (p_conns p) (p_dials p) o p'.
Proof.
  intros Ha Hq Hr Hfresh Hk. rewrite run_bind, run_dial. unfold fresh_call.
  destruct (p_dials p) as [|[c|e] ds] eqn:Hds; cbv beta iota zeta; [by eauto 10| |by eauto 10].
  set (s := (join_address hst prt, p_next p)).
  assert (p_conns p !! s = None) as Hs.
  { apply eq_None_not_Some. intros ?%Hfresh. simpl in *. lia. }
  set (c1 := mkConn (c_sock c) true (c_close_fails c) (c_checks c)).
  rewrite (run_attempt q s msg items c1);
    [|done|done|by simpl; rewrite lookup_insert_eq|done]. rewrite Hk.
  change (talk msg c1) with (talk msg c).
  destruct (talk msg c) as [[m|e] st]; simpl; do 2 eexists; (split; [reflexivity|]);
    simpl; (split; [done|]); exists s; rewrite insert_insert_eq; split_and!; try done.
  unfold idle_top. simpl. rewrite Ha. simpl. by rewrite lookup_insert_eq.
Qed.

(** [execute] alone finds the queue it may have created. *)
Lemma run_execute hst prt msg p q p1 :
  run (_queue (join_address hst prt)) p = (Ok q, p1) →
  run (execute max hst prt msg) p = run (execute_on max q hst prt msg) p1.
Proof. intros Hq. unfold execute. cbv zeta. by rewrite run_bind, Hq. Qed.

Lemma execute_on_alone q hst prt msg p :
  q.1 = join_address hst prt → pool_inv max ∅ p →
  ∃ o p', run (execute_on max q hst prt msg) p = (Ok o, p') ∧ pool_inv max ∅ p'.
Proof.
  intros Hq Hinv.
  destruct (run_safe (pool_inv max) same_conn ∅ (execute_on max q hst prt msg) _ p
    (wp_execute_on max q hst prt msg Hq) Hinv) as (held & Hinv' & Hc & o & Ho).
  destruct (run (execute_on max q hst prt msg) p) as [r p']. cbn [fst snd] in Ho, Hinv'. subst r.
  rewrite <- (union_empty_r_L held) in Hinv'. apply pool_inv_drop in Hinv'; [|done]. by exists o, p'.
Qed.

Lemma execute_alone hst prt msg p :
  pool_inv max ∅ p → ∃ o p', run (execute max hst prt msg) p = (Ok o, p') ∧ pool_inv max ∅ p'.
Proof.
  intros Hinv.
  destruct (run_queue max (join_address hst prt) p Hinv) as (q & p1 & items & Hq & Hqa & _ & _ & _ & _ & _ & Hinv1).
  rewrite (run_execute hst prt msg p q p1 Hq). by apply execute_on_alone.
Qed.

(** C23. What [execute] does, alone on a well-formed pool.  It never raises.  If the
    peer has an idle connection it talks on the most recent one, and puts it back
    on success; if that fails it closes it and talks once more, on a new
    connection, as it does at once when nothing was idle.  So the message is sent
    at most twice, only to this peer, and never a second time after a fresh
    connection failed; the other connections are not touched. *)
Theorem pool_execute_spec hst prt msg p :
  pool_inv max ∅ p →
  let a := join_address hst prt in
  ∃ o p', run (execute max hst prt msg) p = (Ok o, p') ∧ pool_inv max ∅ p' ∧
    match idle_top a p with
    | None => fresh_call a msg (p_conns p) (p_dials p) o p'
    | Some s => s.1 = a ∧ ∃ c, p_conns p !! s = Some c ∧ c_open c = true ∧
        match talk msg c with
        | (Ok m, k) => o = Some m ∧ idle_top a p' = Some s ∧ p_dials p' = p_dials p ∧
            p_conns p' = <[s := set_sock k c]> (p_conns p)
        | (Raise _, k) =>
            fresh_call a msg (<[s := closed (set_sock k c)]> (p_conns p)) (p_dials p) o p'
        end
    end.
Proof.
  intros Hinv a.
  destruct (run_queue max a p Hinv) as (q & p1 & items & Hq & Hqa & Ha & Hitems & <- & <- & <- & Hinv1).
  rewrite (run_execute hst prt msg p q p1 Hq).
  destruct (execute_on_alone q hst prt msg p1 Hqa Hinv1) as (o & p' & Hrun & Hinv').
  exists o, p'. split; [done|]. split; [done|]. revert Hrun. unfold execute_on. rewrite run_bind, run_act.
  rewrite (try_get_items _ _ _ Hitems). pose proof (hi_bound _ _ (pi_heap _ _ _ Hinv1) _ _ Hitems) as Hb.
  destruct items as [|s items]; cbn [head].
  - destruct (run_fresh q hst prt msg (λ _, mret None) [] p1) as (o' & p2 & Hrun & Hf); try done.
    { unfold room. simpl. lia. } { apply (pi_fresh_conn _ _ _ Hinv1). }
    intros Heq. assert ((Ok o', p2) = (Ok o, p')) as [= -> ->]; [|done]. by rewrite <- Hrun, <- Heq.
  - assert (idle_in (p_heap p1) q s) as Hi by (exists (s :: items); split; [done|set_solver]).
    split; [by rewrite (hi_addr _ _ (pi_heap _ _ _ Hinv1) _ _ Hi)|].
    destruct (pi_idle_open _ _ _ Hinv1 _ _ Hi) as (c & Hcs & Hco).
    exists c. split; [done|]. split; [done|].
    revert Hrun. change (bool_decide (is_Some (Some s))) with true. rewrite run_bind. cbn [run mret prog_ret].
    rewrite (run_attempt q s msg items c); [|by simpl; rewrite lookup_insert_eq| |done..].
    2: { unfold room. intros Hm. specialize (Hb Hm). simpl in Hb. lia. }
    destruct (talk msg c) as [[m|e] st]; simpl fst; simpl snd; cbv beta iota.
    + intros [= <- <-]. simpl. split_and!; [done| |done..].
      unfold idle_top. simpl. rewrite Ha. simpl. by rewrite lookup_insert_eq.
    + destruct (run_fresh q hst prt msg (λ _, mret None) items
        (set_conns (<[s := closed (set_sock st c)]> (p_conns p1))
          (set_heap (<[q := items]> (p_heap p1)) p1))) as (o' & p2 & Hrun & Hf); try done.
      { simpl. by rewrite lookup_insert_eq. }
      { unfold room. intros Hm. specialize (Hb Hm). simpl in Hb. lia. }
      { intros s'. simpl. rewrite lookup_insert_is_Some. intros [<-|[_ ?]];
          apply (pi_fresh_conn _ _ _ Hinv1); [by rewrite Hcs|done]. }
      intros Heq. assert ((Ok o', p2) = (Ok o, p')) as [= -> ->]; [|done].
      by rewrite <- Hrun, <- Heq.
Qed.
End execute.

(** ** The two pools agree *)
Section agreement.
Context `{Pickle} (max : Z).

(** The transport of a connection is not lost while idle, and closes cleanly. *)
Definition quiet_conn c : Prop := c_checks c = [] ∧ c_close_fails c = false.

Definition quiet p : Prop :=
  (∀ s c, p_conns p !! s = Some c → quiet_conn c) ∧ (∀ c, Ok c ∈ p_dials p → quiet_conn c).

Lemma quiet_insert s c c' p :
  quiet p → p_conns p !! s = Some c → c_checks c' = c_checks c →
  c_close_fails c' = c_close_fails c →
  quiet (set_conns (<[s := c']> (p_conns p)) p).
Proof.
  intros [Hq Hd] Hs Hc Hf. split; [|done]. intros s' c''. simpl.
  intros [[<- <-]|[_ ?]]%lookup_insert_Some; [|by eapply Hq].
  destruct (Hq s c Hs). split; congruence.
Qed.

Lemma is_closing_quiet s c p :
  quiet p → p_conns p !! s = Some c → c_open c = true → is_closing s p = (Ok false, p).
Proof.
  intros [Hq _] Hs Ho. destruct (Hq s c Hs) as [Hk _].
  unfold is_closing. rewrite Hs, Ho, Hk. simpl.
  rewrite insert_id; [by destruct p|]. rewrite Hs. destruct c; simpl in *; by subst.
Qed.

Lemma sock_close_quiet s p : quiet p → writer_close s p = sock_close s p.
Proof.
  intros [Hq _]. unfold writer_close, sock_close. destruct (p_conns p !! s) as [c|] eqn:Hs; [|done].
  destruct (Hq s c Hs) as [_ ->]. by destruct (c_open c).
Qed.

Lemma quiet_on_sock {A} s (m : M sock A) p :
  quiet p → quiet (on_sock s m p).2 ∧
  ∀ a, (on_sock s m p).1 = Ok a →
    ∃ c, p_conns (on_sock s m p).2 !! s = Some c ∧ c_open c = true.
Proof.
  intros Hq. unfold on_sock. destruct (p_conns p !! s) as [c|] eqn:Hs; [|by split].
  destruct (c_open c) eqn:Ho; [|by split]. destruct (m (c_sock c)) as [r k]. simpl.
  split; [by eapply quiet_insert|]. intros a _. exists (set_sock k c).
  by rewrite lookup_insert_eq.
Qed.

Lemma on_sock_ext {A} s (m1 m2 : M sock A) p :
  (∀ k, m1 k = m2 k) → on_sock s m1 p = on_sock s m2 p.
Proof.
  intros Heq. unfold on_sock. destruct (p_conns p !! s); [|done]. by rewrite Heq.
Qed.

Lemma release_quiet q s c p :
  quiet p → p_conns p !! s = Some c → c_open c = true →
  release_async max q s p =
    run (prog_try (act (put_nowait max q s))
      (λ e, match e with QueueFull => act (sock_close s) | e => Ret (Raise e) end)) p.
Proof.
  intros Hq Hs Ho. unfold release_async. unfold_M. rewrite (is_closing_quiet s c) by done.
  rewrite run_try, run_act. unfold put_nowait.
  destruct (p_heap p !! q); [|done]. case_bool_decide; [|done].
  rewrite run_act. by apply sock_close_quiet.
Qed.

Lemma exchange_quiet q s msg p :
  quiet p →
  run (exchange_async max q s msg) p = run (exchange max q s msg) p ∧
  quiet (run (exchange max q s msg) p).2.
Proof.
  intros Hq. unfold exchange_async, exchange. rewrite !run_bind, !run_act.
  rewrite (on_sock_ext s _ (send_message msg)) by apply send_message_async_eq.
  destruct (quiet_on_sock s (send_message msg) p Hq) as [Hq1 _].
  destruct (on_sock s (send_message msg) p) as [[[]|e] p1]; [|done]. simpl in Hq1.
  rewrite !run_bind, !run_act. rewrite (on_sock_ext s _ recv_message) by apply recv_message_async_eq.
  destruct (quiet_on_sock s recv_message p1 Hq1) as [Hq2 Hs].
  destruct (on_sock s recv_message p1) as [[m|e] p2]; [|done]. simpl in Hq2, Hs.
  destruct (Hs m eq_refl) as (c & Hc & Ho). rewrite !run_bind, run_act.
  rewrite (release_quiet q s c) by done. split; [done|].
  rewrite run_try, run_act. unfold put_nowait.
  destruct (p_heap p2 !! q); [|done]. case_bool_decide; [|done].
  rewrite run_act. unfold sock_close. rewrite Hc, Ho.
  destruct (c_close_fails c); simpl; by eapply quiet_insert.
Qed.

Lemma quiet_sock_close s p : quiet p → quiet (sock_close s p).2.
Proof.
  intros Hq. unfold sock_close. destruct (p_conns p !! s) as [c|] eqn:Hs; [|done].
  destruct (c_open c); [|done]. simpl. by eapply quiet_insert.
Qed.

Lemma attempt_quiet q s msg (k1 k2 : prog pool (option Message)) p :
  quiet p → (∀ p', quiet p' → run k1 p' = run k2 p') →
  run (prog_try (response ← exchange_async max q s msg; mret (Some response))
        (λ _, act (writer_close s) ;; k1)) p =
  run (prog_try (response ← exchange max q s msg; mret (Some response))
        (λ _, close_quietly s ;; k2)) p.
Proof.
  intros Hq Hk. rewrite !run_try, !run_bind.
  destruct (exchange_quiet q s msg p Hq) as [-> Hq1].
  destruct (run (exchange max q s msg) p) as [[m|e] p1]; [done|].
  rewrite !run_bind, run_act, run_close_quietly. apply Hk. by apply quiet_sock_close.
Qed.

Lemma quiet_dial hst prt p : quiet p → quiet (run (dial hst prt) p).2.
Proof.
  intros [Hq Hd]. rewrite run_dial. destruct (p_dials p) as [|[c|e] ds] eqn:Hds; split; simpl;
    rewrite ?Hds in *; try set_solver.
  intros s' c'. intros [[<- <-]|[_ ?]]%lookup_insert_Some; [|by eapply Hq].
  destruct (Hd c) as [? ?]; [set_solver|]. by split.
Qed.

Lemma queue_async_eq a p : run (_queue a) p = _queue_async a p.
Proof.
  unfold _queue. rewrite run_bind, run_act. unfold lookup_queue at 1. cbv beta iota.
  destruct (dict_get (p_queues p) a) as [q|] eqn:Ha; cbv beta iota.
  { unfold _queue_async, lookup_queue. unfold_M. by rewrite Ha. }
  rewrite run_bind, run_act. unfold _queue_async, locked_create, lookup_queue. unfold_M. rewrite Ha.
  unfold create_queue, queue_item. simpl. by rewrite dict_get_lookup, dict_set_lookup, lookup_insert_eq.
Qed.

Lemma checkout_quiet q items p :
  pool_inv max ∅ p → quiet p → p_heap p !! q = Some items →
  checkout_queue q p = try_get q p.
Proof.
  intros Hinv Hq Hitems. unfold checkout_queue. rewrite Hitems.
  rewrite (try_get_items _ _ _ Hitems). destruct items as [|s items]; [done|].
  simpl. unfold_M. rewrite (try_get_items _ _ _ Hitems).
  assert (idle_in (p_heap p) q s) as Hi by (exists (s :: items); split; [done|set_solver]).
  destruct (pi_idle_open _ _ _ Hinv _ _ Hi) as (c & Hc & Ho).
  by rewrite (is_closing_quiet s c) by done.
Qed.

Lemma checkout_async_eq a q items p p1 :
  run (_queue a) p = (Ok q, p1) → p_heap p1 !! q = Some items → pool_inv max ∅ p1 → quiet p1 →
  checkout_async a p = match items with
    | s :: items => (Ok (q, Some s), set_heap (<[q := items]> (p_heap p1)) p1)
    | [] => (Ok (q, None), p1)
    end.
Proof.
  intros Hrun Hitems Hinv Hq. unfold checkout_async. unfold_M.
  rewrite <- queue_async_eq, Hrun, (checkout_quiet q items) by done.
  rewrite (try_get_items _ _ _ Hitems). by destruct items.
Qed.

(** The asynchronous pool behaves like the synchronous one: as long as no
    transport is lost while idle and closing succeeds, a call of either pool, alone
    on the same well-formed pool, returns the same outcome and leaves the same
    state. *)
Theorem async_pool_equiv hst prt msg p :
  pool_inv max ∅ p → quiet p →
  run (execute_async max hst prt msg) p = run (execute max hst prt msg) p.
Proof.
  intros Hinv Hq. unfold execute_async, execute, execute_on. cbv zeta. rewrite !run_bind, run_act.
  destruct (run_queue max (join_address hst prt) p Hinv)
    as (q & p1 & items & Hrun & _ & _ & Hitems & _ & Hcs & Hds & Hinv1).
  assert (quiet p1) as Hq1 by (unfold quiet; by rewrite Hcs, Hds).
  rewrite (checkout_async_eq _ q items p p1) by done. rewrite Hrun, run_bind, run_act.
  rewrite (try_get_items _ _ _ Hitems). destruct items as [|s items]; cbv beta iota.
  - rewrite !run_bind. pose proof (quiet_dial hst prt p1 Hq1) as Hq2.
    destruct (run (dial hst prt) p1) as [[[s|]|e] p2]; [|done..].
    apply attempt_quiet; [done|]. by intros.
  - rewrite !run_bind. cbn [run mret prog_ret]. apply attempt_quiet; [done|].
    intros p2 Hq2. change (bool_decide (is_Some (Some s))) with true. cbv iota.
    rewrite !run_bind. pose proof (quiet_dial hst prt p2 Hq2) as Hq3.
    destruct (run (dial hst prt) p2) as [[[s'|]|e] p3]; [|done..].
    apply attempt_quiet; [done|]. by intros.
Qed.
End agreement.

(** ** Closing *)
Section closing.
Context `{Pickle} (max : Z).

(** Every close succeeds. *)
Definition clean p : Prop := ∀ s c, p_conns p !! s = Some c → c_close_fails c = false.

(** The connections with those in [ss] closed. *)
Definition close_conns (ss : list ref) (conns : gmap ref conn) : gmap ref conn :=
  map_imap (λ s c, Some (if decide (s ∈ ss) then closed c else c)) conns.

Lemma close_conns_nil conns : close_conns [] conns = conns.
Proof.
  apply map_eq. intros s. unfold close_conns. rewrite map_lookup_imap.
  by destruct (conns !! s).
Qed.

Lemma close_conns_cons s ss c conns :
  conns !! s = Some c →
  close_conns ss (<[s := closed c]> conns) = close_conns (s :: ss) conns.
Proof.
  intros Hs. apply map_eq. intros s'. unfold close_conns. rewrite !map_lookup_imap.
  destruct (decide (s = s')) as [<-|Hne].
  - rewrite lookup_insert_eq, Hs. simpl. rewrite (decide_True _ _ (P := s ∈ s :: ss)) by set_solver.
    by case_decide.
  - rewrite lookup_insert_ne by done. destruct (conns !! s') as [c'|]; simpl; [|done].
    by rewrite (decide_ext (s' ∈ s :: ss) (s' ∈ ss)) by set_solver.
Qed.

Lemma run_drain fuel q items p :
  clean p → p_heap p !! q = Some items → length items < fuel →
  (∀ s, s ∈ items → is_open p s) → NoDup items →
  run (drain fuel q) p =
    (Ok tt, mkPool (p_queues p) (<[q := []]> (p_heap p)) (close_conns items (p_conns p))
              (p_dials p) (p_next p)).
Proof.
  revert items p. induction fuel as [|fuel IH]; intros items p Hcl Hq Hlt Ho Hnd; [lia|].
  cbn [drain]. rewrite run_bind, run_try, run_bind, run_act. unfold get_nowait. rewrite Hq.
  destruct items as [|s items].
  { simpl. rewrite close_conns_nil, insert_id by done. by destruct p. }
  rewrite run_bind, run_act. destruct (Ho s) as (c & Hc & Hoc); [set_solver|].
  apply NoDup_cons in Hnd as [Hs Hnd].
  unfold sock_close. simpl. rewrite Hc, Hoc, (Hcl _ _ Hc). cbn [run mret prog_ret].
  rewrite (IH items).
  - simpl. by rewrite insert_insert_eq, (close_conns_cons s items c).
  - intros s' c'. simpl. intros [[<- <-]|[_ ?]]%lookup_insert_Some; [by apply (Hcl s c)|by eapply Hcl].
  - simpl. by rewrite lookup_insert_eq.
  - simpl in Hlt. lia.
  - intros s' Hs'. destruct (Ho s') as (c' & Hc' & Hoc'); [set_solver|].
    exists c'. simpl. rewrite lookup_insert_ne; [done|]. by intros ->.
  - done.
Qed.

(** [close_peer] closes exactly the idle connections of the peer: it terminates
    after one round per idle connection, forgets the queue, and leaves the other
    connections and the other peers' queues as they were, when every close
    succeeds. *)
Theorem close_peer_spec fuel hst prt p :
  pool_inv max ∅ p → clean p →
  let a := join_address hst prt in
  (∀ q items, dict_get (p_queues p) a = Some q → p_heap p !! q = Some items → length items < fuel) →
  ∃ p', run (close_peer fuel hst prt) p = (Ok tt, p') ∧ pool_inv max ∅ p' ∧
    dict_get (p_queues p') a = None ∧
    (∀ b, b ≠ a → dict_get (p_queues p') b = dict_get (p_queues p) b) ∧
    (∀ s, is_open p' s ↔ is_open p s ∧
       ¬ ∃ q, dict_get (p_queues p) a = Some q ∧ idle_in (p_heap p) q s) ∧
    (∀ s, s.1 ≠ a → p_conns p' !! s = p_conns p !! s).
Proof.
  intros Hinv Hcl a Hfuel.
  destruct (run_safe (pool_inv max) same_conn ∅ (close_peer fuel hst prt) _ p
    (wp_close_peer max fuel hst prt) Hinv) as (held & Hinv' & Hc & Hr).
  destruct (run (close_peer fuel hst prt) p) as [r p'] eqn:Hrun. cbn [fst snd] in Hr, Hinv'. subst r.
  rewrite <- (union_empty_r_L held) in Hinv'. apply pool_inv_drop in Hinv'; [|done].
  exists p'. split; [done|]. split; [done|].
  unfold close_peer, pop_queue in Hrun. rewrite run_bind, run_act in Hrun. fold a in Hrun.
  assert (∀ b, dict_get (dict_remove (p_queues p) a) b =
    if decide (a = b) then None else dict_get (p_queues p) b) as Hrem.
  { intros b. rewrite !dict_get_lookup, dict_remove_lookup by apply (pi_table_wf _ _ _ Hinv).
    by rewrite lookup_delete. }
  destruct (dict_get (p_queues p) a) as [q|] eqn:Ha.
  - destruct (pi_table _ _ _ Hinv a q Ha) as [Hqa [items Hitems]].
    assert (∀ s, idle_in (p_heap p) q s ↔ s ∈ items) as Hidle by (intros; by apply idle_lookup).
    rewrite (run_drain fuel q items) in Hrun; [|done|done|by eapply Hfuel| |].
    2: { intros s Hs%Hidle. by apply (pi_idle_open _ _ _ Hinv) in Hs. }
    2: { by eapply (hi_nodup _ _ (pi_heap _ _ _ Hinv)). }
    injection Hrun as <-. simpl. unfold is_open, close_conns. simpl. split_and!.
    + rewrite Hrem. by rewrite decide_True.
    + intros b Hb. rewrite Hrem. by rewrite decide_False.
    + intros s. rewrite map_lookup_imap. destruct (p_conns p !! s) as [c|] eqn:Hs; simpl; [|naive_solver].
      case_decide as Hin; [|naive_solver]. split; [naive_solver|]. intros [_ []].
      exists q. by rewrite Hidle.
    + intros s Hs. rewrite map_lookup_imap. destruct (p_conns p !! s) as [c|] eqn:Hcs; simpl; [|done].
      rewrite decide_False; [done|]. intros Hi%Hidle.
      apply (hi_addr _ _ (pi_heap _ _ _ Hinv)) in Hi. congruence.
  - injection Hrun as <-. simpl. split_and!; [| | |done].
    + rewrite Hrem. by rewrite decide_True.
    + intros b Hb. rewrite Hrem. by rewrite decide_False.
    + unfold is_open. simpl. naive_solver.
Qed.
End closing.

(** ** A pool with an idle connection *)

Definition sample_address : string := join_address "10.0.0.2" 7000.

Definition sample_pool : pool :=
  mkPool [(sample_address, (sample_address, 0))]
    {[(sample_address, 0) := [(sample_address, 1)]]}
    {[(sample_address, 1) := sample_conn]} [Ok sample_conn] 2.

Lemma sample_heap q items :
  p_heap sample_pool !! q = Some items → (sample_address, 0) = q ∧ [(sample_address, 1)] = items.
Proof. unfold sample_pool. simpl. by rewrite lookup_singleton_Some. Qed.

Lemma sample_conns s c :
  p_conns sample_pool !! s = Some c → (sample_address, 1) = s ∧ sample_conn = c.
Proof. unfold sample_pool. simpl. by rewrite lookup_singleton_Some. Qed.

Lemma sample_pool_inv : pool_inv 16 ∅ sample_pool.
Proof.
  assert (∀ q s, idle_in (p_heap sample_pool) q s ↔
    q = (sample_address, 0) ∧ s = (sample_address, 1)) as Hidle.
  { intros q s. unfold idle_in. split.
    - intros (? & [<- <-]%sample_heap & ?%list_elem_of_singleton). done.
    - intros [-> ->]. exists [(sample_address, 1)]. split; [done|set_solver]. }
  split.
  - split.
    + by intros q s [-> ->]%Hidle.
    + intros q items Hq. apply sample_heap in Hq as [<- <-]. apply NoDup_singleton.
    + intros q items Hq. apply sample_heap in Hq as [<- <-]. simpl. lia.
    + by intros q1 q2 s [-> _]%Hidle [-> _]%Hidle.
  - intros q s [-> ->]%Hidle. by exists sample_conn.
  - intros a q. simpl. case_decide; [|done]. intros [= <-]. subst. split; [done|]. by eexists.
  - apply NoDup_singleton.
  - set_solver.
  - set_solver.
  - intros s (c & Hc & _). apply sample_conns in Hc as [<- _]. right. exists (sample_address, 0). by apply Hidle.
  - intros s [c Hc]. apply sample_conns in Hc as [<- _]. simpl. lia.
  - intros q [c Hc]. apply sample_heap in Hc as [<- _]. simpl. lia.
Qed.

Lemma sample_pool_quiet : quiet sample_pool.
Proof.
  split.
  - intros s c Hs. by apply sample_conns in Hs as [_ <-].
  - by intros c [= ->]%list_elem_of_singleton.
Qed.

Lemma pool_execute_spec_witness :
  ∃ o p', run (execute (H := sample_pickle) 16 "10.0.0.2" 7000 sample_msg) sample_pool = (Ok o, p') ∧
    pool_inv 16 ∅ p' ∧
    match idle_top sample_address sample_pool with
    | None => fresh_call (H := sample_pickle) sample_address sample_msg (p_conns sample_pool)
        (p_dials sample_pool) o p'
    | Some s => s.1 = sample_address ∧ ∃ c, p_conns sample_pool !! s = Some c ∧ c_open c = true ∧
        match talk (H := sample_pickle) sample_msg c with
        | (Ok m, k) => o = Some m ∧ idle_top sample_address p' = Some s ∧
            p_dials p' = p_dials sample_pool ∧
            p_conns p' = <[s := set_sock k c]> (p_conns sample_pool)
        | (Raise _, k) => fresh_call (H := sample_pickle) sample_address sample_msg
            (<[s := closed (set_sock k c)]> (p_conns sample_pool)) (p_dials sample_pool) o p'
        end
    end.
Proof.
  apply (pool_execute_spec (H := sample_pickle) 16 "10.0.0.2" 7000 sample_msg sample_pool
    sample_pool_inv).
Defined.

Lemma async_pool_equiv_witness :
  run (execute_async (H := sample_pickle) 16 "10.0.0.2" 7000 sample_msg) sample_pool =
  run (execute (H := sample_pickle) 16 "10.0.0.2" 7000 sample_msg) sample_pool.
Proof.
  apply (async_pool_equiv (H := sample_pickle) 16 "10.0.0.2" 7000 sample_msg sample_pool
    sample_pool_inv sample_pool_quiet).
Defined.

Lemma close_peer_spec_witness :
  ∃ p', run (close_peer 2 "10.0.0.2" 7000) sample_pool = (Ok tt, p') ∧ pool_inv 16 ∅ p' ∧
    dict_get (p_queues p') sample_address = None ∧
    (∀ b, b ≠ sample_address → dict_get (p_queues p') b = dict_get (p_queues sample_pool) b) ∧
    (∀ s, is_open p' s ↔ is_open sample_pool s ∧
       ¬ ∃ q, dict_get (p_queues sample_pool) sample_address = Some q ∧
         idle_in (p_heap sample_pool) q s) ∧
    (∀ s, s.1 ≠ sample_address → p_conns p' !! s = p_conns sample_pool !! s).
Proof.
  apply (close_peer_spec 16 2 "10.0.0.2" 7000 sample_pool sample_pool_inv).
  - intros s c Hs. by apply sample_conns in Hs as [_ <-].
  - intros q items [= <-] Hq. apply sample_heap in Hq as [_ <-]. simpl. lia.
Defined.
