(* ===== verification/Mux.v ===== *)
(** * The multiplexed pool ([dlstorage/connection_pool/mux.py])

    Callers send synchronously and hand the socket to one I/O thread, which reads
    the responses of all requests incrementally.  [_handle_read] is a state
    machine on the in-flight request: it is proved to deliver what
    [recv_message] would return, however the response arrives. *)
From S2P Require Import Prelude PyBase Bytes PyDict Types Wire Threads Pool.

(** ** Requests in flight *)

(** [_InFlight]: [f_event] and [f_result] are shared with the calling thread. *)
Record inflight := mkInFlight {
  f_address : string;
  f_event : bool;
  f_result : option Message;
  f_buf : list byte;
  f_expected : nat;
  f_hdr_done : bool;
}.

(** [_InFlight(address=address, event=Event(), result=[None])]. *)
Definition new_inflight (a : string) : inflight := mkInFlight a false None [] HEADER_SIZE false.

Definition set_buf (buf : list byte) (f : inflight) : inflight :=
  mkInFlight (f_address f) (f_event f) (f_result f) buf (f_expected f) (f_hdr_done f).

(** What one readable event leads to. *)
Inductive read_outcome :=
  | Wait (f : inflight)
  | Failed
  | Deliver (msg : Message).

Section read.
Context `{Pickle}.

(** The decisions of [_handle_read]. *)
Definition read_step (f : inflight) : M sock read_outcome := λ s,
  let need := f_expected f - length (f_buf f) in
  match recv need s with
  | (Raise BlockingIOError, s') | (Raise InterruptedError, s') => (Ok (Wait f), s')
  | (Raise _, s') => (Ok Failed, s')
  | (Ok [], s') => (Ok Failed, s')
  | (Ok chunk, s') =>
      let buf := f_buf f ++ chunk in
      if bool_decide (length buf < f_expected f) then (Ok (Wait (set_buf buf f)), s')
      else if f_hdr_done f then
        match loads buf with
        | Ok msg => (Ok (Deliver msg), s')
        | Raise _ => (Ok Failed, s')
        end
      else
        let expected := Z.to_nat (from_bytes (take HEADER_SIZE buf)) in
        (Ok (Wait (mkInFlight (f_address f) (f_event f) (f_result f) [] expected true)), s')
  end.

(** The readable events of one socket, until the request is settled. *)
Fixpoint pump (fuel : nat) (f : inflight) : M sock (option (option Message)) :=
  match fuel with
  | O => mret None
  | S fuel =>
      o ← read_step f;
      match o with
      | Wait f => pump fuel f
      | Failed => mret (Some None)
      | Deliver msg => mret (Some (Some msg))
      end
  end.
End read.

(** ** The pool *)

(** [_idle] (the left end of a deque first), the sockets, the in-flight objects,
    [_reg_queue], the map of the selector, the connection attempts to come, the
    next free number and [_running]. *)
Record mux := mkMux {
  x_idle : list (string * list ref);
  x_conns : gmap ref conn;
  x_flights : gmap nat inflight;
  x_reg : list (ref * nat);
  x_sel : list (ref * nat);
  x_dials : list (result conn);
  x_next : nat;
  x_running : bool;
}.

Definition set_idle v x :=
  mkMux v (x_conns x) (x_flights x) (x_reg x) (x_sel x) (x_dials x) (x_next x) (x_running x).
Definition set_xconns v x :=
  mkMux (x_idle x) v (x_flights x) (x_reg x) (x_sel x) (x_dials x) (x_next x) (x_running x).
Definition set_flights v x :=
  mkMux (x_idle x) (x_conns x) v (x_reg x) (x_sel x) (x_dials x) (x_next x) (x_running x).
Definition set_sel v x :=
  mkMux (x_idle x) (x_conns x) (x_flights x) (x_reg x) v (x_dials x) (x_next x) (x_running x).

(** [sock.sendall(data)] and [sock.close()] on a socket of the pool. *)
Definition mux_sendall (s : ref) (data : list byte) : M mux unit := λ x,
  match x_conns x !! s with
  | Some c =>
      if c_open c then
        let '(r, k) := sendall data (c_sock c) in
        (r, set_xconns (<[s := set_sock k c]> (x_conns x)) x)
      else (Raise OSError, x)
  | None => (Raise OSError, x)
  end.

Definition mux_close (s : ref) : M mux unit := λ x,
  match x_conns x !! s with
  | Some c =>
      if c_open c then
        (if c_close_fails c then Raise OSError else Ok tt,
         set_xconns (<[s := closed c]> (x_conns x)) x)
      else (Ok tt, x)
  | None => (Ok tt, x)
  end.

Definition mux_close_quietly (s : ref) : M mux unit :=
  try_except (mux_close s) (λ _, mret tt).

(** [pool.pop()]: the right end of a deque. *)
Definition pop_right {A} (l : list A) : option (A * list A) :=
  match last l with Some a => Some (a, removelast l) | None => None end.

(** The part of [_acquire] under the lock. *)
Definition pop_idle (a : string) : M mux (option ref) := λ x,
  match dict_get (x_idle x) a with
  | Some pool =>
      match pop_right pool with
      | Some (s, pool') => (Ok (Some s), set_idle (dict_set (x_idle x) a pool') x)
      | None => (Ok None, x)
      end
  | None => (Ok None, x)
  end.

(** The rest of [_acquire]: a new connection, or [None]; a socket whose connect
    fails is closed. *)
Definition mux_connect (a : string) : M mux (option ref) := λ x,
  match x_dials x with
  | Ok c :: ds =>
      let s := (a, x_next x) in
      let c := mkConn (c_sock c) true (c_close_fails c) (c_checks c) in
      (Ok (Some s), mkMux (x_idle x) (<[s := c]> (x_conns x)) (x_flights x) (x_reg x) (x_sel x) ds
                      (S (x_next x)) (x_running x))
  | Raise _ :: ds =>
      (Ok None, mkMux (x_idle x) (x_conns x) (x_flights x) (x_reg x) (x_sel x) ds (x_next x)
                  (x_running x))
  | [] => (Ok None, x)
  end.

Definition _acquire (a : string) : prog mux (option ref) :=
  idle ← act (pop_idle a);
  match idle with Some s => mret (Some s) | None => act (mux_connect a) end.

(** [_return]: the left end of the deque, or closed when the deque is full. *)
Definition _return (max : Z) (a : string) (s : ref) : M mux unit := λ x,
  let idle := match dict_get (x_idle x) a with Some _ => x_idle x | None => dict_set (x_idle x) a [] end in
  let pool := default [] (dict_get idle a) in
  if bool_decide (Z.of_nat (length pool) < max)%Z
  then (Ok tt, set_idle (dict_set idle a (s :: pool)) x)
  else mux_close s (set_idle idle x).

(** [_sel.unregister(s)]. *)
Definition unregister (s : ref) : M mux unit :=
  modify (λ x, set_sel (filter (λ e : ref * nat, e.1 ≠ s) (x_sel x)) x).

(** [inflight.event.set()], with the result written before. *)
Definition settle (i : nat) (r : option Message) : M mux unit :=
  modify (λ x, set_flights (alter (λ f, mkInFlight (f_address f) true
    (match r with Some m => Some m | None => f_result f end)
    (f_buf f) (f_expected f) (f_hdr_done f)) i (x_flights x)) x).

Definition _fail (s : ref) (i : nat) : M mux unit :=
  unregister s ;; mux_close_quietly s ;; settle i None.

Section calls.
Context `{Pickle} (max : Z).

Definition _handle_read (s : ref) (i : nat) : M mux unit := λ x,
  match x_conns x !! s, x_flights x !! i with
  | Some c, Some f =>
      if negb (c_open c) then _fail s i x else  (* recv on a closed socket raises *)
      let '(o, k) := read_step f (c_sock c) in
      let x := set_xconns (<[s := set_sock k c]> (x_conns x)) x in
      match o with
      | Ok (Wait f') => (Ok tt, set_flights (<[i := f']> (x_flights x)) x)
      | Ok (Deliver msg) =>
          (unregister s ;; _return max (f_address f) s ;; settle i (Some msg)) x
      | _ => _fail s i x
      end
  | _, _ => (Ok tt, x)
  end.

(** What [_io_loop] comes upon: the head of its loop, then for each key that
    [select] returned, the wake-up socket, whose queued sockets are registered, or a
    registered socket. A [select] that raises returns no key. *)
Inductive io_event := IoRound | IoWake | IoReadable (s : ref).

Definition io_step (ev : io_event) : M mux unit :=
  match ev with
  | IoRound => mret tt
  | IoWake => modify (λ x, mkMux (x_idle x) (x_conns x) (x_flights x) [] (x_sel x ++ x_reg x)
                 (x_dials x) (x_next x) (x_running x))
  | IoReadable s => λ x,
      match list_find (λ e : ref * nat, e.1 = s) (x_sel x) with
      | Some (_, (_, i)) => _handle_read s i x
      | None => (Ok tt, x)
      end
  end.

Definition is_running : M mux bool := λ x, (Ok (x_running x), x).

(** The end of [_io_loop] unblocks the callers still waiting. *)
Definition io_shutdown : M mux unit :=
  x ← get_state; for_each (x_sel x).*2 (λ i, settle i None).

(** The loop over what it will come upon. *)
Fixpoint _io_loop (events : list io_event) : prog mux unit :=
  match events with
  | [] => mret tt
  | IoRound :: events =>
      running ← act is_running;
      if running : bool then _io_loop events else act io_shutdown
  | ev :: events => act (io_step ev) ;; _io_loop events
  end.

(** [self._reg_queue.put((sock, inflight))]. *)
Definition submit (a : string) (s : ref) : M mux nat := λ x,
  let i := x_next x in
  (Ok i, mkMux (x_idle x) (x_conns x) (<[i := new_inflight a]> (x_flights x))
           (x_reg x ++ [(s, i)]) (x_sel x) (x_dials x) (S i) (x_running x)).

(** [inflight.result[0]], after the event or the time-out. *)
Definition read_result (i : nat) : M mux (option Message) := λ x,
  (Ok (x_flights x !! i ≫= f_result), x).

(** [execute] up to the wait for the event: the number of the request, if it was
    sent. *)
Definition mux_request (h : string) (prt : Z) (msg : Message) : prog mux (option nat) :=
  let address := join_address h prt in
  sock ← _acquire address;
  match sock with
  | None => mret None
  | Some s =>
      bytes ← Ret (frame msg);
      sent ← prog_try (act (mux_sendall s bytes) ;; mret true)
        (λ _, act (mux_close s) ;; mret false);
      if sent : bool then
        i ← act (submit address s);
        mret (Some i)
      else mret None
  end.

Definition mux_execute (h : string) (prt : Z) (msg : Message) : prog mux (option Message) :=
  request ← mux_request h prt msg;
  match request with Some i => act (read_result i) | None => mret None end.

Definition pop_deque (a : string) : M mux (list ref) := λ x,
  (Ok (default [] (dict_get (x_idle x) a)), set_idle (dict_remove (x_idle x) a) x).

Fixpoint close_each (ss : list ref) : prog mux unit :=
  match ss with
  | [] => mret tt
  | s :: ss => act (mux_close_quietly s) ;; close_each ss
  end.

Definition mux_close_peer (h : string) (prt : Z) : prog mux unit :=
  socks ← act (pop_deque (join_address h prt));
  close_each socks.

(** [close_all]: the loop is told to stop, then the idle sockets are closed under the
    lock.  The time [join] waits for the loop is not modelled. *)
Definition mux_close_all : prog mux unit :=
  act (modify (λ x, mkMux (x_idle x) (x_conns x) (x_flights x) (x_reg x) (x_sel x) (x_dials x)
         (x_next x) false)) ;;
  act (x ← get_state; for_each (concat (x_idle x).*2) mux_close_quietly ;; modify (set_idle [])).
End calls.

(** ** Incremental reading *)
Section reading.
Context `{PickleLaws}.

(** Events of a non-blocking socket that carry nothing. *)
Definition blocking (e : rx) : bool :=
  match e with Err BlockingIOError | Err InterruptedError => true | _ => false end.

Definition solid (i : list rx) : list rx := filter (λ e, blocking e = false) i.

(** The bytes [buf] complete the current part of the message. *)
Definition complete (fuel : nat) (f : inflight) (buf : list byte) : M sock (option (option Message)) :=
  if f_hdr_done f then
    mret (Some (match loads buf with Ok msg => Some msg | Raise _ => None end))
  else
    pump fuel (mkInFlight (f_address f) (f_event f) (f_result f) []
      (Z.to_nat (from_bytes (take HEADER_SIZE buf))) true).

(** One readable event that completes the part. *)
Lemma pump_complete fuel f s s' b bs :
  recv (f_expected f - length (f_buf f)) s = (Ok (b :: bs), s') →
  length (f_buf f ++ b :: bs) = f_expected f →
  pump (S fuel) f s = complete fuel f (f_buf f ++ b :: bs) s'.
Proof.
  intros Hr Hlen. simpl. unfold read_step. unfold_M. rewrite Hr.
  rewrite bool_decide_eq_false_2 by lia. unfold complete.
  destruct (f_hdr_done f); [|done]. by destruct (loads _).
Qed.

(** One that does not. *)
Lemma pump_wait fuel f s s' b bs :
  recv (f_expected f - length (f_buf f)) s = (Ok (b :: bs), s') →
  length (f_buf f ++ b :: bs) < f_expected f →
  pump (S fuel) f s = pump fuel (set_buf (f_buf f ++ b :: bs) f) s'.
Proof.
  intros Hr Hlen. simpl. unfold read_step. unfold_M. rewrite Hr.
  by rewrite bool_decide_eq_true_2.
Qed.

Lemma solid_unread bs i : solid (unread bs i) = unread bs (solid i).
Proof. unfold solid. by destruct bs. Qed.

Lemma length_unread bs i : length (unread bs i) ≤ S (length i).
Proof. destruct bs; simpl; lia. Qed.

(** What a readable piece gives, [S n] bytes being needed. *)
Lemma recv_piece n b bs i out flt :
  recv (S n) (mkSock (Data b bs :: i) out flt) =
    (Ok (b :: take n bs), mkSock (unread (drop n bs) i) out flt).
Proof. done. Qed.

(** The events up to the completion of the current part: the bytes read are those
    [readexactly] would read; an event is spent for each piece and one for the
    last. *)
Definition part_read (fuel : nat) (f : inflight) (s : sock) : Prop :=
  match read_rx (f_expected f - length (f_buf f)) (f_buf f) (solid (s_in s)) with
  | (Raise _, _) => ∃ s', pump fuel f s = (Ok (Some None), s')
  | (Ok buf, i1) => ∃ i2 fuel',
      pump fuel f s = complete fuel' f buf (set_in i2 s) ∧ solid i2 = i1 ∧
      fuel + length i2 ≤ S (fuel' + length (s_in s))
  end.

Lemma part_read_data fuel f b bs i out flt :
  length (f_buf f) < f_expected f →
  (length (f_buf f ++ b :: bs) < f_expected f →
     part_read fuel (set_buf (f_buf f ++ b :: bs) f) (mkSock i out flt)) →
  part_read (S fuel) f (mkSock (Data b bs :: i) out flt).
Proof.
  intros Hlt IH. unfold part_read. cbn [s_in].
  replace (solid (Data b bs :: i)) with (Data b bs :: solid i) by done.
  destruct (f_expected f - length (f_buf f)) as [|n] eqn:Hn; [lia|]. cbn [read_rx].
  pose proof (recv_piece n b bs i out flt) as Hr. rewrite <- Hn in Hr at 1.
  case_bool_decide as Hb.
  - rewrite take_ge, drop_ge in Hr by lia. cbn [unread] in Hr.
    destruct (decide (length bs = n)) as [Heq|Hne].
    + rewrite Heq, Nat.sub_diag, read_rx_0. exists i, fuel.
      rewrite (pump_complete _ _ _ _ _ _ Hr) by (rewrite length_app; simpl; lia).
      split_and!; [done..|simpl; lia].
    + assert (length (f_buf f ++ b :: bs) < f_expected f) as Hlt' by (rewrite length_app; simpl; lia).
      specialize (IH Hlt'). unfold part_read in IH. cbn [f_expected f_buf set_buf s_in] in IH.
      replace (f_expected f - length (f_buf f ++ b :: bs)) with (S n - S (length bs)) in IH
        by (rewrite length_app; simpl; lia).
      rewrite (pump_wait _ _ _ _ _ _ Hr Hlt').
      destruct (read_rx _ _ _) as [[buf|e] i1]; [|done].
      destruct IH as (i2 & fuel' & Hp & Hi & Hf). exists i2, fuel'.
      split_and!; [done..|simpl; lia].
  - exists (unread (drop n bs) i), fuel.
    rewrite (pump_complete _ _ _ _ _ _ Hr)
      by (rewrite length_app; simpl; rewrite length_take; lia).
    split_and!; [done|apply solid_unread|]. simpl. pose proof (length_unread (drop n bs) i). lia.
Qed.

Lemma part_read_err fuel f e i out flt :
  length (f_buf f) < f_expected f → part_read fuel f (mkSock i out flt) →
  part_read (S fuel) f (mkSock (Err e :: i) out flt).
Proof.
  intros Hlt IH. unfold part_read. cbn [s_in].
  assert (recv (f_expected f - length (f_buf f)) (mkSock (Err e :: i) out flt) =
    (Raise e, mkSock i out flt)) as Hr.
  { unfold recv. by destruct (f_expected f - length (f_buf f)) eqn:?; [lia|]. }
  destruct (blocking (Err e)) eqn:He; unfold solid; rewrite filter_cons, He; case_decide; try done.
  - assert (pump (S fuel) f (mkSock (Err e :: i) out flt) = pump fuel f (mkSock i out flt)) as ->.
    { simpl. unfold read_step. unfold_M. rewrite Hr. by destruct e. }
    unfold part_read in IH. fold (solid i). destruct (read_rx _ _ _) as [[buf|e'] i1]; [|done].
    destruct IH as (i2 & fuel' & Hp & Hi & Hf). exists i2, fuel'. split_and!; [done..|simpl in *; lia].
  - destruct (f_expected f - length (f_buf f)) as [|n] eqn:Hn; [lia|]. cbn [read_rx].
    eexists. simpl. unfold read_step. unfold_M. rewrite Hn, Hr. by destruct e.
Qed.

Lemma pump_part fuel f s :
  length (f_buf f) < f_expected f → length (s_in s) < fuel → part_read fuel f s.
Proof.
  destruct s as [i out flt]. cbn [s_in]. revert fuel f.
  induction i as [|[b bs|e] i IH]; intros [|fuel] f Hlt Hfuel; simpl in Hfuel; try lia.
  - unfold part_read. simpl. destruct (f_expected f - length (f_buf f)) as [|n] eqn:Hn; [lia|].
    simpl. eexists. unfold read_step, recv. unfold_M. by rewrite Hn.
  - apply part_read_data; [done|]. intros. apply IH; simpl; [done|lia].
  - apply part_read_err; [done|]. apply IH; [done|lia].
Qed.

(** C27. The selector thread reads what a blocking receiver would.  However the
    response is cut into pieces, and however often the socket has nothing to give
    after all, reading it event by event settles the request within one event per
    piece and two more, with the message [recv_message] returns, leaving the rest
    of the stream unread; and with failure exactly when [recv_message] raises. *)
Theorem mux_reads_like_recv a s fuel :
  length (s_in s) + 1 < fuel →
  ∃ o s', pump fuel (new_inflight a) s = (Ok (Some o), s') ∧
    match recv_message (set_in (solid (s_in s)) s) with
    | (Ok msg, k) => o = Some msg ∧ solid (s_in s') = s_in k
    | (Raise _, _) => o = None
    end.
Proof.
  intros Hfuel. pose proof (pump_part fuel (new_inflight a) s) as Hhd.
  unfold part_read in Hhd. unfold recv_message. unfold_M. rewrite recvexactly_readexactly. unfold readexactly at 1.
  cbn [s_in set_in f_expected f_buf new_inflight length] in *.
  specialize (Hhd ltac:(unfold HEADER_SIZE; lia) ltac:(lia)). rewrite Nat.sub_0_r in Hhd.
  destruct (read_rx HEADER_SIZE [] (solid (s_in s))) as [[header|e] i1] eqn:Hh.
  2: { destruct Hhd as [s' ->]. by eexists _, _. }
  destruct Hhd as (i2 & fuel' & -> & <- & Hf). unfold complete.
  assert (take HEADER_SIZE header = header) as ->.
  { apply take_ge. apply read_rx_length in Hh. simpl in Hh. lia. }
  set (n := Z.to_nat (from_bytes header)). cbn [f_address f_event f_result f_hdr_done new_inflight].
  set (f := mkInFlight a false None [] n true). rewrite recvexactly_readexactly. unfold readexactly.
  cbn [s_in set_in]. destruct (decide (n = 0)) as [Hn|Hn].
  - rewrite Hn, read_rx_0. destruct loads_empty as [e ->]. destruct fuel' as [|fuel']; [lia|].
    simpl. unfold read_step, recv. unfold_M. simpl. rewrite Hn. simpl. eauto.
  - pose proof (pump_part fuel' f (set_in i2 s) ltac:(simpl; lia) ltac:(simpl; lia)) as Hbd.
    unfold part_read in Hbd. cbn [f_expected f_buf f length set_in s_in] in Hbd. rewrite Nat.sub_0_r in Hbd.
    destruct (read_rx n [] (solid i2)) as [[data|e] i3]; [|by destruct Hbd as [s' ->]; eauto].
    destruct Hbd as (i4 & fuel'' & -> & <- & _). unfold complete. simpl. unfold_M.
    destruct (loads data) as [msg|e]; by eexists _, _.
Qed.
End reading.

(** ** The idle deque *)

Lemma pop_idle_snoc a s l x :
  dict_get (x_idle x) a = Some (l ++ [s]) →
  pop_idle a x = (Ok (Some s), set_idle (dict_set (x_idle x) a l) x).
Proof.
  intros Ha. unfold pop_idle, pop_right. by rewrite Ha, last_snoc, removelast_last.
Qed.

Lemma return_room max a s x l :
  dict_get (x_idle x) a = Some l → (Z.of_nat (length l) < max)%Z →
  _return max a s x = (Ok tt, set_idle (dict_set (x_idle x) a (s :: l)) x).
Proof.
  intros Ha Hl. unfold _return. rewrite Ha. cbn [default]. rewrite Ha. simpl.
  by rewrite bool_decide_eq_true_2.
Qed.

Lemma dict_set_get {V} (d : list (string * V)) k v : dict_get (dict_set d k v) k = Some v.
Proof. by rewrite dict_get_lookup, dict_set_lookup, lookup_insert_eq. Qed.

Lemma return_all max a ss l x :
  dict_get (x_idle x) a = Some l → (Z.of_nat (length l + length ss) ≤ max)%Z →
  ∃ x', for_each ss (_return max a) x = (Ok tt, x') ∧
    dict_get (x_idle x') a = Some (rev ss ++ l).
Proof.
  revert l x. induction ss as [|s ss IH]; intros l x Ha Hl; simpl in *; [by exists x|].
  unfold_M. rewrite (return_room max a s x l) by (done || lia).
  destruct (IH (s :: l) (set_idle (dict_set (x_idle x) a (s :: l)) x)) as (x' & Hx & Ha').
  - apply dict_set_get.
  - simpl. lia.
  - exists x'. split; [done|]. by rewrite Ha', <- app_assoc.
Qed.

Lemma pop_all a ss x :
  dict_get (x_idle x) a = Some (rev ss) →
  ∃ x', map_each ss (λ _, pop_idle a) x = (Ok (Some <$> ss), x').
Proof.
  revert x. induction ss as [|s ss IH]; intros x Ha; [by eexists|]. simpl in *. unfold_M.
  rewrite (pop_idle_snoc a s _ x Ha).
  destruct (IH (set_idle (dict_set (x_idle x) a (rev ss)) x)) as [x' ->]; [apply dict_set_get|].
  by eexists.
Qed.

(** Idle connections are reused first in, first out: connections returned one
    after the other to a peer that had none idle are handed out again in the order
    of their return, as long as the bound is not reached. *)
Theorem mux_idle_fifo max a ss x :
  default [] (dict_get (x_idle x) a) = [] → (Z.of_nat (length ss) ≤ max)%Z →
  ∃ x1 x2, for_each ss (_return max a) x = (Ok tt, x1) ∧
    map_each ss (λ _, pop_idle a) x1 = (Ok (Some <$> ss), x2).
Proof.
  intros Ha Hl. destruct ss as [|s ss]; [by eexists _, _|]. simpl in Hl.
  assert (∃ x0, _return max a s x = (Ok tt, x0) ∧ dict_get (x_idle x0) a = Some [s])
    as (x0 & Hs & Ha0).
  { unfold _return. destruct (dict_get (x_idle x) a) as [l|] eqn:Hl'; simpl in *.
    - subst. rewrite Hl'. simpl. rewrite bool_decide_eq_true_2 by lia.
      eexists. split; [done|]. apply dict_set_get.
    - rewrite dict_set_get. simpl. rewrite bool_decide_eq_true_2 by lia.
      eexists. split; [done|]. apply dict_set_get. }
  simpl for_each. unfold_M. rewrite Hs.
  destruct (return_all max a ss [s] x0 Ha0) as (x1 & Hx1 & Ha1); [simpl; lia|].
  destruct (pop_all a (s :: ss) x1 Ha1) as [x2 Hx2].
  exists x1, x2. split; [exact Hx1|exact Hx2].
Qed.

(** A request that cannot be framed costs a connection: when pickling fails, or
    the pickle is too long, [execute] raises after it has taken an idle connection
    out of the deque, and neither returns nor closes it. *)
Theorem mux_unframed_request_leaks `{Pickle} h prt msg e x s x' :
  frame msg = Raise e → pop_idle (join_address h prt) x = (Ok (Some s), x') →
  run (mux_execute h prt msg) x = (Raise e, x') ∧ x_conns x' = x_conns x.
Proof.
  intros He Hp. split.
  - unfold mux_execute, mux_request, _acquire. cbv zeta. rewrite !run_bind, run_act, Hp.
    cbn [run mret prog_ret]. by rewrite He.
  - unfold pop_idle in Hp. repeat case_match; by simplify_eq.
Qed.

(** ** Samples *)

Definition sample_mux : mux :=
  mkMux [("10.0.0.2:7000"%string, [("10.0.0.2:7000"%string, 0)])]
    {[("10.0.0.2:7000"%string, 0) := mkConn (mkSock [] [] None) true false []]} ∅ [] [] [] 1 true.

Lemma mux_reads_like_recv_witness :
  let s := mkSock [Data x00 [x00; x00]; Err BlockingIOError; Data x02 [x80]; Data x05 [x00]] [] None in
  ∃ o s', pump (H := sample_pickle) 6 (new_inflight "10.0.0.2:7000") s = (Ok (Some o), s') ∧
    match recv_message (H := sample_pickle) (set_in (solid (s_in s)) s) with
    | (Ok msg, k) => o = Some msg ∧ solid (s_in s') = s_in k
    | (Raise _, _) => o = None
    end.
Proof.
  apply (mux_reads_like_recv (H := sample_pickle) (H0 := sample_pickle_laws) "10.0.0.2:7000"
    (mkSock [Data x00 [x00; x00]; Err BlockingIOError; Data x02 [x80]; Data x05 [x00]] [] None) 6).
  simpl. lia.
Defined.

Lemma mux_idle_fifo_witness :
  let ss := [("10.0.0.3:7000"%string, 1); ("10.0.0.3:7000"%string, 2)] in
  ∃ x1 x2, for_each ss (_return 64 "10.0.0.3:7000") sample_mux = (Ok tt, x1) ∧
    map_each ss (λ _, pop_idle "10.0.0.3:7000") x1 = (Ok (Some <$> ss), x2).
Proof.
  apply (mux_idle_fifo 64 "10.0.0.3:7000"
    [("10.0.0.3:7000"%string, 1); ("10.0.0.3:7000"%string, 2)] sample_mux eq_refl).
  simpl. lia.
Defined.

Lemma mux_unframed_request_leaks_witness :
  let x' := mkMux [("10.0.0.2:7000"%string, [])] (x_conns sample_mux) ∅ [] [] [] 1 true in
  run (mux_execute (H := sample_pickle) "10.0.0.2" 7000 (mkMessage PONG None)) sample_mux =
    (Raise PicklingError, x') ∧ x_conns x' = x_conns sample_mux.
Proof.
  apply (mux_unframed_request_leaks (H := sample_pickle) "10.0.0.2" 7000 (mkMessage PONG None)
    PicklingError sample_mux ("10.0.0.2:7000"%string, 0)); vm_compute; reflexivity.
Defined.
