(* ===== verification/MuxShare.v ===== *)
(** * Sharing the multiplexed pool

    Callers and the selector thread run concurrently on one pool.  Between any two
    atomic actions an open socket is idle under the address of its peer, or in
    flight for one request, or held by one caller, and in no two of these places. *)
From S2P Require Import Prelude PyBase Bytes PyDict Types Wire Threads Pool Mux.

Implicit Types (x : mux) (s : ref) (i : nat).

(** The sockets in flight, registered or about to be. *)
Definition flying x : list (ref * nat) := x_reg x ++ x_sel x.

(** The sockets the pool knows of. *)
Definition places x : list ref := concat (x_idle x).*2 ++ (flying x).*1.

Definition x_open x s : Prop := ∃ c, x_conns x !! s = Some c ∧ c_open c = true.

(** A request in flight belongs to the peer of its socket and has no result yet. *)
Definition flight_of x s i : Prop :=
  ∃ f, x_flights x !! i = Some f ∧ f_address f = s.1 ∧ f_result f = None.

Record mux_inv (max : Z) (held : gset (option ref)) x : Prop := {
  mi_places : NoDup (places x);
  mi_open s : x_open x s ↔ Some s ∈ held ∨ s ∈ places x;
  mi_held s : Some s ∈ held → s ∉ places x;
  mi_keys : dict_wf (x_idle x);
  mi_idle a l : (a, l) ∈ x_idle x → (∀ s, s ∈ l → s.1 = a) ∧ length l ≤ Z.to_nat max;
  mi_flights : NoDup (flying x).*2;
  mi_flying s i : (s, i) ∈ flying x → flight_of x s i;
  mi_fresh_conn s : is_Some (x_conns x !! s) → s.2 < x_next x;
  mi_fresh_flight i : is_Some (x_flights x !! i) → i < x_next x;
}.

(** ** Idle deques *)

Lemma concat_remove {A} (d : list (string * list A)) a l :
  dict_get d a = Some l → concat d.*2 ≡ₚ l ++ concat (dict_remove d a).*2.
Proof.
  induction d as [|[b l'] d IH]; simpl; [done|]. destruct (decide (a = b)) as [->|Hne]; simpl.
  - rewrite ?decide_True by done. by intros [= ->].
  - rewrite ?decide_False by done. intros Hl. csimpl. rewrite (IH Hl).
    rewrite !(assoc_L (++)). by rewrite (Permutation_app_comm l' l).
Qed.

Lemma concat_set {A} (d : list (string * list A)) a l :
  concat (dict_set d a l).*2 ≡ₚ l ++ concat (dict_remove d a).*2.
Proof.
  induction d as [|[b l'] d IH]; [done|]. simpl. destruct (decide (a = b)); [done|]. csimpl.
  rewrite IH. rewrite !(assoc_L (++)). by rewrite (Permutation_app_comm l' l).
Qed.

Lemma elem_of_dict_set {V} (d : list (string * V)) a v e :
  e ∈ dict_set d a v → e = (a, v) ∨ e ∈ d.
Proof.
  induction d as [|[b v'] d IH]; simpl; [set_solver|].
  destruct (decide (a = b)); set_solver.
Qed.

Lemma elem_of_dict_remove {V} (d : list (string * V)) a e : e ∈ dict_remove d a → e ∈ d.
Proof.
  induction d as [|[b v'] d IH]; simpl; [done|]. destruct (decide (a = b)); set_solver.
Qed.

Lemma pop_right_Some {A} (l l' : list A) (a : A) : pop_right l = Some (a, l') → l = l' ++ [a].
Proof.
  unfold pop_right. destruct l as [|z l0 _] using rev_ind; [done|].
  rewrite last_snoc, removelast_last. by intros [= -> ->].
Qed.

(** ** What a thread holds

    A caller holds sockets; the selector thread holds its selector, [None], and the
    socket it is handling. *)
Definition socks (l : list ref) : gset (option ref) := list_to_set (Some <$> l).

Lemma elem_of_socks r l : r ∈ socks l ↔ ∃ s, r = Some s ∧ s ∈ l.
Proof. unfold socks. rewrite elem_of_list_to_set. apply list_elem_of_fmap. Qed.

Lemma Some_elem_of_socks s l : Some s ∈ socks l ↔ s ∈ l.
Proof. rewrite elem_of_socks. naive_solver. Qed.

Lemma socks_tail s l : s ∉ l → socks (s :: l) ∖ {[Some s]} = socks l.
Proof.
  intros Hs. apply set_eq. intros [s'|]; rewrite elem_of_difference, ?Some_elem_of_socks, ?elem_of_socks;
    set_solver.
Qed.

(** ** Changes of place *)
Section moves.
Context (max : Z).
Implicit Types (held others : gset (option ref)).

(** The parts of the state that say where sockets are and what is in flight. *)
Definition bookkept x : Prop :=
  dict_wf (x_idle x) ∧
  (∀ a l, (a, l) ∈ x_idle x → (∀ s, s ∈ l → s.1 = a) ∧ length l ≤ Z.to_nat max) ∧
  NoDup (flying x).*2 ∧ (∀ s i, (s, i) ∈ flying x → flight_of x s i) ∧
  (∀ i, is_Some (x_flights x !! i) → i < x_next x).

(** Sockets of the pool are taken by a caller. *)
Lemma mux_inv_take l held x x' :
  mux_inv max held x → places x ≡ₚ l ++ places x' → bookkept x' →
  x_conns x' = x_conns x → x_next x' = x_next x →
  socks l ## held ∧ mux_inv max (socks l ∪ held) x'.
Proof.
  intros [] Hp (? & ? & ? & ? & ?) Hc Hn. rewrite Hp in mi_places0.
  apply NoDup_app in mi_places0 as (Hl & Hs & Hnd). split.
  { intros r (s & -> & Hin)%elem_of_socks Hh. apply (mi_held0 s Hh). rewrite Hp. set_solver. }
  split; try done.
  - intros s'. unfold x_open. rewrite Hc. rewrite (mi_open0 s'), Hp, elem_of_union, Some_elem_of_socks.
    clear. set_solver.
  - intros s' [Hin%Some_elem_of_socks|Hin]%elem_of_union; [by apply Hs|].
    specialize (mi_held0 s' Hin). rewrite Hp in mi_held0. clear -mi_held0. set_solver.
  - intros s'. rewrite Hc, Hn. apply mi_fresh_conn0.
Qed.

(** A caller gives a socket to the pool. *)
Lemma mux_inv_give s others x x' :
  Some s ∉ others → mux_inv max ({[Some s]} ∪ others) x → places x' ≡ₚ s :: places x → bookkept x' →
  x_conns x' = x_conns x → x_next x ≤ x_next x' →
  mux_inv max others x'.
Proof.
  intros Hs [] Hp (? & ? & ? & ? & ?) Hc Hn. split; try done.
  - rewrite Hp. apply NoDup_cons. split; [|done]. apply mi_held0. set_solver.
  - intros s'. unfold x_open. rewrite Hc. rewrite (mi_open0 s'), Hp. clear. set_solver.
  - intros s' Hin. rewrite Hp. intros [->|Hin']%elem_of_cons; [done|].
    apply (mi_held0 s'); set_solver.
  - intros s' Hs'. rewrite Hc in Hs'. apply mi_fresh_conn0 in Hs'. lia.
Qed.

(** A change that leaves every socket where it is. *)
Lemma mux_inv_still held x x' :
  mux_inv max held x → places x' ≡ₚ places x → bookkept x' →
  x_conns x' = x_conns x → x_next x' = x_next x → mux_inv max held x'.
Proof.
  intros [] Hp (? & ? & ? & ? & ?) Hc Hn. split; try done.
  - by rewrite Hp.
  - intros s'. unfold x_open. rewrite Hc, Hp. apply mi_open0.
  - intros s' Hin. rewrite Hp. by apply mi_held0.
  - intros s'. rewrite Hc, Hn. apply mi_fresh_conn0.
Qed.

Lemma mux_inv_bookkept held x : mux_inv max held x → bookkept x.
Proof. by intros []. Qed.

Lemma mux_inv_next_le held x s : mux_inv max held x → Some s ∈ held → s.2 < x_next x.
Proof.
  intros [] Hin. apply mi_fresh_conn0. destruct (proj2 (mi_open0 s) (or_introl Hin)) as (c & ? & _).
  by eexists.
Qed.

(** A socket changes without being closed. *)
Lemma mux_inv_conn_open s c held x :
  x_open x s → c_open c = true → mux_inv max held x →
  mux_inv max held (set_xconns (<[s := c]> (x_conns x)) x).
Proof.
  intros (c0 & Hc0 & Ho0) Hc []. split; try done.
  - intros s'. rewrite <- (mi_open0 s'). unfold x_open. simpl.
    destruct (decide (s' = s)) as [->|Hne]; [|by rewrite lookup_insert_ne].
    rewrite lookup_insert_eq. split; [|by intros _; exists c].
    intros _. by exists c0.
  - intros s' Hs'. simpl in *. destruct (decide (s' = s)) as [->|Hne].
    + apply mi_fresh_conn0. by eexists.
    + rewrite lookup_insert_ne in Hs' by done. by apply mi_fresh_conn0.
Qed.

(** A caller closes its socket. *)
Lemma mux_inv_conn_closed s c others x :
  Some s ∉ others → c_open c = false → mux_inv max ({[Some s]} ∪ others) x →
  mux_inv max others (set_xconns (<[s := c]> (x_conns x)) x).
Proof.
  intros Hs Hc []. assert (s ∉ places x) as Hsp by (apply mi_held0; set_solver). split; try done.
  - intros s'. change (places (set_xconns _ x)) with (places x). unfold x_open. simpl.
    destruct (decide (s' = s)) as [->|Hne].
    { rewrite lookup_insert_eq. split; [|by intros [?|?]].
      intros (c' & [= <-] & ?). congruence. }
    rewrite lookup_insert_ne by done. change (x_open x s' ↔ Some s' ∈ others ∨ s' ∈ places x).
    rewrite mi_open0. clear -Hne. set_solver.
  - intros s' Hin. apply mi_held0. set_solver.
  - intros s' Hs'. simpl in *. destruct (decide (s' = s)) as [->|Hne].
    + apply mi_fresh_conn0. destruct (proj2 (mi_open0 s)) as (c0 & ? & _); [set_solver|by eexists].
    + rewrite lookup_insert_ne in Hs' by done. by apply mi_fresh_conn0.
Qed.
End moves.

(** ** What the others do not touch *)

(** The event of the request may have been set. *)
Definition marked (b : bool) (f : inflight) : inflight :=
  mkInFlight (f_address f) (b || f_event f) (f_result f) (f_buf f) (f_expected f) (f_hdr_done f).

(** Callers submit requests; they leave those that are submitted alone. *)
Record requests_kept x x' : Prop := {
  rk_sel : x_sel x' = x_sel x;
  rk_reg : ∃ l, x_reg x' = x_reg x ++ l ∧ ∀ e, e ∈ l → x_flights x !! e.2 = None;
  rk_conn s i : (s, i) ∈ flying x → x_conns x' !! s = x_conns x !! s;
  rk_flight i f : x_flights x !! i = Some f → ∃ b, x_flights x' !! i = Some (marked b f);
  rk_running : x_running x' = true → x_running x = true;
}.

(** A socket is untouched; the requests are left to the selector thread. *)
Definition kept (r : option ref) x x' : Prop :=
  match r with Some s => x_conns x' !! s = x_conns x !! s | None => requests_kept x x' end.

Lemma requests_kept_refl x : requests_kept x x.
Proof.
  split; [done| |done| |done].
  - exists []. split; [by rewrite app_nil_r|]. set_solver.
  - intros i f Hf. exists false. by destruct f.
Qed.

Lemma requests_kept_flying x x' e : requests_kept x x' → e ∈ flying x → e ∈ flying x'.
Proof.
  intros [Hs (l & Hr & _) _ _ _]. unfold flying. rewrite Hs, Hr. set_solver.
Qed.

Lemma requests_kept_trans x1 x2 x3 :
  requests_kept x1 x2 → requests_kept x2 x3 → requests_kept x1 x3.
Proof.
  intros H12 H23. split.
  - by rewrite (rk_sel _ _ H23), (rk_sel _ _ H12).
  - destruct (rk_reg _ _ H12) as (l1 & Hr1 & Hl1), (rk_reg _ _ H23) as (l2 & Hr2 & Hl2).
    exists (l1 ++ l2). split; [by rewrite Hr2, Hr1, (assoc_L (++))|].
    intros e [He|He]%elem_of_app; [by apply Hl1|]. apply eq_None_not_Some. intros [f Hf].
    destruct (rk_flight _ _ H12 _ _ Hf) as [b Hb]. specialize (Hl2 e He). congruence.
  - intros s i Hin. rewrite (rk_conn _ _ H23 s i) by (by eapply requests_kept_flying).
    by eapply rk_conn.
  - intros i f Hf. destruct (rk_flight _ _ H12 _ _ Hf) as [b1 Hb1].
    destruct (rk_flight _ _ H23 _ _ Hb1) as [b2 Hb2]. exists (b2 || b1). rewrite Hb2. unfold marked. simpl.
    by rewrite orb_assoc.
  - intros Hr. by apply (rk_running _ _ H12), (rk_running _ _ H23).
Qed.

#[export] Instance kept_unchanged : Unchanged kept.
Proof.
  split; intros [s|]; simpl.
  - by intros x.
  - exact requests_kept_refl.
  - intros x1 x2 x3. congruence.
  - exact requests_kept_trans.
Qed.

(** Only sockets and the idle deques change. *)
Lemma kept_intro (others : gset (option ref)) x x' :
  x_sel x' = x_sel x → x_reg x' = x_reg x → x_flights x' = x_flights x →
  x_running x' = x_running x → (∀ s, Some s ∈ others ∨ s ∈ places x → x_conns x' !! s = x_conns x !! s) →
  ∀ r, r ∈ others → kept r x x'.
Proof.
  intros Hs Hr Hf Hn Hc [s|] Hin; simpl; [by apply Hc; left|].
  destruct (requests_kept_refl x) as [_ (l & Hl & Hl') _ Hm _]. split.
  - done.
  - exists l. by rewrite Hr.
  - intros s i Hin'. apply Hc. right. unfold places. apply elem_of_app. right.
    apply list_elem_of_fmap. by exists (s, i).
  - intros i f. rewrite Hf. apply Hm.
  - congruence.
Qed.

(** ** The actions of a caller *)
Section actions.
Context (max : Z).
Abbreviation wpm := (wp (mux_inv max) kept).
Implicit Types (held others : gset (option ref)).

Lemma idle_entry x held a l : mux_inv max held x → dict_get (x_idle x) a = Some l → (a, l) ∈ x_idle x.
Proof. intros [] Ha. by apply dict_get_elem_of. Qed.

Lemma bookkept_set_idle a l held x :
  mux_inv max held x → (∀ s, s ∈ l → s.1 = a) → length l ≤ Z.to_nat max →
  bookkept max (set_idle (dict_set (x_idle x) a l) x).
Proof.
  intros [] Hl Hlen. split_and!; try done.
  - by apply dict_set_wf.
  - intros b l' [[= -> ->]|Hin]%elem_of_dict_set; [done|]. by apply mi_idle0.
Qed.

(** A caller takes a socket to [a], or nothing. *)
Definition taken (a : string) held (r : result (option ref)) : Prop :=
  ∃ o, r = Ok o ∧ match o with Some s => held = {[Some s]} ∧ s.1 = a | None => held = ∅ end.

Lemma wp_pop_idle a : wpm ∅ (act (pop_idle a)) (taken a).
Proof.
  intros others x Hd Hinv. rewrite union_empty_l_L in Hinv. unfold pop_idle.
  destruct (dict_get (x_idle x) a) as [l|] eqn:Ha.
  2: { exists ∅. rewrite union_empty_l_L. split_and!; try done. by eexists. }
  destruct (pop_right l) as [[s l']|] eqn:Hl.
  2: { exists ∅. rewrite union_empty_l_L. split_and!; try done. by eexists. }
  apply pop_right_Some in Hl as ->. exists {[Some s]}. simpl.
  destruct (mi_idle _ _ _ Hinv a (l' ++ [s])) as [Haddr Hlen]; [by eapply idle_entry|].
  rewrite length_app in Hlen. simpl in Hlen.
  destruct (mux_inv_take max [s] others x (set_idle (dict_set (x_idle x) a l') x)) as [Hdis Hinv'];
    try done.
  - unfold places. simpl. rewrite concat_set, (concat_remove _ _ _ Ha).
    rewrite <- !(assoc_L (++)). simpl. by rewrite <- Permutation_middle.
  - eapply bookkept_set_idle; [done| |lia]. intros s' Hs'. apply Haddr. set_solver.
  - assert (socks [s] = {[Some s]}) as Hs by (unfold socks; set_solver). rewrite Hs in *.
    split_and!; [done..|by apply kept_intro|]. eexists. split; [done|]. split; [done|].
    apply Haddr. set_solver.
Qed.

Lemma wp_mux_connect a : wpm ∅ (act (mux_connect a)) (taken a).
Proof.
  intros others x Hd Hinv. rewrite union_empty_l_L in Hinv. unfold mux_connect.
  destruct (x_dials x) as [|[c|e] ds]; simpl.
  1, 3: exists ∅; rewrite union_empty_l_L; split_and!; try done;
    first [by destruct Hinv|by eexists|by apply kept_intro].
  set (s := (a, x_next x)). exists {[Some s]}. destruct Hinv.
  assert (x_conns x !! s = None) as Hfresh.
  { apply eq_None_not_Some. intros ?%mi_fresh_conn0. simpl in *. lia. }
  assert (¬ x_open x s) as Hno by (intros (c0 & ? & _); congruence).
  assert (∀ s', Some s' ∈ others ∨ s' ∈ places x → s' ≠ s) as Hne.
  { intros s' Hin%mi_open0 ->. done. }
  split_and!; [intros r ->%elem_of_singleton Hin; by eapply Hne; [left|]| | |by eexists].
  - split; simpl; try done.
    + intros s'. change (places _) with (places x). unfold x_open. simpl.
      destruct (decide (s' = s)) as [->|Hns].
      * rewrite lookup_insert_eq. split; [set_solver|]. intros _. by eexists.
      * rewrite lookup_insert_ne by done.
        change (x_open x s' ↔ Some s' ∈ {[Some s]} ∪ others ∨ s' ∈ places x). rewrite mi_open0.
        clear -Hns. set_solver.
    + intros s' [[= ->]%elem_of_singleton|Hin]%elem_of_union Hp; [|by eapply mi_held0].
      eapply Hne; [by right|done].
    + intros s' [<-|[_ Hs']]%lookup_insert_is_Some; [simpl; lia|].
      apply mi_fresh_conn0 in Hs'. lia.
    + intros i Hi%mi_fresh_flight0. lia.
  - apply kept_intro; [done..|]. intros s' Hin. simpl. rewrite lookup_insert_ne; [done|].
    intros <-. by eapply Hne.
Qed.

Lemma wp_mux_sendall s data :
  wpm {[Some s]} (act (mux_sendall s data)) (λ held r, held = {[Some s]}).
Proof.
  intros others x Hd Hinv. exists {[Some s]}. unfold mux_sendall.
  assert (s ∉ places x) as Hp by (apply (mi_held _ _ _ Hinv); set_solver).
  assert (x_open x s) as Ho by (apply (mi_open _ _ _ Hinv); set_solver).
  pose proof Ho as (c & Hc & Hop). rewrite Hc, Hop.
  destruct (sendall data (c_sock c)) as [r k]. simpl.
  split_and!; [done|by apply mux_inv_conn_open| |done].
  apply kept_intro; [done..|]. intros s' Hin. simpl. rewrite lookup_insert_ne; [done|]. set_solver.
Qed.

(** Closing a socket that is held, perhaps among others. *)
Lemma wp_mux_close s held :
  Some s ∈ held → wpm held (act (mux_close s)) (λ held' r, held' = held ∖ {[Some s]} ∧
    ∀ e, r = Raise e → e = OSError).
Proof.
  intros Hs others x Hd Hinv. exists (held ∖ {[Some s]}). unfold mux_close.
  assert (s ∉ places x) as Hp by (apply (mi_held _ _ _ Hinv); set_solver).
  assert (x_open x s) as Ho by (apply (mi_open _ _ _ Hinv); set_solver).
  destruct Ho as (c & Hc & Hop). rewrite Hc, Hop. simpl. split_and!; [set_solver| | |done|].
  - apply mux_inv_conn_closed; [set_solver|done|].
    replace ({[Some s]} ∪ (held ∖ {[Some s]} ∪ others)) with (held ∪ others); [done|].
    apply set_eq. intros r. destruct (decide (r = Some s)); set_solver.
  - apply kept_intro; [done..|]. intros s' Hin. simpl. rewrite lookup_insert_ne; [done|]. set_solver.
  - destruct (c_close_fails c); naive_solver.
Qed.

Lemma wp_mux_close_quietly s held :
  Some s ∈ held →
  wpm held (act (mux_close_quietly s)) (λ held' r, held' = held ∖ {[Some s]} ∧ r = Ok tt).
Proof.
  intros Hs. unfold mux_close_quietly. wp_atomic. eapply wp_mono; [by apply wp_mux_close|].
  intros held' [[]|e] [-> _]; [done|]. by wp_atomic.
Qed.

Lemma wp_submit s :
  wpm {[Some s]} (act (submit s.1 s)) (λ held r, held = ∅ ∧ ∃ i, r = Ok i).
Proof.
  intros others x Hd Hinv. exists ∅. rewrite union_empty_l_L. unfold submit. simpl.
  set (x' := mkMux _ _ _ _ _ _ _ _).
  assert (x_flights x !! x_next x = None) as Hfresh.
  { apply eq_None_not_Some. intros Hi%(mi_fresh_flight _ _ _ Hinv). lia. }
  assert (flying x' ≡ₚ (s, x_next x) :: flying x) as Hfl.
  { unfold flying, x'. simpl. rewrite <- (assoc_L (++)). symmetry. apply Permutation_middle. }
  assert (∀ s' i, (s', i) ∈ flying x → i ≠ x_next x) as Hne.
  { intros s' i (f & Hf & _)%(mi_flying _ _ _ Hinv) ->. congruence. }
  split_and!; [set_solver| | |done|by eexists].
  - eapply (mux_inv_give max s others x); [set_solver|done| | |done|simpl; lia].
    + unfold places. rewrite Hfl. simpl. by rewrite <- Permutation_middle.
    + destruct Hinv. split_and!; [done|done| | |].
      * rewrite Hfl. simpl. apply NoDup_cons. split; [|done].
        intros ([s' i] & Heq & Hin)%list_elem_of_fmap. simpl in Heq. by eapply Hne.
      * intros s' i. rewrite Hfl. intros [[= -> ->]|Hin]%elem_of_cons.
        { exists (new_inflight s.1). unfold x'. simpl. by rewrite lookup_insert_eq. }
        destruct (mi_flying0 s' i Hin) as (f & Hf & ?). exists f. split; [|done].
        unfold x'. simpl. rewrite lookup_insert_ne; [done|]. intros Heq. by eapply Hne.
      * intros i. unfold x'. simpl. rewrite lookup_insert_is_Some.
        intros [Heq|[_ Hi]]; [lia|apply mi_fresh_flight0 in Hi; lia].
  - intros [s'|] _; simpl; [done|]. split; simpl.
    + done.
    + eexists. split; [done|]. by intros e ->%list_elem_of_singleton.
    + done.
    + intros i f Hf. exists false. rewrite lookup_insert_ne; [by destruct f|].
      intros Heq. congruence.
    + done.
Qed.

Lemma wp_read_result i : wpm ∅ (act (read_result i)) (λ held r, held = ∅ ∧ ∃ o, r = Ok o).
Proof. intros others x Hd Hinv. exists ∅. split_and!; try done. unfold read_result. simpl. eauto. Qed.

Lemma wp_pop_deque a :
  wpm ∅ (act (pop_deque a)) (λ held r, ∃ l, r = Ok l ∧ held = socks l ∧ NoDup l).
Proof.
  intros others x Hd Hinv. rewrite union_empty_l_L in Hinv. unfold pop_deque. simpl.
  set (l := default [] (dict_get (x_idle x) a)). exists (socks l).
  assert (places x ≡ₚ l ++ places (set_idle (dict_remove (x_idle x) a) x)) as Hp.
  { unfold places, l. simpl. rewrite (assoc_L (++)). apply Permutation_app_tail.
    destruct (dict_get (x_idle x) a) as [l0|] eqn:Ha; simpl; [by apply concat_remove|].
    by rewrite dict_remove_id. }
  pose proof (mi_places _ _ _ Hinv) as Hnd. rewrite Hp in Hnd. apply NoDup_app in Hnd as [Hnd _].
  destruct (mux_inv_take max l others x (set_idle (dict_remove (x_idle x) a) x)) as [Hdis Hinv'];
    try done.
  - destruct Hinv. split_and!; try done; [by apply dict_remove_wf|].
    intros b l' Hin%elem_of_dict_remove. by apply mi_idle0.
  - split_and!; try done; [by apply kept_intro|]. by exists l.
Qed.

(** ** The calls *)
Context `{Pickle}.

Lemma wp_acquire a : wpm ∅ (_acquire a) (taken a).
Proof.
  unfold _acquire. apply wp_bind. eapply wp_mono; [apply wp_pop_idle|].
  intros held r ([s|] & -> & Hs); [by exists (Some s)|]. subst. apply wp_mux_connect.
Qed.

(** A call returns with nothing, unless the request could not be framed, or closing
    the socket after a failed send raised. *)
Definition call_done (msgs : list Message) held (r : result (option Message)) : Prop :=
  match r with
  | Ok _ => held = ∅
  | Raise e => (∃ msg s, msg ∈ msgs ∧ frame msg = Raise e ∧ held = {[Some s]}) ∨
      (e = OSError ∧ held = ∅)
  end.

Lemma wp_mux_request hst prt msg :
  wpm ∅ (mux_request hst prt msg) (λ held r, match r with
    | Ok _ => held = ∅
    | Raise e => (∃ s, frame msg = Raise e ∧ held = {[Some s]}) ∨ (e = OSError ∧ held = ∅)
    end).
Proof.
  unfold mux_request. apply wp_bind. eapply wp_mono; [apply wp_acquire|].
  intros held r ([s|] & -> & Hs); [|by subst]. destruct Hs as [-> Hs]. apply wp_bind.
  destruct (frame msg) as [bytes|e] eqn:Hf; [|left; by exists s].
  apply wp_bind, wp_try, wp_bind. eapply wp_mono; [apply wp_mux_sendall|].
  intros held [[]|e] ->.
  - rewrite <- Hs. apply wp_bind. eapply wp_mono; [apply wp_submit|].
    by intros held r [-> [i ->]].
  - apply wp_bind. eapply wp_mono; [apply wp_mux_close; set_solver|].
    intros held [[]|e'] [-> He]; [simpl; set_solver|]. right. rewrite (He e') by done.
    split; [done|set_solver].
Qed.

Lemma wp_mux_execute hst prt msg msgs :
  msg ∈ msgs → wpm ∅ (mux_execute hst prt msg) (call_done msgs).
Proof.
  intros Hmsg. unfold mux_execute. apply wp_bind. eapply wp_mono; [apply wp_mux_request|].
  intros held [[i|]|e]; [|done|].
  - intros ->. eapply wp_mono; [apply wp_read_result|]. by intros held r [-> [o ->]].
  - intros [(s & ? & ?)|?]; [left; by exists msg, s|by right].
Qed.

Lemma wp_close_each ss :
  NoDup ss → wpm (socks ss) (close_each ss) (λ held r, held = ∅ ∧ r = Ok tt).
Proof.
  induction 1 as [|s ss Hs Hnd IH]; [done|]. cbn [close_each]. apply wp_bind.
  eapply wp_mono; [apply wp_mux_close_quietly, Some_elem_of_socks; set_solver|].
  intros held r [-> ->]. by rewrite socks_tail.
Qed.

Lemma wp_mux_close_peer hst prt :
  wpm ∅ (mux_close_peer hst prt) (λ held r, held = ∅ ∧ r = Ok tt).
Proof.
  unfold mux_close_peer. apply wp_bind. eapply wp_mono; [apply wp_pop_deque|].
  intros held r (l & -> & -> & Hnd). by apply wp_close_each.
Qed.
End actions.
