(* ===== verification/MuxIo.v ===== *)
(** * The selector thread of the multiplexed pool

    One thread reads all responses.  What it does to one socket and its request
    touches no other; it keeps the invariant of the pool; and a request that is
    registered is settled by enough readable events of its socket, whatever the
    callers do meanwhile. *)
From S2P Require Import Prelude PyBase Bytes PyDict Types Wire Threads Pool Mux MuxShare.

Implicit Types (x : mux) (s : ref) (i : nat) (f : inflight) (c : conn).

(** ** One socket and its request *)

(** Of all sockets and requests only [s] and [i] change; sockets may be
    unregistered. *)
Record only s i x x' : Prop := {
  on_reg : x_reg x' = x_reg x;
  on_sel e : e ∈ x_sel x' → e ∈ x_sel x;
  on_sel_other e : e.1 ≠ s → e ∈ x_sel x → e ∈ x_sel x';
  on_conn s' : s' ≠ s → x_conns x' !! s' = x_conns x !! s';
  on_flight i' : i' ≠ i → x_flights x' !! i' = x_flights x !! i';
  on_running : x_running x' = x_running x;
}.

Lemma only_refl s i x : only s i x x.
Proof. by split. Qed.

Lemma only_trans s i x1 x2 x3 : only s i x1 x2 → only s i x2 x3 → only s i x1 x3.
Proof.
  intros [] []. split; [congruence|eauto..| | |congruence].
  - intros s' Hne. rewrite on_conn1; auto.
  - intros i' Hne. rewrite on_flight1; auto.
Qed.

Lemma only_bind {A B} s i (m : M mux A) (k : A → M mux B) :
  (∀ x, only s i x (m x).2) → (∀ a x, only s i x (k a x).2) →
  ∀ x, only s i x ((m ≫= k) x).2.
Proof.
  intros Hm Hk x. unfold_M. specialize (Hm x). destruct (m x) as [[a|e] x1]; simpl in *; [|done].
  by eapply only_trans.
Qed.

Lemma unregister_only s i x : only s i x (unregister s x).2.
Proof.
  split; simpl; try done.
  - by intros e [_ ?]%list_elem_of_filter.
  - intros e He Hin. by apply list_elem_of_filter.
Qed.

Lemma close_only s i x : only s i x (mux_close s x).2.
Proof.
  unfold mux_close. destruct (x_conns x !! s) as [c|]; [|done]. destruct (c_open c); [|done].
  split; simpl; try done. intros s' Hne. by rewrite lookup_insert_ne.
Qed.

Lemma close_quietly_only s i x : only s i x (mux_close_quietly s x).2.
Proof.
  unfold mux_close_quietly, try_except. pose proof (close_only s i x) as Hc.
  by destruct (mux_close s x) as [[]].
Qed.

Lemma close_quietly_frame s x :
  x_reg (mux_close_quietly s x).2 = x_reg x ∧ x_sel (mux_close_quietly s x).2 = x_sel x ∧
  x_flights (mux_close_quietly s x).2 = x_flights x.
Proof.
  unfold mux_close_quietly, try_except, mux_close. destruct (x_conns x !! s) as [c|]; [|done].
  destruct (c_open c); [|done]. by destruct (c_close_fails c).
Qed.

Lemma settle_only s i r x : only s i x (settle i r x).2.
Proof. split; simpl; try done. intros i' Hne. by rewrite lookup_alter_ne. Qed.

(** [_return] leaves the registrations and the requests. *)
Lemma return_frame max a s x :
  x_reg (_return max a s x).2 = x_reg x ∧ x_sel (_return max a s x).2 = x_sel x ∧
  x_flights (_return max a s x).2 = x_flights x.
Proof.
  unfold _return, mux_close. case_bool_decide; [done|]. simpl. by repeat case_match.
Qed.

Lemma return_only max a s i x : only s i x (_return max a s x).2.
Proof.
  destruct (return_frame max a s x) as (Hr & Hs & Hf). split; [| | | | |].
  - done.
  - by rewrite Hs.
  - by rewrite Hs.
  - unfold _return, mux_close. case_bool_decide; [done|]. simpl. intros s' Hne.
    repeat case_match; simpl; by rewrite ?lookup_insert_ne.
  - by rewrite Hf.
  - unfold _return, mux_close. case_bool_decide; [done|]. simpl. by repeat case_match.
Qed.

Lemma fail_only s i x : only s i x (_fail s i x).2.
Proof.
  apply only_bind; [apply unregister_only|intros _].
  apply only_bind; [apply close_quietly_only|intros _; apply settle_only].
Qed.

Lemma deliver_only max a msg s i x :
  only s i x ((unregister s ;; _return max a s ;; settle i (Some msg)) x).2.
Proof.
  apply only_bind; [apply unregister_only|intros _].
  apply only_bind; [apply return_only|intros _; apply settle_only].
Qed.

Lemma filter_key_permutation (l : list (ref * nat)) s i :
  NoDup l.*1 → (s, i) ∈ l → l ≡ₚ (s, i) :: filter (λ e : ref * nat, e.1 ≠ s) l.
Proof.
  induction l as [|[s' i'] l IH]; csimpl; [by intros _ ?%elem_of_nil|].
  intros [Hs Hnd]%NoDup_cons Hin. rewrite filter_cons. simpl.
  apply elem_of_cons in Hin as [[= <- <-]|Hin].
  - rewrite decide_False by naive_solver. f_equiv.
    rewrite filter_all; [done|]. intros [s1 i1] Hin Heq. simpl in Heq. subst. apply Hs, list_elem_of_fmap. by exists (s, i1).
  - rewrite decide_True.
    + rewrite Permutation_swap. f_equiv. by apply IH.
    + intros ->. apply Hs, list_elem_of_fmap. by exists (s, i).
Qed.

(** ** The invariant *)
Section selector.
Context (max : Z).
Abbreviation wpm := (wp (mux_inv max) kept).
Implicit Types (held others : gset (option ref)).

(** The registration of a socket ends: the selector thread holds the socket. *)
Lemma inv_unregister s i held x :
  mux_inv max held x → (s, i) ∈ x_sel x →
  (Some s ∉ held) ∧ mux_inv max ({[Some s]} ∪ held) (unregister s x).2 ∧
  (∀ s', (s', i) ∉ flying (unregister s x).2).
Proof.
  intros Hinv Hin. set (l := filter (λ e : ref * nat, e.1 ≠ s) (x_sel x)).
  assert (flying x ≡ₚ (s, i) :: x_reg x ++ l) as Hfl.
  { unfold flying. rewrite (filter_key_permutation (x_sel x) s i); [|..|done].
    - unfold l. by rewrite <- Permutation_middle.
    - pose proof (mi_places _ _ _ Hinv) as [_ [_ Hnd]]%NoDup_app.
      unfold flying in Hnd. rewrite fmap_app in Hnd. by apply NoDup_app in Hnd as [_ [_ ?]]. }
  destruct (mux_inv_take max [s] held x (set_sel l x)) as [Hdis Hinv']; try done.
  - unfold places. rewrite Hfl. simpl. by rewrite <- Permutation_middle.
  - destruct Hinv. rewrite Hfl in mi_flights. apply NoDup_cons in mi_flights as [_ ?].
    split_and!; try done. intros s' i' Hin'. apply mi_flying. rewrite Hfl. by right.
  - assert (socks [s] = {[Some s]}) as Hs by (unfold socks; set_solver). rewrite Hs in *.
    split_and!; [set_solver|done|]. intros s' Hin'.
    pose proof (mi_flights _ _ _ Hinv) as Hnd. rewrite Hfl in Hnd.
    apply NoDup_cons in Hnd as [Hnin _]. apply Hnin, list_elem_of_fmap. by exists (s', i).
Qed.

(** The socket is idle again, or closed because the deque is full. *)
Lemma wp_return s :
  wpm {[Some s]} (act (_return max s.1 s)) (λ held r, held = ∅ ∧ ∀ e, r = Raise e → e = OSError).
Proof.
  intros others x Hd Hinv. unfold _return. cbv zeta.
  set (idle := match dict_get (x_idle x) s.1 with Some _ => x_idle x | None => _ end).
  set (pool := default [] (dict_get idle s.1)).
  assert (mux_inv max ({[Some s]} ∪ others) (set_idle idle x) ∧
    (∀ s', s' ∈ pool → s'.1 = s.1) ∧ concat (x_idle x).*2 ≡ₚ pool ++ concat (dict_remove idle s.1).*2)
    as (Hinv' & Haddr & Hcat).
  { unfold pool, idle. destruct (dict_get (x_idle x) s.1) as [l|] eqn:Hl; simpl.
    - split_and!; [by destruct x| |].
      + rewrite Hl. simpl. eapply mi_idle; [done|]. by eapply idle_entry.
      + rewrite Hl. by apply concat_remove.
    - rewrite dict_set_get. simpl.
      assert (concat (x_idle x).*2 ≡ₚ concat (dict_remove (dict_set (x_idle x) s.1 []) s.1).*2) as Hc.
      { rewrite <- (app_nil_l (concat (dict_remove _ _).*2)), <- concat_remove by apply dict_set_get.
        rewrite concat_set. simpl. by rewrite dict_remove_id. }
      split_and!; [|set_solver|done]. eapply mux_inv_still; [done| | |done..].
      + unfold places. simpl. rewrite concat_set. simpl. by rewrite dict_remove_id.
      + eapply bookkept_set_idle; [done|set_solver|simpl; lia]. }
  case_bool_decide as Hlen.
  - exists ∅. rewrite union_empty_l_L. simpl. split_and!; [set_solver| |by apply kept_intro|done|done].
    eapply (mux_inv_give max s others (set_idle idle x)); [set_solver|done| | |done|done].
    + unfold places. simpl. rewrite concat_set. simpl.
      rewrite (concat_remove idle s.1 pool); [done|]. unfold pool, idle.
      destruct (dict_get (x_idle x) s.1) eqn:Hl; [by rewrite Hl|by rewrite dict_set_get].
    + change (set_idle (dict_set idle s.1 (s :: pool)) x)
        with (set_idle (dict_set (x_idle (set_idle idle x)) s.1 (s :: pool)) (set_idle idle x)).
      eapply bookkept_set_idle; [done|set_solver|simpl; lia].
  - destruct (wp_mux_close max s {[Some s]} (proj2 (elem_of_singleton (Some s) (Some s)) eq_refl) others
      (set_idle idle x) Hd Hinv') as (held & ? & ? & Hsame & -> & He).
    assert ({[Some s]} ∖ {[Some s]} = (∅ : gset (option ref))) as Hs by set_solver.
    rewrite Hs in *. exists ∅. split_and!; try done.
    intros r Hr. etrans; [|by apply Hsame]. by apply (kept_intro others).
Qed.
(** Setting the event of a request, with a result only when its socket is no longer
    registered. *)
Lemma inv_settle i r held x :
  mux_inv max held x → r = None ∨ (∀ s, (s, i) ∉ flying x) →
  mux_inv max held (settle i r x).2.
Proof.
  intros Hinv Hr. eapply mux_inv_still; [done|done| |done..]. destruct Hinv.
  split_and!; try done.
  - intros s i' Hin. destruct (mi_flying s i' Hin) as (f & Hf & Ha & Hn). unfold flight_of. simpl.
    destruct (decide (i' = i)) as [->|Hne].
    + rewrite lookup_alter_eq, Hf. eexists. split; [done|]. destruct Hr as [->|Hr]; [done|].
      by apply Hr in Hin.
    + rewrite lookup_alter_ne by done. by exists f.
  - intros i' Hi'. simpl in Hi'. apply mi_fresh_flight. by apply lookup_alter_is_Some in Hi'.
Qed.

Lemma wp_settle i held :
  wpm held (act (settle i None)) (λ held' r, held' = held ∧ r = Ok tt).
Proof.
  intros others x Hd Hinv. exists held. split_and!; [done| | |done].
  - apply inv_settle; [done|by left].
  - intros [s|] _; simpl; [done|]. destruct (requests_kept_refl x) as [_ Hr _ Hm _]. split; simpl.
    + done.
    + done.
    + done.
    + intros i' f Hf. destruct (decide (i' = i)) as [->|Hne].
      * exists true. rewrite lookup_alter_eq, Hf. by destruct f.
      * rewrite lookup_alter_ne by done. by apply Hm.
    + done.
Qed.

Lemma wp_settle_all l held :
  wpm held (act (for_each l (λ i, settle i None))) (λ held' r, held' = held ∧ r = Ok tt).
Proof.
  induction l as [|i l IH]; [by wp_atomic|]. cbn [for_each]. wp_atomic.
  eapply wp_mono; [apply wp_settle|]. by intros held' r [-> ->].
Qed.

Lemma inv_fail s i held x :
  mux_inv max held x → (s, i) ∈ x_sel x →
  mux_inv max held (_fail s i x).2 ∧ (_fail s i x).1 = Ok tt.
Proof.
  intros Hinv Hin. destruct (inv_unregister s i held x Hinv Hin) as (Hs & Hinv1 & _).
  unfold _fail. assert (wpm {[Some s]} (act (mux_close_quietly s ;; settle i None))
    (λ held r, held = ∅ ∧ r = Ok tt)) as Hwp.
  { wp_atomic. eapply wp_mono; [apply wp_mux_close_quietly; set_solver|].
    intros held' r [-> ->]. eapply wp_mono; [apply wp_settle|]. intros held' r [-> ->].
    split; [set_solver|done]. }
  destruct (Hwp held _ ltac:(set_solver) Hinv1) as (held' & _ & Hinv2 & _ & -> & Hr).
  rewrite union_empty_l_L in Hinv2. done.
Qed.

Lemma inv_deliver s i msg held x :
  mux_inv max held x → (s, i) ∈ x_sel x →
  let m := unregister s ;; _return max s.1 s ;; settle i (Some msg) in
  mux_inv max held (m x).2 ∧ ((m x).1 = Ok tt ∨ (m x).1 = Raise OSError).
Proof.
  intros Hinv Hin m. destruct (inv_unregister s i held x Hinv Hin) as (Hs & Hinv1 & Hfly).
  destruct (wp_return s held _ ltac:(set_solver) Hinv1) as (held' & _ & Hinv2 & _ & -> & He).
  rewrite union_empty_l_L in Hinv2.
  destruct (return_frame max s.1 s (unregister s x).2) as (Hreg & Hsel & _).
  unfold m. unfold_M. simpl. simpl in *. destruct (_return max s.1 s _) as [[[]|e] x2]; simpl in *.
  - split; [|by left]. apply (inv_settle i (Some msg)); [done|]. right.
    intros s'. unfold flying. rewrite Hreg, Hsel. apply Hfly.
  - split; [done|]. right. by rewrite (He e).
Qed.

(** ** One readable event *)
Context `{Pickle}.

(** A request that waits for more is the same request. *)
Lemma read_step_outcome f k :
  ∃ o k', read_step f k = (Ok o, k') ∧
    match o with
    | Wait f' => f_address f' = f_address f ∧ f_event f' = f_event f ∧ f_result f' = f_result f
    | _ => True
    end.
Proof.
  unfold read_step. destruct (recv _ k) as [[[|b bs]|e] k'].
  - by eexists _, _.
  - case_bool_decide; [by eexists _, _|]. destruct (f_hdr_done f); [|by eexists _, _].
    destruct (loads _); by eexists _, _.
  - destruct e; by eexists _, _.
Qed.

Lemma read_step_marked b f k o k' :
  read_step f k = (Ok o, k') →
  read_step (marked b f) k = (Ok (match o with Wait f' => Wait (marked b f') | _ => o end), k').
Proof.
  unfold read_step. simpl. destruct (recv _ k) as [[[|b' bs]|e] k1].
  - by intros [= <- <-].
  - case_bool_decide; [by intros [= <- <-]|]. destruct (f_hdr_done f); [|by intros [= <- <-]].
    destruct (loads _); by intros [= <- <-].
  - destruct e; by intros [= <- <-].
Qed.

Definition on_outcome s i (o : read_outcome) f : M mux unit :=
  match o with
  | Wait f' => modify (λ x, set_flights (<[i := f']> (x_flights x)) x)
  | Failed => _fail s i
  | Deliver msg => unregister s ;; _return max (f_address f) s ;; settle i (Some msg)
  end.

Definition received s c (k : sock) x : mux := set_xconns (<[s := set_sock k c]> (x_conns x)) x.

Lemma handle_read_outcome s i c f x :
  x_conns x !! s = Some c → c_open c = true → x_flights x !! i = Some f →
  ∃ o k, read_step f (c_sock c) = (Ok o, k) ∧
    _handle_read max s i x = on_outcome s i o f (received s c k x).
Proof.
  intros Hc Ho Hf. destruct (read_step_outcome f (c_sock c)) as (o & k & Hr & _).
  exists o, k. split; [done|]. unfold _handle_read. rewrite Hc, Hf, Ho, Hr. by destruct o.
Qed.

Lemma received_only s i c k x : only s i x (received s c k x).
Proof. split; simpl; try done. intros s' Hne. by rewrite lookup_insert_ne. Qed.

Lemma on_outcome_only s i o f x : only s i x (on_outcome s i o f x).2.
Proof.
  destruct o as [f'| |msg]; [|apply fail_only|apply deliver_only].
  split; simpl; try done. intros i' Hne. by rewrite lookup_insert_ne.
Qed.

(** What the invariant says of a registered request. *)
Lemma inv_registered s i held x :
  mux_inv max held x → (s, i) ∈ flying x →
  ∃ c f, x_conns x !! s = Some c ∧ c_open c = true ∧ x_flights x !! i = Some f ∧
    f_address f = s.1 ∧ f_result f = None.
Proof.
  intros [] Hin. destruct (proj2 (mi_open s)) as (c & Hc & Ho).
  { right. apply elem_of_app. right. apply list_elem_of_fmap. by exists (s, i). }
  destruct (mi_flying s i Hin) as (f & Hf & Ha & Hr). by exists c, f.
Qed.

Lemma inv_on_outcome s i c f o k held x :
  mux_inv max held x → (s, i) ∈ x_sel x →
  x_conns x !! s = Some c → c_open c = true → x_flights x !! i = Some f →
  read_step f (c_sock c) = (Ok o, k) →
  let m := on_outcome s i o f (received s c k x) in
  mux_inv max held m.2 ∧ (m.1 = Ok tt ∨ m.1 = Raise OSError).
Proof.
  intros Hinv Hin Hc Ho Hf Hr m.
  assert (mux_inv max held (received s c k x)) as Hinv1.
  { apply mux_inv_conn_open; [by exists c|done|done]. }
  destruct (mi_flying _ _ _ Hinv s i) as (f0 & Hf0 & Ha & Hn); [by apply elem_of_app; right|].
  simplify_eq. destruct o as [f'| |msg]; unfold m; simpl.
  - split; [|by left]. destruct (read_step_outcome f (c_sock c)) as (o & k0 & Hr0 & Hf').
    rewrite Hr in Hr0. injection Hr0 as <- <-. destruct Hf' as (Ha' & _ & Hn').
    eapply mux_inv_still; [done|done| |done..]. destruct Hinv1. split_and!; try done.
    + intros s' i' Hin'. destruct (mi_flying s' i' Hin') as (f1 & Hf1 & Ha1 & Hn1).
      unfold flight_of. simpl in *. destruct (decide (i' = i)) as [->|Hne].
      * rewrite lookup_insert_eq. exists f'. simplify_eq. split_and!; congruence.
      * rewrite lookup_insert_ne by done. by exists f1.
    + intros i'. simpl. rewrite lookup_insert_is_Some. intros [->|[_ Hi']]; apply mi_fresh_flight; done.
  - destruct (inv_fail s i held _ Hinv1 Hin) as [? ?]. by split; [|left].
  - rewrite Ha. by apply inv_deliver.
Qed.

Lemma registered_found s x e :
  list_find (λ e : ref * nat, e.1 = s) (x_sel x) = Some e → (s, e.2.2) ∈ x_sel x.
Proof.
  destruct e as [n [s' i]]. intros (Hl & Hs & _)%list_find_Some. simpl in *. subst.
  by eapply list_elem_of_lookup_2.
Qed.

Lemma found_registered s i held x :
  mux_inv max held x → (s, i) ∈ x_sel x →
  ∃ n, list_find (λ e : ref * nat, e.1 = s) (x_sel x) = Some (n, (s, i)).
Proof.
  intros Hinv Hin. pose proof (mi_places _ _ _ Hinv) as [_ [_ Hnd]]%NoDup_app.
  unfold flying in Hnd. rewrite fmap_app in Hnd. apply NoDup_app in Hnd as [_ [_ Hnd]].
  destruct (list_find _ (x_sel x)) as [[n [s' i']]|] eqn:Hf.
  - apply list_find_Some in Hf as (Hl & <- & _). simpl in *. exists n.
    apply list_elem_of_lookup in Hin as [m Hm].
    assert (n = m) as ->; [|congruence]. eapply NoDup_lookup; [exact Hnd|..].
    + by rewrite list_lookup_fmap, Hl.
    + by rewrite list_lookup_fmap, Hm.
  - apply list_find_None in Hf. rewrite Forall_forall in Hf. by destruct (Hf _ Hin).
Qed.

(** The handling of a readable event, in terms of [read_step]. *)
Lemma io_readable s i held x :
  mux_inv max held x → (s, i) ∈ x_sel x →
  ∃ c f o k, x_conns x !! s = Some c ∧ c_open c = true ∧ x_flights x !! i = Some f ∧
    f_result f = None ∧ read_step f (c_sock c) = (Ok o, k) ∧
    io_step max (IoReadable s) x = on_outcome s i o f (received s c k x).
Proof.
  intros Hinv Hin.
  destruct (inv_registered s i held x Hinv) as (c & f & Hc & Ho & Hf & _ & Hn);
    [by apply elem_of_app; right|].
  destruct (handle_read_outcome s i c f x Hc Ho Hf) as (o & k & Hr & Heq).
  exists c, f, o, k. split_and!; try done. simpl.
  by destruct (found_registered s i held x Hinv Hin) as [n ->].
Qed.

Lemma io_readable_only s i held x :
  mux_inv max held x → (s, i) ∈ x_sel x → only s i x (io_step max (IoReadable s) x).2.
Proof.
  intros Hinv Hin. destruct (io_readable s i held x Hinv Hin) as (c & f & o & k & _ & _ & _ & _ & _ & ->).
  eapply only_trans; [by apply received_only|]. apply on_outcome_only.
Qed.

(** An iteration of the loop, the selector thread holding its selector. *)
Lemma wp_io_step ev :
  wpm {[None]} (act (io_step max ev)) (λ held r, held = {[None]} ∧ (r = Ok tt ∨ r = Raise OSError)).
Proof.
  destruct ev as [| |s].
  - wp_atomic. by split; [|left].
  - intros others x Hd Hinv. exists {[None]}. simpl.
    assert (flying (mkMux (x_idle x) (x_conns x) (x_flights x) [] (x_sel x ++ x_reg x) (x_dials x)
      (x_next x) (x_running x)) ≡ₚ flying x) as Hfl
      by (unfold flying; simpl; apply Permutation_app_comm).
    split_and!; [done| | |done|by left].
    + eapply mux_inv_still; [done| | |done..].
      * unfold places. by rewrite Hfl.
      * destruct Hinv. split_and!; try done; [by rewrite Hfl|]. intros s i. rewrite Hfl. apply mi_flying.
    + intros [s|] Hin; [done|set_solver].
  - intros others x Hd Hinv. exists {[None]}.
    destruct (list_find (λ e : ref * nat, e.1 = s) (x_sel x)) as [[n [s' i]]|] eqn:Hl.
    2: { simpl. rewrite Hl. split_and!; [done..|by left]. }
    pose proof (registered_found s x _ Hl) as Hin. simpl in Hin.
    pose proof (io_readable_only s i _ x Hinv Hin) as Honly.
    destruct (io_readable s i _ x Hinv Hin) as (c & f & o & k & Hc & Ho & Hf & _ & Hr & Heq).
    destruct (inv_on_outcome s i c f o k _ x Hinv Hin Hc Ho Hf Hr) as [Hinv' He].
    rewrite <- Heq in Hinv', He. split_and!; [done|done| |done].
    intros [s1|] Hs1; [|set_solver]. simpl. apply (on_conn _ _ _ _ Honly). intros ->.
    apply (mi_held _ _ _ Hinv s); [set_solver|]. apply elem_of_app. right.
    apply list_elem_of_fmap. exists (s, i). split; [done|]. by apply elem_of_app; right.
Qed.

Lemma wp_io_shutdown held : wpm held (act io_shutdown) (λ held' r, held' = held ∧ r = Ok tt).
Proof.
  unfold io_shutdown. wp_atomic. intros others x Hd Hinv. exists held.
  split_and!; [done..|]. apply wp_settle_all.
Qed.

Lemma wp_io_loop evs :
  wpm {[None]} (_io_loop max evs) (λ held r, held = {[None]} ∧ (r = Ok tt ∨ r = Raise OSError)).
Proof.
  induction evs as [|ev evs IH]; [by split; [|left]|].
  assert (wpm {[None]} (act (io_step max ev) ;; _io_loop max evs)
    (λ held r, held = {[None]} ∧ (r = Ok tt ∨ r = Raise OSError))) as Hstep.
  { apply wp_bind. eapply wp_mono; [apply wp_io_step|].
    intros held r [-> [->| ->]]; [done|]. by split; [|right]. }
  destruct ev; [|exact Hstep..]. cbn [_io_loop]. apply wp_bind.
  apply (wp_mono _ _ _ _ (λ held r, held = {[None]} ∧ ∃ b, r = Ok b)).
  { intros others x Hd Hinv. exists {[None]}. split; [done|]. split; [done|]. split; [done|].
    split; [done|]. by exists (x_running x). }
  intros held r [-> [[] ->]]; [done|]. eapply wp_mono; [apply wp_io_shutdown|].
  intros held r [-> ->]. by split; [|left].
Qed.

(** ** Shutdown *)

Lemma close_quietly_set_idle v s x :
  mux_close_quietly s (set_idle v x) =
    let '(r, x') := mux_close_quietly s x in (r, set_idle v x').
Proof.
  unfold mux_close_quietly, try_except, mux_close. simpl.
  destruct (x_conns x !! s) as [c|]; [|done]. destruct (c_open c); [|done].
  by destruct (c_close_fails c).
Qed.

Lemma close_quietly_all_set_idle v l x :
  for_each l mux_close_quietly (set_idle v x) =
    let '(r, x') := for_each l mux_close_quietly x in (r, set_idle v x').
Proof.
  revert x. induction l as [|s l IH]; intros x; [done|]. simpl. unfold_M.
  rewrite close_quietly_set_idle. destruct (mux_close_quietly s x) as [[[]|e] x1]; [apply IH|done].
Qed.

Lemma wp_close_quietly_all l :
  NoDup l → wpm (socks l) (act (for_each l mux_close_quietly)) (λ held r, held = ∅ ∧ r = Ok tt).
Proof.
  induction 1 as [|s l Hs Hnd IH]; [by wp_atomic|]. cbn [for_each]. wp_atomic.
  eapply wp_mono; [apply wp_mux_close_quietly, Some_elem_of_socks; set_solver|].
  intros held r [-> ->]. by rewrite socks_tail.
Qed.

Lemma wp_close_idle :
  wpm ∅ (act (x ← get_state; for_each (concat (x_idle x).*2) mux_close_quietly ;;
    modify (set_idle []))) (λ held r, held = ∅ ∧ r = Ok tt).
Proof.
  intros others x Hd Hinv. rewrite union_empty_l_L in Hinv. set (l := concat (x_idle x).*2).
  assert (NoDup l) as Hnd by by pose proof (mi_places _ _ _ Hinv) as [? _]%NoDup_app.
  destruct (mux_inv_take max l others x (set_idle [] x)) as [Hdis Hinv']; try done.
  { destruct Hinv. split_and!; try done; [constructor|]. by intros a l' ?%elem_of_nil. }
  destruct (wp_close_quietly_all l Hnd others _ Hdis Hinv') as (held & ? & ? & Hsame & -> & Hr).
  rewrite close_quietly_all_set_idle in *. exists ∅. unfold get_state. unfold_M. fold l.
  destruct (for_each l mux_close_quietly x) as [r x1]. simpl in *. subst. simpl.
  split_and!; try done. intros r Hin. etrans; [|by apply Hsame]. by apply (kept_intro others).
Qed.

Lemma wp_mux_close_all : wpm ∅ mux_close_all (λ held r, held = ∅ ∧ r = Ok tt).
Proof.
  unfold mux_close_all. apply wp_bind.
  apply (wp_mono _ _ _ _ (λ held r, held = ∅ ∧ r = Ok tt)).
  { intros others x Hd Hinv. rewrite union_empty_l_L in Hinv. exists ∅. rewrite union_empty_l_L.
    split_and!; try done.
    - simpl. eapply mux_inv_still; [done|done| |done..]. by destruct Hinv.
    - intros [s|] _; [done|]. by destruct (requests_kept_refl x). }
  intros held r [-> ->]. apply wp_close_idle.
Qed.
End selector.
