(* ===== verification/MuxSpec.v ===== *)
(** * The multiplexed pool and its threads

    The selector thread and any number of calls run interleaved on one pool: no
    socket is in two places, none is lost, and every request that reached the
    selector is settled. *)
From S2P Require Import Prelude PyBase Bytes PyDict Types Wire Threads Pool Mux MuxShare MuxIo.

Implicit Types (x : mux) (s : ref) (i : nat) (f : inflight) (held : gset (option ref)).

#[export] Instance io_event_eq_dec : EqDecision io_event.
Proof. solve_decision. Defined.

(** ** The system *)

Inductive mux_call :=
  | MuxExecute (hst : string) (prt : Z) (msg : Message)
  | MuxClosePeer (hst : string) (prt : Z)
  | MuxCloseAll.

Section system.
Context (max : Z) `{Pickle}.

Definition mux_call_prog (c : mux_call) : prog mux (option Message) :=
  match c with
  | MuxExecute hst prt msg => mux_execute hst prt msg
  | MuxClosePeer hst prt => mux_close_peer hst prt ;; mret None
  | MuxCloseAll => mux_close_all ;; mret None
  end.

(** The selector thread is thread 0. *)
Definition selector (events : list io_event) : prog mux (option Message) :=
  _io_loop max events ;; mret None.

Definition mux_threads (events : list io_event) (calls : list mux_call) :=
  selector events :: (mux_call_prog <$> calls).

Definition requests (calls : list mux_call) : list Message :=
  omap (λ c, match c with MuxExecute _ _ msg => Some msg | _ => None end) calls.

(** A thread ends holding no socket; only a call of [execute] whose request cannot be
    framed raises with a socket in its hands.  The selector thread and [execute]
    may raise [OSError], from closing a socket; the other calls raise nothing. *)
Definition mux_done (calls : list mux_call) (i : nat) held (r : result (option Message)) : Prop :=
  match r with
  | Ok _ => held ⊆ {[None]}
  | Raise e =>
      match i with
      | O => e = OSError ∧ held ⊆ {[None]}
      | S j =>
          match calls !! j with
          | Some (MuxExecute _ _ msg) =>
              (frame msg = Raise e ∧ ∃ s, held = {[Some s]}) ∨ (e = OSError ∧ held = ∅)
          | _ => False
          end
      end
  end.

(** A moment of a concurrent execution, [helds] being what each thread holds: nothing
    is held twice, the invariant holds, a finished thread ended as [mux_done] says,
    and the next action of a thread does not touch what another one holds. *)
Record mux_shares (calls : list mux_call) (helds : list (gset (option ref)))
    (st : list (prog mux (option Message)) * mux) : Prop := {
  ms_each : length helds = length st.1;
  ms_once i j h1 h2 : i ≠ j → helds !! i = Some h1 → helds !! j = Some h2 → h1 ## h2;
  ms_inv : mux_inv max (⋃ helds) st.2;
  ms_done i held r : helds !! i = Some held → st.1 !! i = Some (Ret r) → mux_done calls i held r;
  ms_alone i j held r : i ≠ j → helds !! j = Some held → r ∈ held → kept r st.2 (thread_step st i).2;
}.

Definition safe calls := safe_threads (mux_inv max) kept (mux_done calls).

Lemma safe_shares calls helds st : safe calls helds st → mux_shares calls helds st.
Proof.
  intros Hsafe. pose proof Hsafe as ((Hlen & Hwp) & Hdisj & Hinv). split; try done.
  - intros i held r Hh Ht. exact (Hwp i held _ Hh Ht).
  - intros i j held r Hne Hh Hr.
    by apply (proj1 (thread_step_safe _ _ _ _ _ i Hsafe) j held r).
Qed.

Lemma wp_selector calls events : wp (mux_inv max) kept {[None]} (selector events) (mux_done calls 0).
Proof.
  unfold selector. apply wp_bind. eapply wp_mono; [apply wp_io_loop|].
  intros held r [-> [->| ->]]; simpl; [set_solver|]. set_solver.
Qed.

Lemma wp_mux_call calls j c :
  calls !! j = Some c → wp (mux_inv max) kept ∅ (mux_call_prog c) (mux_done calls (S j)).
Proof.
  intros Hc. destruct c as [hst prt msg|hst prt|]; cbn [mux_call_prog].
  - eapply wp_mono; [apply (wp_mux_execute _ _ _ _ [msg]); set_solver|].
    intros held [o|e]; simpl; [intros ->; set_solver|]. rewrite Hc.
    intros [(msg' & s & ->%list_elem_of_singleton & Hf & ->)|[-> ->]]; [left|by right].
    split; [done|by eexists].
  - apply wp_bind. eapply wp_mono; [apply wp_mux_close_peer|]. intros held r [-> ->]. simpl. set_solver.
  - apply wp_bind. eapply wp_mono; [apply wp_mux_close_all|]. intros held r [-> ->]. simpl. set_solver.
Qed.

(** Only the sockets of the resources matter to the invariant. *)
Lemma mux_inv_ext h1 h2 x :
  (∀ s, Some s ∈ h1 ↔ Some s ∈ h2) → mux_inv max h1 x → mux_inv max h2 x.
Proof.
  intros Hs []. split; try done.
  - intros s. by rewrite <- Hs.
  - intros s Hin. apply mi_held. by apply Hs.
Qed.

Lemma mux_safe_start events calls x :
  mux_inv max ∅ x →
  safe calls ({[None]} :: replicate (length calls) ∅) (mux_threads events calls, x).
Proof.
  intros Hinv. assert (⋃ replicate (length calls) (∅ : gset (option ref)) = ∅) as Hu.
  { induction (length calls) as [|n IH]; [done|]. simpl. rewrite IH. set_solver. }
  split; [|split]; simpl.
  - split; [by rewrite length_replicate, length_fmap|]. intros [|i] held t Hh Ht; simpl in *.
    { simplify_eq. apply wp_selector. }
    apply lookup_replicate in Hh as [-> _].
    apply list_lookup_fmap_Some in Ht as (c & -> & Hc). by apply wp_mux_call.
  - intros i j h1 h2 Hne H1 H2. destruct i as [|i], j as [|j]; simpl in *; simplify_eq; try done;
      repeat match goal with Hr : replicate _ _ !! _ = _ |- _ => apply lookup_replicate in Hr as [-> _] end;
      set_solver.
  - rewrite Hu. eapply mux_inv_ext; [|done]. set_solver.
Qed.

(** C13. The multiplexed pool is shared safely.  Whatever the number of concurrent
    calls of [execute], [close_peer] and [close_all], whatever sockets become
    readable when, and however the actions of the callers and of the selector
    thread interleave: an open socket is idle under its own peer, in flight for one
    unanswered request, or held by one thread, and in no two of these places; no
    idle deque exceeds the bound; a thread never touches a socket another one
    holds, and callers leave the submitted requests alone; and a call raises only
    when its request cannot be framed or closing a socket raises. Once all threads
    have ended, every open socket is idle or in flight, unless a request could not
    be framed. *)
Theorem mux_shared_safely events calls order x :
  mux_inv max ∅ x →
  let st := interleave order (mux_threads events calls, x) in
  (∃ helds, mux_shares calls helds st) ∧
  ((∀ msg, msg ∈ requests calls → ∃ bytes, frame msg = Ok bytes) →
   (∀ t, t ∈ st.1 → finished t = true) → mux_inv max ∅ st.2).
Proof.
  intros Hinv st.
  destruct (interleave_safe (mux_inv max) kept (mux_done calls) _ order _
    (mux_safe_start events calls x Hinv)) as [helds Hsafe].
  fold st in Hsafe. clearbody st. apply safe_shares in Hsafe as Hsh. split; [by exists helds|]. intros Hframe Hfin.
  eapply mux_inv_ext; [|apply (ms_inv _ _ _ Hsh)]. intros s. split; [|set_solver].
  intros (held & Hin & Hs)%elem_of_union_list. apply list_elem_of_lookup in Hin as [i Hi].
  destruct (lookup_lt_is_Some_2 st.1 i) as [t Ht].
  { rewrite <- (ms_each _ _ _ Hsh). by eapply lookup_lt_Some. }
  specialize (Hfin t ltac:(by eapply list_elem_of_lookup_2)). destruct t as [r|]; [|done].
  pose proof (ms_done _ _ _ Hsh i held r Hi Ht) as Hd. destruct r as [o|e]; simpl in Hd; [set_solver|].
  destruct i as [|j]; [set_solver|].
  destruct (calls !! j) as [[hst prt msg|hst prt|]|] eqn:Hc; try done.
  destruct Hd as [(Hf & _)|[_ ->]]; [|set_solver].
  destruct (Hframe msg) as [bytes Hb]; [|congruence]. apply list_elem_of_omap.
  exists (MuxExecute hst prt msg). split; [by eapply list_elem_of_lookup_2|done].
Qed.

(** ** Every request is settled *)

(** How often [s] is found readable. *)
Definition readable s (events : list io_event) : nat := length (filter (.= IoReadable s) events).

(** What follows the first wake-up. *)
Fixpoint after_wake (events : list io_event) : list io_event :=
  match events with
  | [] => []
  | IoWake :: events => events
  | _ :: events => after_wake events
  end.

Lemma readable_cons s ev events :
  readable s (ev :: events) = (if decide (ev = IoReadable s) then 1 else 0) + readable s events.
Proof. unfold readable. rewrite filter_cons. by case_decide. Qed.

Lemma readable_after_wake s events : readable s (after_wake events) ≤ readable s events.
Proof.
  induction events as [|ev events IH]; [done|]. rewrite readable_cons. destruct ev; simpl; lia.
Qed.

(** The request has left the selector with the result [o], and its event is set. *)
Definition settled i (o : option Message) x : Prop :=
  (∀ s, (s, i) ∉ flying x) ∧
  ∃ f, x_flights x !! i = Some f ∧ f_event f = true ∧ f_result f = o.

(** The request is in flight, and the events to come suffice to settle it. *)
Definition owed s i (o : option Message) (events : list io_event) x : Prop :=
  ∃ c f n k, (s, i) ∈ flying x ∧ x_conns x !! s = Some c ∧ x_flights x !! i = Some f ∧
    pump n f (c_sock c) = (Ok (Some o), k) ∧
    ((s, i) ∈ x_sel x ∧ n ≤ readable s events ∨ n ≤ readable s (after_wake events)).

Lemma pump_marked b f n k : pump n (marked b f) k = pump n f k.
Proof.
  revert f k. induction n as [|n IH]; intros f k; [done|]. simpl. unfold_M.
  destruct (read_step_outcome f k) as (o & k' & Hr & _).
  rewrite (read_step_marked b f k o k' Hr), Hr. destruct o as [f'| |msg]; [apply IH|done..].
Qed.

Lemma owed_kept s i o events x x' : requests_kept x x' → owed s i o events x → owed s i o events x'.
Proof.
  intros Hk (c & f & n & k & Hfly & Hc & Hf & Hp & Hn). destruct (rk_flight _ _ Hk _ _ Hf) as [b Hb].
  exists c, (marked b f), n, k. rewrite (rk_sel _ _ Hk), (rk_conn _ _ Hk s i Hfly), pump_marked.
  split_and!; try done. by eapply requests_kept_flying.
Qed.

Lemma settled_kept i o x x' : requests_kept x x' → settled i o x → settled i o x'.
Proof.
  intros Hk (Hfly & f & Hf & He & Ho). destruct (rk_flight _ _ Hk _ _ Hf) as [b Hb]. split.
  - intros s. destruct (rk_reg _ _ Hk) as (l & Hl & Hnew). unfold flying.
    rewrite (rk_sel _ _ Hk), Hl, !elem_of_app. intros [[Hin|Hin]|Hin].
    + apply (Hfly s). unfold flying. set_solver.
    + apply Hnew in Hin. simpl in Hin. congruence.
    + apply (Hfly s). unfold flying. set_solver.
  - exists (marked b f). split_and!; [done| |done]. simpl. rewrite He. by destruct b.
Qed.

Lemma only_flying s i x x' e : only s i x x' → e ∈ flying x' → e ∈ flying x.
Proof.
  intros Ho. unfold flying. rewrite (on_reg _ _ _ _ Ho). intros [?|Hin]%elem_of_app; [set_solver|].
  apply (on_sel _ _ _ _ Ho) in Hin. set_solver.
Qed.

Lemma only_settled s i j o x x' : only s i x x' → i ≠ j → settled j o x → settled j o x'.
Proof.
  intros Ho Hne (Hfly & f & Hf). split.
  - intros s' Hin. eapply Hfly, only_flying; done.
  - exists f. by rewrite (on_flight _ _ _ _ Ho) by done.
Qed.

Lemma only_owed s i s' j o events x x' :
  only s i x x' → s ≠ s' → i ≠ j → owed s' j o events x → owed s' j o events x'.
Proof.
  intros Ho Hs Hi (c & f & n & k & Hfly & Hc & Hf & Hp & Hn).
  assert ((s', j) ∈ x_sel x → (s', j) ∈ x_sel x') as Hsel by by apply (on_sel_other _ _ _ _ Ho).
  exists c, f, n, k. rewrite (on_conn _ _ _ _ Ho), (on_flight _ _ _ _ Ho) by done.
  split_and!; try done; [|naive_solver]. unfold flying in *. rewrite (on_reg _ _ _ _ Ho). set_solver.
Qed.

Lemma flying_once s1 s2 i1 i2 held x :
  mux_inv max held x → (s1, i1) ∈ flying x → (s2, i2) ∈ flying x → s1 = s2 ↔ i1 = i2.
Proof.
  intros Hinv [n1 H1]%list_elem_of_lookup [n2 H2]%list_elem_of_lookup.
  pose proof (mi_places _ _ _ Hinv) as [_ [_ Hnd1]]%NoDup_app. pose proof (mi_flights _ _ _ Hinv) as Hnd2.
  assert (∀ A (g : ref * nat → A), NoDup (g <$> flying x) → g (s1, i1) = g (s2, i2) → n1 = n2) as Hg.
  { intros A g Hnd Heq. eapply NoDup_lookup; [exact Hnd|..].
    - by rewrite list_lookup_fmap, H1.
    - rewrite list_lookup_fmap, H2. simpl. by rewrite Heq. }
  split; intros Heq; [specialize (Hg _ fst Hnd1 Heq)|specialize (Hg _ snd Hnd2 Heq)]; congruence.
Qed.

Lemma unregistered_unread s x :
  (∀ i, (s, i) ∉ x_sel x) → io_step max (IoReadable s) x = (Ok tt, x).
Proof.
  intros Hs. simpl. destruct (list_find _ _) as [e|] eqn:Hf; [|done].
  apply registered_found in Hf. by apply Hs in Hf.
Qed.

Lemma registered_dec s x : (∃ i, (s, i) ∈ x_sel x) ∨ (∀ i, (s, i) ∉ x_sel x).
Proof.
  destruct (list_find (λ e : ref * nat, e.1 = s) (x_sel x)) as [e|] eqn:Hf.
  - left. eexists. by eapply registered_found.
  - right. intros i Hin. apply list_find_None in Hf. rewrite Forall_forall in Hf. by apply (Hf (s, i)).
Qed.

Lemma settled_io ev i o held x :
  mux_inv max held x → settled i o x → settled i o (io_step max ev x).2.
Proof.
  intros Hinv Hset. destruct ev as [| |s]; [done| |].
  - destruct Hset as [Hfly Hf]. split; [|done]. intros s. unfold flying. simpl.
    intros Hin. apply (Hfly s). unfold flying. set_solver.
  - destruct (registered_dec s x) as [[j Hj]|Hno]; [|by rewrite unregistered_unread].
    eapply only_settled; [by eapply io_readable_only| |done]. intros ->.
    apply (proj1 Hset s). unfold flying. set_solver.
Qed.

(** How a request leaves the selector. *)
Lemma fail_settled s i f held x x' :
  mux_inv max held x → (s, i) ∈ x_sel x → x_flights x !! i = Some f → f_result f = None →
  _fail s i x = (Ok tt, x') → settled i None x'.
Proof.
  intros Hinv Hin Hf Hn. destruct (inv_unregister max s i held x Hinv Hin) as (_ & _ & Hgone).
  unfold _fail. unfold_M. simpl. destruct (close_quietly_frame s (unregister s x).2) as (Hr & Hs & Hfl).
  simpl in *. destruct (mux_close_quietly s _) as [[[]|e] x1]; [|done]. simpl in *.
  intros [= <-]. split.
  - intros s'. unfold flying. simpl. rewrite Hr, Hs. apply Hgone.
  - simpl. rewrite lookup_alter_eq, Hfl, Hf. by eexists.
Qed.

Lemma deliver_settled a s i f msg held x x' :
  mux_inv max held x → (s, i) ∈ x_sel x → x_flights x !! i = Some f →
  (unregister s ;; _return max a s ;; settle i (Some msg)) x = (Ok tt, x') →
  settled i (Some msg) x'.
Proof.
  intros Hinv Hin Hf. destruct (inv_unregister max s i held x Hinv Hin) as (_ & _ & Hgone).
  unfold_M. simpl. destruct (return_frame max a s (unregister s x).2) as (Hr & Hs & Hfl).
  simpl in *. destruct (_return max a s _) as [[[]|e] x1]; [|done]. simpl in *.
  intros [= <-]. split.
  - intros s'. unfold flying. simpl. rewrite Hr, Hs. apply Hgone.
  - simpl. rewrite lookup_alter_eq, Hfl, Hf. by eexists.
Qed.

(** A readable event of the request's own socket. *)
Lemma owed_read s i o events held x x' :
  mux_inv max held x → (s, i) ∈ x_sel x → owed s i o (IoReadable s :: events) x →
  io_step max (IoReadable s) x = (Ok tt, x') →
  owed s i o events x' ∨ settled i o x'.
Proof.
  intros Hinv Hin (c & f & n & k & Hfly & Hc & Hf & Hp & Hn) Hstep.
  destruct (io_readable max s i held x Hinv Hin) as (c' & f' & out & k' & Hc' & Ho & Hf' & Hnone & Hr & Heq).
  simplify_eq. rewrite Hstep in Heq. destruct n as [|n]; [done|]. simpl in Hp.
  rewrite (M_bind_Ok _ _ _ _ _ Hr) in Hp.
  assert (n ≤ readable s events) as Hle.
  { rewrite readable_cons, decide_True in Hn by done. pose proof (readable_after_wake s events).
    simpl in Hn. lia. }
  assert (mux_inv max held (received s c k' x)) as Hinv'.
  { apply mux_inv_conn_open; [by exists c|done|done]. }
  destruct out as [f1| |msg]; simpl in Hp, Heq.
  - left. injection Heq as ->. exists (set_sock k' c), f1, n, k. simpl.
    rewrite !lookup_insert_eq. split_and!; try done. by left.
  - right. injection Hp as <- _. by eapply (fail_settled s i f held (received s c k' x)).
  - right. injection Hp as <- _. by eapply (deliver_settled (f_address f) s i f msg held (received s c k' x)).
Qed.

Lemma owed_io ev s i o events held x x' :
  mux_inv max held x → owed s i o (ev :: events) x → io_step max ev x = (Ok tt, x') →
  owed s i o events x' ∨ settled i o x'.
Proof.
  intros Hinv Howed Hstep. assert (x' = (io_step max ev x).2) as -> by by rewrite Hstep.
  destruct ev as [| |s'].
  - left. destruct Howed as (c & f & n & k & ? & ? & ? & ? & Hn). exists c, f, n, k.
    by rewrite readable_cons, decide_False in Hn by done.
  - left. destruct Howed as (c & f & n & k & Hfly & Hc & Hf & Hp & Hn). exists c, f, n, k.
    assert ((s, i) ∈ x_sel x ++ x_reg x) as Hin by (unfold flying in Hfly; set_solver).
    split_and!; try done. left. split; [done|]. rewrite readable_cons, decide_False in Hn by done.
    simpl in Hn. lia.
  - destruct (decide (s' = s)) as [->|Hne].
    + destruct (decide ((s, i) ∈ x_sel x)) as [Hin|Hnin]; [by eapply owed_read|]. left.
      rewrite unregistered_unread.
      * destruct Howed as (c & f & n & k & ? & ? & ? & ? & [[? _]|Hn]); [done|].
        exists c, f, n, k. split_and!; try done. by right.
      * intros j Hj. destruct Howed as (c & f & n & k & Hfly & _). assert (j = i) as ->; [|done].
        eapply (flying_once s s j i held x Hinv); [by apply elem_of_app; right|done..].
    + left. assert (owed s i o events x) as Howed'.
      { destruct Howed as (c & f & n & k & ? & ? & ? & ? & Hn). exists c, f, n, k.
        rewrite readable_cons, decide_False in Hn by congruence. done. }
      destruct (registered_dec s' x) as [[j Hj]|Hno]; [|by rewrite unregistered_unread].
      eapply only_owed; [by eapply io_readable_only|done| |done]. intros Heq. apply Hne.
      destruct Howed as (c & f & n & k & Hfly & _).
      eapply (flying_once s' s j i held x Hinv); [by apply elem_of_app; right|done..].
Qed.

(** ** Runs of the system *)

(** Where the selector thread is: in its loop, leaving it, or at its end. *)
Inductive phase := Looping (events : list io_event) | Stopping | Over (r : result (option Message)).

Definition phase_prog (ph : phase) : prog mux (option Message) :=
  match ph with
  | Looping events => selector events
  | Stopping => act io_shutdown ;; mret None
  | Over r => Ret r
  end.

Definition at_phase calls ph (st : list (prog mux (option Message)) * mux) : Prop :=
  ∃ ts helds, st.1 = phase_prog ph :: ts ∧ safe calls ({[None]} :: helds) st.

(** An action of a caller. *)
Lemma caller_step calls ph st j :
  at_phase calls ph st →
  at_phase calls ph (thread_step st (S j)) ∧ requests_kept st.2 (thread_step st (S j)).2.
Proof.
  intros (ts & helds & Hts & Hsafe).
  destruct (thread_step_safe _ _ _ _ _ (S j) Hsafe) as (Hkept & helds' & Hsafe' & Hsame). split.
  - specialize (Hsame 0 ltac:(done)). destruct helds' as [|h0 helds']; [done|]. simpl in Hsame.
    injection Hsame as ->. unfold thread_step in *. rewrite Hts in *. simpl in *.
    destruct (ts !! j) as [[r|X m k]|]; [by exists ts, helds'..| |by exists ts, helds'].
    destruct (m st.2) as [r x']. by eexists _, helds'.
  - apply (Hkept 0 {[None]} None); [done|done|set_solver].
Qed.

(** The action [m] of the selector thread, which keeps its selector. *)
Lemma selector_act {X} calls (m : M mux X) k ts helds st (Q : result X → Prop) :
  st.1 = Act m k :: ts → safe calls ({[None]} :: helds) st →
  wp (mux_inv max) kept {[None]} (act m) (λ held r, held = {[None]} ∧ Q r) →
  (∀ r, Q r → wp (mux_inv max) kept {[None]} (k r) (mux_done calls 0)) →
  let st' := thread_step st 0 in
  Q (m st.2).1 ∧ st'.2 = (m st.2).2 ∧ st'.1 = k (m st.2).1 :: ts ∧ safe calls ({[None]} :: helds) st'.
Proof.
  intros Hts (Hwp & Hdisj & Hinv) Hm Hk. destruct st as [ts' x]. simpl in *. subst.
  assert (({[None]} : gset (option ref)) ## ⋃ helds) as Hd.
  { intros r Hr (h & Hh & Hin)%elem_of_union_list. apply list_elem_of_lookup in Hh as [j Hj].
    by eapply (Hdisj 0 (S j)). }
  destruct (Hm (⋃ helds) x Hd Hinv) as (held & _ & Hinv' & _ & -> & Hr).
  destruct Hwp as [Hlen Hwp].
  unfold thread_step. simpl. destruct (m x) as [r x']. simpl in *. split; [done|]. split; [done|].
  split; [done|]. split; [|done]. split; [done|]. intros [|i] held p Hh Hp; simpl in *.
  - simplify_eq. by apply Hk.
  - by apply (Hwp (S i)).
Qed.

Lemma wp_is_running :
  wp (mux_inv max) kept {[None]} (act is_running) (λ held r, held = {[None]} ∧ ∃ b, r = Ok b).
Proof.
  intros others x Hd Hinv. exists {[None]}. split; [done|]. split; [done|]. split; [done|].
  split; [done|]. by exists (x_running x).
Qed.

Lemma wp_stopping calls : wp (mux_inv max) kept {[None]} (phase_prog Stopping) (mux_done calls 0).
Proof.
  cbn [phase_prog]. apply wp_bind. eapply wp_mono; [apply wp_io_shutdown|].
  intros held r [-> ->]. simpl. set_solver.
Qed.

(** The head of the loop. *)
Lemma round_step calls events st :
  at_phase calls (Looping (IoRound :: events)) st →
  let st' := thread_step st 0 in
  st'.2 = st.2 ∧ at_phase calls (if x_running st.2 then Looping events else Stopping) st'.
Proof.
  intros (ts & helds & Hts & Hsafe).
  destruct (selector_act calls is_running _ ts helds st (λ r, ∃ b, r = Ok b) Hts Hsafe wp_is_running)
    as (_ & Hx & Hts' & Hsafe').
  { intros r [b ->]. destruct b; [apply wp_selector|apply wp_stopping]. }
  split; [done|]. exists ts, helds. split; [|done]. rewrite Hts'. simpl. by destruct (x_running st.2).
Qed.

(** One of the keys that [select] returned. *)
Lemma event_step calls ev events st :
  ev ≠ IoRound → at_phase calls (Looping (ev :: events)) st →
  let st' := thread_step st 0 in
  st'.2 = (io_step max ev st.2).2 ∧
  ((io_step max ev st.2).1 = Ok tt ∧ at_phase calls (Looping events) st' ∨
   at_phase calls (Over (Raise OSError)) st').
Proof.
  intros Hev (ts & helds & Hts & Hsafe).
  assert (∃ k, st.1 = Act (io_step max ev) k :: ts ∧ k (Ok tt) = selector events ∧
    k (Raise OSError) = Ret (Raise OSError)) as (k & Hact & Hk & Hk').
  { rewrite Hts. destruct ev; [done|by eexists..]. }
  destruct (selector_act calls (io_step max ev) k ts helds st
    (λ r, r = Ok tt ∨ r = Raise OSError)) as (Hr & Hx & Hts' & Hsafe').
  - done.
  - done.
  - apply wp_io_step.
  - intros r [->| ->]; [rewrite Hk; apply wp_selector|]. rewrite Hk'. simpl. set_solver.
  - split; [done|].
    destruct Hr as [Hr|Hr]; rewrite Hr, ?Hk, ?Hk' in Hts'; [left; split; [done|]|right];
      by exists ts, helds.
Qed.

Lemma stopping_step calls st :
  at_phase calls Stopping st → at_phase calls (Over (Ok None)) (thread_step st 0) ∧
    x_running (thread_step st 0).2 = x_running st.2.
Proof.
  intros (ts & helds & Hts & Hsafe).
  destruct (selector_act calls io_shutdown _ ts helds st (λ r, r = Ok tt) Hts Hsafe)
    as (Hr & Hx & Hts' & Hsafe').
  - apply wp_io_shutdown.
  - intros r ->. simpl. set_solver.
  - split.
    + exists ts, helds. split; [|done]. by rewrite Hts', Hr.
    + rewrite Hx. unfold io_shutdown, get_state. unfold_M. generalize (x_sel st.2).*2 as l. clear.
      generalize st.2 as x. intros x l. revert x. induction l as [|i l IH]; intros x; [done|].
      simpl. unfold_M. simpl. by rewrite IH.
Qed.

Lemma over_step calls r st : at_phase calls (Over r) st → thread_step st 0 = st.
Proof. intros (ts & helds & Hts & _). unfold thread_step. by rewrite Hts. Qed.

Lemma at_inv calls ph st : at_phase calls ph st → ∃ held, mux_inv max held st.2.
Proof. intros (ts & helds & _ & (_ & _ & Hinv)). by eexists. Qed.

Lemma io_step_running ev held x :
  mux_inv max held x → x_running (io_step max ev x).2 = x_running x.
Proof.
  intros Hinv. destruct ev as [| |s]; [done..|].
  destruct (registered_dec s x) as [[j Hj]|Hno]; [|by rewrite unregistered_unread].
  by eapply on_running, io_readable_only.
Qed.

(** Once the pool is closing, or the selector thread is at its end, it stays so. *)
Definition closing calls st : Prop :=
  (∃ ph, at_phase calls ph st ∧ x_running st.2 = false) ∨ at_phase calls (Over (Raise OSError)) st.

Lemma closing_step calls st j : closing calls st → closing calls (thread_step st j).
Proof.
  assert (∀ ph k, at_phase calls ph st → x_running st.2 = false →
    x_running (thread_step st (S k)).2 = false) as Hcaller.
  { intros ph k Hph Hrun. destruct (caller_step _ _ _ k Hph) as [_ Hk].
    apply not_true_is_false. intros Ht%(rk_running _ _ Hk). congruence. }
  intros [(ph & Hph & Hrun)|Hover].
  - destruct j as [|j]; [|left; exists ph; split; [by apply caller_step|by eapply Hcaller]].
    destruct (at_inv _ _ _ Hph) as [held Hinv]. destruct ph as [[|ev events]| |r].
    + left. exists (Over (Ok None)). by rewrite (over_step calls (Ok None)).
    + destruct (decide (ev = IoRound)) as [->|Hev].
      * destruct (round_step _ _ _ Hph) as [Hx Hph']. left. eexists. split; [done|]. by rewrite Hx.
      * destruct (event_step _ _ _ _ Hev Hph) as [Hx [[_ Hph']|Hph']]; [left|by right].
        eexists. split; [done|]. rewrite Hx. by erewrite io_step_running.
    + destruct (stopping_step _ _ Hph) as [Hph' Hr]. left. eexists. split; [done|]. congruence.
    + left. exists (Over r). by rewrite (over_step _ _ _ Hph).
  - right. destruct j as [|j]; [by rewrite (over_step _ _ _ Hover)|by apply caller_step].
Qed.

Lemma closing_run calls st order : closing calls st → closing calls (interleave order st).
Proof.
  revert st. induction order as [|j order IH]; intros st Hc; [done|]. simpl.
  by apply IH, closing_step.
Qed.

(** How often the selector thread runs. *)
Definition turns (order : list nat) : nat := length (filter (.= 0) order).

(** An action of any thread, while the loop goes on. *)
Lemma looping_step calls events st j :
  at_phase calls (Looping events) st →
  at_phase calls (Looping (drop (turns [j]) events)) (thread_step st j) ∨ closing calls (thread_step st j).
Proof.
  intros Hl. destruct j as [|j]; [|left; by apply caller_step]. change (turns [0]) with 1.
  destruct events as [|ev events].
  - left. by rewrite (over_step calls (Ok None)).
  - simpl. rewrite drop_0. destruct (decide (ev = IoRound)) as [->|Hev].
    + destruct (round_step _ _ _ Hl) as [Hx Hph]. destruct (x_running st.2) eqn:Hr; [by left|].
      right. left. exists Stopping. split; [done|]. congruence.
    + destruct (event_step _ _ _ _ Hev Hl) as [Hx [[_ Hph']|Hph']]; [by left|by right; right].
Qed.

Lemma turns_cons j order : turns (j :: order) = turns [j] + turns order.
Proof. unfold turns. rewrite !filter_cons. by case_decide. Qed.

Lemma looping_run calls events st order :
  at_phase calls (Looping events) st →
  at_phase calls (Looping (drop (turns order) events)) (interleave order st) ∨
  closing calls (interleave order st).
Proof.
  revert events st. induction order as [|j order IH]; intros events st Hl; [by left|].
  rewrite turns_cons, <- drop_drop. cbn [interleave foldl]. fold (interleave order (thread_step st j)).
  destruct (looping_step _ _ _ j Hl) as [Hl'|Hc]; [by apply IH|right; by apply closing_run].
Qed.

(** The next action keeps a request owed its result, or settles it. *)
Lemma owed_next calls s i o n events st j held :
  at_phase calls (Looping events) st → mux_inv max held st.2 →
  owed s i o (take (turns [j] + n) events) st.2 ∨ settled i o st.2 →
  (∃ events', at_phase calls (Looping events') (thread_step st j) ∧
    (owed s i o (take n events') (thread_step st j).2 ∨ settled i o (thread_step st j).2)) ∨
  closing calls (thread_step st j).
Proof.
  intros Hl Hinv Hreq. destruct j as [|j].
  2: { left. exists events. destruct (caller_step _ _ _ j Hl) as [Hl' Hk]. split; [done|].
       destruct Hreq; [left; by eapply owed_kept|right; by eapply settled_kept]. }
  change (turns [0]) with 1 in Hreq. destruct events as [|ev events].
  { left. exists []. rewrite (over_step calls (Ok None)) by done. by rewrite take_nil in *. }
  simpl in Hreq. destruct (decide (ev = IoRound)) as [->|Hev].
  - destruct (round_step _ _ _ Hl) as [Hx Hph]. destruct (x_running st.2) eqn:Hr.
    + left. exists events. split; [done|]. rewrite Hx. destruct Hreq as [Howed|]; [|by right].
      by eapply owed_io in Howed.
    + right. left. exists Stopping. split; [done|]. congruence.
  - destruct (event_step _ _ _ _ Hev Hl) as [Hx [[Hok Hl']|Hover]]; [|by right; right].
    left. exists events. split; [done|]. rewrite Hx.
    destruct Hreq as [Howed|Hset]; [|right; by eapply settled_io].
    eapply owed_io; [done|exact Howed|]. rewrite <- Hok. apply surjective_pairing.
Qed.

(** A request that is owed its result gets it. *)
Lemma owed_run calls s i o events st order :
  at_phase calls (Looping events) st →
  owed s i o (take (turns order) events) st.2 ∨ settled i o st.2 →
  settled i o (interleave order st).2 ∨ closing calls (interleave order st).
Proof.
  revert events st. induction order as [|j order IH]; intros events st Hl Hreq.
  { destruct Hreq as [(c & f & n & k & _ & _ & _ & Hp & Hn)|]; [|by left]. rewrite take_0 in Hn.
    destruct n; [done|]. unfold readable in Hn. simpl in Hn. lia. }
  destruct (at_inv _ _ _ Hl) as [held Hinv]. rewrite turns_cons in Hreq. cbn [interleave foldl].
  fold (interleave order (thread_step st j)).
  destruct (owed_next _ _ _ _ _ _ _ j held Hl Hinv Hreq) as [(events' & Hl' & Hreq')|Hc];
    [by eapply IH|right; by apply closing_run].
Qed.
End system.

(** What the peer answered: what a blocking receiver would read from the socket. *)
Definition peer_answer `{Pickle} (k : sock) : option Message :=
  match (recv_message (set_in (solid (s_in k)) k)).1 with Ok msg => Some msg | Raise _ => None end.

(** The selector thread died because closing an idle socket raised. *)
Definition io_dead (st : list (prog mux (option Message)) * mux) : Prop :=
  st.1 !! 0 = Some (Ret (Raise OSError)).

(** C12. No request is forgotten.  A request that was submitted, at any moment of any
    concurrent execution, gets the answer of its peer, the one a blocking receiver
    would return, or no answer when that receiver would raise: once the selector
    thread has been woken and has found the socket readable once for each piece that
    arrives and twice more, whatever else becomes readable and whatever the other
    callers do meanwhile, its event is set and its result is there to be read; unless
    the pool is closing, or the thread died because closing an idle socket raised. *)
Theorem mux_answers `{PickleLaws} max events calls order order' x s i c :
  mux_inv max ∅ x →
  let st := interleave order (mux_threads max events calls, x) in
  let st' := interleave order' st in
  let ahead := take (turns order') (drop (turns order) events) in
  (s, i) ∈ flying st.2 → x_conns st.2 !! s = Some c →
  x_flights st.2 !! i = Some (new_inflight s.1) →
  length (s_in (c_sock c)) + 2 ≤ readable s (after_wake ahead) →
  (∃ f, x_flights st'.2 !! i = Some f ∧ f_event f = true) ∧
    read_result i st'.2 = (Ok (peer_answer (c_sock c)), st'.2) ∨
  x_running st'.2 = false ∨ io_dead st'.
Proof.
  intros Hinv st st' ahead Hfly Hc Hf Hn.
  destruct (mux_reads_like_recv s.1 (c_sock c) (length (s_in (c_sock c)) + 2)) as (o & k & Hp & Hr); [lia|].
  assert (o = peer_answer (c_sock c)) as ->.
  { unfold peer_answer. destruct (recv_message _) as [[msg|e] k']; simpl; [by destruct Hr|done]. }
  assert (∀ st, closing max calls st → x_running st.2 = false ∨ io_dead st) as Hclosing.
  { intros st0 [(ph & _ & Hrun)|(ts & helds & Hts & _)]; [by left|right]. unfold io_dead. by rewrite Hts. }
  assert (at_phase max calls (Looping events) (mux_threads max events calls, x)) as Hl.
  { eexists _, _. split; [done|]. by apply mux_safe_start. }
  destruct (looping_run _ _ _ _ order Hl) as [Hl'|Hd]; [|right; by apply Hclosing, closing_run].
  destruct (owed_run max _ s i (peer_answer (c_sock c)) _ st order' Hl') as [(_ & f & Hf' & He & Ho)|Hd];
    [|left|right; by apply Hclosing].
  - left. exists c, (new_inflight s.1), (length (s_in (c_sock c)) + 2), k.
    split_and!; try done. by right.
  - split; [by exists f|]. unfold read_result. unfold st'. rewrite Hf'. simpl. by rewrite Ho.
Qed.

(** ** After the selector thread *)
Section closed.
Context (max : Z) `{Pickle}.

(** No request is given a result. *)
Definition unanswered x x' : Prop :=
  x_next x ≤ x_next x' ∧ ∀ i f', x_flights x' !! i = Some f' →
    f_result f' = None ∨ ∃ f, x_flights x !! i = Some f ∧ f_result f' = f_result f.

Lemma unanswered_same x x' :
  x_next x ≤ x_next x' → x_flights x' = x_flights x → unanswered x x'.
Proof. intros Hn Hf. split; [done|]. intros i f'. rewrite Hf. eauto. Qed.

Lemma unanswered_trans x1 x2 x3 : unanswered x1 x2 → unanswered x2 x3 → unanswered x1 x3.
Proof.
  intros [Hn1 H1] [Hn2 H2]. split; [lia|]. intros i f3 [?|(f2 & Hf2 & Heq)]%H2; [by left|].
  rewrite Heq. eauto.
Qed.

Lemma unanswered_close s x : unanswered x (mux_close_quietly s x).2.
Proof.
  unfold mux_close_quietly, try_except, mux_close. destruct (x_conns x !! s) as [c|];
    [destruct (c_open c); [destruct (c_close_fails c)|]|]; by apply unanswered_same.
Qed.

Lemma unanswered_close_all l x : unanswered x (for_each l mux_close_quietly x).2.
Proof.
  revert x. induction l as [|s l IH]; intros x; [by apply unanswered_same|]. simpl. unfold_M.
  pose proof (unanswered_close s x) as Hc. destruct (mux_close_quietly s x) as [[[]|e] x1]; [|done].
  by eapply unanswered_trans.
Qed.

Lemma unanswered_close_raising s x : unanswered x (mux_close s x).2.
Proof.
  unfold mux_close. destruct (x_conns x !! s) as [c|]; [destruct (c_open c)|]; by apply unanswered_same.
Qed.

Lemma unanswered_pop a x : unanswered x (pop_idle a x).2.
Proof. unfold pop_idle. repeat case_match; by apply unanswered_same. Qed.

Lemma unanswered_connect a x : unanswered x (mux_connect a x).2.
Proof. unfold mux_connect. repeat case_match; apply unanswered_same; simpl; auto with lia. Qed.

Lemma unanswered_sendall s data x : unanswered x (mux_sendall s data x).2.
Proof.
  unfold mux_sendall. destruct (x_conns x !! s) as [c|]; [destruct (c_open c)|]; try by apply unanswered_same.
  destruct (sendall _ _). by apply unanswered_same.
Qed.

Lemma unanswered_submit a s x : unanswered x (submit a s x).2.
Proof.
  split; [simpl; lia|]. intros i f'. simpl.
  intros [(<- & <-)|[_ Hf]]%lookup_insert_Some; [by left|]. eauto.
Qed.

Lemma unanswered_read i x : unanswered x (read_result i x).2.
Proof. by apply unanswered_same. Qed.

Lemma unanswered_close_idle x :
  unanswered x ((x ← get_state; for_each (concat (x_idle x).*2) mux_close_quietly ;;
    modify (set_idle [])) x).2.
Proof.
  unfold get_state. unfold_M. pose proof (unanswered_close_all (concat (x_idle x).*2) x) as Hc.
  destruct (for_each _ mux_close_quietly x) as [[[]|e] x1]; [|done]. simpl.
  eapply unanswered_trans; [done|by apply unanswered_same].
Qed.

(** Callers answer no request. *)
Lemma caller_unanswered c : every unanswered (mux_call_prog c).
Proof.
  destruct c as [hst prt msg|hst prt|]; cbn [mux_call_prog].
  - unfold mux_execute, mux_request, _acquire. cbv zeta. apply every_bind; [apply every_bind; [apply every_bind|]|].
    + apply every_one, unanswered_pop.
    + intros [s|]; [constructor|apply every_one, unanswered_connect].
    + intros [s|]; [|constructor]. apply every_bind; [constructor|]. intros bytes.
      apply every_bind; [apply every_try|].
      * apply every_bind; [apply every_one, unanswered_sendall|intros _; constructor].
      * intros _. apply every_bind; [apply every_one, unanswered_close_raising|intros _; constructor].
      * intros []; [|constructor]. apply every_bind; [apply every_one, unanswered_submit|intros i; constructor].
    + intros [i|]; [apply every_one, unanswered_read|constructor].
  - apply every_bind; [|intros _; constructor]. unfold mux_close_peer. apply every_bind.
    + apply every_one. intros x. by apply unanswered_same.
    + intros l. induction l as [|s l IH]; [constructor|]. cbn [close_each].
      apply every_bind; [apply every_one, unanswered_close|done].
  - apply every_bind; [|intros _; constructor]. unfold mux_close_all.
    apply every_bind; [apply every_one; intros x; by apply unanswered_same|]. intros _.
    apply every_one, unanswered_close_idle.
Qed.

(** The requests from number [n] on have no result. *)
Definition unanswered_from (n : nat) x : Prop :=
  n ≤ x_next x ∧ ∀ i f, n ≤ i → x_flights x !! i = Some f → f_result f = None.

Lemma unanswered_from_stable n x x' : unanswered_from n x → unanswered x x' → unanswered_from n x'.
Proof.
  intros [Hn Hf] [Hn' Hf']. split; [lia|]. intros i f' Hi [?|(f & Hi' & ->)]%Hf'; [done|]. eauto.
Qed.

(** A caller that sends its request late is given a late number. *)
Lemma request_unanswered n hst prt msg :
  stable_wp (unanswered_from n) (mux_request hst prt msg) (λ r, ∀ i, r = Ok (Some i) → n ≤ i).
Proof.
  pose proof (unanswered_from_stable n) as Hst. unfold mux_request, _acquire. cbv zeta.
  apply stable_bind, (stable_mono _ _ (λ r, ∃ o, r = Ok o)).
  { apply stable_bind. eapply stable_one; [exact Hst|apply unanswered_pop|]. intros x _.
    unfold pop_idle. destruct (dict_get _ _) as [l|]; [destruct (pop_right l) as [[s l']|]|].
    2, 3: eapply stable_one; [exact Hst|apply unanswered_connect|]; intros x' _;
      unfold mux_connect; repeat case_match; by eexists.
    by eexists. }
  intros r [[s|] ->]; [|done]. apply stable_bind. destruct (frame msg) as [bytes|e]; [|done].
  apply stable_bind, stable_try, stable_bind.
  eapply stable_one; [exact Hst|apply unanswered_sendall|]. intros x Hx.
  destruct (mux_sendall s bytes x).1 as [[]|e].
  - apply stable_bind. intros x1 Hx1. split; [eapply Hst; [done|apply unanswered_submit]|].
    destruct Hx1 as [Hn _]. intros i [= <-]. exact Hn.
  - apply stable_bind. eapply stable_one; [exact Hst|apply unanswered_close_raising|].
    intros x1 _. by destruct (mux_close s x1).1.
Qed.

Lemma execute_unanswered n hst prt msg :
  stable_wp (unanswered_from n) (mux_execute hst prt msg) (λ r, ∀ o, r ≠ Ok (Some o)).
Proof.
  pose proof (unanswered_from_stable n) as Hst. unfold mux_execute.
  eapply stable_bind, stable_mono; [apply request_unanswered|].
  intros [[i|]|e] Hi; [|done..].
  eapply stable_one; [exact Hst|apply unanswered_read|].
  intros x [_ Hx] o. unfold read_result. simpl. destruct (x_flights x !! i) as [f|] eqn:Hf; [|done].
  simpl. by rewrite (Hx i f (Hi i eq_refl) Hf).
Qed.

(** A closed pool answers nothing.  Once the selector thread has ended, as [close_all]
    makes it do, a call of [execute] that starts afterwards never returns an answer,
    whatever the other threads do: it returns [None] or raises. *)
Theorem mux_closed_answers_nothing events calls order order' x j hst prt msg r0 r :
  mux_inv max ∅ x →
  let st := interleave order (mux_threads max events calls, x) in
  st.1 !! 0 = Some (Ret r0) → st.1 !! j = Some (mux_execute hst prt msg) →
  (interleave order' st).1 !! j = Some (Ret r) →
  r = Ok None ∨ ∃ e, r = Raise e.
Proof.
  intros Hinv st H0 Hj Hr.
  destruct (interleave_safe (mux_inv max) kept (mux_done calls) _ order _
    (mux_safe_start max events calls x Hinv)) as (helds & _ & _ & Hinv').
  destruct (interleave_stable (unanswered_from (x_next st.2)) unanswered (λ r, ∀ o, r ≠ Ok (Some o))
    order' j (mux_execute hst prt msg) st) as (p' & Hp' & Hwp).
  - intros x'. by apply unanswered_same.
  - apply unanswered_from_stable.
  - intros t [i Hi]%list_elem_of_lookup. destruct i as [|i].
    { rewrite H0 in Hi. injection Hi as <-. constructor. }
    destruct (lookup_lt_is_Some_2 (mux_call_prog <$> calls) i) as [p Hp].
    { apply lookup_lt_Some in Hi. unfold st in Hi. rewrite interleave_length in Hi. simpl in Hi. lia. }
    destruct (every_residual unanswered order (mux_threads max events calls, x) (S i) p)
      as (p' & Hp' & Hev); [done| |].
    + apply list_lookup_fmap_Some in Hp as (c & -> & _). apply caller_unanswered.
    + fold st in Hp'. congruence.
  - done.
  - apply execute_unanswered.
  - split; [done|]. intros i f Hi Hf.
    assert (i < x_next st.2) by (apply (mi_fresh_flight _ _ _ Hinv'); by eexists). lia.
  - rewrite Hr in Hp'. injection Hp' as <-. simpl in Hwp. destruct r as [[o|]|e]; eauto.
    by destruct (Hwp o).
Qed.
End closed.

(** ** A sample pool *)

Definition mux_init (dials : list (result conn)) : mux := mkMux [] ∅ ∅ [] [] dials 1 true.

Lemma mux_init_inv max dials : mux_inv max ∅ (mux_init dials).
Proof.
  split; simpl; try by (constructor || set_solver).
  - intros s. split; [|set_solver]. by intros (c & ? & _).
  - by intros a l ?%elem_of_nil.
  - by intros s [? ?].
  - by intros i [? ?].
Qed.

(** A peer that sends its answer in two pieces, between them a false alarm. *)
Definition slow_conn : conn :=
  mkConn (mkSock [Data x00 [x00; x00; x02]; Err BlockingIOError; Data x80 [x05]] [] None) true false [].

(** The connection after the request was sent. *)
Definition asked_conn : conn :=
  set_sock (mkSock (s_in (c_sock slow_conn)) [x00; x00; x00; x02; x80; x05] None) slow_conn.

Definition sample_mux_calls : list mux_call :=
  [MuxExecute "10.0.0.2" 7000 sample_msg; MuxClosePeer "10.0.0.2" 7000; MuxCloseAll].

Lemma mux_shared_safely_witness :
  let st := interleave [1; 1; 2; 1; 0; 0; 1; 0; 2; 3; 0; 3; 0; 1]
    (mux_threads (H := sample_pickle) 64
       [IoRound; IoWake; IoReadable ("10.0.0.2:7000"%string, 1); IoRound; IoRound] sample_mux_calls,
     mux_init [Ok slow_conn]) in
  (∃ helds, mux_shares (H := sample_pickle) 64 sample_mux_calls helds st) ∧
  ((∀ msg, msg ∈ requests sample_mux_calls → ∃ bytes, frame (H := sample_pickle) msg = Ok bytes) →
   (∀ t, t ∈ st.1 → finished t = true) → mux_inv 64 ∅ st.2).
Proof. apply (mux_shared_safely (H := sample_pickle) 64). apply mux_init_inv. Defined.

Lemma mux_answers_witness :
  let s := ("10.0.0.2:7000"%string, 1) in
  let events := [IoRound; IoWake; IoRound; IoWake] ++ mjoin (replicate 5 [IoRound; IoReadable s]) in
  let st := interleave [1; 0; 0; 1; 1; 1]
    (mux_threads (H := sample_pickle) 64 events sample_mux_calls, mux_init [Ok slow_conn]) in
  let st' := interleave (2 :: replicate 12 0 ++ [2; 3]) st in
  (∃ f, x_flights st'.2 !! 2 = Some f ∧ f_event f = true) ∧
    read_result 2 st'.2 = (Ok (peer_answer (H := sample_pickle) (c_sock asked_conn)), st'.2) ∨
  x_running st'.2 = false ∨ io_dead st'.
Proof.
  intros s events. apply (mux_answers (H := sample_pickle) (H0 := sample_pickle_laws) 64
    events sample_mux_calls [1; 0; 0; 1; 1; 1] (2 :: replicate 12 0 ++ [2; 3])
    (mux_init [Ok slow_conn]) s 2 asked_conn).
  - apply mux_init_inv.
  - vm_compute. by left.
  - vm_compute. reflexivity.
  - vm_compute. reflexivity.
  - vm_compute. lia.
Defined.

Lemma mux_closed_answers_nothing_witness :
  let calls := [MuxCloseAll; MuxExecute "10.0.0.2" 7000 sample_msg] in
  let st := interleave [1; 0; 0; 1]
    (mux_threads (H := sample_pickle) 64 [IoRound] calls, mux_init [Ok slow_conn]) in
  (interleave (replicate 5 2) st).1 !! 2 = Some (Ret (Ok None)) ∧
  (Ok None = @Ok (option Message) None ∨ ∃ e, Ok None = @Raise (option Message) e).
Proof.
  intros calls st. assert ((interleave (replicate 5 2) st).1 !! 2 = Some (Ret (Ok None))) as Hr.
  { vm_compute. reflexivity. }
  split; [exact Hr|]. refine (mux_closed_answers_nothing (H := sample_pickle) 64 [IoRound] calls
    [1; 0; 0; 1] (replicate 5 2) (mux_init [Ok slow_conn]) 2 "10.0.0.2" 7000 sample_msg
    (Ok None) (Ok None) (mux_init_inv _ _) _ _ Hr).
  - vm_compute. reflexivity.
  - reflexivity.
Defined.
