(* ===== verification/PoolOps.v ===== *)
(** * The interface of a connection pool ([connection_pool/interface.py])

    What gossip and the nodes call, what they rely on, and the two pools that
    provide it. *)
From S2P Require Import Prelude Async PyBase Bytes PyDict Types Wire Threads Pool PoolShare PoolSpec.

Class PoolOps (P : Type) := {
  po_execute : string → Z → Message → M P (option Message);
  po_close_peer : string → Z → M P unit;
  po_close_all : M P unit;
}.

(** No call raises: a peer that cannot be reached is reported as [None]. *)
Class PoolOpsLaws (P : Type) `{PoolOps P} := {
  po_wf : P → Prop;
  po_execute_returns h prt msg p : po_wf p → ∃ o p',
    po_execute h prt msg p = (Ok o, p') ∧ po_wf p';
  po_close_peer_returns h prt p : po_wf p → ∃ p',
    po_close_peer h prt p = (Ok tt, p') ∧ po_wf p';
}.

(** Requests to different peers do not interfere: they may be exchanged. *)
Class PoolIndependent (P : Type) `{PoolOpsLaws P} := {
  po_execute_commute h1 p1 m1 h2 p2 m2 : (h1, p1) ≠ (h2, p2) →
    commute po_wf (po_execute h1 p1 m1) (po_execute h2 p2 m2);
}.

Section instances.
Context `{Pickle} (max : Z).

(** More rounds than any queue has items. *)
Definition drain_fuel (p : pool) : nat :=
  S (map_fold (λ _ items n, length items + n) 0 (p_heap p)).

Definition sync_pool : PoolOps pool := {|
  po_execute h prt msg := run (execute max h prt msg);
  po_close_peer h prt := λ p, run (close_peer (drain_fuel p) h prt) p;
  po_close_all := λ p, run (close_all (S (length (p_queues p))) (drain_fuel p)) p;
|}.

Definition async_pool : PoolOps pool := {|
  po_execute h prt msg := run (execute_async max h prt msg);
  po_close_peer h prt := close_peer_async h prt;
  po_close_all := close_all_async;
|}.

(** A call run alone on a well-formed pool returns and leaves it well-formed. *)
Lemma alone_returns {A} (m : prog pool A) (Q : result A → Prop) p :
  wp (pool_inv max) same_conn ∅ m (λ held r, closed_only held ∧ Q r) → pool_inv max ∅ p →
  Q (run m p).1 ∧ pool_inv max ∅ (run m p).2.
Proof.
  intros Hwp Hp. destruct (run_safe _ _ _ _ _ _ Hwp Hp) as (held & Hinv & Hc & HQ).
  split; [done|]. rewrite <- (union_empty_r_L held) in Hinv. by eapply pool_inv_drop.
Qed.

Lemma execute_returns h prt msg p :
  pool_inv max ∅ p → ∃ o p', run (execute max h prt msg) p = (Ok o, p') ∧ pool_inv max ∅ p'.
Proof.
  apply execute_alone.
Qed.

Lemma close_peer_returns fuel h prt p :
  pool_inv max ∅ p → ∃ p', run (close_peer fuel h prt) p = (Ok tt, p') ∧ pool_inv max ∅ p'.
Proof.
  intros Hp. destruct (alone_returns _ _ p (wp_close_peer max fuel h prt) Hp) as [Ho Hinv].
  exists (run (close_peer fuel h prt) p).2. split; [|done]. by apply injective_projections.
Qed.

Lemma execute_async_returns h prt msg p :
  pool_inv max ∅ p → ∃ o p', run (execute_async max h prt msg) p = (Ok o, p') ∧ pool_inv max ∅ p'.
Proof.
  intros Hp. destruct (alone_returns _ _ p (wp_execute_async max h prt msg) Hp) as [[o Ho] Hinv].
  exists o, (run (execute_async max h prt msg) p).2. split; [|done]. by apply injective_projections.
Qed.

Lemma close_peer_async_returns h prt p :
  pool_inv max ∅ p → ∃ p', close_peer_async h prt p = (Ok tt, p') ∧ pool_inv max ∅ p'.
Proof.
  intros Hp. destruct (alone_returns _ _ p (wp_close_peer_async max h prt) Hp) as [Ho Hinv].
  rewrite run_act in *. exists (close_peer_async h prt p).2. split; [|done].
  by apply injective_projections.
Qed.

Definition sync_pool_laws : @PoolOpsLaws pool sync_pool :=
  @Build_PoolOpsLaws pool sync_pool (pool_inv max ∅) execute_returns
    (λ h prt p, close_peer_returns (drain_fuel p) h prt p).

Definition async_pool_laws : @PoolOpsLaws pool async_pool :=
  @Build_PoolOpsLaws pool async_pool (pool_inv max ∅) execute_async_returns
    close_peer_async_returns.
End instances.

(** ** A pool that records its calls *)

(** The requests executed, oldest first, on top of a pool. *)
Definition traced (P : Type) : Type := P * list (string * Z * Message).

#[export] Instance traced_pool {P} `{PoolOps P} : PoolOps (traced P) := {
  po_execute h prt msg := λ t,
    let '(r, p) := po_execute h prt msg t.1 in (r, (p, t.2 ++ [(h, prt, msg)]));
  po_close_peer h prt := zoom fst (λ p t, (p, t.2)) (po_close_peer h prt);
  po_close_all := zoom fst (λ p t, (p, t.2)) po_close_all;
}.

#[export] Program Instance traced_pool_laws {P} `{PoolOpsLaws P} : PoolOpsLaws (traced P) := {
  po_wf t := po_wf t.1
}.
Next Obligation.
  intros P ? ? h prt msg [p tr] Hp. simpl in *.
  destruct (po_execute_returns h prt msg p Hp) as (o & p' & -> & Hp'). eauto.
Qed.
Next Obligation.
  intros P ? ? h prt [p tr] Hp. simpl in *. unfold_M. simpl.
  destruct (po_close_peer_returns h prt p Hp) as (p' & -> & Hp'). eauto.
Qed.

(** ** A scripted pool

    The answers to come, one per call; no answer when the script is over. *)
Abbreviation script := (list (option Message)).

Definition scripted_pool : PoolOps script := {|
  po_execute _ _ _ := λ answers, (Ok (mjoin (head answers)), tail answers);
  po_close_peer _ _ := mret tt;
  po_close_all := mret tt;
|}.

Lemma scripted_execute h prt msg (answers : script) : True → ∃ o answers',
  po_execute (PoolOps := scripted_pool) h prt msg answers = (Ok o, answers') ∧ True.
Proof. intros _. by eexists _, _. Qed.

Lemma scripted_close h prt (answers : script) : True → ∃ answers',
  po_close_peer (PoolOps := scripted_pool) h prt answers = (Ok tt, answers') ∧ True.
Proof. intros _. by eexists. Qed.

Definition scripted_pool_laws : @PoolOpsLaws script scripted_pool :=
  @Build_PoolOpsLaws script scripted_pool (λ _, True) scripted_execute scripted_close.
