(* ===== verification/Consistency.v ===== *)
(** * Merge policies ([dlstorage/consistency])

    [LWW] and [FHW] and their asynchronous versions resolve a read from the
    replica handles in ring order ([node/interface.py]). *)
From S2P Require Import Prelude PyBase Types Store Async.

(** ** Replica handles *)

(** [ReplicaHandle]: a local or remote replica, acting on the state [S] of the
    rest of the system. *)
Record ReplicaHandle (S : Type) := mkHandle {
  h_get_versioned : string → M S (option versioned);
  h_set : string → pyval → option Float.t → Z → M S bool;
  h_delete : string → Z → M S bool;
}.
Arguments mkHandle {S} _ _ _.
Arguments h_get_versioned {S} _ _.
Arguments h_set {S} _ _ _ _ _.
Arguments h_delete {S} _ _ _.

(** [MergeResolver] and [AsyncMergeResolver]: how a node chooses among its replicas, given
    their handles, by the method [read_resolve]. *)
Definition MergeResolver (S : Type) : Type := string → list (ReplicaHandle S) → M S pyval.
Definition AsyncMergeResolver (S : Type) : Type := string → list (ReplicaHandle S) → M S pyval.

(** ** The choice of the newest response *)

(** [(best_value, best_ts, best_tombstone)], the loop state. *)
Abbreviation best := (pyval * Z * bool)%type.

Definition best_init : best := (VNone, -1, false)%Z.

(** One iteration: a missing response is skipped, a strictly newer one wins. *)
Definition best_step (b : best) (r : option versioned) : best :=
  match r with
  | None => b
  | Some (value, ts, is_tomb) =>
      if bool_decide (ts > b.1.2)%Z then (value, ts, is_tomb) else b
  end.

(** [None if (best_ts < 0 or best_tombstone) else best_value]. *)
Definition best_value (b : best) : pyval :=
  let '(value, ts, tomb) := b in
  if bool_decide (ts < 0)%Z || tomb then VNone else value.

Definition pick (results : list (option versioned)) : pyval :=
  best_value (foldl best_step best_init results).

Section resolvers.
Context {S : Type}.
Implicit Types (h : ReplicaHandle S) (handles : list (ReplicaHandle S)) (key : string).

(** [try: h.get_versioned(key) / except Exception: None]. *)
Definition fetch key h : M S (option versioned) :=
  try_except (h_get_versioned h key) (λ _, mret None).

(** [LWW.read_resolve]. *)
Definition lww_read_resolve : MergeResolver S := λ key handles,
  results ← map_each handles (fetch key);
  mret (pick results).

(** [isinstance(r, BaseException) or r is None]: such outcomes are skipped. *)
Definition outcome (r : result (option versioned)) : option versioned :=
  match r with Ok o => o | Raise _ => None end.

(** [AsyncLWW.read_resolve], for the order in which the responses arrive. *)
Definition async_lww_read_resolve (order : list nat) : AsyncMergeResolver S := λ key handles,
  results ← gather order (fetch key <$> handles);
  mret (pick (outcome <$> results)).

(** [FHW.read_resolve]. *)
Fixpoint fhw_read_resolve key handles : M S pyval :=
  match handles with
  | [] => mret VNone
  | h :: handles' => λ s,
      match h_get_versioned h key s with
      | (Raise _, s') => fhw_read_resolve key handles' s'
      | (Ok None, s') => fhw_read_resolve key handles' s'
      | (Ok (Some (value, _, is_tomb)), s') =>
          if is_tomb : bool then fhw_read_resolve key handles' s' else (Ok value, s')
      end
  end.

(** [AsyncFHW.read_resolve]: the same loop, but while each response is awaited
    other tasks of the event loop may run; [others] are their effects. *)
Fixpoint async_fhw_read_resolve (others : list (S → S)) key handles : M S pyval :=
  match handles with
  | [] => mret VNone
  | h :: handles' => λ s,
      let s := match others with f :: _ => f s | [] => s end in
      match h_get_versioned h key s with
      | (Raise _, s') => async_fhw_read_resolve (tail others) key handles' s'
      | (Ok None, s') => async_fhw_read_resolve (tail others) key handles' s'
      | (Ok (Some (value, _, is_tomb)), s') =>
          if is_tomb : bool then async_fhw_read_resolve (tail others) key handles' s'
          else (Ok value, s')
      end
  end.

(** *** Lemmas *)

Lemma map_each_fetch key handles s :
  map_each handles (fetch key) s =
    (Ok (outcome <$> (run_all (fetch key <$> handles) s).1),
     (run_all (fetch key <$> handles) s).2).
Proof.
  revert s. induction handles as [|h handles IH]; intros s; [done|].
  csimpl. unfold_M.
  assert (∃ o s1, fetch key h s = (Ok o, s1)) as (o & s1 & Hf).
  { unfold fetch. unfold_M. destruct (h_get_versioned h key s) as [[o|e] s1]; eauto. }
  rewrite Hf, IH. by destruct (run_all _ _).
Qed.

Lemma lww_read_resolve_run key handles s :
  lww_read_resolve key handles s =
    (Ok (pick (outcome <$> (run_all (fetch key <$> handles) s).1)),
     (run_all (fetch key <$> handles) s).2).
Proof. unfold lww_read_resolve. unfold_M. by rewrite map_each_fetch. Qed.
End resolvers.

(** ** The response chosen *)

(** [r] is the winner among the responses: none is newer, none before it is as
    new. *)
Definition newest_at (rs : list (option versioned)) (i : nat) (v : pyval) (ts : Z) (tomb : bool) :=
  rs !! i = Some (Some (v, ts, tomb)) ∧
  ∀ j v' ts' tomb', rs !! j = Some (Some (v', ts', tomb')) →
    (ts' ≤ ts)%Z ∧ (j < i → (ts' < ts)%Z).

Lemma best_fold rs :
  let b := foldl best_step best_init rs in
  (b = best_init ∧ ∀ j v ts tomb, rs !! j = Some (Some (v, ts, tomb)) → (ts < 0)%Z) ∨
  (0 ≤ b.1.2 ∧ ∃ i, newest_at rs i b.1.1 b.1.2 b.2)%Z.
Proof.
  induction rs as [|r rs IH] using rev_ind; simpl; [by left|].
  rewrite foldl_app. simpl. set (b := foldl best_step best_init rs) in *.
  assert (∀ j x, (rs ++ [r]) !! j = Some x →
    (j < length rs ∧ rs !! j = Some x) ∨ (j = length rs ∧ r = x)) as Hlast.
  { intros j x Hj. apply lookup_app_Some in Hj as [Hj|[Hle Hj]].
    - left. split; [by eapply lookup_lt_Some|done].
    - right. apply list_lookup_singleton_Some in Hj as [? ->]. split; [lia|done]. }
  destruct r as [[[v ts] tomb]|]; simpl.
  - case_bool_decide as Hgt.
    + right. simpl. destruct IH as [[Hb Hneg]|[Hpos [i [Hi Hmax]]]].
      * rewrite Hb in Hgt. simpl in Hgt. split; [lia|]. exists (length rs).
        split; [by rewrite lookup_app_r, Nat.sub_diag by lia|].
        intros j v' ts' tomb' [[Hj Hr]|[-> [= -> -> ->]]]%Hlast; [|lia].
        apply Hneg in Hr. lia.
      * split; [lia|]. exists (length rs).
        split; [by rewrite lookup_app_r, Nat.sub_diag by lia|].
        intros j v' ts' tomb' [[Hj Hr]|[-> [= -> -> ->]]]%Hlast; [|lia].
        apply Hmax in Hr as [??]. lia.
    + destruct IH as [[Hb Hneg]|[Hpos [i [Hi Hmax]]]].
      * left. split; [done|]. rewrite Hb in Hgt. simpl in Hgt.
        intros j v' ts' tomb' [[Hj Hr]|[-> [= -> -> ->]]]%Hlast; [by eapply Hneg|lia].
      * right. split; [done|]. exists i. split; [by apply lookup_app_l_Some|].
        intros j v' ts' tomb' [[Hj Hr]|[-> [= -> -> ->]]]%Hlast; [by eapply Hmax|].
        apply lookup_lt_Some in Hi. lia.
  - destruct IH as [[Hb Hneg]|[Hpos [i [Hi Hmax]]]].
    + left. split; [done|]. intros j v' ts' tomb' [[Hj Hr]|[-> ?]]%Hlast; [by eapply Hneg|done].
    + right. split; [done|]. exists i. split; [by apply lookup_app_l_Some|].
      intros j v' ts' tomb' [[Hj Hr]|[-> ?]]%Hlast; [by eapply Hmax|done].
Qed.

(** The value picked is the newest response's; deleted or absent reads as [None]. *)
Lemma pick_newest rs i v ts tomb :
  newest_at rs i v ts tomb → (0 ≤ ts)%Z → pick rs = if tomb then VNone else v.
Proof.
  intros [Hi Hmax] Hts. unfold pick.
  destruct (best_fold rs) as [[_ Hneg]|[Hpos [i' [Hi' Hmax']]]].
  { apply Hneg in Hi. lia. }
  destruct (foldl _ _ _) as [[v' ts'] tomb']. simpl in *.
  pose proof (Hmax _ _ _ _ Hi') as [??]. pose proof (Hmax' _ _ _ _ Hi) as [??].
  assert (ts = ts') as <- by lia.
  assert (i = i') as <- by lia. rewrite Hi in Hi'. simplify_eq.
  rewrite bool_decide_eq_false_2 by lia. by destruct tomb'.
Qed.

(** Responses that are older than one of them or the same do not matter. *)
Lemma pick_unrivalled rs i v ts tomb :
  rs !! i = Some (Some (v, ts, tomb)) → (0 ≤ ts)%Z →
  (∀ j v' ts' tomb', rs !! j = Some (Some (v', ts', tomb')) →
    (ts' < ts)%Z ∨ (v', ts', tomb') = (v, ts, tomb)) →
  pick rs = if tomb : bool then VNone else v.
Proof.
  intros Hi Hts Hold. unfold pick.
  destruct (best_fold rs) as [[_ Hneg]|[Hpos [j [Hj Hmax]]]].
  { apply Hneg in Hi. lia. }
  destruct (foldl _ _ _) as [[v' ts'] tomb']. simpl in *.
  pose proof (Hmax _ _ _ _ Hi) as [Hle _].
  destruct (Hold _ _ _ _ Hj) as [?|[= -> -> ->]]; [lia|].
  rewrite bool_decide_eq_false_2 by lia. by destruct tomb.
Qed.

Lemma pick_none rs :
  (∀ j v ts tomb, rs !! j = Some (Some (v, ts, tomb)) → (ts < 0)%Z) → pick rs = VNone.
Proof.
  intros Hneg. unfold pick.
  destruct (best_fold rs) as [[-> _]|[Hpos [i [Hi _]]]]; [done|].
  apply Hneg in Hi. lia.
Qed.

(** ** Properties *)

(** Last-write-wins returns the newest response.  [read_resolve] never
    raises, asks every handle once and in order, treats a handle that fails as
    silent, and returns the value of the response with the highest timestamp (the
    first in ring order among equals), [None] if that response is a tombstone or
    if no response carries a timestamp. *)
Theorem lww_read_newest {S} key (handles : list (ReplicaHandle S)) s :
  ∃ rs s', run_all (fetch key <$> handles) s = (rs, s') ∧ length rs = length handles ∧
  ∃ x, lww_read_resolve key handles s = (Ok x, s') ∧
    let responses := outcome <$> rs in
    (∀ i v ts tomb, newest_at responses i v ts tomb → (0 ≤ ts)%Z → x = if tomb then VNone else v) ∧
    ((∀ j v ts tomb, responses !! j = Some (Some (v, ts, tomb)) → (ts < 0)%Z) → x = VNone) ∧
    (x ≠ VNone → ∃ i ts, (0 ≤ ts)%Z ∧ newest_at responses i x ts false).
Proof.
  pose proof (lww_read_resolve_run key handles s) as Hrun.
  destruct (run_all (fetch key <$> handles) s) as [rs s'] eqn:Hall. simpl in Hrun.
  exists rs, s'. split; [done|]. split.
  { clear Hrun. revert s rs Hall. induction handles as [|h hs IH]; intros s rs Hall.
    - by injection Hall as <- <-.
    - csimpl in Hall. destruct (fetch key h s) as [r s1].
      destruct (run_all _ s1) as [rs1 s2] eqn:Hr. injection Hall as <- <-.
      simpl. f_equal. by eapply IH. }
  eexists. split; [exact Hrun|]. split_and!.
  - intros. by eapply pick_newest.
  - apply pick_none.
  - intros Hne. unfold pick in *.
    destruct (best_fold (outcome <$> rs)) as [[Hb _]|[Hpos [i Hi]]].
    { by rewrite Hb in Hne. }
    destruct (foldl _ _ _) as [[v ts] tomb]. simpl in *.
    rewrite bool_decide_eq_false_2 in Hne |- * by lia. destruct tomb; [done|].
    by exists i, ts.
Qed.

(** The asynchronous last-write-wins resolver returns what the sequential one
    returns, and leaves the same state, for every order in which the responses
    arrive, when the handles act on separate parts of the state. *)
Theorem async_lww_equiv {S} (Inv : S → Prop) order key (handles : list (ReplicaHandle S)) s :
  order ≡ₚ seq 0 (length handles) → Inv s →
  (∀ i h, handles !! i = Some h → preserves Inv (fetch key h)) →
  (∀ i j h1 h2, i ≠ j → handles !! i = Some h1 → handles !! j = Some h2 →
     commute Inv (fetch key h1) (fetch key h2)) →
  async_lww_read_resolve order key handles s = lww_read_resolve key handles s.
Proof.
  intros Hord Hs Hpres Hcomm. rewrite lww_read_resolve_run.
  unfold async_lww_read_resolve. unfold_M.
  rewrite (gather_any_schedule Inv); [done| |done| |].
  - unfold schedule_of. by rewrite length_fmap.
  - intros i t (h & -> & Hh)%list_lookup_fmap_Some. by eapply Hpres.
  - intros i j t1 t2 Hne (h1 & -> & Hh1)%list_lookup_fmap_Some (h2 & -> & Hh2)%list_lookup_fmap_Some.
    by eapply Hcomm.
Qed.

(** First-hit-wins returns the first live value in ring order: the handles
    before the hit failed, had no entry or a tombstone, and the handles after it
    are not asked; it returns [None] when no handle has a live value.  The
    asynchronous version does the same when no other task intervenes. *)
Theorem fhw_first_hit {S} key (handles : list (ReplicaHandle S)) s :
  (∃ pre h post v ts s1 s2,
     handles = pre ++ h :: post ∧
     run_all (fetch key <$> pre) s = ((run_all (fetch key <$> pre) s).1, s1) ∧
     Forall (λ r, match outcome r with Some (_, _, false) => False | _ => True end)
       (run_all (fetch key <$> pre) s).1 ∧
     h_get_versioned h key s1 = (Ok (Some (v, ts, false)), s2) ∧
     fhw_read_resolve key handles s = (Ok v, s2) ∧
     async_fhw_read_resolve [] key handles s = (Ok v, s2)) ∨
  (∃ s', run_all (fetch key <$> handles) s = ((run_all (fetch key <$> handles) s).1, s') ∧
     Forall (λ r, match outcome r with Some (_, _, false) => False | _ => True end)
       (run_all (fetch key <$> handles) s).1 ∧
     fhw_read_resolve key handles s = (Ok VNone, s') ∧
     async_fhw_read_resolve [] key handles s = (Ok VNone, s')).
Proof.
  revert s. induction handles as [|h handles IH]; intros s.
  { right. exists s. by repeat constructor. }
  destruct (h_get_versioned h key s) as [r s0] eqn:Hh.
  destruct (match r with Ok (Some (_, _, false)) => true | _ => false end) eqn:Hhit.
  - left. destruct r as [[[[v ts] []]|]|e]; try done.
    exists [], h, handles, v, ts, s, s0. simpl. rewrite Hh. by split_and!.
  - assert (∃ o, fetch key h s = (Ok o, s0) ∧
      match o with Some (_, _, false) => False | _ => True end) as (o & Hf & Ho).
    { unfold fetch. unfold_M. rewrite Hh.
      destruct r as [[[[? ?] []]|]|?]; try done; by eexists. }
    assert (∀ x, fhw_read_resolve key handles s0 = x → fhw_read_resolve key (h :: handles) s = x)
      as Hsync.
    { intros x <-. simpl. rewrite Hh. by destruct r as [[[[? ?] []]|]|?]. }
    assert (∀ x, async_fhw_read_resolve [] key handles s0 = x →
      async_fhw_read_resolve [] key (h :: handles) s = x) as Hasync.
    { intros x <-. simpl. rewrite Hh. by destruct r as [[[[? ?] []]|]|?]. }
    destruct (IH s0) as [(pre & h' & post & v & ts & s1 & s2 & -> & Hr & Hall & Hg & H1 & H2)
      |(s' & Hr & Hall & H1 & H2)].
    + left. exists (h :: pre), h', post, v, ts, s1, s2.
      split_and!; [done| | |done|by apply Hsync|by apply Hasync];
        csimpl; rewrite Hf; destruct (run_all (fetch key <$> pre) s0); simpl in *.
      * by simplify_eq.
      * by constructor.
    + right. exists s'. split_and!; [| |by apply Hsync|by apply Hasync];
        csimpl; rewrite Hf; destruct (run_all (fetch key <$> handles) s0); simpl in *.
      * by simplify_eq.
      * by constructor.
Qed.

(** ** Two replicas side by side *)
From S2P Require Import PyDict LwwStore.

Definition pair_handle (left_side : bool) : ReplicaHandle (lww_store * lww_store) :=
  let on {A} (m : M lww_store A) : M (lww_store * lww_store) A :=
    if left_side then zoom fst (λ d s, (d, s.2)) m else zoom snd (λ d s, (s.1, d)) m in
  mkHandle (λ k, on (lww_get_versioned sample_clock k))
    (λ k v ttl ts, on (lww_set sample_clock k v ttl (Some ts)))
    (λ k ts, on (lww_delete sample_clock k (Some ts))).

Lemma async_lww_equiv_witness :
  let s := (sample_store, [("a", mkEntry (Val (VInt 8)) None 6%Z)]) in
  let handles := [pair_handle true; pair_handle false] in
  async_lww_read_resolve [1; 0] "a" handles s = lww_read_resolve "a" handles s.
Proof.
  apply (async_lww_equiv (λ _, True)).
  - apply Permutation_swap.
  - done.
  - done.
  - intros i j h1 h2 Hne Hi Hj.
    assert (commute (λ _, True) (fetch "a" (pair_handle true)) (fetch "a" (pair_handle false)))
      as Hc.
    { intros [d1 d2] _. unfold fetch, pair_handle. unfold_M. simpl.
      rewrite !lww_get_versioned_run. done. }
    destruct i as [|[|i]], j as [|[|j]]; simpl in Hi, Hj; simplify_eq; try done.
    intros s Hs. destruct (Hc s Hs) as (? & ? & ?). by split_and!.
Defined.
