(* ===== verification/Discovery.v ===== *)
(** * Discovery ([dlstorage/discovery])

    The four ways a node learns of its peers.  Name resolution is a parameter. *)
From S2P Require Import Prelude PyBase Types.
From Stdlib Require Import Ascii.

(** ** Name resolution *)

(** [socket.getaddrinfo(host, port, proto=TCP)], each answer by its address string;
    whether [dnspython] is installed; and [dns.resolver.resolve(name, "SRV")],
    each answer by its target and port.  Lookups may answer differently each
    time, so a call of [get_peers] takes the answers of its moment. *)
Class Resolver := {
  getaddrinfo : string → Z → result (list string);
  dns_installed : bool;
  dns_resolve : string → result (list (string * Z));
}.

(** ** The backends *)

(** [StaticDiscovery.__init__]. *)
Fixpoint static_init (peers : list string) : result (list NodeInfo) :=
  match peers with
  | [] => mret []
  | p :: ps => n ← from_address p; ns ← static_init ps; mret (n :: ns)
  end.

(** [StaticDiscovery.get_peers]: a copy of the list. *)
Definition static_get_peers (peers : list NodeInfo) : list NodeInfo := peers.

Section resolving.
Context `{Resolver}.

(** The loop of [ARecordDiscovery.get_peers]: [(seen, peers)]. *)
Definition a_record_step (prt : Z) (acc : list string * list NodeInfo) (ip : string) :=
  if decide (ip ∈ acc.1) then acc else (ip :: acc.1, acc.2 ++ [mkNodeInfo ip prt]).

Definition a_record_get_peers (hostname : string) (prt : Z) : result (list NodeInfo) :=
  match getaddrinfo hostname prt with
  | Raise GaiError => Raise RuntimeError
  | Raise e => Raise e
  | Ok results => Ok (foldl (a_record_step prt) ([], []) results).2
  end.

Definition dns_get_peers (service_name : string) : result (list NodeInfo) :=
  if dns_installed then
    match dns_resolve service_name with
    | Raise e => Raise e
    | Ok answers =>
        Ok ((λ r : string * Z, mkNodeInfo (Str.rstrip "."%char r.1) r.2) <$> answers)
    end
  else Raise ImportError.
End resolving.

(** [GossipDiscovery]: the seed and the set of peers. *)
Record gossip_discovery := mkGossipDiscovery { gd_seed : NodeInfo; gd_peers : list NodeInfo }.

Definition gossip_init (seed : string) : result gossip_discovery :=
  n ← from_address seed; mret (mkGossipDiscovery n []).

Definition gossip_get_peers (d : gossip_discovery) : list NodeInfo := gd_peers d ++ [gd_seed d].

Definition add_peer (peer : NodeInfo) : M gossip_discovery bool := λ d,
  if decide (peer ∈ gd_peers d) then (Ok false, d)
  else (Ok true, mkGossipDiscovery (gd_seed d) (gd_peers d ++ [peer])).

Definition remove_peer (peer : NodeInfo) : M gossip_discovery unit := λ d,
  (Ok tt, mkGossipDiscovery (gd_seed d) (filter (λ n, n ≠ peer) (gd_peers d))).

(** ** A node's discovery object *)
Inductive discovery :=
  | StaticDiscovery (peers : list NodeInfo)
  | ARecordDiscovery (hostname : string) (prt : Z)
  | DNSDiscovery (service_name : string)
  | GossipDiscovery (d : gossip_discovery).

Definition get_peers `{Resolver} (d : discovery) : result (list NodeInfo) :=
  match d with
  | StaticDiscovery peers => Ok (static_get_peers peers)
  | ARecordDiscovery hostname prt => a_record_get_peers hostname prt
  | DNSDiscovery service_name => dns_get_peers service_name
  | GossipDiscovery d => Ok (gossip_get_peers d)
  end.

(** [__init__] of the two backends that resolve names. *)
Definition a_record_init (hostname : string) (prt : Z) : discovery := ARecordDiscovery hostname prt.
Definition dns_init (service_name : string) : discovery := DNSDiscovery service_name.

(** [if isinstance(discovery, GossipDiscovery): discovery.add_peer(peer)]. *)
Definition discovery_add (peer : NodeInfo) (d : discovery) : discovery :=
  match d with GossipDiscovery d => GossipDiscovery (add_peer peer d).2 | d => d end.

(** [if isinstance(discovery, GossipDiscovery): discovery.remove_peer(peer)]. *)
Definition discovery_remove (peer : NodeInfo) (d : discovery) : discovery :=
  match d with GossipDiscovery d => GossipDiscovery (remove_peer peer d).2 | d => d end.

(** ** Lemmas *)

Definition discovery_wf (d : discovery) : Prop :=
  match d with GossipDiscovery d => NoDup (gd_peers d) | _ => True end.

Lemma discovery_add_wf peer d : discovery_wf d → discovery_wf (discovery_add peer d).
Proof.
  destruct d as [| | |d]; try done. simpl. unfold add_peer. case_decide; [done|]. simpl.
  intros. apply NoDup_app. split_and!; [done|set_solver|apply NoDup_singleton].
Qed.

Lemma discovery_remove_wf peer d : discovery_wf d → discovery_wf (discovery_remove peer d).
Proof. destruct d as [| | |d]; try done. simpl. apply NoDup_filter. Qed.

#[export] Hint Resolve discovery_add_wf discovery_remove_wf : dls.

Lemma add_peer_peers peer d n :
  n ∈ gd_peers (add_peer peer d).2 ↔ n = peer ∨ n ∈ gd_peers d.
Proof.
  unfold add_peer. case_decide; simpl; [naive_solver|].
  rewrite elem_of_app, list_elem_of_singleton. tauto.
Qed.

Lemma remove_peer_peers peer d n :
  n ∈ gd_peers (remove_peer peer d).2 ↔ n ≠ peer ∧ n ∈ gd_peers d.
Proof. unfold remove_peer. simpl. by rewrite list_elem_of_filter. Qed.

Lemma a_record_fold prt ips seen peers :
  (∀ ip, ip ∈ seen ↔ mkNodeInfo ip prt ∈ peers) → NoDup peers →
  let acc := foldl (a_record_step prt) (seen, peers) ips in
  NoDup acc.2 ∧ (∃ new, acc.2 = peers ++ new ∧
    sublist new ((λ ip, mkNodeInfo ip prt) <$> ips)) ∧
  ∀ n, n ∈ acc.2 ↔ n ∈ peers ∨ ∃ ip, ip ∈ ips ∧ n = mkNodeInfo ip prt.
Proof.
  revert seen peers. induction ips as [|ip ips IH]; intros seen peers Hseen Hnd; simpl.
  { split_and!; [done| |set_solver]. exists []. by rewrite app_nil_r. }
  unfold a_record_step at 2 4 6. simpl. case_decide as Hin.
  - destruct (IH seen peers Hseen Hnd) as (H1 & (new & H2 & H3) & H4). split_and!; [done| |].
    + exists new. split; [done|]. by apply sublist_cons.
    + intros n. rewrite H4. apply Hseen in Hin. set_solver.
  - destruct (IH (ip :: seen) (peers ++ [mkNodeInfo ip prt])) as (H1 & (new & H2 & H3) & H4).
    + intros ip'. rewrite elem_of_cons, elem_of_app, list_elem_of_singleton, Hseen.
      split; [intros [->|?]; auto|intros [?|[= ->]]; auto].
    + apply NoDup_app. split_and!; [done| |apply NoDup_singleton].
      intros n Hn ->%list_elem_of_singleton. by apply Hseen in Hn.
    + split_and!; [done| |].
      * exists (mkNodeInfo ip prt :: new). rewrite H2, <- app_assoc. split; [done|].
        by apply sublist_skip.
      * intros n. rewrite H4. set_solver.
Qed.

(** ** Properties *)

(** Address-record discovery yields a peer per distinct address, in the order in
    which the addresses first appear in the answer, all with the configured port;
    a failed resolution raises [RuntimeError], other errors are passed on. *)
Theorem a_record_distinct `{Resolver} hostname prt :
  match getaddrinfo hostname prt with
  | Ok ips => ∃ peers, a_record_get_peers hostname prt = Ok peers ∧ NoDup peers ∧
      sublist peers ((λ ip, mkNodeInfo ip prt) <$> ips) ∧
      ∀ n, n ∈ peers ↔ port n = prt ∧ host n ∈ ips
  | Raise e => a_record_get_peers hostname prt =
      Raise (if decide (e = GaiError) then RuntimeError else e)
  end.
Proof.
  unfold a_record_get_peers. destruct (getaddrinfo hostname prt) as [ips|e]; [|by destruct e].
  destruct (a_record_fold prt ips [] []) as (H1 & (new & H2 & H3) & H4);
    [set_solver|constructor|].
  eexists. split; [done|]. split_and!; [done|by rewrite H2|].
  intros n. rewrite H4. split.
  - intros [?|(ip & ? & ->)]; [set_solver|done].
  - intros [<- ?]. right. exists (host n). by destruct n.
Qed.

(** The calls on a gossip discovery. *)
Inductive gossip_call := AddPeer (n : NodeInfo) | RemovePeer (n : NodeInfo).

Definition gossip_apply (d : gossip_discovery) (c : gossip_call) : gossip_discovery :=
  match c with AddPeer n => (add_peer n d).2 | RemovePeer n => (remove_peer n d).2 end.

(** The last call about a node decides whether it is known. *)
Fixpoint last_call (n : NodeInfo) (known : bool) (cs : list gossip_call) : bool :=
  match cs with
  | [] => known
  | AddPeer m :: cs => last_call n (if decide (m = n) then true else known) cs
  | RemovePeer m :: cs => last_call n (if decide (m = n) then false else known) cs
  end.

(** The gossip discovery is a set with a permanent seed: after any calls, the
    seed is still listed, another node is listed if and only if the last call
    about it added it, the nodes learnt are listed once, and [add_peer] reports
    whether the peer was new.  Removing the seed has no effect on the listing. *)
Theorem gossip_discovery_set seed cs n :
  let d := foldl gossip_apply (mkGossipDiscovery seed []) cs in
  seed ∈ gossip_get_peers d ∧
  (n ≠ seed → n ∈ gossip_get_peers d ↔ last_call n false cs = true) ∧
  NoDup (gd_peers d) ∧
  ((add_peer n d).1 = Ok true ↔ n ∉ gd_peers d).
Proof.
  assert (∀ d, gd_seed (foldl gossip_apply d cs) = gd_seed d ∧
    (NoDup (gd_peers d) → NoDup (gd_peers (foldl gossip_apply d cs))) ∧
    (n ∈ gd_peers (foldl gossip_apply d cs) ↔
      last_call n (bool_decide (n ∈ gd_peers d)) cs = true)) as Hgen.
  { induction cs as [|c cs IH]; intros d; simpl; [by rewrite bool_decide_eq_true|].
    destruct (IH (gossip_apply d c)) as (H1 & H2 & H3). destruct c as [m|m]; simpl in *.
    - split_and!.
      { rewrite H1. unfold add_peer. by destruct (decide _). }
      + intros Hnd. apply H2. apply (discovery_add_wf m (GossipDiscovery d) Hnd).
      + rewrite H3. rewrite (bool_decide_ext _ _ (add_peer_peers m d n)).
        destruct (decide (m = n)) as [<-|]; [by rewrite bool_decide_eq_true_2 by auto|].
        by rewrite (bool_decide_ext (n = m ∨ n ∈ gd_peers d) (n ∈ gd_peers d)) by naive_solver.
    - split_and!; [done| |].
      + intros Hnd. apply H2. apply (discovery_remove_wf m (GossipDiscovery d) Hnd).
      + rewrite H3. rewrite (bool_decide_ext _ _ (remove_peer_peers m d n)).
        destruct (decide (m = n)) as [<-|]; [by rewrite bool_decide_eq_false_2 by naive_solver|].
        by rewrite (bool_decide_ext (n ≠ m ∧ n ∈ gd_peers d) (n ∈ gd_peers d)) by naive_solver. }
  intros d. destruct (Hgen (mkGossipDiscovery seed [])) as (H1 & H2 & H3).
  unfold gossip_get_peers. fold d in H1, H2, H3. simpl in H1, H2, H3. rewrite H1.
  split_and!; [set_solver| |apply H2; constructor|unfold add_peer; destruct (decide _); by split].
  intros Hne. rewrite elem_of_app, list_elem_of_singleton, H3. naive_solver.
Qed.

(** Static discovery takes exactly the addresses given: rendered nodes come back
    as they were, in order, and one malformed address makes the construction fail
    with [ValueError]. *)
Theorem static_discovery_addresses nodes pre bad post :
  static_init (address <$> nodes) = Ok nodes ∧
  (from_address bad = Raise ValueError →
   static_init ((address <$> pre) ++ bad :: post) = Raise ValueError).
Proof.
  split.
  - induction nodes as [|n nodes IH]; [done|]. csimpl. by rewrite from_address_address, IH.
  - intros Hbad. induction pre as [|n pre IH]; csimpl; [by rewrite Hbad|].
    by rewrite from_address_address, IH.
Qed.

(** A host that resolves nothing. *)
Definition no_resolver : Resolver := {|
  getaddrinfo _ _ := Raise GaiError; dns_installed := false; dns_resolve _ := Raise ImportError
|}.

Lemma gossip_discovery_set_witness :
  let seed := mkNodeInfo "10.0.0.1" 7000 in
  let n := mkNodeInfo "10.0.0.2" 7000 in
  let d := foldl gossip_apply (mkGossipDiscovery seed [])
    [AddPeer n; RemovePeer seed; AddPeer seed; RemovePeer n; AddPeer n] in
  seed ∈ gossip_get_peers d ∧
  (n ≠ seed → n ∈ gossip_get_peers d ↔
    last_call n false [AddPeer n; RemovePeer seed; AddPeer seed; RemovePeer n; AddPeer n] = true) ∧
  NoDup (gd_peers d) ∧ ((add_peer n d).1 = Ok true ↔ n ∉ gd_peers d).
Proof.
  apply (gossip_discovery_set (mkNodeInfo "10.0.0.1" 7000)
    [AddPeer (mkNodeInfo "10.0.0.2" 7000); RemovePeer (mkNodeInfo "10.0.0.1" 7000);
     AddPeer (mkNodeInfo "10.0.0.1" 7000); RemovePeer (mkNodeInfo "10.0.0.2" 7000);
     AddPeer (mkNodeInfo "10.0.0.2" 7000)] (mkNodeInfo "10.0.0.2" 7000)).
Defined.

Lemma static_discovery_addresses_witness :
  let nodes := [mkNodeInfo "10.0.0.1" 7000; mkNodeInfo "::1" 7001] in
  static_init (address <$> nodes) = Ok nodes ∧
  (from_address "10.0.0.3" = Raise ValueError →
   static_init ((address <$> nodes) ++ "10.0.0.3"%string :: []) = Raise ValueError).
Proof.
  apply (static_discovery_addresses [mkNodeInfo "10.0.0.1" 7000; mkNodeInfo "::1" 7001]
    [mkNodeInfo "10.0.0.1" 7000; mkNodeInfo "::1" 7001] "10.0.0.3" []).
Defined.
