(* ===== verification/Gossip.v ===== *)
(** * Gossip ([dlstorage/peer_comm/gossip.py])

    [Gossip] and [AsyncGossip] over any ring, any discovery and any pool.  The
    ring, the pool and the discovery are objects the gossip shares with its node,
    so they are the state; the node's own address is fixed. *)
From S2P Require Import Prelude Async PyBase Types Ring Discovery PoolOps.

(** [self._ring], [self._pool], [self._discovery]. *)
Record gossip_state (R P : Type) := mkGossip { g_ring : R; g_pool : P; g_disc : discovery }.
Arguments mkGossip {R P} _ _ _.
Arguments g_ring {R P} _.
Arguments g_pool {R P} _.
Arguments g_disc {R P} _.

Section gossip.
Context {R P : Type} `{Ring R} `{PoolOps P} (info : NodeInfo).
Abbreviation G := (gossip_state R P).

Definition on_pool {A} (m : M P A) : M G A :=
  zoom g_pool (λ p g, mkGossip (g_ring g) p (g_disc g)) m.

Definition set_members (ring : R) (disc : discovery) (g : G) : G := mkGossip ring (g_pool g) disc.

(** [ring.add(peer)] and, on a gossip discovery, [discovery.add_peer(peer)]. *)
Definition admit_peer (peer : NodeInfo) : M G unit :=
  modify (λ g, set_members (r_add peer (g_ring g)) (discovery_add peer (g_disc g)) g).

(** Removing a peer from the ring, the discovery and the pool. *)
Definition drop_peer (peer : NodeInfo) : M G unit :=
  modify (λ g, set_members (r_remove peer (g_ring g)) (discovery_remove peer (g_disc g)) g) ;;
  on_pool (po_close_peer (host peer) (port peer)).

(** The members of the ring other than the node itself. *)
Definition others (g : G) : list NodeInfo := filter (λ n, n ≠ info) (r_nodes (g_ring g)).

Definition handle_message (msg : Message) : M G Message :=
  match m_type msg with
  | PING => mret (mkMessage PONG (Some (node_fields (node_to_dict info))))
  | PEER_LIST =>
      g ← get_state;
      mret (mkMessage PEER_LIST (Some (peers_fields (node_to_dict <$> others g))))
  | PEER_ANNOUNCE =>
      raw ← lift_result (payload_item p_peer msg);
      peer ← lift_result (node_from_dict raw);
      g ← get_state;
      (if decide (peer ∈ r_nodes (g_ring g)) then mret tt else admit_peer peer) ;;
      mret (mkMessage OK (Some no_fields))
  | PEER_LEAVE =>
      raw ← lift_result (payload_item p_peer msg);
      peer ← lift_result (node_from_dict raw);
      drop_peer peer ;;
      mret (mkMessage OK (Some no_fields))
  | _ =>
      mret (mkMessage ERROR
        (Some (error_fields ("unknown message type: " +:+ mt_format (m_type msg)))))
  end.

(** [dispatch] of [Gossip] and of [AsyncGossip]. *)
Definition gossip_dispatch : Message → M G Message := handle_message.
Definition gossip_dispatch_async : Message → M G Message := handle_message.

(** [self._pool.execute(peer.host, peer.port, msg)]. *)
Definition send_to (msg : Message) (peer : NodeInfo) : M G (option Message) :=
  on_pool (po_execute (host peer) (port peer) msg).

(** [_broadcast], [send] being how a request goes out. *)
Definition broadcast_by (send : Message → NodeInfo → M G (option Message)) (msg : Message) : M G unit :=
  g ← get_state;
  for_each (r_nodes (g_ring g)) (λ peer,
    if decide (peer = info) then mret tt else send msg peer ;; mret tt).

(** The asynchronous one: [asyncio.gather(..., return_exceptions=True)] in the given order
    of effects. *)
Definition broadcast_async_by (send : Message → NodeInfo → M G (option Message)) (order : list nat)
    (msg : Message) : M G unit :=
  g ← get_state;
  gather order (send msg <$> others g) ;;
  mret tt.

Definition _broadcast : Message → M G unit := broadcast_by send_to.
Definition _broadcast_async : list nat → Message → M G unit := broadcast_async_by send_to.

Definition join_message : Message := mkMessage PEER_ANNOUNCE (Some (peer_fields (node_to_dict info))).
Definition leave_message : Message := mkMessage PEER_LEAVE (Some (peer_fields (node_to_dict info))).
Definition list_request : Message := mkMessage PEER_LIST (Some (requester_fields (node_to_dict info))).

Definition announce_join : M G unit := _broadcast join_message.
Definition announce_leave : M G unit := _broadcast leave_message.
Definition announce_join_async (order : list nat) : M G unit := _broadcast_async order join_message.
Definition announce_leave_async (order : list nat) : M G unit := _broadcast_async order leave_message.

Definition _evict (peer : NodeInfo) : M G unit := drop_peer peer.
Definition _evict_async (peer : NodeInfo) : M G unit := drop_peer peer.

(** [__init__] of both classes: the objects are those of the node. *)
Definition gossip_new (ring : R) (pool : P) (disc : discovery) : G := mkGossip ring pool disc.
Definition gossip_new_async (ring : R) (pool : P) (disc : discovery) : G := mkGossip ring pool disc.

(** One entry of a peer list; [known] was read before the loop. *)
Definition learn (known : list NodeInfo) (raw : node_dict) : M G unit :=
  new_peer ← lift_result (node_from_dict raw);
  if decide (new_peer ≠ info ∧ new_peer ∉ known) then admit_peer new_peer else mret tt.

(** What [_gossip_with] makes of the response. *)
Definition take_in (peer : NodeInfo) (resp : option Message) : M G unit :=
  match resp with
  | None => _evict peer
  | Some resp =>
      if decide (m_type resp = PEER_LIST) then
        g ← get_state;
        let known := r_nodes (g_ring g) in
        peers ← lift_result (payload_get p_peers resp);
        for_each (default [] peers) (learn known)
      else mret tt
  end.

(** [_gossip_with], [send] being how a request goes out. *)
Definition gossip_with_by (send : Message → NodeInfo → M G (option Message)) (peer : NodeInfo) : M G unit :=
  try_except (resp ← send list_request peer; take_in peer resp) (λ _, _evict peer).

Definition _gossip_with : NodeInfo → M G unit := gossip_with_by send_to.

(** [AsyncGossip._gossip_with]: only the request is awaited, what follows runs
    without interruption. *)
Definition _gossip_with_async (peer : NodeInfo) : M G unit := _gossip_with peer.

(** The body of [gossip_loop], [choose] being [random.sample(peers, min(3, len))] and [talk]
    what is done with a peer. *)
Definition gossip_round_by `{Resolver} (talk : NodeInfo → M G unit) (choose : list NodeInfo → list NodeInfo) : M G unit :=
  try_except (
    g ← get_state;
    listed ← lift_result (get_peers (g_disc g));
    let peers := filter (λ n, n ≠ info) listed in
    match peers with
    | [] => mret tt
    | _ => for_each (choose peers) talk
    end) (λ _, mret tt).

Definition gossip_round_async_by `{Resolver} (talk : NodeInfo → M G unit) (order : list nat)
    (choose : list NodeInfo → list NodeInfo) : M G unit :=
  try_except (
    g ← get_state;
    listed ← lift_result (get_peers (g_disc g));
    let peers := filter (λ n, n ≠ info) listed in
    match peers with
    | [] => mret tt
    | _ => gather order (talk <$> choose peers) ;; mret tt
    end) (λ _, mret tt).

Definition gossip_round `{Resolver} : (list NodeInfo → list NodeInfo) → M G unit := gossip_round_by _gossip_with.
Definition gossip_round_async `{Resolver} : list nat → (list NodeInfo → list NodeInfo) → M G unit :=
  gossip_round_async_by _gossip_with_async.
End gossip.
