(* ===== verification/GossipSpec.v ===== *)
(** * What gossip guarantees

    The membership a node ends up with after handling a message, exchanging peer
    lists or announcing itself, over any ring, any discovery and any pool that
    keep their promises. *)
From S2P Require Import Prelude Async PyBase Types Ring Discovery PoolOps Gossip.

Section spec.
Context {R P : Type} `{RingLaws R} `{PoolOpsLaws P} (info : NodeInfo).
Abbreviation G := (gossip_state R P).
Implicit Types (g : G) (peer n : NodeInfo).

Definition members g : list NodeInfo := r_nodes (g_ring g).

Record gossip_wf g : Prop := {
  gw_ring : r_wf (g_ring g);
  gw_disc : discovery_wf (g_disc g);
  gw_pool : po_wf (g_pool g);
}.

(** Membership and discovery after a step, the state being well-formed. *)
Definition membership g' (mem : NodeInfo → Prop) (disc : discovery) : Prop :=
  gossip_wf g' ∧ (∀ n, n ∈ members g' ↔ mem n) ∧ g_disc g' = disc.

Lemma others_elem g n : n ∈ others info g ↔ n ≠ info ∧ n ∈ members g.
Proof. unfold others. by rewrite list_elem_of_filter. Qed.

Lemma others_nodup g : gossip_wf g → NoDup (others info g).
Proof. intros []. apply NoDup_filter. by apply r_nodes_nodup. Qed.

Lemma admit_peer_run peer g :
  gossip_wf g → ∃ g', admit_peer peer g = (Ok tt, g') ∧ g_pool g' = g_pool g ∧
    membership g' (λ n, n = peer ∨ n ∈ members g) (discovery_add peer (g_disc g)).
Proof.
  intros []. eexists. split; [done|]. split; [done|]. split_and!; [|intros n; apply r_add_nodes|done].
  split; simpl; auto using r_add_wf, discovery_add_wf.
Qed.

Lemma drop_peer_run peer g :
  gossip_wf g → ∃ g', drop_peer peer g = (Ok tt, g') ∧
    membership g' (λ n, n ≠ peer ∧ n ∈ members g) (discovery_remove peer (g_disc g)).
Proof.
  intros []. unfold drop_peer, on_pool. unfold_M. simpl.
  destruct (po_close_peer_returns (host peer) (port peer) (g_pool g)) as (p' & -> & Hp'); [done|].
  eexists. split; [done|]. split_and!; [|intros n; apply r_remove_nodes|done].
  split; simpl; auto using r_remove_wf, discovery_remove_wf.
Qed.

Lemma send_to_run msg peer g :
  gossip_wf g → ∃ o g', send_to msg peer g = (Ok o, g') ∧
    (∃ p', po_execute (host peer) (port peer) msg (g_pool g) = (Ok o, p') ∧
      g' = mkGossip (g_ring g) p' (g_disc g)) ∧
    membership g' (λ n, n ∈ members g) (g_disc g).
Proof.
  intros []. unfold send_to, on_pool. unfold_M. simpl.
  destruct (po_execute_returns (host peer) (port peer) msg (g_pool g)) as (o & p' & -> & Hp'); [done|].
  eexists _, _. split; [done|]. split; [by exists p'|]. by repeat split.
Qed.

(** ** Learning from a peer list *)

(** The nodes of a list that are new. *)
Definition news (known : list NodeInfo) (ns : list NodeInfo) : list NodeInfo :=
  filter (λ n, n ≠ info ∧ n ∉ known) ns.

Lemma learn_all_run known ns g :
  gossip_wf g → ∃ g', for_each (node_to_dict <$> ns) (learn info known) g = (Ok tt, g') ∧
    membership g' (λ n, n ∈ members g ∨ n ∈ news known ns)
      (foldl (λ d n, discovery_add n d) (g_disc g) (news known ns)).
Proof.
  revert g. induction ns as [|m ns IH]; intros g Hg.
  { exists g. split; [done|]. split_and!; [done|set_solver|done]. }
  csimpl. unfold_M. unfold learn at 1. unfold_M. rewrite node_from_to_dict.
  unfold news. rewrite filter_cons. fold (news known ns).
  destruct (decide (m ≠ info ∧ m ∉ known)) as [Hm|Hm].
  - destruct (admit_peer_run m g Hg) as (g1 & -> & _ & Hg1 & Hmem & Hd).
    destruct (IH g1 Hg1) as (g2 & -> & Hg2 & Hmem2 & Hd2). exists g2. split; [done|].
    split_and!; [done| |by rewrite Hd2, Hd].
    intros n. rewrite Hmem2, Hmem. set_solver.
  - destruct (IH g Hg) as (g2 & -> & Hg2 & Hmem2 & Hd2). exists g2. by split_and!.
Qed.

(** Whatever the list holds, learning keeps the state well-formed, never adds the
    node itself and forgets nobody. *)
Lemma learn_any_run known raws g :
  gossip_wf g → ∃ r g', for_each raws (learn info known) g = (r, g') ∧ gossip_wf g' ∧
    (∀ n, n ∈ members g → n ∈ members g') ∧ (info ∈ members g' → info ∈ members g).
Proof.
  revert g. induction raws as [|raw raws IH]; intros g Hg; [by eexists _, _|].
  simpl. unfold_M. unfold learn at 1. unfold_M.
  destruct (node_from_dict raw) as [m|e]; [|by eexists _, _].
  destruct (decide (m ≠ info ∧ m ∉ known)) as [Hm|Hm].
  - destruct (admit_peer_run m g Hg) as (g1 & -> & _ & Hg1 & Hmem & Hd).
    destruct (IH g1 Hg1) as (r & g2 & -> & Hg2 & Hmem2 & Hi). exists r, g2.
    split_and!; [done..| |]; [intros n Hn; apply Hmem2, Hmem; by right|].
    intros Hin. apply Hi, Hmem in Hin as [->|?]; [by destruct Hm|done].
  - destruct (IH g Hg) as (r & g2 & -> & Hg2 & Hmem2 & Hi). by exists r, g2.
Qed.

(** ** Properties *)

(** Handling a gossip message.  A ping is answered with the node; a peer list
    request with every other member, once, and never the node itself; an announced
    peer is a member afterwards, and a leaving one is not, in the ring and in the
    discovery alike; every answer leaves the state well-formed; other messages are
    answered with an error, and a message without its peer raises, both without
    any effect. *)
Theorem gossip_handle_spec peer msg g :
  gossip_wf g →
  handle_message info (mkMessage PING (m_payload msg)) g =
    (Ok (mkMessage PONG (Some (node_fields (node_to_dict info)))), g) ∧
  (∃ ns, handle_message info (mkMessage PEER_LIST (m_payload msg)) g =
      (Ok (mkMessage PEER_LIST (Some (peers_fields (node_to_dict <$> ns)))), g) ∧
    NoDup ns ∧ ∀ n, n ∈ ns ↔ n ≠ info ∧ n ∈ members g) ∧
  (∃ g', handle_message info (mkMessage PEER_ANNOUNCE (Some (peer_fields (node_to_dict peer)))) g =
      (Ok (mkMessage OK (Some no_fields)), g') ∧
    membership g' (λ n, n = peer ∨ n ∈ members g)
      (if decide (peer ∈ members g) then g_disc g else discovery_add peer (g_disc g))) ∧
  (∃ g', handle_message info (mkMessage PEER_LEAVE (Some (peer_fields (node_to_dict peer)))) g =
      (Ok (mkMessage OK (Some no_fields)), g') ∧
    membership g' (λ n, n ≠ peer ∧ n ∈ members g) (discovery_remove peer (g_disc g))) ∧
  (m_type msg ∈ [PONG; GET; SET; DELETE; OK; NOT_FOUND; ERROR] →
    ∃ err, handle_message info msg g = (Ok (mkMessage ERROR (Some (error_fields err))), g)) ∧
  (m_type msg ∈ [PEER_ANNOUNCE; PEER_LEAVE] → m_payload msg = Some no_fields →
    handle_message info msg g = (Raise KeyError, g)).
Proof.
  intros Hg. split_and!; [done| | | | |].
  - exists (others info g). split; [done|]. split; [by apply others_nodup|]. apply others_elem.
  - unfold handle_message. unfold_M. cbn [m_type].
    change (payload_item p_peer _) with (Ok (node_to_dict peer)). cbv beta iota.
    rewrite node_from_to_dict.
    change (r_nodes (g_ring g)) with (members g). destruct (decide (peer ∈ members g)).
    + exists g. split; [done|]. split_and!; [done| |done]. naive_solver.
    + destruct (admit_peer_run peer g Hg) as (g' & -> & _ & Hm). by exists g'.
  - unfold handle_message. unfold_M. cbn [m_type].
    change (payload_item p_peer _) with (Ok (node_to_dict peer)). cbv beta iota.
    rewrite node_from_to_dict.
    destruct (drop_peer_run peer g Hg) as (g' & -> & Hm). by exists g'.
  - destruct msg as [[] pl]; simpl; intros Ht; try (by eexists); exfalso; set_solver.
  - destruct msg as [[] pl]; simpl; intros Ht ->; try done; exfalso; set_solver.
Qed.

(** The exchange of peer lists. *)
Lemma gossip_with_returns peer g :
  gossip_wf g → ∃ o p' g',
    po_execute (host peer) (port peer) (list_request info) (g_pool g) = (Ok o, p') ∧
    _gossip_with info peer g = (Ok tt, g') ∧ gossip_wf g' ∧
    (info ∈ members g' → info ∈ members g) ∧
    match o with
    | None => membership g' (λ n, n ≠ peer ∧ n ∈ members g) (discovery_remove peer (g_disc g))
    | Some resp =>
        (m_type resp ≠ PEER_LIST → membership g' (λ n, n ∈ members g) (g_disc g)) ∧
        (∀ ns, resp = mkMessage PEER_LIST (Some (peers_fields (node_to_dict <$> ns))) →
           membership g' (λ n, n ∈ members g ∨ (n ∈ ns ∧ n ≠ info))
             (foldl (λ d n, discovery_add n d) (g_disc g) (news (members g) ns))) ∧
        (m_type resp = PEER_LIST → m_payload resp = None → peer ∉ members g')
    end.
Proof.
  intros Hg. unfold _gossip_with, gossip_with_by, take_in. unfold_M.
  destruct (send_to_run (list_request info) peer g Hg)
    as (o & g1 & -> & (p' & Hex & ->) & Hg1 & Hmem & Hd).
  exists o, p'. destruct o as [resp|].
  2: { destruct (drop_peer_run peer _ Hg1) as (g' & Hdrop & Hm). unfold _evict. rewrite Hdrop.
       exists g'. split_and!; [done..|apply Hm| |].
       - destruct Hm as (_ & Hm & _). rewrite Hm, Hmem. naive_solver.
       - destruct Hm as (? & Hm & ?). split_and!; [done| |done]. intros n. by rewrite Hm, Hmem. }
  set (g1 := mkGossip _ _ _) in *.
  destruct (decide (m_type resp = PEER_LIST)) as [Ht|Ht].
  2: { exists g1. split_and!; try done. intros ns ->. done. }
  cbn [get_state]. unfold payload_get. destruct (m_payload resp) as [pl|] eqn:Hpl.
  2: { destruct (drop_peer_run peer _ Hg1) as (g' & Hdrop & Hm). unfold _evict. rewrite Hdrop.
       destruct Hm as (Hw & Hm & Hm'). exists g'. split_and!; try done.
       - rewrite Hm, Hmem. naive_solver.
       - intros ns ->. done.
       - intros _ _. rewrite Hm. naive_solver. }
  change (r_nodes (g_ring g1)) with (members g).
  destruct (learn_any_run (members g) (default [] (p_peers pl)) g1 Hg1)
    as (r & g2 & Hr & Hg2 & Hsub & Hinfo).
  assert (∀ ns, resp = mkMessage PEER_LIST (Some (peers_fields (node_to_dict <$> ns))) →
    r = Ok tt ∧ membership g2 (λ n, n ∈ members g ∨ (n ∈ ns ∧ n ≠ info))
      (foldl (λ d n, discovery_add n d) (g_disc g) (news (members g) ns))) as Hlist.
  { intros ns ->. injection Hpl as <-. simpl in Hr.
    destruct (learn_all_run (members g) ns g1 Hg1) as (g3 & Hr' & Hw & Hm & Hd').
    rewrite Hr' in Hr. injection Hr as <- <-. split; [done|]. split_and!; [done| |done].
    intros n. rewrite Hm. unfold news. rewrite list_elem_of_filter.
    change (members g1) with (members g). destruct (decide (n ∈ members g)); naive_solver. }
  rewrite Hr. destruct r as [[]|e].
  - exists g2. split_and!; try done. intros ns Hns. by apply Hlist.
  - destruct (drop_peer_run peer _ Hg2) as (g' & Hdrop & Hw & Hm & Hm'). unfold _evict.
    rewrite Hdrop. exists g'. split_and!; try done.
    + rewrite Hm. intros [_ ?]. by apply Hinfo.
    + intros ns Hns. by apply Hlist in Hns as [? _].
Qed.

(** Exchanging peer lists with a peer never raises.  If the peer cannot be
    reached it is evicted from the ring and the discovery; if it answers with a
    list, every node of the list but the node itself is a member afterwards and
    nobody is lost; another answer changes nothing; a list that does not decode
    gets the peer evicted.  In no case does the node add itself. *)
Theorem gossip_with_spec peer g :
  gossip_wf g → ∃ o p' g',
    po_execute (host peer) (port peer) (list_request info) (g_pool g) = (Ok o, p') ∧
    _gossip_with info peer g = (Ok tt, g') ∧ gossip_wf g' ∧
    (info ∈ members g' → info ∈ members g) ∧
    match o with
    | None => membership g' (λ n, n ≠ peer ∧ n ∈ members g) (discovery_remove peer (g_disc g))
    | Some resp =>
        (m_type resp ≠ PEER_LIST → membership g' (λ n, n ∈ members g) (g_disc g)) ∧
        (∀ ns, resp = mkMessage PEER_LIST (Some (peers_fields (node_to_dict <$> ns))) →
           membership g' (λ n, n ∈ members g ∨ (n ∈ ns ∧ n ≠ info))
             (foldl (λ d n, discovery_add n d) (g_disc g) (news (members g) ns))) ∧
        (m_type resp = PEER_LIST → m_payload resp = None → peer ∉ members g')
    end.
Proof. apply gossip_with_returns. Qed.
End spec.

(** ** Exchanges between honest nodes *)
Section exchange.
Context {R P : Type} `{RingLaws R} `{PoolOpsLaws P}.
Abbreviation G := (gossip_state R P).
Implicit Types (g : G) (a b n : NodeInfo).

(** [b] answers [a]'s request from its own state. *)
Definition answered_by a b (ga gb : G) : Prop :=
  ∃ reply gb' p', handle_message b (list_request a) gb = (Ok reply, gb') ∧
    po_execute (host b) (port b) (list_request a) (g_pool ga) = (Ok (Some reply), p').

Lemma answered_by_list a b ga gb :
  answered_by a b ga gb → ∃ p',
    po_execute (host b) (port b) (list_request a) (g_pool ga) =
      (Ok (Some (mkMessage PEER_LIST (Some (peers_fields (node_to_dict <$> others b gb))))), p').
Proof. intros (reply & gb' & p' & Hh & He). injection Hh as <- <-. eauto. Qed.

(** One exchange spreads membership one way: after [a] has gossiped with an honest
    peer [b], every member [b] knows, except [a] and [b] themselves, is a member for
    [a] too and [a] has lost nobody; and [b] itself becomes a member for [a] only if
    it already was, so a peer that was evicted is not readmitted by gossiping with
    it, however often. *)
Theorem gossip_exchange a b ga gb :
  gossip_wf ga → answered_by a b ga gb →
  ∃ ga', _gossip_with a b ga = (Ok tt, ga') ∧ gossip_wf ga' ∧
    (∀ n, n ≠ a → n ≠ b → n ∈ members ga' ↔ n ∈ members ga ∨ n ∈ members gb) ∧
    (b ≠ a → b ∈ members ga' ↔ b ∈ members ga).
Proof.
  intros Ha (p' & He)%answered_by_list.
  destruct (gossip_with_returns a b ga Ha) as (o & p1 & ga' & He' & Hrun & Hw & _ & Hcase).
  rewrite He in He'. injection He' as <- <-. destruct Hcase as (_ & Hlist & _).
  destruct (Hlist _ eq_refl) as (_ & Hm & _). exists ga'. split_and!; [done|done| |].
  - intros n Hna Hnb. rewrite Hm, others_elem. naive_solver.
  - intros Hba. rewrite Hm, others_elem. naive_solver.
Qed.
End exchange.

(** ** Announcements and rounds *)
Section announce.
Context {R P : Type} `{RingLaws R} `{PoolOpsLaws P} (info : NodeInfo).
Abbreviation G := (gossip_state R (traced P)).
Implicit Types (g : G) (n : NodeInfo) (msg : Message).

(** The requests recorded so far. *)
Definition trace g : list (string * Z * Message) := (g_pool g).2.

Definition request msg n : string * Z * Message := (host n, port n, msg).

Lemma send_to_trace msg n g :
  gossip_wf g → ∃ o g', send_to msg n g = (Ok o, g') ∧ gossip_wf g' ∧
    g_ring g' = g_ring g ∧ g_disc g' = g_disc g ∧ trace g' = trace g ++ [request msg n].
Proof.
  intros [Hr Hd Hp]. unfold send_to, on_pool. unfold_M. simpl.
  destruct (po_execute_returns (host n) (port n) msg (g_pool g).1 Hp) as (o & p' & -> & Hp').
  by eexists _, _.
Qed.

Lemma broadcast_run msg ns g :
  gossip_wf g → ∃ g',
    for_each ns (λ n, if decide (n = info) then mret tt else send_to msg n ;; mret tt) g = (Ok tt, g') ∧
    gossip_wf g' ∧ g_ring g' = g_ring g ∧ g_disc g' = g_disc g ∧
    trace g' = trace g ++ (request msg <$> filter (λ n, n ≠ info) ns).
Proof.
  revert g. induction ns as [|n ns IH]; intros g Hg.
  { exists g. split_and!; try done. by rewrite app_nil_r. }
  simpl. unfold_M. rewrite filter_cons. destruct (decide (n = info)) as [->|Hne].
  - rewrite decide_False by auto. by apply IH.
  - rewrite decide_True by done. destruct (send_to_trace msg n g Hg) as (o & g1 & -> & Hg1 & Hr & Hd & Ht).
    destruct (IH g1 Hg1) as (g2 & -> & Hg2 & Hr2 & Hd2 & Ht2). exists g2.
    split_and!; try done; try congruence. by rewrite Ht2, Ht, <- app_assoc.
Qed.

Lemma gather_trace msg ns order g slots :
  gossip_wf g → Forall (λ i, i < length ns) order → ∃ g',
    (foldl (gather_step (send_to msg <$> ns)) (g, slots) order).1 = g' ∧
    gossip_wf g' ∧ g_ring g' = g_ring g ∧ g_disc g' = g_disc g ∧
    trace g' = trace g ++ (request msg <$> omap (ns !!.) order).
Proof.
  revert g slots. induction order as [|i order IH]; intros g slots Hg Hord.
  { exists g. split_and!; try done. by rewrite app_nil_r. }
  apply Forall_cons in Hord as [Hi Hord]. apply lookup_lt_is_Some_2 in Hi as [n Hn].
  simpl. unfold gather_step at 2. rewrite list_lookup_fmap, Hn. simpl.
  destruct (send_to_trace msg n g Hg) as (o & g1 & -> & Hg1 & Hr & Hd & Ht).
  destruct (IH g1 (<[i:=Some (Ok o)]> slots) Hg1 Hord) as (g2 & -> & Hg2 & Hr2 & Hd2 & Ht2).
  exists g2. split_and!; try done; try congruence. by rewrite Ht2, Ht, <- app_assoc.
Qed.

Lemma broadcast_async_run msg g order :
  gossip_wf g → order ≡ₚ seq 0 (length (others info g)) → ∃ g' new,
    _broadcast_async info order msg g = (Ok tt, g') ∧ gossip_wf g' ∧ g_ring g' = g_ring g ∧
    g_disc g' = g_disc g ∧ trace g' = trace g ++ new ∧ new ≡ₚ request msg <$> others info g.
Proof.
  intros Hg Hord. unfold _broadcast_async, broadcast_async_by. unfold_M. cbn [get_state]. unfold gather.
  destruct (gather_trace msg (others info g) order g
    (replicate (length (send_to (R := R) (P := traced P) msg <$> others info g)) None))
    as (g' & Hg' & Hw & Hr & Hd & Ht); [done| |].
  { rewrite Hord. apply Forall_forall. intros i. rewrite elem_of_seq. lia. }
  destruct (foldl _ _ _) as [g1 slots]. simpl in Hg'. subst g1. eexists g', _.
  split_and!; [done..|]. apply fmap_Permutation. rewrite Hord.
  pose proof (omap_lookup_seq [] (others info g)) as Heq. simpl in Heq. by rewrite Heq.
Qed.

(** Announcing reaches everybody once: joining or leaving sends one message to
    every other member, none to the node itself, never raises whatever the peers
    answer, and leaves the membership alone; the asynchronous version sends the
    same messages, in the order of its schedule. *)
Theorem announce_reaches_all msg g order :
  gossip_wf g → order ≡ₚ seq 0 (length (others info g)) →
  (∃ g', _broadcast info msg g = (Ok tt, g') ∧ gossip_wf g' ∧ g_ring g' = g_ring g ∧
    g_disc g' = g_disc g ∧ trace g' = trace g ++ (request msg <$> others info g)) ∧
  (∃ g' new, _broadcast_async info order msg g = (Ok tt, g') ∧ gossip_wf g' ∧
    g_ring g' = g_ring g ∧ g_disc g' = g_disc g ∧ trace g' = trace g ++ new ∧
    new ≡ₚ request msg <$> others info g) ∧
  NoDup (others info g) ∧ info ∉ others info g.
Proof.
  intros Hg Hord. split_and!; [| |by apply others_nodup|rewrite others_elem; naive_solver].
  - unfold _broadcast, broadcast_by. unfold_M. cbn. by apply broadcast_run.
  - by apply broadcast_async_run.
Qed.
End announce.

(** ** Rounds *)
Section round.
Context {R P : Type} `{RingLaws R} `{PoolOpsLaws P} (info : NodeInfo).
Abbreviation G := (gossip_state R P).
Implicit Types (g : G).

Lemma gossip_all_run ns g :
  gossip_wf g → ∃ g', for_each ns (_gossip_with info) g = (Ok tt, g') ∧ gossip_wf g' ∧
    (info ∈ members g' → info ∈ members g).
Proof.
  revert g. induction ns as [|n ns IH]; intros g Hg; [by exists g|]. simpl. unfold_M.
  destruct (gossip_with_returns info n g Hg) as (o & p & g1 & _ & -> & Hg1 & Hi & _).
  destruct (IH g1 Hg1) as (g2 & -> & Hg2 & Hi2). exists g2. split_and!; auto.
Qed.

(** A gossip round never raises, whatever discovery and the peers answer, keeps the
    state well-formed and never adds the node itself. *)
Theorem gossip_round_safe `{Resolver} choose g :
  gossip_wf g → ∃ g', gossip_round info choose g = (Ok tt, g') ∧ gossip_wf g' ∧
    (info ∈ members g' → info ∈ members g).
Proof.
  intros Hg. unfold gossip_round, gossip_round_by. unfold_M. destruct (get_peers (g_disc g)) as [ps|e]; [|by exists g].
  destruct (filter _ ps); [by exists g|].
  destruct (gossip_all_run (choose (n :: l)) g Hg) as (g' & -> & ?). by exists g'.
Qed.
End round.

(** ** Samples: three nodes, the peers' answers scripted *)
Section samples.
#[local] Existing Instances scripted_pool scripted_pool_laws.

Definition sample_gossip (answers : script) : gossip_state ring script :=
  mkGossip sample_ring answers (GossipDiscovery (mkGossipDiscovery node1 [node2])).

Lemma sample_gossip_wf answers : gossip_wf (sample_gossip answers).
Proof. split; [apply sample_ring_wf|apply NoDup_singleton|done]. Qed.

Definition sample_announce : Message := mkMessage PEER_ANNOUNCE (Some no_fields).

Lemma gossip_handle_spec_witness :
  let g := sample_gossip [] in
  handle_message node1 (mkMessage PING (Some no_fields)) g =
    (Ok (mkMessage PONG (Some (node_fields (node_to_dict node1)))), g) ∧
  (∃ ns, handle_message node1 (mkMessage PEER_LIST (Some no_fields)) g =
      (Ok (mkMessage PEER_LIST (Some (peers_fields (node_to_dict <$> ns)))), g) ∧
    NoDup ns ∧ ∀ n, n ∈ ns ↔ n ≠ node1 ∧ n ∈ members g) ∧
  (∃ g', handle_message node1 (mkMessage PEER_ANNOUNCE (Some (peer_fields (node_to_dict node3)))) g =
      (Ok (mkMessage OK (Some no_fields)), g') ∧
    membership g' (λ n, n = node3 ∨ n ∈ members g)
      (if decide (node3 ∈ members g) then g_disc g else discovery_add node3 (g_disc g))) ∧
  (∃ g', handle_message node1 (mkMessage PEER_LEAVE (Some (peer_fields (node_to_dict node3)))) g =
      (Ok (mkMessage OK (Some no_fields)), g') ∧
    membership g' (λ n, n ≠ node3 ∧ n ∈ members g) (discovery_remove node3 (g_disc g))) ∧
  (m_type sample_announce ∈ [PONG; GET; SET; DELETE; OK; NOT_FOUND; ERROR] →
    ∃ err, handle_message node1 sample_announce g = (Ok (mkMessage ERROR (Some (error_fields err))), g)) ∧
  (m_type sample_announce ∈ [PEER_ANNOUNCE; PEER_LEAVE] → m_payload sample_announce = Some no_fields →
    handle_message node1 sample_announce g = (Raise KeyError, g)).
Proof. apply (gossip_handle_spec node1 node3 sample_announce _ (sample_gossip_wf [])). Defined.

Definition sample_list_reply : Message :=
  mkMessage PEER_LIST (Some (peers_fields (node_to_dict <$> [node1; mkNodeInfo "10.0.0.9" 7000]))).

Lemma gossip_with_spec_witness :
  let g := sample_gossip [Some sample_list_reply] in
  ∃ o p' g',
    po_execute (host node2) (port node2) (list_request node1) (g_pool g) = (Ok o, p') ∧
    _gossip_with node1 node2 g = (Ok tt, g') ∧ gossip_wf g' ∧
    (node1 ∈ members g' → node1 ∈ members g) ∧
    match o with
    | None => membership g' (λ n, n ≠ node2 ∧ n ∈ members g) (discovery_remove node2 (g_disc g))
    | Some resp =>
        (m_type resp ≠ PEER_LIST → membership g' (λ n, n ∈ members g) (g_disc g)) ∧
        (∀ ns, resp = mkMessage PEER_LIST (Some (peers_fields (node_to_dict <$> ns))) →
           membership g' (λ n, n ∈ members g ∨ (n ∈ ns ∧ n ≠ node1))
             (foldl (λ d n, discovery_add n d) (g_disc g) (news node1 (members g) ns))) ∧
        (m_type resp = PEER_LIST → m_payload resp = None → node2 ∉ members g')
    end.
Proof. apply (gossip_with_spec node1 node2 _ (sample_gossip_wf [Some sample_list_reply])). Defined.

Lemma gossip_exchange_witness :
  let ga := mkGossip (R := ring) (P := script) [node1]
    [Some (mkMessage PEER_LIST (Some (peers_fields [node_to_dict node1; node_to_dict node3])))]
    (StaticDiscovery [node1; node2]) in
  let gb := sample_gossip [] in
  ∃ ga', _gossip_with node1 node2 ga = (Ok tt, ga') ∧ gossip_wf ga' ∧
    (∀ n, n ≠ node1 → n ≠ node2 → n ∈ members ga' ↔ n ∈ members ga ∨ n ∈ members gb) ∧
    (node2 ≠ node1 → node2 ∈ members ga' ↔ node2 ∈ members ga).
Proof.
  apply (gossip_exchange node1 node2
    (mkGossip (R := ring) (P := script) [node1]
      [Some (mkMessage PEER_LIST (Some (peers_fields [node_to_dict node1; node_to_dict node3])))]
      (StaticDiscovery [node1; node2])) (sample_gossip [])).
  - split; [apply NoDup_singleton|done|done].
  - eexists _, _, _. split; reflexivity.
Defined.

Lemma announce_reaches_all_witness :
  let g := mkGossip (R := ring) (P := traced script) sample_ring ([None; None], [])
    (StaticDiscovery []) in
  let msg := join_message node1 in
  (∃ g', _broadcast node1 msg g = (Ok tt, g') ∧ gossip_wf g' ∧ g_ring g' = g_ring g ∧
    g_disc g' = g_disc g ∧ trace g' = trace g ++ (request msg <$> others node1 g)) ∧
  (∃ g' new, _broadcast_async node1 [1; 0] msg g = (Ok tt, g') ∧ gossip_wf g' ∧
    g_ring g' = g_ring g ∧ g_disc g' = g_disc g ∧ trace g' = trace g ++ new ∧
    new ≡ₚ request msg <$> others node1 g) ∧
  NoDup (others node1 g) ∧ node1 ∉ others node1 g.
Proof.
  apply (announce_reaches_all (P := script) node1 (join_message node1)
    (mkGossip (R := ring) (P := traced script) sample_ring ([None; None], []) (StaticDiscovery []))
    [1; 0]).
  - split; [apply sample_ring_wf|done|done].
  - vm_compute. apply Permutation_swap.
Defined.
End samples.
