(* ===== verification/Membership.v ===== *)
(** * Membership spreads through gossip

    Nodes that can all reach each other gossip in rounds, in any order.  Whoever
    takes part in enough rounds learns of every node that somebody on the way to it
    knows. *)
From S2P Require Import Prelude Async PyBase Types Ring Discovery PoolOps Gossip GossipSpec.

Section membership.
Context {R : Type} `{RingLaws R} `{Resolver}.
#[local] Existing Instances scripted_pool scripted_pool_laws.

(** ** The network *)

(** What each live node knows: its ring and its discovery. *)
Abbreviation net := (gmap NodeInfo (R * discovery)).
Implicit Types (w : net) (a b n : NodeInfo).

(** A request to a node is handled by it at once; nodes that are not there do not
    answer.  Handling a gossip message makes no request, so the node's own pool is
    a scripted one. *)
Definition net_execute (h : string) (prt : Z) (msg : Message) : M net (option Message) := λ w,
  let b := mkNodeInfo h prt in
  match w !! b with
  | None => (Ok None, w)
  | Some (r, d) =>
      let '(reply, g) := handle_message b msg (mkGossip r ([] : script) d) in
      (Ok (match reply with Ok m => Some m | Raise _ => None end),
       <[b := (g_ring g, g_disc g)]> w)
  end.

#[export] Instance net_pool : PoolOps net := {
  po_execute := net_execute;
  po_close_peer _ _ := mret tt;
  po_close_all := mret tt;
}.

Definition net_wf w : Prop := map_Forall (λ _ m, r_wf m.1 ∧ discovery_wf m.2) w.

Lemma handle_message_wf b msg (g : gossip_state R script) :
  gossip_wf g → gossip_wf (handle_message b msg g).2.
Proof.
  intros Hg. unfold handle_message. unfold_M. simpl. destruct (m_type msg); try done.
  - destruct (payload_item p_peer msg) as [raw|]; [|done]. destruct (node_from_dict raw) as [p|]; [|done].
    case_decide; [done|]. destruct Hg. split; simpl; auto using r_add_wf, discovery_add_wf.
  - destruct (payload_item p_peer msg) as [raw|]; [|done]. destruct (node_from_dict raw) as [p|]; [|done].
    destruct Hg. split; simpl; auto using r_remove_wf, discovery_remove_wf.
Qed.

Lemma net_execute_returns h prt msg w :
  net_wf w → ∃ o w', net_execute h prt msg w = (Ok o, w') ∧ net_wf w'.
Proof.
  intros Hw. unfold net_execute. destruct (w !! mkNodeInfo h prt) as [[r d]|] eqn:Hb; [|by eexists _, _].
  destruct (Hw _ _ Hb) as [Hr Hd].
  destruct (handle_message_wf (mkNodeInfo h prt) msg (mkGossip r [] d)) as [Hr' Hd' _]; [done|].
  destruct (handle_message _ _ _) as [reply g]. eexists _, _. split; [done|].
  by apply map_Forall_insert_2.
Qed.

Lemma net_close_returns h prt w : net_wf w → ∃ w', po_close_peer h prt w = (Ok tt, w') ∧ net_wf w'.
Proof. intros Hw. by exists w. Qed.

#[export] Instance net_pool_laws : PoolOpsLaws net :=
  @Build_PoolOpsLaws net net_pool net_wf net_execute_returns net_close_returns.

(** ** Rounds *)

(** The outcome of [random.sample]. *)
Abbreviation choice := (list NodeInfo → list NodeInfo).

(** A round of the gossip loop of node [a]. *)
Definition round (e : NodeInfo * choice) w : net :=
  match w !! e.1 with
  | None => w
  | Some (r, d) =>
      let g := (gossip_round e.1 e.2 (mkGossip r w d)).2 in
      <[e.1 := (g_ring g, g_disc g)]> (g_pool g)
  end.

Definition rounds (es : list (NodeInfo * choice)) w : net := foldl (λ w e, round e w) w es.

(** The peers that are contacted in a round. *)
Definition contacts (e : NodeInfo * choice) w : list NodeInfo :=
  match w !! e.1 with
  | None => []
  | Some (_, d) =>
      match get_peers d with
      | Raise _ => []
      | Ok listed =>
          match filter (λ n, n ≠ e.1) listed with [] => [] | ps => e.2 ps end
      end
  end.

Definition live w a : Prop := is_Some (w !! a).

Definition knows w a n : Prop := ∃ r d, w !! a = Some (r, d) ∧ n ∈ r_nodes r.

(** ** One exchange *)

Lemma learn_pool info known raws (g : gossip_state R net) :
  g_pool (for_each raws (learn info known) g).2 = g_pool g.
Proof.
  revert g. induction raws as [|raw raws IH]; intros g; [done|]. simpl. unfold_M.
  unfold learn at 1. unfold_M. destruct (node_from_dict raw) as [m|]; [|done].
  case_decide; [|apply IH]. unfold admit_peer. unfold_M. by rewrite IH.
Qed.

(** A live peer answers with its members, and nothing else changes. *)
Lemma exchange_live a b r d (g : gossip_state R net) :
  a ≠ b → gossip_wf g → g_pool g !! b = Some (r, d) →
  ∃ g', _gossip_with a b g = (Ok tt, g') ∧ gossip_wf g' ∧ g_pool g' = g_pool g ∧
    ∀ n, n ∈ members g' ↔ n ∈ members g ∨ (n ∈ r_nodes r ∧ n ≠ a ∧ n ≠ b).
Proof.
  intros Hab Hg Hb.
  set (reply := mkMessage PEER_LIST (Some (peers_fields (node_to_dict <$>
    others b (mkGossip r ([] : script) d))))).
  assert (po_execute (host b) (port b) (list_request a) (g_pool g) = (Ok (Some reply), g_pool g)) as Hex.
  { simpl. unfold net_execute. replace (mkNodeInfo (host b) (port b)) with b by by destruct b.
    rewrite Hb. simpl. by rewrite insert_id. }
  destruct (gossip_with_returns a b g Hg) as (o & p & g' & Hex' & Hrun & Hg' & _ & Hcase).
  rewrite Hex in Hex'. injection Hex' as <- <-. destruct Hcase as (_ & Hlist & _).
  destruct (Hlist _ eq_refl) as (_ & Hmem & _). exists g'. split_and!; [done|done| |].
  - revert Hrun. unfold _gossip_with, gossip_with_by, take_in, send_to, on_pool. unfold_M. rewrite Hex. simpl.
    match goal with |- context [for_each ?l ?f ?g0] => pose proof (learn_pool a (r_nodes (g_ring g)) l g0) as Hp end.
    simpl in Hp. destruct (for_each _ _ _) as [[[]|e] g1] eqn:Hfe; [by intros [= <-]|].
    destruct (learn_all_run a (r_nodes (g_ring g)) (others b (mkGossip r ([] : script) d))
      (mkGossip (g_ring g) (g_pool g) (g_disc g))) as (g2 & Hrun2 & _); [by destruct g|congruence].
  - intros n. rewrite Hmem. unfold others. rewrite list_elem_of_filter. naive_solver.
Qed.

Lemma exchanges_live a ps (g : gossip_state R net) :
  gossip_wf g → (∀ b, b ∈ ps → b ≠ a ∧ live (g_pool g) b) →
  ∃ g', for_each ps (_gossip_with a) g = (Ok tt, g') ∧ gossip_wf g' ∧ g_pool g' = g_pool g ∧
    (∀ n, n ∈ members g → n ∈ members g') ∧
    (∀ b n, b ∈ ps → n ≠ a → n ≠ b → knows (g_pool g) b n → n ∈ members g').
Proof.
  revert g. induction ps as [|b ps IH]; intros g Hg Hlive.
  { exists g. split_and!; try done. set_solver. }
  simpl. unfold_M. destruct (Hlive b) as [Hba [[r d] Hb]]; [set_solver|].
  destruct (exchange_live a b r d g) as (g1 & -> & Hg1 & Hp1 & Hm1); [done..|].
  destruct (IH g1 Hg1) as (g2 & -> & Hg2 & Hp2 & Hm2 & Hl2); [rewrite Hp1; set_solver|].
  exists g2. split_and!; [done|done|congruence| |].
  - intros n Hn. apply Hm2, Hm1. by left.
  - intros c n Hc Hna Hnc Hk. apply elem_of_cons in Hc as [->|Hc].
    + destruct Hk as (r' & d' & Hb' & Hn). simplify_eq. apply Hm2, Hm1. auto.
    + apply (Hl2 c); try done. by rewrite Hp1.
Qed.

(** A round in which everybody contacted is live. *)
Definition calm (e : NodeInfo * choice) w : Prop :=
  (∀ ps, e.2 ps ⊆ ps) ∧ ∀ b, b ∈ contacts e w → live w b.

Lemma round_calm e w :
  net_wf w → calm e w →
  net_wf (round e w) ∧ (∀ b, live (round e w) b ↔ live w b) ∧
  (∀ a n, knows w a n → knows (round e w) a n) ∧
  (∀ b n, b ∈ contacts e w → n ≠ e.1 → n ≠ b → knows w b n → knows (round e w) e.1 n).
Proof.
  intros Hw [Hsample Hlive]. unfold round, contacts in *. destruct e as [a ch]. simpl in *.
  destruct (w !! a) as [[r d]|] eqn:Ha; [|split_and!; done || set_solver].
  set (g := mkGossip r w d). destruct (Hw _ _ Ha) as [Hr Hd].
  assert (gossip_wf g) as Hg by by split.
  assert (∃ g', gossip_round a ch g = (Ok tt, g') ∧ gossip_wf g' ∧ g_pool g' = w ∧
    (∀ n, n ∈ r_nodes r → n ∈ members g') ∧
    (∀ b n, b ∈ contacts (a, ch) w → n ≠ a → n ≠ b → knows w b n → n ∈ members g'))
    as (g' & -> & Hg' & Hp & Hm & Hl).
  { unfold gossip_round, gossip_round_by, contacts. simpl. rewrite Ha. unfold_M. simpl.
    destruct (get_peers d) as [listed|e]; simpl; [|exists g; split_and!; done || set_solver].
    destruct (filter _ listed) as [|p ps] eqn:Hf; [exists g; split_and!; done || set_solver|].
    destruct (exchanges_live a (ch (p :: ps)) g Hg) as (g' & -> & ? & ? & ? & ?).
    - intros b Hb. split; [|by apply Hlive].
      apply Hsample in Hb. rewrite <- Hf in Hb. by apply list_elem_of_filter in Hb as [? _].
    - by exists g'. }
  simpl. rewrite Hp. destruct Hg' as [Hr' Hd' _]. split_and!.
  - by apply map_Forall_insert_2.
  - intros b. unfold live. destruct (decide (b = a)) as [->|Hne].
    + rewrite lookup_insert_eq, Ha. split; by eexists.
    + by rewrite lookup_insert_ne.
  - intros b n (r0 & d0 & Hb & Hn). destruct (decide (b = a)) as [->|Hne].
    + simplify_eq. eexists _, _. rewrite lookup_insert_eq. split; [done|]. by apply Hm.
    + exists r0, d0. by rewrite lookup_insert_ne.
  - intros b n Hb Hna Hnb Hk. eexists _, _. rewrite lookup_insert_eq. split; [done|].
    apply (Hl b); try done. unfold contacts. simpl. by rewrite Ha.
Qed.

(** ** Sweeps *)

(** Everybody contacted in the rounds is live. *)
Fixpoint all_calm (es : list (NodeInfo * choice)) w : Prop :=
  match es with
  | [] => True
  | e :: es => calm e w ∧ all_calm es (round e w)
  end.

(** At some moment of the rounds, [a] contacts [b]. *)
Fixpoint contacted a b (es : list (NodeInfo * choice)) w : Prop :=
  match es with
  | [] => False
  | e :: es => (e.1 = a ∧ b ∈ contacts e w) ∨ contacted a b es (round e w)
  end.

(** In each sweep nobody fails, and each of the pairs [E] has its contact. *)
Fixpoint fair (E : list (NodeInfo * NodeInfo)) (sweeps : list (list (NodeInfo * choice))) w : Prop :=
  match sweeps with
  | [] => True
  | es :: sweeps =>
      all_calm es w ∧ (∀ a b, (a, b) ∈ E → contacted a b es w) ∧ fair E sweeps (rounds es w)
  end.

(** [n] can come to [a]'s knowledge in [k] sweeps: along pairs of [E], from somebody
    who knows it, past everybody but [n] itself, whose lists leave it out. *)
Inductive informed (E : list (NodeInfo * NodeInfo)) w n : nat → NodeInfo → Prop :=
  | informed_now k a : knows w a n → informed E w n k a
  | informed_by k a b : (a, b) ∈ E → a ≠ n → b ≠ n → informed E w n k b → informed E w n (S k) a.

Lemma rounds_calm es w :
  net_wf w → all_calm es w →
  net_wf (rounds es w) ∧ (∀ a n, knows w a n → knows (rounds es w) a n).
Proof.
  revert w. induction es as [|e es IH]; intros w Hw; [done|]. intros [He Hes].
  destruct (round_calm e w Hw He) as (Hw' & _ & Hk & _). destruct (IH _ Hw' Hes) as [? ?].
  split; [done|]. auto.
Qed.

Lemma contact_informs a b n es w :
  net_wf w → all_calm es w → contacted a b es w → n ≠ a → n ≠ b → knows w b n →
  knows (rounds es w) a n.
Proof.
  revert w. induction es as [|e es IH]; intros w Hw; [done|]. intros [He Hes] Hc Hna Hnb Hk.
  destruct (round_calm e w Hw He) as (Hw' & _ & Hk' & Hl). destruct Hc as [[<- Hb]|Hc].
  - apply (rounds_calm es _ Hw' Hes). by apply (Hl b).
  - apply IH; auto.
Qed.

Lemma rounds_app es es' w : rounds (es ++ es') w = rounds es' (rounds es w).
Proof. apply foldl_app. Qed.

Lemma fair_calm E sweeps w :
  net_wf w → fair E sweeps w →
  net_wf (rounds (mjoin sweeps) w) ∧ (∀ a n, knows w a n → knows (rounds (mjoin sweeps) w) a n).
Proof.
  revert w. induction sweeps as [|es sweeps IH]; intros w Hw; [done|]. intros (Hes & _ & Hf).
  destruct (rounds_calm es w Hw Hes) as [Hw' Hk]. destruct (IH _ Hw' Hf) as [? ?].
  cbn [mjoin list_join]. rewrite rounds_app. split; [done|]. intros a n ?. auto.
Qed.

Lemma fair_snoc E sweeps es w :
  fair E (sweeps ++ [es]) w →
  fair E sweeps w ∧ all_calm es (rounds (mjoin sweeps) w) ∧
  ∀ a b, (a, b) ∈ E → contacted a b es (rounds (mjoin sweeps) w).
Proof.
  revert w. induction sweeps as [|es' sweeps IH]; intros w; simpl.
  - intros (? & ? & _). done.
  - intros (? & ? & Hf). destruct (IH _ Hf) as (? & ? & ?). rewrite rounds_app. done.
Qed.

(** C17. Membership spreads.  When nodes gossip in sweeps, in whatever order and with
    whatever samples of the peers their discoveries list, and in each sweep every
    pair [(a, b)] of [E] has [a] contact [b], then after [k] sweeps without failures
    a node knows every node that is known to somebody at most [k] contacts away, along a
    chain that does not pass the node itself; and nobody forgets anybody. *)
Theorem membership_spreads E sweeps w :
  net_wf w → fair E sweeps w →
  (∀ a n k, k ≤ length sweeps → informed E w n k a → knows (rounds (mjoin sweeps) w) a n) ∧
  (∀ a n, knows w a n → knows (rounds (mjoin sweeps) w) a n).
Proof.
  intros Hw Hf. split; [|by apply (fair_calm E)]. intros a n k Hk Hi. revert sweeps Hf Hk.
  induction Hi as [k a Ha|k a b Hab Han Hbn _ IH]; intros sweeps Hf Hk; [by apply (fair_calm E)|].
  destruct sweeps as [|es sweeps _] using rev_ind; [simpl in Hk; lia|].
  rewrite length_app in Hk. simpl in Hk. destruct (fair_snoc _ _ _ _ Hf) as (Hf' & Hes & Hcon).
  destruct (fair_calm _ _ _ Hw Hf') as [Hw' _].
  rewrite join_app. simpl. rewrite app_nil_r, rounds_app.
  apply (contact_informs a b); auto. apply IH; [done|lia].
Qed.
End membership.

(** ** A sample network: two nodes know the seed, which knows both *)
Section samples.
#[local] Existing Instance no_resolver.

Definition sample_net : gmap NodeInfo (ring * discovery) :=
  {[ node1 := ([node1; node2; node3], StaticDiscovery []);
     node2 := ([node1; node2], GossipDiscovery (mkGossipDiscovery node1 []));
     node3 := ([node1; node3], GossipDiscovery (mkGossipDiscovery node1 [])) ]}.

Definition sample_sweep : list (NodeInfo * (list NodeInfo → list NodeInfo)) :=
  [(node2, take 3); (node3, take 3)].

Lemma sample_net_wf : net_wf sample_net.
Proof.
  apply map_Forall_insert_2; [|apply map_Forall_insert_2; [|apply map_Forall_singleton]];
    (split; [apply (bool_decide_eq_true_1 (NoDup _)); vm_compute; reflexivity|]); try exact I;
    apply (bool_decide_eq_true_1 (NoDup (@nil NodeInfo))); vm_compute; reflexivity.
Qed.

Lemma sample_sweep_fair : fair [(node2, node1); (node3, node1)] [sample_sweep] sample_net.
Proof.
  split; [|split; [|done]].
  - split; [|split; [|done]]; (split; [intros ps x; simpl; apply subseteq_take|]); intros b Hb;
      vm_compute in Hb; apply list_elem_of_singleton in Hb as ->; eexists; vm_compute; reflexivity.
  - intros a b Hab. apply elem_of_cons in Hab as [[= -> ->]|Hab];
      [|apply list_elem_of_singleton in Hab as [= -> ->]; right]; left;
      (split; [done|]); vm_compute; left.
Qed.

Lemma membership_spreads_witness :
  (∀ a n k, k ≤ length [sample_sweep] → informed [(node2, node1); (node3, node1)] sample_net n k a →
    knows (rounds (mjoin [sample_sweep]) sample_net) a n) ∧
  (∀ a n, knows sample_net a n → knows (rounds (mjoin [sample_sweep]) sample_net) a n).
Proof.
  apply (membership_spreads [(node2, node1); (node3, node1)] [sample_sweep] sample_net);
    [exact sample_net_wf|exact sample_sweep_fair].
Defined.

(** In the sample the two nodes learn of each other. *)
Example sample_net_meets :
  knows (rounds sample_sweep sample_net) node2 node3 ∧ knows (rounds sample_sweep sample_net) node3 node2.
Proof. split; eexists _, _; (split; [vm_compute; reflexivity|]); vm_compute; repeat constructor. Qed.
End samples.
