(* ===== verification/Eviction.v ===== *)
(** * Forgetting a node that is gone

    What rounds of gossip do when some nodes do not answer, told of the abstract
    network, in which a node is the set of its members: when a dead node is forgotten
    by all, and how it can circulate for ever. *)
From S2P Require Import Prelude Async PyBase Types Ring Discovery PoolOps Gossip GossipSpec Membership.

(** ** The abstract network *)

Section abstract.
Abbreviation view := (gmap NodeInfo (gset NodeInfo)).
Implicit Types (v : view) (X Y : gset NodeInfo) (a b n p : NodeInfo).

(** [a], whose members are [X], contacts [p]: a dead peer is dropped, the members of a
    live one are added, except the two themselves. *)
Definition contact a v X p : gset NodeInfo :=
  match v !! p with
  | None => X ∖ {[p]}
  | Some Y => X ∪ Y ∖ {[a; p]}
  end.

Definition abs_round a (ps : list NodeInfo) v : view :=
  match v !! a with
  | None => v
  | Some X => <[a := foldl (contact a v) X ps]> v
  end.

Definition has_member v a n : Prop := ∃ X, v !! a = Some X ∧ n ∈ X.

Lemma contact_keeps a v X p n : n ∈ X → p ≠ n → n ∈ contact a v X p.
Proof. unfold contact. destruct (v !! p); set_solver. Qed.

Lemma contacts_keep a v X ps n : n ∈ X → n ∉ ps → n ∈ foldl (contact a v) X ps.
Proof.
  revert X. induction ps as [|p ps IH]; intros X HX Hn; [done|].
  apply IH; [apply contact_keeps; set_solver|set_solver].
Qed.

(** What is learnt was known to a peer. *)
Lemma contacts_source a v X ps n :
  n ∈ foldl (contact a v) X ps → n ∈ X ∨ ∃ p, p ∈ ps ∧ has_member v p n.
Proof.
  revert X. induction ps as [|p ps IH]; intros X; [by left|]. intros [Hn|(b & Hb & Hk)]%IH; [|set_solver].
  revert Hn. unfold contact. destruct (v !! p) as [Y|] eqn:Hp; [|set_solver].
  intros [?|[? _]%elem_of_difference]%elem_of_union; [by left|]. right. exists p. split; [left|by exists Y].
Qed.

(** A contact with a peer that knows [n] teaches it, if [n] is not contacted after it. *)
Lemma contacts_learn a b v X ps n :
  b ∈ ps → n ∉ ps → has_member v b n → n ≠ a → n ≠ b → n ∈ foldl (contact a v) X ps.
Proof.
  intros Hb Hn (Y & HY & HnY) Hna Hnb. apply list_elem_of_split in Hb as (l1 & l2 & ->).
  rewrite foldl_app. simpl. apply contacts_keep; [|set_solver].
  unfold contact at 1. rewrite HY. set_solver.
Qed.

Lemma abs_round_other a b ps v : b ≠ a → abs_round a ps v !! b = v !! b.
Proof. intros Hne. unfold abs_round. destruct (v !! a); [by rewrite lookup_insert_ne|done]. Qed.

Lemma abs_round_dom a ps v : dom (abs_round a ps v) = dom v.
Proof.
  unfold abs_round. destruct (v !! a) as [X|] eqn:Ha; [|done].
  apply dom_insert_lookup_L. by exists X.
Qed.

(** A round only spreads what somebody knows. *)
Lemma abs_round_source a ps v c n :
  has_member (abs_round a ps v) c n → has_member v c n ∨ (c = a ∧ ∃ p, p ∈ ps ∧ has_member v p n).
Proof.
  intros (X & HX & Hn). unfold abs_round in HX. destruct (v !! a) as [Y|] eqn:Ha; [|left; by exists X].
  destruct (decide (c = a)) as [->|Hne].
  - rewrite lookup_insert_eq in HX. injection HX as <-.
    destruct (contacts_source _ _ _ _ _ Hn) as [?|?]; [left; by exists Y|by right].
  - rewrite lookup_insert_ne in HX by done. left. by exists X.
Qed.

(** Whoever contacts a dead node last does not know it. *)
Lemma abs_round_drops a l n v : v !! n = None → ¬ has_member (abs_round a (l ++ [n]) v) a n.
Proof.
  intros Hn (X & HX & HnX). unfold abs_round in HX. destruct (v !! a) as [Y|] eqn:Ha; [|congruence].
  rewrite lookup_insert_eq in HX. injection HX as <-. rewrite foldl_app in HnX. simpl in HnX.
  unfold contact at 1 in HnX. rewrite Hn in HnX. set_solver.
Qed.

(** Whoever asks a peer that knows [n] after [n] itself still knows it. *)
Lemma abs_round_relearns a b l1 l2 n v :
  has_member v a n → has_member v b n → n ≠ a → n ≠ b → n ∉ l2 → (n ∈ l1 → b ∈ l2) →
  has_member (abs_round a (l1 ++ l2) v) a n.
Proof.
  intros (X & HX & Hn) Hb Hna Hnb Hl2 Hl1. unfold abs_round. rewrite HX.
  eexists. split; [apply lookup_insert_eq|]. rewrite foldl_app.
  destruct (decide (n ∈ l1)) as [Hin|Hnin].
  - by apply (contacts_learn a b); auto.
  - apply contacts_keep; [|done]. by apply contacts_keep.
Qed.
End abstract.

(** ** Refinement *)

Section eviction.
Context {R : Type} `{RingLaws R} `{Resolver}.
#[local] Existing Instances scripted_pool scripted_pool_laws.
Abbreviation net := (gmap NodeInfo (R * discovery)).
Abbreviation choice := (list NodeInfo → list NodeInfo).
Implicit Types (w : net) (a b n p : NodeInfo) (e : NodeInfo * choice).

Definition node_view (m : R * discovery) : gset NodeInfo := list_to_set (r_nodes m.1).

Definition view_of w : gmap NodeInfo (gset NodeInfo) := node_view <$> w.

Lemma lookup_view w a : view_of w !! a = node_view <$> w !! a.
Proof. apply lookup_fmap. Qed.

Lemma view_knows w a n : knows w a n ↔ has_member (view_of w) a n.
Proof.
  unfold knows, has_member. rewrite lookup_view. split.
  - intros (r & d & -> & Hn). eexists. split; [done|]. by apply elem_of_list_to_set.
  - intros (X & HX & Hn). destruct (w !! a) as [[r d]|]; [|done]. injection HX as <-.
    eexists _, _. split; [done|]. revert Hn. unfold node_view. by rewrite elem_of_list_to_set.
Qed.

(** A peer that does not answer is dropped. *)
Lemma exchange_dead a p (g : gossip_state R net) :
  gossip_wf g → g_pool g !! p = None →
  ∃ g', _gossip_with a p g = (Ok tt, g') ∧ gossip_wf g' ∧ g_pool g' = g_pool g ∧
    ∀ n, n ∈ members g' ↔ n ∈ members g ∧ n ≠ p.
Proof.
  intros Hg Hp.
  assert (po_execute (host p) (port p) (list_request a) (g_pool g) = (Ok None, g_pool g)) as Hex.
  { simpl. unfold net_execute. replace (mkNodeInfo (host p) (port p)) with p by by destruct p. by rewrite Hp. }
  destruct (gossip_with_returns a p g Hg) as (o & q & g' & Hex' & Hrun & Hg' & _ & Hcase).
  rewrite Hex in Hex'. injection Hex' as <- <-. destruct Hcase as (_ & Hmem & _). exists g'.
  split_and!; [done|done| |intros n; rewrite Hmem; naive_solver].
  revert Hrun. unfold _gossip_with, gossip_with_by, take_in, send_to, on_pool. unfold_M. rewrite Hex. simpl.
  by intros [= <-].
Qed.

Definition gossip_view (g : gossip_state R net) : gset NodeInfo := list_to_set (members g).

(** A sequence of exchanges is one of abstract contacts. *)
Lemma exchanges_view a ps (g : gossip_state R net) :
  gossip_wf g → a ∉ ps →
  ∃ g', for_each ps (_gossip_with a) g = (Ok tt, g') ∧ gossip_wf g' ∧ g_pool g' = g_pool g ∧
    gossip_view g' = foldl (contact a (view_of (g_pool g))) (gossip_view g) ps.
Proof.
  revert g. induction ps as [|p ps IH]; intros g Hg Ha; [by exists g|]. simpl. unfold_M.
  assert (∃ g1, _gossip_with a p g = (Ok tt, g1) ∧ gossip_wf g1 ∧ g_pool g1 = g_pool g ∧
    gossip_view g1 = contact a (view_of (g_pool g)) (gossip_view g) p) as (g1 & -> & Hg1 & Hp1 & Hv1).
  { unfold contact. rewrite lookup_view. destruct (g_pool g !! p) as [[r d]|] eqn:Hp; simpl.
    - destruct (exchange_live a p r d g) as (g1 & ? & ? & ? & Hm); [set_solver|done..|].
      exists g1. split_and!; [done..|]. apply set_eq. intros n. unfold gossip_view, node_view.
      rewrite elem_of_list_to_set, Hm. set_solver.
    - destruct (exchange_dead a p g) as (g1 & ? & ? & ? & Hm); [done..|].
      exists g1. split_and!; [done..|]. apply set_eq. intros n. unfold gossip_view.
      rewrite elem_of_list_to_set, Hm. set_solver. }
  destruct (IH g1 Hg1) as (g' & -> & ? & Hp' & Hv'); [set_solver|].
  exists g'. split_and!; [done|done|congruence|]. by rewrite Hv', Hp1, Hv1.
Qed.

(** [random.sample] draws from the list it is given. *)
Definition draws e : Prop := ∀ ps, e.2 ps ⊆ ps.

Lemma contacts_others e w : draws e → e.1 ∉ contacts e w.
Proof.
  intros Hd. unfold contacts. destruct (w !! e.1) as [[r d]|]; [|set_solver].
  destruct (get_peers d) as [listed|]; [|set_solver].
  destruct (filter _ listed) as [|p ps] eqn:Hf; [set_solver|]. intros Hin%Hd. rewrite <- Hf in Hin.
  by apply list_elem_of_filter in Hin as [? _].
Qed.

(** One round is an abstract one. *)
Lemma round_view e w :
  net_wf w → draws e →
  net_wf (round e w) ∧ view_of (round e w) = abs_round e.1 (contacts e w) (view_of w).
Proof.
  intros Hw Hd. pose proof (contacts_others e w Hd) as Hself. destruct e as [a ch].
  unfold abs_round. rewrite lookup_view. unfold round, contacts in *. simpl in *.
  destruct (w !! a) as [[r d]|] eqn:Ha; [|done]. destruct (Hw _ _ Ha) as [Hr Hdd].
  set (g := mkGossip r w d). assert (gossip_wf g) as Hg by by split. simpl.
  set (ps := match get_peers d with Ok _ => _ | Raise _ => _ end) in *.
  assert (∃ g', gossip_round a ch g = (Ok tt, g') ∧ gossip_wf g' ∧ g_pool g' = w ∧
    gossip_view g' = foldl (contact a (view_of w)) (gossip_view g) ps) as (g' & -> & [Hr' Hd' _] & Hp & Hv).
  { destruct (exchanges_view a ps g Hg Hself) as (g' & Hrun & ? & ? & ?).
    exists g'. split_and!; try done. revert Hrun. unfold gossip_round, gossip_round_by, ps. unfold_M. simpl.
    destruct (get_peers d) as [listed|]; [|done]. simpl.
    destruct (filter _ listed) as [|p l]; [done|]. by intros ->. }
  simpl. rewrite Hp. split; [by apply map_Forall_insert_2|].
  unfold view_of. rewrite fmap_insert. f_equal. exact Hv.
Qed.

(** ** When a dead node is forgotten *)

Lemma round_live e w b : net_wf w → draws e → round e w !! b = None ↔ w !! b = None.
Proof.
  intros Hw He. destruct (round_view e w Hw He) as [_ Hv].
  assert (∀ w, w !! b = None ↔ b ∉ dom (view_of w)) as Hdom.
  { intros w'. by rewrite not_elem_of_dom, lookup_view, fmap_None. }
  by rewrite !Hdom, Hv, abs_round_dom.
Qed.

Definition forgotten n w : Prop := ∀ a, ¬ knows w a n.

(** The round rids its node of [n]: it contacts [n] last, or neither it nor the peers
    it contacts know [n]. *)
Definition clears n e w : Prop :=
  (∃ l, contacts e w = l ++ [n]) ∨ (¬ knows w e.1 n ∧ ∀ b, b ∈ contacts e w → ¬ knows w b n).

Fixpoint all_clear n (es : list (NodeInfo * choice)) w : Prop :=
  match es with
  | [] => True
  | e :: es => clears n e w ∧ all_clear n es (round e w)
  end.

Lemma round_clears n e w a :
  net_wf w → draws e → w !! n = None → clears n e w →
  knows (round e w) a n → a ≠ e.1 ∧ knows w a n.
Proof.
  intros Hw He Hn Hc. destruct (round_view e w Hw He) as [_ Hv]. rewrite view_knows, Hv.
  destruct (decide (a = e.1)) as [->|Hne]; intros Hk.
  - exfalso. destruct Hc as [[l Hl]|[Hnk Hc]].
    + rewrite Hl in Hk. eapply abs_round_drops, Hk. by rewrite lookup_view, Hn.
    + apply abs_round_source in Hk as [?|(_ & p & Hp & ?)]; [by apply Hnk, view_knows|].
      by apply (Hc p), view_knows.
  - split; [done|]. apply view_knows. destruct Hk as (X & HX & HnX).
    rewrite abs_round_other in HX by done. by exists X.
Qed.

(** Rounds that rid every node that knows [n] of it. *)
Lemma dead_forgotten n es w :
  net_wf w → w !! n = None → Forall draws es → all_clear n es w →
  (∀ a, knows w a n → a ∈ es.*1) →
  net_wf (rounds es w) ∧ forgotten n (rounds es w).
Proof.
  intros Hw Hn Hes. revert w Hw Hn. induction Hes as [|e es He Hes IH]; intros w Hw Hn Hc Hall.
  { split; [done|]. intros a Ha. by apply Hall, elem_of_nil in Ha. }
  destruct Hc as [Hce Hc]. apply IH; [by apply round_view|by apply round_live|done|].
  intros a [Hne Ha]%round_clears; [|done..]. apply Hall in Ha. set_solver.
Qed.

(** ** When it never is *)

(** The round brings [n] back: after the last contact with [n], if any, it contacts [b]. *)
Definition recalls n b e w : Prop :=
  ∃ l1 l2, contacts e w = l1 ++ l2 ∧ (n ∉ l2) ∧ (n ∈ l1 → b ∈ l2).

Fixpoint all_recall n a b (es : list (NodeInfo * choice)) w : Prop :=
  match es with
  | [] => True
  | e :: es =>
      (e.1 = a → recalls n b e w) ∧ (e.1 = b → recalls n a e w) ∧ all_recall n a b es (round e w)
  end.

Lemma round_recalls n a b e w :
  net_wf w → draws e → n ≠ a → n ≠ b → knows w a n → knows w b n →
  (e.1 = a → recalls n b e w) → knows (round e w) a n.
Proof.
  intros Hw He Hna Hnb Ha Hb Hr. destruct (round_view e w Hw He) as [_ Hv].
  apply view_knows. rewrite Hv. apply view_knows in Ha, Hb. destruct (decide (e.1 = a)) as [<-|Hne].
  - destruct (Hr eq_refl) as (l1 & l2 & -> & Hl2 & Hl1). by apply (abs_round_relearns _ b).
  - destruct Ha as (X & HX & Hn). exists X. by rewrite abs_round_other.
Qed.

(** C19. A dead node need not be forgotten.  Two nodes that both know a third one, dead or
    alive, know it for ever, through any rounds in which each of them, whenever it
    contacts the third node, contacts the other afterwards: each drops the dead node and
    learns it again from the other, which still has it. *)
Theorem dead_peer_circulates n a b es w :
  net_wf w → Forall draws es → n ≠ a → n ≠ b → knows w a n → knows w b n →
  all_recall n a b es w → knows (rounds es w) a n ∧ knows (rounds es w) b n.
Proof.
  intros Hw Hes Hna Hnb. revert w Hw.
  induction Hes as [|e es He Hes IH]; intros w Hw Ha Hb; [done|]. intros (Hra & Hrb & Hr).
  simpl. apply IH; [by apply round_view|by apply (round_recalls n a b)|by apply (round_recalls n b a)|done].
Qed.
End eviction.

(** ** A sample: two nodes that know each other and a third one, which is gone *)
Section samples.
#[local] Existing Instance no_resolver.

Definition orphaned : gmap NodeInfo (ring * discovery) :=
  {[ node1 := ([node1; node2; node3], GossipDiscovery (mkGossipDiscovery node2 [node3]));
     node2 := ([node1; node2; node3], GossipDiscovery (mkGossipDiscovery node1 [node3])) ]}.

Lemma orphaned_wf : net_wf orphaned.
Proof.
  apply map_Forall_insert_2; [|apply map_Forall_singleton];
    (split; [apply (bool_decide_eq_true_1 (NoDup _)); vm_compute; reflexivity|]);
    apply (bool_decide_eq_true_1 (NoDup [node3])); vm_compute; reflexivity.
Qed.

(** Each node contacts the dead one last, or first. *)
Definition dead_last : list (NodeInfo * (list NodeInfo → list NodeInfo)) :=
  [(node1, reverse); (node2, reverse)].

Definition dead_first : list (NodeInfo * (list NodeInfo → list NodeInfo)) :=
  [(node1, id); (node2, id)].

Lemma dead_first_draws : Forall draws dead_first.
Proof. do 2 (apply Forall_cons; split; [by intros ps x|]). apply Forall_nil_2. Qed.

Lemma dead_last_draws : Forall draws dead_last.
Proof.
  do 2 (apply Forall_cons; split; [intros ps x; simpl; by rewrite elem_of_reverse|]).
  apply Forall_nil_2.
Qed.

Lemma orphaned_knows a : a = node1 ∨ a = node2 → knows orphaned a node3.
Proof. intros [-> | ->]; eexists _, _; (split; [vm_compute; reflexivity|]); vm_compute; repeat constructor. Qed.

(** Contacted first, the dead node stays where it is. *)
Lemma dead_first_round : round (node1, id) orphaned = orphaned ∧ round (node2, id) orphaned = orphaned.
Proof. split; vm_cast_no_check (eq_refl orphaned). Qed.

Lemma dead_first_steady k : rounds (mjoin (replicate k dead_first)) orphaned = orphaned.
Proof.
  destruct dead_first_round as [H1 H2].
  induction k as [|k IH]; [done|]. simpl replicate. cbn [mjoin list_join]. rewrite rounds_app.
  unfold dead_first at 2. cbn [rounds foldl]. by rewrite H1, H2.
Qed.

(** Each of the two, having lost the dead node, learns it again from the other. *)
Lemma dead_first_recalls es :
  all_recall node3 node1 node2 es orphaned → all_recall node3 node1 node2 (dead_first ++ es) orphaned.
Proof.
  intros Hes. destruct dead_first_round as [H1 H2]. cbn [app dead_first all_recall]. rewrite H1, H2.
  assert (recalls node3 node2 (node1, id) orphaned) as Hr1.
  { exists [node3], [node2]. split_and!; [vm_compute; reflexivity|by intros [=]%list_elem_of_singleton|left]. }
  assert (recalls node3 node1 (node2, id) orphaned) as Hr2.
  { exists [node3], [node1]. split_and!; [vm_compute; reflexivity|by intros [=]%list_elem_of_singleton|left]. }
  by split_and!.
Qed.

Lemma dead_peer_circulates_witness :
  let es := mjoin (replicate 3 dead_first) in
  knows (rounds es orphaned) node1 node3 ∧ knows (rounds es orphaned) node2 node3.
Proof.
  apply (dead_peer_circulates node3 node1 node2 (mjoin (replicate 3 dead_first)) orphaned).
  - exact orphaned_wf.
  - repeat (apply Forall_app_2; [exact dead_first_draws|]). apply Forall_nil_2.
  - by vm_compute.
  - by vm_compute.
  - apply orphaned_knows. by left.
  - apply orphaned_knows. by right.
  - repeat apply dead_first_recalls. done.
Defined.
End samples.
