(* ===== verification/Node.v ===== *)
(** * Storage nodes ([dlstorage/node/sync.py], [async_.py], [interface.py])

    [StorageNode] and [AsyncStorageNode] over any ring and any pool: the replica
    handles, the public operations, the life cycle, and the server side.  A node
    owns a last-write-wins store and shares ring, pool and discovery with its
    gossip; the clock readings of a call are its [clock] argument. *)
From S2P Require Import Prelude Async PyBase Bytes PyDict Types Store LwwStore Ring Dispatcher.
From S2P Require Import Wire PoolOps Consistency Discovery Gossip.

(** The object's state: [n_listening] tells that [_server_sock] is bound and open,
    [n_stopped] is [_stop]. *)
Record node_state (R P : Type) := mkNode {
  n_gossip : gossip_state R P;
  n_store : lww_store;
  n_listening : bool;
  n_stopped : bool;
}.
Arguments mkNode {R P} _ _ _ _.
Arguments n_gossip {R P} _.
Arguments n_store {R P} _.
Arguments n_listening {R P} _.
Arguments n_stopped {R P} _.

(** [advertise_host or socket.gethostbyname(socket.gethostname())]. *)
Definition node_info (advertise_host : option string) (own_host : string) (prt : Z) : NodeInfo :=
  match advertise_host with
  | None | Some EmptyString => mkNodeInfo own_host prt
  | Some h => mkNodeInfo h prt
  end.

Section node.
Context {R P : Type} `{Ring R} `{PoolOps P} (info : NodeInfo).
Abbreviation N := (node_state R P).

(** [__init__]: an empty store around the given ring, pool and discovery. *)
Definition node_init (ring : R) (pool : P) (disc : discovery) : N :=
  mkNode (mkGossip ring pool disc) [] false false.

(** All of it, [own_host] being the machine's own address: the node's name and its state. *)
Definition node_new (advertise_host : option string) (own_host : string) (prt : Z) (ring : R) (pool : P)
    (disc : discovery) : NodeInfo * N :=
  (node_info advertise_host own_host prt, node_init ring pool disc).

(** [AsyncStorageNode] differs in the classes of its default pool and resolver only. *)
Definition node_new_async (advertise_host : option string) (own_host : string) (prt : Z) (ring : R) (pool : P)
    (disc : discovery) : NodeInfo * N :=
  (node_info advertise_host own_host prt, node_init ring pool disc).

Definition on_gossip {A} (m : M (gossip_state R P) A) : M N A :=
  zoom n_gossip (λ g s, mkNode g (n_store s) (n_listening s) (n_stopped s)) m.

Definition on_store {A} (m : M lww_store A) : M N A :=
  zoom n_store (λ d s, mkNode (n_gossip s) d (n_listening s) (n_stopped s)) m.

(** ** Replica handles *)

(** [_SyncLocalHandle]. *)
Definition local_handle (c : clock) : ReplicaHandle N := {|
  h_get_versioned key := on_store (lww_get_versioned c key);
  h_set key value ttl ts := on_store (lww_set c key value ttl (Some ts));
  h_delete key ts := on_store (lww_delete c key (Some ts));
|}.

(** [payload.get(field, default)]. *)
Definition payload_get_or {A} (field : payload → option A) (default : A) (msg : Message) : result A :=
  o ← payload_get field msg;
  mret (match o with Some a => a | None => default end).

(** The response to a GET as [(value, ts, is_tombstone)]. *)
Definition decode_get (resp : option Message) : result (option versioned) :=
  match resp with
  | None => mret None
  | Some resp =>
      match m_type resp with
      | OK =>
          value ← payload_get_or p_value VNone resp;
          ts ← payload_get_or p_ts 0%Z resp;
          mret (Some (value, ts, false))
      | NOT_FOUND =>
          ts ← payload_get_or p_ts 0%Z resp;
          is_tombstone ← payload_get_or p_tombstone false resp;
          mret (if bool_decide (ts > 0)%Z then Some (VNone, ts, is_tombstone) else None)
      | _ => mret None
      end
  end.

(** [resp is not None and resp.type == MessageType.OK]. *)
Definition accepted (resp : option Message) : bool :=
  match resp with Some resp => bool_decide (m_type resp = OK) | None => false end.

Definition remote_execute (n : NodeInfo) (msg : Message) : M N (option Message) :=
  on_gossip (on_pool (po_execute (host n) (port n) msg)).

(** [_SyncRemoteHandle]. *)
Definition remote_handle (n : NodeInfo) : ReplicaHandle N := {|
  h_get_versioned key :=
    resp ← remote_execute n (get_request key);
    lift_result (decode_get resp);
  h_set key value ttl ts :=
    resp ← remote_execute n (set_request key value ttl ts);
    mret (accepted resp);
  h_delete key ts :=
    resp ← remote_execute n (delete_request key ts);
    mret (accepted resp);
|}.

(** [_AsyncLocalHandle] and [_AsyncRemoteHandle]: the same, the request being
    awaited. *)
Definition async_local_handle (c : clock) : ReplicaHandle N := local_handle c.
Definition async_remote_handle (n : NodeInfo) : ReplicaHandle N := remote_handle n.

(** The handles' own [get], which hides tombstones. *)
Definition handle_get (h : ReplicaHandle N) (key : string) : M N pyval :=
  result ← h_get_versioned h key;
  mret (match result with
        | None => VNone
        | Some (value, _, is_tombstone) => if is_tombstone : bool then VNone else value
        end).

Definition make_handle (c : clock) (n : NodeInfo) : ReplicaHandle N :=
  if decide (n = info) then local_handle c else remote_handle n.

Definition _make_handles (c : clock) (nodes : list NodeInfo) : list (ReplicaHandle N) :=
  make_handle c <$> nodes.

Definition _make_handles_async (c : clock) (nodes : list NodeInfo) : list (ReplicaHandle N) :=
  (λ n, if decide (n = info) then async_local_handle c else async_remote_handle n) <$> nodes.

(** ** The public operations *)
Section api.
Context (replication : Z).

(** The replicas of a key, most preferred first. *)
Definition replicas (key : string) (s : N) : list NodeInfo :=
  r_get_nodes (g_ring (n_gossip s)) key replication.

(** [get], for the merge resolver of the node. *)
Definition node_get (read_resolve : MergeResolver N)
    (c : clock) (key : string) : M N pyval :=
  s ← get_state;
  match replicas key s with
  | [] => on_store (lww_get c key)
  | candidates => read_resolve key (_make_handles c candidates)
  end.

Definition node_set (c : clock) (key : string) (value : pyval) (ttl : option Float.t) : M N bool :=
  s ← get_state;
  let ts := time_ns c in
  match replicas key s with
  | [] => on_store (lww_set c key value ttl (Some ts)) ;; mret true
  | nodes =>
      results ← map_each (_make_handles c nodes) (λ h, h_set h key value ttl ts);
      mret (existsb id results)
  end.

Definition node_delete (c : clock) (key : string) : M N bool :=
  s ← get_state;
  let ts := time_ns c in
  match replicas key s with
  | [] => on_store (lww_delete c key (Some ts)) ;; mret true
  | nodes =>
      results ← map_each (_make_handles c nodes) (λ h, h_delete h key ts);
      mret (existsb id results)
  end.

(** [any(r is True for r in results)]. *)
Definition any_true (results : list (result bool)) : bool :=
  existsb (λ r, match r with Ok b => b | Raise _ => false end) results.

(** The asynchronous [get]; the resolver is asynchronous. *)
Definition node_get_async (read_resolve : AsyncMergeResolver N)
    (c : clock) (key : string) : M N pyval :=
  s ← get_state;
  match replicas key s with
  | [] => on_store (lww_get c key)
  | candidates => read_resolve key (_make_handles_async c candidates)
  end.

(** The asynchronous [set] and [delete], for the order in which the concurrent
    writes take effect. *)
Definition node_set_async (order : list nat) (c : clock) (key : string) (value : pyval)
    (ttl : option Float.t) : M N bool :=
  s ← get_state;
  let ts := time_ns c in
  match replicas key s with
  | [] => on_store (lww_set c key value ttl (Some ts)) ;; mret true
  | nodes =>
      results ← gather order ((λ h, h_set h key value ttl ts) <$> _make_handles_async c nodes);
      mret (any_true results)
  end.

Definition node_delete_async (order : list nat) (c : clock) (key : string) : M N bool :=
  s ← get_state;
  let ts := time_ns c in
  match replicas key s with
  | [] => on_store (lww_delete c key (Some ts)) ;; mret true
  | nodes =>
      results ← gather order ((λ h, h_delete h key ts) <$> _make_handles_async c nodes);
      mret (any_true results)
  end.
End api.

(** ** Life cycle *)

Definition _bootstrap `{Resolver} : M N unit :=
  s ← get_state;
  peers ← lift_result (get_peers (g_disc (n_gossip s)));
  for_each peers (λ peer, on_gossip (modify (λ g, set_members (r_add peer (g_ring g)) (g_disc g) g))).

(** The asynchronous node awaits nothing while it does so. *)
Definition _bootstrap_async `{Resolver} : M N unit := _bootstrap.

(** Binding the listening socket, with the outcome of [bind]. *)
Definition open_server (bind : result unit) : M N unit :=
  lift_result bind ;;
  modify (λ s, mkNode (n_gossip s) (n_store s) true (n_stopped s)).

(** [start], with the announcement that ends it. *)
Definition node_start `{Resolver} (bind : result unit) (announce : M (gossip_state R P) unit) :
    M N unit :=
  _bootstrap ;;
  on_gossip (modify (λ g, set_members (r_add info (g_ring g)) (g_disc g) g)) ;;
  open_server bind ;;
  on_gossip announce.

(** The asynchronous [start], the announcement in the given order of effects. *)
Definition node_start_async `{Resolver} (bind : result unit) (order : list nat) : M N unit :=
  node_start bind (announce_join_async info order).

(** [stop]: the flag is set and the server socket closed, then the pool.  The threads are waited for in between, three
    seconds each: the accept and purge loops find the flag, the gossip loop never looks at it and goes on, and handler
    threads, which are not waited for, end with their connections. *)
Definition node_stop (announce : M (gossip_state R P) unit) : M N unit :=
  on_gossip announce ;;
  modify (λ s, mkNode (n_gossip s) (n_store s) false true) ;;
  on_gossip (on_pool po_close_all).

(** The asynchronous [stop]: tasks and handlers are cancelled before the pool closes, where the synchronous one sets the
    flag. *)
Definition node_stop_async (order : list nat) : M N unit :=
  node_stop (announce_leave_async info order).

(** *** [with StorageNode(...) as node: body] *)

(** [__enter__] and [__exit__], which lets exceptions pass. *)
Definition node_enter `{Resolver} (bind : result unit) : M N unit := node_start bind (announce_join info).
Definition node_exit : M N unit := node_stop (announce_leave info).

(** [__aenter__] and [__aexit__]. *)
Definition node_aenter `{Resolver} (bind : result unit) (order : list nat) : M N unit := node_start_async bind order.
Definition node_aexit (order : list nat) : M N unit := node_stop_async order.

(** The block, and [exit] however it ends; an exception of [exit] replaces that of the block. *)
Definition then_exit {A} (exit : M N unit) (body : M N A) : M N A := λ s,
  let '(r, s) := body s in
  match exit s with
  | (Ok _, s) => (r, s)
  | (Raise e, s) => (Raise e, s)
  end.

Definition with_statement {A} (enter exit : M N unit) (body : M N A) : M N A := enter ;; then_exit exit body.

Definition with_node `{Resolver} {A} (bind : result unit) (body : M N A) : M N A :=
  with_statement (node_enter bind) node_exit body.

Definition with_node_async `{Resolver} {A} (bind : result unit) (order order' : list nat) (body : M N A) : M N A :=
  with_statement (node_aenter bind order) (node_aexit order') body.

(** [repr(node)], whose keys are those alive at the reading of the clock. *)
Definition node_repr (cls : string) (c : clock) : M N string :=
  s ← get_state;
  keys ← on_store (lww_len c);
  mret (cls +:+ "(" +:+ address info +:+ ", peers=" +:+
    Int.to_str (Z.of_nat (r_len (g_ring (n_gossip s))) - 1) +:+ ", keys=" +:+ Int.to_str (Z.of_nat keys) +:+ ")").

Definition sync_node_repr : clock → M N string := node_repr "SyncStorageNode".
Definition async_node_repr : clock → M N string := node_repr "StorageNode".

(** ** Serving *)

(** The response to a message. *)
Definition answer (c : clock) (msg : Message) : M N Message :=
  if is_gossip (m_type msg) then on_gossip (handle_message info msg)
  else on_store (dispatch c msg).

Section serving.
Context `{Pickle}.

(** One iteration of [_handle_client] with the receiver and the sender given. *)
Definition serve_one (recv : M sock Message) (send : Message → M sock unit) (c : clock) :
    M (N * sock) unit :=
  msg ← zoom snd (λ k s, (s.1, k)) recv;
  response ← zoom fst (λ n s, (n, s.2)) (answer c msg);
  zoom snd (λ k s, (s.1, k)) (send response).

(** The loop, which only an exception ends; [None] when the fuel runs out.  The
    clock readings of the requests are [clocks], one per iteration. *)
Fixpoint serve (recv : M sock Message) (send : Message → M sock unit) (clocks : list clock) :
    M (N * sock) (option exn) :=
  match clocks with
  | [] => mret None
  | c :: clocks => λ s,
      match serve_one recv send c s with
      | (Ok tt, s') => serve recv send clocks s'
      | (Raise e, s') => (Ok (Some e), s')
      end
  end.

(** The handler: every exception ends it quietly and the socket is closed; the
    result tells whether it has been, [false] meaning that it is still serving. *)
Definition handler (recv : M sock Message) (send : Message → M sock unit) (clocks : list clock) :
    M (N * sock) bool :=
  ended ← serve recv send clocks;
  mret (match ended with Some _ => true | None => false end).

Definition _handle_client : list clock → M (N * sock) bool := handler recv_message send_message.
Definition _handle_client_async : list clock → M (N * sock) bool :=
  handler recv_message_async send_message_async.
End serving.

(** The outcomes of [accept] in [_accept_loop]. *)
Inductive accept_event := Accepted (k : sock) | AcceptTimeout | AcceptError.

(** The sockets handed to handler threads: the loop stops on the flag, read before
    each [accept], or on an error, and ignores time-outs. *)
Fixpoint _accept_loop (rounds : list (bool * accept_event)) : list sock :=
  match rounds with
  | [] => []
  | (stopped, ev) :: rounds =>
      if stopped : bool then [] else
      match ev with
      | Accepted k => k :: _accept_loop rounds
      | AcceptTimeout => _accept_loop rounds
      | AcceptError => []
      end
  end.

(** [_purge_loop], for what each wait reports: the flag, or a time-out at the
    given clock. *)
Fixpoint _purge_loop (waits : list (option clock)) : M N unit :=
  match waits with
  | [] => mret tt
  | None :: _ => mret tt
  | Some c :: waits => on_store (lww_purge_expired c) ;; _purge_loop waits
  end.

(** The asynchronous loop, cancelled while it sleeps instead of flagged. *)
Definition _purge_loop_async (waits : list (option clock)) : M N unit := _purge_loop waits.
End node.
