(* ===== verification/NodeSpec.v ===== *)
(** * What a node guarantees

    The server loop answers the requests of a connection in order and always
    ends; starting and stopping; the synchronous and the asynchronous operations
    agree when the pool keeps its peers apart. *)
From S2P Require Import Prelude Async PyBase Bytes PyDict Types Store LwwStore Ring Dispatcher.
From S2P Require Import Wire PoolOps Consistency Discovery Gossip GossipSpec Node.

(** ** Serving a connection *)
Section serving.
Context {R P : Type} `{Ring R} `{PoolOps P} (info : NodeInfo) `{PickleLaws}.
Abbreviation N := (node_state R P).
Abbreviation served := (serve info recv_message send_message).
Implicit Types (n : N) (k : sock) (c : clock).

(** The replies to a sequence of requests, each with the clock of its moment. *)
Definition answers (requests : list (clock * Message)) : M N (list Message) :=
  map_each requests (λ q, answer info q.1 q.2).

Lemma send_message_frame msg fr k :
  frame msg = Ok fr → s_fault k = None →
  send_message msg k = (Ok tt, set_out (s_out k ++ fr) k).
Proof. intros Hf Hk. unfold send_message, sendall. unfold_M. by rewrite Hf, Hk. Qed.

(** Requests that can be answered are, and the loop goes on with what follows. *)
Lemma serve_app cs msgs frames rest more n n' k replies out :
  length cs = length msgs → mapM frame msgs = Ok frames →
  rx_bytes (s_in k) = Some (concat frames ++ rest) → s_fault k = None →
  answers (zip cs msgs) n = (Ok replies, n') → mapM frame replies = Ok out →
  ∃ i', served (cs ++ more) (n, k) = served more (n', mkSock i' (s_out k ++ concat out) None) ∧
    rx_bytes i' = Some rest.
Proof.
  revert cs frames n k replies out.
  induction msgs as [|msg msgs IH]; intros [|c cs] frames n k replies out Hlen Hf Hi Hk Ha Ho;
    try done.
  { injection Hf as <-. injection Ha as <- <-. injection Ho as <-. exists (s_in k).
    rewrite app_nil_r. split; [|done]. destruct k as [i o f]. simpl in *. by subst. }
  simpl in Hf. destruct (frame msg) as [fr|] eqn:Hfr; simpl in Hf; [|done].
  destruct (mapM frame msgs) as [frs|] eqn:Hfrs; simpl in Hf; [|done]. injection Hf as <-.
  simpl in Hi. rewrite <- app_assoc in Hi.
  destruct (recv_message_frame msg fr _ _ k Hfr eq_refl Hi) as (i1 & Hr1 & Hi1).
  unfold answers in Ha. simpl in Ha. unfold_M.
  destruct (answer info c msg n) as [[reply|] n1] eqn:Hans; [|done].
  destruct (map_each (zip cs msgs) _ n1) as [[replies'|] n2] eqn:Hans'; [|done].
  injection Ha as <- <-. simpl in Ho.
  destruct (frame reply) as [fo|] eqn:Hfo; simpl in Ho; [|done].
  destruct (mapM frame replies') as [out'|] eqn:Ho'; simpl in Ho; [|done]. injection Ho as <-.
  set (k1 := mkSock i1 (s_out k ++ fo) None).
  destruct (IH cs frs n1 k1 replies' out') as (i2 & Hs & Hi2); try done; [by injection Hlen|].
  exists i2. split; [|done]. cbn [app serve].
  assert (serve_one info recv_message send_message c (n, k) = (Ok tt, (n1, k1))) as ->.
  { unfold serve_one. unfold_M. simpl. rewrite Hr1. simpl. rewrite Hans. simpl.
    rewrite (send_message_frame reply fo) by done. simpl. unfold set_out, k1. simpl. by rewrite Hk. }
  rewrite Hs. simpl. by rewrite <- app_assoc.
Qed.

Lemma recv_message_end k : rx_bytes (s_in k) = Some [] → (recv_message k).1 = Raise EOFError.
Proof.
  intros Hi. unfold recv_message. unfold_M. rewrite recvexactly_readexactly. unfold readexactly.
  by erewrite read_rx_short; [|exact Hi|unfold HEADER_SIZE; simpl; lia].
Qed.

(** ** The loop ends *)

(** The bytes a connection still delivers. *)
Fixpoint rx_count (i : list rx) : nat :=
  match i with
  | [] => 0
  | Data _ bs :: i => S (length bs) + rx_count i
  | Err _ :: i => rx_count i
  end.

Lemma rx_count_unread bs i : rx_count (unread bs i) = length bs + rx_count i.
Proof. by destruct bs. Qed.

Lemma read_rx_count (m : nat) acc i bs i' :
  read_rx m acc i = (Ok bs, i') → rx_count i = m + rx_count i'.
Proof.
  revert m acc. induction i as [|[b p|e] i IH]; intros m acc Hr; destruct m as [|m]; simpl in Hr;
    simplify_eq; try done.
  case_bool_decide; [apply IH in Hr; simpl; lia|]. simplify_eq.
  rewrite rx_count_unread, length_drop. simpl. lia.
Qed.

Lemma recv_message_count k msg k' :
  recv_message k = (Ok msg, k') → HEADER_SIZE + rx_count (s_in k') ≤ rx_count (s_in k).
Proof.
  unfold recv_message. unfold_M. rewrite recvexactly_readexactly. unfold readexactly.
  destruct (read_rx HEADER_SIZE [] (s_in k)) as [[hd|] i1] eqn:Hr1; [|done].
  rewrite recvexactly_readexactly. unfold readexactly. simpl s_in.
  destruct (read_rx _ [] i1) as [[bs|] i2] eqn:Hr2; [|done]. intros [= _ <-]. simpl.
  apply read_rx_count in Hr1, Hr2. unfold HEADER_SIZE in *. lia.
Qed.

Lemma send_message_in msg k : s_in (send_message msg k).2 = s_in k.
Proof.
  unfold send_message, sendall. unfold_M. destruct (frame msg); [|done].
  by destruct (s_fault k) as [[? ?]|].
Qed.

Lemma serve_one_count c s s' :
  serve_one info recv_message send_message c s = (Ok tt, s') →
  HEADER_SIZE + rx_count (s_in s'.2) ≤ rx_count (s_in s.2).
Proof.
  unfold serve_one. unfold_M. destruct (recv_message s.2) as [[msg|] k1] eqn:Hr1; [|done]. simpl.
  destruct (answer info c msg s.1) as [[reply|] n1]; [|done]. simpl.
  pose proof (send_message_in reply k1) as Hin.
  destruct (send_message reply k1) as [[[]|] k2]; [|done]. intros [= <-].
  simpl in *. rewrite Hin. by eapply recv_message_count.
Qed.

Lemma serve_ends cs s :
  rx_count (s_in s.2) < HEADER_SIZE * length cs → ∃ e s', served cs s = (Ok (Some e), s').
Proof.
  revert s. induction cs as [|c cs IH]; intros s Hlt; simpl in Hlt; [lia|]. simpl.
  destruct (serve_one info recv_message send_message c s) as [[[]|e] s1] eqn:Hr1; [|by eexists _, _].
  apply serve_one_count in Hr1. apply IH. unfold HEADER_SIZE in *. lia.
Qed.

Lemma serve_async_eq cs s :
  serve info recv_message_async send_message_async cs s = served cs s.
Proof.
  revert s. induction cs as [|c cs IH]; intros s; [done|]. simpl.
  assert (serve_one info recv_message_async send_message_async c s =
    serve_one info recv_message send_message c s) as ->.
  { unfold serve_one. unfold_M. rewrite recv_message_async_eq.
    destruct (recv_message s.2) as [[msg|] k1]; [|done].
    destruct (answer _ _ _ _) as [[reply|] n1]; [|done]. by rewrite send_message_async_eq. }
  by destruct (serve_one _ _ _ _ _) as [[[]|e] s1].
Qed.

(** C22. The server answers in order, whatever the chunks: when a client has sent
    some requests, however the network cuts them up, the handler answers each
    from the state its predecessors left; when the client then closes, the
    handler closes the connection having sent exactly the replies, which a
    client reads back as they were; when a request comes that raises, the
    replies to those before it are still sent, and what follows is never read. *)
Theorem handle_client_serves cs msgs frames rest n n' k replies out :
  length cs = length msgs → mapM frame msgs = Ok frames →
  rx_bytes (s_in k) = Some (concat frames ++ rest) → s_fault k = None → s_out k = [] →
  answers (zip cs msgs) n = (Ok replies, n') → mapM frame replies = Ok out →
  (rest = [] → ∀ c more, ∃ k',
     _handle_client info (cs ++ c :: more) (n, k) = (Ok true, (n', k')) ∧ s_out k' = concat out ∧
     ∀ rx, rx_bytes (s_in rx) = Some (s_out k') → ∃ i',
       map_each replies (λ _, recv_message) rx = (Ok replies, set_in i' rx)) ∧
  (∀ bad fr after c more e n'', rest = fr ++ after → frame bad = Ok fr →
     answer info c bad n' = (Raise e, n'') →
     ∃ k', _handle_client info (cs ++ c :: more) (n, k) = (Ok true, (n'', k')) ∧
       s_out k' = concat out ∧ rx_bytes (s_in k') = Some after).
Proof.
  intros Hlen Hf Hi Hk Ho Ha Hout.
  assert (∀ more, ∃ i', served (cs ++ more) (n, k) = served more (n', mkSock i' (concat out) None) ∧
    rx_bytes i' = Some rest) as Hserve.
  { intros more. destruct (serve_app cs msgs frames rest more n n' k replies out) as (i' & ? & ?);
      try done. exists i'. by rewrite <- (app_nil_l (concat out)), <- Ho. }
  unfold _handle_client, handler. unfold_M. split.
  - intros -> c more. destruct (Hserve (c :: more)) as (i' & -> & Hi'). simpl.
    unfold serve_one. unfold_M. simpl.
    pose proof (recv_message_end (mkSock i' (concat out) None) Hi') as Hend.
    destruct (recv_message (mkSock i' (concat out) None)) as [r k'] eqn:Hr. simpl in Hend. subst r.
    assert (s_out k' = concat out) as Hk'.
    { unfold recv_message in Hr. unfold_M. rewrite recvexactly_readexactly in Hr.
      unfold readexactly in Hr.
      erewrite read_rx_short in Hr; [|exact Hi'|unfold HEADER_SIZE; simpl; lia].
      by injection Hr as <-. }
    eexists. split; [done|]. split; [done|]. intros rx Hrx. simpl in Hrx. rewrite Hk' in Hrx.
    destruct (recv_messages_frames replies out [] rx Hout) as (i2 & Hr2 & _); [|by exists i2].
    by rewrite app_nil_r.
  - intros bad fr after c more e n'' -> Hfr Hbad.
    destruct (Hserve (c :: more)) as (i' & -> & Hi'). simpl. unfold serve_one. unfold_M. simpl.
    destruct (recv_message_frame bad fr after _ (mkSock i' (concat out) None) Hfr eq_refl Hi')
      as (i2 & -> & Hi2). simpl. rewrite Hbad. by eexists.
Qed.

(** C29. Serving a connection terminates: whatever bytes arrive, in whatever pieces
    and with whatever errors, the handler ends and closes the connection after
    fewer iterations than a quarter of the bytes received, plus one; the
    asynchronous handler does exactly the same. *)
Theorem handle_client_ends cs s :
  rx_count (s_in s.2) < HEADER_SIZE * length cs →
  (∃ s', _handle_client info cs s = (Ok true, s')) ∧
  _handle_client_async info cs s = _handle_client info cs s.
Proof.
  intros Hlt. unfold _handle_client_async, _handle_client, handler. unfold_M.
  rewrite serve_async_eq. split; [|done].
  destruct (serve_ends cs s Hlt) as (e & s' & ->). by eexists.
Qed.
End serving.

(** ** Starting and stopping *)
Section enrolment.
Context {R P : Type} `{RingLaws R} `{PoolOpsLaws P} (info : NodeInfo) `{Resolver}.
Abbreviation N := (node_state R P).
Implicit Types (s : N) (n : NodeInfo).

Definition node_wf s : Prop := gossip_wf (n_gossip s) ∧ dict_wf (n_store s).

(** Adding nodes to the ring. *)
Definition enrol (n : NodeInfo) : M N unit :=
  on_gossip (modify (λ g, set_members (r_add n (g_ring g)) (g_disc g) g)).

Lemma enrol_all_run ns s :
  node_wf s → ∃ s', for_each ns enrol s = (Ok tt, s') ∧ node_wf s' ∧
    (∀ n, n ∈ members (n_gossip s') ↔ n ∈ ns ∨ n ∈ members (n_gossip s)) ∧
    (g_disc (n_gossip s'), g_pool (n_gossip s'), n_store s', n_listening s', n_stopped s') =
    (g_disc (n_gossip s), g_pool (n_gossip s), n_store s, n_listening s, n_stopped s).
Proof.
  revert s. induction ns as [|m ns IH]; intros s Hs.
  { exists s. split_and!; try done; [apply Hs..|set_solver]. }
  simpl. unfold_M. unfold enrol at 1, on_gossip. unfold_M. simpl.
  set (s1 := mkNode _ _ _ _).
  assert (node_wf s1) as Hs1.
  { destruct Hs as [[Hr Hd Hp] Hst]. split; [|done]. split; simpl; auto using r_add_wf. }
  destruct (IH s1 Hs1) as (s2 & -> & Hs2 & Hm & Hrest). exists s2. split; [done|].
  split; [done|]. split; [|done]. intros n. rewrite Hm. unfold members. simpl.
  rewrite r_add_nodes. set_solver.
Qed.

Lemma bootstrap_raise e s :
  get_peers (g_disc (n_gossip s)) = Raise e → _bootstrap s = (Raise e, s).
Proof. intros Hget. unfold _bootstrap. unfold_M. by rewrite Hget. Qed.

Lemma bootstrap_run peers s :
  get_peers (g_disc (n_gossip s)) = Ok peers → node_wf s →
  ∃ s', _bootstrap s = (Ok tt, s') ∧ node_wf s' ∧
    (∀ n, n ∈ members (n_gossip s') ↔ n ∈ peers ∨ n ∈ members (n_gossip s)) ∧
    (g_disc (n_gossip s'), g_pool (n_gossip s'), n_store s', n_listening s', n_stopped s') =
    (g_disc (n_gossip s), g_pool (n_gossip s), n_store s, n_listening s, n_stopped s).
Proof.
  intros Hget Hs. destruct (enrol_all_run peers s Hs) as (s' & Hrun & Hrest).
  exists s'. split; [|done]. rewrite <- Hrun. unfold _bootstrap. unfold_M. by rewrite Hget.
Qed.

(** Up to the announcement. *)
Lemma start_run peers s :
  get_peers (g_disc (n_gossip s)) = Ok peers → node_wf s →
  ∃ s', (∀ e ann, node_start info (Raise e) ann s = (Raise e, s')) ∧ node_wf s' ∧
    (∀ n, n ∈ members (n_gossip s') ↔ n = info ∨ n ∈ peers ∨ n ∈ members (n_gossip s)) ∧
    (g_disc (n_gossip s'), g_pool (n_gossip s'), n_store s', n_listening s', n_stopped s') =
    (g_disc (n_gossip s), g_pool (n_gossip s), n_store s, n_listening s, n_stopped s) ∧
    ∀ ann, node_start info (Ok tt) ann s =
      on_gossip ann (mkNode (n_gossip s') (n_store s') true (n_stopped s')).
Proof.
  intros Hget Hs.
  destruct (bootstrap_run peers s Hget Hs) as (s1 & Hrun & Hs1 & Hm1 & Hrest1).
  destruct (enrol_all_run [info] s1 Hs1) as (s2 & Hrun2 & Hs2 & Hm2 & Hrest2).
  assert (enrol info s1 = (Ok tt, s2)) as Henrol by exact Hrun2.
  exists s2. unfold node_start. split_and!.
  - intros e ann. step_M Hrun. by step_M Henrol.
  - done.
  - intros n. rewrite Hm2, Hm1. set_solver.
  - congruence.
  - intros ann. step_M Hrun. by step_M Henrol.
Qed.

End enrolment.

Section lifecycle.
Context {R P : Type} `{RingLaws R} `{PoolOpsLaws P} (info : NodeInfo) `{Resolver}.
Abbreviation N := (node_state R (traced P)).
Implicit Types (s : N) (n : NodeInfo).

Lemma announce_run msg s :
  node_wf s → ∃ s', on_gossip (_broadcast info msg) s = (Ok tt, s') ∧ node_wf s' ∧
    g_ring (n_gossip s') = g_ring (n_gossip s) ∧
    (g_disc (n_gossip s'), n_store s', n_listening s', n_stopped s') =
    (g_disc (n_gossip s), n_store s, n_listening s, n_stopped s) ∧
    trace (n_gossip s') = trace (n_gossip s) ++ (request msg <$> others info (n_gossip s)).
Proof.
  intros [Hg Hst].
  destruct (broadcast_run info msg (r_nodes (g_ring (n_gossip s))) (n_gossip s))
    as (g & Hrun & Hw & Hr & Hd & Ht); [done|].
  eexists. split; [unfold on_gossip; by erewrite zoom_run by exact Hrun|]. simpl.
  by rewrite Hd.
Qed.

Lemma announce_async_run msg order s :
  node_wf s → order ≡ₚ seq 0 (length (others info (n_gossip s))) →
  ∃ s' new, on_gossip (_broadcast_async info order msg) s = (Ok tt, s') ∧
    g_ring (n_gossip s') = g_ring (n_gossip s) ∧
    (g_disc (n_gossip s'), n_store s', n_listening s', n_stopped s') =
    (g_disc (n_gossip s), n_store s, n_listening s, n_stopped s) ∧
    trace (n_gossip s') = trace (n_gossip s) ++ new ∧
    new ≡ₚ request msg <$> others info (n_gossip s).
Proof.
  intros [Hg Hst] Hord.
  destruct (broadcast_async_run info msg (n_gossip s) order Hg Hord)
    as (g & new & Hrun & Hw & Hr & Hd & Ht & Hnew).
  eexists _, new. split; [unfold on_gossip; by erewrite zoom_run by exact Hrun|]. simpl.
  by rewrite Hd.
Qed.

(** Stopping, whatever closing the pool comes to. *)
Lemma stop_run s :
  node_wf s → ∃ p : traced P,
    p.2 = trace (n_gossip s) ++ (request (leave_message info) <$> others info (n_gossip s)) ∧
    node_stop (announce_leave info) s =
      ((po_close_all p).1,
       mkNode (mkGossip (g_ring (n_gossip s)) (po_close_all p).2 (g_disc (n_gossip s)))
         (n_store s) false true).
Proof.
  intros Hs. destruct (announce_run (leave_message info) s Hs) as (s1 & Hrun & Hs1 & Hring & Hrest & Ht).
  exists (g_pool (n_gossip s1)). split; [done|]. unfold node_stop, announce_leave. step_M Hrun.
  set (s2 := mkNode (n_gossip s1) (n_store s1) false true).
  assert (modify (λ s0, mkNode (n_gossip s0) (n_store s0) false true) s1 = (Ok tt, s2))
    as Hmod by done. step_M Hmod.
  unfold on_gossip, on_pool. erewrite zoom_run by (by apply zoom_run, injective_projections).
  cbn [n_gossip n_store s2]. injection Hrest as Hd Hst _ _. by rewrite Hring, Hd, Hst.
Qed.

(** C34. Starting enrols every discovered peer and the node itself, opens the
    server, and only then announces the node, once to every other member; when
    discovery fails nothing has changed, and when binding fails the node neither
    listens nor announces itself.  Stopping announces the departure to every
    other member, sets the flag and stops listening before the pool is closed,
    whose outcome is the outcome of the call.  Neither touches the store.  The
    asynchronous start does the same, its announcements in any order. *)
Theorem node_lifecycle bind s :
  node_wf s →
  match get_peers (g_disc (n_gossip s)), bind with
  | Raise e, _ => node_start info bind (announce_join info) s = (Raise e, s)
  | Ok peers, Raise e => ∃ s', node_start info bind (announce_join info) s = (Raise e, s') ∧
      n_listening s' = n_listening s ∧ trace (n_gossip s') = trace (n_gossip s) ∧
      n_store s' = n_store s
  | Ok peers, Ok _ => ∃ s', node_start info bind (announce_join info) s = (Ok tt, s') ∧
      node_wf s' ∧ n_listening s' = true ∧ n_store s' = n_store s ∧
      (∀ n, n ∈ members (n_gossip s') ↔ n = info ∨ n ∈ peers ∨ n ∈ members (n_gossip s)) ∧
      trace (n_gossip s') =
        trace (n_gossip s) ++ (request (join_message info) <$> others info (n_gossip s')) ∧
      ∀ order, order ≡ₚ seq 0 (length (others info (n_gossip s'))) →
      ∃ s'' new, node_start_async info bind order s = (Ok tt, s'') ∧
        g_ring (n_gossip s'') = g_ring (n_gossip s') ∧ n_listening s'' = true ∧
        n_store s'' = n_store s ∧ trace (n_gossip s'') = trace (n_gossip s) ++ new ∧
        new ≡ₚ request (join_message info) <$> others info (n_gossip s')
  end ∧
  ∃ p : traced P,
    p.2 = trace (n_gossip s) ++ (request (leave_message info) <$> others info (n_gossip s)) ∧
    node_stop (announce_leave info) s =
      ((po_close_all p).1,
       mkNode (mkGossip (g_ring (n_gossip s)) (po_close_all p).2 (g_disc (n_gossip s)))
         (n_store s) false true).
Proof.
  intros Hs. split.
  - destruct (get_peers (g_disc (n_gossip s))) as [peers|e] eqn:Hget.
    2: { unfold node_start. step_M (bootstrap_raise e s Hget). done. }
    destruct (start_run info peers s Hget Hs) as (s2 & Hfail & Hs2 & Hm & Hrest & Hstart).
    assert (trace (n_gossip s2) = trace (n_gossip s)) as Htr by (unfold trace; congruence).
    destruct bind as [[]|e]; [|exists s2; rewrite Hfail; split_and!; congruence].
    unfold announce_join, node_start_async, announce_join_async. rewrite Hstart.
    set (s3 := mkNode (n_gossip s2) (n_store s2) true (n_stopped s2)).
    destruct (announce_run (join_message info) s3) as (s4 & Hrun4 & Hs4 & Hring & Hrest4 & Ht);
      [done|]. exists s4. simpl in *. unfold others, members in *. rewrite Hring.
    split_and!; try done; try congruence.
    intros order Hord. rewrite Hstart. fold s3.
    destruct (announce_async_run (join_message info) order s3) as (s5 & new & Hrun5 & Hr5 & Hrest5 & Ht5 & Hnew);
      [done..|]. exists s5, new. simpl in *. split_and!; try done; congruence.
  - by apply stop_run.
Qed.

(** C33. A node used in a [with] statement is stopped however the block ends.  When the node
    cannot start, the exception leaves the statement, the block is not run and nothing is
    stopped.  Otherwise the block runs on the started node, and after it, whether it has
    returned or raised, the node has said goodbye to every other member of its ring, does not
    listen and has its flag set, its pool having been closed; the statement ends as the block
    did, unless closing the pool raises. *)
Theorem with_node_stops {A} bind (body : M N A) s :
  node_wf s → (∀ s, node_wf s → node_wf (body s).2) →
  let '(r, s1) := node_start info bind (announce_join info) s in
  match r with
  | Raise e => with_node info bind body s = (Raise e, s1)
  | Ok _ => let '(r, s2) := body s1 in ∃ p : traced P,
      p.2 = trace (n_gossip s2) ++ (request (leave_message info) <$> others info (n_gossip s2)) ∧
      with_node info bind body s =
        (_ ← (po_close_all p).1; r,
         mkNode (mkGossip (g_ring (n_gossip s2)) (po_close_all p).2 (g_disc (n_gossip s2))) (n_store s2) false true)
  end.
Proof.
  intros Hs Hbody. unfold with_node, with_statement, node_enter, node_exit.
  destruct (node_start info bind (announce_join info) s) as [[[]|e] s1] eqn:Hstart; [|by step_M Hstart].
  assert (node_wf s1) as Hs1.
  { destruct (get_peers (g_disc (n_gossip s))) as [peers|e] eqn:Hget.
    2: { unfold node_start in Hstart. by rewrite (M_bind_Raise _ _ _ _ _ (bootstrap_raise e s Hget)) in Hstart. }
    destruct (start_run info peers s Hget Hs) as (s2 & Hfail & Hs2 & _ & _ & Hgo).
    destruct bind as [[]|e]; [|by rewrite Hfail in Hstart]. rewrite Hgo in Hstart.
    set (s3 := mkNode (n_gossip s2) (n_store s2) true (n_stopped s2)) in *.
    destruct (announce_run (join_message info) s3) as (s4 & Hrun & Hs4 & _); [done|].
    unfold announce_join in Hstart. rewrite Hrun in Hstart. by injection Hstart as <-. }
  step_M Hstart. specialize (Hbody s1 Hs1). unfold then_exit. destruct (body s1) as [r s2]. simpl in Hbody.
  destruct (stop_run s2 Hbody) as (p & Hp & Hstop). exists p. split; [done|].
  rewrite Hstop. by destruct (po_close_all p).1.
Qed.
End lifecycle.

(** ** Samples *)
Section samples.
#[local] Existing Instance scripted_pool.
#[local] Existing Instance scripted_pool_laws.

(** A pickle for a ping and the answer of [node1]. *)
Definition pong : Message := mkMessage PONG (Some (node_fields (node_to_dict node1))).

Definition ping_pickle : Pickle := {|
  dumps msg := if decide (msg = sample_msg) then Ok [x80; x05]
    else if decide (msg = pong) then Ok [x80; x06; x07] else Raise PicklingError;
  loads data := if decide (data = [x80; x05]) then Ok sample_msg
    else if decide (data = [x80; x06; x07]) then Ok pong else Raise UnpicklingError;
|}.

Lemma ping_pickle_laws : @PickleLaws ping_pickle.
Proof.
  constructor; [|by eexists]. intros msg data. simpl. repeat case_decide; try done;
    by intros [= <-]; subst.
Qed.

Definition sample_node : node_state ring script :=
  mkNode (mkGossip [node1; node2] [] (StaticDiscovery [node2])) sample_store true false.

Lemma handle_client_serves_witness :
  let k := mkSock [Data x00 [x00; x00]; Data x02 [x80; x05; x00]; Data x00 [x00; x02; x80; x05]]
    [] None in
  let out := [[x00; x00; x00; x03; x80; x06; x07]; [x00; x00; x00; x03; x80; x06; x07]] in
  (@nil byte = [] → ∀ c more, ∃ k',
     _handle_client (H1 := ping_pickle) node1 ([sample_clock; sample_clock] ++ c :: more)
       (sample_node, k) = (Ok true, (sample_node, k')) ∧ s_out k' = concat out ∧
     ∀ rx, rx_bytes (s_in rx) = Some (s_out k') → ∃ i',
       map_each [pong; pong] (λ _, recv_message (H := ping_pickle)) rx = (Ok [pong; pong], set_in i' rx)) ∧
  (∀ bad fr after c more e n'', [] = fr ++ after → frame (H := ping_pickle) bad = Ok fr →
     answer node1 c bad sample_node = (Raise e, n'') →
     ∃ k', _handle_client (H1 := ping_pickle) node1 ([sample_clock; sample_clock] ++ c :: more)
         (sample_node, k) = (Ok true, (n'', k')) ∧
       s_out k' = concat out ∧ rx_bytes (s_in k') = Some after).
Proof.
  apply (handle_client_serves (R := ring) (P := script) (H1 := ping_pickle)
    (H2 := ping_pickle_laws) node1 [sample_clock; sample_clock]
    [sample_msg; sample_msg] [[x00; x00; x00; x02; x80; x05]; [x00; x00; x00; x02; x80; x05]] []
    sample_node sample_node _ [pong; pong]); vm_compute; reflexivity.
Defined.

Lemma handle_client_ends_witness :
  let s := (sample_node, mkSock [Data x00 [x00; x00]; Err TimeoutError] [] None) in
  (∃ s', _handle_client (H1 := ping_pickle) node1 [sample_clock] s = (Ok true, s')) ∧
  _handle_client_async (H1 := ping_pickle) node1 [sample_clock] s =
    _handle_client (H1 := ping_pickle) node1 [sample_clock] s.
Proof.
  apply (handle_client_ends (R := ring) (P := script) (H1 := ping_pickle) node1 [sample_clock]
    (sample_node, mkSock [Data x00 [x00; x00]; Err TimeoutError] [] None)).
  vm_compute. lia.
Defined.

Lemma node_lifecycle_witness :
  let s : node_state ring (traced script) :=
    mkNode (mkGossip [] ([], []) (StaticDiscovery [node2; node3])) sample_store false false in
  (∃ s', node_start (H1 := no_resolver) node1 (Ok tt) (announce_join node1) s = (Ok tt, s') ∧
     node_wf s' ∧ n_listening s' = true ∧ n_store s' = n_store s ∧
     (∀ n, n ∈ members (n_gossip s') ↔ n = node1 ∨ n ∈ [node2; node3] ∨ n ∈ members (n_gossip s)) ∧
     trace (n_gossip s') =
       trace (n_gossip s) ++ (request (join_message node1) <$> others node1 (n_gossip s')) ∧
     ∀ order, order ≡ₚ seq 0 (length (others node1 (n_gossip s'))) →
     ∃ s'' new, node_start_async (H1 := no_resolver) node1 (Ok tt) order s = (Ok tt, s'') ∧
       g_ring (n_gossip s'') = g_ring (n_gossip s') ∧ n_listening s'' = true ∧
       n_store s'' = n_store s ∧ trace (n_gossip s'') = trace (n_gossip s) ++ new ∧
       new ≡ₚ request (join_message node1) <$> others node1 (n_gossip s')) ∧
  ∃ p : traced script,
    p.2 = trace (n_gossip s) ++ (request (leave_message node1) <$> others node1 (n_gossip s)) ∧
    node_stop (announce_leave node1) s =
      ((po_close_all p).1,
       mkNode (mkGossip (g_ring (n_gossip s)) (po_close_all p).2 (g_disc (n_gossip s)))
         (n_store s) false true).
Proof.
  apply (node_lifecycle (R := ring) (P := script) (H3 := no_resolver) node1 (Ok tt)
    (mkNode (mkGossip [] ([], []) (StaticDiscovery [node2; node3])) sample_store false false)).
  split; [|exact sample_store_wf]. by constructor; [apply NoDup_nil_2|..].
Defined.

(** The block raises: the two peers hear of the coming and of the going, and the exception gets out. *)
Lemma with_node_stops_witness :
  let s : node_state ring (traced script) :=
    mkNode (mkGossip [] ([], []) (StaticDiscovery [node2; node3])) sample_store false false in
  let body : M (node_state ring (traced script)) unit := raise KeyError in
  ∃ (p : traced script) s', length p.2 = 4 ∧
    with_node (H1 := no_resolver) node1 (Ok tt) body s = (Raise KeyError, s') ∧
    n_listening s' = false ∧ n_stopped s' = true.
Proof.
  intros s body.
  assert (node_wf s) as Hs by (split; [by constructor; [apply NoDup_nil_2|..]|exact sample_store_wf]).
  pose proof (with_node_stops (R := ring) (P := script) (H3 := no_resolver) node1 (Ok tt) body s Hs (λ _ H, H)) as Hw.
  destruct (node_start node1 (Ok tt) (announce_join node1) s) as [r s1] eqn:Hrun. vm_compute in Hrun.
  injection Hrun as <- <-. destruct Hw as (p & Hp & Hw).
  exists p. eexists. split; [rewrite Hp; vm_compute; reflexivity|]. split; [exact Hw|]. split; reflexivity.
Defined.
End samples.
