(* ===== verification/Churn.v ===== *)
(** * Nodes that come and go

    The network of gossiping nodes as a system of events: rounds of gossip, nodes that
    start, stop and crash.  It refines an abstract system in which a node is the set of
    its members; from it follow what a node can come to know at all, and when a node
    that left is gone for good. *)
From S2P Require Import Prelude Async PyBase PyDict Types Ring Discovery PoolOps Gossip GossipSpec.
From S2P Require Import Membership Eviction LwwStore Node NodeSpec.

(** ** The abstract system *)
Section abstract.
Abbreviation view := (gmap NodeInfo (gset NodeInfo)).
Implicit Types (v : view) (X Y : gset NodeInfo) (a b n : NodeInfo) (f : gset NodeInfo → gset NodeInfo).

(** A message to the nodes in [X], which change their members by [f]. *)
Definition tell f X v : view := map_imap (λ b Y, Some (if decide (b ∈ X) then f Y else Y)) v.

Inductive label :=
  | Contacts (a : NodeInfo) (ps : list NodeInfo)
  | Enters (n : NodeInfo) (X : gset NodeInfo)
  | Quits (n : NodeInfo)
  | Dies (n : NodeInfo).

Definition abs_step v (l : label) : view :=
  match l with
  | Contacts a ps => abs_round a ps v
  | Enters n X => <[n := X]> (tell ({[n]} ∪.) (X ∖ {[n]}) v)
  | Quits n =>
      match v !! n with
      | None => v
      | Some X => tell (.∖ {[n]}) (X ∖ {[n]}) (delete n v)
      end
  | Dies n => delete n v
  end.

Lemma lookup_tell f X v b :
  tell f X v !! b = (λ Y, if decide (b ∈ X) then f Y else Y) <$> v !! b.
Proof. unfold tell. rewrite map_lookup_imap. by destruct (v !! b). Qed.

Lemma tell_empty f v : tell f ∅ v = v.
Proof.
  apply map_eq. intros b. rewrite lookup_tell. destruct (v !! b); [|done]. simpl.
  by rewrite decide_False by set_solver.
Qed.

(** One receiver after the other. *)
Lemma tell_cons f p X v : p ∉ X → tell f X (alter f p v) = tell f ({[p]} ∪ X) v.
Proof.
  intros Hp. apply map_eq. intros b. rewrite !lookup_tell. destruct (decide (b = p)) as [->|Hne].
  - rewrite lookup_alter_eq. destruct (v !! p); [|done]. simpl.
    by rewrite decide_False, decide_True by set_solver.
  - rewrite lookup_alter_ne by done. destruct (v !! b); [|done]. simpl. f_equal.
    apply decide_ext. set_solver.
Qed.

(** What is known after a step was known before, or came with a node. *)
Lemma abs_step_source v l c n :
  has_member (abs_step v l) c n →
  (∃ b, has_member v b n) ∨ ∃ m X, l = Enters m X ∧ (n = m ∨ n ∈ X).
Proof.
  destruct l as [a ps|m X|m|m]; simpl.
  - intros [?|(_ & p & _ & ?)]%abs_round_source; left; eauto.
  - intros (Y & HY & Hn). destruct (decide (c = m)) as [->|Hne].
    + rewrite lookup_insert_eq in HY. injection HY as <-. right. eauto.
    + rewrite lookup_insert_ne, lookup_tell in HY by done. destruct (v !! c) as [Z|] eqn:Hc; [|done].
      injection HY as <-. case_decide; [|left; exists c, Z; done].
      apply elem_of_union in Hn as [?%elem_of_singleton|Hn]; [right; eauto|left; exists c, Z; done].
  - intros Hk. left. destruct (v !! m) as [X|] eqn:Hm; [|by exists c].
    destruct Hk as (Y & HY & Hn). rewrite lookup_tell in HY.
    destruct (delete m v !! c) as [Z|] eqn:Hc; [|done].
    apply lookup_delete_Some in Hc as [_ Hc]. injection HY as <-. exists c, Z. split; [done|].
    case_decide; set_solver.
  - intros (Y & [_ HY]%lookup_delete_Some & Hn). left. by exists c, Y.
Qed.
End abstract.

(** ** The network *)
Section churn.
Context {R : Type} `{RingLaws R} `{Resolver}.
#[local] Existing Instances scripted_pool scripted_pool_laws.
Abbreviation net := (gmap NodeInfo (R * discovery)).
Abbreviation choice := (list NodeInfo → list NodeInfo).
Implicit Types (w : net) (a b n : NodeInfo).

(** A node starts with a ring and a discovery; it is reached by others once it has
    announced itself.  An address in use cannot be bound. *)
Definition node_joins n (r : R) (d : discovery) w : net :=
  let bind := match w !! n with Some _ => Raise OSError | None => Ok tt end in
  match node_start n bind (announce_join n) (node_init r w d) with
  | (Ok _, s) => <[n := (g_ring (n_gossip s), g_disc (n_gossip s))]> (g_pool (n_gossip s))
  | (Raise _, s) => g_pool (n_gossip s)
  end.

(** A node stops; what is in its store does not matter. *)
Definition node_leaves n w : net :=
  match w !! n with
  | None => w
  | Some (r, d) =>
      g_pool (n_gossip (node_stop (announce_leave n) (mkNode (mkGossip r (delete n w) d) [] true false)).2)
  end.

Inductive event :=
  | Gossips (e : NodeInfo * choice)
  | Joins (n : NodeInfo) (r : R) (d : discovery)
  | Leaves (n : NodeInfo)
  | Crashes (n : NodeInfo).

Definition net_step w (ev : event) : net :=
  match ev with
  | Gossips e => round e w
  | Joins n r d => node_joins n r d w
  | Leaves n => node_leaves n w
  | Crashes n => delete n w
  end.

Definition net_run (evs : list event) w : net := foldl net_step w evs.

(** The step of the abstract system an event amounts to: none when a node fails to start. *)
Definition observe w (ev : event) : option label :=
  match ev with
  | Gossips e => Some (Contacts e.1 (contacts e w))
  | Joins n r d =>
      match get_peers d, w !! n with
      | Ok peers, None => Some (Enters n ({[n]} ∪ list_to_set peers ∪ list_to_set (r_nodes r)))
      | _, _ => None
      end
  | Leaves n => Some (Quits n)
  | Crashes n => Some (Dies n)
  end.

Fixpoint labels (evs : list event) w : list label :=
  match evs with
  | [] => []
  | ev :: evs => option_list (observe w ev) ++ labels evs (net_step w ev)
  end.

(** Samples are drawn from the peers; a starting node has a well-formed ring and discovery. *)
Definition event_ok (ev : event) : Prop :=
  match ev with
  | Gossips e => draws e
  | Joins n r d => r_wf r ∧ discovery_wf d
  | _ => True
  end.

(** ** Announcements *)

(** A message that makes its receiver change its members by [f]. *)
Definition effects (msg : Message) (f : gset NodeInfo → gset NodeInfo) : Prop :=
  ∀ b (g : gossip_state R script), gossip_wf g → ∃ reply g', handle_message b msg g = (Ok reply, g') ∧
    gossip_wf g' ∧ (list_to_set (members g') : gset NodeInfo) = f (list_to_set (members g)).

Lemma join_effects n : effects (join_message n) ({[n]} ∪.).
Proof.
  intros b g Hg. unfold handle_message, join_message. unfold_M. cbn [m_type].
  change (payload_item p_peer _) with (Ok (node_to_dict n)). cbv beta iota. rewrite node_from_to_dict.
  destruct (decide (n ∈ r_nodes (g_ring g))) as [Hn|Hn].
  - eexists _, _. split; [done|]. split; [done|]. unfold members. set_solver.
  - destruct (admit_peer_run n g Hg) as (g' & -> & _ & Hw & Hm & _). eexists _, _. split; [done|].
    split; [done|]. apply set_eq. intros m. rewrite elem_of_list_to_set, Hm. set_solver.
Qed.

Lemma leave_effects n : effects (leave_message n) (.∖ {[n]}).
Proof.
  intros b g Hg. unfold handle_message, leave_message. unfold_M. cbn [m_type].
  change (payload_item p_peer _) with (Ok (node_to_dict n)). cbv beta iota. rewrite node_from_to_dict.
  destruct (drop_peer_run n g Hg) as (g' & -> & Hw & Hm & _). eexists _, _. split; [done|].
  split; [done|]. apply set_eq. intros m. rewrite elem_of_list_to_set, Hm. set_solver.
Qed.

Lemma net_execute_effects msg f b w :
  effects msg f → net_wf w → ∃ o w', po_execute (host b) (port b) msg w = (Ok o, w') ∧ net_wf w' ∧
    view_of w' = alter f b (view_of w).
Proof.
  intros Hf Hw. simpl. unfold net_execute. replace (mkNodeInfo (host b) (port b)) with b by by destruct b.
  destruct (w !! b) as [[r d]|] eqn:Hb.
  - destruct (Hw _ _ Hb) as [Hr Hd].
    destruct (Hf b (mkGossip r [] d)) as (reply & g' & -> & [Hr' Hd' _] & Hm); [done|].
    eexists _, _. split; [done|]. split; [by apply map_Forall_insert_2|].
    apply map_eq. intros c. rewrite lookup_view. destruct (decide (c = b)) as [->|Hne].
    + rewrite lookup_insert_eq, lookup_alter_eq, lookup_view, Hb. simpl. by f_equal.
    + by rewrite lookup_insert_ne, lookup_alter_ne, lookup_view.
  - eexists _, _. split; [done|]. split; [done|]. symmetry. apply map_eq. intros c.
    destruct (decide (c = b)) as [->|Hne]; [|by rewrite lookup_alter_ne].
    by rewrite lookup_alter_eq, lookup_view, Hb.
Qed.

(** Announcing tells every other member. *)
Lemma broadcast_view msg f n (g : gossip_state R net) :
  effects msg f → gossip_wf g →
  ∃ g', _broadcast n msg g = (Ok tt, g') ∧ net_wf (g_pool g') ∧ g_ring g' = g_ring g ∧ g_disc g' = g_disc g ∧
    view_of (g_pool g') = tell f (gossip_view g ∖ {[n]}) (view_of (g_pool g)).
Proof.
  intros Hf Hg. unfold _broadcast, broadcast_by, gossip_view, members. unfold_M. cbn [get_state].
  pose proof (r_nodes_nodup _ (gw_ring _ Hg)) as Hnd. revert g Hg Hnd. intros g [_ _ Hp].
  generalize (r_nodes (g_ring g)) as ns. intros ns. revert g Hp.
  induction ns as [|m ns IH]; intros g Hp Hnd.
  { exists g. split_and!; [done..|]. simpl.
    assert ((∅ ∖ {[n]} : gset NodeInfo) = ∅) as -> by set_solver. by rewrite tell_empty. }
  apply NoDup_cons in Hnd as [Hm Hnd]. simpl. unfold_M. destruct (decide (m = n)) as [->|Hne].
  - destruct (IH g Hp Hnd) as (g' & -> & ? & ? & ? & Hv'). exists g'. split_and!; [done..|].
    rewrite Hv'. f_equal. set_solver.
  - destruct (net_execute_effects msg f m (g_pool g) Hf Hp) as (o & w' & Hex & Hw' & Hv).
    unfold send_to at 1, on_pool at 1. unfold_M. rewrite Hex. cbv beta iota.
    destruct (IH (mkGossip (g_ring g) w' (g_disc g)) Hw' Hnd) as (g' & -> & ? & ? & ? & Hv').
    exists g'. split_and!; [done..|]. rewrite Hv'. simpl. rewrite Hv, tell_cons by set_solver. f_equal. set_solver.
Qed.

(** ** Refinement *)

Lemma joins_view n r d w :
  net_wf w → r_wf r → discovery_wf d →
  net_wf (node_joins n r d w) ∧
  view_of (node_joins n r d w) = foldl abs_step (view_of w) (option_list (observe w (Joins n r d))).
Proof.
  intros Hw Hr Hd. unfold node_joins. set (s := node_init r w d).
  assert (node_wf s) as Hs by (by split; [split|apply NoDup_nil_2]). simpl.
  destruct (get_peers d) as [peers|e] eqn:Hget.
  2: { unfold node_start. step_M (bootstrap_raise e s Hget). by destruct (w !! n). }
  destruct (start_run n peers s Hget Hs) as (s1 & Hfail & [Hg1 Hs1] & Hm & Hrest & Hstart).
  injection Hrest as Hd1 Hp1 _ _ _. destruct (w !! n) as [m|] eqn:Hn.
  { rewrite Hfail. simpl. by rewrite Hp1. }
  rewrite Hstart. unfold on_gossip. 
  destruct (broadcast_view (join_message n) ({[n]} ∪.) n (n_gossip s1))
    as (g' & Hrun & Hw' & Hr' & Hd' & Hv); [apply join_effects|done|].
  erewrite zoom_run by exact Hrun. simpl. rewrite Hr', Hd'. destruct Hg1 as [Hr1 Hdd1 _].
  split; [by apply map_Forall_insert_2|]. unfold view_of in *. rewrite fmap_insert, Hv, Hp1. simpl.
  assert (gossip_view (n_gossip s1) = {[n]} ∪ list_to_set peers ∪ list_to_set (r_nodes r)) as HX.
  { apply set_eq. intros m. unfold gossip_view. rewrite elem_of_list_to_set, Hm. set_solver. }
  rewrite <- HX. f_equal.
Qed.

Lemma leaves_view n w :
  net_wf w → net_wf (node_leaves n w) ∧ view_of (node_leaves n w) = abs_step (view_of w) (Quits n).
Proof.
  intros Hw. unfold node_leaves. simpl. rewrite lookup_view. destruct (w !! n) as [[r d]|] eqn:Hn; [|done].
  destruct (Hw _ _ Hn) as [Hr Hd]. set (g := mkGossip r (delete n w) d).
  assert (gossip_wf g) as Hg by (split; [done..|by apply map_Forall_delete]).
  destruct (broadcast_view (leave_message n) (.∖ {[n]}) n g) as (g' & Hrun & Hw' & _ & _ & Hv);
    [apply leave_effects|done|].
  unfold node_stop, announce_leave, on_gossip.
  rewrite (M_bind_Ok _ _ _ _ _ (zoom_run _ _ _ (mkNode g [] true false) _ _ Hrun)). 
  unfold_M. simpl. split; [done|]. rewrite Hv. simpl. unfold view_of. by rewrite fmap_delete.
Qed.

Lemma step_view ev w :
  net_wf w → event_ok ev →
  net_wf (net_step w ev) ∧
  view_of (net_step w ev) = foldl abs_step (view_of w) (option_list (observe w ev)).
Proof.
  intros Hw Hev. destruct ev as [e|n r d|n|n]; simpl in *.
  - by apply round_view.
  - destruct Hev. by apply joins_view.
  - by apply leaves_view.
  - split; [by apply map_Forall_delete|]. unfold view_of. by rewrite fmap_delete.
Qed.

(** C16. The network refines the abstract system.  Whatever nodes gossip, start, stop or
    crash, and in whatever order, the members of every node are those the abstract
    system computes: a round is its contacts one by one, a node that starts has the
    members of its ring and its discovery and itself and is added by each of them
    that is there, a node that stops is dropped by its members, a node that crashes
    is just gone; a node that cannot start changes nothing. *)
Theorem churn_refines evs w :
  net_wf w → Forall event_ok evs →
  net_wf (net_run evs w) ∧ view_of (net_run evs w) = foldl abs_step (view_of w) (labels evs w).
Proof.
  intros Hw Hevs. revert w Hw. induction Hevs as [|ev evs Hev Hevs IH]; intros w Hw; [done|].
  destruct (step_view ev w Hw Hev) as [Hw' Hv]. cbn [net_run foldl labels].
  rewrite foldl_app, <- Hv. by apply IH.
Qed.

(** ** What can be known *)

(** The event brings the name of [n] with it. *)
Definition introduces n (ev : event) : Prop :=
  match ev with
  | Joins m r d => n = m ∨ n ∈ r_nodes r ∨ ∃ peers, get_peers d = Ok peers ∧ n ∈ peers
  | _ => False
  end.

Lemma step_grounded ev w a n :
  net_wf w → event_ok ev → knows (net_step w ev) a n → (∃ b, knows w b n) ∨ introduces n ev.
Proof.
  intros Hw Hev. destruct (step_view ev w Hw Hev) as [_ Hv]. rewrite view_knows, Hv.
  destruct (observe w ev) as [l|] eqn:Hl; simpl.
  - intros [[b Hb]|(m & X & -> & Hn)]%abs_step_source; [left; exists b; by apply view_knows|right].
    destruct ev as [e|m' r d| |]; simplify_eq/=. repeat case_match; simplify_eq.
    destruct Hn as [->|Hn]; [by left|]. set_unfold in Hn. naive_solver.
  - intros Hk. left. exists a. by apply view_knows.
Qed.

Lemma run_grounded evs w a n :
  net_wf w → Forall event_ok evs → knows (net_run evs w) a n →
  (∃ b, knows w b n) ∨ ∃ ev, ev ∈ evs ∧ introduces n ev.
Proof.
  intros Hw Hevs. revert w Hw. induction Hevs as [|ev evs Hev Hevs IH]; intros w Hw; [left; by exists a|].
  intros [[b Hb]|(ev' & ? & ?)]%IH; [|right; set_solver|by apply step_view].
  apply step_grounded in Hb as [?|?]; [by left|right; set_solver|done..].
Qed.

(** What all have forgotten comes back only with somebody who starts. *)
Lemma forgotten_run n evs w :
  net_wf w → Forall event_ok evs → forgotten n w → (∀ ev, ev ∈ evs → ¬ introduces n ev) →
  forgotten n (net_run evs w).
Proof.
  intros Hw Hevs Hn Hno a [[b Hb]|(ev & Hev & Hi)]%run_grounded; [|by eapply Hno|done..]. by eapply Hn.
Qed.

(** C18. A dead node is forgotten.  If every node that knows it takes part in rounds each
    of which contacts the dead node last, or contacts nobody who knows it, then
    nobody knows it afterwards; and nothing that happens later, rounds in any order
    and with any samples, nodes that stop, crash or start, brings it back, unless
    a node starts that is it, or that has it in its ring or its discovery. *)
Theorem dead_peer_forgotten n es evs w :
  net_wf w → w !! n = None → Forall draws es → all_clear n es w → (∀ a, knows w a n → a ∈ es.*1) →
  Forall event_ok evs → (∀ ev, ev ∈ evs → ¬ introduces n ev) →
  forgotten n (net_run (Gossips <$> es) w) ∧ forgotten n (net_run ((Gossips <$> es) ++ evs) w).
Proof.
  intros Hw Hn Hes Hc Hall Hevs Hno. destruct (dead_forgotten n es w) as [Hw' Hf]; [done..|].
  assert (net_run (Gossips <$> es) w = rounds es w) as Heq.
  { clear. revert w. induction es as [|e es IH]; intros w; [done|]. apply IH. }
  unfold net_run at 2. rewrite foldl_app. fold (net_run (Gossips <$> es) w). rewrite Heq.
  split; [done|]. by apply forgotten_run.
Qed.

(** ** Coming and going *)

Lemma ex_Some (Y : gset NodeInfo) c : (∃ X, Some Y = Some X ∧ c ∈ X) ↔ c ∈ Y.
Proof. naive_solver. Qed.

(** A node that starts is heard of.  It knows the peers of its discovery, the members
    of its ring and itself; those of them that are there know it; and nobody's
    membership changes otherwise. *)
Theorem join_heard n r d peers w :
  net_wf w → r_wf r → discovery_wf d → w !! n = None → get_peers d = Ok peers →
  (∀ c, knows (node_joins n r d w) n c ↔ c = n ∨ c ∈ peers ∨ c ∈ r_nodes r) ∧
  (∀ b c, b ≠ n → knows (node_joins n r d w) b c ↔
    knows w b c ∨ (live w b ∧ c = n ∧ (b ∈ peers ∨ b ∈ r_nodes r))).
Proof.
  intros Hw Hr Hd Hn Hget. destruct (joins_view n r d w Hw Hr Hd) as [_ Hv]. revert Hv.
  simpl. rewrite Hget, Hn. simpl. intros Hv. split.
  - intros c. rewrite view_knows, Hv. unfold has_member. rewrite lookup_insert_eq, ex_Some. set_solver.
  - intros b c Hb. rewrite !view_knows, Hv. unfold has_member, live.
    rewrite lookup_insert_ne, lookup_tell, lookup_view by done.
    destruct (w !! b) as [m|]; simpl; [|naive_solver].
    assert (b ∈ (({[n]} ∪ list_to_set peers ∪ list_to_set (r_nodes r)) ∖ {[n]} : gset NodeInfo) ↔
      b ∈ peers ∨ b ∈ r_nodes r) as Hin by set_solver.
    rewrite !ex_Some. destruct (decide _) as [Hb'|Hb']; rewrite Hin in Hb'; split; [| |by left|].
    + intros [->%elem_of_singleton| ?]%elem_of_union; [right|by left]. split; [by eexists|done].
    + set_solver.
    + intros [?|(_ & _ & ?)]; [done|by destruct Hb'].
Qed.

(** C20. A departure is final.  When a node stops that knows everybody who knows it, nobody
    knows it afterwards, and nothing that happens later brings it back, unless a node starts that
    is it or has it in its ring or its discovery. *)
Theorem departure_final n evs w :
  net_wf w → live w n → (∀ b, b ≠ n → knows w b n → knows w n b) →
  Forall event_ok evs → (∀ ev, ev ∈ evs → ¬ introduces n ev) →
  forgotten n (net_step w (Leaves n)) ∧ forgotten n (net_run (Leaves n :: evs) w).
Proof.
  intros Hw [[r d] Hn] Hknown Hevs Hno. simpl. destruct (leaves_view n w Hw) as [Hw' Hv].
  assert (forgotten n (node_leaves n w)) as Hf; [|split; [done|by apply forgotten_run]]. intros b. rewrite view_knows, Hv. simpl. rewrite lookup_view, Hn.
  simpl. intros (Y & HY & HnY). rewrite lookup_tell in HY.
  destruct (delete n (view_of w) !! b) as [Z|] eqn:Hb; [|done].
  apply lookup_delete_Some in Hb as [Hne Hb]. injection HY as <-.
  case_decide as Hin; [set_solver|]. apply Hin.
  assert (knows w n b) as (r' & d' & Hn' & Hbr); [apply Hknown; [done|]; apply view_knows; by exists Z|].
  simplify_eq. unfold node_view. set_solver.
Qed.
End churn.

(** ** Samples: a fourth node comes and goes in the network of three *)
Section samples.
#[local] Existing Instance no_resolver.

Definition node4 : NodeInfo := mkNodeInfo "127.0.0.1" 7004.

Definition busy : list (event (R := ring)) :=
  [Joins node4 [] (StaticDiscovery [node1]); Gossips (node2, take 3); Leaves node4; Crashes node3].

Lemma ring_wf_nil : r_wf ([] : ring).
Proof. apply NoDup_nil_2. Qed.

Lemma busy_ok : Forall event_ok busy.
Proof.
  repeat (apply Forall_cons; split); [split; [exact ring_wf_nil|done]| |done|done|apply Forall_nil_2].
  intros ps x. simpl. apply subseteq_take.
Qed.

Lemma churn_refines_witness :
  net_wf (net_run busy sample_net) ∧
  view_of (net_run busy sample_net) = foldl abs_step (view_of sample_net) (labels busy sample_net).
Proof. apply (churn_refines busy sample_net); [exact sample_net_wf|exact busy_ok]. Defined.

Lemma dead_peer_forgotten_witness :
  let evs := Gossips <$> dead_first in
  forgotten node3 (net_run (Gossips <$> dead_last) orphaned) ∧
  forgotten node3 (net_run ((Gossips <$> dead_last) ++ evs) orphaned).
Proof.
  apply (dead_peer_forgotten node3 dead_last (Gossips <$> dead_first) orphaned).
  - exact orphaned_wf.
  - vm_compute. reflexivity.
  - exact dead_last_draws.
  - split; [|split; [|done]]; left; eexists [_]; vm_compute; reflexivity.
  - intros a (r & d & Ha & _). revert Ha. unfold orphaned. rewrite lookup_insert_Some.
    intros [[<- _]|[_ [<- _]%lookup_singleton_Some]]; repeat constructor.
  - apply Forall_fmap. exact dead_first_draws.
  - intros ev (e & -> & _)%list_elem_of_fmap. by intros [].
Defined.

Lemma join_heard_witness :
  (∀ c, knows (node_joins node4 [] (StaticDiscovery [node1]) sample_net) node4 c ↔
    c = node4 ∨ c ∈ [node1] ∨ c ∈ r_nodes ([] : ring)) ∧
  (∀ b c, b ≠ node4 → knows (node_joins node4 [] (StaticDiscovery [node1]) sample_net) b c ↔
    knows sample_net b c ∨ (live sample_net b ∧ c = node4 ∧ (b ∈ [node1] ∨ b ∈ r_nodes ([] : ring)))).
Proof.
  apply (join_heard node4 [] (StaticDiscovery [node1]) [node1] sample_net);
    [exact sample_net_wf|exact ring_wf_nil|done|vm_compute; reflexivity|reflexivity].
Defined.

Lemma departure_final_witness :
  forgotten node3 (net_step sample_net (Leaves node3)) ∧
  forgotten node3 (net_run (Leaves node3 :: (Gossips <$> sample_sweep)) sample_net).
Proof.
  apply (departure_final node3 (Gossips <$> sample_sweep) sample_net).
  - exact sample_net_wf.
  - eexists. vm_compute. reflexivity.
  - intros b Hb (r & d & Hk & Hn). eexists _, _. split; [vm_compute; reflexivity|].
    revert Hk. unfold sample_net. rewrite !lookup_insert_Some, lookup_singleton_Some.
    intros [[<- _]|[_ [[<- [= <- _]]|[_ [<- _]]]]]; [vm_compute; repeat constructor|exfalso|done].
    set_unfold in Hn. by destruct Hn as [[=]|[[=]|?]].
  - apply Forall_fmap. repeat (apply Forall_cons; split); [..|apply Forall_nil_2];
      intros ps x; simpl; apply subseteq_take.
  - intros ev (e & -> & _)%list_elem_of_fmap. by intros [].
Defined.

(** The node that came is known to those it asked, and gossip takes it further. *)
Example newcomer_spreads :
  let w := net_run [Joins node4 [] (StaticDiscovery [node1]); Gossips (node2, take 3)] sample_net in
  knows w node1 node4 ∧ knows w node2 node4.
Proof. split; eexists _, _; (split; [vm_compute; reflexivity|]); vm_compute; repeat constructor. Qed.
End samples.
