(* ===== verification/Replicas.v ===== *)
(** * The operations on the replicas of a key

    A call on a replica handle is a call on the node's own store or a request
    through the pool; the calls of one operation concern different nodes, so they
    commute when the pool keeps its peers apart, and the asynchronous operations
    do what the synchronous ones do. *)
From S2P Require Import Prelude Async PyBase PyDict Types Store LwwStore Ring Dispatcher.
From S2P Require Import PoolOps Consistency Discovery Gossip Node.

(** ** Calls one after the other *)
Section calls.
Context {S A B : Type} (Inv : S → Prop).

(** When no call raises, collecting their results is running them all. *)
Lemma map_each_run_all (xs : list A) (body : A → M S B) s :
  Inv s → (∀ x s, x ∈ xs → Inv s → ∃ b s', body x s = (Ok b, s') ∧ Inv s') →
  ∃ bs, map_each xs body s = (Ok bs, (run_all (body <$> xs) s).2) ∧
    (run_all (body <$> xs) s).1 = Ok <$> bs.
Proof.
  intros Hs Hbody. revert s Hs. induction xs as [|x xs IH]; intros s Hs; [by exists []|].
  destruct (Hbody x s) as (b & s1 & Hb & Hs1); [set_solver|done|].
  destruct (IH (λ x s Hx, Hbody x s (list_elem_of_further _ _ _ Hx)) s1 Hs1) as (bs & Hm & Hr).
  exists (b :: bs). csimpl. unfold_M. rewrite Hb, Hm.
  destruct (run_all (body <$> xs) s1) as [rs s2]. simpl in *. by rewrite Hr.
Qed.

Lemma any_true_Ok (bs : list bool) : any_true (Ok <$> bs) = existsb id bs.
Proof. unfold any_true. induction bs as [|b bs IH]; [done|]. csimpl. by rewrite IH. Qed.

Lemma try_commute (t1 t2 : M S (option A)) :
  commute Inv t1 t2 →
  commute Inv (try_except t1 (λ _, mret None)) (try_except t2 (λ _, mret None)).
Proof.
  intros Hc s Hs. destruct (Hc s Hs) as (H1 & H2 & H3). unfold_M.
  destruct (t1 s) as [r1 s1], (t2 s) as [r2 s2]. simpl in *.
  destruct r1, r2; simpl; destruct (t2 s1) as [r2' s3], (t1 s2) as [r1' s4]; simpl in *;
    subst; by repeat split.
Qed.

Lemma try_preserves (t : M S (option A)) :
  preserves Inv t → preserves Inv (try_except t (λ _, mret None)).
Proof. intros Hp s Hs. specialize (Hp s Hs). unfold_M. by destruct (t s) as [[] s1]. Qed.
End calls.

(** ** One replica *)
Section replica.
Context {R P : Type} `{Ring R} `{PoolOpsLaws P} (info : NodeInfo).
Abbreviation N := (node_state R P).
Implicit Types (s : N) (n : NodeInfo).

(** A call on the store of [n], sent as [msg] unless [n] is the node itself. *)
Definition replica_op {A} (m : M lww_store A) (msg : Message) (f : option Message → result A)
    (n : NodeInfo) : M N A :=
  if decide (n = info) then on_store m
  else resp ← remote_execute n msg; lift_result (f resp).

Lemma handle_get_op c key n :
  h_get_versioned (make_handle info c n) key =
    replica_op (lww_get_versioned c key) (get_request key) decode_get n.
Proof. unfold make_handle, replica_op. by case_decide. Qed.

Lemma handle_set_op c key v ttl ts n :
  h_set (make_handle info c n) key v ttl ts =
    replica_op (lww_set c key v ttl (Some ts)) (set_request key v ttl ts) (λ r, Ok (accepted r)) n.
Proof. unfold make_handle, replica_op. by case_decide. Qed.

Lemma handle_delete_op c key ts n :
  h_delete (make_handle info c n) key ts =
    replica_op (lww_delete c key (Some ts)) (delete_request key ts) (λ r, Ok (accepted r)) n.
Proof. unfold make_handle, replica_op. by case_decide. Qed.

(** The parts of the state the calls work on. *)
Definition replica_wf s : Prop := po_wf (g_pool (n_gossip s)) ∧ dict_wf (n_store s).

Lemma remote_execute_run n msg s :
  replica_wf s → ∃ o p', po_execute (host n) (port n) msg (g_pool (n_gossip s)) = (Ok o, p') ∧
    remote_execute n msg s =
      (Ok o, mkNode (mkGossip (g_ring (n_gossip s)) p' (g_disc (n_gossip s))) (n_store s)
        (n_listening s) (n_stopped s)) ∧ po_wf p'.
Proof.
  intros [Hp _]. destruct (po_execute_returns (host n) (port n) msg _ Hp) as (o & p' & He & Hp').
  exists o, p'. split; [done|]. split; [|done].
  unfold remote_execute, on_gossip, on_pool. erewrite zoom_run by (by apply zoom_run). done.
Qed.

Lemma replica_op_run {A} (m : M lww_store A) msg f n s :
  (∀ d, dict_wf d → ∃ a, (m d).1 = Ok a ∧ dict_wf (m d).2) → replica_wf s →
  ∃ r s', replica_op m msg f n s = (r, s') ∧ replica_wf s' ∧ g_ring (n_gossip s') = g_ring (n_gossip s) ∧
    ((∀ o, ∃ a, f o = Ok a) → ∃ a, r = Ok a).
Proof.
  intros Hm Hs. unfold replica_op. case_decide.
  - destruct (Hm (n_store s)) as (a & Ha & Hw); [apply Hs|].
    unfold on_store, zoom. destruct (m (n_store s)) as [r d]. simpl in *. subst r.
    eexists _, _. split; [done|]. split; [by split; [apply Hs|]|]. eauto.
  - destruct (remote_execute_run n msg s Hs) as (o & p' & _ & He & Hp').
    eexists _, _. split; [by step_M He|]. split; [by split; [|apply Hs]|]. split; [done|]. auto.
Qed.
End replica.

(** ** Different replicas *)
Section independent.
Context {R P : Type} `{Ring R} `{PoolIndependent P} (info : NodeInfo).
Abbreviation N := (node_state R P).
Implicit Types (s : N) (n : NodeInfo).

Lemma local_remote_commute {A} (m : M lww_store A) msg f n1 n2 :
  n1 = info → n2 ≠ info →
  commute (replica_wf (R := R) (P := P)) (replica_op info m msg f n1) (replica_op info m msg f n2).
Proof.
  intros -> Hne s [Hp Hd]. unfold replica_op.
  destruct (decide (info = info)); [|done]. destruct (decide (n2 = info)); [done|].
  unfold on_store, remote_execute, on_gossip, on_pool. unfold_M. simpl.
  destruct (m (n_store s)) as [r d] eqn:Hm. simpl.
  destruct (po_execute_returns (host n2) (port n2) msg _ Hp) as (o & p' & -> & _). simpl.
  by rewrite Hm.
Qed.

Lemma replica_ops_commute {A} (m : M lww_store A) msg f n1 n2 :
  n1 ≠ n2 →
  commute (replica_wf (R := R) (P := P)) (replica_op info m msg f n1) (replica_op info m msg f n2).
Proof.
  intros Hne. destruct (decide (n1 = info)) as [E1|E1], (decide (n2 = info)) as [E2|E2].
  - congruence.
  - by apply local_remote_commute.
  - intros s Hs. destruct (local_remote_commute m msg f n2 n1 E2 E1 s Hs) as (? & ? & ?).
    by split_and!.
  - intros s [Hp Hd]. unfold replica_op.
    destruct (decide (n1 = info)), (decide (n2 = info)); try done.
    assert ((host n1, port n1) ≠ (host n2, port n2)) as Hhp.
    { destruct n1, n2. simpl. congruence. }
    destruct (po_execute_commute _ _ msg _ _ msg Hhp _ Hp) as (Hc1 & Hc2 & Hc3).
    unfold remote_execute, on_gossip, on_pool. unfold_M.
    destruct (po_execute_returns (host n1) (port n1) msg _ Hp) as (o1 & p1 & He1 & Hp1).
    destruct (po_execute_returns (host n2) (port n2) msg _ Hp) as (o2 & p2 & He2 & Hp2).
    destruct (po_execute_returns (host n2) (port n2) msg _ Hp1) as (o3 & p3 & He3 & _).
    destruct (po_execute_returns (host n1) (port n1) msg _ Hp2) as (o4 & p4 & He4 & _).
    rewrite He1, He2 in *. simpl in *. rewrite He3, He4 in *. simpl in *. by simplify_eq.
Qed.

(** The calls of one operation, one per replica, in any order of effects. *)
Lemma gather_replicas {A} (m : M lww_store A) msg f (wrap : M N A → M N A) order ns s :
  (∀ d, dict_wf d → ∃ a, (m d).1 = Ok a ∧ dict_wf (m d).2) →
  (∀ t1 t2, commute replica_wf t1 t2 → commute replica_wf (wrap t1) (wrap t2)) →
  (∀ t, preserves replica_wf t → preserves replica_wf (wrap t)) →
  NoDup ns → order ≡ₚ seq 0 (length ns) → replica_wf s →
  let tasks := (λ n, wrap (replica_op info m msg f n)) <$> ns in
  gather order tasks s = (Ok (run_all tasks s).1, (run_all tasks s).2).
Proof.
  intros Hm Hwc Hwp Hnd Hord Hs tasks. apply (gather_any_schedule replica_wf); [| done | |].
  - unfold schedule_of, tasks. by rewrite length_fmap.
  - intros i t (n & -> & _)%list_lookup_fmap_Some. apply Hwp. intros s0 Hs0.
    destruct (replica_op_run info m msg f n s0 Hm Hs0) as (r & s' & -> & ? & _). done.
  - intros i j t1 t2 Hne (n1 & -> & Hn1)%list_lookup_fmap_Some (n2 & -> & Hn2)%list_lookup_fmap_Some.
    apply Hwc, replica_ops_commute. intros ->. by pose proof (NoDup_lookup _ _ _ _ Hnd Hn1 Hn2).
Qed.
End independent.

(** ** The operations *)
Section operations.
Context {R P : Type} `{RingLaws R} `{PoolIndependent P} (info : NodeInfo) (replication : Z).
Abbreviation N := (node_state R P).
Implicit Types (s : N).

Lemma lww_call_total {A} (m : M lww_store A) (a : lww_store → A) f k d :
  (∀ d, m d = (Ok (a d), dict_alter f d k)) → dict_wf d → ∃ a, (m d).1 = Ok a ∧ dict_wf (m d).2.
Proof. intros Hm Hd. rewrite Hm. eexists. split; [done|]. by apply dict_alter_wf. Qed.

(** The writes of a [set] or a [delete], concurrent and in sequence. *)
Lemma writes_any_schedule (m : M lww_store bool) msg
    (body : ReplicaHandle N → M N bool) c order ns s :
  (∀ n, body (make_handle info c n) = replica_op info m msg (λ r, Ok (accepted r)) n) →
  (∀ d, dict_wf d → ∃ a, (m d).1 = Ok a ∧ dict_wf (m d).2) →
  NoDup ns → order ≡ₚ seq 0 (length ns) → replica_wf s →
  (results ← gather order (body <$> _make_handles_async info c ns); mret (any_true results)) s =
  (results ← map_each (_make_handles info c ns) body; mret (existsb id results)) s.
Proof.
  intros Hbody Hm Hnd Hord Hs.
  change (_make_handles_async info c ns) with (_make_handles (R := R) (P := P) info c ns).
  assert (body <$> _make_handles info c ns =
    replica_op info m msg (λ r, Ok (accepted r)) <$> ns) as Heq.
  { unfold _make_handles. rewrite <- list_fmap_compose. apply list_fmap_ext. intros i n _.
    apply Hbody. }
  set (tasks := replica_op (R := R) (P := P) info m msg (λ r, Ok (accepted r)) <$> ns) in *.
  assert (gather order tasks s = (Ok (run_all tasks s).1, (run_all tasks s).2)) as Hg.
  { exact (gather_replicas info m msg (λ r, Ok (accepted r)) id order ns s Hm (λ _ _ H, H)
      (λ _ H, H) Hnd Hord Hs). }
  destruct (map_each_run_all replica_wf (_make_handles info c ns) body s) as (bs & Hmap & Hall);
    [done| |].
  - intros h s0 (n & -> & _)%list_elem_of_fmap Hs0. rewrite Hbody.
    destruct (replica_op_run info m msg (λ r, Ok (accepted r)) n s0 Hm Hs0)
      as (r & s' & Hr & Hs' & _ & Hok).
    destruct Hok as [b ->]; [by eexists|]. by exists b, s'.
  - rewrite Heq in *. step_M Hg. step_M Hmap. rewrite Hall. unfold mret, M_ret.
    by rewrite any_true_Ok.
Qed.

(** Whatever the order in which the replicas are reached, the asynchronous calls run as
    the synchronous ones. *)
Lemma async_calls_run c key v ttl order s :
  replica_wf s → r_wf (g_ring (n_gossip s)) →
  order ≡ₚ seq 0 (length (replicas replication key s)) →
  node_get_async info replication (async_lww_read_resolve order) c key s =
    node_get info replication lww_read_resolve c key s ∧
  node_set_async info replication order c key v ttl s = node_set info replication c key v ttl s ∧
  node_delete_async info replication order c key s = node_delete info replication c key s.
Proof.
  intros Hs Hring Hord.
  assert (NoDup (replicas replication key s)) as Hnd by (by apply r_get_nodes_nodup).
  unfold node_get_async, node_get, node_set_async, node_set, node_delete_async, node_delete.
  assert (∀ (A : Type) (f : N → M N A), (get_state ≫= f) s = f s s) as Hst by done.
  rewrite !Hst.
  destruct (replicas replication key s) as [|n ns] eqn:Hr; [done|]. split_and!.
  - rewrite lww_read_resolve_run. unfold async_lww_read_resolve.
    set (tasks := (λ n, try_except (replica_op (R := R) (P := P) info (lww_get_versioned c key)
      (get_request key) decode_get n) (λ _, mret None)) <$> n :: ns).
    change (_make_handles_async info c (n :: ns))
      with (_make_handles (R := R) (P := P) info c (n :: ns)).
    assert (fetch key <$> _make_handles info c (n :: ns) = tasks) as ->.
    { unfold _make_handles. rewrite <- list_fmap_compose. apply list_fmap_ext. intros i m _.
      unfold fetch, compose. by rewrite handle_get_op. }
    assert (gather order tasks s = (Ok (run_all tasks s).1, (run_all tasks s).2)) as Hg.
    { apply (gather_replicas info _ _ _ (λ t, try_except t (λ _, mret None))); try done.
      - intros d. eapply lww_call_total. apply lww_get_versioned_run.
      - intros t1 t2. apply try_commute.
      - intros t. apply try_preserves. }
    by step_M Hg.
  - apply (writes_any_schedule (lww_set c key v ttl (Some (time_ns c)))
      (set_request key v ttl (time_ns c))); try done.
    + intros m. apply handle_set_op.
    + intros d. eapply lww_call_total. apply lww_set_run.
  - apply (writes_any_schedule (lww_delete c key (Some (time_ns c)))
      (delete_request key (time_ns c))); try done.
    + intros m. apply handle_delete_op.
    + intros d. eapply lww_call_total. apply lww_delete_run.
Qed.

(** C10. The asynchronous node does what the synchronous node does.  Whatever the
    order in which the concurrent requests to the replicas take effect, [get],
    [set] and [delete] of the asynchronous node return the same result and leave
    the same state as those of the synchronous node, when requests to different
    peers do not interfere. *)
Theorem async_node_equiv c key v ttl order s :
  replica_wf s → r_wf (g_ring (n_gossip s)) →
  order ≡ₚ seq 0 (length (replicas replication key s)) →
  node_get_async info replication (async_lww_read_resolve order) c key s =
    node_get info replication lww_read_resolve c key s ∧
  node_set_async info replication order c key v ttl s = node_set info replication c key v ttl s ∧
  node_delete_async info replication order c key s = node_delete info replication c key s.
Proof. apply async_calls_run. Qed.
End operations.
