(* ===== verification/Cluster.v ===== *)
(** * A cluster seen from one of its nodes

    The other nodes, each with the state of [Node] and a clock, behind a network
    that may lose a request, lose a reply or deliver a request more than once.  This
    world is a pool: executing a request on it has the peer answer as its server
    does, so that the operations of a node can be followed to the replicas. *)
From S2P Require Import Prelude Async PyBase PyDict Types Store LwwStore Ring Dispatcher.
From S2P Require Import PoolOps Consistency Discovery Gossip Node Replicas.

(** What becomes of the next request to a peer: it is handled at the given clocks,
    not at all when it is lost and more than once when it is sent again, and the
    last reply arrives or not. *)
Record delivery := mkDelivery { dl_handled : list clock; dl_replied : bool }.

(** A peer: its node, whose own outbound pool is scripted, what happens to the next
    requests, and the clock of the requests after those. *)
Record peer := mkPeer {
  pr_node : node_state ring script;
  pr_net : list delivery;
  pr_clock : clock;
}.

Abbreviation world := (gmap NodeInfo peer).

#[local] Existing Instance scripted_pool.

(** The peer's server handles a request; when that raises, it closes the connection
    and the client gets nothing. *)
Definition handled (n : NodeInfo) (c : clock) (msg : Message) (s : node_state ring script) :
    option Message * node_state ring script :=
  match answer n c msg s with
  | (Ok reply, s') => (Some reply, s')
  | (Raise _, s') => (None, s')
  end.

(** The same request, handled at each of some clocks: the last reply. *)
Fixpoint handled_at (n : NodeInfo) (cs : list clock) (msg : Message)
    (s : node_state ring script) : option Message * node_state ring script :=
  match cs with
  | [] => (None, s)
  | [c] => handled n c msg s
  | c :: cs => handled_at n cs msg (handled n c msg s).2
  end.

(** A request reaches the peer as its network decides; once that is over, every
    request is answered. *)
Definition visit (n : NodeInfo) (msg : Message) (pr : peer) : option Message * peer :=
  match pr_net pr with
  | [] => let '(o, s) := handled n (pr_clock pr) msg (pr_node pr) in (o, mkPeer s [] (pr_clock pr))
  | d :: net =>
      let '(o, s) := handled_at n (dl_handled d) msg (pr_node pr) in
      (if dl_replied d then o else None, mkPeer s net (pr_clock pr))
  end.

Definition world_execute (h : string) (prt : Z) (msg : Message) : M world (option Message) := λ w,
  let n := mkNodeInfo h prt in
  match w !! n with
  | None => (Ok None, w)
  | Some pr => let '(o, pr') := visit n msg pr in (Ok o, <[n := pr']> w)
  end.

#[export] Instance world_pool : PoolOps world := {
  po_execute := world_execute;
  po_close_peer _ _ := mret tt;
  po_close_all := mret tt;
}.

(** ** The world is a pool that keeps its peers apart *)

Definition peer_wf (pr : peer) : Prop := dict_wf (n_store (pr_node pr)).
Definition world_wf (w : world) : Prop := map_Forall (λ _ pr, peer_wf pr) w.

Lemma dispatch_wf c msg (d : lww_store) : dict_wf d → dict_wf (dispatch c msg d).2.
Proof.
  intros Hd. unfold dispatch. unfold_M. simpl. destruct (m_type msg); try done.
  - destruct (payload_item p_key msg) as [k|]; [|done]. rewrite lww_get_versioned_run.
    destruct (Spec.read _ _).1 as [[[? ?] []]|]; by apply dict_alter_wf.
  - destruct (payload_item p_key msg) as [k|]; [|done].
    destruct (payload_item p_value msg) as [v|]; [|done].
    destruct (payload_get p_ttl msg) as [ttl|]; [|done].
    destruct (payload_get p_ts msg) as [ts|]; [|done].
    rewrite lww_set_run. by apply dict_alter_wf.
  - destruct (payload_item p_key msg) as [k|]; [|done].
    destruct (payload_get p_ts msg) as [ts|]; [|done].
    rewrite lww_delete_run. destruct (Spec.lived _); by apply dict_alter_wf.
Qed.

Lemma handled_wf n c msg s : dict_wf (n_store s) → dict_wf (n_store (handled n c msg s).2).
Proof.
  intros Hs. unfold handled, answer, on_gossip, on_store, zoom. destruct (is_gossip (m_type msg)).
  - by destruct (handle_message n msg (n_gossip s)) as [[] g].
  - pose proof (dispatch_wf c msg (n_store s) Hs). by destruct (dispatch c msg _) as [[] d].
Qed.

Lemma handled_at_wf n cs msg s :
  dict_wf (n_store s) → dict_wf (n_store (handled_at n cs msg s).2).
Proof.
  revert s. induction cs as [|c [|c' cs] IH]; intros s Hs; [done|by apply handled_wf|].
  by apply IH, handled_wf.
Qed.

Lemma visit_wf n msg pr : peer_wf pr → peer_wf (visit n msg pr).2.
Proof.
  unfold peer_wf, visit. intros Hpr. destruct (pr_net pr) as [|d net].
  - pose proof (handled_wf n (pr_clock pr) msg _ Hpr). by destruct (handled _ _ _ _).
  - pose proof (handled_at_wf n (dl_handled d) msg _ Hpr). by destruct (handled_at _ _ _ _).
Qed.

Lemma world_execute_returns h prt msg w :
  world_wf w → ∃ o w', world_execute h prt msg w = (Ok o, w') ∧ world_wf w'.
Proof.
  intros Hw. unfold world_execute. destruct (w !! mkNodeInfo h prt) as [pr|] eqn:Hpr; [|by eexists _, _].
  pose proof (visit_wf (mkNodeInfo h prt) msg pr (Hw _ _ Hpr)) as Hv.
  destruct (visit _ _ _) as [o pr']. eexists _, _. split; [done|]. by apply map_Forall_insert_2.
Qed.

Lemma world_close h prt w : world_wf w → ∃ w', po_close_peer h prt w = (Ok tt, w') ∧ world_wf w'.
Proof. intros Hw. by exists w. Qed.

#[export] Instance world_pool_laws : PoolOpsLaws world :=
  @Build_PoolOpsLaws world world_pool world_wf world_execute_returns world_close.

#[export] Instance world_independent : PoolIndependent world.
Proof.
  constructor. intros h1 p1 m1 h2 p2 m2 Hne w _. simpl. unfold world_execute.
  assert (mkNodeInfo h1 p1 ≠ mkNodeInfo h2 p2) as Hn by congruence.
  destruct (w !! mkNodeInfo h1 p1) as [pr1|] eqn:Hw1, (w !! mkNodeInfo h2 p2) as [pr2|] eqn:Hw2;
    try destruct (visit _ m1 pr1) as [o1 pr1'] eqn:Hv1; try destruct (visit _ m2 pr2) as [o2 pr2'] eqn:Hv2;
    simpl; rewrite ?Hw1, ?Hw2, ?lookup_insert_ne, ?Hw1, ?Hw2 by done; rewrite ?Hv1, ?Hv2; simpl;
    split_and!; try done; by rewrite insert_insert_ne.
Qed.

(** ** Sample clusters *)
Section samples.
Definition one_entry : lww_store := [("a", mkEntry (Val (VInt 1)) None 5%Z)].

Definition sample_members : list NodeInfo := [mkNodeInfo "10.0.0.1" 7000; mkNodeInfo "10.0.0.2" 7001].

(** A node and its peer, both holding [one_entry]. *)
Definition sample_cluster (net : list delivery) : node_state ring world :=
  mkNode (mkGossip sample_members
      {[ mkNodeInfo "10.0.0.2" 7001 := mkPeer
          (mkNode (mkGossip sample_members [] (StaticDiscovery [])) one_entry true false)
          net sample_clock ]} (StaticDiscovery [])) one_entry true false.

Lemma one_entry_wf : dict_wf one_entry.
Proof. apply NoDup_singleton. Qed.

Lemma sample_members_wf : ring_wf sample_members.
Proof. by apply (bool_decide_unpack (NoDup sample_members)). Qed.

Lemma sample_cluster_wf net : replica_wf (sample_cluster net).
Proof.
  split; [|exact one_entry_wf]. apply map_Forall_singleton. exact one_entry_wf.
Qed.

Lemma async_node_equiv_witness :
  let info := mkNodeInfo "10.0.0.1" 7000 in
  let s := sample_cluster [mkDelivery [sample_clock; sample_clock] true] in
  node_get_async info 2 (async_lww_read_resolve [1; 0]) sample_clock "a" s =
    node_get info 2 lww_read_resolve sample_clock "a" s ∧
  node_set_async info 2 [1; 0] sample_clock "a" (VInt 7) None s =
    node_set info 2 sample_clock "a" (VInt 7) None s ∧
  node_delete_async info 2 [1; 0] sample_clock "a" s = node_delete info 2 sample_clock "a" s.
Proof.
  apply (async_node_equiv (R := ring) (P := world) (mkNodeInfo "10.0.0.1" 7000) 2 sample_clock "a"
    (VInt 7) None [1; 0] (sample_cluster [mkDelivery [sample_clock; sample_clock] true])).
  - apply sample_cluster_wf.
  - exact sample_members_wf.
  - vm_compute. apply Permutation_swap.
Defined.
End samples.
