(* ===== verification/Protocol.v ===== *)
(** * The protocol as a type discipline

    Which requests are well formed, what a reply to each must hold, and that both
    sides keep to it: a node answers exactly the well-formed requests, with replies
    of the right form, and the nodes send no others and can read every such reply. *)
From S2P Require Import Prelude Async PyBase Bytes PyDict Types Store LwwStore Ring Dispatcher.
From S2P Require Import Wire PoolOps Consistency Discovery Gossip GossipSpec Node Replicas Cluster.

(** ** The types *)

(** The field is in the payload. *)
Definition has {A} (field : payload → option A) (msg : Message) : bool :=
  match m_payload msg with
  | Some p => match field p with Some _ => true | None => false end
  | None => false
  end.

(** Both keys of a node are there. *)
Definition node_typed (d : node_dict) : bool :=
  match nd_host d, nd_port d with Some _, Some _ => true | _, _ => false end.

Definition peer_typed (msg : Message) : bool :=
  match m_payload msg with
  | Some p => match p_peer p with Some d => node_typed d | None => false end
  | None => false
  end.

(** The fields a request must have. *)
Definition request_ok (msg : Message) : bool :=
  match m_type msg with
  | PEER_ANNOUNCE | PEER_LEAVE => peer_typed msg
  | GET | DELETE => has p_key msg
  | SET => has p_key msg && has p_value msg
  | _ => true
  end.

Definition peers_typed (msg : Message) : bool :=
  match m_payload msg with
  | Some p => match p_peers p with Some ds => forallb node_typed ds | None => false end
  | None => false
  end.

(** What the reply to a request holds. *)
Definition reply_ok (request reply : Message) : bool :=
  match m_type request, m_type reply with
  | PING, PONG => has p_node reply
  | PEER_LIST, PEER_LIST => peers_typed reply
  | PEER_ANNOUNCE, OK | PEER_LEAVE, OK => true
  | GET, OK => has p_key reply && has p_value reply && has p_ts reply
  | GET, NOT_FOUND => has p_key reply && has p_ts reply
  | SET, OK => has p_key reply
  | DELETE, OK | DELETE, NOT_FOUND => has p_key reply
  | (PONG | OK | NOT_FOUND | ERROR), ERROR => has p_error reply
  | _, _ => false
  end.

(** The exception of a request without its fields. *)
Definition missing_field (msg : Message) : exn :=
  match m_payload msg with None => TypeError | Some _ => KeyError end.

Lemma payload_item_has {A} (field : payload → option A) msg :
  if has field msg then ∃ a, payload_item field msg = Ok a
  else payload_item field msg = Raise (missing_field msg).
Proof.
  unfold has, payload_item, missing_field. destruct (m_payload msg) as [p|]; [|done].
  destruct (field p); simpl; eauto.
Qed.

Lemma payload_get_has {A B} (field : payload → option A) (other : payload → option B) msg :
  has other msg = true → ∃ o, payload_get field msg = Ok o.
Proof. unfold has, payload_get. destruct (m_payload msg); [eauto|done]. Qed.

Lemma node_from_typed d :
  if node_typed d then ∃ n, node_from_dict d = Ok n else node_from_dict d = Raise KeyError.
Proof. unfold node_typed, node_from_dict. destruct d as [[h|] [p|]]; simpl; eauto. Qed.

(** ** Answering *)
Section answering.
Context {R P : Type} `{RingLaws R} `{PoolOpsLaws P} (info : NodeInfo).
Abbreviation N := (node_state R P).
Implicit Types (nd : N) (c : clock) (msg : Message).

Definition node_wf nd : Prop := gossip_wf (n_gossip nd) ∧ vs_wf (n_store nd).

Lemma dispatch_typed c msg (d : lww_store) :
  is_gossip (m_type msg) = false → vs_wf d → request_ok msg = true →
  ∃ reply d', dispatch c msg d = (Ok reply, d') ∧ reply_ok msg reply = true ∧ vs_wf d'.
Proof.
  intros Hg Hd. unfold request_ok, reply_ok, dispatch. unfold_M.
  destruct (m_type msg) eqn:Ht; try discriminate Hg; intros Hok; try by eexists _, _.
  - pose proof (payload_item_has p_key msg) as Hk. rewrite Hok in Hk. destruct Hk as [k ->].
    destruct (vs_get_versioned_spec c k d Hd) as (d' & -> & Hd' & _).
    destruct (Spec.read _ _).1 as [[[v ts] []]|]; eexists _, _; split_and!; done.
  - apply andb_prop in Hok as [Hok Hv].
    pose proof (payload_item_has p_key msg) as Hk. rewrite Hok in Hk. destruct Hk as [k ->].
    pose proof (payload_item_has p_value msg) as Hk. rewrite Hv in Hk. destruct Hk as [v ->].
    destruct (payload_get_has p_ttl p_key msg Hok) as [ttl ->].
    destruct (payload_get_has p_ts p_key msg Hok) as [ts ->].
    destruct (vs_set_spec c k v ttl ts d Hd) as (d' & -> & Hd' & _).
    eexists _, _; split_and!; done.
  - pose proof (payload_item_has p_key msg) as Hk. rewrite Hok in Hk. destruct Hk as [k ->].
    destruct (payload_get_has p_ts p_key msg Hok) as [ts ->].
    destruct (vs_delete_spec c k ts d Hd) as (d' & -> & Hd' & _).
    destruct (Spec.lived _); eexists _, _; split_and!; done.
Qed.

Lemma dispatch_untyped c msg (d : lww_store) :
  is_gossip (m_type msg) = false → request_ok msg = false →
  dispatch c msg d = (Raise (missing_field msg), d).
Proof.
  unfold request_ok, dispatch. unfold_M.
  destruct (m_type msg) eqn:Ht; try discriminate 1; intros _ Hok; try discriminate Hok.
  - pose proof (payload_item_has p_key msg) as Hk. rewrite Hok in Hk. by rewrite Hk.
  - pose proof (payload_item_has p_key msg) as Hk. destruct (has p_key msg); [|by rewrite Hk].
    destruct Hk as [k ->]. pose proof (payload_item_has p_value msg) as Hv.
    simpl in Hok. rewrite Hok in Hv. by rewrite Hv.
  - pose proof (payload_item_has p_key msg) as Hk. rewrite Hok in Hk. by rewrite Hk.
Qed.

Lemma peer_typed_parses msg :
  if peer_typed msg
  then ∃ d n, payload_item p_peer msg = Ok d ∧ node_from_dict d = Ok n
  else payload_item p_peer msg = Raise (missing_field msg) ∨
    ∃ d, payload_item p_peer msg = Ok d ∧ node_from_dict d = Raise (missing_field msg).
Proof.
  unfold peer_typed, payload_item, missing_field. destruct (m_payload msg) as [p|]; [|by left].
  destruct (p_peer p) as [d|]; [|by left]. pose proof (node_from_typed d) as Hd.
  destruct (node_typed d); [|by right; eexists].
  destruct Hd as [n Hn]. by exists d, n.
Qed.

Lemma forallb_typed (ns : list NodeInfo) : forallb node_typed (node_to_dict <$> ns) = true.
Proof. by induction ns. Qed.

Lemma gossip_typed msg (g : gossip_state R P) :
  is_gossip (m_type msg) = true → gossip_wf g → request_ok msg = true →
  ∃ reply g', handle_message info msg g = (Ok reply, g') ∧ reply_ok msg reply = true ∧ gossip_wf g'.
Proof.
  intros Hg Hwf. unfold request_ok, reply_ok, handle_message.
  pose proof (peer_typed_parses msg) as Hp.
  destruct (m_type msg) eqn:Ht; try discriminate Hg; intros Hok; try by eexists _, _.
  - eexists _, _. split; [reflexivity|]. split; [|done]. apply forallb_typed.
  - rewrite Hok in Hp. destruct Hp as (d & n & Hd & Hn). unfold_M. rewrite Hd, Hn.
    case_decide; [by eexists _, _|]. destruct (admit_peer_run n g Hwf) as (g' & Hrun & _ & ? & _).
    rewrite Hrun. by eexists _, _.
  - rewrite Hok in Hp. destruct Hp as (d & n & Hd & Hn). unfold_M. rewrite Hd, Hn.
    destruct (drop_peer_run n g Hwf) as (g' & Hrun & ? & _). rewrite Hrun. by eexists _, _.
Qed.

Lemma gossip_untyped msg (g : gossip_state R P) :
  is_gossip (m_type msg) = true → request_ok msg = false →
  handle_message info msg g = (Raise (missing_field msg), g).
Proof.
  unfold request_ok, handle_message. pose proof (peer_typed_parses msg) as Hp.
  destruct (m_type msg) eqn:Ht; try discriminate 1; intros _ Hok; try discriminate Hok;
    rewrite Hok in Hp; unfold_M; destruct Hp as [->|(d & -> & ->)]; done.
Qed.

(** C14. Answering is typed.  A node answers a message exactly when it holds the
    fields its type calls for: then the reply has the type and the fields that go
    with the request and the node stays well-formed; a message that lacks a field
    raises [KeyError], or [TypeError] when it has no payload at all, and changes
    nothing. *)
Theorem answer_typed c msg nd :
  node_wf nd →
  if request_ok msg
  then ∃ reply nd', answer info c msg nd = (Ok reply, nd') ∧ reply_ok msg reply = true ∧ node_wf nd'
  else answer info c msg nd = (Raise (missing_field msg), nd).
Proof.
  intros [Hg Hs]. unfold answer, on_gossip, on_store, zoom.
  destruct (request_ok msg) eqn:Hok, (is_gossip (m_type msg)) eqn:Ht.
  - destruct (gossip_typed msg (n_gossip nd)) as (reply & g' & -> & ? & ?); [done..|].
    by eexists _, _.
  - destruct (dispatch_typed c msg (n_store nd)) as (reply & d' & -> & ? & ?); [done..|].
    by eexists _, _.
  - rewrite gossip_untyped by done. by destruct nd.
  - rewrite dispatch_untyped by done. by destruct nd.
Qed.
End answering.

(** ** Speaking *)

(** A pool through which every well-formed request gets a well-formed reply, if any. *)
Class PoolTyped (P : Type) `{PoolOpsLaws P} : Prop :=
  po_execute_typed h prt msg (p p' : P) reply :
    po_wf p → request_ok msg = true → po_execute h prt msg p = (Ok (Some reply), p') →
    reply_ok msg reply = true.

(** [m] returns a value satisfying [Q] and keeps [Inv]. *)
Definition speaks {S A} (Inv : S → Prop) (m : M S A) (Q : A → Prop) : Prop :=
  ∀ s, Inv s → ∃ a s', m s = (Ok a, s') ∧ Inv s' ∧ Q a.

Section rules.
Context {S : Type} (Inv : S → Prop).

Lemma speaks_ret {A} (a : A) (Q : A → Prop) : Q a → speaks Inv (mret a) Q.
Proof. intros HQ s Hs. by exists a, s. Qed.

Lemma speaks_bind {A B} (m : M S A) (f : A → M S B) Q Q' :
  speaks Inv m Q → (∀ a, Q a → speaks Inv (f a) Q') → speaks Inv (m ≫= f) Q'.
Proof.
  intros Hm Hf s Hs. destruct (Hm s Hs) as (a & s1 & H1 & Hs1 & HQ).
  destruct (Hf a HQ s1 Hs1) as (b & s2 & H2 & Hs2 & HQ'). exists b, s2. by step_M H1.
Qed.

Lemma speaks_mono {A} (m : M S A) (Q Q' : A → Prop) :
  speaks Inv m Q → (∀ a, Q a → Q' a) → speaks Inv m Q'.
Proof. intros Hm HQ s Hs. destruct (Hm s Hs) as (a & s' & ? & ? & ?). exists a, s'. auto. Qed.

Lemma speaks_then {A B} (m : M S A) (f : A → B) :
  speaks Inv m (λ _, True) → speaks Inv (m ≫= λ a, mret (f a)) (λ _, True).
Proof. intros Hm. eapply speaks_bind; [exact Hm|]. intros ? _. by apply speaks_ret. Qed.

Lemma speaks_get (Q : S → Prop) : (∀ s, Inv s → Q s) → speaks Inv get_state Q.
Proof. intros HQ s Hs. exists s, s. auto. Qed.

Lemma speaks_modify f : (∀ s, Inv s → Inv (f s)) → speaks Inv (modify f) (λ _, True).
Proof. intros Hf s Hs. exists tt, (f s). auto. Qed.

Lemma speaks_lift {A} (r : result A) (Q : A → Prop) :
  (∃ a, r = Ok a ∧ Q a) → speaks Inv (lift_result r) Q.
Proof. intros (a & -> & HQ) s Hs. by exists a, s. Qed.

Lemma speaks_try {A} (m : M S A) h (Q : A → Prop) : speaks Inv m Q → speaks Inv (try_except m h) Q.
Proof.
  intros Hm s Hs. destruct (Hm s Hs) as (a & s' & H1 & ? & ?). exists a, s'.
  unfold try_except. by rewrite H1.
Qed.

Lemma speaks_for_each {A} (xs : list A) body :
  (∀ x, x ∈ xs → speaks Inv (body x) (λ _, True)) → speaks Inv (for_each xs body) (λ _, True).
Proof.
  induction xs as [|x xs IH]; intros Hbody; [by apply speaks_ret|].
  apply speaks_bind with (λ _, True); [apply Hbody; left|]. intros ? _.
  apply IH. intros y Hy. apply Hbody. by right.
Qed.

Lemma speaks_map_each {A B} (xs : list A) (body : A → M S B) :
  (∀ x, x ∈ xs → speaks Inv (body x) (λ _, True)) → speaks Inv (map_each xs body) (λ _, True).
Proof.
  induction xs as [|x xs IH]; intros Hbody; [by apply speaks_ret|].
  eapply speaks_bind; [apply Hbody; left|]. intros ? _.
  eapply speaks_bind; [apply IH; intros y Hy; apply Hbody; by right|].
  intros ? _. by apply speaks_ret.
Qed.

Lemma speaks_gather {A} order (tasks : list (M S A)) :
  (∀ t, t ∈ tasks → speaks Inv t (λ _, True)) → speaks Inv (gather order tasks) (λ _, True).
Proof.
  intros Ht s Hs. unfold gather.
  assert (∀ st, Inv st.1 → Inv (foldl (gather_step tasks) st order).1) as Hfold.
  { clear s Hs. induction order as [|i order IH]; intros st Hst; [done|]. simpl. apply IH.
    unfold gather_step. destruct (tasks !! i) as [t|] eqn:Hi; [|done].
    destruct (Ht t (list_elem_of_lookup_2 _ _ _ Hi) st.1 Hst) as (a & s' & -> & ? & _). done. }
  specialize (Hfold (s, replicate (length tasks) None) Hs).
  destruct (foldl _ _ _) as [s' slots]. by eexists _, _.
Qed.
End rules.

Lemma speaks_zoom {S T A} (Inv : S → Prop) (Inv' : T → Prop) getter setter (m : M T A) Q :
  (∀ s, Inv s → Inv' (getter s)) → (∀ s t, Inv s → Inv' t → Inv (setter t s)) →
  speaks Inv' m Q → speaks Inv (zoom getter setter m) Q.
Proof.
  intros Hget Hset Hm s Hs. destruct (Hm (getter s) (Hget s Hs)) as (a & t & H1 & Ht & ?).
  exists a, (setter t s). unfold zoom. rewrite H1. auto.
Qed.

Section speaking.
Context {R P : Type} `{RingLaws R} `{PoolTyped P} (info : NodeInfo).
Abbreviation G := (gossip_state R (traced P)).
Abbreviation N := (node_state R (traced P)).

(** Well-formed, and every request sent so far was. *)
Definition gossip_clean (g : G) : Prop :=
  gossip_wf g ∧ Forall (λ t, request_ok t.2 = true) (g_pool g).2.

Definition node_clean (nd : N) : Prop := gossip_clean (n_gossip nd) ∧ vs_wf (n_store nd).

Lemma send_speaks msg peer :
  request_ok msg = true →
  speaks gossip_clean (send_to msg peer)
    (λ o, ∀ reply, o = Some reply → reply_ok msg reply = true).
Proof.
  intros Hok g [Hg Htr]. destruct (send_to_run msg peer g Hg) as (o & g' & Hrun & (p' & He & ->) & Hg' & _).
  exists o, (mkGossip (g_ring g) p' (g_disc g)). split; [done|]. destruct Hg as [_ _ Hp].
  simpl in He. destruct (po_execute (host peer) (port peer) msg (g_pool g).1) as [r p1] eqn:He'.
  injection He as -> <-. split.
  - split; [done|]. simpl. apply Forall_app. by split; [|apply Forall_singleton].
  - intros reply ->. exact (po_execute_typed (P := P) _ _ _ _ _ _ Hp Hok He').
Qed.

Lemma drop_speaks peer : speaks gossip_clean (drop_peer peer) (λ _, True).
Proof.
  intros g [Hg Htr]. destruct (drop_peer_run peer g Hg) as (g' & Hrun & Hg' & _).
  exists tt, g'. split_and!; [done| |done]. split; [done|].
  revert Hrun. unfold drop_peer, on_pool. unfold_M. simpl. unfold_M.
  destruct (po_close_peer _ _ _) as [[[]|] p1]; [|done]. by intros [= <-].
Qed.

Lemma learn_speaks known raw :
  node_typed raw = true → speaks gossip_clean (learn info known raw) (λ _, True).
Proof.
  intros Hraw. pose proof (node_from_typed raw) as Hn. rewrite Hraw in Hn. destruct Hn as [n Hn].
  unfold learn. apply speaks_bind with (λ _, True); [apply speaks_lift; by exists n|]. intros ? _.
  case_decide; [|by apply speaks_ret]. apply speaks_modify. intros g [[] ?].
  split; [|done]. split; simpl; auto using r_add_wf, discovery_add_wf.
Qed.

Lemma gossip_with_speaks peer : speaks gossip_clean (_gossip_with info peer) (λ _, True).
Proof.
  apply speaks_try. eapply speaks_bind; [by apply send_speaks|]. unfold take_in. intros [resp|] Hresp; [|apply drop_speaks].
  case_decide as Ht; [|by apply speaks_ret]. specialize (Hresp resp eq_refl).
  apply speaks_bind with (λ _, True); [by apply speaks_get|]. intros g _.
  unfold reply_ok, peers_typed in Hresp. rewrite Ht in Hresp. simpl in Hresp.
  unfold payload_get. destruct (m_payload resp) as [p|]; [|done].
  apply speaks_bind with (.= p_peers p); [apply speaks_lift; by eexists|]. intros ? ->.
  destruct (p_peers p) as [ds|]; [|done]. simpl. apply speaks_for_each. intros raw Hraw.
  apply learn_speaks. rewrite forallb_forall in Hresp. apply Hresp. by apply list_elem_of_In.
Qed.

Lemma broadcast_speaks msg : request_ok msg = true → speaks gossip_clean (_broadcast info msg) (λ _, True).
Proof.
  intros Hok. apply speaks_bind with (λ _, True); [by apply speaks_get|]. intros g _.
  apply speaks_for_each. intros n _. case_decide; [by apply speaks_ret|].
  eapply speaks_bind; [by apply send_speaks|]. intros ? _. by apply speaks_ret.
Qed.

Lemma broadcast_async_speaks order msg :
  request_ok msg = true → speaks gossip_clean (_broadcast_async info order msg) (λ _, True).
Proof.
  intros Hok. apply speaks_bind with (λ _, True); [by apply speaks_get|]. intros g _.
  eapply speaks_bind; [|intros ? _; by apply speaks_ret]. apply speaks_gather.
  intros t (n & -> & _)%list_elem_of_fmap. by eapply speaks_mono; [apply send_speaks|].
Qed.

Lemma round_speaks `{Resolver} choose : speaks gossip_clean (gossip_round info choose) (λ _, True).
Proof.
  intros g Hg. unfold gossip_round, gossip_round_by. unfold_M. simpl.
  destruct (get_peers (g_disc g)) as [ps|e]; [|by exists tt, g].
  destruct (filter _ ps) as [|p l]; [by exists tt, g|].
  destruct (speaks_for_each gossip_clean (choose (p :: l)) (_gossip_with info)) with (s := g)
    as ([] & g' & Hrun & ?); [intros; apply gossip_with_speaks|done|].
  exists tt, g'. by rewrite Hrun.
Qed.

Lemma on_gossip_speaks {A} (m : M G A) Q :
  speaks gossip_clean m Q → speaks node_clean (on_gossip m) Q.
Proof. apply speaks_zoom; [by intros ? []|]. by intros ? ? [? ?]. Qed.

Lemma on_store_speaks {A} (m : M lww_store A) : speaks vs_wf m (λ _, True) →
  speaks node_clean (on_store m) (λ _, True).
Proof. apply speaks_zoom; [by intros ? []|]. by intros ? ? [? ?]. Qed.

Lemma remote_speaks n msg :
  request_ok msg = true →
  speaks node_clean (remote_execute n msg) (λ o, ∀ reply, o = Some reply → reply_ok msg reply = true).
Proof. intros Hok. by apply on_gossip_speaks, send_speaks. Qed.

(** Whatever is asked of a handle. *)
Definition handle_speaks (h : ReplicaHandle N) : Prop :=
  (∀ k, speaks node_clean (h_get_versioned h k) (λ _, True)) ∧
  (∀ k v ttl ts, speaks node_clean (h_set h k v ttl ts) (λ _, True)) ∧
  (∀ k ts, speaks node_clean (h_delete h k ts) (λ _, True)).

Lemma store_speaks c k :
  speaks vs_wf (lww_get_versioned c k) (λ _, True) ∧ speaks vs_wf (lww_get c k) (λ _, True) ∧
  (∀ v ttl ts, speaks vs_wf (lww_set c k v ttl ts) (λ _, True)) ∧
  (∀ ts, speaks vs_wf (lww_delete c k ts) (λ _, True)).
Proof.
  split_and!; [| |intros v ttl ts|intros ts]; intros d Hd.
  - destruct (vs_get_versioned_spec c k d Hd) as (d' & Hrun & ? & _). by eexists _, d'.
  - destruct (vs_get_spec c k d Hd) as (d' & Hrun & ? & _). by eexists _, d'.
  - destruct (vs_set_spec c k v ttl ts d Hd) as (d' & Hrun & ? & _). by eexists _, d'.
  - destruct (vs_delete_spec c k ts d Hd) as (d' & Hrun & ? & _). by eexists _, d'.
Qed.

(** A well-formed reply to a GET can be read. *)
Lemma decode_get_typed k reply :
  reply_ok (get_request k) reply = true → ∃ o, decode_get (Some reply) = Ok o.
Proof.
  unfold reply_ok, decode_get, payload_get_or. simpl. destruct (m_type reply); try done; intros Hok.
  - apply andb_prop in Hok as [Hok _]. apply andb_prop in Hok as [Hok _].
    destruct (payload_get_has p_value p_key reply Hok) as [? ->].
    destruct (payload_get_has p_ts p_key reply Hok) as [? ->]. by eexists.
  - apply andb_prop in Hok as [Hok _].
    destruct (payload_get_has p_tombstone p_key reply Hok) as [? ->].
    destruct (payload_get_has p_ts p_key reply Hok) as [? ->]. by eexists.
Qed.

Lemma make_handle_speaks c n : handle_speaks (make_handle info c n).
Proof.
  unfold make_handle. case_decide.
  - split_and!; intros; apply on_store_speaks; by apply store_speaks.
  - split_and!; intros; (eapply speaks_bind; [by apply remote_speaks|]); intros resp Hresp;
      [|by apply speaks_ret..]. apply speaks_lift. destruct resp as [resp|]; [|by eexists].
    destruct (decode_get_typed k resp) as [o Ho]; [by apply Hresp|]. by exists o.
Qed.

Lemma handles_speak c ns h : h ∈ _make_handles info c ns → handle_speaks h.
Proof. intros (n & -> & _)%list_elem_of_fmap. apply make_handle_speaks. Qed.

Lemma fetch_speaks k h : handle_speaks h → speaks node_clean (fetch k h) (λ _, True).
Proof. intros [Hg _]. by apply speaks_try. Qed.

Lemma fhw_speaks k hs :
  (∀ h, h ∈ hs → handle_speaks h) → speaks node_clean (fhw_read_resolve k hs) (λ _, True).
Proof.
  induction hs as [|h hs IH]; intros Hhs; [by apply speaks_ret|]. intros nd Hnd. simpl.
  destruct (Hhs h) as [Hg _]; [left|]. destruct (Hg k nd Hnd) as (o & nd' & -> & Hnd' & _).
  specialize (IH (λ h Hh, Hhs h (list_elem_of_further _ _ _ Hh)) nd' Hnd').
  destruct o as [[[v ts] []]|]; [done| |done]. by eexists _, _.
Qed.

(** The calls a node's owner and its threads make, in either version. *)
Inductive node_call :=
  | CallGet (fhw : bool) (c : clock) (k : string)
  | CallSet (c : clock) (k : string) (v : pyval) (ttl : option Float.t)
  | CallDelete (c : clock) (k : string)
  | CallGetAsync (order : list nat) (c : clock) (k : string)
  | CallSetAsync (order : list nat) (c : clock) (k : string) (v : pyval) (ttl : option Float.t)
  | CallDeleteAsync (order : list nat) (c : clock) (k : string)
  | CallRound (choose : list NodeInfo → list NodeInfo)
  | CallJoin | CallLeave
  | CallJoinAsync (order : list nat) | CallLeaveAsync (order : list nat).

Context `{Resolver} (replication : Z).

(** What the call does, its result left out. *)
Definition do_call (call : node_call) : M N unit :=
  match call with
  | CallGet fhw c k =>
      node_get info replication (if fhw : bool then fhw_read_resolve else lww_read_resolve) c k ;;
      mret tt
  | CallSet c k v ttl => node_set info replication c k v ttl ;; mret tt
  | CallDelete c k => node_delete info replication c k ;; mret tt
  | CallGetAsync order c k =>
      node_get_async info replication (async_lww_read_resolve order) c k ;; mret tt
  | CallSetAsync order c k v ttl => node_set_async info replication order c k v ttl ;; mret tt
  | CallDeleteAsync order c k => node_delete_async info replication order c k ;; mret tt
  | CallRound choose => on_gossip (gossip_round info choose)
  | CallJoin => on_gossip (announce_join info)
  | CallLeave => on_gossip (announce_leave info)
  | CallJoinAsync order => on_gossip (announce_join_async info order)
  | CallLeaveAsync order => on_gossip (announce_leave_async info order)
  end.

(** A public operation: nothing but the node's own store when there are no replicas. *)
Ltac on_replicas :=
  apply speaks_bind with (λ _, True); [by apply speaks_get|]; intros nd _;
  match goal with |- context [replicas ?r ?k nd] => destruct (replicas r k nd) as [|? ?] end;
  [first [apply on_store_speaks; by apply store_speaks
         |apply speaks_then, on_store_speaks; by apply store_speaks]|].

Lemma writes_speak c ns (f : ReplicaHandle N → M N bool) (order : list nat) :
  (∀ h, handle_speaks h → speaks node_clean (f h) (λ _, True)) →
  speaks node_clean (map_each (_make_handles info c ns) f) (λ _, True) ∧
  speaks node_clean (gather order (f <$> _make_handles_async info c ns)) (λ _, True).
Proof.
  intros Hf. split.
  - apply speaks_map_each. intros h Hh. by eapply Hf, handles_speak.
  - apply speaks_gather. intros t (h & -> & Hh)%list_elem_of_fmap. by eapply Hf, handles_speak.
Qed.

Lemma call_speaks call : speaks node_clean (do_call call) (λ _, True).
Proof.
  destruct call; simpl;
    try (by apply on_gossip_speaks; first [apply round_speaks|apply broadcast_speaks|
      apply broadcast_async_speaks]);
    apply speaks_then;
    unfold node_get, node_set, node_delete, node_get_async, node_set_async, node_delete_async; on_replicas.
  - destruct fhw; [by eapply fhw_speaks, handles_speak|].
    apply speaks_then, speaks_map_each. intros h Hh. by eapply fetch_speaks, handles_speak.
  - apply speaks_then. by apply (writes_speak _ _ _ []); intros h (_ & ? & _).
  - apply speaks_then. by apply (writes_speak _ _ _ []); intros h (_ & _ & ?).
  - apply speaks_then. apply speaks_gather. intros t (h & -> & Hh)%list_elem_of_fmap. by eapply fetch_speaks, handles_speak.
  - apply speaks_then. by apply writes_speak; intros h (_ & ? & _).
  - apply speaks_then. by apply writes_speak; intros h (_ & _ & ?).
Qed.

(** C15. Nodes speak the protocol.  Over a pool whose replies are well formed, and
    whatever sequence of reads, writes, deletes, gossip rounds and announcements a
    node makes, in either version and under any schedule: every message it has
    sent is a well-formed request, no call raises, and the node stays
    well-formed. *)
Theorem nodes_speak_typed (calls : list node_call) (nd : N) :
  node_clean nd →
  ∃ nd', for_each calls do_call nd = (Ok tt, nd') ∧ node_wf nd' ∧
    Forall (λ t, request_ok t.2 = true) (g_pool (n_gossip nd')).2.
Proof.
  intros Hnd. destruct (speaks_for_each node_clean calls do_call (λ call _, call_speaks call) nd Hnd)
    as ([] & nd' & Hrun & [[Hg Htr] Hs] & _).
  exists nd'. split; [done|]. by split.
Qed.
End speaking.

(** ** A cluster keeps to the protocol *)

Section cluster.
#[local] Existing Instances scripted_pool scripted_pool_laws no_resolver.

Lemma message_reply_ok {R P} `{RingLaws R} `{PoolOps P} info msg reply (g g' : gossip_state R P) :
  is_gossip (m_type msg) = true → handle_message info msg g = (Ok reply, g') →
  reply_ok msg reply = true.
Proof.
  unfold handle_message, reply_ok. destruct (m_type msg); try discriminate 1; intros _.
  - by intros [= <- _].
  - by intros [= <- _].
  - intros [= <- _]. apply forallb_typed.
  - unfold_M. destruct (payload_item p_peer msg) as [d|]; [|done].
    destruct (node_from_dict d) as [n|]; [|done]. by case_decide; intros [= <- _].
  - unfold_M. destruct (payload_item p_peer msg) as [d|]; [|done].
    destruct (node_from_dict d) as [n|]; [|done]. destruct (drop_peer n g) as [[]]; [|done].
    by intros [= <- _].
Qed.

(** The nodes at the other end answer as the types say. *)
Lemma handled_reply_ok n c msg s reply s' :
  vs_wf (n_store s) → request_ok msg = true → handled n c msg s = (Some reply, s') →
  reply_ok msg reply = true.
Proof.
  intros Hs Hok. unfold handled, answer, on_gossip, on_store, zoom.
  destruct (is_gossip (m_type msg)) eqn:Ht.
  - destruct (handle_message n msg (n_gossip s)) as [[r|e] g] eqn:Hrun; [|done].
    intros [= <- _]. by eapply message_reply_ok.
  - destruct (dispatch_typed c msg (n_store s)) as (r & d & -> & ? & _); [done..|].
    by intros [= <- _].
Qed.

Lemma handled_at_reply_ok n cs msg s reply s' :
  vs_wf (n_store s) → request_ok msg = true → handled_at n cs msg s = (Some reply, s') →
  reply_ok msg reply = true.
Proof.
  revert s. induction cs as [|c [|c' cs] IH]; intros s Hs Hok; [done|by apply handled_reply_ok|].
  apply IH; [|done]. by apply handled_wf.
Qed.

#[export] Instance world_typed : PoolTyped world.
Proof.
  intros h prt msg w w' reply Hw Hok. simpl. unfold world_execute, visit.
  destruct (w !! mkNodeInfo h prt) as [pr|] eqn:Hpr; [|done]. specialize (Hw _ _ Hpr). simpl in Hw.
  destruct (pr_net pr) as [|d net].
  - destruct (handled _ _ _ _) as [o s] eqn:Hh. intros [= -> _]. by eapply handled_reply_ok.
  - destruct (handled_at _ _ _ _) as [o s] eqn:Hh. destruct (dl_replied d); [|done].
    intros [= -> _]. by eapply handled_at_reply_ok.
Qed.

Definition traced_cluster (net : list delivery) : node_state ring (traced world) :=
  let s := sample_cluster net in
  mkNode (mkGossip (g_ring (n_gossip s)) (g_pool (n_gossip s), []) (g_disc (n_gossip s)))
    (n_store s) true false.

Lemma answer_typed_witness :
  let nd := mkNode (mkGossip sample_members ([] : script) (StaticDiscovery [])) one_entry true false in
  let me := mkNodeInfo "10.0.0.1" 7000 in
  if request_ok (mkMessage SET (Some (key_fields "a")))
  then ∃ reply nd', answer me sample_clock (mkMessage SET (Some (key_fields "a"))) nd = (Ok reply, nd') ∧
    reply_ok (mkMessage SET (Some (key_fields "a"))) reply = true ∧ node_wf nd'
  else answer me sample_clock (mkMessage SET (Some (key_fields "a"))) nd =
    (Raise (missing_field (mkMessage SET (Some (key_fields "a")))), nd).
Proof.
  apply (answer_typed (mkNodeInfo "10.0.0.1" 7000) sample_clock (mkMessage SET (Some (key_fields "a")))
    (mkNode (mkGossip sample_members ([] : script) (StaticDiscovery [])) one_entry true false)).
  split; [|exact one_entry_wf]. by split; [exact sample_members_wf| |].
Defined.

Lemma nodes_speak_typed_witness :
  let calls := [CallJoin; CallSet sample_clock "a" (VInt 3) None; CallGet false sample_clock "a";
    CallDeleteAsync [1; 0] sample_clock "b"; CallRound (take 3); CallLeave] in
  ∃ nd', for_each calls (do_call (mkNodeInfo "10.0.0.1" 7000) 2) (traced_cluster []) =
      (Ok tt, nd') ∧ node_wf nd' ∧
    Forall (λ t, request_ok t.2 = true) (g_pool (n_gossip nd')).2.
Proof.
  apply (nodes_speak_typed (R := ring) (P := world) (mkNodeInfo "10.0.0.1" 7000)).
  split; [|exact one_entry_wf]. split; [|constructor]. split; [exact sample_members_wf|done|].
  apply (sample_cluster_wf []).
Defined.
End cluster.
