(* ===== verification/ClusterSpec.v ===== *)
(** * What a cluster guarantees

    The registers of a key at its replicas after reads and writes through a node,
    whatever the network does; a healthy cluster is a single store, and a value
    once acknowledged is what later reads return. *)
From S2P Require Import Prelude Async PyBase PyDict Types Store LwwStore Ring Dispatcher.
From S2P Require Import PoolOps Consistency Discovery Gossip Node Replicas Cluster.

(** ** Requests as register transitions *)

(** [msg] takes the register [o] of [key] to [f c o] and is answered [reply c o]. *)
Definition about (msg : Message) (key : string) (f : clock → option entry → option entry)
    (reply : clock → option entry → Message) : Prop :=
  is_gossip (m_type msg) = false ∧
  ∀ c (d : lww_store), dict_wf d → ∃ d', dispatch c msg d = (Ok (reply c (dict_get d key)), d') ∧
    dict_wf d' ∧
    ∀ k', dict_get d' k' = if decide (key = k') then f c (dict_get d k') else dict_get d k'.

Lemma get_about key :
  about (get_request key) key (λ c o, (Spec.read (monotonic c) o).2)
    (λ c o, get_reply key (Spec.read (monotonic c) o).1).
Proof.
  split; [done|]. intros c d Hd. destruct (@dispatch_get_run lww_store _ lww_versioned_laws c key d Hd) as (d' & Hr & Hw & He).
  exists d'. split_and!; [done|done|]. intros k'. rewrite (He k' : dict_get d' k' = _).
  case_decide; by subst.
Qed.

Lemma set_about key v ttl ts :
  about (set_request key v ttl ts) key
    (λ c o, (Spec.write (mkEntry (Val v) (expires_at c ttl) ts) o).2)
    (λ _ _, mkMessage OK (Some (key_fields key))).
Proof.
  split; [done|]. intros c d Hd.
  destruct (@dispatch_set_run lww_store _ lww_versioned_laws c key v ttl ts d Hd) as (d' & Hr & Hw & He). by exists d'.
Qed.

Lemma delete_about key ts :
  about (delete_request key ts) key (λ _ o, (Spec.write (mkEntry TOMBSTONE None ts) o).2)
    (λ _ o, delete_reply key (Spec.lived o)).
Proof.
  split; [done|]. intros c d Hd.
  destruct (@dispatch_delete_run lww_store _ lww_versioned_laws c key ts d Hd) as (d' & Hr & Hw & He). by exists d'.
Qed.

(** What a request about a key leaves alone at the node that serves it. *)
Definition node_aside (s : node_state ring script) := (n_gossip s, n_listening s, n_stopped s).

Section handling.
Context (n : NodeInfo) (msg : Message) (key : string)
  (f : clock → option entry → option entry) (reply : clock → option entry → Message).
Hypothesis Habout : about msg key f reply.
Implicit Types (s : node_state ring script).

Lemma handled_about c s :
  dict_wf (n_store s) → ∃ s', handled n c msg s = (Some (reply c (dict_get (n_store s) key)), s') ∧
    node_aside s' = node_aside s ∧ dict_wf (n_store s') ∧
    ∀ k', dict_get (n_store s') k' =
      if decide (key = k') then f c (dict_get (n_store s) k') else dict_get (n_store s) k'.
Proof.
  destruct Habout as [Hg Hrun]. intros Hs. destruct (Hrun c _ Hs) as (d' & Hd & Hw & He).
  unfold handled, answer. rewrite Hg. unfold on_store. erewrite zoom_run by exact Hd. by eexists.
Qed.

(** The register after the request was handled at each of [cs]. *)
Definition after (cs : list clock) (o : option entry) : option entry := foldl (λ o c, f c o) o cs.

Lemma handled_at_about cs s :
  dict_wf (n_store s) → ∃ o s', handled_at n cs msg s = (o, s') ∧ node_aside s' = node_aside s ∧ dict_wf (n_store s') ∧
    (∀ k', dict_get (n_store s') k' =
      if decide (key = k') then after cs (dict_get (n_store s) k') else dict_get (n_store s) k') ∧
    (∀ r, o = Some r → ∃ cs0 c, cs = cs0 ++ [c] ∧ r = reply c (after cs0 (dict_get (n_store s) key))).
Proof.
  revert s. induction cs as [|c cs IH]; intros s Hs.
  { exists None, s. split_and!; [done..| |done]. intros k'. by case_decide. }
  destruct (handled_about c s Hs) as (s1 & Hrun & Hg1 & Hs1 & He). destruct cs as [|c' cs].
  { eexists _, s1. split; [exact Hrun|]. split_and!; [done|done|done|].
    intros r [= <-]. by exists [], c. }
  destruct (IH s1 Hs1) as (o & s2 & Hrun2 & Hg2 & Hs2 & He2 & Ho). exists o, s2. split_and!.
  - change (handled_at n (c' :: cs) msg (handled n c msg s).2 = (o, s2)). by rewrite Hrun.
  - congruence.
  - done.
  - intros k'. rewrite He2, He. by case_decide.
  - intros r Hr. destruct (Ho r Hr) as (cs0 & c0 & -> & ->). exists (c :: cs0), c0.
    split; [done|]. rewrite He. by destruct (decide (key = key)).
Qed.

(** A visit handles the request some number of times; it is answered when the
    network lets everything through. *)
Lemma visit_about pr :
  peer_wf pr → let '(o, pr') := visit n msg pr in ∃ cs,
    (∀ k', dict_get (n_store (pr_node pr')) k' = if decide (key = k')
      then after cs (dict_get (n_store (pr_node pr)) k') else dict_get (n_store (pr_node pr)) k') ∧
    (∀ r, o = Some r → ∃ cs0 c, cs = cs0 ++ [c] ∧
      r = reply c (after cs0 (dict_get (n_store (pr_node pr)) key))) ∧
    (pr_net pr = [] → pr_net pr' = [] ∧ cs = [pr_clock pr] ∧
      o = Some (reply (pr_clock pr) (dict_get (n_store (pr_node pr)) key))) ∧
    pr_clock pr' = pr_clock pr ∧ node_aside (pr_node pr') = node_aside (pr_node pr).
Proof.
  intros Hwf. unfold visit. destruct (pr_net pr) as [|d net].
  - destruct (handled_about (pr_clock pr) _ Hwf) as (s1 & Hh & Hgs & Hw1 & Hg1). rewrite Hh.
    exists [pr_clock pr]. split_and!; [done| |done|done|done].
    intros r [= <-]. by exists [], (pr_clock pr).
  - destruct (handled_at_about (dl_handled d) _ Hwf) as (o1 & s1 & Hh & Hgs & Hw1 & Hg1 & Ho1). rewrite Hh.
    exists (dl_handled d). split_and!; [done| |done|done|done].
    intros r. destruct (dl_replied d); [apply Ho1|done].
Qed.
End handling.

(** ** The replicas seen from a node *)
Section cluster.
Context {R : Type} `{RingLaws R} (info : NodeInfo) (replication : Z).
Abbreviation N := (node_state R world).
Implicit Types (s : N) (n : NodeInfo).

(** The register of a key at a node. *)
Definition entry_at n (key : string) s : option entry :=
  if decide (n = info) then dict_get (n_store s) key
  else pr ← g_pool (n_gossip s) !! n; dict_get (n_store (pr_node pr)) key.

(** Requests to the node are answered from now on. *)
Definition reachable n s : Prop :=
  n = info ∨ ∃ pr, g_pool (n_gossip s) !! n = Some pr ∧ pr_net pr = [].

(** What no such request to a peer changes: its clock, and all but its store. *)
Definition peer_aside n s :=
  (λ pr, (pr_clock pr, node_aside (pr_node pr))) <$> g_pool (n_gossip s) !! n.

Definition peer_clock n s : option clock := fst <$> peer_aside n s.

(** What such a call leaves alone of the node it is made through, its ring aside. *)
Definition caller_aside s := (g_disc (n_gossip s), n_listening s, n_stopped s).

(** The nodes that hold a key: its replicas, or the node alone on an empty ring. *)
Definition holders (key : string) s : list NodeInfo :=
  match replicas replication key s with [] => [info] | ns => ns end.

(** A call that concerned the register of [key] at [n] only. *)
Record only_at n (key : string) s s' : Prop := {
  oa_wf : replica_wf s';
  oa_ring : g_ring (n_gossip s') = g_ring (n_gossip s);
  oa_entry n' k' : (n', k') ≠ (n, key) → entry_at n' k' s' = entry_at n' k' s;
  oa_reachable n' : reachable n' s → reachable n' s';
  oa_aside n' : peer_aside n' s' = peer_aside n' s;
  oa_caller : caller_aside s' = caller_aside s;
}.

Lemma only_at_store key (d : lww_store) s :
  dict_wf d → replica_wf s → (∀ k', k' ≠ key → dict_get d k' = dict_get (n_store s) k') →
  let s' := mkNode (n_gossip s) d (n_listening s) (n_stopped s) in
  only_at info key s s' ∧ entry_at info key s' = dict_get d key.
Proof.
  intros Hd [Hp _] Hk. split; [|unfold entry_at; by destruct (decide (info = info))].
  constructor; [by split|done| |done|done|done]. intros n' k' Hne. unfold entry_at. simpl.
  case_decide; [|done]. apply Hk. congruence.
Qed.

Lemma remote_about n msg key f reply s :
  about msg key f reply → n ≠ info → replica_wf s →
  ∃ o s' cs, remote_execute n msg s = (Ok o, s') ∧ only_at n key s s' ∧
    entry_at n key s' = after f cs (entry_at n key s) ∧
    (∀ r, o = Some r → ∃ cs0 c, cs = cs0 ++ [c] ∧ r = reply c (after f cs0 (entry_at n key s))) ∧
    (reachable n s → ∃ c, peer_clock n s = Some c ∧ cs = [c] ∧ o = Some (reply c (entry_at n key s))).
Proof.
  intros Hab Hne Hs. destruct (remote_execute_run n msg s Hs) as (o & w & He & Hrun & Hw).
  exists o, (mkNode (mkGossip (g_ring (n_gossip s)) w (g_disc (n_gossip s))) (n_store s)
    (n_listening s) (n_stopped s)). simpl in He. unfold world_execute in He.
  replace (mkNodeInfo (host n) (port n)) with n in He by (by destruct n).
  destruct (g_pool (n_gossip s) !! n) as [pr|] eqn:Hpr.
  2: { injection He as <- <-. exists []. split; [exact Hrun|]. split_and!; [by constructor|done|done|].
       intros [?|(pr & Hpr' & _)]; [done|]. by rewrite Hpr in Hpr'. }
  assert (dict_wf (n_store (pr_node pr))) as Hwf by (destruct Hs as [Hp _]; by apply (Hp n)).
  pose proof (visit_about n msg key f reply Hab pr Hwf) as Hvisit.
  destruct (visit n msg pr) as [o1 pr'] eqn:Hv. injection He as <- <-.
  destruct Hvisit as (cs & Hget & Hrep & Hnet & Hclk & Hgs).
  exists cs. split; [exact Hrun|]. clear Hrun.
  assert (entry_at n key s = dict_get (n_store (pr_node pr)) key) as Heq.
  { unfold entry_at. destruct (decide (n = info)); [done|]. by rewrite Hpr. }
  rewrite Heq. split_and!; [constructor| |done|].
  - split; [done|apply Hs].
  - done.
  - intros n' k' Hnk. unfold entry_at. simpl. case_decide; [done|].
    destruct (decide (n' = n)) as [->|]; [|by rewrite lookup_insert_ne].
    rewrite lookup_insert_eq, Hpr. simpl. rewrite Hget. case_decide; congruence.
  - intros n' [->|(pr0 & Hpr0 & Hn0)]; [by left|]. right. simpl.
    destruct (decide (n' = n)) as [->|]; [|rewrite lookup_insert_ne by done; eauto].
    rewrite lookup_insert_eq. exists pr'. split; [done|]. apply Hnet. congruence.
  - intros n'. unfold peer_aside. simpl. destruct (decide (n' = n)) as [->|]; [|by rewrite lookup_insert_ne].
    rewrite lookup_insert_eq, Hpr. simpl. by rewrite Hclk, Hgs.
  - done.
  - unfold entry_at. simpl. destruct (decide (n = info)); [done|].
    rewrite lookup_insert_eq. simpl. rewrite Hget. by destruct (decide (key = key)).
  - intros [?|(pr0 & Hpr0 & Hn0)]; [done|]. exists (pr_clock pr). unfold peer_clock, peer_aside. rewrite Hpr.
    split; [done|]. apply Hnet. congruence.
Qed.

(** ** Writes *)

(** A call that writes [new] to [key] at [n]: it happens or, if the node is out of
    reach, may not, in which case it is not acknowledged; [sure] tells which
    registers make the call succeed. *)
Definition write_call (new : entry) key (sure : option entry → bool) n (t : M N bool) : Prop :=
  ∀ s, replica_wf s → ∃ b s', t s = (Ok b, s') ∧ only_at n key s s' ∧
    (entry_at n key s' = (Spec.write new (entry_at n key s)).2 ∨
     entry_at n key s' = entry_at n key s ∧ b = false ∧ ¬ reachable n s) ∧
    (reachable n s → sure (entry_at n key s) = true → b = true).

Lemma after_write new cs o :
  after (λ _ o, (Spec.write new o).2) cs o = match cs with [] => o | _ => (Spec.write new o).2 end.
Proof.
  destruct cs as [|c cs]; [done|]. simpl.
  induction cs as [|c' cs IH]; [done|]. simpl. by rewrite Spec.write_idemp.
Qed.

Lemma remote_write new msg key reply sure n :
  about msg key (λ _ o, (Spec.write new o).2) reply → n ≠ info →
  (∀ c o, sure o = true → m_type (reply c o) = OK) →
  write_call new key sure n (resp ← remote_execute n msg; lift_result (Ok (accepted resp))).
Proof.
  intros Hab Hne Hsure s Hs.
  destruct (remote_about n msg key _ reply s Hab Hne Hs) as (o & s' & cs & Hrun & Hat & He & Hr & Hok).
  exists (accepted o), s'. split; [by step_M Hrun|]. split; [done|].
  rewrite after_write in He. split.
  - destruct cs as [|c cs]; [|by left]. right. split; [done|]. split.
    + destruct o as [r|]; [|done]. by destruct (Hr r eq_refl) as ([|] & ? & ? & _).
    + by intros (c & _ & ? & _)%Hok.
  - intros (c & _ & _ & ->)%Hok Ho. simpl. by rewrite bool_decide_eq_true_2 by auto.
Qed.

Lemma local_write new (m : M lww_store bool) (result : option entry → bool) key sure :
  (∀ d, m d = (Ok (result (dict_get d key)), dict_alter (λ o, (Spec.write new o).2) d key)) →
  (∀ o, sure o = true → result o = true) →
  write_call new key sure info (on_store m).
Proof.
  intros Hm Hsure s Hs.
  destruct (only_at_store key (dict_alter (λ o, (Spec.write new o).2) (n_store s) key) s)
    as [Hat He]; [apply dict_alter_wf, Hs|done| |].
  { intros k' Hk. rewrite dict_alter_get by apply Hs. by rewrite decide_False. }
  eexists _, _. split; [unfold on_store; by erewrite zoom_run by apply Hm|].
  assert (entry_at info key s = dict_get (n_store s) key) as Hs0.
  { unfold entry_at. by destruct (decide (info = info)). }
  split; [done|]. rewrite He, Hs0. split; [left|by auto].
  rewrite dict_alter_get by apply Hs. by destruct (decide (key = key)).
Qed.

Lemma set_call c key v ts n :
  write_call (mkEntry (Val v) None ts) key (λ o, (Spec.write (mkEntry (Val v) None ts) o).1) n
    (h_set (make_handle info c n) key v None ts).
Proof.
  rewrite handle_set_op. unfold replica_op. case_decide as Hn.
  - subst. apply (local_write _ _ (λ o, (Spec.write (mkEntry (Val v) None ts) o).1)); [|done].
    intros d. apply (lww_set_run c key v None (Some ts)).
  - eapply remote_write; [apply (set_about key v None)|done|done].
Qed.

Lemma delete_call c key ts n :
  write_call (mkEntry TOMBSTONE None ts) key Spec.lived n (h_delete (make_handle info c n) key ts).
Proof.
  rewrite handle_delete_op. unfold replica_op. case_decide as Hn.
  - subst. apply (local_write _ _ Spec.lived); [|done]. intros d. apply (lww_delete_run c key (Some ts)).
  - eapply remote_write; [apply delete_about|done|]. intros c' o Ho. simpl. by rewrite Ho.
Qed.

(** What a write through the node does to the cluster: it concerns the holders of
    the key only, an acknowledgement comes from a holder that has the write, and
    every reachable holder has it. *)
Record spread (new : entry) key (sure : option entry → bool) (ns : list NodeInfo) s b s' : Prop := {
  sp_wf : replica_wf s';
  sp_ring : g_ring (n_gossip s') = g_ring (n_gossip s);
  sp_reachable n : reachable n s → reachable n s';
  sp_other n k' : k' ≠ key ∨ n ∉ ns → entry_at n k' s' = entry_at n k' s;
  sp_holder n : n ∈ ns → entry_at n key s' = (Spec.write new (entry_at n key s)).2 ∨
    entry_at n key s' = entry_at n key s ∧ ¬ reachable n s;
  sp_acked : b = true → ∃ n, n ∈ ns ∧ entry_at n key s' = (Spec.write new (entry_at n key s)).2;
  sp_sure n : n ∈ ns → reachable n s → sure (entry_at n key s) = true → b = true;
}.

Lemma writes_spread new key sure (body : NodeInfo → M N bool) ns s :
  (∀ n, write_call new key sure n (body n)) → NoDup ns → replica_wf s →
  ∃ bs s', map_each ns body s = (Ok bs, s') ∧ spread new key sure ns s (existsb id bs) s'.
Proof.
  intros Hbody Hnd. revert s. induction Hnd as [|n ns Hnin Hnd IH]; intros s Hs.
  { exists [], s. split; [done|]. constructor; simpl; try done; try set_solver. }
  destruct (Hbody n s Hs) as (b & s1 & Hrun & [Hw1 Hr1 He1 Hreach1 _ _] & Hcase & Hsure).
  destruct (IH s1 Hw1) as (bs & s2 & Hrun2 & [Hw2 Hr2 Hreach2 Ho2 Hh2 Ha2 Hs2]).
  exists (b :: bs), s2. split; [simpl; unfold_M; by rewrite Hrun, Hrun2|].
  assert (entry_at n key s2 = entry_at n key s1) as Hn by (apply Ho2; by right).
  assert (∀ m, m ∈ ns → entry_at m key s1 = entry_at m key s) as Hm.
  { intros m Hin. apply He1. intros [= ->]. done. }
  constructor; [done|congruence|auto|..].
  - intros m k' Hk. rewrite Ho2 by set_solver. apply He1. intros [= -> ->]. set_solver.
  - intros m [->|Hin]%elem_of_cons.
    + rewrite Hn. destruct Hcase as [?|(? & _ & ?)]; [by left|by right].
    + destruct (Hh2 m Hin) as [Hw|[Hw Hnr]]; rewrite Hm in Hw by done; [by left|right].
      split; [done|]. intros ?. by apply Hnr, Hreach1.
  - simpl. intros [->|Hb]%orb_true_iff.
    + exists n. split; [set_solver|]. rewrite Hn. by destruct Hcase as [?|(_ & ? & _)].
    + destruct (Ha2 Hb) as (m & Hin & Hw). exists m.
      split; [set_solver|]. by rewrite Hw, Hm.
  - intros m [->|Hin]%elem_of_cons Hre Hok; simpl.
    + unfold id at 1. by rewrite Hsure.
    + rewrite (Hs2 m Hin); [apply orb_true_r|auto|by rewrite Hm].
Qed.

Lemma map_each_fmap {A B C} (g : A → B) (body : B → M N C) xs s :
  map_each (g <$> xs) body s = map_each xs (λ x, body (g x)) s.
Proof.
  revert s. induction xs as [|x xs IH]; intros s; [done|]. simpl. unfold_M.
  destruct (body (g x) s) as [[y|] s1]; [|done]. by rewrite IH.
Qed.

Lemma holders_nodup key s : r_wf (g_ring (n_gossip s)) → NoDup (holders key s).
Proof.
  intros Hr. unfold holders.
  pose proof (r_get_nodes_nodup (g_ring (n_gossip s)) key replication Hr) as Hnd.
  unfold replicas. by destruct (r_get_nodes _ _ _); [apply NoDup_singleton|].
Qed.

Lemma holders_members key s n :
  n ∈ holders key s → n = info ∨ n ∈ r_nodes (g_ring (n_gossip s)).
Proof.
  unfold holders, replicas. destruct (r_get_nodes _ _ _) as [|n0 ns] eqn:Hr.
  - intros Hn%list_elem_of_singleton. by left.
  - rewrite <- Hr. intros Hn%r_get_nodes_sub. by right.
Qed.

(** The common shape of [set] and [delete]. *)
Lemma node_write_spread new key sure (local : M lww_store bool)
    (body : ReplicaHandle N → M N bool) c s :
  (∀ n, write_call new key sure n (body (make_handle info c n))) →
  body (make_handle info c info) = on_store local →
  replica_wf s → r_wf (g_ring (n_gossip s)) →
  ∃ b s', match replicas replication key s with
    | [] => on_store local ;; mret true
    | nodes => results ← map_each (_make_handles info c nodes) body; mret (existsb id results)
    end s = (Ok b, s') ∧ spread new key sure (holders key s) s b s'.
Proof.
  intros Hcall Hlocal Hs Hring. pose proof (holders_nodup key s Hring) as Hnd. unfold holders in *.
  destruct (replicas replication key s) as [|m ms].
  - destruct (writes_spread new key sure (λ n, body (make_handle info c n)) [info] s Hcall Hnd Hs)
      as (bs & s' & Hrun & [Hw Hr Hreach Ho Hh Ha Hsure]).
    exists true, s'. simpl in Hrun. rewrite Hlocal in Hrun. unfold_M.
    destruct (on_store local s) as [[b|] s1]; simplify_eq. split; [done|].
    constructor; try done. intros _. exists info. split; [set_solver|].
    destruct (Hh info) as [?|[_ Hnr]]; [set_solver|done|]. destruct Hnr. by left.
  - destruct (writes_spread new key sure (λ n, body (make_handle info c n)) (m :: ms) s Hcall Hnd Hs)
      as (bs & s' & Hrun & Hsp).
    exists (existsb id bs), s'. split; [|done]. rewrite <- map_each_fmap in Hrun.
    unfold _make_handles. by step_M Hrun.
Qed.

Lemma node_set_spread c key v s :
  replica_wf s → r_wf (g_ring (n_gossip s)) →
  let new := mkEntry (Val v) None (time_ns c) in
  ∃ b s', node_set info replication c key v None s = (Ok b, s') ∧
    spread new key (λ o, (Spec.write new o).1) (holders key s) s b s'.
Proof.
  intros Hs Hr new.
  destruct (node_write_spread new key _ (lww_set c key v None (Some (time_ns c)))
    (λ h, h_set h key v None (time_ns c)) c s (set_call c key v (time_ns c))) as (b & s' & Hrun & Hsp);
    [|done..|].
  - rewrite handle_set_op. unfold replica_op. by destruct (decide (info = info)).
  - exists b, s'. split; [|done]. rewrite <- Hrun. unfold node_set.
    rewrite (M_bind_Ok get_state _ s s s eq_refl). by destruct (replicas replication key s).
Qed.

Lemma node_delete_spread c key s :
  replica_wf s → r_wf (g_ring (n_gossip s)) →
  let new := mkEntry TOMBSTONE None (time_ns c) in
  ∃ b s', node_delete info replication c key s = (Ok b, s') ∧
    spread new key Spec.lived (holders key s) s b s'.
Proof.
  intros Hs Hr new.
  destruct (node_write_spread new key _ (lww_delete c key (Some (time_ns c)))
    (λ h, h_delete h key (time_ns c)) c s (delete_call c key (time_ns c))) as (b & s' & Hrun & Hsp);
    [|done..|].
  - rewrite handle_delete_op. unfold replica_op. by destruct (decide (info = info)).
  - exists b, s'. split; [|done]. rewrite <- Hrun. unfold node_delete.
    rewrite (M_bind_Ok get_state _ s s s eq_refl). by destruct (replicas replication key s).
Qed.

(** ** Reads *)

(** Entries that a read neither forgets nor takes for a missing one. *)
Definition durable (e : entry) : Prop := e_exp e = None ∧ (0 < e_ts e)%Z.

Definition view (e : entry) : versioned :=
  match e_cell e with Val v => (v, e_ts e, false) | TOMBSTONE => (VNone, e_ts e, true) end.

(** The response [r] comes from the register [o]. *)
Definition shows (r : option versioned) (o : option entry) : Prop :=
  ∀ x, r = Some x → ∃ e, o = Some e ∧ x = view e.

Lemma read_durable now e : durable e → Spec.read now (Some e) = (Some (view e), Some e).
Proof. intros [Hexp _]. destruct e as [[v|] exp ts]; simpl in *; [|done]. by rewrite Hexp. Qed.

Lemma read_shows now o : shows (Spec.read now o).1 o ∧ ((Spec.read now o).2 = o ∨ (Spec.read now o).2 = None).
Proof.
  unfold shows. destruct o as [[[v|] exp ts]|]; simpl; [| |by split; [|left]].
  - destruct (past now exp); simpl; [by split; [|right]|]. split; [|by left].
    intros x [= <-]. by eexists.
  - split; [|by left]. intros x [= <-]. by eexists.
Qed.

(** The register after any number of reads. *)
Lemma after_read cs o :
  let f := λ (c : clock) o, (Spec.read (monotonic c) o).2 in
  (after f cs o = o ∨ after f cs o = None) ∧ (∀ e, o = Some e → durable e → after f cs o = o).
Proof.
  intros f. revert o. induction cs as [|c cs IH]; intros o; simpl; [by split; [left|]|].
  split.
  - destruct (proj2 (read_shows (monotonic c) o)) as [Heq|Heq]; unfold f at 2 4; rewrite Heq; [apply IH|].
    destruct (IH None) as [[?|?] _]; by right.
  - intros e -> He. unfold f at 2. rewrite read_durable by done. simpl. by apply (IH (Some e)) with e.
Qed.

(** The answer to a GET, decoded, is the response of the register. *)
Lemma decode_get_reply key now o :
  ∃ r, decode_get (Some (get_reply key (Spec.read now o).1)) = Ok r ∧ shows r o ∧
    (∀ e, o = Some e → durable e → r = Some (view e)).
Proof.
  pose proof (read_shows now o) as [Hsh _]. destruct o as [e|].
  2: { exists None. by split_and!. }
  destruct (Spec.read now (Some e)).1 as [[[v ts] tomb]|] eqn:Hread.
  - destruct (Hsh _ eq_refl) as (e' & [= <-] & Hv). destruct tomb.
    + eexists. split; [done|]. simpl. split.
      * case_bool_decide; [|done]. intros x [= <-]. exists e. split; [done|].
        unfold view in *. by destruct (e_cell e); simplify_eq.
      * intros e' [= <-] [_ Hpos]. unfold view in *. destruct (e_cell e); simplify_eq.
        by rewrite bool_decide_eq_true_2 by lia.
    + eexists. split; [done|]. simpl. split; [intros x [= <-]; by exists e|].
      intros e' [= <-] _. by rewrite <- Hv.
  - exists None. split; [done|]. split; [done|]. intros e' [= <-] He.
    by rewrite read_durable in Hread.
Qed.

(** A read at [n]: the response comes from its register, which stays or, expired, is
    forgotten; a durable entry is reported by a reachable node. *)
Definition read_call key n (t : M N (option versioned)) : Prop :=
  ∀ s, replica_wf s → ∃ r s', t s = (Ok r, s') ∧ only_at n key s s' ∧
    (entry_at n key s' = entry_at n key s ∨ entry_at n key s' = None) ∧
    shows r (entry_at n key s) ∧
    ∀ e, entry_at n key s = Some e → durable e →
      entry_at n key s' = Some e ∧ (reachable n s → r = Some (view e)).

Lemma remote_read c key n :
  n ≠ info → read_call key n (fetch key (make_handle info c n)).
Proof.
  intros Hne s Hs. unfold fetch. rewrite handle_get_op. unfold replica_op.
  destruct (decide (n = info)); [done|].
  destruct (remote_about n _ key _ _ s (get_about key) Hne Hs)
    as (o & s' & cs & Hrun & Hat & He & Hr & Hok).
  pose proof (after_read cs (entry_at n key s)) as [Haft Hdur]. simpl in Haft, Hdur.
  rewrite <- He in Haft, Hdur.
  assert (∃ r, decode_get o = Ok r ∧ shows r (entry_at n key s) ∧
    ∀ e, entry_at n key s = Some e → durable e → reachable n s → r = Some (view e))
    as (r & Hdec & Hsh & Hview).
  { destruct o as [reply|].
    - destruct (Hr reply eq_refl) as (cs0 & c0 & _ & ->).
      destruct (decode_get_reply key (monotonic c0)
        (after (λ c o, (Spec.read (monotonic c) o).2) cs0 (entry_at n key s))) as (r & Hd & Hsh & Hv).
      pose proof (after_read cs0 (entry_at n key s)) as [Ha0 Hd0]. simpl in Ha0, Hd0.
      exists r. split; [done|]. split.
      + intros x Hx. destruct (Hsh x Hx) as (e & Hea & ->). exists e. split; [|done].
        destruct Ha0 as [Ha0|Ha0]; congruence.
      + intros e Hen Hde _. apply Hv; [|done]. by rewrite (Hd0 e).
    - exists None. split; [done|]. split; [done|]. by intros e _ _ (? & _ & _ & ?)%Hok. }
  exists r, s'. split; [|split_and!; [done..|]].
  - unfold try_except. step_M Hrun. unfold lift_result. by rewrite Hdec.
  - intros e Hen Hde. split; [by rewrite (Hdur e)|by apply Hview].
Qed.

Lemma local_read c key : read_call key info (on_store (lww_get_versioned c key)).
Proof.
  intros s Hs.
  destruct (only_at_store key (dict_alter (λ o, (Spec.read (monotonic c) o).2) (n_store s) key) s)
    as [Hat He]; [apply dict_alter_wf, Hs|done| |].
  { intros k' Hk. rewrite dict_alter_get by apply Hs. by rewrite decide_False. }
  assert (entry_at info key s = dict_get (n_store s) key) as Hs0.
  { unfold entry_at. by destruct (decide (info = info)). }
  eexists _, _. split; [unfold on_store; by erewrite zoom_run by apply lww_get_versioned_run|].
  split; [done|]. rewrite He, Hs0, dict_alter_get by apply Hs.
  destruct (decide (key = key)) as [_|]; [|done].
  destruct (read_shows (monotonic c) (dict_get (n_store s) key)) as [Hsh Haft].
  split_and!; [done..|]. intros e -> Hde. by rewrite read_durable.
Qed.

Lemma fetch_call c key n : read_call key n (fetch key (make_handle info c n)).
Proof.
  destruct (decide (n = info)) as [->|Hne]; [|by apply remote_read].
  intros s Hs. unfold fetch. rewrite handle_get_op. unfold replica_op.
  destruct (decide (info = info)); [|done].
  destruct (local_read c key s Hs) as (r & s' & Hrun & Hrest). exists r, s'.
  split; [|done]. unfold try_except. by rewrite Hrun.
Qed.

(** What reading from the holders of a key tells and does. *)
Record gathered key (ns : list NodeInfo) s (rs : list (option versioned)) s' : Prop := {
  ga_wf : replica_wf s';
  ga_ring : g_ring (n_gossip s') = g_ring (n_gossip s);
  ga_reachable n : reachable n s → reachable n s';
  ga_other n k' : k' ≠ key ∨ n ∉ ns → entry_at n k' s' = entry_at n k' s;
  ga_none n : entry_at n key s = None → entry_at n key s' = None;
  ga_durable n e : entry_at n key s = Some e → durable e → entry_at n key s' = Some e;
  ga_shows i r : rs !! i = Some r → ∃ n, n ∈ ns ∧ shows r (entry_at n key s);
  ga_view n e : n ∈ ns → reachable n s → entry_at n key s = Some e → durable e →
    ∃ i, rs !! i = Some (Some (view e));
}.

Lemma reads_gathered key (body : NodeInfo → M N (option versioned)) ns s :
  (∀ n, read_call key n (body n)) → NoDup ns → replica_wf s →
  ∃ rs s', run_all (body <$> ns) s = (Ok <$> rs, s') ∧ gathered key ns s rs s'.
Proof.
  intros Hbody Hnd. revert s. induction Hnd as [|n ns Hnin Hnd IH]; intros s Hs.
  { exists [], s. split; [done|]. by constructor; try done; set_solver. }
  destruct (Hbody n s Hs) as (r & s1 & Hrun & [Hw1 Hr1 He1 Hreach1 _ _] & Haft & Hsh & Hdur).
  destruct (IH s1 Hw1) as (rs & s2 & Hrun2 & [Hw2 Hr2 Hreach2 Ho2 Hn2 Hd2 Hs2 Hv2]).
  assert (∀ m, m ≠ n → entry_at m key s1 = entry_at m key s) as Hm.
  { intros m Hmn. apply He1. congruence. }
  exists (r :: rs), s2. split; [csimpl; by rewrite Hrun, Hrun2|].
  constructor; [done|congruence|auto|..].
  - intros m k' Hk. rewrite Ho2 by set_solver. apply He1. intros [= -> ->]. set_solver.
  - intros m Hnone. apply Hn2. destruct (decide (m = n)) as [->|]; [|by rewrite Hm].
    by destruct Haft as [->|].
  - intros m e He Hde. apply Hd2; [|done]. destruct (decide (m = n)) as [->|]; [|by rewrite Hm].
    by apply Hdur.
  - intros [|i] r' Hi; simpl in Hi.
    + injection Hi as <-. exists n. split; [set_solver|done].
    + destruct (Hs2 i r' Hi) as (m & Hin & Hsm). exists m. split; [set_solver|].
      by rewrite Hm in Hsm by set_solver.
  - intros m e [->|Hin]%elem_of_cons Hre He Hde.
    + exists 0. simpl. f_equal. by apply Hdur.
    + destruct (Hv2 m e Hin) as [i Hi]; [auto| |done|by exists (S i)].
      rewrite Hm; [done|set_solver].
Qed.

Lemma local_get c key s :
  ∃ r s', fetch key (make_handle info c info) s = (Ok r, s') ∧
    on_store (lww_get c key) s = (Ok (Spec.visible r), s').
Proof.
  unfold fetch. rewrite handle_get_op. unfold replica_op.
  destruct (decide (info = info)); [|done]. unfold try_except, on_store, zoom.
  rewrite lww_get_versioned_run, lww_get_run. by eexists _, _.
Qed.

(** The node's read, from the responses of the holders. *)
Lemma node_get_gathered c key s :
  replica_wf s → r_wf (g_ring (n_gossip s)) →
  ∃ x rs s', node_get info replication lww_read_resolve c key s = (Ok x, s') ∧
    gathered key (holders key s) s rs s' ∧
    (∀ i v ts tomb, rs !! i = Some (Some (v, ts, tomb)) → (0 ≤ ts)%Z →
      (∀ j v' ts' tomb', rs !! j = Some (Some (v', ts', tomb')) →
        (ts' < ts)%Z ∨ (v', ts', tomb') = (v, ts, tomb)) → x = if tomb : bool then VNone else v) ∧
    ((∀ j r, rs !! j = Some r → r = None) → x = VNone).
Proof.
  intros Hs Hring. pose proof (holders_nodup key s Hring) as Hnd. unfold node_get.
  rewrite (M_bind_Ok get_state _ s s s eq_refl). unfold holders in *.
  destruct (replicas replication key s) as [|m ms].
  - destruct (reads_gathered key (λ n, fetch key (make_handle info c n)) [info] s
      (fetch_call c key) Hnd Hs) as (rs & s' & Hrun & Hga).
    destruct (local_get c key s) as (r & s1 & Hf & Hg). csimpl in Hrun. rewrite Hf in Hrun.
    injection Hrun as Hrs ->. destruct rs as [|r' []]; simplify_eq/=.
    exists (Spec.visible r'), [r'], s'. split; [done|]. split; [done|]. split.
    + intros [|i] v ts tomb Hi; simplify_eq/=. intros _ _. by destruct tomb.
    + intros Hnone. by rewrite (Hnone 0 r' eq_refl).
  - destruct (reads_gathered key (λ n, fetch key (make_handle info c n)) (m :: ms) s
      (fetch_call c key) Hnd Hs) as (rs & s' & Hrun & Hga).
    exists (pick rs), rs, s'. split; [|split_and!].
    + rewrite lww_read_resolve_run. unfold _make_handles. rewrite <- list_fmap_compose.
      unfold compose. rewrite Hrun. simpl. do 3 f_equal.
      rewrite <- list_fmap_compose. apply list_fmap_id.
    + done.
    + intros i v ts tomb Hi Hts Hold. by apply (pick_unrivalled rs i v ts tomb).
    + intros Hnone. apply pick_none. intros j v ts tomb Hj. by apply Hnone in Hj.
Qed.

(** A newest entry at a reachable holder is what a read returns, and a key without
    entries reads as missing. *)
Lemma fresh_read c key s n e :
  replica_wf s → r_wf (g_ring (n_gossip s)) → n ∈ holders key s → reachable n s →
  entry_at n key s = Some e → durable e →
  (∀ n' e', n' ∈ holders key s → entry_at n' key s = Some e' → (e_ts e' < e_ts e)%Z ∨ e' = e) →
  ∃ rs s', node_get info replication lww_read_resolve c key s = (Ok (Spec.visible (Some (view e))), s') ∧
    gathered key (holders key s) s rs s'.
Proof.
  intros Hs Hr Hn Hre He Hde Hold.
  destruct (node_get_gathered c key s Hs Hr) as (x & rs & s' & Hrun & Hga & Hx & _).
  exists rs, s'. split; [|done]. rewrite Hrun. do 2 f_equal.
  destruct (ga_view _ _ _ _ _ Hga n e Hn Hre He Hde) as [i Hi]. destruct Hde as [_ Hts].
  destruct (view e) as [[v ts] tomb] eqn:Hv.
  assert (ts = e_ts e) as -> by (unfold view in Hv; destruct (e_cell e); by simplify_eq).
  apply (Hx i v (e_ts e) tomb Hi); [lia|]. intros j v' ts' tomb' Hj.
  destruct (ga_shows _ _ _ _ _ Hga j _ Hj) as (n' & Hn' & Hsh).
  destruct (Hsh _ eq_refl) as (e' & He' & Hv').
  destruct (Hold n' e' Hn' He') as [Hlt| ->]; [left|right; congruence].
  unfold view in Hv'. destruct (e_cell e'); by simplify_eq.
Qed.

Lemma empty_read c key s :
  replica_wf s → r_wf (g_ring (n_gossip s)) → (∀ n, n ∈ holders key s → entry_at n key s = None) →
  ∃ rs s', node_get info replication lww_read_resolve c key s = (Ok VNone, s') ∧
    gathered key (holders key s) s rs s'.
Proof.
  intros Hs Hr Hnone.
  destruct (node_get_gathered c key s Hs Hr) as (x & rs & s' & Hrun & Hga & _ & Hx).
  exists rs, s'. split; [|done]. rewrite Hx in Hrun; [done|]. intros j [r|] Hj; [|done].
  destruct (ga_shows _ _ _ _ _ Hga j _ Hj) as (n & Hn & Hsh).
  destruct (Hsh r eq_refl) as (e & He & _). by rewrite Hnone in He.
Qed.

Lemma holders_some key s : ∃ n, n ∈ holders key s.
Proof.
  unfold holders. destruct (replicas replication key s) as [|n ns]; eexists; apply list_elem_of_here.
Qed.

(** ** A healthy cluster is one store *)

Definition healthy key s : Prop := ∀ n, n ∈ holders key s → reachable n s.
Definition agreed key (o : option entry) s : Prop := ∀ n, n ∈ holders key s → entry_at n key s = o.

(** The cluster stands for the store [m]: the holders of every key can be reached
    and agree on its register, which is durable. *)
Record stands_for s (m : gmap string entry) : Prop := {
  sf_wf : replica_wf s;
  sf_ring : r_wf (g_ring (n_gossip s));
  sf_healthy key : healthy key s;
  sf_agreed key : agreed key (m !! key) s;
  sf_durable key e : m !! key = Some e → durable e;
}.

Lemma holders_ring key s s' : g_ring (n_gossip s') = g_ring (n_gossip s) → holders key s' = holders key s.
Proof. intros Hr. unfold holders, replicas. by rewrite Hr. Qed.

Lemma stands_for_step key (f : option entry → option entry) s s' m :
  stands_for s m → replica_wf s' → g_ring (n_gossip s') = g_ring (n_gossip s) →
  (∀ n, reachable n s → reachable n s') →
  (∀ n k', k' ≠ key → entry_at n k' s' = entry_at n k' s) →
  (∀ n, n ∈ holders key s → entry_at n key s' = f (m !! key)) →
  (∀ e, f (m !! key) = Some e → durable e) →
  stands_for s' (partial_alter f key m).
Proof.
  intros [Hw Hr Hh Ha Hd] Hw' Hring Hreach Hother Hkey Hdur.
  constructor; [done|by rewrite Hring|..].
  - intros k n Hn. rewrite (holders_ring k s s') in Hn by done. by apply Hreach, (Hh k).
  - intros k n Hn. rewrite (holders_ring k s s') in Hn by done.
    destruct (decide (k = key)) as [->|Hne].
    + rewrite lookup_partial_alter_eq. by apply Hkey.
    + rewrite lookup_partial_alter_ne, Hother by done. by apply Ha.
  - intros k e. destruct (decide (k = key)) as [->|Hne].
    + rewrite lookup_partial_alter_eq. apply Hdur.
    + rewrite lookup_partial_alter_ne by done. apply Hd.
Qed.

Lemma stands_for_write new key sure b s s' m :
  stands_for s m → durable new → spread new key sure (holders key s) s b s' →
  stands_for s' (partial_alter (λ o, (Spec.write new o).2) key m) ∧
  (sure (m !! key) = true → b = true).
Proof.
  intros Hsf Hnew [Hw Hr Hreach Ho Hh Ha Hs]. pose proof Hsf as [_ _ Hhealthy Hagree Hdur]. split.
  - eapply stands_for_step; try done.
    + intros n k' Hk. apply Ho. by left.
    + intros n Hn. destruct (Hh n Hn) as [He|[_ Hnr]]; [by rewrite He, (Hagree key n)|].
      destruct Hnr. by apply (Hhealthy key).
    + intros e. destruct (m !! key) as [e0|] eqn:He0; simpl; [|congruence].
      case_bool_decide; simpl; intros ?; [|congruence]. apply (Hdur key). congruence.
  - intros Hok. destruct (holders_some key s) as [n Hn].
    apply (Hs n Hn); [by apply (Hhealthy key)|by rewrite (Hagree key n)].
Qed.

Lemma stands_for_read c key s m :
  stands_for s m → ∃ s', node_get info replication lww_read_resolve c key s =
    (Ok (Spec.visible (Spec.read (monotonic c) (m !! key)).1), s') ∧
    stands_for s' (partial_alter (λ o, (Spec.read (monotonic c) o).2) key m).
Proof.
  intros Hsf. pose proof Hsf as [Hw Hr Hh Ha Hd].
  assert (∃ rs s', node_get info replication lww_read_resolve c key s =
    (Ok (Spec.visible (Spec.read (monotonic c) (m !! key)).1), s') ∧
    gathered key (holders key s) s rs s') as (rs & s' & Hrun & [Gw Gr Gre Go Gn Gd _ _]).
  { destruct (m !! key) as [e|] eqn:He.
    - rewrite read_durable by eauto. destruct (holders_some key s) as [n Hn].
      apply (fresh_read c key s n e); try done; [by apply (Hh key)|by rewrite (Ha key n)|by eauto|].
      intros n' e' Hn' He'. rewrite (Ha key n') in He' by done. right. congruence.
    - apply empty_read; [done..|]. intros n Hn. by rewrite (Ha key n). }
  exists s'. split; [done|]. eapply (stands_for_step key _ s); try done.
  - intros n k' Hk. apply Go. by left.
  - intros n Hn. destruct (m !! key) as [e|] eqn:He.
    + rewrite read_durable by eauto. apply Gd; [by rewrite (Ha key n)|by eauto].
    + simpl. apply Gn. by rewrite (Ha key n).
  - intros e. destruct (m !! key) as [e0|] eqn:He; [|done].
    rewrite read_durable by eauto. simpl. intros [= <-]. by eauto.
Qed.

(** A healthy cluster is one store.  When the holders of every key can be
    reached and agree, whatever the ring and the number of replicas, [get], [set]
    without a ttl and [delete] through a node do what the specification of a
    single last-write-wins store does, and the holders still agree: [get] returns
    what the store returns; a write the store accepts, and a delete of a live
    value, is reported as successful. *)
Theorem cluster_is_one_store c key v s m :
  stands_for s m → (0 < time_ns c)%Z →
  (∃ x s', node_get info replication lww_read_resolve c key s = (Ok x, s') ∧
     (Spec.step c (OpGet key) m).1 = SRes (RVal x) ∧ stands_for s' (Spec.step c (OpGet key) m).2) ∧
  (∃ b s', node_set info replication c key v None s = (Ok b, s') ∧
     stands_for s' (Spec.step c (OpSet key v None None) m).2 ∧
     ((Spec.step c (OpSet key v None None) m).1 = SRes (RBool true) → b = true)) ∧
  (∃ b s', node_delete info replication c key s = (Ok b, s') ∧
     stands_for s' (Spec.step c (OpDelete key None) m).2 ∧
     ((Spec.step c (OpDelete key None) m).1 = SRes (RBool true) → b = true)).
Proof.
  intros Hsf Hpos. pose proof Hsf as [Hw Hr _ _ _]. split_and!.
  - destruct (stands_for_read c key s m Hsf) as (s' & Hrun & Hs'). by eexists _, s'.
  - destruct (node_set_spread c key v s Hw Hr) as (b & s' & Hrun & Hsp). exists b, s'.
    split; [done|].
    assert (durable (mkEntry (Val v) None (time_ns c))) as Hnew by done.
    destruct (stands_for_write _ _ _ _ _ _ _ Hsf Hnew Hsp) as [Hm Hb].
    split; [done|]. intros [= Hacc]. by apply Hb.
  - destruct (node_delete_spread c key s Hw Hr) as (b & s' & Hrun & Hsp). exists b, s'.
    split; [done|].
    assert (durable (mkEntry TOMBSTONE None (time_ns c))) as Hnew by done.
    destruct (stands_for_write _ _ _ _ _ _ _ Hsf Hnew Hsp) as [Hm Hb].
    split; [done|]. intros [= Hacc]. by apply Hb.
Qed.
End cluster.

(** ** Reads after acknowledged writes *)
Section freshness.
Context {R : Type} `{RingLaws R} (replication : Z).
Abbreviation N := (node_state R world).
Implicit Types (s t : N) (n : NodeInfo).

(** [reader] in state [t] has the membership [writer] has in [s], and finds at the
    replicas of [key] the registers that [writer] left there. *)
Definition sees writer reader key s t : Prop :=
  replica_wf t ∧ r_wf (g_ring (n_gossip t)) ∧
  r_nodes (g_ring (n_gossip s)) ≡ₚ r_nodes (g_ring (n_gossip t)) ∧
  r_untied key (g_ring (n_gossip s)) ∧ replicas replication key s ≠ [] ∧
  ∀ n, n ∈ replicas replication key s → entry_at reader n key t = entry_at writer n key s.

(** Nodes with the same membership send a key to the same holders. *)
Lemma sees_holders writer reader key s t :
  sees writer reader key s t →
  holders reader replication key t = holders writer replication key s ∧
  ∀ n, n ∈ holders writer replication key s → entry_at reader n key t = entry_at writer n key s.
Proof.
  intros (_ & _ & Hperm & Hunt & Hne & He).
  assert (replicas replication key t = replicas replication key s) as Heq.
  { unfold replicas. symmetry. by apply r_get_nodes_agree. }
  unfold holders. rewrite Heq. by destruct (replicas replication key s).
Qed.

(** Every holder's entry is older than [ts]. *)
Definition older writer key ts s : Prop :=
  ∀ n e, n ∈ holders writer replication key s → entry_at writer n key s = Some e → (e_ts e < ts)%Z.

Lemma spread_read writer new key sure b s s' :
  older writer key (e_ts new) s → durable new →
  spread writer new key sure (holders writer replication key s) s b s' → b = true →
  ∃ n, n ∈ holders writer replication key s ∧
  ∀ reader c t, sees writer reader key s' t → reachable reader n t →
  ∃ t', node_get reader replication lww_read_resolve c key t =
    (Ok (Spec.visible (Some (view new))), t').
Proof.
  intros Hold Hnew [Hw Hr Hreach Ho Hh Ha Hs] Hb.
  assert (∀ n, n ∈ holders writer replication key s →
    (Spec.write new (entry_at writer n key s)).2 = Some new) as Hwrite.
  { intros n Hn. destruct (entry_at writer n key s) as [e|] eqn:He; [|done]. simpl.
    by rewrite bool_decide_eq_false_2 by (specialize (Hold n e Hn He); lia). }
  destruct (Ha Hb) as (n & Hn & He). exists n. split; [done|].
  intros reader c t Ht Hre. destruct (sees_holders _ _ _ _ _ Ht) as [Hhold Hsee].
  destruct Ht as (Hwt & Hrt & _).
  rewrite (holders_ring writer replication key s s') in Hhold, Hsee by done.
  destruct (fresh_read reader replication c key t n new) as (rs & t' & Hrun & _);
    try done; [by rewrite Hhold|by rewrite Hsee, He, Hwrite| |by exists t'].
  intros n' e' Hn' He'. rewrite Hhold in Hn'. rewrite Hsee in He' by done.
  destruct (Hh n' Hn') as [Hw'|[Hw' _]]; rewrite Hw' in He'.
  - rewrite Hwrite in He' by done. right. congruence.
  - left. by apply (Hold n').
Qed.

(** C1. An acknowledged write is read.  Let every replica of a key hold older
    entries or none, and let [set] without a ttl, or [delete], return [True],
    whatever became of its requests: lost, handled without the reply arriving,
    handled more than once.  Then there is a replica such that any node of the
    same membership that can reach it, the writer or another, reads the value
    written, or [None] after a delete, whether or not the other replicas got the
    write and whatever they answer or fail to answer. *)
Theorem acknowledged_write_is_read writer c key v s :
  replica_wf s → r_wf (g_ring (n_gossip s)) → (0 < time_ns c)%Z → older writer key (time_ns c) s →
  (∃ b s', node_set writer replication c key v None s = (Ok b, s') ∧
     (b = true → ∃ n, n ∈ holders writer replication key s ∧
        ∀ reader c' t, sees writer reader key s' t → reachable reader n t →
        ∃ t', node_get reader replication lww_read_resolve c' key t = (Ok v, t'))) ∧
  (∃ b s', node_delete writer replication c key s = (Ok b, s') ∧
     (b = true → ∃ n, n ∈ holders writer replication key s ∧
        ∀ reader c' t, sees writer reader key s' t → reachable reader n t →
        ∃ t', node_get reader replication lww_read_resolve c' key t = (Ok VNone, t'))).
Proof.
  intros Hs Hr Hpos Hold. split.
  - destruct (node_set_spread writer replication c key v s Hs Hr) as (b & s' & Hrun & Hsp).
    exists b, s'. split; [done|].
    intros Hb. by destruct (spread_read writer (mkEntry (Val v) None (time_ns c)) key _ b s s' Hold (conj eq_refl Hpos) Hsp Hb)
      as (n & Hn & Hread); exists n.
  - destruct (node_delete_spread writer replication c key s Hs Hr) as (b & s' & Hrun & Hsp).
    exists b, s'. split; [done|].
    intros Hb. by destruct (spread_read writer (mkEntry TOMBSTONE None (time_ns c)) key _ b s s' Hold (conj eq_refl Hpos) Hsp Hb)
      as (n & Hn & Hread); exists n.
Qed.
End freshness.

(** ** Samples *)
Section samples.
Definition first : NodeInfo := mkNodeInfo "10.0.0.1" 7000.

Lemma sample_holders key net n :
  n ∈ holders first 2 key (sample_cluster net) → n = first ∨ n = mkNodeInfo "10.0.0.2" 7001.
Proof.
  intros [->|Hn]%holders_members; [by left|].
  apply elem_of_cons in Hn as [->|Hn]; [by left|]. apply list_elem_of_singleton in Hn. by right.
Qed.

Lemma sample_entry key net n :
  n ∈ holders first 2 key (sample_cluster net) →
  entry_at first n key (sample_cluster net) = to_map one_entry !! key.
Proof.
  intros Hn%sample_holders. rewrite <- dict_get_lookup. unfold entry_at.
  destruct (decide (n = first)) as [->|Hne]; [reflexivity|].
  destruct Hn as [->| ->]; [done|]. unfold sample_cluster. cbn [g_pool n_gossip].
  rewrite lookup_singleton_eq. reflexivity.
Qed.

Lemma sample_stands_for : stands_for first 2 (sample_cluster []) (to_map one_entry).
Proof.
  constructor.
  - apply sample_cluster_wf.
  - exact sample_members_wf.
  - intros key n [->| ->]%sample_holders; [by left|]. right. eexists.
    unfold sample_cluster. cbn [g_pool n_gossip]. by rewrite lookup_singleton_eq.
  - intros key n. apply sample_entry.
  - intros key e. rewrite <- dict_get_lookup. unfold one_entry. simpl.
    destruct (decide _); [|done]. by intros [= <-].
Qed.

Lemma cluster_is_one_store_witness :
  let s := sample_cluster [] in let m := to_map one_entry in
  let c := sample_clock in
  (∃ x s', node_get first 2 lww_read_resolve c "a" s = (Ok x, s') ∧
     (Spec.step c (OpGet "a") m).1 = SRes (RVal x) ∧
     stands_for first 2 s' (Spec.step c (OpGet "a") m).2) ∧
  (∃ b s', node_set first 2 c "a" (VInt 7) None s = (Ok b, s') ∧
     stands_for first 2 s' (Spec.step c (OpSet "a" (VInt 7) None None) m).2 ∧
     ((Spec.step c (OpSet "a" (VInt 7) None None) m).1 = SRes (RBool true) → b = true)) ∧
  (∃ b s', node_delete first 2 c "a" s = (Ok b, s') ∧
     stands_for first 2 s' (Spec.step c (OpDelete "a" None) m).2 ∧
     ((Spec.step c (OpDelete "a" None) m).1 = SRes (RBool true) → b = true)).
Proof.
  apply (cluster_is_one_store first 2 sample_clock "a" (VInt 7) (sample_cluster [])
    (to_map one_entry) sample_stands_for). reflexivity.
Defined.

(** The request to the other replica is lost, or handled twice without a reply. *)
Lemma acknowledged_write_is_read_witness :
  let s := sample_cluster [mkDelivery [sample_clock; sample_clock] false; mkDelivery [] true] in
  let c := sample_clock in
  (∃ b s', node_set first 2 c "a" (VInt 7) None s = (Ok b, s') ∧
     (b = true → ∃ n, n ∈ holders first 2 "a" s ∧
        ∀ reader c' t, sees 2 first reader "a" s' t → reachable reader n t →
        ∃ t', node_get reader 2 lww_read_resolve c' "a" t = (Ok (VInt 7), t'))) ∧
  (∃ b s', node_delete first 2 c "a" s = (Ok b, s') ∧
     (b = true → ∃ n, n ∈ holders first 2 "a" s ∧
        ∀ reader c' t, sees 2 first reader "a" s' t → reachable reader n t →
        ∃ t', node_get reader 2 lww_read_resolve c' "a" t = (Ok VNone, t'))).
Proof.
  apply (acknowledged_write_is_read (R := ring) 2 first sample_clock "a" (VInt 7)
    (sample_cluster [mkDelivery [sample_clock; sample_clock] false; mkDelivery [] true])).
  - apply sample_cluster_wf.
  - exact sample_members_wf.
  - reflexivity.
  - intros n e Hn He. rewrite (sample_entry "a" _ n Hn) in He. vm_compute in He.
    injection He as <-. reflexivity.
Defined.
End samples.
