(* ===== verification/ClusterTtl.v ===== *)
(** * Values that expire, across a cluster

    Every replica measures the life of a value on its own clock.  What a node reads
    when all replicas of a key can be reached: the newest value that has not expired
    where it is kept. *)
From S2P Require Import Prelude Async PyBase PyDict Types Store LwwStore Ring Dispatcher.
From S2P Require Import PoolOps Consistency Discovery Gossip Node Replicas Cluster ClusterSpec.

(** ** Choosing among the answers of nodes *)

Lemma existsb_elem {A} (f : A → bool) l : existsb f l = true ↔ ∃ x, x ∈ l ∧ f x = true.
Proof.
  rewrite existsb_exists. by split; intros (x & Hx & Hf); exists x; apply list_elem_of_In in Hx || rewrite list_elem_of_In.
Qed.

Lemma existsb_none {A} (f : A → bool) l : existsb f l = false ↔ ∀ x, x ∈ l → f x = false.
Proof.
  rewrite <- not_true_iff_false, existsb_elem. split; [|naive_solver congruence].
  intros Hn x Hx. apply not_true_is_false. intros Hf. apply Hn. by exists x.
Qed.

Lemma picks_newest (f : NodeInfo → option versioned) ns n v ts tomb :
  n ∈ ns → f n = Some (v, ts, tomb) → (0 ≤ ts)%Z →
  (∀ n' v' ts' tomb', n' ∈ ns → f n' = Some (v', ts', tomb') →
    (ts' < ts)%Z ∨ (v', ts', tomb') = (v, ts, tomb)) →
  pick (f <$> ns) = if tomb : bool then VNone else v.
Proof.
  intros [i Hi]%list_elem_of_lookup Hf Hts Hold.
  apply (pick_unrivalled _ i v ts tomb); [by rewrite list_lookup_fmap, Hi, <- Hf|done|].
  intros j v' ts' tomb' (n' & Heq & Hj)%list_lookup_fmap_Some.
  apply (Hold n'); [by eapply list_elem_of_lookup_2|done].
Qed.

Lemma picks_nothing (f : NodeInfo → option versioned) ns :
  (∀ n, n ∈ ns → f n = None) → pick (f <$> ns) = VNone.
Proof.
  intros Hnone. apply pick_none. intros j v ts tomb (n & Heq & Hj)%list_lookup_fmap_Some.
  rewrite Hnone in Heq; [done|by eapply list_elem_of_lookup_2].
Qed.

Section ttl.
Context {R : Type} `{RingLaws R} (info : NodeInfo) (replication : Z).
Abbreviation N := (node_state R world).
Implicit Types (s t : N) (n : NodeInfo).

(** The clock at which [n] handles a request of a call that is made at [c]. *)
Definition clock_at n c s : clock := if decide (n = info) then c else default c (peer_clock n s).

(** Every write of a node has a positive timestamp, nanoseconds since 1970. *)
Definition stamped (o : option entry) : Prop := ∀ e, o = Some e → (0 < e_ts e)%Z.

(** ** Calls to replicas that answer *)

(** A state in which the replicas are still there, at the clocks they had in [s0]. *)
Record steady s0 s : Prop := {
  st_wf : replica_wf s;
  st_ring : g_ring (n_gossip s) = g_ring (n_gossip s0);
  st_reachable n : reachable info n s0 → reachable info n s;
  st_aside n : peer_aside n s = peer_aside n s0;
  st_caller : caller_aside s = caller_aside s0;
}.

Lemma steady_only_at s0 s s' n key : steady s0 s → only_at info n key s s' → steady s0 s'.
Proof. intros [] []. split; [done|congruence|auto|congruence|congruence]. Qed.

Lemma st_clock s0 s n : steady s0 s → peer_clock n s = peer_clock n s0.
Proof. intros Hs. unfold peer_clock. by rewrite (st_aside _ _ Hs). Qed.

Lemma steady_refl s : replica_wf s → steady s s.
Proof. by constructor. Qed.

(** The call does to the register of [key] at [n] what [g] says, and returns what it says. *)
Definition does {A} s0 key (g : option entry → A * option entry) n (m : M N A) : Prop :=
  ∀ s, steady s0 s → stamped (entry_at info n key s) → ∃ s', m s = (Ok (g (entry_at info n key s)).1, s') ∧
    only_at info n key s s' ∧ entry_at info n key s' = (g (entry_at info n key s)).2.

Lemma does_all {A} s0 key (g : NodeInfo → option entry → A * option entry) (body : NodeInfo → M N A) ns s :
  (∀ n, n ∈ ns → does s0 key (g n) n (body n)) → NoDup ns → steady s0 s →
  (∀ n, n ∈ ns → stamped (entry_at info n key s)) →
  ∃ s', run_all (body <$> ns) s = (Ok <$> ((λ n, (g n (entry_at info n key s)).1) <$> ns), s') ∧
    steady s0 s' ∧
    (∀ n, n ∈ ns → entry_at info n key s' = (g n (entry_at info n key s)).2) ∧
    (∀ n k', k' ≠ key ∨ n ∉ ns → entry_at info n k' s' = entry_at info n k' s).
Proof.
  intros Hbody Hnd. revert s. induction Hnd as [|n ns Hnin Hnd IH]; intros s Hs Hst.
  { exists s. split_and!; [done|done| |done]. set_solver. }
  destruct (Hbody n ltac:(left) s Hs ltac:(apply Hst; left)) as (s1 & Hrun & Hat & He).
  assert (∀ m k', m ≠ n ∨ k' ≠ key → entry_at info m k' s1 = entry_at info m k' s) as Hm.
  { intros m k' Hne. apply (oa_entry _ _ _ _ _ Hat). intros [= -> ->]. naive_solver. }
  assert (∀ m, m ∈ ns → m ≠ n) as Hne by (by intros m Hin ->).
  destruct (IH ltac:(intros m Hin; apply Hbody; by right) s1) as (s2 & Hrun2 & Hs2 & He2 & Ho2).
  { by eapply steady_only_at. }
  { intros m Hin. rewrite Hm by auto. apply Hst. by right. }
  exists s2. split_and!; [|done| |].
  - csimpl. rewrite Hrun, Hrun2. do 3 f_equal. apply list_fmap_ext. intros i m Hi.
    by rewrite Hm by (left; apply Hne; by eapply list_elem_of_lookup_2).
  - intros m [->|Hin]%elem_of_cons.
    + by rewrite Ho2 by (by right).
    + by rewrite He2, Hm by auto.
  - intros m k' Hk. rewrite Ho2 by set_solver. apply Hm. set_solver.
Qed.

Lemma map_each_all_ok {A} (body : NodeInfo → M N A) ns s l s' :
  run_all (body <$> ns) s = (Ok <$> l, s') → map_each ns body s = (Ok l, s').
Proof.
  revert s l. induction ns as [|n ns IH]; intros s l; csimpl.
  { intros [= Hl <-]. by destruct l. }
  unfold_M. destruct (body n s) as [r s1]. destruct (run_all (body <$> ns) s1) as [rs s2] eqn:Hrun.
  destruct l as [|a l]; intros [= -> -> ->]. by rewrite (IH s1 l).
Qed.

(** ** One replica *)

Lemma read_stamped now key o :
  stamped o → decode_get (Some (get_reply key (Spec.read now o).1)) = Ok (Spec.read now o).1.
Proof.
  intros Ho. destruct o as [[[v|] exp ts]|]; simpl; [| |done].
  - by destruct (past now exp).
  - by rewrite bool_decide_eq_true_2 by (specialize (Ho _ eq_refl); simpl in Ho; lia).
Qed.

(** A call on the node's own store that changes the register of [key] only. *)
Lemma local_does {A} (m : M lww_store A) (g : option entry → A * option entry) key s :
  replica_wf s →
  (∀ d, m d = (Ok (g (dict_get d key)).1, dict_alter (λ o, (g o).2) d key)) →
  ∃ s', on_store m s = (Ok (g (entry_at info info key s)).1, s') ∧ only_at info info key s s' ∧
    entry_at info info key s' = (g (entry_at info info key s)).2.
Proof.
  intros Hw Hm.
  destruct (only_at_store info key (dict_alter (λ o, (g o).2) (n_store s) key) s) as [Hat He];
    [apply dict_alter_wf, Hw|done| |].
  { intros k' Hk. rewrite dict_alter_get by apply Hw. by rewrite decide_False. }
  assert (entry_at info info key s = dict_get (n_store s) key) as Hs0.
  { unfold entry_at. by destruct (decide (info = info)). }
  rewrite Hs0. eexists. split; [|split; [exact Hat|]].
  - unfold on_store. by erewrite zoom_run by apply Hm.
  - rewrite He, dict_alter_get by apply Hw. by destruct (decide (key = key)).
Qed.

Lemma read_does s0 c key n :
  reachable info n s0 →
  does s0 key (Spec.read (monotonic (clock_at n c s0))) n (fetch key (make_handle info c n)).
Proof.
  intros Hre s Hs Hst. unfold fetch, clock_at. rewrite handle_get_op. unfold replica_op.
  pose proof (st_wf _ _ Hs) as Hw. destruct (decide (n = info)) as [->|Hne].
  - destruct (local_does (lww_get_versioned c key) (Spec.read (monotonic c)) key s Hw) as (s' & Hrun & Hrest).
    { intros d. apply lww_get_versioned_run. }
    exists s'. split; [|done]. unfold try_except. by rewrite Hrun.
  - destruct (remote_about info n _ key _ _ s (get_about key) Hne Hw)
      as (o & s' & cs & Hrun & Hat & He & _ & Hok).
    destruct Hok as (c' & Hc & -> & ->); [by apply (st_reachable _ _ Hs)|].
    rewrite (st_clock s0 s) in Hc by done. rewrite Hc. exists s'. split; [|done].
    unfold try_except. step_M Hrun. unfold lift_result. simpl default. by rewrite read_stamped.
Qed.

(** The entry a write leaves at [n]. *)
Definition ttl_entry s c v ttl n : entry :=
  mkEntry (Val v) (expires_at (clock_at n c s) ttl) (time_ns c).

Definition write_result s c v ttl n (o : option entry) : bool * option entry :=
  (if decide (n = info) then (Spec.write (ttl_entry s c v ttl n) o).1 else true,
   (Spec.write (ttl_entry s c v ttl n) o).2).

Lemma set_does s0 c key v ttl n :
  reachable info n s0 →
  does s0 key (write_result s0 c v ttl n) n (h_set (make_handle info c n) key v ttl (time_ns c)).
Proof.
  intros Hre s Hs _. unfold write_result, ttl_entry, clock_at. rewrite handle_set_op. unfold replica_op.
  pose proof (st_wf _ _ Hs) as Hw. destruct (decide (n = info)) as [->|Hne].
  - apply (local_does (lww_set c key v ttl (Some (time_ns c))) (Spec.write _)); [done|].
    intros d. apply (lww_set_run c key v ttl (Some (time_ns c))).
  - destruct (remote_about info n _ key _ _ s (set_about key v ttl (time_ns c)) Hne Hw)
      as (o & s' & cs & Hrun & Hat & He & _ & Hok).
    destruct Hok as (c' & Hc & -> & ->); [by apply (st_reachable _ _ Hs)|].
    rewrite (st_clock s0 s) in Hc by done. rewrite Hc. exists s'. split; [|done].
    by step_M Hrun.
Qed.

Lemma delete_does s0 c key n :
  reachable info n s0 →
  does s0 key (λ o, (Spec.lived o, (Spec.write (mkEntry TOMBSTONE None (time_ns c)) o).2)) n
    (h_delete (make_handle info c n) key (time_ns c)).
Proof.
  intros Hre s Hs _. rewrite handle_delete_op. unfold replica_op.
  destruct (decide (n = info)) as [->|Hne].
  - apply (local_does (lww_delete c key (Some (time_ns c)))
      (λ o, (Spec.lived o, (Spec.write (mkEntry TOMBSTONE None (time_ns c)) o).2))); [apply Hs|].
    intros d. apply (lww_delete_run c key (Some (time_ns c))).
  - pose proof (st_wf _ _ Hs) as Hw.
    destruct (remote_about info n _ key _ _ s (delete_about key (time_ns c)) Hne Hw)
      as (o & s' & cs & Hrun & Hat & He & _ & Hok).
    destruct Hok as (c' & Hc & -> & ->); [by apply (st_reachable _ _ Hs)|].
    exists s'. split; [|done]. step_M Hrun. unfold lift_result. simpl. by destruct (Spec.lived _).
Qed.

(** The common shape of [set] and [delete] when all replicas answer. *)
Lemma node_write_all key (g : NodeInfo → option entry → bool * option entry) (local : M lww_store bool)
    (body : ReplicaHandle N → M N bool) c s :
  (∀ n, n ∈ holders info replication key s → does s key (g n) n (body (make_handle info c n))) →
  body (make_handle info c info) = on_store local →
  replica_wf s → r_wf (g_ring (n_gossip s)) →
  (∀ n, n ∈ holders info replication key s → stamped (entry_at info n key s)) →
  ∃ b s', match replicas replication key s with
    | [] => on_store local ;; mret true
    | nodes => results ← map_each (_make_handles info c nodes) body; mret (existsb id results)
    end s = (Ok b, s') ∧ steady s s' ∧
    (∀ n, n ∈ holders info replication key s →
      entry_at info n key s' = (g n (entry_at info n key s)).2) ∧
    (∀ n k', k' ≠ key ∨ n ∉ holders info replication key s → entry_at info n k' s' = entry_at info n k' s) ∧
    ((∃ n, n ∈ holders info replication key s ∧ (g n (entry_at info n key s)).1 = true) → b = true).
Proof.
  intros Hdoes Hlocal Hw Hr Hst.
  destruct (does_all s key g (λ n, body (make_handle info c n)) (holders info replication key s) s)
    as (s' & Hrun & Hs' & He & Ho); [done|by apply holders_nodup|by apply steady_refl|done|].
  revert Hrun. set (bs := (λ n, (g n (entry_at info n key s)).1) <$> holders info replication key s). intros Hrun.
  assert ((∃ n, n ∈ holders info replication key s ∧ (g n (entry_at info n key s)).1 = true) →
    existsb id bs = true) as Hbs.
  { intros (n & Hn & Hg). apply existsb_elem. exists true. split; [|done].
    apply list_elem_of_fmap. by exists n. }
  clearbody bs. unfold holders in *. destruct (replicas replication key s) as [|m ms].
  - exists true, s'. split; [|done]. csimpl in Hrun. rewrite Hlocal in Hrun.
    destruct (on_store _ s) as [r s1] eqn:Hs1; simplify_eq. destruct bs as [|b []]; simplify_eq/=.
    by step_M Hs1.
  - exists (existsb id bs), s'. split; [|done]. apply map_each_all_ok in Hrun.
    unfold _make_handles. rewrite <- (map_each_fmap (make_handle info c) body) in Hrun. by step_M Hrun.
Qed.

(** ** Reading from all replicas *)

(** What [n] answers to a read made at [c]. *)
Definition reads c key s n : option versioned :=
  (Spec.read (monotonic (clock_at n c s)) (entry_at info n key s)).1.

Definition all_stamped key s : Prop :=
  ∀ n, n ∈ holders info replication key s → stamped (entry_at info n key s).

Lemma pick_one r : (∀ v ts tomb, r = Some (v, ts, tomb) → (0 ≤ ts)%Z) → pick [r] = Spec.visible r.
Proof.
  intros Hts. destruct r as [[[v ts] tomb]|]; [|done].
  rewrite (pick_unrivalled _ 0 v ts tomb); [by destruct tomb|done|by eapply Hts|].
  intros [|j] v' ts' tomb' Hj; [right; by injection Hj as -> -> ->|done].
Qed.

Lemma read_stamp now o v ts tomb :
  stamped o → (Spec.read now o).1 = Some (v, ts, tomb) → (0 < ts)%Z.
Proof.
  intros Ho Hr. destruct (proj1 (read_shows now o) _ Hr) as (e & He & Hv).
  specialize (Ho e He). unfold view in Hv. by destruct (e_cell e); injection Hv as -> -> ->.
Qed.

(** A read is the choice among the answers of the holders. *)
Lemma get_picks c key s :
  replica_wf s → r_wf (g_ring (n_gossip s)) → healthy info replication key s → all_stamped key s →
  ∃ s', node_get info replication lww_read_resolve c key s =
      (Ok (pick (reads c key s <$> holders info replication key s)), s') ∧ steady s s' ∧
    (∀ n, n ∈ holders info replication key s →
      entry_at info n key s' = (Spec.read (monotonic (clock_at n c s)) (entry_at info n key s)).2) ∧
    (∀ n k', k' ≠ key ∨ n ∉ holders info replication key s → entry_at info n k' s' = entry_at info n k' s).
Proof.
  intros Hw Hr Hh Hst.
  destruct (does_all s key (λ n, Spec.read (monotonic (clock_at n c s))) (λ n, fetch key (make_handle info c n))
    (holders info replication key s) s) as (s' & Hrun & Hrest).
  { intros n Hn. by apply read_does, Hh. }
  { by apply holders_nodup. }
  { by apply steady_refl. }
  { exact Hst. }
  exists s'. split; [|done]. unfold node_get. rewrite (M_bind_Ok get_state _ s s s eq_refl).
  change (λ n, (Spec.read _ (entry_at info n key s)).1) with (reads c key s) in Hrun.
  unfold all_stamped, holders in *. destruct (replicas replication key s) as [|m ms].
  - destruct (local_get info c key s) as (r & s1 & Hf & Hg). csimpl in Hrun. rewrite Hf in Hrun.
    injection Hrun as -> ->. rewrite Hg. do 2 f_equal. symmetry. apply pick_one.
    intros v ts tomb Hv. apply read_stamp in Hv; [lia|]. apply Hst. left.
  - generalize dependent (reads c key s <$> m :: ms). intros rs Hrun.
    rewrite lww_read_resolve_run. unfold _make_handles. rewrite <- list_fmap_compose.
    unfold compose. rewrite Hrun. simpl fst. do 3 f_equal.
    rewrite <- list_fmap_compose. apply list_fmap_id.
Qed.

(** A write through the node, when all replicas answer. *)
Lemma node_set_all c key v ttl s :
  replica_wf s → r_wf (g_ring (n_gossip s)) → healthy info replication key s → all_stamped key s →
  let g := write_result s c v ttl in
  ∃ b s', node_set info replication c key v ttl s = (Ok b, s') ∧ steady s s' ∧
    (∀ n, n ∈ holders info replication key s → entry_at info n key s' = (g n (entry_at info n key s)).2) ∧
    (∀ n k', k' ≠ key ∨ n ∉ holders info replication key s → entry_at info n k' s' = entry_at info n k' s) ∧
    ((∃ n, n ∈ holders info replication key s ∧ (g n (entry_at info n key s)).1 = true) → b = true).
Proof.
  intros Hw Hr Hh Hst g.
  destruct (node_write_all key g (lww_set c key v ttl (Some (time_ns c)))
    (λ h, h_set h key v ttl (time_ns c)) c s) as (b & s' & Hrun & Hrest); try done.
  - intros n Hn. by apply set_does, Hh.
  - rewrite handle_set_op. unfold replica_op. by destruct (decide (info = info)).
  - exists b, s'. split; [|done]. rewrite <- Hrun. unfold node_set.
    rewrite (M_bind_Ok get_state _ s s s eq_refl). by destruct (replicas replication key s).
Qed.

Lemma node_delete_all c key s :
  replica_wf s → r_wf (g_ring (n_gossip s)) → healthy info replication key s → all_stamped key s →
  let g o := (Spec.lived o, (Spec.write (mkEntry TOMBSTONE None (time_ns c)) o).2) in
  ∃ b s', node_delete info replication c key s = (Ok b, s') ∧ steady s s' ∧
    (∀ n, n ∈ holders info replication key s → entry_at info n key s' = (g (entry_at info n key s)).2) ∧
    (∀ n k', k' ≠ key ∨ n ∉ holders info replication key s → entry_at info n k' s' = entry_at info n k' s) ∧
    ((∃ n, n ∈ holders info replication key s ∧ (g (entry_at info n key s)).1 = true) → b = true).
Proof.
  intros Hw Hr Hh Hst g.
  destruct (node_write_all key (λ _, g) (lww_delete c key (Some (time_ns c)))
    (λ h, h_delete h key (time_ns c)) c s) as (b & s' & Hrun & Hrest); try done.
  - intros n Hn. by apply delete_does, Hh.
  - rewrite handle_delete_op. unfold replica_op. by destruct (decide (info = info)).
  - exists b, s'. split; [|done]. rewrite <- Hrun. unfold node_delete.
    rewrite (M_bind_Ok get_state _ s s s eq_refl). by destruct (replicas replication key s).
Qed.

(** A node reads the newest value that is alive.  When all replicas of a key can be
    reached, [get] returns the value of a replica's entry that has not expired on the clock
    of that replica, or [None] for a tombstone, provided every other replica's entry
    is older, the same or expired on its own clock; and [None] when all have expired
    or there are none. *)
Theorem get_newest_alive c key s :
  replica_wf s → r_wf (g_ring (n_gossip s)) → healthy info replication key s → all_stamped key s →
  ∃ x s', node_get info replication lww_read_resolve c key s = (Ok x, s') ∧
    (∀ n v ts tomb, n ∈ holders info replication key s → reads c key s n = Some (v, ts, tomb) →
      (∀ n' v' ts' tomb', n' ∈ holders info replication key s → reads c key s n' = Some (v', ts', tomb') →
        (ts' < ts)%Z ∨ (v', ts', tomb') = (v, ts, tomb)) →
      x = if tomb : bool then VNone else v) ∧
    ((∀ n, n ∈ holders info replication key s → reads c key s n = None) → x = VNone).
Proof.
  intros Hw Hr Hh Hst. destruct (get_picks c key s Hw Hr Hh Hst) as (s' & Hrun & _).
  eexists _, s'. split; [exact Hrun|]. split; [|apply picks_nothing].
  intros n v ts tomb Hn Hrd Hother. apply (picks_newest _ _ n v ts tomb); [done..| |done].
  apply read_stamp in Hrd; [lia|by apply Hst].
Qed.
End ttl.

(** ** Writes with a time to live *)
Section expiry.
Context {R : Type} `{RingLaws R} (replication : Z).
Abbreviation N := (node_state R world).
Implicit Types (s t : N) (n : NodeInfo).

(** A holder at which the value that expires at [exp n] is alive. *)
Definition alive_at reader c t (exp : NodeInfo → option Float.t) n : bool :=
  negb (past (monotonic (clock_at reader n c t)) (exp n)).

(** Holders that have a write with its own expiry at each of them, and others that missed
    it and have what was there before. *)
Lemma mixed_read reader c key t (has : NodeInfo → bool) v exp ts (old : option entry) :
  replica_wf t → r_wf (g_ring (n_gossip t)) → healthy reader replication key t → (0 < ts)%Z →
  (∀ n, n ∈ holders reader replication key t → entry_at reader n key t =
    if has n then Some (mkEntry (Val v) (exp n) ts) else old) →
  (∀ e, old = Some e → durable e ∧ (e_ts e < ts)%Z) →
  ∃ t', node_get reader replication lww_read_resolve c key t =
    (Ok (if existsb (λ n, has n && alive_at reader c t exp n) (holders reader replication key t) then v
         else if existsb (λ n, negb (has n)) (holders reader replication key t)
         then Spec.visible (view <$> old) else VNone), t').
Proof.
  intros Hw Hr Hh Hts Hent Hold. set (hs := holders reader replication key t) in *.
  assert (all_stamped reader replication key t) as Hst.
  { intros n Hn e. rewrite Hent by done. destruct (has n); [by intros [= <-]|].
    intros He. by apply Hold in He as [[_ ?] _]. }
  destruct (get_picks reader replication c key t Hw Hr Hh Hst) as (t' & Hrun & _).
  exists t'. rewrite Hrun. do 2 f_equal. fold hs.
  assert (∀ n, n ∈ hs → reads reader c key t n =
    if has n then if alive_at reader c t exp n then Some (v, ts, false) else None
    else view <$> old) as Hreads.
  { intros n Hn. unfold reads, alive_at. rewrite Hent by done. destruct (has n).
    - simpl. by destruct (past _ _).
    - destruct old as [e|]; [|done]. rewrite read_durable; [done|by apply Hold]. }
  assert (∀ v' ts' tomb', view <$> old = Some (v', ts', tomb') → (0 < ts' < ts)%Z) as Hview.
  { intros v' ts' tomb'. destruct old as [e|]; [|done]. destruct (Hold e eq_refl) as [[_ ?] ?].
    unfold view. simpl. by destruct (e_cell e); intros [= <- <- <-]. }
  destruct (existsb (λ n, has n && alive_at reader c t exp n) hs) eqn:Hal.
  - apply existsb_elem in Hal as (n & Hn & [Hhn Han]%andb_true_iff).
    apply (picks_newest _ _ n v ts false); [done|by rewrite Hreads, Hhn, Han|lia|].
    intros n' v' ts' tomb' Hn' Heq. rewrite Hreads in Heq by done.
    destruct (has n'), (alive_at reader c t exp n'); simplify_eq; auto; left; by apply Hview in Heq as [_ ?].
  - assert (∀ n, n ∈ hs → reads reader c key t n = if has n then None else view <$> old) as Hgone.
    { intros n Hn. rewrite Hreads by done. pose proof (proj1 (existsb_none _ _) Hal n Hn) as Hd. simpl in Hd.
      destruct (has n); [by destruct (alive_at _ _ _ _ _)|done]. }
    destruct (existsb (λ n, negb (has n)) hs) eqn:Hmiss.
    + apply existsb_elem in Hmiss as (n & Hn & Hhn%negb_true_iff).
      destruct (view <$> old) as [[[v' ts'] tomb']|].
      * transitivity (if tomb' then VNone else v'); [|by destruct tomb'].
        apply (picks_newest _ _ n v' ts' tomb'); [done|by rewrite Hgone, Hhn| |].
        { by destruct (Hview _ _ _ eq_refl); lia. }
        intros n' v2 ts2 tomb2 Hn' Heq. rewrite Hgone in Heq by done. destruct (has n'); [done|right; congruence].
      * apply picks_nothing. intros n' Hn'. rewrite Hgone by done. by destruct (has n').
    + apply picks_nothing. intros n Hn. rewrite Hgone by done.
      pose proof (proj1 (existsb_none _ _) Hmiss n Hn) as Hhn. simpl in Hhn. by destruct (has n).
Qed.

Lemma write_older new o : (∀ e, o = Some e → (e_ts e < e_ts new)%Z) → Spec.write new o = (true, Some new).
Proof.
  intros Ho. destruct o as [e|]; [|done]. simpl. specialize (Ho e eq_refl).
  by rewrite bool_decide_eq_false_2 by lia.
Qed.

(** All replicas take a newer write. *)
Lemma set_ttl_run writer c key v ttl s :
  replica_wf s → r_wf (g_ring (n_gossip s)) → healthy writer replication key s →
  all_stamped writer replication key s → older replication writer key (time_ns c) s →
  ∃ s', node_set writer replication c key v ttl s = (Ok true, s') ∧ steady writer s s' ∧
    ∀ n, n ∈ holders writer replication key s →
      entry_at writer n key s' = Some (ttl_entry writer s c v ttl n).
Proof.
  intros Hw Hr Hh Hst Hold.
  assert (∀ n, n ∈ holders writer replication key s →
    write_result writer s c v ttl n (entry_at writer n key s) = (true, Some (ttl_entry writer s c v ttl n))) as Hres.
  { intros n Hn. unfold write_result. rewrite write_older by (intros e; by apply Hold). simpl. by case_decide. }
  destruct (node_set_all writer replication c key v ttl s Hw Hr Hh Hst) as (b & s' & Hrun & Hs' & He & _ & Hb).
  destruct (holders_some writer replication key s) as [n0 Hn0].
  rewrite Hb in Hrun by (exists n0; by rewrite Hres).
  exists s'. split; [done|]. split; [done|]. intros n Hn. by rewrite He, Hres.
Qed.

(** C8. A value lives until the last replica's clock has passed its time.  When all replicas
    of a key can be reached and have older entries or none, [set] with a [ttl] succeeds
    and leaves at each replica the value, to expire [ttl] after the write on that
    replica's own clock; then any node of the same membership that reaches all replicas
    reads the value as long as the clock of one of them has not passed its
    expiry, and [None] from then on. *)
Theorem ttl_read_until_last writer c key v ttl s :
  replica_wf s → r_wf (g_ring (n_gossip s)) → healthy writer replication key s → (0 < time_ns c)%Z →
  all_stamped writer replication key s → older replication writer key (time_ns c) s →
  ∃ s', node_set writer replication c key v ttl s = (Ok true, s') ∧
    (∀ n, n ∈ holders writer replication key s → entry_at writer n key s' =
      Some (mkEntry (Val v) (expires_at (clock_at writer n c s) ttl) (time_ns c))) ∧
    ∀ reader c' t, sees replication writer reader key s' t → healthy reader replication key t →
    ∃ t', node_get reader replication lww_read_resolve c' key t =
      (Ok (if existsb (alive_at reader c' t (λ n, expires_at (clock_at writer n c s) ttl))
             (holders writer replication key s) then v else VNone), t').
Proof.
  intros Hw Hr Hh Hpos Hst Hold.
  destruct (set_ttl_run writer c key v ttl s Hw Hr Hh Hst Hold) as (s' & Hrun & Hs' & He).
  exists s'. split; [done|]. split; [done|]. intros reader c' t Hsees Hht.
  destruct (sees_holders _ _ _ _ _ _ Hsees) as [Hhold Hsee]. destruct Hsees as (Hwt & Hrt & _).
  rewrite (holders_ring writer replication key s s') in Hhold, Hsee by apply Hs'.
  destruct (mixed_read reader c' key t (λ _, true) v (λ n, expires_at (clock_at writer n c s) ttl)
    (time_ns c) None Hwt Hrt Hht Hpos) as (t' & Hget); [|done|].
  { intros n Hn. rewrite Hhold in Hn. rewrite Hsee by done. by apply He. }
  exists t'. rewrite Hget, Hhold. by rewrite (proj2 (existsb_none (λ _, negb true) _)).
Qed.

(** C38. An expired value uncovers an older one.  When some replicas of a key have a value with
    a time to live and the others missed that write and have an older value without
    one, a node that reaches them all reads the newer value while it is alive at some replica,
    and afterwards the older value, not [None]: a replica that missed a write
    brings back what the write replaced. *)
Theorem expired_write_uncovers reader c key t has v exp ts v0 ts0 :
  replica_wf t → r_wf (g_ring (n_gossip t)) → healthy reader replication key t → (0 < ts0 < ts)%Z →
  (∀ n, n ∈ holders reader replication key t → entry_at reader n key t =
    Some (if has n : bool then mkEntry (Val v) (exp n) ts else mkEntry (Val v0) None ts0)) →
  (∃ n, n ∈ holders reader replication key t ∧ has n = false) →
  ∃ t', node_get reader replication lww_read_resolve c key t =
    (Ok (if existsb (λ n, has n && alive_at reader c t exp n) (holders reader replication key t)
         then v else v0), t').
Proof.
  intros Hw Hr Hh Hts Hent (n & Hn & Hhn).
  destruct (mixed_read reader c key t has v exp ts (Some (mkEntry (Val v0) None ts0)) Hw Hr Hh)
    as (t' & Hget); [lia| | |].
  { intros m Hm. rewrite Hent by done. by destruct (has m). }
  { intros e [= <-]. repeat split; simpl; lia. }
  exists t'. rewrite Hget. assert (existsb (λ n, negb (has n)) (holders reader replication key t) = true) as ->.
  { apply existsb_elem. exists n. by rewrite Hhn. }
  done.
Qed.
End expiry.

(** ** Samples: two replicas *)
Section samples.
Definition second : NodeInfo := mkNodeInfo "10.0.0.2" 7001.

Lemma sample_healthy key : healthy first 2 key (sample_cluster []).
Proof. apply (sf_healthy _ _ _ _ sample_stands_for). Qed.

Lemma sample_stamped : all_stamped first 2 "a" (sample_cluster []).
Proof. intros n Hn e He. rewrite (sample_entry "a" [] n Hn) in He. vm_compute in He. by injection He as <-. Qed.

Lemma get_newest_alive_witness :
  let s := sample_cluster [] in let c := sample_clock in
  ∃ x s', node_get first 2 lww_read_resolve c "a" s = (Ok x, s') ∧
    (∀ n v ts tomb, n ∈ holders first 2 "a" s → reads first c "a" s n = Some (v, ts, tomb) →
      (∀ n' v' ts' tomb', n' ∈ holders first 2 "a" s → reads first c "a" s n' = Some (v', ts', tomb') →
        (ts' < ts)%Z ∨ (v', ts', tomb') = (v, ts, tomb)) →
      x = if tomb : bool then VNone else v) ∧
    ((∀ n, n ∈ holders first 2 "a" s → reads first c "a" s n = None) → x = VNone).
Proof.
  apply (get_newest_alive first 2 sample_clock "a" (sample_cluster [])).
  - apply sample_cluster_wf.
  - exact sample_members_wf.
  - apply sample_healthy.
  - exact sample_stamped.
Defined.

Lemma ttl_read_until_last_witness :
  let s := sample_cluster [] in let c := sample_clock in let ttl := Some (Float.of_Z 10) in
  ∃ s', node_set first 2 c "a" (VInt 7) ttl s = (Ok true, s') ∧
    (∀ n, n ∈ holders first 2 "a" s → entry_at first n "a" s' =
      Some (mkEntry (Val (VInt 7)) (expires_at (clock_at first n c s) ttl) (time_ns c))) ∧
    ∀ reader c' t, sees 2 first reader "a" s' t → healthy reader 2 "a" t →
    ∃ t', node_get reader 2 lww_read_resolve c' "a" t =
      (Ok (if existsb (alive_at reader c' t (λ n, expires_at (clock_at first n c s) ttl))
             (holders first 2 "a" s) then VInt 7 else VNone), t').
Proof.
  apply (ttl_read_until_last (R := ring) 2 first sample_clock "a" (VInt 7) (Some (Float.of_Z 10))
    (sample_cluster [])).
  - apply sample_cluster_wf.
  - exact sample_members_wf.
  - apply sample_healthy.
  - reflexivity.
  - exact sample_stamped.
  - intros n e Hn He. rewrite (sample_entry "a" [] n Hn) in He. vm_compute in He. by injection He as <-.
Defined.

(** The first node has a value that expires at 3, the second missed it. *)
Definition missed_write : node_state ring world :=
  mkNode (mkGossip sample_members
      {[ second := mkPeer (mkNode (mkGossip sample_members [] (StaticDiscovery [])) one_entry true false)
          [] sample_clock ]} (StaticDiscovery []))
    [("a", mkEntry (Val (VInt 7)) (Some (Float.of_Z 3)) 9%Z)] true false.

Definition clock_of (now : Z) : clock := mkClock (Float.of_Z now) 20%Z.

Lemma missed_holders n : n ∈ holders first 2 "a" missed_write → n = first ∨ n = second.
Proof.
  intros [->|Hn]%holders_members; [by left|].
  apply elem_of_cons in Hn as [->|Hn]; [by left|]. apply list_elem_of_singleton in Hn. by right.
Qed.

Lemma expired_write_uncovers_witness :
  let has n := bool_decide (n = first) in let exp := λ _, Some (Float.of_Z 3) in
  ∃ t', node_get first 2 lww_read_resolve (clock_of 4) "a" missed_write =
    (Ok (if existsb (λ n, has n && alive_at first (clock_of 4) missed_write exp n)
           (holders first 2 "a" missed_write) then VInt 7 else VInt 1), t').
Proof.
  apply (expired_write_uncovers (R := ring) 2 first (clock_of 4) "a" missed_write
    (λ n, bool_decide (n = first)) (VInt 7) (λ _, Some (Float.of_Z 3)) 9%Z (VInt 1) 5%Z).
  - split; [apply map_Forall_singleton; exact one_entry_wf|apply NoDup_singleton].
  - exact sample_members_wf.
  - intros n [->| ->]%missed_holders; [by left|]. right. eexists.
    unfold missed_write. cbn [g_pool n_gossip]. by rewrite lookup_singleton_eq.
  - lia.
  - intros n [->| ->]%missed_holders; [reflexivity|].
    unfold missed_write, entry_at. cbn [g_pool n_gossip]. by rewrite lookup_singleton_eq.
  - exists second. split; [vm_compute; repeat constructor|reflexivity].
Defined.

(** Before and after the expiry. *)
Example missed_write_before : (node_get first 2 lww_read_resolve (clock_of 2) "a" missed_write).1 = Ok (VInt 7).
Proof. vm_compute. reflexivity. Qed.

Example missed_write_after : (node_get first 2 lww_read_resolve (clock_of 4) "a" missed_write).1 = Ok (VInt 1).
Proof. vm_compute. reflexivity. Qed.
End samples.
