(* ===== verification/ClusterFrame.v ===== *)
(** * What a call leaves alone, across a cluster

    Whatever the state of the network and of the replicas, a call of [get], [set] or
    [delete] of one key returns, and changes no register of another key. *)
From S2P Require Import Prelude Async PyBase PyDict Types Store LwwStore Ring Dispatcher.
From S2P Require Import PoolOps Consistency Discovery Gossip Node Replicas Cluster ClusterSpec ClusterTtl.

Section frame.
Context {R : Type} `{RingLaws R} (info : NodeInfo) (replication : Z).
Abbreviation N := (node_state R world).
Implicit Types (s t : N) (n : NodeInfo) (key : string).

(** [m] returns, and touches nothing but the registers of [key]. *)
Definition touches {A} key (m : M N A) : Prop :=
  ∀ s, replica_wf s → ∃ a s', m s = (Ok a, s') ∧ steady info s s' ∧
    ∀ n k', k' ≠ key → entry_at info n k' s' = entry_at info n k' s.

Lemma steady_trans s t s' : steady info s t → steady info t s' → steady info s s'.
Proof. intros [] []. split; [done|congruence|auto|congruence|congruence]. Qed.

Lemma touches_ret {A} key (a : A) : touches key (mret a).
Proof. intros s Hs. exists a, s. split; [done|]. split; [by apply steady_refl|done]. Qed.

Lemma touches_bind {A B} key (m : M N A) (f : A → M N B) :
  touches key m → (∀ a, touches key (f a)) → touches key (m ≫= f).
Proof.
  intros Hm Hf s Hs. destruct (Hm s Hs) as (a & s1 & Hrun & Hs1 & He1).
  destruct (Hf a s1 (st_wf _ _ _ Hs1)) as (b & s2 & Hrun2 & Hs2 & He2).
  exists b, s2. split; [by step_M Hrun|]. split; [by eapply steady_trans|].
  intros n k' Hk. by rewrite He2, He1.
Qed.

Lemma touches_map_each {A B} key (xs : list A) (body : A → M N B) :
  (∀ x, touches key (body x)) → touches key (map_each xs body).
Proof.
  intros Hb. induction xs as [|x xs IH]; [apply touches_ret|].
  apply touches_bind; [apply Hb|]. intros y. apply touches_bind; [exact IH|]. intros ys. apply touches_ret.
Qed.

Lemma touches_only_at {A} n key (m : M N A) :
  (∀ s, replica_wf s → ∃ a s', m s = (Ok a, s') ∧ only_at info n key s s') → touches key m.
Proof.
  intros Hm s Hs. destruct (Hm s Hs) as (a & s' & Hrun & Hat). exists a, s'. split; [done|]. split.
  - eapply steady_only_at; [by apply steady_refl|done].
  - intros n' k' Hk. apply (oa_entry _ _ _ _ _ Hat). congruence.
Qed.

Lemma touches_store {A} key (m : M lww_store A) :
  (∀ d, ∃ a g, m d = (Ok a, dict_alter g d key)) → touches key (on_store m).
Proof.
  intros Hm. apply (touches_only_at info). intros s Hs. destruct (Hm (n_store s)) as (a & g & Hrun).
  destruct (only_at_store info key (dict_alter g (n_store s) key) s) as [Hat _]; [apply dict_alter_wf, Hs|done| |].
  { intros k' Hk. rewrite dict_alter_get by apply Hs. by rewrite decide_False. }
  eexists a, _. split; [|exact Hat]. unfold on_store. by erewrite zoom_run by exact Hrun.
Qed.

Lemma touches_remote {A} n msg key f reply (k : option Message → M N A) :
  about msg key f reply → n ≠ info → (∀ o s, ∃ a, k o s = (Ok a, s)) →
  touches key (resp ← remote_execute n msg; k resp).
Proof.
  intros Hab Hne Hk. apply (touches_only_at n). intros s Hs.
  destruct (remote_about info n msg key f reply s Hab Hne Hs) as (o & s' & cs & Hrun & Hat & _).
  destruct (Hk o s') as [a Ha]. exists a, s'. split; [|done]. by step_M Hrun.
Qed.

(** *** The handles *)

Lemma fetch_touches c key n : touches key (fetch key (make_handle info c n)).
Proof.
  unfold fetch. rewrite handle_get_op. unfold replica_op. destruct (decide (n = info)) as [->|Hne].
  - intros s Hs. destruct (touches_store key (lww_get_versioned c key)) with (s := s) as (a & s' & Hrun & Hrest); [|done|].
    { intros d. rewrite lww_get_versioned_run. by eexists _, _. }
    exists a, s'. split; [|done]. unfold try_except. by rewrite Hrun.
  - apply (touches_only_at n). intros s Hs.
    destruct (remote_about info n _ key _ _ s (get_about key) Hne Hs) as (o & s' & cs & Hrun & Hat & _).
    exists (match decode_get o with Ok r => r | Raise _ => None end), s'. split; [|done].
    unfold try_except. step_M Hrun. unfold lift_result. by destruct (decode_get o).
Qed.

Lemma set_touches c key v ttl ts n : touches key (h_set (make_handle info c n) key v ttl ts).
Proof.
  rewrite handle_set_op. unfold replica_op. destruct (decide (n = info)) as [->|Hne].
  - apply touches_store. intros d. eexists _, _. apply (lww_set_run c key v ttl (Some ts)).
  - eapply touches_remote; [apply set_about|done|]. intros o s. by eexists.
Qed.

Lemma delete_touches c key ts n : touches key (h_delete (make_handle info c n) key ts).
Proof.
  rewrite handle_delete_op. unfold replica_op. destruct (decide (n = info)) as [->|Hne].
  - apply touches_store. intros d. eexists _, _. apply (lww_delete_run c key (Some ts)).
  - eapply touches_remote; [apply delete_about|done|]. intros o s. by eexists.
Qed.

(** *** The calls *)

Lemma by_state {A} key (m : N → M N A) : (∀ s, touches key (m s)) → touches key (s ← get_state; m s).
Proof. intros Hm s Hs. exact (Hm s s Hs). Qed.

Lemma node_get_touches c key : touches key (node_get info replication lww_read_resolve c key).
Proof.
  apply by_state. intros s0. destruct (replicas replication key s0) as [|n ns].
  - apply touches_store. intros d. rewrite lww_get_run. by eexists _, _.
  - unfold lww_read_resolve. apply touches_bind; [|intros rs; apply touches_ret].
    unfold _make_handles. intros s Hs. rewrite map_each_fmap. revert s Hs. apply touches_map_each.
    intros x. apply fetch_touches.
Qed.

Lemma node_set_touches c key v ttl : touches key (node_set info replication c key v ttl).
Proof.
  apply by_state. intros s0. destruct (replicas replication key s0) as [|n ns].
  - apply touches_bind; [|intros b; apply touches_ret]. apply touches_store. intros d.
    eexists _, _. apply (lww_set_run c key v ttl (Some (time_ns c))).
  - apply touches_bind; [|intros rs; apply touches_ret].
    unfold _make_handles. intros s Hs. rewrite map_each_fmap. revert s Hs. apply touches_map_each.
    intros x. apply set_touches.
Qed.

Lemma node_delete_touches c key : touches key (node_delete info replication c key).
Proof.
  apply by_state. intros s0. destruct (replicas replication key s0) as [|n ns].
  - apply touches_bind; [|intros b; apply touches_ret]. apply touches_store. intros d.
    eexists _, _. apply (lww_delete_run c key (Some (time_ns c))).
  - apply touches_bind; [|intros rs; apply touches_ret].
    unfold _make_handles. intros s Hs. rewrite map_each_fmap. revert s Hs. apply touches_map_each.
    intros x. apply delete_touches.
Qed.
End frame.
