(* ===== verification/Fleet.v ===== *)
(** * A cluster and its clients

    All nodes of a cluster, threaded and asyncio ones together, and clients that call
    any of them one after the other.  As long as every node answers and all have the
    same members, the cluster is one last-write-wins store, whichever node a call
    goes through. *)
From S2P Require Import Prelude Async PyBase PyDict Types Store LwwStore Ring Dispatcher.
From S2P Require Import PoolOps Consistency Discovery Gossip Node Replicas Cluster ClusterSpec ClusterTtl ClusterFrame.

Section fleet.
Context (replication : Z).
Abbreviation fleet := (gmap NodeInfo (node_state ring script)).
Implicit Types (fl : fleet) (a n : NodeInfo) (s : node_state ring world).

(** ** Calls *)

Inductive client_op :=
  | CGet (key : string)
  | CSet (key : string) (value : pyval) (ttl : option Float.t)
  | CDelete (key : string).

Definition op_key (op : client_op) : string :=
  match op with CGet key | CSet key _ _ | CDelete key => key end.

(** A call through the node [c_via], asyncio with the order in which its requests take
    effect or threaded, [c_clock] being what each node's clock shows meanwhile. *)
Record client_call := mkCall {
  c_via : NodeInfo;
  c_order : option (list nat);
  c_clock : NodeInfo → clock;
  c_op : client_op;
}.

(** What a call returns. *)
Inductive reply := RValue (v : pyval) | RDone (b : bool).

(** The cluster as the node [a] sees it: its own state, and the other nodes that listen
    behind the network. *)
Definition view_from a (clk : NodeInfo → clock) fl (nd : node_state ring script) : node_state ring world :=
  mkNode (mkGossip (g_ring (n_gossip nd)) (map_imap (λ n nd', if n_listening nd' then Some (mkPeer nd' [] (clk n)) else None) (delete a fl))
      (g_disc (n_gossip nd)))
    (n_store nd) (n_listening nd) (n_stopped nd).

(** The cluster after the call. *)
Definition back_to a (nd : node_state ring script) s fl : fleet :=
  <[a := mkNode (mkGossip (g_ring (n_gossip s)) (g_pool (n_gossip nd)) (g_disc (n_gossip s)))
          (n_store s) (n_listening s) (n_stopped s)]> ((pr_node <$> g_pool (n_gossip s)) ∪ fl).

Definition do_op `{pool : !PoolOps world} a (order : option (list nat)) (c : clock) (op : client_op) : M (node_state ring world) reply :=
  match order, op with
  | None, CGet key => v ← node_get a replication lww_read_resolve c key; mret (RValue v)
  | None, CSet key value ttl => b ← node_set a replication c key value ttl; mret (RDone b)
  | None, CDelete key => b ← node_delete a replication c key; mret (RDone b)
  | Some o, CGet key => v ← node_get_async a replication (async_lww_read_resolve o) c key; mret (RValue v)
  | Some o, CSet key value ttl => b ← node_set_async a replication o c key value ttl; mret (RDone b)
  | Some o, CDelete key => b ← node_delete_async a replication o c key; mret (RDone b)
  end.

(** What the node [a] does, as a step of the cluster.  Where there is no such node there is
    nobody to do it. *)
Definition at_node {A} a (clk : NodeInfo → clock) (m : M (node_state ring world) A) : M fleet A := λ fl,
  match fl !! a with
  | None => (Raise OSError, fl)
  | Some nd => let '(r, s) := m (view_from a clk fl nd) in (r, back_to a nd s fl)
  end.

Definition do_call (cl : client_call) : M fleet reply :=
  at_node (c_via cl) (c_clock cl) (do_op (c_via cl) (c_order cl) (c_clock cl (c_via cl)) (c_op cl)).

Definition do_calls (calls : list client_call) : M fleet (list reply) := map_each calls do_call.

(** ** One store *)

Definition as_store_op (op : client_op) : store_op :=
  match op with
  | CGet key => OpGet key
  | CSet key value ttl => OpSet key value ttl None
  | CDelete key => OpDelete key None
  end.

(** The store makes the call at the clock of the node it goes through. *)
Definition store_step (m : gmap string entry) (cl : client_call) : spec_res * gmap string entry :=
  Spec.step (c_clock cl (c_via cl)) (as_store_op (c_op cl)) m.

Fixpoint store_run (calls : list client_call) (m : gmap string entry) : list spec_res * gmap string entry :=
  match calls with
  | [] => ([], m)
  | cl :: calls =>
      let '(r, m1) := store_step m cl in
      let '(rs, m2) := store_run calls m1 in (r :: rs, m2)
  end.

(** A [get] returns a value, the others a boolean. *)
Definition fits (op : client_op) (r : reply) : Prop :=
  match op, r with
  | CGet _, RValue _ | CSet _ _ _, RDone _ | CDelete _, RDone _ => True
  | _, _ => False
  end.

(** The cluster's answer is the store's; a write is reported as done if the store
    accepts it, and a delete if the key was alive. *)
Definition answers (x : spec_res) (r : reply) : Prop :=
  match r with
  | RValue v => x = SRes (RVal v)
  | RDone b => x = SRes (RBool true) → b = true
  end.

Definition register fl n key : option entry := nd ← fl !! n; dict_get (n_store nd) key.

(** All nodes have the members [ns], all of which are listening, no two of them tie for a key
    of [keys], and the replicas of these keys hold what [m] does. *)
Record is_store (ns : list NodeInfo) (keys : gset string) fl (m : gmap string entry) : Prop := {
  is_wf : map_Forall (λ _ nd, dict_wf (n_store nd)) fl;
  is_ring : map_Forall (λ _ nd, ring_wf (g_ring (n_gossip nd)) ∧ g_ring (n_gossip nd) ≡ₚ ns) fl;
  is_there n : n ∈ ns → ∃ nd, fl !! n = Some nd ∧ n_listening nd = true;
  is_untied key : key ∈ keys → no_ties key ns;
  is_placed key : key ∈ keys → ring_get_nodes ns key replication ≠ [];
  is_agreed key n : key ∈ keys → n ∈ ring_get_nodes ns key replication → register fl n key = m !! key;
  is_durable key e : key ∈ keys → m !! key = Some e → durable e;
}.

(** ** The view of a node *)

Lemma lookup_peers a clk fl nd n :
  g_pool (n_gossip (view_from a clk fl nd)) !! n =
    if decide (n = a) then None else
    nd' ← fl !! n; if n_listening nd' then Some (mkPeer nd' [] (clk n)) else None.
Proof.
  cbn [view_from n_gossip g_pool]. rewrite map_lookup_imap.
  destruct (decide (n = a)) as [->|Hne]; [by rewrite lookup_delete_eq|]. by rewrite lookup_delete_ne.
Qed.

(** The register at a node that is listening, or that makes the call. *)
Lemma view_register a clk fl nd n nd' key :
  fl !! a = Some nd → fl !! n = Some nd' → n_listening nd' = true →
  entry_at a n key (view_from a clk fl nd) = register fl n key.
Proof.
  intros Ha Hn Hl. unfold entry_at, register. rewrite lookup_peers.
  destruct (decide (n = a)) as [->|Hne]; [by rewrite Ha|]. rewrite Hn. simpl. by rewrite Hl.
Qed.

Lemma view_reachable a clk fl nd n nd' :
  fl !! n = Some nd' → n_listening nd' = true → reachable a n (view_from a clk fl nd).
Proof.
  intros Hn Hl. destruct (decide (n = a)) as [->|Hne]; [by left|]. right. eexists.
  rewrite lookup_peers, decide_False, Hn by done. simpl. by rewrite Hl.
Qed.

Lemma view_wf a clk fl nd :
  map_Forall (λ _ nd, dict_wf (n_store nd)) fl → fl !! a = Some nd → replica_wf (view_from a clk fl nd).
Proof.
  intros Hw Ha. split; [|by apply (Hw a)]. intros n pr. rewrite lookup_peers. case_decide; [done|].
  destruct (fl !! n) as [nd'|] eqn:Hn; [|done]. simpl. destruct (n_listening nd'); [|done].
  intros [= <-]. by apply (Hw n).
Qed.

(** A peer keeps everything but its store. *)
Lemma view_peer a clk fl nd s n pr :
  steady a (view_from a clk fl nd) s → g_pool (n_gossip s) !! n = Some pr →
  n ≠ a ∧ ∃ nd', fl !! n = Some nd' ∧ n_listening nd' = true ∧ node_aside (pr_node pr) = node_aside nd'.
Proof.
  intros Hs Hn. pose proof (st_aside _ _ _ Hs n) as Ha. unfold peer_aside in Ha. rewrite Hn, lookup_peers in Ha.
  destruct (decide (n = a)); [done|]. split; [done|]. destruct (fl !! n) as [nd'|]; [|done]. simpl in Ha.
  destruct (n_listening nd') eqn:Hl; [|done]. injection Ha as _ Ha. exists nd'. split; [done|]. split; [done|].
  unfold node_aside. simpl in Ha. congruence.
Qed.

Lemma view_peer_there a clk fl nd s n nd' :
  steady a (view_from a clk fl nd) s → n ≠ a → fl !! n = Some nd' → n_listening nd' = true →
  ∃ pr, g_pool (n_gossip s) !! n = Some pr ∧ node_aside (pr_node pr) = node_aside nd'.
Proof.
  intros Hs Hne Hn Hl. pose proof (st_aside _ _ _ Hs n) as Ha. unfold peer_aside in Ha.
  rewrite lookup_peers, decide_False, Hn in Ha by done. simpl in Ha. rewrite Hl in Ha.
  destruct (g_pool (n_gossip s) !! n) as [pr|]; [|done]. injection Ha as _ Ha. exists pr. split; [done|].
  unfold node_aside. simpl in Ha. congruence.
Qed.

Lemma back_self a nd s fl :
  back_to a nd s fl !! a = Some (mkNode (mkGossip (g_ring (n_gossip s)) (g_pool (n_gossip nd)) (g_disc (n_gossip s)))
    (n_store s) (n_listening s) (n_stopped s)).
Proof. apply lookup_insert_eq. Qed.

Lemma back_peer a nd s fl n pr :
  n ≠ a → g_pool (n_gossip s) !! n = Some pr → back_to a nd s fl !! n = Some (pr_node pr).
Proof.
  intros Hne Hn. unfold back_to. rewrite lookup_insert_ne by done. apply lookup_union_Some_l.
  by rewrite lookup_fmap, Hn.
Qed.

Lemma back_other a nd s fl n :
  n ≠ a → g_pool (n_gossip s) !! n = None → back_to a nd s fl !! n = fl !! n.
Proof.
  intros Hne Hn. unfold back_to. rewrite lookup_insert_ne by done. apply lookup_union_r.
  by rewrite lookup_fmap, Hn.
Qed.

Lemma view_holders ns keys fl m a clk nd key :
  is_store ns keys fl m → fl !! a = Some nd → key ∈ keys →
  replicas replication key (view_from a clk fl nd) = ring_get_nodes ns key replication ∧
  holders a replication key (view_from a clk fl nd) = ring_get_nodes ns key replication.
Proof.
  intros [] Ha Hk. destruct (is_ring0 a nd Ha) as [_ Hperm].
  assert (replicas replication key (view_from a clk fl nd) = ring_get_nodes ns key replication) as Heq.
  { symmetry. apply ring_get_nodes_agree; [by symmetry|by apply is_untied0]. }
  split; [done|]. unfold holders. rewrite Heq. specialize (is_placed0 key Hk).
  by destruct (ring_get_nodes ns key replication).
Qed.

(** Back from a call that left the replicas of the keys with what [m'] holds. *)
Lemma back_is_store ns keys fl m m' a clk nd s' :
  is_store ns keys fl m → fl !! a = Some nd → steady a (view_from a clk fl nd) s' →
  (∀ key n, key ∈ keys → n ∈ ring_get_nodes ns key replication → entry_at a n key s' = m' !! key) →
  (∀ key e, key ∈ keys → m' !! key = Some e → durable e) →
  is_store ns keys (back_to a nd s' fl) m'.
Proof.
  intros [Hw Hr Hth Hun Hpl _ _] Ha Hs Hent Hdur. pose proof Hs as [Hws Hring _ _ Hcaller].
  assert (n_listening s' = n_listening nd) as Hlis by exact (f_equal (λ x, x.1.2) Hcaller).
  assert (∀ n nd', back_to a nd s' fl !! n = Some nd' → n ≠ a →
    (∃ pr, g_pool (n_gossip s') !! n = Some pr ∧ nd' = pr_node pr) ∨ fl !! n = Some nd') as Hcase.
  { intros n nd' Hn Hne. destruct (g_pool (n_gossip s') !! n) as [pr|] eqn:Hpr.
    - left. exists pr. rewrite (back_peer _ _ _ _ _ _ Hne Hpr) in Hn. split; [done|congruence].
    - right. by rewrite back_other in Hn. }
  constructor; [| | |done|done| |done].
  - intros n nd' Hn. destruct (decide (n = a)) as [->|Hne].
    + rewrite back_self in Hn. injection Hn as <-. apply Hws.
    + destruct (Hcase n nd' Hn Hne) as [(pr & Hpr & ->)|Hn']; [by apply (proj1 Hws n)|by apply (Hw n)].
  - intros n nd' Hn. destruct (decide (n = a)) as [->|Hne].
    + rewrite back_self in Hn. injection Hn as <-. cbn [n_gossip g_ring]. rewrite Hring. by apply (Hr a).
    + destruct (Hcase n nd' Hn Hne) as [(pr & Hpr & ->)|Hn']; [|by apply (Hr n)].
      destruct (view_peer _ _ _ _ _ _ _ Hs Hpr) as (_ & nd0 & Hnd0 & _ & Hasd). injection Hasd as -> _ _.
      by apply (Hr n).
  - intros n Hn. destruct (Hth n Hn) as (nd0 & Hnd0 & Hl0). destruct (decide (n = a)) as [->|Hne].
    + rewrite back_self. eexists. split; [done|]. simpl. rewrite Hlis. congruence.
    + destruct (view_peer_there _ _ _ _ _ _ _ Hs Hne Hnd0 Hl0) as (pr & Hpr & Hasd).
      rewrite (back_peer _ _ _ _ _ _ Hne Hpr). eexists. split; [done|]. injection Hasd as _ -> _. done.
  - intros key n Hk Hn. rewrite <- (Hent key n Hk Hn). unfold register, entry_at.
    destruct (decide (n = a)) as [->|Hne]; [by rewrite back_self|].
    destruct (Hth n) as (nd0 & Hnd0 & Hl0); [by eapply ring_get_nodes_sub|].
    destruct (view_peer_there _ _ _ _ _ _ _ Hs Hne Hnd0 Hl0) as (pr & Hpr & Hasd).
    by rewrite (back_peer _ _ _ _ _ _ Hne Hpr), Hpr.
Qed.

(** ** One call *)

(** The call writes nothing that expires. *)
Definition lasting (op : client_op) : Prop := match op with CSet _ _ (Some _) => False | _ => True end.

Definition call_ok (ns : list NodeInfo) (keys : gset string) (cl : client_call) : Prop :=
  c_via cl ∈ ns ∧ (op_key (c_op cl) ∈ keys → lasting (c_op cl) ∧ (0 < time_ns (c_clock cl (c_via cl)))%Z) ∧
  match c_order cl with
  | None => True
  | Some order => order ≡ₚ seq 0 (length (ring_get_nodes ns (op_key (c_op cl)) replication))
  end.

(** Asyncio calls do what threaded ones do. *)
Lemma do_op_async a order c op s :
  replica_wf s → r_wf (g_ring (n_gossip s)) →
  match order with
  | None => True
  | Some o => o ≡ₚ seq 0 (length (replicas replication (op_key op) s))
  end → do_op a order c op s = do_op a None c op s.
Proof.
  intros Hw Hr Ho. destruct order as [o|]; [|done].
  destruct (async_calls_run a replication c (op_key op) (match op with CSet _ v _ => v | _ => VNone end)
    (match op with CSet _ _ ttl => ttl | _ => None end) o s
    Hw Hr Ho) as (Hg & Hset & Hd). unfold do_op, mbind, M_bind.
  destruct op as [key|key v ttl|key]; cbn [op_key] in *; by rewrite ?Hg, ?Hset, ?Hd.
Qed.

(** What a call does to the registers of its key. *)
Definition op_effect (c : clock) (op : client_op) (o : option entry) : option entry :=
  match op with
  | CGet _ => (Spec.read (monotonic c) o).2
  | CSet _ v ttl => (Spec.write (mkEntry (Val v) (expires_at c ttl) (time_ns c)) o).2
  | CDelete _ => (Spec.write (mkEntry TOMBSTONE None (time_ns c)) o).2
  end.

Lemma op_effect_durable c op o :
  lasting op → (0 < time_ns c)%Z → (∀ e, o = Some e → durable e) → ∀ e, op_effect c op o = Some e → durable e.
Proof.
  intros Hl Hpos Ho e. destruct op as [key|key v [ttl|]|key]; [|done| |]; cbn [op_effect].
  - destruct o as [e0|]; [|done]. rewrite read_durable by by apply Ho. simpl. apply Ho.
  - destruct o as [e0|]; simpl; [case_bool_decide|]; simpl; [apply Ho|by intros [= <-]..].
  - destruct o as [e0|]; simpl; [case_bool_decide|]; simpl; [apply Ho|by intros [= <-]..].
Qed.

Lemma op_effect_read_any c c' key o :
  (∀ e, o = Some e → durable e) → (Spec.read (monotonic c') o).2 = op_effect c (CGet key) o.
Proof. intros Ho. destruct o as [e|]; [|done]. cbn [op_effect]. by rewrite !read_durable by by apply Ho. Qed.

Lemma store_step_effect m cl :
  (store_step m cl).2 = partial_alter (op_effect (c_clock cl (c_via cl)) (c_op cl)) (op_key (c_op cl)) m.
Proof. unfold store_step. by destruct (c_op cl). Qed.

Lemma lookup_store_step m cl k :
  (store_step m cl).2 !! k = if decide (k = op_key (c_op cl))
    then op_effect (c_clock cl (c_via cl)) (c_op cl) (m !! op_key (c_op cl)) else m !! k.
Proof.
  rewrite store_step_effect. case_decide as Hk; [subst k; apply lookup_partial_alter_eq|by apply lookup_partial_alter_ne].
Qed.

(** One operation of a node, all replicas of its key being there with the same register. *)
Lemma do_op_run a c op s o :
  replica_wf s → r_wf (g_ring (n_gossip s)) → healthy a replication (op_key op) s →
  (∀ n, n ∈ holders a replication (op_key op) s → entry_at a n (op_key op) s = o) →
  (∀ e, o = Some e → durable e) → lasting op →
  ∃ r s', do_op a None c op s = (Ok r, s') ∧ steady a s s' ∧
    (∀ n, n ∈ holders a replication (op_key op) s → entry_at a n (op_key op) s' = op_effect c op o) ∧
    (∀ n k', k' ≠ op_key op ∨ n ∉ holders a replication (op_key op) s → entry_at a n k' s' = entry_at a n k' s) ∧
    answers (Spec.step c (as_store_op op) (partial_alter (λ _, o) (op_key op) ∅)).1 r.
Proof.
  intros Hw Hr Hh Hent Hdur Hl.
  assert (all_stamped a replication (op_key op) s) as Hst.
  { intros n Hn e. rewrite Hent by done. intros He. by apply Hdur in He as [_ ?]. }
  destruct (holders_some a replication (op_key op) s) as [n0 Hn0].
  destruct op as [key|key v [ttl|]|key]; [|done| |]; cbn [op_key as_store_op] in *; unfold answers; cbn [Spec.step fst];
    rewrite lookup_partial_alter_eq.
  - destruct (get_picks a replication c key s Hw Hr Hh Hst) as (s' & Hrun & Hs' & He & Ho).
    eexists _, s'. split; [unfold do_op; by step_M Hrun|]. split; [done|]. split; [|split; [done|]].
    + intros n Hn. rewrite He, Hent by done. by apply op_effect_read_any.
    + do 2 f_equal. symmetry.
      assert (∀ n, n ∈ holders a replication key s → reads a c key s n = (Spec.read (monotonic c) o).1) as Hrd.
      { intros n Hn. unfold reads. rewrite Hent by done. destruct o as [e|]; [|done].
        by rewrite !read_durable by by apply Hdur. }
      destruct (Spec.read (monotonic c) o).1 as [[[v ts] tomb]|] eqn:Hro.
      * transitivity (if tomb then VNone else v); [|by destruct tomb].
        apply (picks_newest _ _ n0 v ts tomb); [done|by apply Hrd| |].
        { apply read_stamp in Hro; [lia|]. intros e He'. by apply Hdur. }
        intros n' v' ts' tomb' Hn' Heq. right. rewrite Hrd in Heq by done. congruence.
      * by apply picks_nothing.
  - destruct (node_set_all a replication c key v None s Hw Hr Hh Hst) as (b & s' & Hrun & Hs' & He & Ho & Hb).
    eexists _, s'. split; [unfold do_op; by step_M Hrun|]. split; [done|]. split; [|split; [done|]].
    + intros n Hn. by rewrite He, Hent by done.
    + intros [= Hacc]. apply Hb. exists n0. split; [done|]. unfold write_result. simpl.
      case_decide; [|done]. by rewrite Hent.
  - destruct (node_delete_all a replication c key s Hw Hr Hh Hst) as (b & s' & Hrun & Hs' & He & Ho & Hb).
    eexists _, s'. split; [unfold do_op; by step_M Hrun|]. split; [done|]. split; [|split; [done|]].
    + intros n Hn. by rewrite He, Hent by done.
    + intros [= Hacc]. apply Hb. exists n0. split; [done|]. simpl. by rewrite Hent.
Qed.

(** Any operation, on any key. *)
Lemma do_op_frame a c op s :
  replica_wf s → ∃ r s', do_op a None c op s = (Ok r, s') ∧ steady a s s' ∧
    ∀ n k', k' ≠ op_key op → entry_at a n k' s' = entry_at a n k' s.
Proof.
  intros Hs. destruct op as [key|key v ttl|key]; cbn [op_key]; unfold do_op; revert s Hs;
    apply touches_bind; try (intros ?; apply touches_ret).
  - apply node_get_touches.
  - apply node_set_touches.
  - apply node_delete_touches.
Qed.

(** A call on one of the keys. *)
Lemma do_call_key ns keys fl m cl :
  is_store ns keys fl m → call_ok ns keys cl → op_key (c_op cl) ∈ keys →
  ∃ r fl', do_call cl fl = (Ok r, fl') ∧ is_store ns keys fl' (store_step m cl).2 ∧
    answers (store_step m cl).1 r.
Proof.
  intros His (Hvia & Hok & Hord) Hkey. destruct (Hok Hkey) as [Hlast Hpos].
  pose proof His as [Hw Hr Hth _ _ Hag Hdur]. set (a := c_via cl) in *.
  destruct (Hth a Hvia) as (nd & Ha & _). set (s := view_from a (c_clock cl) fl nd).
  assert (replica_wf s) as Hws by by apply view_wf.
  assert (r_wf (g_ring (n_gossip s))) as Hrs by by apply (Hr a).
  destruct (view_holders ns keys fl m a (c_clock cl) nd (op_key (c_op cl)) His Ha Hkey) as [Hrep Hhol].
  fold s in Hrep, Hhol.
  assert (∀ n key, n ∈ ring_get_nodes ns key replication → ∃ nd', fl !! n = Some nd' ∧ n_listening nd' = true) as Hmem.
  { intros n key Hn. apply Hth. by eapply ring_get_nodes_sub. }
  assert (healthy a replication (op_key (c_op cl)) s) as Hh.
  { intros n Hn. rewrite Hhol in Hn. destruct (Hmem n _ Hn) as (nd' & Hn' & Hl). by eapply view_reachable. }
  assert (∀ n, n ∈ holders a replication (op_key (c_op cl)) s → entry_at a n (op_key (c_op cl)) s = m !! op_key (c_op cl)) as Hent.
  { intros n Hn. rewrite Hhol in Hn. destruct (Hmem n _ Hn) as (nd' & Hn' & Hl). unfold s.
    erewrite view_register by done. by apply Hag. }
  destruct (do_op_run a (c_clock cl a) (c_op cl) s (m !! op_key (c_op cl)) Hws Hrs Hh Hent) as (r & s' & Hrun & Hs' & He & Ho & Hans);
    [by intros e; apply Hdur|done|].
  exists r, (back_to a nd s' fl). split; [|split].
  - unfold do_call, at_node. fold a. rewrite Ha. fold s. rewrite do_op_async by (done || by rewrite Hrep). by rewrite Hrun.
  - eapply back_is_store; try done.
    + intros k n Hk Hn. rewrite lookup_store_step. fold a. case_decide as Hkk; [subst k; apply He; by rewrite Hhol|].
      destruct (Hmem n _ Hn) as (nd' & Hn' & Hl). rewrite Ho by (by left). unfold s.
      erewrite view_register by done. by apply Hag.
    + intros k e Hk. rewrite lookup_store_step. fold a. case_decide; [|by apply Hdur]. apply op_effect_durable; [done|done|].
      intros e'. by apply Hdur.
  - revert Hans. unfold store_step. fold a.
    destruct (c_op cl); cbn [as_store_op Spec.step fst op_key]; by rewrite lookup_partial_alter_eq.
Qed.

(** A call on another key. *)
Lemma do_call_other ns keys fl m cl :
  is_store ns keys fl m → call_ok ns keys cl → op_key (c_op cl) ∉ keys →
  ∃ r fl', do_call cl fl = (Ok r, fl') ∧ is_store ns keys fl' (store_step m cl).2.
Proof.
  intros His (Hvia & _ & Hord) Hkey. pose proof His as [Hw Hr Hth _ _ Hag Hdur]. set (a := c_via cl) in *.
  destruct (Hth a Hvia) as (nd & Ha & _). set (s := view_from a (c_clock cl) fl nd).
  assert (replica_wf s) as Hws by by apply view_wf.
  destruct (Hr a nd Ha) as [Hrs Hperm].
  destruct (do_op_frame a (c_clock cl a) (c_op cl) s Hws) as (r & s' & Hrun & Hs' & Ho).
  exists r, (back_to a nd s' fl). split.
  - unfold do_call, at_node. fold a. rewrite Ha. fold s. rewrite do_op_async; [by rewrite Hrun|done|exact Hrs|].
    assert (length (replicas replication (op_key (c_op cl)) s) = length (ring_get_nodes ns (op_key (c_op cl)) replication)) as Hlen.
    { apply ring_get_nodes_size. by rewrite <- Hperm. }
    destruct (c_order cl); [by rewrite Hlen|done].
  - assert (∀ k, k ∈ keys → (store_step m cl).2 !! k = m !! k) as Hm.
    { intros k Hk. rewrite lookup_store_step. case_decide; [by subst k|done]. }
    eapply back_is_store; try done.
    + intros k n Hk Hn. rewrite Hm by done.
      destruct (Hth n) as (nd' & Hn' & Hl); [by eapply ring_get_nodes_sub|].
      rewrite Ho by (by intros ->). unfold s. erewrite view_register by done. by apply Hag.
    + intros k e Hk. rewrite Hm by done. by apply Hdur.
Qed.

Lemma bind_ret_inv {S A B} (m : M S A) (f : A → B) (s : S) (b : B) (s' : S) :
  (m ≫= λ x, mret (f x)) s = (Ok b, s') → ∃ x, b = f x.
Proof. unfold mbind, M_bind. destruct (m s) as [[x|e] s1]; [|done]. intros [= <- _]. by exists x. Qed.

Lemma do_call_fits cl fl r fl' : do_call cl fl = (Ok r, fl') → fits (c_op cl) r.
Proof.
  unfold do_call, at_node. destruct (fl !! c_via cl) as [nd|]; [|done].
  destruct (do_op _ _ _ _ _) as [r' s] eqn:Hrun. intros [= -> _]. revert Hrun. unfold do_op.
  destruct (c_op cl), (c_order cl); by intros [v ->]%bind_ret_inv.
Qed.

Lemma do_call_run ns keys fl m cl :
  is_store ns keys fl m → call_ok ns keys cl →
  ∃ r fl', do_call cl fl = (Ok r, fl') ∧ is_store ns keys fl' (store_step m cl).2 ∧
    fits (c_op cl) r ∧ (op_key (c_op cl) ∈ keys → answers (store_step m cl).1 r).
Proof.
  intros His Hok. destruct (decide (op_key (c_op cl) ∈ keys)) as [Hk|Hk].
  - destruct (do_call_key ns keys fl m cl His Hok Hk) as (r & fl' & Hrun & ? & ?). exists r, fl'.
    split_and!; [done|done|by eapply do_call_fits|done].
  - destruct (do_call_other ns keys fl m cl His Hok Hk) as (r & fl' & Hrun & ?). exists r, fl'.
    split_and!; [done|done|by eapply do_call_fits|done].
Qed.

(** The replies are of the right kind, and those to the calls on [keys] the answers of the store. *)
Definition answered (keys : gset string) (calls : list client_call) (m : gmap string entry) (rs : list reply) : Prop :=
  Forall2 (λ cx r, fits (c_op cx.1) r ∧ (op_key (c_op cx.1) ∈ keys → answers cx.2 r)) (zip calls (store_run calls m).1) rs.

Lemma do_calls_run ns keys calls fl m :
  is_store ns keys fl m → Forall (call_ok ns keys) calls →
  ∃ rs fl', do_calls calls fl = (Ok rs, fl') ∧ is_store ns keys fl' (store_run calls m).2 ∧
    answered keys calls m rs.
Proof.
  intros His Hok. revert fl m His. induction Hok as [|cl calls Hcl Hok IH]; intros fl m His.
  { exists [], fl. split; [done|]. split; [done|]. apply Forall2_nil_2. }
  destruct (do_call_run ns keys fl m cl His Hcl) as (r & fl1 & Hrun & His1 & Hr).
  destruct (IH fl1 _ His1) as (rs & fl2 & Hrun2 & His2 & Hrs).
  exists (r :: rs), fl2. unfold answered in *. cbn [store_run].
  destruct (store_step m cl) as [x m1], (store_run calls m1) as [xs m2] eqn:Hsr; simpl in *.
  rewrite Hsr in *. split; [|split; [done|by apply Forall2_cons_2]].
  unfold do_calls in *. cbn [map_each]. step_M Hrun. by step_M Hrun2.
Qed.

(** The first reply, and the others. *)
Lemma answered_cons keys cl calls m rs :
  answered keys (cl :: calls) m rs → ∃ r rs', rs = r :: rs' ∧ fits (c_op cl) r ∧
    (op_key (c_op cl) ∈ keys → answers (store_step m cl).1 r) ∧ answered keys calls (store_step m cl).2 rs'.
Proof.
  unfold answered. cbn [store_run]. destruct (store_step m cl) as [x m1], (store_run calls m1) as [xs m2] eqn:Hs.
  intros (r & rs' & [Hf Ha] & Hr & ->)%Forall2_cons_inv_l. exists r, rs'. split_and!; try done. cbn [snd]. by rewrite Hs.
Qed.

(** The reply to a [get] of one of the keys. *)
Lemma answered_get keys cl calls m rs key :
  c_op cl = CGet key → key ∈ keys → answered keys (cl :: calls) m rs →
  ∃ rs', rs = RValue (Spec.visible (Spec.read (monotonic (c_clock cl (c_via cl))) (m !! key)).1) :: rs' ∧
    answered keys calls (store_step m cl).2 rs'.
Proof.
  intros Hop Hk (r & rs' & -> & Hf & Ha & Hrs)%answered_cons. exists rs'. split; [|done]. f_equal.
  revert Hf Ha. unfold store_step. rewrite Hop. destruct r as [v|b]; [|done]. intros _ Ha.
  specialize (Ha Hk). simpl in Ha. by injection Ha as <-.
Qed.

(** C2. A cluster is one store to all its clients.  When every node is there, all have
    the same members, of which no two tie for the keys in question, and the replicas
    of these keys agree with a store [m], then any sequence of calls of [get], [set]
    and [delete], each through any node, threaded or asyncio, at whatever
    its clock shows, and each asyncio call with its requests in any order, does to these keys
    what the same sequence does to the single last-write-wins store: every [get] returns
    what the store returns, accepted writes are reported as done, and the
    cluster stands for the store again.  The calls on these keys set nothing that expires;
    there may be any others among them, of any other keys, with a ttl or without. *)
Theorem clients_see_one_store ns keys calls fl m :
  is_store ns keys fl m → Forall (call_ok ns keys) calls →
  ∃ rs fl', do_calls calls fl = (Ok rs, fl') ∧ is_store ns keys fl' (store_run calls m).2 ∧
    answered keys calls m rs.
Proof. apply do_calls_run. Qed.
End fleet.

Section samples.
(** Three nodes, whose sets of members happen to be in different orders. *)
Definition sample_fleet : gmap NodeInfo (node_state ring script) :=
  list_to_map [
    (node1, mkNode (mkGossip [node1; node2; node3] [] (StaticDiscovery [node2; node3])) [] true false);
    (node2, mkNode (mkGossip [node3; node1; node2] [] (StaticDiscovery [node1; node3])) [] true false);
    (node3, mkNode (mkGossip [node2; node1; node3] [] (StaticDiscovery [node1; node2])) [] true false)].

Definition sample_keys : gset string := {["greeting"; "data"]}.

(** The clock of every node shows [t] nanoseconds since the epoch. *)
Definition wall (t : Z) : NodeInfo → clock := λ _, mkClock (monotonic sample_clock) t.

Definition sample_calls : list client_call :=
  [mkCall node1 (Some [1; 0]) (wall 10) (CSet "greeting" (VStr "hello world") None);
   mkCall node2 None (wall 11) (CGet "greeting");
   mkCall node1 (Some [0; 1]) (wall 12) (CSet "data" (VInt 60) None);
   mkCall node3 None (wall 13) (CGet "data");
   mkCall node2 None (wall 14) (CDelete "greeting");
   mkCall node3 (Some [1; 0]) (wall 15) (CSet "counter" (VInt 42) (Some (Float.of_Z 10)));
   mkCall node1 (Some [1; 0]) (wall 16) (CGet "greeting")].

Lemma sample_fleet_node n nd :
  sample_fleet !! n = Some nd → n_store nd = [] ∧ ring_wf (g_ring (n_gossip nd)) ∧
    g_ring (n_gossip nd) ≡ₚ sample_ring.
Proof.
  assert (map_Forall (λ _ nd, n_store nd = [] ∧ ring_wf (g_ring (n_gossip nd)) ∧
    g_ring (n_gossip nd) ≡ₚ sample_ring) sample_fleet) as Hall; [|apply (Hall n)].
  assert (∀ r, r ≡ₚ sample_ring → ring_wf r ∧ r ≡ₚ sample_ring) as Hr.
  { intros r Hr. split; [|done]. unfold ring_wf. rewrite Hr. apply sample_ring_wf. }
  repeat (apply map_Forall_insert_2; [split; [done|]; apply Hr; by apply (bool_decide_eq_true_1 (_ ≡ₚ _))|]).
  apply map_Forall_empty.
Qed.

Lemma sample_no_ties key : key ∈ sample_keys → no_ties key sample_ring.
Proof.
  unfold sample_keys. intros Hk. apply no_ties_nodup.
  assert (key = "greeting" ∨ key = "data") as [->| ->] by set_solver;
    apply (bool_decide_eq_true_1 (NoDup _)); vm_compute; reflexivity.
Qed.

Lemma sample_placed key : ring_get_nodes sample_ring key 2 ≠ [].
Proof.
  intros Hnil%(f_equal length). pose proof (ring_get_nodes_length sample_ring key 2) as Hlen.
  rewrite Hnil in Hlen. by specialize (Hlen ltac:(lia)).
Qed.

Lemma sample_fleet_store keys :
  (∀ key, key ∈ keys → no_ties key sample_ring) → is_store 2 sample_ring keys sample_fleet ∅.
Proof.
  intros Hun. constructor.
  - intros n nd Hn. destruct (sample_fleet_node n nd Hn) as [Hs _]. rewrite Hs. apply NoDup_nil_2.
  - intros n nd Hn. by apply (sample_fleet_node n nd).
  - intros n Hn. assert (n = node1 ∨ n = node2 ∨ n = node3) as Hn' by (unfold sample_ring in Hn; set_solver).
    destruct Hn' as [->|[->| ->]]; eexists; (split; [vm_compute; reflexivity|reflexivity]).
  - exact Hun.
  - intros key _. apply sample_placed.
  - intros key n _ _. rewrite lookup_empty. unfold register. destruct (sample_fleet !! n) as [nd|] eqn:Hn; [|done].
    simpl. by destruct (sample_fleet_node n nd Hn) as [-> _].
  - intros key e _. by rewrite lookup_empty.
Qed.

Lemma sample_calls_ok : Forall (call_ok 2 sample_ring sample_keys) sample_calls.
Proof.
  repeat (apply Forall_cons; split); [..|by apply Forall_nil]; (split; [by apply (bool_decide_eq_true_1 (_ ∈ _))|]; split;
    [first [by intros _ | by intros Hk%(bool_decide_eq_true_2 (_ ∈ _))]|]);
    first [exact I | by apply (bool_decide_eq_true_1 (_ ≡ₚ _)); vm_compute].
Qed.

Lemma clients_see_one_store_witness :
  ∃ rs fl', do_calls 2 sample_calls sample_fleet = (Ok rs, fl') ∧
    is_store 2 sample_ring sample_keys fl' (store_run sample_calls ∅).2 ∧
    answered sample_keys sample_calls ∅ rs.
Proof.
  apply (clients_see_one_store 2 sample_ring sample_keys sample_calls sample_fleet ∅).
  - apply sample_fleet_store, sample_no_ties.
  - apply sample_calls_ok.
Defined.

Example sample_replies :
  (do_calls 2 sample_calls sample_fleet).1 =
    Ok [RDone true; RValue (VStr "hello world"); RDone true; RValue (VInt 60); RDone true; RDone true; RValue VNone].
Proof. vm_compute. reflexivity. Qed.
End samples.
