(* ===== verification/Startup.v ===== *)
(** * Starting a cluster

    The nodes of a cluster, each a process of its own, are constructed with the addresses
    of the others and started one after the other; once all are up they are one empty
    store.  [Process] has nodes that share a process. *)
From S2P Require Import Prelude Async PyBase PyDict Types Store LwwStore Ring Dispatcher.
From S2P Require Import PoolOps Consistency Discovery Gossip GossipSpec Node NodeSpec Replicas Cluster ClusterSpec ClusterTtl Fleet.

#[local] Existing Instance scripted_pool.

Section startup.
Context `{Resolver}.
Abbreviation fleet := (gmap NodeInfo (node_state ring script)).
Implicit Types (fl : fleet) (a n : NodeInfo).

(** [node.start()], whose announcements take effect in the given order if it is an
    asyncio node. *)
Definition fleet_start (clk : NodeInfo → clock) (e : NodeInfo * option (list nat)) : M fleet unit :=
  let '(a, order) := e in
  at_node a clk
    match order with
    | None => node_start a (Ok tt) (announce_join a)
    | Some order => node_start_async a (Ok tt) order
    end.

(** [for node in nodes: node.start()]. *)
Definition start_all (clk : NodeInfo → clock) (es : list (NodeInfo * option (list nat))) : M fleet unit :=
  for_each es (fleet_start clk).

(** The nodes [up] have been started, of [ns], each of which discovers all others. *)
Record starting (ns up : list NodeInfo) fl : Prop := {
  sg_there n : is_Some (fl !! n) ↔ n ∈ ns;
  sg_ring n nd : fl !! n = Some nd → ring_wf (g_ring (n_gossip nd)) ∧ g_ring (n_gossip nd) ⊆ ns;
  sg_disc n nd : fl !! n = Some nd → discovery_wf (g_disc (n_gossip nd)) ∧
    ∃ peers, get_peers (g_disc (n_gossip nd)) = Ok peers ∧ ∀ x, x ∈ ns ↔ x = n ∨ x ∈ peers;
  sg_store n nd : fl !! n = Some nd → n_store nd = [];
  sg_up n nd : fl !! n = Some nd → n_listening nd = true → n ∈ up;
  sg_members n nd : fl !! n = Some nd → n ∈ up → n_listening nd = true ∧ g_ring (n_gossip nd) ≡ₚ ns;
}.

(** ** Announcing to nodes that know *)

(** A request that every peer answers without any change to its membership. *)
Lemma send_same msg n (g : gossip_state ring world) :
  is_gossip (m_type msg) = true →
  (∀ pr, g_pool g !! n = Some pr → pr_net pr = [] ∧
     ∃ reply, handle_message n msg (n_gossip (pr_node pr)) = (Ok reply, n_gossip (pr_node pr))) →
  ∃ o, send_to msg n g = (Ok o, g).
Proof.
  intros Hmsg Hk. destruct g as [r w d]. unfold send_to, on_pool, zoom. cbn [po_execute world_pool g_pool] in *.
  unfold world_execute. replace (mkNodeInfo (host n) (port n)) with n by by destruct n.
  destruct (w !! n) as [pr|] eqn:Hn; [|by eexists].
  destruct (Hk pr eq_refl) as (Hnet & reply & Hm). destruct pr as [[gn st li sp] net c].
  cbn [pr_net pr_node n_gossip] in *. subst net.
  unfold visit, handled, answer. rewrite Hmsg. cbn [pr_net pr_node pr_clock].
  unfold on_gossip. erewrite zoom_run by exact Hm. simpl. eexists. by rewrite insert_id.
Qed.

Lemma send_known a n (g : gossip_state ring world) :
  (∀ pr, g_pool g !! n = Some pr → pr_net pr = [] ∧ a ∈ g_ring (n_gossip (pr_node pr))) →
  ∃ o, send_to (join_message a) n g = (Ok o, g).
Proof.
  intros Hk. apply send_same; [done|]. intros pr Hpr. destruct (Hk pr Hpr) as [Hnet Ha]. split; [done|].
  exists (mkMessage OK (Some no_fields)). unfold handle_message, join_message. unfold_M. cbn [m_type].
  change (payload_item p_peer _) with (Ok (node_to_dict a)). cbv beta iota. rewrite node_from_to_dict.
  by rewrite decide_True.
Qed.

Section known.
Context a (g : gossip_state ring world).
Hypothesis known : ∀ n pr, g_pool g !! n = Some pr → pr_net pr = [] ∧ a ∈ g_ring (n_gossip (pr_node pr)).

Lemma join_known : announce_join a g = (Ok tt, g).
Proof.
  unfold announce_join, _broadcast, broadcast_by. unfold_M. cbn [get_state]. generalize (r_nodes (g_ring g)) as ns.
  induction ns as [|n ns IH]; [done|]. simpl. unfold_M. case_decide; [done|].
  destruct (send_known a n g) as [o Ho]; [apply known|]. by rewrite Ho.
Qed.

Lemma join_async_known order : announce_join_async a order g = (Ok tt, g).
Proof.
  unfold announce_join_async, _broadcast_async, broadcast_async_by. unfold_M. cbn [get_state].
  unfold gather. set (tasks := send_to _ <$> _).
  assert (∀ slots, (foldl (gather_step tasks) (g, slots) order).1 = g) as Hg.
  { induction order as [|i order IH]; intros slots; [done|]. simpl. unfold gather_step at 2.
    destruct (tasks !! i) as [t|] eqn:Ht; [|done].
    apply list_lookup_fmap_Some in Ht as (n & -> & _).
    destruct (send_known a n g) as [o Ho]; [apply known|]. cbn [fst]. rewrite Ho. apply IH. }
  specialize (Hg (replicate (length tasks) None)). destruct (foldl _ _ _) as [s slots]. by rewrite <- Hg.
Qed.
End known.

(** ** Starting one node *)

Lemma back_same a clk fl nd s :
  g_pool (n_gossip s) = g_pool (n_gossip (view_from a clk fl nd)) →
  back_to a nd s fl =
    <[a := mkNode (mkGossip (g_ring (n_gossip s)) (g_pool (n_gossip nd)) (g_disc (n_gossip s)))
      (n_store s) (n_listening s) (n_stopped s)]> fl.
Proof.
  intros Hp. unfold back_to. rewrite Hp. apply map_eq. intros n.
  destruct (decide (n = a)) as [->|Hne]; [by rewrite !lookup_insert_eq|]. rewrite !lookup_insert_ne by done.
  rewrite lookup_union, lookup_fmap, lookup_peers, decide_False by done.
  destruct (fl !! n) as [nd'|]; [|done]. simpl. by destruct (n_listening nd').
Qed.

Lemma view_node_wf ns up fl a clk nd :
  starting ns up fl → fl !! a = Some nd → node_wf (view_from a clk fl nd).
Proof.
  intros Hs Ha. pose proof (sg_ring _ _ _ Hs a nd Ha) as [Hr _]. destruct (sg_disc _ _ _ Hs a nd Ha) as [Hd _].
  destruct (view_wf a clk fl nd) as [Hw Hst]; [|done|by split].
  intros n nd' Hn. rewrite (sg_store _ _ _ Hs n nd' Hn). apply NoDup_nil_2.
Qed.

(** The peers that listen have [a] in their rings. *)
Lemma view_known ns up fl a clk nd n pr :
  starting ns up fl → a ∈ ns → g_pool (n_gossip (view_from a clk fl nd)) !! n = Some pr →
  pr_net pr = [] ∧ a ∈ g_ring (n_gossip (pr_node pr)).
Proof.
  intros Hs Ha. rewrite lookup_peers. case_decide; [done|].
  destruct (fl !! n) as [nd'|] eqn:Hn; [|done]. simpl.
  destruct (n_listening nd') eqn:Hl; [|done]. intros [= <-]. split; [done|]. simpl.
  destruct (sg_members _ _ _ Hs n nd' Hn) as [_ Hm]; [by apply (sg_up _ _ _ Hs n nd')|]. by rewrite Hm.
Qed.

Lemma starting_insert ns up fl a nd nd' :
  starting ns up fl → fl !! a = Some nd → g_disc (n_gossip nd') = g_disc (n_gossip nd) → n_store nd' = n_store nd →
  n_listening nd' = true → ring_wf (g_ring (n_gossip nd')) → g_ring (n_gossip nd') ≡ₚ ns →
  starting ns (a :: up) (<[a := nd']> fl).
Proof.
  intros Hs Hfl Hdisc Hstore Hlis Hwf Hring. constructor.
  - intros n. rewrite lookup_insert_is_Some. rewrite <- (sg_there _ _ _ Hs n). destruct (decide (a = n)) as [->|]; naive_solver.
  - intros n m. rewrite lookup_insert_Some. intros [[-> <-]|[_ Hn]]; [|by apply (sg_ring _ _ _ Hs n)].
    split; [done|]. by rewrite Hring.
  - intros n m. rewrite lookup_insert_Some. intros [[-> <-]|[_ Hn]]; [|by apply (sg_disc _ _ _ Hs n)].
    rewrite Hdisc. by apply (sg_disc _ _ _ Hs n nd).
  - intros n m. rewrite lookup_insert_Some. intros [[-> <-]|[_ Hn]]; [|by apply (sg_store _ _ _ Hs n)].
    rewrite Hstore. by apply (sg_store _ _ _ Hs n).
  - intros n m. rewrite lookup_insert_Some. intros [[-> <-]|[_ Hn]]; [by left|].
    intros Hl. right. by apply (sg_up _ _ _ Hs n m).
  - intros n m. rewrite lookup_insert_Some. intros [[-> <-]|[Hne Hn]]; [done|].
    intros [->|Hin]%elem_of_cons; [done|]. by apply (sg_members _ _ _ Hs n).
Qed.

Lemma fleet_start_run ns up fl clk e :
  NoDup ns → starting ns up fl → e.1 ∈ ns →
  ∃ fl', fleet_start clk e fl = (Ok tt, fl') ∧ starting ns (e.1 :: up) fl'.
Proof.
  intros Hnd Hs. destruct e as [a order]. cbn [fst]. intros Ha.
  destruct (proj2 (sg_there _ _ _ Hs a) Ha) as [nd Hfl].
  destruct (sg_disc _ _ _ Hs a nd Hfl) as (Hd & peers & Hget & Hpeers).
  set (s := view_from a clk fl nd).
  destruct (start_run a peers s Hget) as (s1 & _ & Hs1 & Hm & Hrest & Hstart); [by eapply view_node_wf|].
  injection Hrest as Hdisc Hpool Hstore Hlis Hstop.
  set (s2 := mkNode (n_gossip s1) (n_store s1) true (n_stopped s1)).
  assert (∀ n pr, g_pool (n_gossip s1) !! n = Some pr → pr_net pr = [] ∧ a ∈ g_ring (n_gossip (pr_node pr))) as Hknown.
  { intros n pr. rewrite Hpool. by apply (view_known ns up fl a clk nd). }
  assert (match order with None => node_start a (Ok tt) (announce_join a)
    | Some order => node_start_async a (Ok tt) order end s = (Ok tt, s2)) as Hrun.
  { destruct order as [order|]; [unfold node_start_async|]; rewrite Hstart; unfold on_gossip.
    - by rewrite (zoom_run n_gossip _ _ s2 _ _ (join_async_known a _ Hknown order)).
    - by rewrite (zoom_run n_gossip _ _ s2 _ _ (join_known a _ Hknown)). }
  eexists. split; [unfold fleet_start, at_node; rewrite Hfl; fold s; by rewrite Hrun|].
  rewrite (back_same a clk) by exact Hpool. unfold s2. cbn [n_gossip n_store n_listening n_stopped].
  assert (g_ring (n_gossip s1) ≡ₚ ns) as Hring.
  { apply NoDup_Permutation; [apply Hs1|done|]. intros x. unfold members in Hm. rewrite (Hm x), Hpeers.
    destruct (sg_ring _ _ _ Hs a nd Hfl) as [_ Hsub]. unfold s. simpl. specialize (Hsub x). rewrite Hpeers in Hsub. naive_solver. }
  apply (starting_insert ns up fl a nd); [done|done|by simpl; rewrite Hdisc|by simpl; rewrite Hstore|done|apply Hs1|done].
Qed.

Lemma start_all_run ns up fl clk es :
  NoDup ns → starting ns up fl → Forall (λ e, e.1 ∈ ns) es →
  ∃ fl', start_all clk es fl = (Ok tt, fl') ∧ starting ns (reverse es.*1 ++ up) fl'.
Proof.
  intros Hnd Hs Hes. revert up fl Hs. induction Hes as [|e es He Hes IH]; intros up fl Hs; [by exists fl|].
  destruct (fleet_start_run ns up fl clk e Hnd Hs He) as (fl1 & Hrun & Hs1).
  destruct (IH _ fl1 Hs1) as (fl2 & Hrun2 & Hs2). exists fl2. split.
  - unfold start_all in *. cbn [for_each]. by step_M Hrun.
  - csimpl. rewrite reverse_cons, <- app_assoc. exact Hs2.
Qed.

Lemma started_is_store ns up fl keys replication :
  ns ≠ [] → (0 < replication)%Z → (∀ key, key ∈ keys → no_ties key ns) → starting ns up fl → ns ⊆ up →
  is_store replication ns keys fl ∅.
Proof.
  intros Hne Hrep Hun Hs Hup.
  assert (∀ n nd, fl !! n = Some nd → n_listening nd = true ∧ g_ring (n_gossip nd) ≡ₚ ns) as Hm.
  { intros n nd Hn. apply (sg_members _ _ _ Hs n nd Hn), Hup, (sg_there _ _ _ Hs). by exists nd. }
  constructor; [| | |done| |..].
  - intros n nd Hn. rewrite (sg_store _ _ _ Hs n nd Hn). apply NoDup_nil_2.
  - intros n nd Hn. split; [by apply (sg_ring _ _ _ Hs n)|by apply (Hm n)].
  - intros n Hn. destruct (proj2 (sg_there _ _ _ Hs n) Hn) as [nd Hnd]. exists nd. split; [done|by apply (Hm n)].
  - intros key _ Hnil%(f_equal length). rewrite ring_get_nodes_length in Hnil by lia.
    destruct ns; [done|]. simpl in Hnil. lia.
  - intros key n _ _. rewrite lookup_empty. unfold register. destruct (fl !! n) as [nd|] eqn:Hn; [|done].
    simpl. by rewrite (sg_store _ _ _ Hs n nd Hn).
  - intros key e _. by rewrite lookup_empty.
Qed.

(** Freshly constructed nodes. *)
Lemma starting_init ns (nodes : list (NodeInfo * node_state ring script)) :
  nodes.*1 = ns → NoDup ns →
  (∀ n nd, (n, nd) ∈ nodes → ∃ ps, nd = node_init [] [] (StaticDiscovery ps) ∧ ∀ x, x ∈ ns ↔ x = n ∨ x ∈ ps) →
  starting ns [] (list_to_map nodes).
Proof.
  intros Hns Hnd Hall.
  assert (∀ n nd, (list_to_map nodes : fleet) !! n = Some nd →
    ∃ ps, nd = node_init [] [] (StaticDiscovery ps) ∧ ∀ x, x ∈ ns ↔ x = n ∨ x ∈ ps) as Hmap.
  { intros n nd Hn%elem_of_list_to_map_2. by apply Hall. }
  constructor.
  - intros n. rewrite <- elem_of_dom, dom_list_to_map_L, elem_of_list_to_set. by rewrite Hns.
  - intros n nd (ps & -> & _)%Hmap. split; [apply NoDup_nil_2|set_solver].
  - intros n nd (ps & -> & Hps)%Hmap. split; [done|]. by exists ps.
  - by intros n nd (ps & -> & _)%Hmap.
  - by intros n nd (ps & -> & _)%Hmap.
  - by intros n nd _ ?%not_elem_of_nil.
Qed.

(** From construction to answers.  Take nodes [ns], each constructed with an empty
    ring and an empty store and discovering exactly the others.  Started one after the other in
    any order, threaded or asyncio, whatever is announced to those already up, they all
    have the same members and are one empty store: any calls of [get], [set] without a ttl
    and [delete] of the keys in question that clients then make through any of them, among
    any calls of other keys, return what the same calls on a single empty last-write-wins
    store do. *)
Theorem started_cluster_serves ns keys replication fl es clk calls :
  NoDup ns → ns ≠ [] → (0 < replication)%Z → (∀ key, key ∈ keys → no_ties key ns) →
  starting ns [] fl → es.*1 ≡ₚ ns → Forall (call_ok replication ns keys) calls →
  ∃ rs fl', (start_all clk es ;; do_calls replication calls) fl = (Ok rs, fl') ∧
    is_store replication ns keys fl' (store_run calls ∅).2 ∧ answered keys calls ∅ rs.
Proof.
  intros Hnd Hne Hrep Hun Hs Hes Hcalls.
  destruct (start_all_run ns [] fl clk es Hnd Hs) as (fl1 & Hrun & Hs1).
  { apply Forall_forall. intros e He. rewrite <- Hes. by apply list_elem_of_fmap_2. }
  apply (started_is_store ns _ fl1 keys replication) in Hs1; [|done..|].
  2: { intros x Hx. rewrite app_nil_r, elem_of_reverse. by rewrite Hes. }
  destruct (do_calls_run replication ns keys calls fl1 ∅ Hs1 Hcalls) as (rs & fl2 & Hrun2 & Hrest).
  exists rs, fl2. split; [|done]. by step_M Hrun.
Qed.
End startup.

Section samples.
#[local] Existing Instance no_resolver.

Definition sample_nodes : list (NodeInfo * node_state ring script) :=
  [(node1, node_init [] [] (StaticDiscovery [node2; node3]));
   (node2, node_init [] [] (StaticDiscovery [node1; node3]));
   (node3, node_init [] [] (StaticDiscovery [node1; node2]))].

Lemma sample_starting `{Resolver} : starting sample_ring [] (list_to_map sample_nodes).
Proof.
  apply starting_init; [done|apply sample_ring_wf|]. unfold sample_ring. intros n nd Hn.
  repeat (apply elem_of_cons in Hn as [[= -> ->]|Hn]; [eexists; split; [done|set_solver]|]).
  by apply not_elem_of_nil in Hn.
Qed.

Lemma started_cluster_serves_witness :
  ∃ rs fl', (start_all (wall 5) [(node2, None); (node1, Some [1; 0]); (node3, None)] ;; do_calls 2 sample_calls)
      (list_to_map sample_nodes) = (Ok rs, fl') ∧
    is_store 2 sample_ring sample_keys fl' (store_run sample_calls ∅).2 ∧
    answered sample_keys sample_calls ∅ rs.
Proof.
  apply (started_cluster_serves sample_ring sample_keys 2 (list_to_map sample_nodes)
    [(node2, None); (node1, Some [1; 0]); (node3, None)] (wall 5) sample_calls).
  - apply sample_ring_wf.
  - done.
  - lia.
  - apply sample_no_ties.
  - apply sample_starting.
  - by apply (bool_decide_eq_true_1 (_ ≡ₚ _)).
  - apply sample_calls_ok.
Defined.
End samples.
