(* ===== verification/Process.v ===== *)
(** * Nodes of one process

    The default ring and the default pool of a node are objects of its module, evaluated
    once for the default arguments of [__init__] ([node/sync.py], [node/async_.py]): nodes
    of one class constructed in the same process without a ring and a pool of their own share
    them.  Here the ring is one cell that every node reads and writes, its peers' handlers
    too while it is waiting for their replies, and the pool is one object, which a
    node that stops closes for all.  The two classes have separate defaults, so a process here
    has nodes of one of them. *)
From S2P Require Import Prelude Async PyBase PyDict Types Store LwwStore Ring Dispatcher.
From S2P Require Import PoolOps Consistency Discovery Gossip GossipSpec Node NodeSpec Replicas Cluster ClusterSpec ClusterTtl.
From S2P Require Import ClusterFrame Fleet Startup.

#[local] Existing Instance scripted_pool.

Abbreviation fleet := (gmap NodeInfo (node_state ring script)).

(** The default pool: a [MuxConnectionPool] for threaded nodes, which may have been closed, or the
    [AsyncConnectionPool] of asyncio nodes, which closing only empties. *)
Inductive shared_pool := MuxPool (closed : bool) | AsyncPool.

(** The shared ring, the shared pool, and the nodes; what the record of a node has in the place of its ring is not
    looked at. *)
Record process := mkProcess { ps_ring : ring; ps_pool : shared_pool; ps_nodes : fleet }.

Definition pool_closed (k : shared_pool) : bool := match k with MuxPool closed => closed | AsyncPool => false end.
Definition ps_closed (p : process) : bool := pool_closed (ps_pool p).

(** The order in which the requests of a node take effect: threaded nodes make them in turn. *)
Definition how (k : shared_pool) (order : option (list nat)) : option (list nat) :=
  match k with MuxPool _ => None | AsyncPool => Some (default [] order) end.

(** A process that has imported the modules. *)
Definition new_process (k : shared_pool) : process := mkProcess ring_init k ∅.

Definition with_ring (r : ring) (nd : node_state ring script) : node_state ring script :=
  mkNode (mkGossip r (g_pool (n_gossip nd)) (g_disc (n_gossip nd))) (n_store nd) (n_listening nd) (n_stopped nd).

(** Every node with the ring it has: the shared one. *)
Definition in_process (p : process) : fleet := with_ring (ps_ring p) <$> ps_nodes p.

(** What a node sees: itself, and all the others that listen. *)
Definition process_view (a : NodeInfo) (clk : NodeInfo → clock) (p : process) (nd : node_state ring script) :
    node_state ring world :=
  view_from a clk (in_process p) (with_ring (ps_ring p) nd).

(** What the node [a] does, as a step of the process. *)
Definition at_process {A} (a : NodeInfo) (clk : NodeInfo → clock) (m : M (node_state ring world) A) : M process A := λ p,
  match ps_nodes p !! a with
  | None => (Raise OSError, p)
  | Some nd =>
      let '(r, s) := m (process_view a clk p nd) in
      (r, mkProcess (g_ring (n_gossip s)) (ps_pool p) (back_to a nd s (ps_nodes p)))
  end.

(** ** A closed pool

    [MuxConnectionPool.execute] never asks whether the pool has been closed.  It dials, sends, and waits for
    the selector thread, which is gone: peers handle the requests, and no answer ever arrives
    ([MuxSpec.mux_closed_answers_nothing]). *)
Definition deaf_pool : PoolOps world := {|
  po_execute hst prt msg := λ w, (Ok None, (world_execute hst prt msg w).2);
  po_close_peer _ _ := mret tt;
  po_close_all := mret tt;
|}.

Definition default_pool (closed : bool) : PoolOps world := if closed then deaf_pool else world_pool.

(** ** Messages that the members are told by *)

Definition peer_with_ring (r : ring) (pr : peer) : peer := mkPeer (with_ring r (pr_node pr)) (pr_net pr) (pr_clock pr).

(** [self._pool.execute(peer.host, peer.port, msg)]: the handler of the peer finds the
    ring of the caller, and the caller what the handler made of it. *)
Definition shared_send (closed : bool) (msg : Message) (n : NodeInfo) :
    M (gossip_state ring world) (option Message) := λ g,
  match g_pool g !! n with
  | None => (Ok None, g)
  | Some pr =>
      let '(o, pr') := visit n msg (peer_with_ring (g_ring g) pr) in
      (Ok (if closed then None else o),
       mkGossip (g_ring (n_gossip (pr_node pr'))) (<[n := pr']> (g_pool g)) (g_disc g))
  end.

(** [announce_join] and [announce_leave] of a node with this pool. *)
Definition announce (a : NodeInfo) (k : shared_pool) (order : option (list nat)) (msg : Message) :
    M (gossip_state ring world) unit :=
  match how k order with
  | None => broadcast_by a (shared_send (pool_closed k)) msg
  | Some order => broadcast_async_by a (shared_send (pool_closed k)) order msg
  end.

(** ** Calls and the life of a node *)
Section steps.
Context `{Resolver}.

Definition process_call (replication : Z) (cl : client_call) : M process reply :=
  p ← get_state;
  at_process (c_via cl) (c_clock cl)
    (do_op (pool := default_pool (ps_closed p)) replication (c_via cl) (how (ps_pool p) (c_order cl))
       (c_clock cl (c_via cl)) (c_op cl)).

Definition process_calls (replication : Z) (calls : list client_call) : M process (list reply) :=
  map_each calls (process_call replication).

(** [node.start()].  The gossip loop that it sets going is not part of it: its first round, if it comes at once, may evict
    from the ring peers that have not started yet, whom the last node to start enrols again. *)
Definition process_start (clk : NodeInfo → clock) (e : NodeInfo * option (list nat)) : M process unit :=
  let '(a, order) := e in
  p ← get_state;
  at_process a clk (node_start a (Ok tt) (announce a (ps_pool p) order (join_message a))).

Definition start_nodes (clk : NodeInfo → clock) (es : list (NodeInfo * option (list nat))) : M process unit :=
  for_each es (process_start clk).

(** [self._pool.close_all()]: the selector thread of the threaded nodes' pool ends for good, the pool of the asyncio nodes
    opens new connections when it needs them. *)
Definition close_shared : M process unit :=
  modify (λ p, mkProcess (ps_ring p) (match ps_pool p with MuxPool _ => MuxPool true | AsyncPool => AsyncPool end)
    (ps_nodes p)).

(** [node.stop()]. *)
Definition process_stop (clk : NodeInfo → clock) (e : NodeInfo * option (list nat)) : M process unit :=
  let '(a, order) := e in
  p ← get_state;
  at_process a clk (node_stop (announce a (ps_pool p) order (leave_message a))) ;;
  close_shared.

Definition stop_nodes (clk : NodeInfo → clock) (es : list (NodeInfo * option (list nat))) : M process unit :=
  for_each es (process_stop clk).
End steps.

(** ** Calls do not touch the ring *)
Section calls.
Context (info : NodeInfo) (replication : Z) (closed : bool).
#[local] Instance the_pool : PoolOps world := default_pool closed.
Implicit Types (s : node_state ring world) (n : NodeInfo).

(** The ring of the caller, and what its peers gossip with. *)
Definition told s : ring * gmap NodeInfo (gossip_state ring script) :=
  (g_ring (n_gossip s), (λ pr, n_gossip (pr_node pr)) <$> g_pool (n_gossip s)).

Definition same_told : relation (node_state ring world) := λ s s', told s' = told s.

#[export] Instance same_told_preorder : PreOrder same_told.
Proof. split; [done|]. intros s t u. unfold same_told. congruence. Qed.

Abbreviation keeps := (within same_told).

Lemma keeps_store {A} (m : M lww_store A) : keeps (on_store m).
Proof. intros s. unfold on_store, zoom. by destruct (m (n_store s)). Qed.

(** Requests to a store, and PING. *)
Definition idle (msg : Message) : Prop := is_gossip (m_type msg) = false ∨ m_type msg = PING.

Lemma handled_gossip n c msg (nd : node_state ring script) : idle msg → n_gossip (handled n c msg nd).2 = n_gossip nd.
Proof.
  intros [Hmsg|Hmsg]; unfold handled, answer.
  - rewrite Hmsg. unfold on_store, zoom. by destruct (dispatch c msg _) as [[] d].
  - unfold on_gossip, zoom, handle_message. by rewrite Hmsg.
Qed.

Lemma handled_at_gossip n cs msg (nd : node_state ring script) :
  idle msg → n_gossip (handled_at n cs msg nd).2 = n_gossip nd.
Proof.
  intros Hmsg. revert nd. induction cs as [|c [|c' cs] IH]; intros nd; [done|by apply handled_gossip|].
  cbn [handled_at] in *. rewrite IH. by apply handled_gossip.
Qed.

Lemma visit_gossip n msg pr :
  idle msg → n_gossip (pr_node (visit n msg pr).2) = n_gossip (pr_node pr).
Proof.
  intros Hmsg. unfold visit. destruct (pr_net pr) as [|d net].
  - pose proof (handled_gossip n (pr_clock pr) msg (pr_node pr) Hmsg). by destruct (handled _ _ _ _).
  - pose proof (handled_at_gossip n (dl_handled d) msg (pr_node pr) Hmsg). by destruct (handled_at _ _ _ _).
Qed.

Lemma keeps_execute n msg : idle msg → keeps (remote_execute n msg).
Proof.
  intros Hmsg s. unfold same_told, told, remote_execute, on_gossip, on_pool, zoom.
  assert (∀ r w, po_execute (host n) (port n) msg (g_pool (n_gossip s)) = (r, w) →
    w = (world_execute (host n) (port n) msg (g_pool (n_gossip s))).2) as Hw.
  { intros r w. unfold the_pool, default_pool. destruct closed; cbn [po_execute deaf_pool world_pool]; [by intros [= _ <-]|by intros ->]. }
  destruct (po_execute _ _ _ _) as [r w] eqn:Hrun. rewrite (Hw r w) by done. clear Hw Hrun. unfold world_execute.
  destruct (g_pool (n_gossip s) !! _) as [pr|] eqn:Hpr; [|done].
  pose proof (visit_gossip (mkNodeInfo (host n) (port n)) msg pr Hmsg) as Hv. destruct (visit _ _ _) as [o pr']. simpl in *.
  f_equal. rewrite fmap_insert, Hv. apply insert_id. by rewrite lookup_fmap, Hpr.
Qed.

Lemma keeps_replica_op {A} (m : M lww_store A) msg (f : option Message → result A) n :
  idle msg → keeps (replica_op info m msg f n).
Proof.
  intros Hmsg. unfold replica_op. case_decide; [apply keeps_store|].
  apply within_bind; [exact _|by apply keeps_execute|]. intros o. apply within_lift; exact _.
Qed.

Lemma keeps_fetch c key n : keeps (fetch key (make_handle info c n)).
Proof.
  apply within_try; [exact _| |intros e; apply within_ret; exact _].
  rewrite handle_get_op. apply keeps_replica_op. by left.
Qed.

(** Writes to the replicas, in turn or concurrently, or to the node itself where there are none. *)
Lemma keeps_writes c (h_write : ReplicaHandle (node_state ring world) → M (node_state ring world) bool)
    (own : M lww_store bool) ns :
  (∀ n, keeps (h_write (make_handle info c n))) →
  keeps (match ns with [] => on_store own ;; mret true
         | n :: ns => results ← map_each (_make_handles info c (n :: ns)) h_write; mret (existsb id results) end) ∧
  ∀ order, keeps (match ns with [] => on_store own ;; mret true
         | n :: ns => results ← gather order (h_write <$> _make_handles_async info c (n :: ns)); mret (any_true results) end).
Proof.
  intros Hw. split; [|intros order]; (destruct ns as [|n ns]; [apply within_bind; [exact _|apply keeps_store|intros b; apply within_ret; exact _]|]);
    (apply within_bind; [exact _| |intros b; apply within_ret; exact _]).
  - apply within_map_each; [exact _|]. intros h (x & -> & _)%list_elem_of_fmap. apply Hw.
  - apply within_gather; [exact _|]. intros t (h & -> & (x & -> & _)%list_elem_of_fmap)%list_elem_of_fmap. apply Hw.
Qed.

Lemma do_op_keeps order c op : keeps (do_op replication info order c op).
Proof.
  assert (∀ {A B} (m : M (node_state ring world) A) (f : A → B), keeps m → keeps (x ← m; mret (f x))) as Hret.
  { intros A B m f Hm. apply within_bind; [exact _|done|]. intros x. apply within_ret; exact _. }
  assert (∀ c key v ttl n, keeps (h_set (make_handle info c n) key v ttl (time_ns c))) as Hset.
  { intros. rewrite handle_set_op. apply keeps_replica_op. by left. }
  assert (∀ c key n, keeps (h_delete (make_handle info c n) key (time_ns c))) as Hdel.
  { intros. rewrite handle_delete_op. apply keeps_replica_op. by left. }
  destruct op as [key|key v ttl|key], order as [o|]; apply Hret, within_state; intros s; cbv zeta.
  - destruct (replicas replication key s) as [|n ns]; [apply keeps_store|].
    apply Hret, within_gather; [exact _|]. intros t (h & -> & (x & -> & _)%list_elem_of_fmap)%list_elem_of_fmap. apply keeps_fetch.
  - destruct (replicas replication key s) as [|n ns]; [apply keeps_store|].
    apply Hret, within_map_each; [exact _|]. intros h (x & -> & _)%list_elem_of_fmap. apply keeps_fetch.
  - apply (proj2 (keeps_writes c (λ h, h_set h key v ttl (time_ns c)) _ _ (Hset c key v ttl)) o).
  - apply (proj1 (keeps_writes c (λ h, h_set h key v ttl (time_ns c)) _ _ (Hset c key v ttl))).
  - apply (proj2 (keeps_writes c (λ h, h_delete h key (time_ns c)) _ _ (Hdel c key)) o).
  - apply (proj1 (keeps_writes c (λ h, h_delete h key (time_ns c)) _ _ (Hdel c key))).
Qed.
End calls.

(** ** Calls that get no answer *)
Section deaf.
Context (info : NodeInfo) (replication : Z).
Implicit Types (s : node_state ring world) (n : NodeInfo).

(** The node, nobody else being there. *)
Definition alone s : node_state ring world :=
  mkNode (mkGossip (g_ring (n_gossip s)) ∅ (g_disc (n_gossip s))) (n_store s) (n_listening s) (n_stopped s).

(** With a pool that is deaf the same happens as with one that is not, and the result is that of a node that is alone. *)
Definition deafens {A} (m : PoolOps world → M (node_state ring world) A) : Prop := ∀ s, ∃ x y s',
  m world_pool s = (Ok x, s') ∧ m deaf_pool s = (Ok y, s') ∧ m world_pool (alone s) = (Ok y, alone s').

Lemma deafens_store {A} (m : M lww_store A) :
  (∀ d, ∃ x d', m d = (Ok x, d')) → deafens (λ _, on_store m).
Proof.
  intros Hm s. destruct (Hm (n_store s)) as (x & d & Hrun). unfold on_store, zoom. cbn [alone n_store]. rewrite Hrun.
  by eexists x, x, _.
Qed.

Lemma deafens_after {A B} (m : PoolOps world → M (node_state ring world) A) (f : A → B) :
  deafens m → deafens (λ w, x ← m w; mret (f x)).
Proof.
  intros Hm s. destruct (Hm s) as (x & y & s' & H1 & H2 & H3). exists (f x), (f y), s'.
  split_and!; [by step_M H1|by step_M H2|by step_M H3].
Qed.

(** The members come from the ring, which is the same. *)
Lemma deafens_state {A} (f : node_state ring world → PoolOps world → M (node_state ring world) A) :
  (∀ s, f (alone s) = f s) → (∀ s, deafens (f s)) → deafens (λ w, s ← get_state; f s w).
Proof.
  intros Heq Hf s. destruct (Hf s s) as (x & y & s' & H1 & H2 & H3). exists x, y, s'.
  unfold get_state, mbind, M_bind. cbv beta iota. by rewrite Heq.
Qed.

Lemma deafens_each {X A} (xs : list X) (f : X → PoolOps world → M (node_state ring world) A) :
  (∀ x, deafens (f x)) → deafens (λ w, map_each xs (λ x, f x w)).
Proof.
  intros Hf. induction xs as [|x xs IH]; intros s; [by exists [], [], s|].
  destruct (Hf x s) as (a & b & s1 & H1 & H2 & H3). destruct (IH s1) as (bs & cs & s2 & H1' & H2' & H3').
  exists (a :: bs), (b :: cs), s2. cbn [map_each].
  split_and!; [step_M H1; by step_M H1'|step_M H2; by step_M H2'|step_M H3; by step_M H3'].
Qed.

Lemma deafens_request n msg : deafens (λ w, remote_execute n msg).
Proof.
  intros s. unfold remote_execute, on_gossip, on_pool, zoom.
  cbn [po_execute deaf_pool world_pool alone n_gossip g_pool g_ring g_disc n_store n_listening n_stopped].
  destruct (world_execute (host n) (port n) msg (g_pool (n_gossip s))) as [o w] eqn:Hw.
  unfold world_execute in *. rewrite lookup_empty. destruct (g_pool (n_gossip s) !! _) as [pr|].
  - destruct (visit _ _ _) as [o' pr']. injection Hw as <- <-. by eexists _, _, _.
  - injection Hw as <- <-. by eexists _, _, _.
Qed.

Lemma deafens_op {A} (m : M lww_store A) msg (f : option Message → A) n :
  (∀ d, ∃ x d', m d = (Ok x, d')) → deafens (λ w, replica_op info m msg (λ r, Ok (f r)) n).
Proof.
  intros Hm. unfold replica_op. case_decide; [by apply deafens_store|].
  exact (deafens_after (λ w, remote_execute n msg) f (deafens_request n msg)).
Qed.

Lemma deafens_fetch c key n : deafens (λ w, fetch key (make_handle info c n)).
Proof.
  intros s. unfold fetch. rewrite !handle_get_op. unfold replica_op. case_decide.
  - destruct (deafens_store (lww_get_versioned c key)) with s as (x & y & s' & H1 & H2 & H3).
    { intros d. rewrite lww_get_versioned_run. by eexists _, _. }
    exists y, y, s'. unfold try_except. by rewrite H2, H3.
  - destruct (deafens_request n (get_request key) s) as (x & y & s' & H1 & H2 & H3).
    exists (match decode_get x with Ok o => o | Raise _ => None end),
      (match decode_get y with Ok o => o | Raise _ => None end), s'. unfold try_except.
    split_and!; [step_M H1|step_M H2|step_M H3]; unfold lift_result; by destruct (decode_get _).
Qed.

Lemma deafens_handles {A} (ns : list NodeInfo) c (f : ReplicaHandle (node_state ring world) → M (node_state ring world) A) :
  (∀ n, deafens (λ w, f (make_handle info c n))) → deafens (λ w, map_each (_make_handles info c ns) f).
Proof.
  intros Hf s. destruct (deafens_each ns (λ n w, f (make_handle info c n)) Hf s) as (x & y & s' & H1 & H2 & H3).
  exists x, y, s'. unfold _make_handles. by rewrite !map_each_fmap.
Qed.

Lemma deaf_do_op c op : deafens (λ w, do_op (pool := w) replication info None c op).
Proof.
  assert (∀ c key v ttl n, deafens (λ w, h_set (make_handle info c n) key v ttl (time_ns c))) as Hset.
  { intros c' key v ttl n s. rewrite !handle_set_op. apply (deafens_op _ _ accepted). intros d. rewrite lww_set_run. by eexists _, _. }
  assert (∀ c key n, deafens (λ w, h_delete (make_handle info c n) key (time_ns c))) as Hdel.
  { intros c' key n s. rewrite !handle_delete_op. apply (deafens_op _ _ accepted). intros d. rewrite lww_delete_run. by eexists _, _. }
  destruct op as [key|key v ttl|key].
  - apply (deafens_after (λ w, node_get info replication lww_read_resolve c key) RValue).
    apply (deafens_state (λ s w, match replicas replication key s with [] => _ | _ => _ end)); [done|]. intros s.
    destruct (replicas replication key s) as [|n ns].
    + apply deafens_store. intros d. rewrite lww_get_run. by eexists _, _.
    + apply (deafens_after (λ w, map_each (_make_handles info c (n :: ns)) (fetch key)) pick), deafens_handles.
      intros x. apply deafens_fetch.
  - apply (deafens_after (λ w, node_set info replication c key v ttl) RDone).
    apply (deafens_state (λ s w, match replicas replication key s with [] => _ | _ => _ end)); [done|]. intros s.
    destruct (replicas replication key s) as [|n ns].
    + apply (deafens_after (λ _, on_store (lww_set c key v ttl (Some (time_ns c)))) (λ _, true)), deafens_store.
      intros d. rewrite lww_set_run. by eexists _, _.
    + apply (deafens_after (λ w, map_each (_make_handles info c (n :: ns)) _) (existsb id)), deafens_handles. apply Hset.
  - apply (deafens_after (λ w, node_delete info replication c key) RDone).
    apply (deafens_state (λ s w, match replicas replication key s with [] => _ | _ => _ end)); [done|]. intros s.
    destruct (replicas replication key s) as [|n ns].
    + apply (deafens_after (λ _, on_store (lww_delete c key (Some (time_ns c)))) (λ _, true)), deafens_store.
      intros d. rewrite lww_delete_run. by eexists _, _.
    + apply (deafens_after (λ w, map_each (_make_handles info c (n :: ns)) _) (existsb id)), deafens_handles. apply Hdel.
Qed.
End deaf.

Section same.
Context (replication : Z).
Implicit Types (p : process) (nd : node_state ring script) (a n : NodeInfo).

Lemma with_ring_id r nd : g_ring (n_gossip nd) = r → with_ring r nd = nd.
Proof. intros <-. by destruct nd as [[] ? ? ?]. Qed.

Lemma lookup_in_process p n : in_process p !! n = with_ring (ps_ring p) <$> ps_nodes p !! n.
Proof. apply lookup_fmap. Qed.

(** After a step that leaves rings alone. *)
Lemma process_back a clk p nd s :
  ps_nodes p !! a = Some nd → told s = told (process_view a clk p nd) →
  in_process (mkProcess (g_ring (n_gossip s)) (ps_pool p) (back_to a nd s (ps_nodes p))) =
    back_to a (with_ring (ps_ring p) nd) s (in_process p) ∧
  g_ring (n_gossip s) = ps_ring p.
Proof.
  intros Ha Ht. pose proof (f_equal fst Ht) as Hr. apply (f_equal snd) in Ht as Hp. cbn [told fst snd] in Hr, Hp.
  change (g_ring _) with (ps_ring p) in Hr at 2. split; [|done]. unfold in_process at 1. cbn [ps_ring ps_nodes]. rewrite Hr.
  apply map_eq. intros n. rewrite lookup_fmap. destruct (decide (n = a)) as [->|Hne].
  { rewrite !back_self. simpl. by rewrite Hr. }
  destruct (g_pool (n_gossip s) !! n) as [pr|] eqn:Hpr.
  - rewrite !(back_peer _ _ _ _ _ _ Hne Hpr). simpl. f_equal. apply with_ring_id.
    apply (f_equal (.!! n)) in Hp. unfold process_view in Hp. rewrite !lookup_fmap, Hpr, lookup_peers, decide_False in Hp by done.
    rewrite lookup_in_process in Hp. destruct (ps_nodes p !! n) as [nd'|] eqn:Hn; [|done]. simpl in Hp.
    destruct (n_listening nd'); [|done]. injection Hp as Hp. by rewrite Hp.
  - by rewrite !back_other, lookup_in_process by done.
Qed.

(** A step that leaves rings alone is the one that the nodes would take with rings of their own. *)
Lemma at_process_same {A} a clk (m : M (node_state ring world) A) p :
  within same_told m →
  ∃ r p', at_process a clk m p = (r, p') ∧ at_node a clk m (in_process p) = (r, in_process p') ∧
    ps_ring p' = ps_ring p ∧ ps_pool p' = ps_pool p.
Proof.
  intros Hm. unfold at_process, at_node. rewrite lookup_in_process.
  destruct (ps_nodes p !! a) as [nd|] eqn:Ha; [|by eexists _, _]. simpl.
  pose proof (Hm (process_view a clk p nd)) as Ht. unfold same_told in Ht. fold (process_view a clk p nd).
  destruct (m _) as [r s]. simpl in Ht.
  destruct (process_back a clk p nd s Ha Ht) as [Hback Hr].
  eexists _, _. split; [done|]. by rewrite Hback.
Qed.

(** The caller of a threaded node has no order to choose, that of an asyncio node has. *)
Definition suits (k : shared_pool) (cl : client_call) : Prop := how k (c_order cl) = c_order cl.

Lemma process_call_same cl p :
  ps_closed p = false → suits (ps_pool p) cl →
  ∃ r p', process_call replication cl p = (r, p') ∧ do_call replication cl (in_process p) = (r, in_process p') ∧
    ps_ring p' = ps_ring p ∧ ps_pool p' = ps_pool p.
Proof.
  intros Hc Hs. unfold process_call, get_state, mbind, M_bind. cbv beta iota. rewrite Hc, Hs.
  apply (at_process_same (c_via cl) (c_clock cl) (do_op (pool := world_pool) replication _ _ _ _)).
  exact (do_op_keeps (c_via cl) replication false (c_order cl) _ (c_op cl)).
Qed.

Lemma calls_same calls p :
  ps_closed p = false → Forall (suits (ps_pool p)) calls →
  ∃ r p', process_calls replication calls p = (r, p') ∧ do_calls replication calls (in_process p) = (r, in_process p') ∧
    ps_ring p' = ps_ring p ∧ ps_pool p' = ps_pool p.
Proof.
  intros Hc Hs. unfold process_calls, do_calls. revert p Hc Hs.
  induction calls as [|cl calls IH]; intros p Hc Hs; [by eexists _, p|]. apply Forall_cons in Hs as [Hs Hall].
  destruct (process_call_same cl p Hc Hs) as (r & p1 & Hrun & Hrun' & Hr1 & Hk1). cbn [map_each]. destruct r as [r|e].
  - destruct (IH p1) as (rs & p2 & Hrun2 & Hrun2' & Hr2 & Hk2); [by unfold ps_closed; rewrite Hk1|by rewrite Hk1|].
    exists (match rs with Ok rs => Ok (r :: rs) | Raise e => Raise e end), p2.
    split_and!; [| |by rewrite Hr2|by rewrite Hk2].
    + step_M Hrun. by destruct rs; step_M Hrun2.
    + step_M Hrun'. by destruct rs; step_M Hrun2'.
  - exists (Raise e), p1. split_and!; [by step_M Hrun|by step_M Hrun'|done..].
Qed.

(** While a process is one store, so are the calls through its nodes. *)
Lemma process_calls_run ns keys calls p m :
  is_store replication ns keys (in_process p) m → ps_closed p = false → Forall (suits (ps_pool p)) calls →
  Forall (call_ok replication ns keys) calls →
  ∃ rs p', process_calls replication calls p = (Ok rs, p') ∧
    is_store replication ns keys (in_process p') (store_run calls m).2 ∧ answered keys calls m rs ∧ ps_pool p' = ps_pool p.
Proof.
  intros His Hc Hs Hcalls. destruct (calls_same calls p Hc Hs) as (r & p' & Hrun & Hrun' & _ & Hk).
  destruct (do_calls_run replication ns keys calls _ m His Hcalls) as (rs & fl' & Hrun2 & His' & Hans).
  rewrite Hrun' in Hrun2. injection Hrun2 as -> <-. by exists rs, p'.
Qed.

(** The process, with this pool, is one store, and the pool is open. *)
Definition one_store ns keys k p m : Prop :=
  is_store replication ns keys (in_process p) m ∧ ps_pool p = k ∧ pool_closed k = false.

Lemma process_call_run ns keys cl k p m :
  one_store ns keys k p m → suits k cl → call_ok replication ns keys cl →
  ∃ r p', process_call replication cl p = (Ok r, p') ∧ one_store ns keys k p' (store_step m cl).2.
Proof.
  intros (His & <- & Hc) Hs Hcl. destruct (process_call_same cl p Hc Hs) as (r & p' & Hrun & Hrun' & _ & Hk).
  destruct (do_call_run replication ns keys _ m cl His Hcl) as (r0 & fl' & Hrun2 & His' & _).
  rewrite Hrun' in Hrun2. injection Hrun2 as -> <-. by exists r0, p'.
Qed.

Lemma store_ring ns keys p m : ns ≠ [] → is_store replication ns keys (in_process p) m → ps_ring p ≡ₚ ns.
Proof.
  intros Hne His. destruct ns as [|n ns]; [done|].
  destruct (is_there _ _ _ _ _ His n) as (nd & Hn & _); [left|].
  destruct (is_ring _ _ _ _ _ His n nd Hn) as [_ Hr]. rewrite lookup_in_process in Hn.
  destruct (ps_nodes p !! n) as [nd0|]; [|done]. by injection Hn as <-.
Qed.

(** A closed pool carries the calls out all the same, but the caller learns nothing of it. *)
Lemma closed_pool_call cl p nd :
  ps_closed p = true → suits (ps_pool p) cl → ps_nodes p !! c_via cl = Some nd →
  ∃ r r' p' alone', process_call replication cl p = (Ok r, p') ∧
    do_call replication cl (in_process p) = (Ok r', in_process p') ∧
    do_call replication cl {[c_via cl := with_ring (ps_ring p) nd]} = (Ok r, alone') ∧
    ps_ring p' = ps_ring p ∧ ps_pool p' = ps_pool p.
Proof.
  intros Hc Hs Ha. set (a := c_via cl) in *. unfold suits in Hs. unfold ps_closed in Hc.
  destruct (ps_pool p) as [[]|] eqn:Hk; try done. cbn [how] in Hs.
  destruct (deaf_do_op a replication (c_clock cl a) (c_op cl) (process_view a (c_clock cl) p nd)) as (r' & r & s & Hw & Hd & Hal).
  pose proof (do_op_keeps a replication true None (c_clock cl a) (c_op cl) (process_view a (c_clock cl) p nd)) as Ht.
  unfold same_told in Ht. unfold the_pool, default_pool in Ht. cbv iota in Ht. rewrite Hd in Ht. cbn [snd] in Ht.
  destruct (process_back a (c_clock cl) p nd s Ha Ht) as [Hback Hr]. rewrite Hk in Hback.
  set (p' := mkProcess _ _ _) in Hback. exists r, r', p'. eexists. split_and!; [| | |exact Hr|done].
  - unfold process_call, get_state, mbind, M_bind, ps_closed, at_process. cbv beta iota. fold a. rewrite Ha, Hk.
    cbn [pool_closed default_pool how]. by rewrite Hd.
  - unfold do_call, at_node. fold a. rewrite lookup_in_process, Ha, <- Hs. cbn [fmap option_fmap option_map].
    fold (process_view a (c_clock cl) p nd). rewrite Hw. by rewrite Hback.
  - unfold do_call, at_node. fold a. rewrite lookup_singleton_eq, <- Hs.
    replace (view_from _ _ _ _) with (alone (process_view a (c_clock cl) p nd)); [by rewrite Hal|].
    unfold process_view, alone, view_from. by rewrite delete_singleton_eq, map_imap_empty.
Qed.

(** C5. What it means to share the defaults.  Sharing the ring makes no difference to
    clients: whatever calls are made through the nodes of a process, threaded or asyncio,
    their results and what becomes of the nodes are those of nodes that have rings of their
    own with the same members, for the calls read the ring and never write it.  Sharing the
    pool does, once it is closed, as it is when a threaded node has stopped: a call through any other node
    of the process still does to all the nodes what it would do through an open pool, for its requests are sent and
    handled, but no answer comes back, and it returns what it would if that node were the only one there was. *)
Theorem shared_defaults calls cl nd p :
  Forall (suits (ps_pool p)) (cl :: calls) →
  (ps_closed p = false →
    ∃ r p', process_calls replication calls p = (r, p') ∧ do_calls replication calls (in_process p) = (r, in_process p') ∧
      ps_ring p' = ps_ring p ∧ ps_pool p' = ps_pool p) ∧
  (ps_closed p = true → ps_nodes p !! c_via cl = Some nd →
    ∃ r r' p' alone', process_call replication cl p = (Ok r, p') ∧
      do_call replication cl (in_process p) = (Ok r', in_process p') ∧
      do_call replication cl {[c_via cl := with_ring (ps_ring p) nd]} = (Ok r, alone') ∧
      ps_ring p' = ps_ring p ∧ ps_pool p' = ps_pool p).
Proof. intros [Hs Hall]%Forall_cons. split; intros Hc; [by apply calls_same|by apply closed_pool_call]. Qed.
End same.

Lemma filter_every {A} (P : A → Prop) `{∀ x, Decision (P x)} (l : list A) : (∀ x, x ∈ l → P x) → filter P l = l.
Proof.
  induction l as [|x l IH]; intros Hl; [done|]. rewrite filter_cons, decide_True by (apply Hl; left).
  f_equal. apply IH. intros y Hy. apply Hl. by right.
Qed.

Lemma ring_remove_twice n r : ring_remove n (ring_remove n r) = ring_remove n r.
Proof. unfold ring_remove. rewrite list_filter_filter. apply list_filter_iff. naive_solver. Qed.

(** ** Announcing *)
Section announcing.
Context (a : NodeInfo) (k : shared_pool).
Abbreviation send := (shared_send (pool_closed k)).
Implicit Types (g : gossip_state ring world) (n : NodeInfo) (order : option (list nat)).

Lemma shared_send_returns msg n g : ∃ o g', send msg n g = (Ok o, g').
Proof.
  unfold shared_send. destruct (g_pool g !! n) as [pr|]; [|by eexists _, _]. destruct (visit _ _ _). by eexists _, _.
Qed.

(** The nodes that are told, in order. *)
Definition audience order g : list NodeInfo :=
  match how k order with None => others a g | Some order => omap (others a g !!.) order end.

Definition tell (msg : Message) (n : NodeInfo) : M (gossip_state ring world) unit := send msg n ;; mret tt.

Lemma for_each_skip msg ns g :
  for_each ns (λ peer, if decide (peer = a) then mret tt else tell msg peer) g =
    for_each (filter (λ n, n ≠ a) ns) (tell msg) g.
Proof.
  revert g. induction ns as [|n ns IH]; intros g; [done|]. rewrite filter_cons. cbn [for_each].
  destruct (decide (n = a)) as [->|Hne].
  - rewrite decide_False by naive_solver. unfold mbind at 1, M_bind at 1. cbn [mret M_ret]. apply IH.
  - rewrite decide_True by done. cbn [for_each]. unfold mbind, M_bind. destruct (tell msg n g) as [[[]|e] g']; [apply IH|done].
Qed.

Lemma announce_told order msg g : announce a k order msg g = for_each (audience order g) (tell msg) g.
Proof.
  unfold announce, audience. destruct (how k order) as [os|]; [|apply for_each_skip].
  assert (∀ n g, True → ∃ o g', send msg n g = (Ok o, g') ∧ True) as Hsend.
  { intros n g0 _. destruct (shared_send_returns msg n g0) as (o & g' & Hs). by exists o, g'. }
  destruct (gather_for_each (λ _, True) (send msg) (others a g) os g Hsend I) as [rs Hrs].
  destruct (for_each_returns_inv (λ _, True) (omap (others a g !!.) os) (tell msg) g) as (g' & Hrun & _); [|done|].
  { intros n g0 _ _. destruct (Hsend n g0 I) as (o & g' & Hs & _). exists g'. split; [unfold tell; by step_M Hs|done]. }
  rewrite Hrun. transitivity ((gather os (send msg <$> others a g) ;; mret tt) g); [done|].
  step_M Hrs. transitivity (Ok tt : result unit, (for_each (omap (others a g !!.) os) (tell msg) g).2); [done|by rewrite Hrun].
Qed.

(** *** Joining *)

(** Everything but the rings that the peers' records have. *)
Definition norm g := (g_ring g, g_disc g, peer_with_ring (g_ring g) <$> g_pool g).

(** The ring has [a], and the network is fine. *)
Definition calm g : Prop := map_Forall (λ _ pr, pr_net pr = []) (g_pool g).
Definition known_to g : Prop := a ∈ g_ring g ∧ calm g.

Lemma shared_send_known n g :
  known_to g → ∃ o g', send (join_message a) n g = (Ok o, g') ∧ norm g' = norm g ∧ known_to g'.
Proof.
  intros [Ha Hc]. unfold shared_send. destruct (g_pool g !! n) as [pr|] eqn:Hn; [|by eexists _, _].
  pose proof (Hc n pr Hn) as Hnet.
  assert (visit n (join_message a) (peer_with_ring (g_ring g) pr) =
    (Some (mkMessage OK (Some no_fields)), peer_with_ring (g_ring g) pr)) as ->.
  { unfold visit, handled, answer. cbn [peer_with_ring pr_net pr_node pr_clock]. rewrite Hnet.
    change (is_gossip _) with true. cbv iota. unfold on_gossip, zoom, handle_message, join_message. unfold_M.
    cbn [m_type with_ring n_gossip]. change (payload_item p_peer _) with (Ok (node_to_dict a)). cbv beta iota.
    rewrite node_from_to_dict. cbn [r_nodes g_ring rendezvous_ring]. rewrite decide_True by exact Ha. unfold peer_with_ring. by rewrite Hnet. }
  eexists _, _. split; [done|]. split.
  - unfold norm. simpl. f_equal. rewrite fmap_insert. apply insert_id. by rewrite lookup_fmap, Hn.
  - split; [done|]. apply map_Forall_insert_2; [done|exact Hc].
Qed.

Lemma join_shared order g :
  known_to g → ∃ g', announce a k order (join_message a) g = (Ok tt, g') ∧ norm g' = norm g.
Proof.
  intros Hk. rewrite announce_told.
  destruct (for_each_returns_inv (λ g', norm g' = norm g ∧ known_to g') (audience order g) (tell (join_message a)) g)
    as (g' & Hrun & Hn & _); [|done|by exists g'].
  intros n g1 _ [Hn Hk1]. destruct (shared_send_known n g1 Hk1) as (o & g2 & Hrun & Hn2 & Hk2).
  exists g2. split; [unfold tell; by step_M Hrun|]. split; [congruence|done].
Qed.

(** *** Leaving *)

Lemma shared_send_leave n g pr :
  calm g → g_pool g !! n = Some pr →
  ∃ o nd, send (leave_message a) n g =
      (Ok o, mkGossip (ring_remove a (g_ring g)) (<[n := mkPeer nd [] (pr_clock pr)]> (g_pool g)) (g_disc g)) ∧
    n_listening nd = n_listening (pr_node pr).
Proof.
  intros Hc Hn. unfold shared_send. rewrite Hn. pose proof (Hc n pr Hn) as Hnet.
  unfold visit, handled, answer. cbn [peer_with_ring pr_net pr_node pr_clock]. rewrite Hnet.
  change (is_gossip _) with true. cbv iota. unfold on_gossip, zoom, handle_message, leave_message, drop_peer, on_pool. unfold_M.
  cbn [m_type with_ring n_gossip]. change (payload_item p_peer _) with (Ok (node_to_dict a)). cbv beta iota.
  rewrite node_from_to_dict. eexists _, _. by split; [reflexivity|].
Qed.

(** Who is there, and listens. *)
Definition hears g : gmap NodeInfo bool := (λ pr, n_listening (pr_node pr)) <$> g_pool g.

(** The node is in the ring no more as soon as it has told somebody. *)
Lemma leave_shared order g :
  calm g → ∃ g', announce a k order (leave_message a) g = (Ok tt, g') ∧ hears g' = hears g ∧
    g_ring g' = if decide (Exists (λ n, is_Some (g_pool g !! n)) (audience order g)) then ring_remove a (g_ring g)
                else g_ring g.
Proof.
  rewrite announce_told. generalize (audience order g) as ns. intros ns. revert g.
  induction ns as [|n ns IH]; intros g Hc; [exists g; split_and!; [done..|]; rewrite decide_False; [done|by intros ?%Exists_nil]|].
  assert (∀ o g', send (leave_message a) n g = (Ok o, g') → tell (leave_message a) n g = (Ok tt, g')) as Htell.
  { intros o g' Hrun. unfold tell. by step_M Hrun. }
  cbn [for_each]. destruct (g_pool g !! n) as [pr|] eqn:Hn.
  - destruct (shared_send_leave n g pr Hc Hn) as (o & nd & Hrun%Htell & Hl).
    edestruct (IH (mkGossip (ring_remove a (g_ring g)) (<[n := mkPeer nd [] (pr_clock pr)]> (g_pool g)) (g_disc g)))
      as (g' & Hrun' & Hh & Hr); [by apply map_Forall_insert_2|].
    exists g'. split; [by step_M Hrun|]. split.
    + rewrite Hh. unfold hears. simpl. rewrite fmap_insert. apply insert_id. rewrite lookup_fmap, Hn. simpl. by rewrite Hl.
    + rewrite decide_True by (left; by eexists). rewrite Hr. clear Hr. cbn [g_ring]. destruct (decide _); [apply ring_remove_twice|done].
  - assert (send (leave_message a) n g = (Ok None, g)) as Hrun%Htell by (unfold shared_send; by rewrite Hn).
    destruct (IH g Hc) as (g' & Hrun' & Hh & Hr). exists g'. split; [by step_M Hrun|]. split; [done|]. rewrite Hr.
    apply decide_ext. rewrite Exists_cons, Hn. split; [by right|]. by intros [[? ?]|].
Qed.
End announcing.

(** ** Starting *)
Section starting.
Context `{Resolver}.
Implicit Types (p : process) (ns up : list NodeInfo).

Lemma starting_with_ring r ns up fl :
  NoDup ns → starting ns up fl → r ≡ₚ ns → starting ns up (with_ring r <$> fl).
Proof.
  intros Hnd [Hth Hri Hd Hst Hup Hm] Hr.
  assert (∀ n nd, (with_ring r <$> fl) !! n = Some nd → ∃ nd0, nd = with_ring r nd0 ∧ fl !! n = Some nd0) as Hall.
  { intros n nd (nd0 & <- & Hn)%lookup_fmap_Some. by exists nd0. }
  constructor.
  - intros n. rewrite lookup_fmap, fmap_is_Some. apply Hth.
  - intros n nd (nd0 & -> & Hn)%Hall. split; simpl; [unfold ring_wf|]; by rewrite Hr.
  - intros n nd (nd0 & -> & Hn)%Hall. by apply (Hd n nd0).
  - intros n nd (nd0 & -> & Hn)%Hall. by apply (Hst n nd0).
  - intros n nd (nd0 & -> & Hn)%Hall. by apply (Hup n nd0).
  - intros n nd (nd0 & -> & Hn)%Hall Hin. by destruct (Hm n nd0 Hn Hin).
Qed.

(** The peers of a node that is starting: all know it once the ring has it. *)
Lemma process_start_run ns up p clk e :
  NoDup ns → starting ns up (in_process p) → e.1 ∈ ns →
  ∃ p', process_start clk e p = (Ok tt, p') ∧ starting ns (e.1 :: up) (in_process p') ∧ ps_pool p' = ps_pool p.
Proof.
  intros Hnd Hs. destruct e as [a order]. cbn [fst]. intros Ha.
  destruct (proj2 (sg_there _ _ _ Hs a) Ha) as [nd' Hfl]. pose proof Hfl as Hlook. rewrite lookup_in_process in Hlook.
  destruct (ps_nodes p !! a) as [nd|] eqn:Hnd'; [|done]. injection Hlook as Hw.
  destruct (sg_disc _ _ _ Hs a nd' Hfl) as (Hd & peers & Hget & Hpeers).
  set (v := view_from a clk (in_process p) nd').
  destruct (start_run a peers v Hget) as (s1 & _ & Hs1 & Hm & Hrest & Hstart); [by eapply view_node_wf|].
  injection Hrest as Hdisc Hpool Hstore Hlis Hstop. change (g_pool (n_gossip s1) = g_pool (n_gossip v)) in Hpool.
  assert (g_ring (n_gossip s1) ≡ₚ ns) as Hring.
  { apply NoDup_Permutation; [apply Hs1|done|]. intros x. unfold members in Hm. rewrite (Hm x), Hpeers.
    destruct (sg_ring _ _ _ Hs a nd' Hfl) as [_ Hsub]. unfold v. simpl. specialize (Hsub x). rewrite Hpeers in Hsub. naive_solver. }
  destruct (join_shared a (ps_pool p) order (n_gossip s1)) as (g & Hjoin & Hnorm).
  { split; [by rewrite Hring|]. unfold calm. rewrite Hpool. intros n pr. unfold v. rewrite lookup_peers. case_decide; [done|].
    destruct (in_process p !! n) as [m|]; [|done]. simpl. destruct (n_listening m); [|done]. by intros [= <-]. }
  injection Hnorm as Hgr Hgd Hgp.
  exists (mkProcess (g_ring g) (ps_pool p) (back_to a nd (mkNode g (n_store s1) true (n_stopped s1)) (ps_nodes p))).
  split; [|split; [|done]].
  { unfold process_start, get_state, mbind, M_bind. cbv beta iota. unfold at_process, process_view. rewrite Hnd', Hw. fold v. rewrite Hstart.
    unfold on_gossip. by erewrite zoom_run by exact Hjoin. }
  set (new := mkNode (mkGossip (g_ring (n_gossip s1)) (g_pool (n_gossip nd)) (g_disc g)) (n_store s1) true (n_stopped s1)).
  assert (in_process (mkProcess (g_ring g) (ps_pool p) (back_to a nd (mkNode g (n_store s1) true (n_stopped s1)) (ps_nodes p))) =
    with_ring (g_ring g) <$> <[a := new]> (in_process p)) as ->.
  { unfold in_process at 1. cbn [ps_ring ps_nodes]. apply map_eq. intros n. rewrite !lookup_fmap.
    destruct (decide (n = a)) as [->|Hne]; [rewrite back_self, lookup_insert_eq; simpl; by rewrite Hgr|].
    rewrite lookup_insert_ne by done.
    pose proof (f_equal (.!! n) Hgp) as Hn. rewrite !lookup_fmap in Hn. rewrite Hpool in Hn. unfold v in Hn.
    rewrite lookup_peers, decide_False in Hn by done.
    destruct (g_pool g !! n) as [pr|] eqn:Hpr.
    - erewrite back_peer by done. destruct (in_process p !! n) as [m|]; [|done]. simpl in Hn.
      destruct (n_listening m); [|done]. apply (f_equal (option_map pr_node)) in Hn. rewrite Hgr in Hn |- *. exact Hn.
    - rewrite back_other by done. rewrite lookup_in_process. by destruct (ps_nodes p !! n). }
  apply starting_with_ring; [done| |by rewrite Hgr].
  apply (starting_insert ns up _ a nd'); simpl; [done|done|congruence|congruence|done|apply Hs1|done].
Qed.

Lemma start_nodes_run ns up p clk es :
  NoDup ns → starting ns up (in_process p) → Forall (λ e, e.1 ∈ ns) es →
  ∃ p', start_nodes clk es p = (Ok tt, p') ∧ starting ns (reverse es.*1 ++ up) (in_process p') ∧ ps_pool p' = ps_pool p.
Proof.
  intros Hnd Hs Hes. revert up p Hs. induction Hes as [|e es He Hes IH]; intros up p Hs; [by exists p|].
  destruct (process_start_run ns up p clk e Hnd Hs He) as (p1 & Hrun & Hs1 & Hk1).
  destruct (IH _ p1 Hs1) as (p2 & Hrun2 & Hs2 & Hk2). exists p2. split_and!; [| |by rewrite Hk2].
  - unfold start_nodes in *. cbn [for_each]. by step_M Hrun.
  - csimpl. rewrite reverse_cons, <- app_assoc. exact Hs2.
Qed.

End starting.

(** ** Stopping *)
Section stopping.
Context (clk : NodeInfo → clock).
Implicit Types (p : process) (ns : list NodeInfo) (order : option (list nat)).

(** The nodes [ns] listen, and are what the ring has. *)
Definition serving ns p : Prop :=
  ps_ring p ≡ₚ ns ∧ ∀ n, n ∈ ns → n_listening <$> ps_nodes p !! n = Some true.

(** An asyncio node sends as many requests as there are others, in some order. *)
Definition asks_all (others : nat) order : Prop :=
  match order with None => True | Some order => ∀ i, i < others → i ∈ order end.

Lemma audience_all a k order (g : gossip_state ring world) n :
  n ∈ others a g → asks_all (length (others a g)) (how k order) → n ∈ audience a k order g.
Proof.
  intros Hn Ho. unfold audience. destruct (how k order) as [os|]; [|done]. simpl in *.
  apply list_elem_of_lookup in Hn as [i Hi]. apply list_elem_of_omap. exists i. split; [|done].
  apply Ho. by eapply lookup_lt_Some.
Qed.

(** The pool when a node has stopped. *)
Definition pool_stopped (k : shared_pool) : shared_pool := match k with MuxPool _ => MuxPool true | AsyncPool => AsyncPool end.

(** What a node that stops leaves behind. *)
Lemma process_stop_run a order p nd :
  ps_nodes p !! a = Some nd →
  let v := process_view a clk p nd in
  let told := Exists (λ n, is_Some (g_pool (n_gossip v) !! n)) (audience a (ps_pool p) order (n_gossip v)) in
  ∃ p', process_stop clk (a, order) p = (Ok tt, p') ∧
    ps_ring p' = (if decide told then ring_remove a (ps_ring p) else ps_ring p) ∧
    ps_pool p' = pool_stopped (ps_pool p) ∧
    n_listening <$> ps_nodes p' !! a = Some false ∧
    ∀ n, n ≠ a → n_listening <$> ps_nodes p' !! n = n_listening <$> ps_nodes p !! n.
Proof.
  intros Ha v told.
  destruct (leave_shared a (ps_pool p) order (n_gossip v)) as (g & Hrun & Hh & Hr).
  { intros n pr. unfold v, process_view. rewrite lookup_peers. case_decide; [done|].
    destruct (_ !! n) as [m|]; [|done]. simpl. destruct (n_listening m); [|done]. by intros [= <-]. }
  set (s := mkNode g (n_store v) false true).
  assert (node_stop (announce a (ps_pool p) order (leave_message a)) v = (Ok tt, s)) as Hstop.
  { unfold node_stop, on_gossip, on_pool, mbind, M_bind, modify, zoom. rewrite Hrun. unfold s. by destruct g. }
  exists (mkProcess (g_ring g) (pool_stopped (ps_pool p)) (back_to a nd s (ps_nodes p))).
  split_and!; [|by rewrite Hr|done|cbn [ps_nodes]; by rewrite back_self|].
  - unfold process_stop. unfold get_state at 1, mbind at 1, M_bind at 1. cbv beta iota.
    erewrite M_bind_Ok; [|unfold at_process; rewrite Ha; fold v; by rewrite Hstop]. done.
  - intros n Hne. cbn [ps_nodes]. pose proof (f_equal (.!! n) Hh) as Hn. unfold hears in Hn. rewrite !lookup_fmap in Hn.
    unfold v, process_view in Hn. rewrite lookup_peers, decide_False in Hn by done.
    destruct (g_pool g !! n) as [pr|] eqn:Hpr; [|by rewrite back_other].
    erewrite back_peer by done. simpl in Hn |- *. rewrite lookup_in_process in Hn.
    destruct (ps_nodes p !! n) as [m|]; [|done]. simpl in Hn |- *.
    destruct (n_listening m) eqn:Hl; [|done]. simpl in Hn. by rewrite Hn, <- Hl.
Qed.

Lemma filter_absent a ns : a ∉ ns → filter (λ n, n ≠ a) ns = ns.
Proof. intros Ha. apply filter_every. by intros n Hn ->. Qed.

Lemma store_serving ns keys replication p m :
  ns ≠ [] → is_store replication ns keys (in_process p) m → serving ns p.
Proof.
  intros Hne His. split; [by eapply store_ring|]. intros n Hn. destruct (is_there _ _ _ _ _ His n Hn) as (nd & Hnd & Hl).
  rewrite lookup_in_process in Hnd. destruct (ps_nodes p !! n) as [nd0|]; [|done]. injection Hnd as <-. simpl in *. by rewrite Hl.
Qed.

(** As long as somebody else serves, the node leaves the ring, whether or not the pool is closed. *)
Lemma process_stop_leaves a order ns p :
  NoDup (a :: ns) → ns ≠ [] → serving (a :: ns) p → asks_all (length ns) (how (ps_pool p) order) →
  ∃ p', process_stop clk (a, order) p = (Ok tt, p') ∧ serving ns p' ∧ ps_pool p' = pool_stopped (ps_pool p) ∧
    n_listening <$> ps_nodes p' !! a = Some false ∧
    ∀ n, n ≠ a → n_listening <$> ps_nodes p' !! n = n_listening <$> ps_nodes p !! n.
Proof.
  intros Hnd Hne [Hr Hl] Ho. pose proof (Hl a ltac:(left)) as Ha. destruct (ps_nodes p !! a) as [nd|] eqn:Hnd'; [|done].
  destruct (process_stop_run a order p nd Hnd') as (p' & Hrun & Hr' & Hk' & Hl1 & Hl'). exists p'. split; [done|].
  set (v := process_view a clk p nd) in *. apply NoDup_cons in Hnd as [Hin _].
  assert (others a (n_gossip v) ≡ₚ ns) as Hoth.
  { unfold others. change (r_nodes (g_ring (n_gossip v))) with (ps_ring p). rewrite Hr, filter_cons, decide_False by naive_solver.
    by rewrite filter_absent. }
  split; [|done]. rewrite decide_True in Hr'.
  - split.
    + rewrite Hr', Hr. unfold ring_remove. rewrite filter_cons, decide_False by naive_solver. by rewrite filter_absent.
    + intros n Hn. rewrite Hl' by (by intros ->). apply Hl. by right.
  - destruct ns as [|n ns]; [done|]. apply Exists_exists. exists n. split.
    + apply audience_all; [rewrite Hoth; left|by rewrite Hoth].
    + pose proof (Hl n ltac:(right; left)) as Hn. unfold v, process_view. rewrite lookup_peers.
      rewrite decide_False by (intros ->; apply Hin; left).
      rewrite lookup_in_process. destruct (ps_nodes p !! n) as [m|]; [|done]. simpl in Hn |- *. injection Hn as ->. by eexists.
Qed.

(** The last node has nobody to tell. *)
Lemma process_stop_last a order p nd :
  ps_nodes p !! a = Some nd → ps_ring p = [a] →
  ∃ p', process_stop clk (a, order) p = (Ok tt, p') ∧ ps_ring p' = [a] ∧ ps_pool p' = pool_stopped (ps_pool p) ∧
    n_listening <$> ps_nodes p' !! a = Some false ∧
    ∀ n, n ≠ a → n_listening <$> ps_nodes p' !! n = n_listening <$> ps_nodes p !! n.
Proof.
  intros Ha Hone. destruct (process_stop_run a order p nd Ha) as (p' & Hrun & Hr & Hrest). exists p'. split; [done|].
  rewrite decide_False in Hr; [by rewrite Hr|]. intros (n & Hn & Hp)%Exists_exists.
  assert (n ∈ others a (n_gossip (process_view a clk p nd))) as Hin.
  { unfold audience in Hn. destruct (how _ order) as [os|]; [|done]. apply list_elem_of_omap in Hn as (i & _ & Hi).
    by eapply list_elem_of_lookup_2. }
  unfold others in Hin. change (r_nodes (g_ring (n_gossip (process_view a clk p nd)))) with (ps_ring p) in Hin.
  rewrite Hone in Hin. apply list_elem_of_filter in Hin as [Hne Hin]. by apply list_elem_of_singleton in Hin.
Qed.

(** Stopping always succeeds, and closes the pool of threaded nodes. *)
Lemma stop_nodes_run es p :
  (∀ e, e ∈ es → is_Some (ps_nodes p !! e.1)) → ∃ p', stop_nodes clk es p = (Ok tt, p').
Proof.
  unfold stop_nodes. revert p. induction es as [|[a order] es IH]; intros p Hall; [by exists p|].
  destruct (Hall (a, order) ltac:(left)) as [nd Ha].
  destruct (process_stop_run a order p nd Ha) as (p1 & Hrun & _ & _ & Ha1 & Hl1).
  destruct (IH p1) as (p2 & Hrun2).
  - intros e He. destruct (decide (e.1 = a)) as [->|Hne]; [by destruct (ps_nodes p1 !! a)|].
    destruct (Hall e ltac:(by right)) as [m Hm]. specialize (Hl1 e.1 Hne). rewrite Hm in Hl1. by destruct (ps_nodes p1 !! e.1).
  - exists p2. cbn [for_each]. by step_M Hrun.
Qed.

(** All but the last leave the ring, and none listens any more. *)
Lemma stopped_nodes_leave ns z es p :
  NoDup (ns ++ [z]) → serving (ns ++ [z]) p → es.*1 = ns ++ [z] →
  Forall (λ e, asks_all (length ns) (how (ps_pool p) e.2)) es →
  ∃ p', stop_nodes clk es p = (Ok tt, p') ∧ ps_ring p' = [z] ∧
    (∀ n, n ∈ ns ++ [z] → n_listening <$> ps_nodes p' !! n = Some false) ∧
    (∀ n, n ∉ ns ++ [z] → n_listening <$> ps_nodes p' !! n = n_listening <$> ps_nodes p !! n) ∧
    ps_pool p' = pool_stopped (ps_pool p).
Proof.
  unfold stop_nodes. intros Hnd Hs Hes Ho.
  revert es p Hnd Hs Hes Ho. induction ns as [|n ns IH]; intros es p Hnd Hs Hes Ho.
  - destruct es as [|[a order] [|? ?]]; try done. injection Hes as ->.
    destruct Hs as [Hr Hl]. apply Permutation_singleton_r in Hr. pose proof (Hl z ltac:(left)) as Hz.
    destruct (ps_nodes p !! z) as [nd|] eqn:Hnd'; [|done].
    destruct (process_stop_last z order p nd Hnd' Hr) as (p' & Hrun & Hr' & Hk' & Hz' & Hl').
    exists p'. split_and!; [cbn [for_each]; by step_M Hrun|done|by intros n ->%list_elem_of_singleton| |done].
    intros n Hn. apply Hl'. intros ->. apply Hn. left.
  - destruct es as [|[a order] es]; [done|]. injection Hes as -> Hes. apply Forall_cons in Ho as [Hall Ho].
    pose proof Hnd as [Hin Hnd']%NoDup_cons.
    destruct (process_stop_leaves n order (ns ++ [z]) p) as (p1 & Hrun & Hs1 & Hk1 & Hn1 & Hl1); [done|by destruct ns|done| |].
    { by rewrite length_app, Nat.add_1_r. }
    destruct (IH es p1) as (p2 & Hrun2 & Hr2 & Hl2 & Ho2 & Hk2); [done..| |].
    { eapply Forall_impl; [exact Ho|]. intros e. rewrite Hk1. destruct (ps_pool p); [done|]. intros Hall' i Hi. apply Hall'. simpl. lia. }
    exists p2. split_and!; [cbn [for_each]; by step_M Hrun|done| | |by rewrite Hk2, Hk1; destruct (ps_pool p)].
    + intros m [->|Hm]%elem_of_cons; [by rewrite Ho2|by apply Hl2].
    + intros m Hm. rewrite Ho2 by (intros ?; apply Hm; by right). apply Hl1. intros ->. apply Hm. left.
Qed.

(** C7. Stopped nodes linger in a shared ring.  Nodes of one process, all serving, are stopped one
    after the other, asyncio nodes telling all the others, with no gossip round in between.  Every node but the last leaves
    the ring, for some peer still hears that it leaves, and that even when the first threaded one has closed their pool.
    But a node does not take itself out, and the last has nobody to tell: it stays in the ring, although it does not
    listen any more.  There it is a member to every node of its class that is later constructed in that process with the
    default ring; and if the nodes are threaded the pool these get is closed. *)
Theorem stopped_nodes_linger ns z es p :
  NoDup (ns ++ [z]) → serving (ns ++ [z]) p → es.*1 = ns ++ [z] →
  Forall (λ e, asks_all (length ns) (how (ps_pool p) e.2)) es →
  ∃ p', stop_nodes clk es p = (Ok tt, p') ∧ ps_ring p' = [z] ∧
    (∀ n, n ∈ ns ++ [z] → n_listening <$> ps_nodes p' !! n = Some false) ∧
    ps_pool p' = match ps_pool p with MuxPool _ => MuxPool true | AsyncPool => AsyncPool end.
Proof.
  intros Hnd Hs Hes Ho. destruct (stopped_nodes_leave ns z es p Hnd Hs Hes Ho) as (p' & ? & ? & ? & _ & ?). by exists p'.
Qed.
End stopping.

(** Nodes that are one store, given the same ring. *)
Lemma store_with_ring replication r ns keys fl m :
  ring_wf r → r ≡ₚ ns → is_store replication ns keys fl m → is_store replication ns keys (with_ring r <$> fl) m.
Proof.
  intros Hwf Hr [Hw Hri Hth Hun Hpl Hag Hdur]. constructor; [| | |done..| |done].
  - intros n nd (nd0 & <- & Hn)%lookup_fmap_Some. by apply (Hw n nd0).
  - by intros n nd (nd0 & <- & Hn)%lookup_fmap_Some.
  - intros n Hn. destruct (Hth n Hn) as (nd & Hnd & Hl). exists (with_ring r nd). by rewrite lookup_fmap, Hnd.
  - intros key n Hk Hn. rewrite <- (Hag key n Hk Hn). unfold register. rewrite lookup_fmap. by destruct (fl !! n).
Qed.

(** Nodes constructed in a new process. *)
Lemma starting_new `{Resolver} ns k (nodes : list (NodeInfo * node_state ring script)) :
  starting ns [] (list_to_map nodes) → (∀ n nd, (n, nd) ∈ nodes → g_ring (n_gossip nd) = []) →
  starting ns [] (in_process (mkProcess [] k (list_to_map nodes))).
Proof.
  intros Hs Hall. replace (in_process _) with (list_to_map nodes : fleet); [done|].
  unfold in_process. cbn [ps_ring ps_nodes]. apply map_eq. intros n. rewrite lookup_fmap.
  destruct (list_to_map nodes !! n) as [nd|] eqn:Hn; [|done]. simpl. f_equal. symmetry. apply with_ring_id.
  apply (Hall n). by apply elem_of_list_to_map_2.
Qed.

Section samples.
#[local] Existing Instance no_resolver.

Lemma sample_process `{Resolver} k : starting sample_ring [] (in_process (mkProcess [] k (list_to_map sample_nodes))).
Proof.
  apply starting_new; [apply sample_starting|]. intros n nd Hn.
  repeat (apply elem_of_cons in Hn as [[= _ ->]|Hn]; [done|]). by apply not_elem_of_nil in Hn.
Qed.

(** The sample calls through nodes with this pool. *)
Definition calls_with (k : shared_pool) : list client_call :=
  (λ cl, mkCall (c_via cl) (match k with MuxPool _ => None | AsyncPool => Some (default [0; 1] (c_order cl)) end)
           (c_clock cl) (c_op cl)) <$> sample_calls.

Lemma calls_with_ok k : Forall (call_ok 2 sample_ring sample_keys) (calls_with k).
Proof.
  apply Forall_fmap. pose proof sample_calls_ok as Hok. repeat (apply Forall_cons in Hok as [Hcl Hok]; apply Forall_cons; split;
    [clear Hok|clear Hcl]); [..|by apply Forall_nil]; destruct Hcl as (Hv & Hl & Ho); (split; [exact Hv|split; [exact Hl|]]);
    destruct k; [exact I| |exact I| |exact I| |exact I| |exact I| |exact I| |exact I|];
    by apply (bool_decide_eq_true_1 (_ ≡ₚ _)); vm_compute.
Qed.

Lemma calls_with_suit k k' : pool_stopped k = pool_stopped k' → Forall (suits k) (calls_with k').
Proof. intros Hk. apply Forall_fmap, Forall_true. intros cl. by destruct k, k'. Qed.

Definition sample_running (k : shared_pool) : process := mkProcess sample_ring k sample_fleet.

Lemma sample_running_store keys k :
  (∀ key, key ∈ keys → no_ties key sample_ring) → pool_closed k = false →
  one_store 2 sample_ring keys k (sample_running k) ∅.
Proof. intros Hun. split; [|done]. apply store_with_ring; [apply sample_ring_wf|done|by apply sample_fleet_store]. Qed.

Lemma sample_running_serving k : serving sample_ring (sample_running k).
Proof. eapply (store_serving sample_ring); [done|]. apply store_with_ring; [apply sample_ring_wf|done|apply sample_fleet_store, sample_no_ties]. Qed.

Definition sample_node1 : node_state ring script :=
  mkNode (mkGossip sample_ring [] (StaticDiscovery [node2; node3])) [] true false.

Lemma shared_defaults_witness :
  let cl := mkCall node1 None (wall 5) (CSet "greeting" (VInt 1) None) in
  (∃ r p', process_calls 2 (calls_with AsyncPool) (sample_running AsyncPool) = (r, p') ∧
    do_calls 2 (calls_with AsyncPool) (in_process (sample_running AsyncPool)) = (r, in_process p') ∧
    ps_ring p' = sample_ring ∧ ps_pool p' = AsyncPool) ∧
  ∃ r r' p' alone', process_call 2 cl (sample_running (MuxPool true)) = (Ok r, p') ∧
    do_call 2 cl (in_process (sample_running (MuxPool true))) = (Ok r', in_process p') ∧
    do_call 2 cl {[node1 := with_ring sample_ring sample_node1]} = (Ok r, alone') ∧
    ps_ring p' = sample_ring ∧ ps_pool p' = MuxPool true.
Proof.
  set (cl := mkCall node1 None (wall 5) (CSet "greeting" (VInt 1) None)). split.
  - apply (shared_defaults 2 (calls_with AsyncPool) (mkCall node1 (Some [0; 1]) (wall 5) (CGet "greeting")) sample_node1
      (sample_running AsyncPool)); [|reflexivity].
    apply Forall_cons. split; [reflexivity|by apply calls_with_suit].
  - apply (shared_defaults 2 [] cl sample_node1 (sample_running (MuxPool true))); [|reflexivity|vm_compute; reflexivity].
    apply Forall_singleton. reflexivity.
Defined.

(** A write that reaches its replicas, both of them other nodes, and is reported as failed. *)
Example closed_pool_write :
  let cl := mkCall node1 None (wall 5) (CSet "data" (VInt 1) None) in
  let st := process_call 2 cl (sample_running (MuxPool true)) in
  (node1 ∉ ring_get_nodes sample_ring "data" 2) ∧
  st.1 = Ok (RDone false) ∧
  (λ n, e_cell <$> register (in_process st.2) n "data") <$> ring_get_nodes sample_ring "data" 2 =
    [Some (Val (VInt 1)); Some (Val (VInt 1))].
Proof. split; [apply (bool_decide_eq_true_1 (_ ∉ _)); vm_compute; reflexivity|]. split; vm_compute; reflexivity. Qed.


Lemma stopped_nodes_linger_witness :
  (∃ p', stop_nodes (wall 9) [(node1, None); (node2, None); (node3, None)] (sample_running (MuxPool false)) = (Ok tt, p') ∧
     ps_ring p' = [node3] ∧ (∀ n, n ∈ [node1; node2; node3] → n_listening <$> ps_nodes p' !! n = Some false) ∧
     ps_pool p' = MuxPool true) ∧
  ∃ p', stop_nodes (wall 9) [(node1, Some [1; 0]); (node2, Some [0; 1]); (node3, Some [0; 1])] (sample_running AsyncPool) = (Ok tt, p') ∧
     ps_ring p' = [node3] ∧ (∀ n, n ∈ [node1; node2; node3] → n_listening <$> ps_nodes p' !! n = Some false) ∧
     ps_pool p' = AsyncPool.
Proof.
  split.
  - apply (stopped_nodes_linger (wall 9) [node1; node2] node3 [(node1, None); (node2, None); (node3, None)] (sample_running (MuxPool false)));
      [apply sample_ring_wf|apply sample_running_serving|reflexivity|by repeat constructor].
  - apply (stopped_nodes_linger (wall 9) [node1; node2] node3 [(node1, Some [1; 0]); (node2, Some [0; 1]); (node3, Some [0; 1])]
      (sample_running AsyncPool)); [apply sample_ring_wf|apply sample_running_serving|reflexivity|].
    repeat (apply Forall_cons; split); [..|by apply Forall_nil]; cbn; intros [|[|?]] ?; set_solver by lia.
Defined.
End samples.
