(* ===== verification/ProcessGossip.v ===== *)
(** * Gossip in one process

    What the gossip rounds of nodes do that share the default ring: they teach nobody
    anything, and they evict for all.  A request and what becomes of its reply are separate steps, for other rounds
    read and write the same ring in between. *)
From S2P Require Import Prelude Async Threads PyBase PyDict Types Store LwwStore Ring Dispatcher.
From S2P Require Import PoolOps Consistency Discovery Gossip GossipSpec Node NodeSpec Replicas Cluster ClusterSpec ClusterTtl.
From S2P Require Import Fleet Startup Process.

#[local] Existing Instance scripted_pool.

(** ** Exchanges *)
Section exchanges.
Context (clk : NodeInfo → clock) (a : NodeInfo).

(** A step of the gossip of the node [a]. *)
Definition own {A} (m : M (gossip_state ring world) A) : M process A := at_process a clk (on_gossip m).

(** [self._pool.execute(peer.host, peer.port, Message(PEER_LIST, ...))]: the peer answers out of the ring as it finds it. *)
Definition ask (n : NodeInfo) : M process (option Message) := 
  p ← get_state; own (shared_send (ps_closed p) (list_request a) n).

(** [for x in xs: body]. *)
Fixpoint each {S A} (xs : list A) (body : A → prog S unit) : prog S unit :=
  match xs with [] => mret tt | x :: xs => body x ;; each xs body end.

(** [Gossip._gossip_with]: other threads run between any two accesses to the ring.  [_evict], and [learn], touch it once;
    the discovery is the node's own. *)
Definition thread_take_in (peer : NodeInfo) (resp : option Message) : prog process unit :=
  match resp with
  | None => act (own (_evict peer))
  | Some resp =>
      if decide (m_type resp = PEER_LIST) then
        known ← act (own (g ← get_state; mret (r_nodes (g_ring g))));
        peers ← (Ret (payload_get p_peers resp) : prog process _);
        each (default [] peers) (λ raw, act (own (learn a known raw)))
      else mret tt
  end.

Definition thread_gossip_with (peer : NodeInfo) : prog process unit :=
  prog_try (resp ← act (ask peer); thread_take_in peer resp) (λ _, act (own (_evict peer))).

(** [AsyncGossip._gossip_with]: other coroutines run while the request is awaited, and not after that. *)
Definition coroutine_gossip_with (peer : NodeInfo) : prog process unit :=
  Act (ask peer) (λ resp, act (own (try_except (resp ← lift_result resp; take_in a peer resp) (λ _, _evict peer)))).

(** One iteration of [gossip_loop], [choose] being [random.sample(peers, min(3, len))]: the peers drawn, and a thread that
    talks to them in turn or a coroutine for each of them.  The rounds of other nodes do not change what the node discovers,
    so that it is the same when they begin. *)
Definition drawn `{Resolver} (choose : list NodeInfo → list NodeInfo) (p : process) : list NodeInfo :=
  match ps_nodes p !! a with
  | None => []
  | Some nd =>
      match get_peers (g_disc (n_gossip nd)) with
      | Raise _ => []
      | Ok listed =>
          match filter (λ n, n ≠ a) listed with
          | [] => []
          | peers => choose peers
          end
      end
  end.

Definition process_gossip `{Resolver} (choose : list NodeInfo → list NodeInfo) (p : process) : list (prog process unit) :=
  match ps_pool p with
  | MuxPool _ => [prog_try (each (drawn choose p) thread_gossip_with) (λ _, mret tt)]
  | AsyncPool => coroutine_gossip_with <$> drawn choose p
  end.
End exchanges.

(** ** Steps of the gossip *)

(** Who is there, and listens. *)
Definition ears (p : process) : gmap NodeInfo bool := n_listening <$> ps_nodes p.

(** The node can be reached by the others of the process, and they hear what it says. *)
Definition answers_to (p : process) (n : NodeInfo) : Prop := ps_closed p = false ∧ ears p !! n = Some true.

#[export] Instance answers_to_dec p n : Decision (answers_to p n).
Proof. unfold answers_to. apply _. Defined.

Section steps.
Context (clk : NodeInfo → clock) (a : NodeInfo).
Implicit Types (p : process) (g : gossip_state ring world) (n : NodeInfo) (ns : list NodeInfo).

Lemma view_pool p nd n :
  g_pool (n_gossip (process_view a clk p nd)) !! n = if decide (n = a) then None else
    nd' ← in_process p !! n; if n_listening nd' then Some (mkPeer nd' [] (clk n)) else None.
Proof. apply lookup_peers. Qed.

Lemma view_calm p nd : calm (n_gossip (process_view a clk p nd)).
Proof.
  intros n pr. rewrite view_pool. case_decide; [done|]. destruct (_ !! n) as [m|]; [|done]. simpl.
  destruct (n_listening m); [|done]. by intros [= <-].
Qed.

Lemma view_hears p nd n : n ≠ a → is_Some (g_pool (n_gossip (process_view a clk p nd)) !! n) ↔ ears p !! n = Some true.
Proof.
  intros Hne. rewrite view_pool, decide_False, lookup_in_process by done. unfold ears. rewrite lookup_fmap.
  destruct (ps_nodes p !! n) as [m|]; simpl; [|split; [by intros [??]|done]].
  destruct (n_listening m); split; intros Hx; [done|by eexists|by destruct Hx|done].
Qed.

(** A step that leaves the peers where they are. *)
Lemma own_run {A} (m : M (gossip_state ring world) A) p nd :
  ps_nodes p !! a = Some nd → let g := n_gossip (process_view a clk p nd) in hears (m g).2 = hears g →
  ∃ p', own clk a m p = ((m g).1, p') ∧ ps_ring p' = g_ring (m g).2 ∧ ps_pool p' = ps_pool p ∧ ears p' = ears p.
Proof.
  intros Ha g Hh. unfold own, at_process, on_gossip, zoom. rewrite Ha. fold g. destruct (m g) as [r g'] eqn:Hm. simpl in Hh.
  eexists. split; [reflexivity|]. split; [done|]. split; [done|]. unfold ears. cbn [ps_nodes]. apply map_eq. intros n.
  rewrite !lookup_fmap. destruct (decide (n = a)) as [->|Hne]; [by rewrite back_self, Ha|].
  apply (f_equal (.!! n)) in Hh. unfold hears in Hh. rewrite !lookup_fmap in Hh. unfold g in Hh at 1.
  rewrite view_pool, decide_False, lookup_in_process in Hh by done.
  destruct (g_pool g' !! n) as [pr|] eqn:Hpr; [|by rewrite back_other]. erewrite back_peer by done. simpl in *.
  destruct (ps_nodes p !! n) as [nd'|]; [|done]. simpl in *. destruct (n_listening nd') eqn:Hl; [|done]. simpl in Hh. by rewrite Hh, Hl.
Qed.

(** What the peer answers is what the node knows: they have the same ring. *)
Definition list_reply n (r : ring) : Message :=
  mkMessage PEER_LIST (Some (peers_fields (node_to_dict <$> filter (λ m, m ≠ n) r))).

Lemma list_shared closed n g pr :
  calm g → g_pool g !! n = Some pr →
  shared_send closed (list_request a) n g =
    (Ok (if closed then None else Some (list_reply n (g_ring g))),
     mkGossip (g_ring g) (<[n := peer_with_ring (g_ring g) pr]> (g_pool g)) (g_disc g)).
Proof.
  intros Hc Hn. unfold shared_send. rewrite Hn. pose proof (Hc n pr Hn) as Hnet.
  unfold visit, handled, answer. cbn [peer_with_ring pr_net pr_node pr_clock]. rewrite Hnet.
  change (is_gossip _) with true. cbv iota. unfold on_gossip, zoom, handle_message, list_request. unfold_M.
  cbn [m_type with_ring n_gossip]. unfold peer_with_ring. rewrite Hnet. by destruct closed.
Qed.

Lemma ask_run n p :
  is_Some (ears p !! a) → n ≠ a →
  ∃ p', ask clk a n p = (Ok (if decide (answers_to p n) then Some (list_reply n (ps_ring p)) else None), p') ∧
    ps_ring p' = ps_ring p ∧ ps_pool p' = ps_pool p ∧ ears p' = ears p.
Proof.
  intros Ha Hne. unfold ears in Ha. rewrite lookup_fmap, fmap_is_Some in Ha. destruct Ha as [nd Ha].
  set (g := n_gossip (process_view a clk p nd)). pose proof (view_hears p nd n Hne) as Hv. fold g in Hv.
  assert (∃ g', shared_send (ps_closed p) (list_request a) n g =
      (Ok (if decide (answers_to p n) then Some (list_reply n (ps_ring p)) else None), g') ∧
    hears g' = hears g ∧ g_ring g' = ps_ring p) as (g' & Hrun & Hh & Hr).
  { destruct (g_pool g !! n) as [pr|] eqn:Hn.
    - rewrite (list_shared _ n g pr (view_calm p nd) Hn). assert (ears p !! n = Some true) as He by (by apply Hv).
      exists (mkGossip (g_ring g) (<[n := peer_with_ring (g_ring g) pr]> (g_pool g)) (g_disc g)). split; [|split; [|done]].
      + destruct (ps_closed p) eqn:Hc; [rewrite decide_False by (intros [? _]; congruence)|rewrite decide_True by done]; done.
      + unfold hears. cbn [g_pool]. rewrite fmap_insert. apply insert_id. by rewrite lookup_fmap, Hn.
    - exists g. unfold shared_send. rewrite Hn, decide_False; [by split_and!|]. intros [_ He%Hv]. by destruct He. }
  destruct (own_run (shared_send (ps_closed p) (list_request a) n) p nd Ha) as (p' & Hown & Hr' & Hk & He);
    fold g; [by rewrite Hrun|]. fold g in Hown, Hr'. rewrite Hrun in Hown, Hr'. cbn [fst snd] in Hown, Hr'.
  exists p'. split_and!; [|congruence|done..]. unfold ask, get_state, mbind, M_bind. exact Hown.
Qed.

Lemma evict_run n p :
  is_Some (ears p !! a) →
  ∃ p', own clk a (_evict n) p = (Ok tt, p') ∧ ps_ring p' = ring_remove n (ps_ring p) ∧ ps_pool p' = ps_pool p ∧ ears p' = ears p.
Proof.
  intros Ha. unfold ears in Ha. rewrite lookup_fmap, fmap_is_Some in Ha. destruct Ha as [nd Ha].
  by destruct (own_run (_evict n) p nd Ha) as (p' & Hrun & Hrest); [|exists p'].
Qed.

(** Who is learned from an entry of a reply. *)
Lemma learn_run known m g :
  ∃ g', learn a known (node_to_dict m) g = (Ok tt, g') ∧ g_pool g' = g_pool g ∧ g_ring g ⊆ g_ring g' ∧
    (∀ x, x ∈ g_ring g' → x ∈ g_ring g ∨ (x = m ∧ m ∉ known)).
Proof.
  unfold learn. unfold_M. rewrite node_from_to_dict. case_decide as Hd; [|exists g; split_and!; [done..|by left]].
  eexists. split; [reflexivity|]. split; [done|]. cbn [set_members g_ring r_add rendezvous_ring]. split.
  - intros x Hx. apply elem_of_ring_add. by right.
  - intros x [->|?]%elem_of_ring_add; [right; by destruct Hd|by left].
Qed.

Lemma learn_all known ms g :
  ∃ g', for_each (node_to_dict <$> ms) (learn a known) g = (Ok tt, g') ∧ g_pool g' = g_pool g ∧ g_ring g ⊆ g_ring g' ∧
    (∀ x, x ∈ g_ring g' → x ∈ g_ring g ∨ (x ∈ ms ∧ x ∉ known)).
Proof.
  revert g. induction ms as [|m ms IH]; intros g; [exists g; split_and!; [done..|by left]|].
  destruct (learn_run known m g) as (g1 & Hrun1 & Hp1 & Hs1 & Hx1). destruct (IH g1) as (g2 & Hrun2 & Hp2 & Hs2 & Hx2).
  exists g2. csimpl. split_and!; [by step_M Hrun1|congruence|by etrans|].
  intros x [[?|[-> ?]]%Hx1|[??]]%Hx2; [by left|right; split; [by left|done]|right; split; [by right|done]].
Qed.

Lemma learn_step known m p :
  is_Some (ears p !! a) →
  ∃ p', own clk a (learn a known (node_to_dict m)) p = (Ok tt, p') ∧ ps_pool p' = ps_pool p ∧ ears p' = ears p ∧
    ps_ring p ⊆ ps_ring p' ∧ (∀ x, x ∈ ps_ring p' → x ∈ ps_ring p ∨ (x = m ∧ m ∉ known)).
Proof.
  intros Ha. unfold ears in Ha. rewrite lookup_fmap, fmap_is_Some in Ha. destruct Ha as [nd Ha].
  destruct (learn_run known m (n_gossip (process_view a clk p nd))) as (g' & Hrun & Hp & Hs & Hx).
  destruct (own_run (learn a known (node_to_dict m)) p nd Ha) as (p' & Hown & Hr & Hk & He); rewrite Hrun in *;
    [unfold hears; simpl; by rewrite Hp|]. exists p'. rewrite Hr. by split_and!.
Qed.
End steps.

(** ** Exchanges beside others

    [p0] is the process before, [C] the peers that anybody contacts, and [sole] says that there is one task only. *)
Section beside.
Context (clk : NodeInfo → clock) (p0 : process) (C : list NodeInfo) (sole : Prop).
Implicit Types (p s : process) (n : NodeInfo) (D ms : list NodeInfo).

(** Nobody learns from a reply who is not in the ring already: no reply arrives, or none is overtaken. *)
Definition quiet : Prop := ps_closed p0 = true ∨ sole.

(** Nobody new is in the ring, and those who answer or are not contacted are. *)
Record kept p : Prop := {
  kp_old : ps_ring p ⊆ ps_ring p0;
  kp_stays n : n ∈ ps_ring p0 → (n ∈ C → answers_to p0 n) → n ∈ ps_ring p;
  kp_pool : ps_pool p = ps_pool p0;
  kp_ears : ears p = ears p0;
}.

Definition gossips (i : nat) p p' : Prop :=
  (sole → i = 0) ∧ (kept p → kept p' ∧ (quiet → ps_ring p' ⊆ ps_ring p)).

(** A task that has dealt with the peers [D] and, when it is the only one, has still to learn members [ms] that it knows. *)
Record so_far D ms p : Prop := {
  sf_kept : kept p;
  sf_gone n : quiet → n ∈ D → answers_to p0 n ∨ n ∉ ps_ring p;
  sf_known : sole → ms ⊆ ps_ring p;
}.

Lemma so_far_stable i D ms : (sole → i = 0) → stable_for gossips i (so_far D ms).
Proof.
  intros Hi j p p' Hne [Hk Hg Hms] [Hj HG]. destruct (HG Hk) as [Hk' Hq]. split; [done| |].
  - intros n Hquiet Hn. destruct (Hg n Hquiet Hn) as [?|Hout]; [by left|right]. intros Hin. by apply Hout, Hq.
  - intros Hs. rewrite (Hi Hs), (Hj Hs) in Hne. done.
Qed.

Lemma answers_kept p n : kept p → answers_to p n ↔ answers_to p0 n.
Proof. intros Hk. unfold answers_to, ps_closed. by rewrite (kp_pool _ Hk), (kp_ears _ Hk). Qed.

Lemma so_far_weaken D D' ms ms' p : so_far D ms p → D' ⊆ D → ms' ⊆ ms → so_far D' ms' p.
Proof. intros [Hk Hg Hms] HD Hm. split; [done|by intros n Hq Hn%HD; apply Hg|]. intros Hs. etrans; [exact Hm|by apply Hms]. Qed.

Section task.
Context (i : nat) (Hi : sole → i = 0) (a : NodeInfo) (Ha : is_Some (ears p0 !! a)).
Abbreviation rgg := (rg gossips i).

(** One action: its outcome, as [φ] says, and what is known after it. *)
Lemma rg_one {X} D ms (m : M process X) (D' : list NodeInfo) (ks : result X → list NodeInfo) (φ : result X → Prop) :
  (∀ p, so_far D ms p → (kept p → kept (m p).2 ∧ (quiet → ps_ring (m p).2 ⊆ ps_ring p)) ∧
     so_far D' (ks (m p).1) (m p).2 ∧ φ (m p).1) →
  rgg (so_far D ms) (act m) (λ r p, so_far D' (ks r) p ∧ φ r).
Proof.
  intros Hm. apply rg_act.
  - intros r j p p' Hne [Hs Hφ] HG. split; [|done]. by eapply so_far_stable.
  - intros p Hp. destruct (Hm p Hp) as (HG & Hs & Hφ). by split.
Qed.

Lemma rg_then {X Y} D ms (c : prog process X) D' (ks : result X → list NodeInfo) φ (f : X → prog process Y) Q :
  rgg (so_far D ms) c (λ r p, so_far D' (ks r) p ∧ φ r) → (∀ e, ¬ φ (Raise e)) →
  (∀ x, φ (Ok x) → rgg (so_far D' (ks (Ok x))) (f x) Q) → rgg (so_far D ms) (c ≫= f) Q.
Proof.
  intros Hc He Hf. apply (rg_bind _ i _ (λ x p, so_far D' (ks (Ok x)) p ∧ φ (Ok x))).
  - eapply rg_mono; [exact Hc|done|]. intros [x|e] p [? Hφ]; [done|by destruct (He e)].
  - intros x. specialize (Hf x). destruct (f x) as [r|Y' m k]; [intros p [Hp Hφ]; by apply (Hf Hφ)|].
    intros p [Hp Hφ]. by apply Hf.
Qed.

(** A handler that is not needed. *)
Lemma rg_untried {X} D ms (c : prog process X) h Q :
  rgg (so_far D ms) c (λ r p, Q r p ∧ ∃ x, r = Ok x) → rgg (so_far D ms) (prog_try c h) Q.
Proof.
  intros Hc. apply (rg_try _ i _ (λ _ _, False)).
  - eapply rg_mono; [exact Hc|done|]. intros r p [HQ [x ->]]. done.
  - intros e. destruct (h e) as [r|Y m k]; [by intros p|]. by intros p.
Qed.

(** The reply to a request, if there is one. *)
Definition replied n (r : result (option Message)) ms : Prop :=
  match r with
  | Ok (Some resp) => ∃ r, r ⊆ ps_ring p0 ∧ resp = list_reply n r ∧ ms = filter (λ m, m ≠ n) r ∧ ps_closed p0 = false ∧ answers_to p0 n
  | Ok None => ¬ answers_to p0 n
  | Raise _ => False
  end.

(** The members that a reply tells of. *)
Definition told_of (r : result (option Message)) : list NodeInfo :=
  match r with
  | Ok (Some resp) => match payload_get p_peers resp with
    | Ok (Some raws) => omap (λ raw, match node_from_dict raw with Ok m => Some m | Raise _ => None end) raws
    | _ => [] end
  | _ => []
  end.

Lemma told_of_reply n r : told_of (Ok (Some (list_reply n r))) = filter (λ m, m ≠ n) r.
Proof.
  unfold told_of, list_reply, payload_get. cbn [m_payload peers_fields p_peers]. generalize (filter (λ m, m ≠ n) r) as l.
  intros l. induction l as [|m l IH]; [done|]. rewrite fmap_cons. cbn [omap list_omap]. by rewrite node_from_to_dict, IH.
Qed.

Lemma ask_here n D p :
  n ≠ a → so_far D [] p → let m := ask clk a n in
  (kept p → kept (m p).2 ∧ (quiet → ps_ring (m p).2 ⊆ ps_ring p)) ∧
  so_far D (told_of (m p).1) (m p).2 ∧ replied n (m p).1 (told_of (m p).1).
Proof.
  intros Hne Hp. cbv zeta. pose proof (sf_kept _ _ _ Hp) as Hk. destruct (ask_run clk a n p) as (p' & -> & Hr & Hpl & He); [|done|].
  { by rewrite (kp_ears _ Hk). }
  assert (kept p') as Hk'.
  { destruct Hk as [H1 H2 H3 H4]. split; [by rewrite Hr|by rewrite Hr|congruence|congruence]. }
  cbn [fst snd]. pose proof (answers_kept p n Hk) as Han. split; [intros _; split; [done|by rewrite Hr]|].
  case_decide as Hd.
  - rewrite told_of_reply. split.
    + split; [done| |].
      * intros m Hq Hm. rewrite Hr. by apply (sf_gone _ _ _ Hp).
      * intros _ x Hx. apply list_elem_of_filter in Hx as [_ Hx]. by rewrite Hr.
    + exists (ps_ring p). split_and!; [apply Hk|done..| |by apply Han]. by apply Han in Hd as [? _].
  - split; [|by intros Hx%Han]. split; [done| |by intros _ x ?%elem_of_nil].
    intros m Hq Hm. rewrite Hr. by apply (sf_gone _ _ _ Hp).
Qed.

Lemma evict_here n D p :
  n ∈ C → ¬ answers_to p0 n → so_far D [] p → let m := own clk a (_evict n) in
  (kept p → kept (m p).2 ∧ (quiet → ps_ring (m p).2 ⊆ ps_ring p)) ∧ so_far (n :: D) [] (m p).2 ∧ (m p).1 = Ok tt.
Proof.
  intros Hn Hna Hp. cbv zeta. pose proof (sf_kept _ _ _ Hp) as Hk. destruct (evict_run clk a n p) as (p' & -> & Hr & Hpl & He).
  { by rewrite (kp_ears _ Hk). }
  assert (ps_ring p' ⊆ ps_ring p) as Hsub by (rewrite Hr; intros x [_ ?]%list_elem_of_filter; done).
  assert (kept p') as Hk'.
  { destruct Hk as [H1 H2 H3 H4]. split; [by etrans| |congruence|congruence]. intros m Hm Hans. rewrite Hr.
    apply list_elem_of_filter. split; [|by apply H2]. intros ->. by apply Hna, Hans. }
  cbn [fst snd]. split; [done|]. split; [|done]. split; [done| |by intros _ x ?%elem_of_nil].
  intros m Hq [->|Hm]%elem_of_cons.
  - right. rewrite Hr. by intros [? _]%list_elem_of_filter.
  - destruct (sf_gone _ _ _ Hp m Hq Hm) as [?|Hout]; [by left|right]. intros Hin. by apply Hout, Hsub.
Qed.

(** Somebody is added to the ring: one of those told of, if he was not known. *)
Lemma added_here D ms known p p' :
  so_far D ms p → ps_closed p0 = false → ms ⊆ ps_ring p0 → (sole → ms ⊆ known) →
  ps_pool p' = ps_pool p → ears p' = ears p → ps_ring p ⊆ ps_ring p' →
  (∀ x, x ∈ ps_ring p' → x ∈ ps_ring p ∨ (x ∈ ms ∧ x ∉ known)) →
  (kept p → kept p' ∧ (quiet → ps_ring p' ⊆ ps_ring p)) ∧ so_far D ms p'.
Proof.
  intros Hp Hc Hms Hkn Hpl He Hsub Hx. pose proof (sf_kept _ _ _ Hp) as Hk.
  assert (kept p') as Hk'.
  { destruct Hk as [H1 H2 H3 H4]. split; [|by intros m Hm Ha'; apply Hsub, H2|congruence|congruence].
    intros x [?|[??]]%Hx; [by apply H1|by apply Hms]. }
  assert (quiet → ps_ring p' ⊆ ps_ring p) as Hq.
  { intros [?|Hs] x [?|[Hin Hout]]%Hx; [congruence|congruence|done|]. by destruct Hout; apply Hkn. }
  split; [done|]. split; [done| |intros Hs; etrans; [by apply (sf_known _ _ _ Hp)|done]].
  intros m Hqu Hm. destruct (sf_gone _ _ _ Hp m Hqu Hm) as [?|Hout]; [by left|right]. intros Hin. by apply Hout, Hq.
Qed.

(** *** An exchange *)
Section exchange.
Context (n : NodeInfo) (D : list NodeInfo) (Hna : n ≠ a) (HC : n ∈ C).

Lemma ends_dealt_with r ms p : replied n r ms → r ≠ Ok None → so_far D ms p → so_far (n :: D) [] p.
Proof.
  intros Hr Hne Hp. destruct r as [[resp|]|e]; [|done|done]. destruct Hr as (r & _ & _ & _ & _ & Hans).
  destruct Hp as [Hk Hg _]. split; [done| |by intros _ x ?%elem_of_nil]. intros m Hq [->|Hm]%elem_of_cons; [by left|by apply Hg].
Qed.

Lemma rg_evict : ¬ answers_to p0 n → rgg (so_far D []) (act (own clk a (_evict n))) (λ r p, so_far (n :: D) [] p ∧ r = Ok tt).
Proof.
  intros Hans. apply (rg_one D [] _ (n :: D) (λ _, []) (λ r, r = Ok tt)). intros p Hp.
  by destruct (evict_here n D p HC Hans Hp) as (HG & Hs & ->).
Qed.

Lemma rg_each_learn known ms0 ms : ps_closed p0 = false → ms0 ⊆ ps_ring p0 → ms ⊆ ms0 → (sole → ms0 ⊆ known) →
  rgg (so_far D ms0) (each (node_to_dict <$> ms) (λ raw, act (own clk a (learn a known raw))))
    (λ r p, so_far D ms0 p ∧ r = Ok tt).
Proof.
  intros Hc Hms0 Hms Hkn. induction ms as [|m ms IH]; [by intros p Hp|]. rewrite fmap_cons. cbn [each].
  apply (rg_then D ms0 _ D (λ _, ms0) (λ r, r = Ok tt)); [|done|intros [] _; apply IH; intros x Hx; apply Hms; by right].
  apply (rg_one D ms0 _ D (λ _, ms0) (λ r, r = Ok tt)). intros p Hp.
  destruct (learn_step clk a known m p) as (p' & -> & Hpl & He & Hsub & Hx); [by rewrite (kp_ears _ (sf_kept _ _ _ Hp))|].
  cbn [fst snd]. destruct (added_here D ms0 known p p' Hp Hc Hms0 Hkn Hpl He Hsub) as [HG Hs]; [|done].
  intros x [?|[-> ?]]%Hx; [by left|]. right. split; [apply Hms; left|done].
Qed.

Lemma rg_thread_exchange : rgg (so_far D []) (thread_gossip_with clk a n) (λ r p, so_far (n :: D) [] p ∧ r = Ok tt).
Proof.
  apply rg_untried, (rg_then D [] _ D told_of (λ r, replied n r (told_of r))); [|by intros e []|].
  { apply (rg_one D [] _ D told_of (λ r, replied n r (told_of r))). intros p Hp. by apply ask_here. }
  intros [resp|] Hrep.
  2: { eapply rg_mono; [by apply rg_evict|done|]. intros r p [? ->]. split; [done|by eexists]. }
  pose proof (λ ms p, ends_dealt_with (Ok (Some resp)) ms p) as Hend.
  pose proof Hrep as (r & Hr & -> & Hms & Hc & Hans). cbn [thread_take_in]. rewrite told_of_reply in *.
  rewrite decide_True by done. set (ms := filter (λ m, m ≠ n) r) in *.
  assert (ms ⊆ ps_ring p0) as Hms0 by (intros x [_ Hx]%list_elem_of_filter; by apply Hr).
  apply (rg_then D ms _ D (λ _, ms) (λ r, ∃ known, r = Ok known ∧ (sole → ms ⊆ known))); [|by intros e (? & ? & _)|].
  { apply (rg_one D ms _ D (λ _, ms) (λ r, ∃ known, r = Ok known ∧ (sole → ms ⊆ known))). intros p Hp.
    pose proof (sf_kept _ _ _ Hp) as Hk. pose proof Ha as Hap. rewrite <- (kp_ears _ Hk) in Hap. unfold ears in Hap.
    rewrite lookup_fmap, fmap_is_Some in Hap. destruct Hap as [nd Hnd].
    destruct (own_run clk a (g ← get_state; mret (r_nodes (g_ring g))) p nd Hnd) as (p' & -> & Hr' & Hpl & He); [done|].
    cbn [fst snd]. change (g_ring _) with (ps_ring p) in Hr'.
    destruct (added_here D ms (ps_ring p) p p' Hp Hc Hms0 (sf_known _ _ _ Hp) Hpl He) as [HG Hs];
      [by rewrite Hr'|intros x; rewrite Hr'; by left|].
    split; [done|]. split; [done|]. exists (ps_ring p). split; [done|]. apply (sf_known _ _ _ Hp). }
  intros known (? & [= <-] & Hkn). apply (rg_bind _ i _ (λ o p, so_far D ms p ∧ o = Some (node_to_dict <$> ms))); [by intros p Hp|].
  intros o. destruct (decide (o = Some (node_to_dict <$> ms))) as [->|Hne].
  - eapply rg_mono; [by apply (rg_each_learn known ms ms)|by intros p [? _]|]. intros r' p [Hp ->].
    split; [|by eexists]. split; [|done]. by eapply Hend.
  - apply (rg_mono _ i (λ _, False) _ _ (λ _ _, False)); [|by intros p [_ ?]|done]. destruct (each _ _) as [r'|Y m k]; by intros p.
Qed.

Lemma rg_coroutine_exchange : rgg (so_far D []) (coroutine_gossip_with clk a n) (λ r p, so_far (n :: D) [] p ∧ r = Ok tt).
Proof.
  intros p Hp. destruct (ask_here n D p Hna Hp) as (HG & Hs & Hrep). split; [by split|].
  destruct (ask clk a n p) as [r p1]. cbn [fst snd] in *. exists (so_far D (told_of r)).
  split; [by apply so_far_stable|]. split; [done|]. clear p p1 Hp HG Hs.
  apply (rg_one D (told_of r) _ (n :: D) (λ _, []) (λ r, r = Ok tt)). intros p Hp.
  destruct r as [[resp|]|e]; [| |done].
  2: { by destruct (evict_here n D p HC Hrep Hp) as (HG & Hs & Hok). }
  pose proof (λ p, ends_dealt_with (Ok (Some resp)) (told_of (Ok (Some resp))) p Hrep) as Hend.
  pose proof Hrep as (r & Hr & -> & _ & Hc & _). rewrite told_of_reply in *. set (ms := filter (λ m, m ≠ n) r) in *.
  assert (ms ⊆ ps_ring p0) as Hms0 by (intros x [_ Hx]%list_elem_of_filter; by apply Hr).
  pose proof (sf_kept _ _ _ Hp) as Hk. pose proof Ha as Hap. rewrite <- (kp_ears _ Hk) in Hap. unfold ears in Hap.
  rewrite lookup_fmap, fmap_is_Some in Hap. destruct Hap as [nd Hnd].
  destruct (learn_all a (ps_ring p) ms (n_gossip (process_view a clk p nd))) as (g' & Hrun & Hpool & Hsub & Hx).
  set (m := try_except _ _). assert (m (n_gossip (process_view a clk p nd)) = (Ok tt, g')) as Hm.
  { unfold m, try_except, take_in, list_reply. cbn [lift_result]. unfold mbind at 1, M_bind at 1. cbn [lift_result m_type].
    rewrite decide_True by done. unfold mbind, M_bind, get_state, lift_result. cbn [payload_get m_payload peers_fields p_peers default].
    change (r_nodes _) with (ps_ring p). unfold id. fold ms. by rewrite Hrun. }
  destruct (own_run clk a m p nd Hnd) as (p' & -> & Hr' & Hpl & He); rewrite Hm in *; [unfold hears; cbn [snd]; by rewrite Hpool|].
  cbn [fst snd] in *. rewrite <- Hr' in Hsub, Hx.
  destruct (added_here D ms (ps_ring p) p p' Hp Hc Hms0 (sf_known _ _ _ Hp) Hpl He Hsub Hx) as [HG Hs].
  split; [done|]. split; [by apply Hend|done].
Qed.
End exchange.

(** The round of a threaded node. *)
Lemma rg_each_exchange D ns : (∀ n, n ∈ ns → n ≠ a ∧ n ∈ C) →
  rgg (so_far D []) (each ns (thread_gossip_with clk a)) (λ r p, so_far (ns ++ D) [] p ∧ r = Ok tt).
Proof.
  revert D. induction ns as [|n ns IH]; intros D Hns; [by intros p Hp|]. cbn [each].
  destruct (Hns n) as [Hna HC]; [left|].
  apply (rg_then D [] _ (n :: D) (λ _, []) (λ r, r = Ok tt)); [by apply rg_thread_exchange|done|]. intros [] _.
  eapply rg_mono; [apply (IH (n :: D)); intros m Hm; apply Hns; by right|done|]. intros r p [Hp ->]. split; [|done].
  eapply so_far_weaken; [exact Hp| |done]. intros m. rewrite !elem_of_app, !elem_of_cons. tauto.
Qed.
End task.

Context `{Resolver}.

(** The tasks of a round, each with the peers that it deals with. *)
Definition covered (choose : list NodeInfo → list NodeInfo) (a : NodeInfo) : list (prog process unit * list NodeInfo) :=
  match ps_pool p0 with
  | MuxPool _ => [(prog_try (each (drawn a choose p0) (thread_gossip_with clk a)) (λ _, mret tt), drawn a choose p0)]
  | AsyncPool => (λ n, (coroutine_gossip_with clk a n, [n])) <$> drawn a choose p0
  end.

Lemma covered_tasks choose a :
  process_gossip clk a choose p0 = (covered choose a).*1 ∧ drawn a choose p0 = concat (covered choose a).*2.
Proof.
  unfold process_gossip, covered. destruct (ps_pool p0); [split; [done|]; symmetry; apply app_nil_r|].
  generalize (drawn a choose p0) as ns. intros ns. induction ns as [|n ns [IH1 IH2]]; [done|]. csimpl. by rewrite <- IH1, <- IH2.
Qed.

Lemma drawn_peers choose a n : (∀ ns, choose ns ⊆ ns) → n ∈ drawn a choose p0 → n ≠ a ∧ is_Some (ears p0 !! a).
Proof.
  intros Hsub. unfold drawn, ears. rewrite lookup_fmap, fmap_is_Some. destruct (ps_nodes p0 !! a) as [nd|]; [|by intros ?%elem_of_nil].
  destruct (get_peers _) as [listed|e]; [|by intros ?%elem_of_nil].
  destruct (filter _ listed) as [|x xs] eqn:Hf; [by intros ?%elem_of_nil|]. intros Hn%Hsub. rewrite <- Hf in Hn.
  apply list_elem_of_filter in Hn as [? _]. by split.
Qed.

Lemma rg_covered i choose a t ns : (sole → i = 0) → (∀ ns, choose ns ⊆ ns) → (∀ n, n ∈ drawn a choose p0 → n ∈ C) →
  (t, ns) ∈ covered choose a → rg gossips i (so_far [] []) t (λ r p, so_far ns [] p ∧ r = Ok tt).
Proof.
  intros Hi Hsub HC. unfold covered. destruct (ps_pool p0) as [closed|].
  - intros [= -> ->]%list_elem_of_singleton. destruct (drawn a choose p0) as [|n ns] eqn:Hd; [by intros p Hp|]. rewrite <- Hd in *.
    assert (is_Some (ears p0 !! a)) as Ha by (apply (drawn_peers choose a n Hsub); rewrite Hd; left).
    apply rg_untried. eapply rg_mono; [apply (rg_each_exchange i Hi a Ha [])|done|].
    + intros m Hm. split; [by eapply drawn_peers|by apply HC].
    + intros r p [Hp ->]. rewrite app_nil_r in Hp. split; [done|by eexists].
  - intros (n & [= -> ->] & Hn)%list_elem_of_fmap. destruct (drawn_peers choose a n Hsub Hn) as [Hna Ha].
    apply (rg_coroutine_exchange i Hi a Ha n [] Hna). by apply HC.
Qed.
End beside.

(** ** What rounds do to the ring *)
Section theorems.
Context `{Resolver}.
Implicit Types (p : process) (rounds : list (NodeInfo * (list NodeInfo → list NodeInfo))).

(** Rounds of several nodes, each with its choice of peers, and the peers contacted. *)
Definition gossip_tasks (clk : NodeInfo → clock) rounds p : list (prog process unit) :=
  rounds ≫= λ r, process_gossip clk r.1 r.2 p.
Definition contacted rounds p : list NodeInfo := rounds ≫= λ r, drawn r.1 r.2 p.

Lemma tasks_covered clk rounds p :
  gossip_tasks clk rounds p = (rounds ≫= λ r, covered clk p r.2 r.1).*1 ∧
  contacted rounds p = concat (rounds ≫= λ r, covered clk p r.2 r.1).*2.
Proof.
  unfold gossip_tasks, contacted. induction rounds as [|r rounds [IH1 IH2]]; [done|]. csimpl.
  destruct (covered_tasks clk p r.2 r.1) as [-> ->]. by rewrite !fmap_app, concat_app, IH1, IH2.
Qed.

Lemma start_kept C p : kept p C p.
Proof. by split. Qed.

End theorems.

Section samples.
#[local] Existing Instance no_resolver.

(** The process of [Process.sample_running] when the third node has crashed. *)
Definition sample_crashed (k : shared_pool) : process :=
  mkProcess sample_ring k
    (<[node3 := mkNode (mkGossip sample_ring [] (StaticDiscovery [node1; node2])) [] false true]> sample_fleet).

Definition sample_rounds := [(node1, take (A := NodeInfo) 3)].

Definition sample_gossip_run (k : shared_pool) (order : list nat) :=
  interleave order (gossip_tasks (wall 5) sample_rounds (sample_crashed k), sample_crashed k).

Lemma sample_rounds_draw (r : NodeInfo * (list NodeInfo → list NodeInfo)) ns : r ∈ sample_rounds → r.2 ns ⊆ ns.
Proof. intros ->%list_elem_of_singleton n Hn. by eapply subseteq_take. Qed.


(** The first node evicts the crashed one for the second, too. *)
Example crashed_evicted : ps_ring (sample_gossip_run (MuxPool false) (repeat 0 20)).2 = [node1; node2].
Proof. vm_compute. reflexivity. Qed.

(** When a threaded node has stopped, a round leaves the node that makes it with itself only, although the other one is up. *)
Example silence_evicts :
  let p := (process_stop (wall 5) (node3, None) (sample_running (MuxPool false))).2 in
  ps_ring p = [node1; node2] ∧ ears p !! node2 = Some true ∧
  ps_ring (interleave (repeat 0 20) (gossip_tasks (wall 6) sample_rounds p, p)).2 = [node1].
Proof. vm_compute. split_and!; reflexivity. Qed.

(** A reply that was overtaken brings back who was evicted: the second node answers while the third, which has crashed, is
    still in the ring, the exchange with the third fails and evicts it, and then the answer is taken in. *)
Example overtaken_reply_brings_back :
  let st := sample_gossip_run AsyncPool [0; 1; 1; 0] in
  ps_ring (sample_gossip_run AsyncPool [0; 1; 1]).2 = [node1; node2] ∧
  (∀ t, t ∈ st.1 → finished t = true) ∧ ps_ring st.2 = [node1; node2; node3].
Proof. split; [vm_compute; reflexivity|]. split; [apply Forall_forall; vm_compute; by repeat constructor|vm_compute; reflexivity]. Qed.
End samples.
