(* ===== verification/QuickStart.v ===== *)
(** * The quick start ([examples/quickstart.py])

    Three asyncio nodes in one process, with the ring and the pool that are the defaults,
    started, called and stopped. *)
From Stdlib Require Import Ascii.
From S2P Require Import Prelude Async PyBase PyDict Types Store LwwStore Ring Dispatcher.
From S2P Require Import PoolOps Consistency Discovery Gossip GossipSpec Node NodeSpec Replicas Cluster ClusterSpec ClusterTtl Fleet Startup Process.

#[local] Existing Instance scripted_pool.

(** ** The quick start *)
Section quickstart.
Context `{Resolver}.

(** The discovery of [addr] among [addrs]: [StaticDiscovery([a for a in addrs if a != addr])]. *)
Definition all_but (addrs : list string) (addr : string) : result discovery :=
  peers ← static_init (filter (λ a, a ≠ addr) addrs);
  mret (StaticDiscovery peers).

(** [addr.split(":")[1]]: what is between the first and the second colon. *)
Fixpoint before_colon (s : string) : string :=
  match s with
  | EmptyString => EmptyString
  | String c s => if Ascii.eqb c ":" then EmptyString else String c (before_colon s)
  end.

Fixpoint port_field (s : string) : result string :=
  match s with
  | EmptyString => Raise IndexError
  | String c s => if Ascii.eqb c ":" then mret (before_colon s) else port_field s
  end.

(** The nodes constructed for [todo] with the constructor [new], by what they call themselves: no [advertise_host] is
    given, and the machine's own address is [own_host].  The ring and the pool are the
    defaults, which a [process] holds. *)
Fixpoint make_nodes (new : option string → string → Z → ring → script → discovery → NodeInfo * node_state ring script)
    (disc : string → result discovery) (own_host : string) (todo : list string) :
    result (list (NodeInfo * node_state ring script)) :=
  match todo with
  | [] => mret []
  | addr :: todo =>
      d ← disc addr;
      field ← port_field addr;
      prt ← Int.of_str field;
      nodes ← make_nodes new disc own_host todo;
      mret (new None own_host prt ring_init [] d :: nodes)
  end.

Definition quickstart_addrs : list string := ["127.0.0.1:7001"; "127.0.0.1:7002"; "127.0.0.1:7003"].

(** The calls of [main], by the number of the node they go through. *)
Definition quickstart_ops : list (nat * client_op) :=
  [(0, CSet "greeting" (VStr "hello world") None); (0, CGet "greeting");
   (0, CSet "counter" (VInt 42) (Some (Float.of_Z 10))); (0, CGet "counter");
   (0, CSet "data" (VObj 1) None); (0, CGet "data"); (1, CGet "data"); (2, CGet "data");
   (0, CDelete "greeting"); (0, CGet "greeting")].

(** The calls one after the other, each at clocks of its own and with its requests in the
    given order; [i] is the number of the first. *)
Fixpoint numbered_calls (names : list NodeInfo) (order : list nat) (clk : nat → NodeInfo → clock) (i : nat)
    (ops : list (nat * client_op)) : result (list client_call) :=
  match ops with
  | [] => mret []
  | (via, op) :: ops =>
      n ← from_option Ok (Raise IndexError) (names !! via);
      calls ← numbered_calls names order clk (S i) ops;
      mret (mkCall n (Some order) (clk i) op :: calls)
  end.

Definition printed (rs : list reply) : list pyval :=
  omap (λ r, match r with RValue v => Some v | RDone _ => None end) rs.

(** The nodes come into being. *)
Definition add_nodes (nodes : list (NodeInfo * node_state ring script)) : M process unit :=
  modify (λ p, mkProcess (ps_ring p) (ps_pool p) (list_to_map nodes ∪ ps_nodes p)).

(** What [main] prints of its calls, on a machine whose own address is 127.0.0.1, so that
    its nodes listen where they say. *)
Definition quickstart (order : list nat) (clk : nat → NodeInfo → clock) : M process (list pyval) :=
  nodes ← lift_result (make_nodes node_new_async (all_but quickstart_addrs) "127.0.0.1" quickstart_addrs);
  let names : list NodeInfo := nodes.*1 in
  add_nodes nodes ;;
  start_nodes (clk 0) ((λ n, (n, Some order)) <$> names) ;;
  calls ← lift_result (numbered_calls names order clk 1 quickstart_ops);
  rs ← process_calls 2 calls;
  stop_nodes (clk 11) ((λ n, (n, Some order)) <$> names) ;;
  mret (printed rs).
End quickstart.

Section quickstart_run.
Context `{Resolver}.

Definition quickstart_calls (order : list nat) (clk : nat → NodeInfo → clock) : list client_call :=
  match numbered_calls sample_ring order clk 1 quickstart_ops with Ok calls => calls | Raise _ => [] end.

(** What the replies to the calls are, if the cluster is one store. *)
Lemma quickstart_calls_ok (order : list nat) (clk : nat → NodeInfo → clock) :
  order ≡ₚ [0; 1] → (∀ i n, (0 < time_ns (clk i n))%Z) →
  Forall (call_ok 2 sample_ring sample_keys) (quickstart_calls order clk).
Proof.
  intros Hord Hclk.
  assert (∀ key, order ≡ₚ seq 0 (length (ring_get_nodes sample_ring key 2))) as Ho.
  { intros key. by rewrite ring_get_nodes_length. }
  repeat (apply Forall_cons; split); [..|by apply Forall_nil]; (split; [by apply (bool_decide_eq_true_1 (_ ∈ _))|]; split;
    [first [by intros _; split; [|apply Hclk] | by intros Hk%(bool_decide_eq_true_2 (_ ∈ _))]|apply Ho]).
Qed.

Lemma quickstart_replies order (clk : nat → NodeInfo → clock) rs :
  (∀ i n, (0 < time_ns (clk i n))%Z) → (time_ns (clk 1%nat node1) ≤ time_ns (clk 9%nat node1))%Z →
  answered sample_keys (quickstart_calls order clk) ∅ rs →
  ∃ v, printed rs = [VStr "hello world"; v; VObj 1; VObj 1; VObj 1; VNone].
Proof.
  intros Hclk Hmono. unfold quickstart_calls. simpl.
  assert ("greeting" ∈ sample_keys ∧ "data" ∈ sample_keys) as [Hg Hd] by (unfold sample_keys; set_solver).
  intros (r1 & ? & -> & F1 & _ & Hans)%answered_cons.
  apply (answered_get _ _ _ _ _ "greeting") in Hans as (? & -> & Hans); [|done..].
  apply answered_cons in Hans as (r3 & ? & -> & F3 & _ & Hans). apply answered_cons in Hans as (r4 & ? & -> & F4 & _ & Hans).
  apply answered_cons in Hans as (r5 & ? & -> & F5 & _ & Hans).
  do 3 (apply (answered_get _ _ _ _ _ "data") in Hans as (? & -> & Hans); [|done..]).
  apply answered_cons in Hans as (r9 & ? & -> & F9 & _ & Hans).
  apply (answered_get _ _ _ _ _ "greeting") in Hans as (? & -> & Hans); [|done..].
  apply Forall2_nil_inv_l in Hans as ->.
  destruct r1, r3, r4, r5, r9; try done. eexists. unfold printed. simpl omap.
  repeat first [rewrite lookup_partial_alter_eq | rewrite lookup_partial_alter_ne by done | rewrite lookup_empty].
  unfold expires_at; simpl. by rewrite bool_decide_eq_false_2 by lia.
Qed.

(** C4. What the quick start prints.  Whatever the clocks show, as long as time does not go back
    between the first [set] and the [delete], and in whatever order requests take
    effect, on a machine whose own name resolves to 127.0.0.1 it prints the greeting, the data three times, once from each node, and
    [None] for the deleted greeting; only what it prints for the counter, which expires,
    depends on the clocks.  Its last node stays in the ring of the process. *)
Theorem quickstart_prints (order : list nat) (clk : nat → NodeInfo → clock) :
  order ≡ₚ [0; 1] → (∀ i n, (0 < time_ns (clk i n))%Z) → (time_ns (clk 1%nat node1) ≤ time_ns (clk 9%nat node1))%Z →
  ∃ v p, quickstart order clk (new_process AsyncPool) =
      (Ok [VStr "hello world"; v; VObj 1; VObj 1; VObj 1; VNone], p) ∧ ps_ring p = [node3].
Proof.
  intros Hord Hclk Hmono.
  set (p0 := mkProcess [] AsyncPool (list_to_map sample_nodes)).
  set (es := (λ n, (n, Some order)) <$> sample_ring).
  destruct (start_nodes_run sample_ring [] p0 (clk 0) es sample_ring_wf (sample_process AsyncPool)) as (p1 & Hrun1 & Hs1 & Hk1);
    [by apply Forall_fmap, Forall_forall|].
  apply (started_is_store sample_ring _ _ sample_keys 2) in Hs1; [|done|lia|apply sample_no_ties|].
  2: { intros x Hx. rewrite app_nil_r, elem_of_reverse. by unfold es; rewrite <- list_fmap_compose, list_fmap_id. }
  destruct (process_calls_run 2 sample_ring sample_keys (quickstart_calls order clk) p1 ∅ Hs1)
    as (rs & p2 & Hrun2 & His & Hans & Hk2); [by unfold ps_closed; rewrite Hk1|rewrite Hk1; by repeat constructor|by apply quickstart_calls_ok|].
  destruct (quickstart_replies order clk rs Hclk Hmono Hans) as [v Hv]. exists v.
  destruct (stopped_nodes_leave (clk 11) [node1; node2] node3 es p2) as (p3 & Hrun3 & Hr & _);
    [apply sample_ring_wf|by eapply store_serving|done| |].
  { rewrite Hk2, Hk1. apply Forall_fmap, Forall_forall. intros n _ i Hi. cbn [how snd default]. unfold id. rewrite Hord.
    destruct i as [|[|i]]; [set_solver..|simpl in Hi; lia]. }
  exists p3. split; [|done]. rewrite <- Hv.
  transitivity ((start_nodes (clk 0) es ;; rs ← process_calls 2 (quickstart_calls order clk);
    stop_nodes (clk 11) es ;; mret (printed rs)) p0); [reflexivity|].
  step_M Hrun1. step_M Hrun2. by step_M Hrun3.
Qed.
End quickstart_run.

Section samples.
#[local] Existing Instance no_resolver.

(** Two seconds pass between two calls. *)
Example quickstart_example :
  (quickstart [1; 0] (λ i _, mkClock (Float.of_Z (2 * Z.of_nat i)) (10 + Z.of_nat i)) (new_process AsyncPool)).1 =
    Ok [VStr "hello world"; VInt 42; VObj 1; VObj 1; VObj 1; VNone].
Proof. vm_compute. reflexivity. Qed.

(** Eleven seconds: the counter has expired by the time it is read. *)
Example quickstart_slow :
  (quickstart [1; 0] (λ i _, mkClock (Float.of_Z (11 * Z.of_nat i)) (10 + Z.of_nat i)) (new_process AsyncPool)).1 =
    Ok [VStr "hello world"; VNone; VObj 1; VObj 1; VObj 1; VNone].
Proof. vm_compute. reflexivity. Qed.

(** A node that is alone, constructed with no replication in the process in which the quick start ran, loses what it
    places at the node that is still in the ring. *)
Definition later_node : NodeInfo := mkNodeInfo "127.0.0.1" 7009.

Example later_node_loses :
  ((quickstart [1; 0] (λ i, wall (10 + Z.of_nat i)) ;;
    add_nodes [(later_node, node_init [] [] (StaticDiscovery []))] ;;
    process_start (wall 30) (later_node, Some []) ;;
    process_calls 1 [mkCall later_node (Some [0]) (wall 31) (CSet "greeting" (VStr "hello") None);
                     mkCall later_node (Some [0]) (wall 32) (CGet "greeting")]) (new_process AsyncPool)).1 =
    Ok [RDone false; RValue VNone].
Proof. vm_compute. reflexivity. Qed.

Lemma quickstart_prints_witness :
  ∃ v p, quickstart [1; 0] (λ i, wall (10 + Z.of_nat i)) (new_process AsyncPool) =
      (Ok [VStr "hello world"; v; VObj 1; VObj 1; VObj 1; VNone], p) ∧ ps_ring p = [node3].
Proof.
  apply (quickstart_prints [1; 0] (λ i, wall (10 + Z.of_nat i))).
  - apply Permutation_swap.
  - intros i n. simpl. lia.
  - simpl. lia.
Defined.
End samples.
