(* ===== verification/Web.v ===== *)
(** * The web servers ([src/examples])

    HTTP access to a node: [flask_server.py] over the threaded node, and
    [fastapi_server.py] and [docker-compose/app.py] over the asyncio node.  A handler
    returns a response or raises; what the frameworks make of a value is the
    parameter [encode]. *)
From S2P Require Import Prelude Async PyBase PyDict Types Store LwwStore Ring Dispatcher.
From S2P Require Import PoolOps Consistency Discovery Gossip Node Replicas Cluster ClusterSpec.

(** The texts of [abort] and of [HTTPException]. *)
Inductive detail := KeyNotFound (key : string) | WriteFailed | NodeNotReady | InternalError.

(** A response: the JSON text of a value, the fields of the health report, an error
    or nothing. *)
Inductive http_body :=
  | NoBody
  | Json (text : string)
  | Health (addr : string) (peers keys : Z)
  | Detail (d : detail).

Record response := mkResponse { status : Z; r_body : http_body }.

Definition abort (code : Z) (d : detail) : response := mkResponse code (Detail d).

(** An exception of a handler becomes a response of the framework. *)
Definition serve_http {S} (handler : M S response) : M S response :=
  try_except handler (λ _, mret (abort 500 InternalError)).

Section web.
Context {R P : Type} `{Ring R} `{PoolOps P} (info : NodeInfo).
Context (encode : pyval → result string).
Abbreviation N := (node_state R P).

(** The replication and the merge resolver are the defaults of the constructors. *)
Definition default_replication : Z := 2.

(** [return value] or [jsonify(value)], or 404. *)
Definition value_response (key : string) (value : pyval) : M N response :=
  match value with
  | VNone => mret (abort 404 (KeyNotFound key))
  | _ => text ← lift_result (encode value); mret (mkResponse 200 (Json text))
  end.

Definition write_response (ok : bool) : response :=
  if ok then mkResponse 204 NoBody else abort 500 WriteFailed.

Definition delete_response (key : string) (ok : bool) : response :=
  if ok then mkResponse 204 NoBody else abort 404 (KeyNotFound key).

(** [len(_node._store)] counts the keys that have not expired. *)
Definition health_report (c : clock) : M N response :=
  s ← get_state;
  keys ← on_store (lww_len c);
  mret (mkResponse 200 (Health (address info) (Z.of_nat (r_len (g_ring (n_gossip s))) - 1) (Z.of_nat keys))).

(** ** Flask *)
Definition get_key (c : clock) (key : string) : M N response :=
  value ← node_get info default_replication lww_read_resolve c key;
  value_response key value.

(** The value is the query parameter, empty when there is none. *)
Definition set_key (c : clock) (key : string) (arg : option string) : M N response :=
  ok ← node_set info default_replication c key (VStr (default "" arg)) None;
  mret (write_response ok).

Definition delete_key (c : clock) (key : string) : M N response :=
  ok ← node_delete info default_replication c key;
  mret (delete_response key ok).

Definition health (c : clock) : M N response := health_report c.

(** ** FastAPI

    The module's [_node] is [None] before the start and after the end of the
    application. *)
Definition _node_or_503 (handler : M N response) : M (option N) response := λ app,
  match app with
  | None => (Ok (abort 503 NodeNotReady), None)
  | Some s => let '(r, s') := handler s in (r, Some s')
  end.

Definition get_key_async (order : list nat) (c : clock) (key : string) : M (option N) response :=
  _node_or_503 (
    value ← node_get_async info default_replication (async_lww_read_resolve order) c key;
    value_response key value).

Definition set_key_async (order : list nat) (c : clock) (key : string) (value : pyval) :
    M (option N) response :=
  _node_or_503 (
    ok ← node_set_async info default_replication order c key value None;
    mret (write_response ok)).

Definition delete_key_async (order : list nat) (c : clock) (key : string) : M (option N) response :=
  _node_or_503 (
    ok ← node_delete_async info default_replication order c key;
    mret (delete_response key ok)).

Definition health_async (c : clock) : M (option N) response := _node_or_503 (health_report c).

(** Creating a node around a discovery and starting it: the node stays in the module's
    variable even when its start raises. *)
Definition start_node `{Resolver} (ring : R) (pool : P) (disc : result discovery)
    (start : M N unit) : M (option N) unit := λ app,
  match disc with
  | Raise e => (Raise e, app)
  | Ok disc => let '(r, s) := start (node_init ring pool disc) in (r, Some s)
  end.

(** The [GossipDiscovery] of the address [seed]. *)
Definition seeded (seed : string) : result discovery := d ← gossip_init seed; mret (GossipDiscovery d).

(** The top level of the Flask module. *)
Definition flask_start `{Resolver} (ring : R) (pool : P) (seed : string) (bind : result unit) :
    M (option N) unit :=
  start_node ring pool (seeded seed) (node_start info bind (announce_join info)).

(** [lifespan] up to its [yield]. *)
Definition lifespan_start `{Resolver} (ring : R) (pool : P) (seed : string) (bind : result unit)
    (order : list nat) : M (option N) unit :=
  start_node ring pool (seeded seed) (node_start_async info bind order).

(** [lifespan] after its [yield]. *)
Definition lifespan_stop (order : list nat) : M (option N) unit := λ app,
  match app with
  | None => (Raise AttributeError, None)
  | Some s =>
      match node_stop_async info order s with
      | (Ok tt, _) => (Ok tt, None)
      | (Raise e, s') => (Raise e, Some s')
      end
  end.

(** ** Docker Compose: the same application, found through A records *)
Definition compose_start `{Resolver} (ring : R) (pool : P) (hostname : string) (bind : result unit)
    (order : list nat) : M (option N) unit :=
  start_node ring pool (Ok (a_record_init hostname (port info))) (node_start_async info bind order).

Definition compose_stop (order : list nat) : M (option N) unit := lifespan_stop order.
Definition compose_get_key (order : list nat) (c : clock) (key : string) : M (option N) response :=
  get_key_async order c key.
Definition compose_set_key (order : list nat) (c : clock) (key : string) (value : pyval) :
    M (option N) response := set_key_async order c key value.
Definition compose_delete_key (order : list nat) (c : clock) (key : string) : M (option N) response :=
  delete_key_async order c key.
Definition compose_health (c : clock) : M (option N) response := health_async c.
End web.

(** ** The modules *)

(** [os.getenv(name, default)]. *)
Definition getenv (env : gmap string string) (name dflt : string) : string := default dflt (env !! name).

Record settings := mkSettings { dls_host : string; dls_port : Z; dls_seed : string }.

(** The constants of [flask_server.py], and the same of [fastapi_server.py]. *)
Definition flask_settings (env : gmap string string) : result settings :=
  prt ← Int.of_str (getenv env "DLSTORAGE_PORT" "7001");
  mret (mkSettings (getenv env "DLSTORAGE_HOST" "127.0.0.1") prt (getenv env "DLSTORAGE_SEED" "127.0.0.1:7001")).

Definition fastapi_settings (env : gmap string string) : result settings := flask_settings env.

(** Those of [docker-compose/app.py]: the port, and the name all peers are found under. *)
Definition compose_settings (env : gmap string string) : result (Z * string) :=
  prt ← Int.of_str (getenv env "DLSTORAGE_PORT" "7001");
  mret (prt, getenv env "DLSTORAGE_DISCOVERY_HOST" "storage").

Section modules.
Context {R P : Type} `{Ring R} `{PoolOps P} `{Resolver} (env : gmap string string) (own_host : string).
Abbreviation N := (node_state R P).

(** Importing [flask_server.py]: the node is called what the machine's name resolves to. *)
Definition flask_module (ring : R) (pool : P) (bind : result unit) : M (option N) NodeInfo :=
  cfg ← lift_result (flask_settings env);
  let info := node_info None own_host (dls_port cfg) in
  flask_start info ring pool (dls_seed cfg) bind ;;
  mret info.

(** [_stop_node], run at exit. *)
Definition _stop_node (info : NodeInfo) : M (option N) unit := λ app,
  match app with
  | None => (Raise AttributeError, None)
  | Some s => let '(r, s') := node_stop (announce_leave info) s in (r, Some s')
  end.

(** [lifespan] as a whole, [serve] being the time the application runs; an exception
    thrown in there leaves the node as it is. *)
Definition lifespan {A} (ring : R) (pool : P) (bind : result unit) (order order' : list nat)
    (serve : NodeInfo → M (option N) A) : M (option N) A :=
  cfg ← lift_result (fastapi_settings env);
  let info := node_info None own_host (dls_port cfg) in
  lifespan_start info ring pool (dls_seed cfg) bind order ;;
  a ← serve info;
  lifespan_stop info order' ;;
  mret a.

Definition compose_lifespan {A} (ring : R) (pool : P) (bind : result unit) (order order' : list nat)
    (serve : NodeInfo → M (option N) A) : M (option N) A :=
  cfg ← lift_result (compose_settings env);
  let info := node_info None own_host cfg.1 in
  compose_start info ring pool cfg.2 bind order ;;
  a ← serve info;
  compose_stop info order' ;;
  mret a.
End modules.

(** ** Requests *)

(** The routes; a PUT gives the value in the query. *)
Inductive request :=
  | HttpGet (key : string)
  | HttpPut (key value : string)
  | HttpDelete (key : string).

Section routes.
Context {R P : Type} `{Ring R} `{PoolOps P} (info : NodeInfo).
Context (encode : pyval → result string).

Definition flask_app (c : clock) (req : request) : M (node_state R P) response :=
  serve_http match req with
  | HttpGet key => get_key info encode c key
  | HttpPut key value => set_key info c key (Some value)
  | HttpDelete key => delete_key info c key
  end.

Definition fastapi_app (order : list nat) (c : clock) (req : request) :
    M (option (node_state R P)) response :=
  serve_http match req with
  | HttpGet key => get_key_async info encode order c key
  | HttpPut key value => set_key_async info order c key (VStr value)
  | HttpDelete key => delete_key_async info order c key
  end.
End routes.

(** ** The servers over a cluster *)
Section cluster.
Context {R : Type} `{RingLaws R} (info : NodeInfo) (encode : pyval → result string).
Abbreviation N := (node_state R world).
Abbreviation cluster_store := (stands_for info default_replication).
Implicit Types (s : N) (m : gmap string entry) (c : clock) (key : string).

(** What the store of the cluster shows to a GET. *)
Definition get_response key (value : pyval) : response :=
  match value with
  | VNone => abort 404 (KeyNotFound key)
  | _ => match encode value with
         | Ok text => mkResponse 200 (Json text)
         | Raise _ => abort 500 InternalError
         end
  end.

Lemma flask_get c key s m :
  cluster_store s m → ∃ s',
    flask_app info encode c (HttpGet key) s =
      (Ok (get_response key (Spec.visible (Spec.read (monotonic c) (m !! key)).1)), s') ∧
    cluster_store s' (partial_alter (λ o, (Spec.read (monotonic c) o).2) key m).
Proof.
  intros Hsf. destruct (stands_for_read _ _ c key s m Hsf) as (s' & Hrun & Hs').
  exists s'. split; [|done]. unfold flask_app, serve_http, get_key, try_except. step_M Hrun.
  unfold value_response, get_response. destruct (Spec.visible _); unfold_M; try done;
    by destruct (encode _).
Qed.

Lemma new_durable (o : cell) ts : (0 < ts)%Z → durable (mkEntry o None ts).
Proof. done. Qed.

Lemma flask_put c key value s m :
  cluster_store s m → (0 < time_ns c)%Z → ∃ ok s',
    flask_app info encode c (HttpPut key value) s = (Ok (write_response ok), s') ∧
    cluster_store s' (partial_alter (λ o,
      (Spec.write (mkEntry (Val (VStr value)) None (time_ns c)) o).2) key m) ∧
    ((Spec.write (mkEntry (Val (VStr value)) None (time_ns c)) (m !! key)).1 = true → ok = true).
Proof.
  intros Hsf Hpos. pose proof Hsf as [Hw Hr _ _ _].
  destruct (node_set_spread info default_replication c key (VStr value) s Hw Hr)
    as (ok & s' & Hrun & Hsp).
  exists ok, s'. split; [|by apply (stands_for_write _ _ _ key _ ok s s' m Hsf (new_durable _ _ Hpos) Hsp)].
  unfold flask_app, serve_http, set_key, try_except. by step_M Hrun.
Qed.

Lemma flask_delete c key s m :
  cluster_store s m → (0 < time_ns c)%Z → ∃ ok s',
    flask_app info encode c (HttpDelete key) s = (Ok (delete_response key ok), s') ∧
    cluster_store s' (partial_alter (λ o, (Spec.write (mkEntry TOMBSTONE None (time_ns c)) o).2) key m) ∧
    (Spec.lived (m !! key) = true → ok = true).
Proof.
  intros Hsf Hpos. pose proof Hsf as [Hw Hr _ _ _].
  destruct (node_delete_spread info default_replication c key s Hw Hr) as (ok & s' & Hrun & Hsp).
  exists ok, s'. split; [|by apply (stands_for_write _ _ _ key _ ok s s' m Hsf (new_durable _ _ Hpos) Hsp)].
  unfold flask_app, serve_http, delete_key, try_except. by step_M Hrun.
Qed.

(** The FastAPI application answers as the Flask one does. *)
Lemma fastapi_like_flask order c req s :
  replica_wf s → r_wf (g_ring (n_gossip s)) →
  order ≡ₚ seq 0 (length (replicas default_replication
    match req with HttpGet key | HttpPut key _ | HttpDelete key => key end s)) →
  fastapi_app info encode order c req (Some s) =
    (let '(r, s') := flask_app info encode c req s in (r, Some s')).
Proof.
  intros Hw Hr Hord. unfold fastapi_app, flask_app, serve_http, try_except.
  destruct req as [key|key value|key].
  - destruct (async_calls_run info default_replication c key VNone None order s Hw Hr Hord) as (Hg & _ & _).
    unfold get_key_async, get_key, _node_or_503. unfold_M. rewrite Hg.
    destruct (node_get _ _ _ _ _ _) as [[v|e] s1]; [|done]. by destruct (value_response _ _ _ _) as [[]].
  - destruct (async_calls_run info default_replication c key (VStr value) None order s Hw Hr Hord)
      as (_ & Hg & _).
    unfold set_key_async, set_key, _node_or_503. unfold_M. rewrite Hg.
    by destruct (node_set _ _ _ _ _ _ _) as [[v|e] s1].
  - destruct (async_calls_run info default_replication c key VNone None order s Hw Hr Hord) as (_ & _ & Hg).
    unfold delete_key_async, delete_key, _node_or_503. unfold_M. rewrite Hg.
    by destruct (node_delete _ _ _ _ _) as [[v|e] s1].
Qed.

Lemma write_accepted new key m :
  (∀ e, m !! key = Some e → (e_ts e ≤ e_ts new)%Z) →
  (Spec.write new (m !! key)).1 = true ∧
  partial_alter (λ o, (Spec.write new o).2) key m = <[key := new]> m.
Proof.
  intros Hold. assert (Spec.write new (m !! key) = (true, Some new)) as Hw.
  { unfold Spec.write. destruct (m !! key) as [e|]; [|done]. specialize (Hold e eq_refl).
    by rewrite bool_decide_eq_false_2 by lia. }
  split; [by rewrite Hw|]. unfold insert, map_insert. apply partial_alter_ext.
  intros o <-. by rewrite Hw.
Qed.

Lemma read_written now new key m :
  durable new → (Spec.read now (<[key := new]> m !! key)).1 = Some (view new) ∧
  partial_alter (λ o, (Spec.read now o).2) key (<[key := new]> m) = <[key := new]> m.
Proof.
  intros Hnew. rewrite lookup_insert_eq, read_durable by done. split; [done|].
  apply map_eq. intros k. destruct (decide (key = k)) as [<-|Hne].
  - rewrite lookup_partial_alter_eq, lookup_insert_eq. by rewrite read_durable.
  - by rewrite lookup_partial_alter_ne.
Qed.

(** C21. The web servers expose one store.  Over a healthy cluster, Flask answers a
    GET with 200 and the value the store holds, or 404; a PUT that is not older than
    what is stored gets 204, and a later GET the value; a DELETE that is not older gets 204
    if the key was alive, 204 or 404 if not, and a later GET 404.  Under every order
    in which the replicas are reached FastAPI answers and leaves the cluster as Flask
    does, and 503 to everything while it has no node. *)
Theorem http_is_one_store c c' key value text s m :
  cluster_store s m → (0 < time_ns c)%Z → (∀ e, m !! key = Some e → (e_ts e ≤ time_ns c)%Z) →
  encode (VStr value) = Ok text →
  (∃ s1, flask_app info encode c (HttpGet key) s =
       (Ok (get_response key (Spec.visible (Spec.read (monotonic c) (m !! key)).1)), s1) ∧
     cluster_store s1 (Spec.step c (OpGet key) m).2) ∧
  (∃ s1 s2, flask_app info encode c (HttpPut key value) s = (Ok (mkResponse 204 NoBody), s1) ∧
     flask_app info encode c' (HttpGet key) s1 = (Ok (mkResponse 200 (Json text)), s2) ∧
     cluster_store s2 (Spec.step c (OpSet key (VStr value) None None) m).2) ∧
  (∃ ok s1 s2, flask_app info encode c (HttpDelete key) s = (Ok (if ok : bool then mkResponse 204 NoBody else abort 404 (KeyNotFound key)), s1) ∧
     (Spec.lived (m !! key) = true → ok = true) ∧
     flask_app info encode c' (HttpGet key) s1 = (Ok (abort 404 (KeyNotFound key)), s2) ∧
     cluster_store s2 (Spec.step c (OpDelete key None) m).2) ∧
  (∀ order req, order ≡ₚ seq 0 (length (replicas default_replication
       match req with HttpGet k | HttpPut k _ | HttpDelete k => k end s)) →
     fastapi_app info encode order c req (Some s) =
       (let '(r, s') := flask_app info encode c req s in (r, Some s')) ∧
     fastapi_app (R := R) (P := world) info encode order c req None =
       (Ok (abort 503 NodeNotReady), None)).
Proof.
  intros Hsf Hpos Hold Henc. split_and!.
  - by apply flask_get.
  - destruct (flask_put c key value s m Hsf Hpos) as (ok & s1 & H1 & Hs1 & Hok).
    destruct (write_accepted (mkEntry (Val (VStr value)) None (time_ns c)) key m Hold) as [Ha Hm].
    rewrite (Hok Ha) in H1. rewrite Hm in Hs1.
    destruct (flask_get c' key s1 _ Hs1) as (s2 & H2 & Hs2).
    destruct (read_written (monotonic c') _ key m (new_durable (Val (VStr value)) _ Hpos)) as [Hr Hm2].
    rewrite Hr in H2. rewrite Hm2, <- Hm in Hs2. exists s1, s2. split_and!; [done| |exact Hs2].
    rewrite H2. simpl. by rewrite Henc.
  - destruct (flask_delete c key s m Hsf Hpos) as (ok & s1 & H1 & Hs1 & Hok).
    destruct (write_accepted (mkEntry TOMBSTONE None (time_ns c)) key m Hold) as [_ Hm].
    rewrite Hm in Hs1. destruct (flask_get c' key s1 _ Hs1) as (s2 & H2 & Hs2).
    destruct (read_written (monotonic c') _ key m (new_durable TOMBSTONE _ Hpos)) as [Hr Hm2].
    rewrite Hr in H2. rewrite Hm2, <- Hm in Hs2. exists ok, s1, s2. split_and!; [done..|exact Hs2].
  - intros order req Hord. destruct Hsf as [Hw Hr _ _ _]. split; [by apply fastapi_like_flask|].
    unfold fastapi_app, serve_http, try_except. by destruct req.
Qed.
End cluster.

(** Strings are written out as they are. *)
Definition sample_encode (v : pyval) : result string :=
  match v with VStr s => Ok s | _ => Raise TypeError end.

Lemma http_is_one_store_witness :
  let app := flask_app first sample_encode in
  let s := sample_cluster [] in
  let m := to_map one_entry in
  (∃ s1, app sample_clock (HttpGet "a") s =
       (Ok (get_response sample_encode "a" (Spec.visible (Spec.read (monotonic sample_clock) (m !! "a")).1)), s1) ∧
     stands_for first default_replication s1 (Spec.step sample_clock (OpGet "a") m).2) ∧
  (∃ s1 s2, app sample_clock (HttpPut "a" "x") s = (Ok (mkResponse 204 NoBody), s1) ∧
     app sample_clock (HttpGet "a") s1 = (Ok (mkResponse 200 (Json "x")), s2) ∧
     stands_for first default_replication s2 (Spec.step sample_clock (OpSet "a" (VStr "x") None None) m).2) ∧
  (∃ ok s1 s2, app sample_clock (HttpDelete "a") s = (Ok (if ok : bool then mkResponse 204 NoBody else abort 404 (KeyNotFound "a")), s1) ∧
     (Spec.lived (m !! "a") = true → ok = true) ∧
     app sample_clock (HttpGet "a") s1 = (Ok (abort 404 (KeyNotFound "a")), s2) ∧
     stands_for first default_replication s2 (Spec.step sample_clock (OpDelete "a" None) m).2) ∧
  (∀ order req, order ≡ₚ seq 0 (length (replicas default_replication
       match req with HttpGet k | HttpPut k _ | HttpDelete k => k end s)) →
     fastapi_app first sample_encode order sample_clock req (Some s) =
       (let '(r, s') := app sample_clock req s in (r, Some s')) ∧
     fastapi_app (R := ring) (P := world) first sample_encode order sample_clock req None =
       (Ok (abort 503 NodeNotReady), None)).
Proof.
  apply (http_is_one_store first sample_encode sample_clock sample_clock "a" "x" "x"
    (sample_cluster []) (to_map one_entry)).
  - exact sample_stands_for.
  - vm_compute. reflexivity.
  - intros e. vm_compute. intros [= <-]. discriminate.
  - reflexivity.
Defined.
