(* ===== verification/Workload.v ===== *)
(** * Benchmark workloads ([benchmarks/framework.py] and [benchmarks/nodes])

    How the benchmarks divide their operations among nodes, threads and coroutines,
    and the two pools of workers that carry them out.  The workers are programs of
    atomic actions, so the theorems hold for every interleaving. *)
From S2P Require Import Prelude Threads PyBase.

(** ** Ranges *)

(** The number of elements of [range(start, stop, step)], for a positive step. *)
Definition range_len (start stop step : Z) : Z := Z.max 0 ((stop - start + step - 1) / step).

Definition py_range (start stop step : Z) : list Z :=
  (λ i, start + step * i)%Z <$> seqZ 0 (range_len start stop step).

Lemma elem_of_py_range start stop step x :
  (0 < step)%Z →
  x ∈ py_range start stop step ↔ (start ≤ x < stop)%Z ∧ ((x - start) mod step = 0)%Z.
Proof.
  intros Hs. unfold py_range, range_len. rewrite list_elem_of_fmap. split.
  - intros (i & -> & Hi%elem_of_seqZ).
    assert (step * ((stop - start + step - 1) / step) ≤ stop - start + step - 1)%Z
      by (apply Z.mul_div_le; lia).
    split; [nia|]. replace (start + step * i - start)%Z with (i * step)%Z by lia. apply Z_mod_mult.
  - intros [Hx Hm]. exists ((x - start) / step)%Z.
    pose proof (Z_div_mod_eq_full (x - start) step) as Heq. split; [lia|].
    apply elem_of_seqZ. split; [apply Z.div_pos; lia|].
    assert ((x - start) / step < (stop - start + step - 1) / step)%Z; [|lia].
    assert ((x - start) / step + 1 ≤ (stop - start + step - 1) / step)%Z; [|lia].
    rewrite <- Z.div_add by lia. apply Z.div_le_mono; lia.
Qed.

Lemma NoDup_py_range start stop step : (0 < step)%Z → NoDup (py_range start stop step).
Proof.
  intros Hs. unfold py_range. apply NoDup_fmap_2_strong; [|apply NoDup_seqZ].
  intros x y _ _ Heq. nia.
Qed.

(** The strides [range(tid, ops, n)] of [n] workers share the operations out. *)
Definition strides (ops n : Z) : list (list Z) := (λ tid, py_range tid ops n) <$> seqZ 0 n.

Lemma elem_of_strides ops n i xs :
  strides ops n !! i = Some xs → (0 < n)%Z ∧ (Z.of_nat i < n)%Z ∧ xs = py_range (Z.of_nat i) ops n.
Proof.
  unfold strides. rewrite list_lookup_fmap. intros (t & Ht & ->)%fmap_Some.
  apply lookup_seqZ in Ht as [-> ?]. by split_and!; [lia|lia|].
Qed.

Lemma stride_mod t n x : (0 ≤ t < n)%Z → ((x - t) mod n = 0)%Z → (x mod n = t)%Z.
Proof.
  intros Ht Hx. apply Z.div_exact in Hx; [|lia].
  replace x with (t + (x - t) / n * n)%Z by lia. rewrite Z_mod_plus_full. by apply Z.mod_small.
Qed.

Lemma strides_disjoint ops n i j xs ys x :
  strides ops n !! i = Some xs → strides ops n !! j = Some ys → x ∈ xs → x ∈ ys → i = j.
Proof.
  intros (Hn & Hi & ->)%elem_of_strides (_ & Hj & ->)%elem_of_strides.
  rewrite !elem_of_py_range by done. intros [_ Hx] [_ Hy]. apply Nat2Z.inj.
  apply stride_mod in Hx, Hy; [|lia..]. congruence.
Qed.

Lemma strides_permutation ops n :
  (0 < n)%Z → mjoin (strides ops n) ≡ₚ seqZ 0 ops.
Proof.
  intros Hn. apply NoDup_Permutation.
  - assert (∀ l, NoDup l → (∀ t, t ∈ l → (0 ≤ t < n)%Z) →
      NoDup (mjoin ((λ tid, py_range tid ops n) <$> l))) as Hgen; [|apply Hgen].
    + induction l as [|t l IH]; [intros; constructor|]. intros [Ht Hl]%NoDup_cons Hb. csimpl.
      apply NoDup_app. split_and!; [by apply NoDup_py_range| |apply IH; set_solver].
      intros x Hx (ys & Hy & Hys)%list_elem_of_join.
      apply list_elem_of_fmap in Hys as (t' & -> & Ht'). rewrite elem_of_py_range in Hx, Hy by done.
      destruct Hx as [_ Hx], Hy as [_ Hy]. apply stride_mod in Hx, Hy; [|apply Hb; set_solver..].
      set_solver.
    + apply NoDup_seqZ.
    + intros t Ht%elem_of_seqZ. lia.
  - apply NoDup_seqZ.
  - intros x. rewrite elem_of_seqZ, list_elem_of_join. split.
    + intros (xs & Hx & (t & -> & Ht%elem_of_seqZ)%list_elem_of_fmap).
      rewrite elem_of_py_range in Hx by done. lia.
    + intros Hx. exists (py_range (x mod n) ops n). pose proof (Z.mod_pos_bound x n Hn). split.
      * apply elem_of_py_range; [done|]. split; [pose proof (Z.mod_le x n); lia|].
        rewrite Zminus_mod, Z.mod_mod, Z.sub_diag by lia. by apply Z.mod_0_l; lia.
      * apply list_elem_of_fmap. exists (x mod n)%Z. split; [done|]. apply elem_of_seqZ. lia.
Qed.

(** ** Nodes ([main] of both node benchmarks) *)

(** [f"k{i}"]. *)
Definition bench_key (i : Z) : string := "k" +:+ Int.to_str i.

Lemma bench_key_inj i j : bench_key i = bench_key j → i = j.
Proof.
  intros Heq. assert (Int.to_str i = Int.to_str j) as Hij by (by injection Heq).
  pose proof (Int.of_str_to_str i) as Hi. rewrite Hij, Int.of_str_to_str in Hi. by injection Hi.
Qed.

(** The half-open interval of keys each of the [n] nodes is sent. *)
Definition node_intervals (ops n : Z) : list (Z * Z) :=
  let ops_per_node := (ops / n)%Z in
  (λ i, (i * ops_per_node, (i + 1) * ops_per_node)%Z) <$> seqZ 0 n.

(** The keys of an interval, in the order of [range]. *)
Definition interval_keys (iv : Z * Z) : list Z := seqZ iv.1 (iv.2 - iv.1).

Lemma node_intervals_keys ops n :
  (0 < n)%Z → (0 ≤ ops)%Z →
  mjoin (interval_keys <$> node_intervals ops n) = seqZ 0 (n * (ops / n)).
Proof.
  intros Hn Hops. unfold node_intervals, interval_keys. set (q := (ops / n)%Z).
  assert (0 ≤ q)%Z as Hq by (apply Z.div_pos; lia).
  assert (∀ m : nat, mjoin ((λ iv : Z * Z, seqZ iv.1 (iv.2 - iv.1)) <$>
    ((λ i, (i * q, (i + 1) * q)%Z) <$> seqZ 0 (Z.of_nat m))) = seqZ 0 (Z.of_nat m * q)) as Hm.
  { induction m as [|m IH]; [done|].
    rewrite seqZ_S, Nat2Z.inj_succ, !fmap_app, join_app, IH. csimpl. rewrite app_nil_r.
    replace ((0 + Z.of_nat m + 1) * q - (0 + Z.of_nat m) * q)%Z with q by lia.
    replace (Z.succ (Z.of_nat m) * q)%Z with (Z.of_nat m * q + q)%Z by lia.
    rewrite seqZ_app by lia. done. }
  specialize (Hm (Z.to_nat n)). by rewrite Z2Nat.id in Hm by lia.
Qed.

(** ** Coroutines ([async_run_phase]) *)

(** The cells the workers of a phase share, the milestones printed so far, the
    indexes [op_fn] has been called with, the number of readings the performance
    counter has had, and the rest of the world. *)
Record phase (W : Type) := mkPhase {
  ph_counter : Z;
  ph_reported : Z;
  ph_latencies : list Z;
  ph_errors : Z;
  ph_printed : list Z;
  ph_called : list Z;
  ph_readings : nat;
  ph_world : W;
}.
Arguments mkPhase {W} _ _ _ _ _ _ _ _.
Arguments ph_counter {W} _.
Arguments ph_reported {W} _.
Arguments ph_latencies {W} _.
Arguments ph_errors {W} _.
Arguments ph_printed {W} _.
Arguments ph_called {W} _.
Arguments ph_readings {W} _.
Arguments ph_world {W} _.

Definition milestone (done : Z) : Z := (done / 100000 * 100000)%Z.

Section async_phase.
Context {W : Type} (perf_counter_ns : nat → Z) (op_fn : Z → prog W bool).
Context (labelled : bool) (ops offset : Z).
Implicit Types (s : phase W).

Definition set_world (w : W) s : phase W :=
  mkPhase (ph_counter s) (ph_reported s) (ph_latencies s) (ph_errors s) (ph_printed s)
    (ph_called s) (ph_readings s) w.

Definition on_world {A} : prog W A → prog (phase W) A := prog_zoom ph_world set_world.

(** From the test to the call of [op_fn], without an [await]: the index and the time
    taken, or nothing when the operations are used up. *)
Definition take_index : M (phase W) (option (Z * Z)) := λ s,
  let i := ph_counter s in
  if bool_decide (i >= ops)%Z then (Ok None, s) else
  (Ok (Some (i, perf_counter_ns (ph_readings s))),
   mkPhase (i + 1)%Z (ph_reported s) (ph_latencies s) (ph_errors s) (ph_printed s)
     (ph_called s ++ [offset + i]%Z) (S (ph_readings s)) (ph_world s)).

(** What follows the [await]. *)
Definition record_result (t0 : Z) (ok : bool) : M (phase W) unit := λ s,
  let dt := (perf_counter_ns (ph_readings s) - t0)%Z in
  let due := labelled && bool_decide (ph_counter s - ph_reported s >= 100000)%Z in
  (Ok tt, mkPhase (ph_counter s)
    (if due then milestone (ph_counter s) else ph_reported s)
    (if ok then ph_latencies s ++ [dt] else ph_latencies s)
    (if ok then ph_errors s else ph_errors s + 1)%Z
    (if due then ph_printed s ++ [ph_counter s] else ph_printed s)
    (ph_called s) (S (ph_readings s)) (ph_world s)).

(** A worker; [false] when the fuel ends before the operations do. *)
Fixpoint worker (fuel : nat) : prog (phase W) bool :=
  match fuel with
  | O => mret false
  | S fuel =>
      taken ← act take_index;
      match taken with
      | None => mret true
      | Some (i, t0) =>
          ok ← on_world (op_fn (offset + i));
          act (record_result t0 ok) ;;
          worker fuel
      end
  end.

(** Each worker tests the counter at most once more than there are operations. *)
Definition worker_fuel : nat := S (Z.to_nat ops).

Definition phase_start (w : W) : phase W := mkPhase 0 0 [] 0 [] [] 0 w.

(** The phase after the given schedule. *)
Definition run_workers (concurrency : Z) (order : list nat) (w : W) :
    list (prog (phase W) bool) * phase W :=
  interleave order (replicate (Z.to_nat concurrency) (worker worker_fuel), phase_start w).

(** The results of [asyncio.gather] without [return_exceptions]: none while a worker
    is running or when one has raised, which [gather] then raises in turn. *)
Definition returned (p : prog (phase W) bool) : option bool :=
  match p with Ret (Ok b) => Some b | _ => None end.

Definition all_returned (ws : list (prog (phase W) bool)) : option (list bool) := mapM returned ws.

(** The value of [async_run_phase], once all the workers have ended. *)
Definition async_run_phase (concurrency : Z) (order : list nat) (w : W) : option (list Z * Z) :=
  let st := run_workers concurrency order w in
  all_returned st.1 ;; Some (ph_latencies st.2, ph_errors st.2).

(** *** The invariant

    A worker holds the index it is working on, and marks [(k, b)] that stand for its
    having seen the counter at [b] or more. *)
Abbreviation token := (Z + nat * Z)%type.

Record phase_inv (held : gset token) s : Prop := {
  pi_counter : (0 ≤ ph_counter s ≤ Z.max 0 ops)%Z;
  pi_called : ph_called s = seqZ offset (ph_counter s);
  pi_done : ∃ X : gset Z, (∀ i, inl i ∈ held ↔ i ∈ X) ∧ (∀ i, i ∈ X → i < ph_counter s)%Z ∧
    (Z.of_nat (size X) + Z.of_nat (length (ph_latencies s)) + ph_errors s = ph_counter s)%Z;
  pi_errors : (0 ≤ ph_errors s)%Z;
  pi_seen k b : inr (k, b) ∈ held → (b ≤ ph_counter s)%Z;
  pi_printed : (100000 * Z.of_nat (length (ph_printed s)) ≤ ph_reported s ≤ ph_counter s)%Z;
}.

#[local] Definition untouched (_ : token) (_ _ : phase W) : Prop := True.

#[local] Instance untouched_unchanged : Unchanged untouched.
Proof. by split. Qed.

Abbreviation pwp := (wp phase_inv untouched).

Lemma fresh_mark (X : gset token) b : ∃ k, inr (k, b) ∉ X.
Proof.
  set (Y := set_map (D := gset nat) (λ r : token, match r with inl _ => O | inr (k, _) => k end) X).
  destruct (exist_fresh Y) as [k Hk]. exists k. intros Hin. apply Hk.
  apply elem_of_map. by exists (inr (k, b)).
Qed.

Lemma inv_ext held held' s : (∀ r, r ∈ held ↔ r ∈ held') → phase_inv held s → phase_inv held' s.
Proof. intros Heq. by replace held' with held by (by apply set_eq). Qed.

(** A mark for what the counter has reached. *)
Lemma inv_mark held s b :
  phase_inv held s → (b ≤ ph_counter s)%Z → ∃ k, (inr (k, b) ∉ held) ∧ phase_inv ({[inr (k, b)]} ∪ held) s.
Proof.
  intros [? ? (X & HX & HXc & Hs) ? Hseen ?] Hb. destruct (fresh_mark held b) as [k Hk].
  exists k. split; [done|]. split; try done.
  - exists X. split; [|done]. intros i. rewrite <- HX. set_solver.
  - intros k' b' [[= -> ->]%elem_of_singleton|Hin]%elem_of_union; [done|by eapply Hseen].
Qed.

(** Taking an index, when there is one left. *)
Lemma inv_take held s :
  phase_inv held s → (ph_counter s < ops)%Z →
  (inl (ph_counter s) ∉ held) ∧ phase_inv ({[inl (ph_counter s)]} ∪ held) (take_index s).2.
Proof.
  intros [Hc Hcalled (X & HX & HXc & Hs) ? Hseen ?] Hlt.
  assert (ph_counter s ∉ X) as Hfresh by (intros Hin; specialize (HXc _ Hin); lia).
  split; [by rewrite HX|]. unfold take_index. rewrite bool_decide_eq_false_2 by lia. split; simpl; try lia.
  - rewrite Hcalled, seqZ_app by lia. done.
  - exists ({[ph_counter s]} ∪ X). split_and!.
    + intros i. rewrite !elem_of_union, !elem_of_singleton, HX. naive_solver.
    + intros i [->%elem_of_singleton|Hi%HXc]%elem_of_union; lia.
    + rewrite size_union, size_singleton by set_solver. lia.
  - intros k b [[=]%elem_of_singleton|Hin]%elem_of_union. specialize (Hseen _ _ Hin). lia.
Qed.

(** Recording the result of the operation on index [i]. *)
Lemma inv_record held s i t0 ok :
  phase_inv ({[inl i]} ∪ held) s → inl i ∉ held → phase_inv held (record_result t0 ok s).2.
Proof.
  intros [Hc Hcalled (X & HX & HXc & Hs) ? Hseen ?] Hi. split; simpl; try done.
  - exists (X ∖ {[i]}). assert (i ∈ X) as HiX by (apply HX; set_solver). split_and!.
    + intros j. rewrite elem_of_difference, elem_of_singleton, <- HX, elem_of_union, elem_of_singleton.
      split; [|naive_solver]. intros Hj. split; [by right|]. by intros ->.
    + set_solver.
    + assert (size X ≠ 0) by (apply size_non_empty_iff; set_solver).
      rewrite size_difference, size_singleton by set_solver.
      destruct ok; rewrite ?length_app; simpl; lia.
  - destruct ok; lia.
  - intros k b Hin. apply (Hseen k). by apply elem_of_union_r.
  - case_match eqn:Hdue; [|done]. apply andb_prop in Hdue as [_ Hdue%bool_decide_eq_true].
    rewrite length_app. simpl. unfold milestone.
    pose proof (Z_div_mod_eq_full (ph_counter s) 100000).
    pose proof (Z.mod_pos_bound (ph_counter s) 100000).
    assert (Z.of_nat (length (ph_printed s)) + 1 ≤ ph_counter s / 100000)%Z; [|lia].
    apply Z.div_le_lower_bound; lia.
Qed.

(** A worker ends, if not with an exception of [op_fn], because the operations are
    used up, and then it works on nothing. *)
Definition worker_post (held : gset token) (r : result bool) : Prop :=
  match r with
  | Ok b => b = true ∧ (∀ i, inl i ∉ held) ∧ ∃ k, inr (k, ops) ∈ held
  | Raise e => ∃ i, may_end (op_fn i) (Raise e)
  end.

Lemma wp_take_index (held : gset token) (j : Z) (Q : gset token → result (option (Z * Z)) → Prop) :
  (j = 0 ∨ ∃ k, inr (k, j) ∈ held)%Z →
  (∀ k, Q ({[inr (k, ops)]} ∪ held) (Ok None)) →
  (∀ i t0 k, inl i ∉ held → (j < ops)%Z →
     Q ({[inl i]} ∪ ({[inr (k, j + 1)%Z]} ∪ held)) (Ok (Some (i, t0)))) →
  pwp held (act take_index) Q.
Proof.
  intros Hj Hnone Hsome. apply wp_act. intros others s Hd Hinv.
  assert (j ≤ ph_counter s)%Z as Hjc.
  { destruct Hinv as [? _ _ _ Hseen _], Hj as [->|[k Hk]]; [lia|]. apply (Hseen k). set_solver. }
  destruct (decide (ph_counter s < ops)%Z) as [Hlt|Hge].
  - destruct (inv_take _ _ Hinv Hlt) as [Hfresh Hinv'].
    destruct (inv_mark _ _ (j + 1)%Z Hinv') as (k & Hk & Hinv'').
    { unfold take_index. rewrite bool_decide_eq_false_2 by lia. simpl. lia. }
    exists ({[inl (ph_counter s)]} ∪ ({[inr (k, (j + 1)%Z)]} ∪ held)).
    split; [set_solver|]. split; [|split; [done|]].
    + eapply inv_ext; [|exact Hinv'']. set_solver.
    + unfold take_index. rewrite bool_decide_eq_false_2 by lia. apply Hsome; [set_solver|lia].
  - destruct (inv_mark _ _ ops Hinv) as (k & Hk & Hinv'); [lia|].
    exists ({[inr (k, ops)]} ∪ held). unfold take_index. rewrite bool_decide_eq_true_2 by lia.
    split; [set_solver|]. split; [|split; [done|apply Hnone]].
    eapply inv_ext; [|exact Hinv']. set_solver.
Qed.

Lemma wp_record (held : gset token) (i t0 : Z) (ok : bool) (Q : gset token → result unit → Prop) :
  inl i ∉ held → Q held (Ok tt) → pwp ({[inl i]} ∪ held) (act (record_result t0 ok)) Q.
Proof.
  intros Hi HQ. apply wp_act. intros others s Hd Hinv. exists held.
  split; [set_solver|]. split; [|by split].
  apply (inv_record _ _ i); [|set_solver]. eapply inv_ext; [|exact Hinv]. set_solver.
Qed.

Lemma wp_worker (fuel : nat) (j : Z) (held : gset token) :
  (∀ i, inl i ∉ held) → (j = 0 ∨ ∃ k, inr (k, j) ∈ held)%Z →
  (0 ≤ j ≤ Z.max 0 ops)%Z → (Z.max 0 ops < j + Z.of_nat fuel)%Z →
  pwp held (worker fuel) worker_post.
Proof.
  revert j held. induction fuel as [|fuel IH]; intros j held Hno Hj Hb Hf; [lia|].
  cbn [worker]. apply wp_bind. apply wp_take_index with j; [done|..].
  - intros k. simpl. split; [done|]. split; [set_solver|]. exists k. set_solver.
  - intros i t0 k Hi Hlt. apply wp_bind, wp_zoom.
    + intros h s w [? ? ? ? ? ?]. by split.
    + done.
    + intros [ok|e] Hend; [|by eexists]. apply wp_bind, wp_record; [set_solver|].
      apply (IH (j + 1)%Z); [set_solver|right; exists k; set_solver|lia..].
Qed.

Lemma phase_start_inv (w : W) : phase_inv ∅ (phase_start w).
Proof.
  split; simpl; try done; try lia. exists ∅. split_and!; [set_solver..|]. by rewrite size_empty.
Qed.

Lemma run_workers_safe (concurrency : Z) (order : list nat) (w : W) :
  ∃ helds, safe_threads phase_inv untouched (λ _, worker_post) helds (run_workers concurrency order w).
Proof.
  eapply interleave_safe; [apply _|]. rewrite <- (length_replicate (Z.to_nat concurrency) (worker worker_fuel)) at 1.
  apply (safe_start phase_inv untouched (λ _, worker_post)); [|apply phase_start_inv].
  intros i p [-> _]%lookup_replicate. apply (wp_worker _ 0); [set_solver|by left|lia|].
  unfold worker_fuel. lia.
Qed.

Lemma run_workers_length concurrency order w :
  length (run_workers concurrency order w).1 = Z.to_nat concurrency.
Proof. unfold run_workers. rewrite interleave_length. apply length_replicate. Qed.

(** The workers at their ends: what the phase then holds. *)
Lemma all_returned_complete concurrency order w rs :
  (0 < concurrency)%Z → all_returned (run_workers concurrency order w).1 = Some rs →
  let s := (run_workers concurrency order w).2 in
  ph_counter s = Z.max 0 ops ∧ (Z.of_nat (length (ph_latencies s)) + ph_errors s = Z.max 0 ops)%Z ∧
  Forall (.= true) rs.
Proof.
  intros Hc Hg. destruct (run_workers_safe concurrency order w) as (helds & [Hlen Hwp] & _ & Hinv).
  pose proof (run_workers_length concurrency order w) as Hn.
  destruct (run_workers concurrency order w) as [ws s]. simpl in *.
  assert (∀ i held, helds !! i = Some held →
    (∃ b, rs !! i = Some b ∧ b = true) ∧ (∀ x, inl x ∉ held) ∧ ∃ k, inr (k, ops) ∈ held) as Hpost.
  { intros i held Hi. destruct (lookup_lt_is_Some_2 ws i) as [p Hp].
    { rewrite <- Hlen. by eapply lookup_lt_Some. }
    specialize (Hwp i held p Hi Hp). unfold all_returned in Hg. apply mapM_Some in Hg.
    destruct (Forall2_lookup_l _ _ _ _ _ Hg Hp) as (b & Hb & Hret).
    destruct p as [[b'|e]|]; try done. injection Hret as ->. destruct Hwp as (-> & ? & ?). eauto. }
  destruct Hinv as [Hcount _ (X & HX & _ & Hsize) _ Hseen _].
  assert (X = ∅) as ->.
  { apply set_eq. intros i. rewrite <- HX. split; [|set_solver].
    intros (held & [j Hj]%list_elem_of_lookup_1 & Hi)%elem_of_union_list. destruct (Hpost j held Hj) as (_ & Hno & _). by destruct (Hno i). }
  destruct (lookup_lt_is_Some_2 helds 0) as [held H0]; [rewrite Hlen, Hn; lia|].
  destruct (Hpost 0 held H0) as (_ & _ & k & Hk).
  assert (ops ≤ ph_counter s)%Z.
  { apply (Hseen k). apply elem_of_union_list. exists held. split; [|done]. by eapply list_elem_of_lookup_2. }
  rewrite size_empty in Hsize. split_and!; [lia|lia|]. apply Forall_lookup. intros i b Hb.
  assert (length ws = length rs) as Hrs by (eapply length_mapM, Hg). destruct (lookup_lt_is_Some_2 helds i) as [h Hh].
  { rewrite Hlen, Hrs. by eapply lookup_lt_Some. }
  destruct (Hpost i h Hh) as ((b' & Hb' & ->) & _). congruence.
Qed.

(** C39. The coroutine pool covers its range exactly.  However the workers are
    scheduled, the indexes handed to [op_fn] are [offset], [offset + 1], ..., each
    once and in order, never past the last; no more results are recorded than
    indexes were handed out, and at most one line of progress is printed per
    100000 of them.  The workers can always be brought to their ends, an exception
    can only be one of [op_fn], and once [async_run_phase] returns every index has
    been used and successes and errors add up to [ops]. *)
Theorem async_phase_exact concurrency order w :
  let s := (run_workers concurrency order w).2 in
  (0 ≤ ph_counter s ≤ Z.max 0 ops)%Z ∧
  ph_called s = seqZ offset (ph_counter s) ∧
  (0 ≤ ph_errors s ∧ Z.of_nat (length (ph_latencies s)) + ph_errors s ≤ ph_counter s)%Z ∧
  (100000 * Z.of_nat (length (ph_printed s)) ≤ ph_counter s)%Z ∧
  (∃ more, Forall (λ p, finished p = true) (run_workers concurrency (order ++ more) w).1) ∧
  (∀ r, Ret r ∈ (run_workers concurrency order w).1 →
    r = Ok true ∨ ∃ e i, r = Raise e ∧ may_end (op_fn i) (Raise e)) ∧
  (∀ lats errs, (0 < concurrency)%Z → async_run_phase concurrency order w = Some (lats, errs) →
    ph_called s = seqZ offset ops ∧ (Z.of_nat (length lats) + errs = Z.max 0 ops)%Z).
Proof.
  intros s. destruct (run_workers_safe concurrency order w) as (helds & [Hlen Hwp] & _ & Hinv).
  destruct Hinv as [Hcount Hcalled (X & _ & _ & Hsize) Herr _ Hprint]. fold s in Hcount, Hcalled, Hsize, Herr, Hprint.
  split_and!; [lia|lia|done|lia|lia|lia| | |].
  - destruct (interleave_finishes (run_workers concurrency order w)) as [more Hmore].
    exists more. unfold run_workers. by rewrite interleave_app.
  - intros r [i Hi]%list_elem_of_lookup_1. destruct (lookup_lt_is_Some_2 helds i) as [held Hh].
    { rewrite Hlen. by eapply lookup_lt_Some. }
    specialize (Hwp i held _ Hh Hi). destruct r as [b|e]; simpl in Hwp.
    + left. by destruct Hwp as [-> _].
    + right. destruct Hwp as [x ?]. by exists e, x.
  - intros lats errs Hc. unfold async_run_phase.
    destruct (all_returned _) as [rs|] eqn:Hg; [|done]. intros [= <- <-].
    destruct (all_returned_complete _ _ _ _ Hc Hg) as (Hc' & Hs & _). fold s in Hc', Hs. split; [|done].
    rewrite Hcalled, Hc'. unfold seqZ. f_equal. f_equal. lia.
Qed.
End async_phase.

(** ** Threads ([sync_run_phase]) *)

(** What the futures hold, added up in the order in which they complete. *)
Fixpoint collect (all_latencies : list Z) (total_errors : Z) (results : list (result (list Z * Z))) :
    result (list Z * Z) :=
  match results with
  | [] => Ok (all_latencies, total_errors)
  | r :: results =>
      '(lats, errs) ← r;
      collect (all_latencies ++ lats) (total_errors + errs) results
  end.

Definition outcome_of {S A} (p : prog S A) : option (result A) :=
  match p with Ret r => Some r | Act _ _ => None end.

(** The value, once all the threads have ended, and the state they leave; [completed]
    is the order in which the futures complete.  An executor needs a worker. *)
Definition sync_run_phase {S} (concurrency : Z) (worker_fn : Z → prog S (list Z * Z))
    (order completed : list nat) (s : S) : option (result (list Z * Z)) * S :=
  if bool_decide (concurrency <= 0)%Z then (Some (Raise ValueError), s) else
  let st := interleave order (worker_fn <$> seqZ 0 concurrency, s) in
  (results ← mapM outcome_of st.1;
   in_order ← mapM (results !!.) completed;
   Some (collect [] 0 in_order), st.2).

Lemma collect_ok l e (pairs : list (list Z * Z)) :
  collect l e (Ok <$> pairs) = Ok (l ++ mjoin pairs.*1, e + foldr Z.add 0 pairs.*2)%Z.
Proof.
  revert l e. induction pairs as [|[ls es] pairs IH]; intros l e; csimpl.
  - by rewrite app_nil_r, Z.add_0_r.
  - rewrite IH. by rewrite <- app_assoc, Z.add_assoc.
Qed.

#[export] Instance sum_permutation : Proper ((≡ₚ) ==> (=)) (foldr Z.add 0%Z).
Proof. intros l1 l2 Hl. induction Hl; simpl; lia. Qed.

(** When every thread returns, the totals do not depend on the order. *)
Lemma collect_completed (results : list (list Z * Z)) completed :
  completed ≡ₚ seq 0 (length results) →
  ∃ lats, (in_order ← mapM ((Ok <$> results) !!.) completed; Some (collect [] 0 in_order)) =
      Some (Ok (lats, foldr Z.add 0 results.*2)%Z) ∧ lats ≡ₚ mjoin results.*1.
Proof.
  intros Hperm.
  assert (∃ pairs, mapM (results !!.) completed = Some pairs ∧ pairs ≡ₚ results) as (pairs & Hm & Hp).
  { assert (∀ o1 o2, o1 ≡ₚ o2 → ∀ ps, mapM (results !!.) o1 = Some ps →
      ∃ ps', mapM (results !!.) o2 = Some ps' ∧ ps' ≡ₚ ps) as Hgen.
    { intros o1 o2 Ho. induction Ho as [|i o1 o2 _ IH|i j o|o1 o2 o3 _ IH1 _ IH2]; intros ps; simpl.
      - intros [= <-]. by exists [].
      - destruct (results !! i) as [p|]; simpl; [|done].
        destruct (mapM _ o1) as [ps1|]; simpl; [|done]. intros [= <-].
        destruct (IH _ eq_refl) as (ps' & -> & Hp). eexists. split; [done|]. by rewrite Hp.
      - destruct (results !! i) as [p|], (results !! j) as [q|]; simpl; try done;
          destruct (mapM _ o) as [ps1|]; simpl; try done. intros [= <-].
        eexists. split; [done|]. constructor.
      - intros H1. destruct (IH1 _ H1) as (ps2 & H2 & Hp2). destruct (IH2 _ H2) as (ps3 & H3 & Hp3).
        exists ps3. split; [done|]. by rewrite Hp3. }
    assert (mapM (results !!.) (seq 0 (length results)) = Some results) as Hseq.
    { apply mapM_Some. apply Forall2_same_length_lookup. split; [by rewrite length_seq|].
      intros i x y [-> _]%lookup_seq. done. }
    destruct (Hgen _ _ (symmetry Hperm) _ Hseq) as (ps & H1 & H2). by exists ps. }
  exists (mjoin pairs.*1).
  assert (mapM ((Ok <$> results) !!.) completed = Some (Ok <$> pairs)) as ->.
  { apply mapM_Some. apply mapM_Some in Hm. apply Forall2_fmap_r. eapply Forall2_impl; [done|].
    intros i p Hi. simpl. by rewrite list_lookup_fmap, Hi. }
  simpl. rewrite collect_ok. simpl. split.
  - do 3 f_equal. apply sum_permutation. by rewrite Hp.
  - by rewrite Hp.
Qed.

(** *** The threads of a node ([nodes/sync_bench.py]) *)
Section node_threads.
Context {W : Type} (perf_counter_ns : nat → Z) (node_op : string → prog W bool).

Definition read_counter : M (W * nat) Z := λ s, (Ok (perf_counter_ns s.2), (s.1, S s.2)).

(** [worker_fn] of either phase, on the keys of its stride; [node_op] tells whether
    the node's [set] or [get] succeeded. *)
Fixpoint node_worker_loop (start : Z) (keys lats : list Z) (errors : Z) : prog (W * nat) (list Z * Z) :=
  match keys with
  | [] => mret (lats, errors)
  | i :: keys =>
      t0 ← act read_counter;
      ok ← prog_zoom fst (λ w s, (w, s.2)) (node_op (bench_key (start + i)));
      t1 ← act read_counter;
      if ok : bool then node_worker_loop start keys (lats ++ [t1 - t0]%Z) errors
      else node_worker_loop start keys lats (errors + 1)
  end.

Definition node_worker (iv : Z * Z) (concurrency tid : Z) : prog (W * nat) (list Z * Z) :=
  node_worker_loop iv.1 (py_range tid (iv.2 - iv.1) concurrency) [] 0.

Lemma may_end_bind {S A B} (p : prog S A) (f : A → prog S B) r :
  may_end (p ≫= f) r →
  (∃ a, may_end p (Ok a) ∧ may_end (f a) r) ∨ ∃ e, may_end p (Raise e) ∧ r = Raise e.
Proof.
  induction p as [[a|e]|X m k IH]; simpl.
  - intros Hr. left. by exists a.
  - intros ->. right. by exists e.
  - intros [x [(a & ? & ?)|(e & ? & ?)]%IH]; [left|right]; eauto.
Qed.

Lemma may_end_zoom {S T A} getter (setter : T → S → S) (p : prog T A) r :
  may_end (prog_zoom getter setter p) r → may_end p r.
Proof.
  induction p as [|X m k IH]; [done|]. intros [s Hs%IH]. exists (getter s). revert Hs. unfold zoom.
  by destruct (m (getter s)).
Qed.

(** One result per key, unless the node raises. *)
Lemma node_worker_counts start keys lats errors r :
  may_end (node_worker_loop start keys lats errors) r →
  (∃ l e, r = Ok (l, e) ∧
    Z.of_nat (length l) + e = Z.of_nat (length lats) + errors + Z.of_nat (length keys))%Z ∨
  ∃ k e, r = Raise e ∧ may_end (node_op k) (Raise e).
Proof.
  revert lats errors. induction keys as [|i keys IH]; intros lats errors Hend.
  { left. exists lats, errors. simpl in *. split; [done|lia]. }
  cbn [node_worker_loop] in Hend.
  apply may_end_bind in Hend as [(t0 & _ & Hend)|(e & [x [=]] & _)].
  apply may_end_bind in Hend as [(ok & _ & Hend)|(e & He%may_end_zoom & ->)]; [|right; eauto].
  apply may_end_bind in Hend as [(t1 & _ & Hend)|(e & [x [=]] & _)].
  destruct ok; apply IH in Hend as [(l & e & -> & Hl)|]; auto; left; exists l, e; (split; [done|]);
    rewrite ?length_app in Hl; simpl in *; lia.
Qed.

(** Over all nodes and threads every key below [n * (ops // n)] is used exactly once,
    and each gives one latency or one error: all of [ops] when [n] divides it, and
    [ops mod n] fewer when it does not. *)
Theorem node_bench_covers ops n concurrency (results : list (list (list Z * Z))) :
  (0 < n)%Z → (0 ≤ ops)%Z → (0 < concurrency)%Z →
  (mjoin ((λ iv, Z.add iv.1 <$> mjoin (strides (iv.2 - iv.1) concurrency)) <$> node_intervals ops n)
    ≡ₚ seqZ 0 (ops - ops mod n)) ∧
  (Forall2 (λ iv rs, Forall2 (λ tid r, may_end (node_worker iv concurrency tid) (Ok r))
      (seqZ 0 concurrency) rs) (node_intervals ops n) results →
   foldr Z.add 0 ((λ rs : list (list Z * Z), foldr Z.add 0 ((λ r, Z.of_nat (length r.1) + r.2) <$> rs))
     <$> results) = ops - ops mod n)%Z.
Proof.
  intros Hn Hops Hc.
  assert (ops - ops mod n = n * (ops / n))%Z as -> by (pose proof (Z_div_mod_eq_full ops n); lia).
  rewrite <- node_intervals_keys by done.
  assert (∀ iv, Z.add iv.1 <$> mjoin (strides (iv.2 - iv.1) concurrency) ≡ₚ interval_keys iv) as Hiv.
  { intros [a b]. rewrite strides_permutation by done. unfold interval_keys. simpl.
    by rewrite fmap_add_seqZ, Z.add_0_r. }
  split.
  { induction (node_intervals ops n) as [|iv ivs IH]; [done|]. csimpl. by rewrite Hiv, IH. }
  intros Hall.
  transitivity (Z.of_nat (length (mjoin (interval_keys <$> node_intervals ops n)))).
  2: { rewrite node_intervals_keys, length_seqZ by done.
    rewrite Z2Nat.id; [done|]. apply Z.mul_nonneg_nonneg; [lia|]. apply Z.div_pos; lia. }
  induction Hall as [|iv rs ivs rss Hrs _ IH]; [done|]. csimpl. rewrite IH, length_app, Nat2Z.inj_add.
  f_equal. rewrite <- (Hiv iv), length_fmap. unfold strides. clear IH.
  induction Hrs as [|tid [l e] tids rs Hr _ IH]; [done|]. csimpl. rewrite IH, length_app, Nat2Z.inj_add.
  f_equal. unfold node_worker in Hr.
  destruct (node_worker_counts _ _ _ _ _ Hr) as [(l' & e' & [= -> ->] & Hl)|(? & ? & ? & _)]; [|done].
  simpl in Hl. lia.
Qed.
End node_threads.

(** *** Progress ([SyncProgress]) *)
Record progress := mkProgress { sp_done : Z; sp_last : Z; sp_printed : list Z }.

Definition progress_start : progress := mkProgress 0 0 [].

(** [tick], under the lock. *)
Definition tick (ops count : Z) : M progress unit := modify (λ p,
  let done := (sp_done p + count)%Z in
  if bool_decide (milestone done > sp_last p ∧ milestone done <= ops)%Z
  then mkProgress done (milestone done) (sp_printed p ++ [milestone done])
  else mkProgress done (sp_last p) (sp_printed p)).

(** Ticked one by one, the milestones up to [ops] are printed as they are reached,
    each once. *)
Definition progress_inv (ops : Z) (p : progress) : Prop :=
  (0 ≤ sp_done p)%Z ∧ sp_last p = milestone (Z.min (sp_done p) ops) ∧
  sp_printed p = (λ i, 100000 * (i + 1))%Z <$> seqZ 0 (Z.min (sp_done p) ops / 100000).

Lemma milestone_step n : (0 ≤ n)%Z →
  milestone (n + 1) = milestone n ∨ (milestone (n + 1) = n + 1 ∧ (n + 1) / 100000 = n / 100000 + 1)%Z.
Proof.
  intros Hn. unfold milestone. pose proof (Z_div_mod_eq_full n 100000).
  pose proof (Z.mod_pos_bound n 100000).
  destruct (decide (n mod 100000 = 99999)%Z) as [Hm|Hm].
  - right. assert (n + 1 = (n / 100000 + 1) * 100000)%Z as Heq by lia.
    assert ((n + 1) / 100000 = n / 100000 + 1)%Z as -> by (by rewrite Heq, Z.div_mul). lia.
  - left. f_equal. symmetry. apply (Z.div_unique _ _ _ (n mod 100000 + 1)); lia.
Qed.

Lemma tick_inv ops p : (0 ≤ ops)%Z → progress_inv ops p → progress_inv ops (tick ops 1 p).2.
Proof.
  intros Hops (Hd & Hl & Hp). unfold tick, modify. simpl.
  destruct (decide (sp_done p < ops)%Z) as [Hlt|Hge].
  - rewrite Z.min_l in Hl, Hp by lia. rewrite Hl.
    destruct (milestone_step (sp_done p)) as [Hm|[Hm Hdiv]]; [done| |].
    + rewrite bool_decide_eq_false_2 by lia. repeat split; simpl; [lia|by rewrite Z.min_l by lia|].
      rewrite Hp, Z.min_l by lia. f_equal. f_equal. unfold milestone in Hm. lia.
    + assert (milestone (sp_done p) ≤ sp_done p)%Z.
      { unfold milestone. rewrite Z.mul_comm. apply Z.mul_div_le. lia. }
      rewrite bool_decide_eq_true_2 by lia. repeat split; simpl; [lia|by rewrite Z.min_l by lia|].
      rewrite Hp, Z.min_l, Hdiv by lia. rewrite seqZ_app by (try apply Z.div_pos; lia).
      rewrite fmap_app. f_equal. simpl. f_equal. rewrite Hm.
      pose proof (Z_div_mod_eq_full (sp_done p + 1) 100000). unfold milestone in Hm. lia.
  - rewrite Z.min_r in Hl, Hp by lia.
    rewrite bool_decide_eq_false_2; [|].
    + repeat split; simpl; [lia|by rewrite Z.min_r by lia|by rewrite Z.min_r by lia].
    + intros [H1 H2]. rewrite Hl in H1.
      assert (milestone (sp_done p + 1) ≤ milestone ops)%Z; [|lia]. unfold milestone in *.
      pose proof (Z.div_le_lower_bound ops 100000 ((sp_done p + 1) / 100000)). lia.
Qed.
