(* ===== verification/Report.v ===== *)
(** * What the benchmarks print ([benchmarks/framework.py])

    Python's format specifications for integers and floats, the percentiles, and the
    table of a phase as the list of its lines.  Latencies are differences of
    [perf_counter_ns], integers; elapsed times are floats. *)
From Stdlib Require Import SpecFloat Ascii.
From S2P Require Import Prelude PyBase.

(** ** Numbers *)

Inductive num := NInt (z : Z) | NFloat (f : Float.t).

Module Num.
(** An integer as a datum of any width. *)
Definition exact (z : Z) : Float.t :=
  match z with
  | Z0 => S754_zero false
  | Zpos m => S754_finite false m 0
  | Zneg m => S754_finite true m 0
  end.

Definition sub (x y : Float.t) : Float.t := SFsub 53 1024 x y.
Definition mul (x y : Float.t) : Float.t := SFmul 53 1024 x y.

(** [a / b] on integers: the quotient, rounded once. *)
Definition int_div (a b : Z) : result Float.t :=
  if bool_decide (b = 0)%Z then Raise ZeroDivisionError else
  match SFdiv 53 1024 (exact a) (exact b) with
  | S754_infinity _ => Raise OverflowError
  | q => Ok q
  end.

(** [x / y] on floats. *)
Definition float_div (x y : Float.t) : result Float.t :=
  match y with
  | S754_zero _ => Raise ZeroDivisionError
  | _ => Ok (SFdiv 53 1024 x y)
  end.

(** [float(z)]. *)
Definition to_float (x : num) : Float.t := match x with NInt z => Float.of_Z z | NFloat f => f end.

(** [x / z] and [x < z] for an integer [z]. *)
Definition div_int (x : num) (z : Z) : result Float.t :=
  match x with NInt a => int_div a z | NFloat f => float_div f (Float.of_Z z) end.
Definition ltb_int (x : num) (z : Z) : bool :=
  match x with NInt a => bool_decide (a < z)%Z | NFloat f => Float.ltb f (Float.of_Z z) end.

(** [int(x)], towards zero. *)
Definition trunc (x : Float.t) : result Z :=
  match x with
  | S754_zero _ => Ok 0%Z
  | S754_infinity _ => Raise OverflowError
  | S754_nan => Raise ValueError
  | S754_finite s m e =>
      let a := if bool_decide (0 <= e)%Z then Z.shiftl (Zpos m) e else Z.shiftr (Zpos m) (- e) in
      Ok (if s : bool then - a else a)%Z
  end.

(** The integer nearest to [a / b], to the even one when it lies in the middle of two. *)
Definition half_even (a b : Z) : Z :=
  let q := (a / b)%Z in let r := (a mod b)%Z in
  match (2 * r ?= b)%Z with
  | Lt => q
  | Gt => q + 1
  | Eq => if Z.even q then q else q + 1
  end%Z.

(** The magnitude of a finite number, in units of [10 ^ -d], as its decimal format rounds it. *)
Definition scaled (d : nat) (m : positive) (e : Z) : Z :=
  if bool_decide (0 <= e)%Z then (Zpos m * 2 ^ e * 10 ^ Z.of_nat d)%Z
  else half_even (Zpos m * 10 ^ Z.of_nat d) (2 ^ (- e)).

Lemma half_even_nearest a b : (0 < b)%Z → (2 * Z.abs (half_even a b * b - a) ≤ b)%Z.
Proof.
  intros Hb. unfold half_even. pose proof (Z_div_mod_eq_full a b). pose proof (Z.mod_pos_bound a b Hb).
  destruct (Z.compare_spec (2 * (a mod b)) b); [destruct (Z.even _)|..]; nia.
Qed.

(** What is printed of [m * 2 ^ e] is within half a unit of its last place. *)
Lemma scaled_nearest d m e :
  (2 * Z.abs (scaled d m e * 2 ^ Z.max 0 (- e) - Zpos m * 10 ^ Z.of_nat d * 2 ^ Z.max 0 e) ≤ 2 ^ Z.max 0 (- e))%Z.
Proof.
  unfold scaled. case_bool_decide as He.
  - rewrite Z.max_l, (Z.max_r 0 e) by lia. rewrite Z.pow_0_r. nia.
  - rewrite (Z.max_r 0 (- e)), (Z.max_l 0 e) by lia. rewrite Z.pow_0_r, Z.mul_1_r.
    apply half_even_nearest. apply Z.pow_pos_nonneg; lia.
Qed.
End Num.

(** ** Format specifications *)
Module Fmt.
(** The number of characters of a string, whose bytes are UTF-8. *)
Fixpoint width (s : string) : nat :=
  match s with
  | EmptyString => O
  | String c s => if bool_decide (128 ≤ nat_of_ascii c < 192) then width s else S (width s)
  end.

Fixpoint repeat_str (s : string) (n : nat) : string :=
  match n with O => "" | S n => s +:+ repeat_str s n end.

(** [f"{s:>w}"] and [f"{s:<w}"]. *)
Definition right (w : nat) (s : string) : string := repeat_str " " (w - width s) +:+ s.
Definition left (w : nat) (s : string) : string := s +:+ repeat_str " " (w - width s).

(** Commas between groups of three digits. *)
Fixpoint thousands (s : string) : string :=
  match s with
  | EmptyString => EmptyString
  | String c s' =>
      let rest := thousands s' in
      String c (if bool_decide (s' ≠ "" ∧ String.length s' `mod` 3 = 0) then String "," rest else rest)
  end.

(** A sign and the digits after it. *)
Definition signed (neg : bool) (s : string) : string := if neg then String "-" s else s.

(** [f"{z:,}"]. *)
Definition commas (z : Z) : string := signed (bool_decide (z < 0)%Z) (thousands (Int.to_str (Z.abs z))).

(** The last [d] digits of [n], and what is in front of them. *)
Fixpoint last_digits (d : nat) (n : Z) : string :=
  match d with
  | O => EmptyString
  | S d => last_digits d (n / 10) +:+ Int.to_str (n mod 10)
  end.

(** [f"{x:.df}"], its whole part written by [whole]. *)
Definition fixed_with (whole : string → string) (d : nat) (x : Float.t) : string :=
  let body (n : Z) : string :=
    whole (Int.to_str (n / 10 ^ Z.of_nat d)) +:+
    match d with O => "" | _ => String "." (last_digits d n) end in
  match x with
  | S754_nan => "nan"
  | S754_infinity s => signed s "inf"
  | S754_zero s => signed s (body 0%Z)
  | S754_finite s m e => signed s (body (Num.scaled d m e))
  end.

(** [f"{x:.df}"] and [f"{x:,.df}"]. *)
Definition fixed : nat → Float.t → string := fixed_with id.
Definition fixed_commas : nat → Float.t → string := fixed_with thousands.

(** The commas only separate: the digits are those of the number. *)
Fixpoint without_commas (s : string) : string :=
  match s with
  | EmptyString => EmptyString
  | String c s => if decide (c = ","%char) then without_commas s else String c (without_commas s)
  end.

Lemma without_thousands s : without_commas (thousands s) = without_commas s.
Proof.
  induction s as [|c s IH]; [done|]. cbn [thousands]. case_bool_decide; cbn [without_commas];
    (destruct (decide (c = ","%char)); [|f_equal]); (by rewrite <- IH) || idtac.
Qed.

Lemma without_commas_id s : Str.mem "," s = false → without_commas s = s.
Proof.
  induction s as [|c s IH]; [done|]. simpl. destruct (decide (","%char = c)) as [|Hne]; [done|]. intros Hm.
  destruct (decide (c = ","%char)) as [->|]; [done|]. by rewrite IH.
Qed.

Lemma digits_no_comma b acc s n : Int.digits b acc s = Some (n, "") → Str.mem "," s = false.
Proof.
  revert b acc. induction s as [|c s IH]; intros b acc Hd; [done|]. simpl in Hd. simpl.
  destruct (Int.digit c) as [d|] eqn:Hc.
  - assert (","%char ≠ c) by (by intros <-). rewrite decide_False by done. eauto.
  - destruct b; [|done]. destruct (decide (c = "_"%char)) as [->|]; [|by simplify_eq]. simpl. eauto.
Qed.

Lemma to_str_no_comma z : (0 ≤ z)%Z → Str.mem "," (Int.to_str z) = false.
Proof.
  intros Hz. unfold Int.to_str. destruct z as [|p|p]; [done| |lia].
  eapply digits_no_comma. apply (Int.digits_pretty_N (N.pos p)).
Qed.

Lemma to_str_neg z : (z < 0)%Z → Int.to_str z = String "-" (Int.to_str (- z)).
Proof. by destruct z. Qed.

(** A number printed with commas is read back when they are left out. *)
Theorem commas_roundtrip z : Int.of_str (without_commas (commas z)) = Ok z.
Proof.
  rewrite <- (Int.of_str_to_str z). f_equal. unfold commas. case_bool_decide as Hz; cbn [signed without_commas].
  - rewrite (to_str_neg z Hz), Z.abs_neq by lia. destruct (decide _) as [|_]; [done|].
    rewrite without_thousands, without_commas_id; [done|]. apply to_str_no_comma. lia.
  - rewrite Z.abs_eq, without_thousands, without_commas_id by (apply to_str_no_comma || lia; lia). done.
Qed.
End Fmt.

(** ** [benchmarks/framework.py] *)

(** [data[i]], from the end when [i] is negative. *)
Definition index (data : list Z) (i : Z) : result Z :=
  let i := if bool_decide (0 <= i)%Z then i else (Z.of_nat (length data) + i)%Z in
  if bool_decide (0 <= i)%Z then from_option Ok (Raise IndexError) (data !! Z.to_nat i) else Raise IndexError.

Definition percentile (data : list Z) (p : Z) : result Float.t :=
  match data with
  | [] => Ok (Float.of_Z 0)
  | _ =>
      let last := (Z.of_nat (length data) - 1)%Z in
      k ← Num.int_div (last * p) 100;
      lo ← Num.trunc k;
      a ← index data lo;
      b ← index data (Z.min (lo + 1) last);
      Ok (Float.add (Float.of_Z a) (Num.mul (Float.of_Z (b - a)) (Num.sub k (Float.of_Z lo))))
  end.

Definition fmt_ns (ns : num) : result string :=
  if Num.ltb_int ns 1000 then Ok (Fmt.fixed 0 (Num.to_float ns) +:+ " ns") else
  if Num.ltb_int ns 1000000 then x ← Num.div_int ns 1000; Ok (Fmt.fixed 1 x +:+ " µs") else
  x ← Num.div_int ns 1000000; Ok (Fmt.fixed 2 x +:+ " ms").

Definition newline : string := String "010" "".

Definition rule : string := Fmt.repeat_str "─" 54.

(** One line of the latencies. *)
Definition latency_line (name : string) (ns : result num) : result string :=
  x ← ns;
  t ← fmt_ns x;
  Ok ("  " +:+ name +:+ " latency : " +:+ Fmt.right 12 t).

(** The lines it prints; the latencies are sorted in place. *)
Definition print_results (label : string) (latencies : list Z) (elapsed : Float.t) (errors : Z) :
    result (list string) :=
  let n := (Z.of_nat (length latencies) + errors)%Z in
  if bool_decide (n = 0)%Z then Ok [] else
  let latencies := merge_sort Z.le latencies in
  ops_s ← (if Float.ltb (Float.of_Z 0) elapsed then Num.float_div (Float.of_Z n) elapsed else Ok (Float.of_Z 0));
  error_lines ← (if bool_decide (errors = 0)%Z then Ok [] else
    share ← Num.int_div errors n;
    Ok ["  errors      : " +:+ Fmt.right 12 (Fmt.commas errors) +:+
        "  (" +:+ Fmt.fixed 2 (Num.mul share (Float.of_Z 100)) +:+ "%)"]);
  latency_lines ← match latencies with
    | [] => Ok []
    | _ =>
        p50 ← latency_line "p50" (x ← percentile latencies 50; Ok (NFloat x));
        p95 ← latency_line "p95" (x ← percentile latencies 95; Ok (NFloat x));
        p99 ← latency_line "p99" (x ← percentile latencies 99; Ok (NFloat x));
        slowest ← latency_line "max" (x ← index latencies (-1); Ok (NInt x));
        Ok [p50; p95; p99; slowest]
    end;
  Ok ([newline +:+ rule; "  " +:+ label; rule;
       "  total ops   : " +:+ Fmt.right 12 (Fmt.commas n)] ++ error_lines ++
      ["  elapsed     : " +:+ Fmt.right 12 (Fmt.fixed 2 elapsed) +:+ " s";
       "  throughput  : " +:+ Fmt.right 12 (Fmt.fixed_commas 0 ops_s) +:+ " ops/s"] ++
      latency_lines ++ [rule]).

(** [try_uvloop], for the outcome of importing uvloop; the state is the event loop policy
    when one has been set. *)
Definition try_uvloop {P} (import_uvloop : result P) : M (option P) string :=
  try_except
    (policy ← lift_result import_uvloop;
     put_state (Some policy) ;;
     mret "uvloop")
    (λ e, if decide (e = ImportError) then mret "asyncio" else raise e).
