(* ===== verification/Bench.v ===== *)
(** * Benchmarks of several processes ([benchmarks/nodes/] and [benchmarks/redis/])

    [main] starts one process for each node (or client), asks them all for the same
    phase, and waits for as many results as there are processes.  Here are the
    programs of both sides and the system they form; [BenchSpec] has the theorems.

    [main] is a program of queue operations; a process is a state machine, since its
    loop has no end of its own.  A [multiprocessing.Queue] keeps the order of each
    process that puts into it, and a thread of that process moves what was put to the
    pipe, some time later. *)
From S2P Require Import Prelude Threads PyBase Types Store Workload Report.

(** ** Messages *)

(** [(phase, start_i, end_i, value_size)]. *)
Record command := mkCommand {
  cmd_phase : string;
  cmd_start : Z;
  cmd_end : Z;
  cmd_value_size : Z;
}.

(** ["ready"], or the latencies and errors of a phase. *)
Inductive item := Ready | Phase (r : list Z * Z).

(** ** The program of [main] *)

(** Starting process [i], [result_queue.get()], [cmd_queues[i].put(c)],
    [time.perf_counter()] and [print]. *)
Inductive coord (A : Type) : Type :=
  | CRet (r : result A)
  | CStart (i : nat) (k : coord A)
  | CGet (k : item → coord A)
  | CPut (i : nat) (c : option command) (k : coord A)
  | CNow (k : Float.t → coord A)
  | CPrint (line : string) (k : coord A).
Arguments CRet {A} _.
Arguments CStart {A} _ _.
Arguments CGet {A} _.
Arguments CPut {A} _ _ _.
Arguments CNow {A} _.
Arguments CPrint {A} _ _.

Fixpoint coord_bind {A B} (f : A → coord B) (p : coord A) : coord B :=
  match p with
  | CRet (Ok a) => f a
  | CRet (Raise e) => CRet (Raise e)
  | CStart i k => CStart i (coord_bind f k)
  | CGet k => CGet (λ x, coord_bind f (k x))
  | CPut i c k => CPut i c (coord_bind f k)
  | CNow k => CNow (λ t, coord_bind f (k t))
  | CPrint line k => CPrint line (coord_bind f k)
  end.

#[export] Instance coord_ret : MRet coord := λ A a, CRet (Ok a).
#[export] Instance coord_mbind : MBind coord := λ A B, coord_bind.

Definition done : coord unit := CRet (Ok tt).

(** [for x in xs: body(x)] and [[body() for x in xs]]. *)
Fixpoint coord_for {X} (xs : list X) (body : X → coord unit) : coord unit :=
  match xs with
  | [] => done
  | x :: xs => body x ;; coord_for xs body
  end.

Fixpoint coord_map {X B} (xs : list X) (body : X → coord B) : coord (list B) :=
  match xs with
  | [] => mret []
  | x :: xs => y ← body x; ys ← coord_map xs body; mret (y :: ys)
  end.

Definition print_all (lines : list string) : coord unit := coord_for lines (λ line, CPrint line done).

(** [range(workers)]. *)
Definition processes (workers : Z) : list nat := seq 0 (Z.to_nat workers).

(** [assert result_queue.get() == "ready"]. *)
Definition get_ready : coord unit :=
  CGet (λ x, match x with Ready => done | Phase _ => CRet (Raise AssertionError) end).

(** Giving everyone its share of a phase, and the results with the time they took. *)
Definition timed_phase (phase : string) (workers ops_per_node value_size : Z) : coord (list item * Float.t) :=
  coord_for (processes workers) (λ i,
    CPut i (Some (mkCommand phase (Z.of_nat i * ops_per_node) ((Z.of_nat i + 1) * ops_per_node) value_size)) done) ;;
  t0 ← CNow mret;
  results ← coord_map (processes workers) (λ _, CGet mret);
  t1 ← CNow mret;
  mret (results, Num.sub t1 t0).

(** [lats, e = r]; the word ["ready"] has five letters. *)
Definition unpack (x : item) : result (list Z * Z) :=
  match x with Phase r => Ok r | Ready => Raise ValueError end.

(** [[lat for lats, _ in results for lat in lats]] and [sum(e for _, e in results)]. *)
Definition flatten (results : list item) : result (list Z * Z) :=
  rs ← foldr (λ x rest, r ← unpack x; rs ← rest; Ok (r :: rs)) (Ok []) results;
  Ok (mjoin rs.*1, foldr Z.add 0%Z rs.*2).

(** [a // b]. *)
Definition floor_div (a b : Z) : result Z := if bool_decide (b = 0)%Z then Raise ZeroDivisionError else Ok (a / b)%Z.

(** What the three scripts have in common: everything but the banner and the number of
    processes.  The value is what [main] prints of: the latencies and errors of each phase.
    [join] waits five seconds at most and has no value. *)
Definition coordinate (banner : list string) (ops workers value_size : Z) :
    coord ((list Z * Z) * (list Z * Z)) :=
  print_all banner ;;
  coord_for (processes workers) (λ i, CStart i done) ;;
  CPrint "Warming up connections …" done ;;
  coord_for (processes workers) (λ _, get_ready) ;;
  CPrint ("Connections warmed." +:+ newline) done ;;
  ops_per_node ← CRet (floor_div ops workers);
  CPrint ("Running " +:+ Fmt.commas ops +:+ " writes …") done ;;
  writes ← timed_phase "write" workers ops_per_node value_size;
  CPrint (newline +:+ "Running " +:+ Fmt.commas ops +:+ " reads …") done ;;
  reads ← timed_phase "read" workers ops_per_node value_size;
  coord_for (processes workers) (λ i, CPut i None done) ;;
  w ← CRet (flatten writes.1);
  r ← CRet (flatten reads.1);
  write_lines ← CRet (print_results "WRITES" w.1 writes.2 w.2);
  print_all write_lines ;;
  read_lines ← CRet (print_results "READS " r.1 reads.2 r.2);
  print_all read_lines ;;
  mret (w, r).

(** *** The three scripts *)

Definition SYNC_ADDRS : list string := ["127.0.0.1:7201"; "127.0.0.1:7202"; "127.0.0.1:7203"].
Definition SYNC_REPLICATION : Z := 3.

Definition sync_bench_main (ops concurrency value_size : Z) :=
  let n := Z.of_nat (length SYNC_ADDRS) in
  coordinate
    [newline +:+ "dlstorage SYNC benchmark  (one process per node)";
     "  ops         : " +:+ Fmt.commas ops;
     "  concurrency : " +:+ Int.to_str concurrency +:+ "  (OS threads, per node)";
     "  value size  : " +:+ Int.to_str value_size +:+ " bytes";
     "  nodes       : " +:+ Int.to_str n;
     "  replication : " +:+ Int.to_str SYNC_REPLICATION +:+ newline] ops n value_size.

Definition ASYNC_ADDRS : list string := ["127.0.0.1:7101"; "127.0.0.1:7102"; "127.0.0.1:7103"].
Definition ASYNC_REPLICATION : Z := 2.

Definition async_bench_main (ops concurrency value_size : Z) :=
  let n := Z.of_nat (length ASYNC_ADDRS) in
  coordinate
    [newline +:+ "dlstorage async benchmark  (one process per node)";
     "  ops         : " +:+ Fmt.commas ops;
     "  concurrency : " +:+ Int.to_str concurrency +:+ "  (per node)";
     "  value size  : " +:+ Int.to_str value_size +:+ " bytes";
     "  nodes       : " +:+ Int.to_str n;
     "  replication : " +:+ Int.to_str ASYNC_REPLICATION +:+ newline] ops n value_size.

Definition redis_bench_main (ops concurrency value_size : Z) (host : string) (port workers : Z) :=
  coordinate
    [newline +:+ "Redis benchmark  (" +:+ host +:+ ":" +:+ Int.to_str port +:+ ")";
     "  ops         : " +:+ Fmt.commas ops;
     "  concurrency : " +:+ Int.to_str concurrency +:+ "  (per worker)";
     "  value size  : " +:+ Int.to_str value_size +:+ " bytes";
     "  workers     : " +:+ Int.to_str workers +:+ newline] ops workers value_size.

(** ** The processes *)

(** What a process works on: getting ready, or a command. *)
Inductive task := Boot | Do (c : command).

(** A process outside its queue operations: not started, at work, in [cmd_queue.get()],
    past its loop, or ended by an exception. *)
Inductive worker := Unstarted | Busy (t : task) | Waiting | Stopped | Died (e : exn).

(** A process, its queue of commands, and what it has put but not yet sent. *)
Record slot := mkSlot { sl_worker : worker; sl_cmds : list (option command); sl_out : list item }.

Definition start_slot (s : slot) : slot := mkSlot (Busy Boot) (sl_cmds s) (sl_out s).
Definition put_slot (c : option command) (s : slot) : slot := mkSlot (sl_worker s) (sl_cmds s ++ [c]) (sl_out s).

(** *** The processes of the three scripts

    [outcome i t r]: process [i] may end its work on [t] with [r].  The methods of the
    node are programs of atomic actions on the world of its process, network included. *)

(** What the scripts use of a node. *)
Record node_progs (W : Type) := mkNodeProgs {
  np_start : prog W unit;                          (* [StorageNode(...)] and [start()] *)
  np_peers : prog W (list NodeInfo);               (* [node._ring.nodes()] but [node.info] *)
  np_ping : NodeInfo → prog W bool;                (* [node._pool.execute(..., ping)] *)
  np_set : string → pyval → prog W bool;
  np_get : string → prog W pyval;
}.
Arguments np_start {W} _.
Arguments np_peers {W} _.
Arguments np_ping {W} _ _.
Arguments np_set {W} _ _ _.
Arguments np_get {W} _ _.

Fixpoint prog_for {W X} (xs : list X) (body : X → prog W unit) : prog W unit :=
  match xs with
  | [] => mret tt
  | x :: xs => body x ;; prog_for xs body
  end.

(** [b"x" * n]. *)
Definition filler (n : Z) : pyval := VBytes (Fmt.repeat_str "x" (Z.to_nat n)).

Section workers.
Context {W : Type} (perf_counter_ns : nat → Z).

(** The operation of a command on the key [k]: whether it succeeded. *)
Definition phase_op (set : string → pyval → prog W bool) (get : string → prog W pyval) (c : command)
    (k : string) : prog W bool :=
  if decide (cmd_phase c = "write") then set k (filler (cmd_value_size c))
  else val ← get k; mret (bool_decide (val ≠ VNone)).

(** **** [nodes/sync_bench.py] *)

(** From the constructor to the end of the warm-up, [pool_max] being [node._pool._max]. *)
Definition sync_boot (node : node_progs W) (concurrency pool_max : Z) : prog W unit :=
  np_start node ;;
  peers ← np_peers node;
  prog_for peers (λ peer,
    prog_for (seqZ 0 (Z.min concurrency pool_max)) (λ _, np_ping node peer ;; mret tt)).

(** The results of a command, for some schedule of the threads and some order in which
    they complete. *)
Definition sync_outcome (node : node_progs W) (concurrency pool_max : Z) (t : task) (r : result item) : Prop :=
  match t with
  | Boot => ∃ r', may_end (sync_boot node concurrency pool_max) r' ∧ r = (r' ≫= λ _, Ok Ready)
  | Do c => ∃ order completed s s' r',
      completed ≡ₚ processes concurrency ∧
      sync_run_phase concurrency
        (node_worker perf_counter_ns (phase_op (np_set node) (np_get node) c) (cmd_start c, cmd_end c) concurrency)
        order completed s = (Some r', s') ∧ r = (r' ≫= λ x, Ok (Phase x))
  end.

(** **** [nodes/async_bench.py] *)

(** [range(0, n, step)]. *)
Definition range_by (n step : Z) : result (list Z) :=
  if bool_decide (step = 0)%Z then Raise ValueError else
  Ok (if bool_decide (0 < step)%Z then py_range 0 n step else Z.opp <$> py_range 0 (- n) (- step)).

(** The rounds of the warm-up.  [gather] keeps the exceptions of the pings; since these are
    all alike, one order of them stands for every other. *)
Definition async_boot (node : node_progs W) (concurrency : Z) : prog W unit :=
  np_start node ;;
  peers ← np_peers node;
  let batch := Z.min concurrency 128 in
  prog_for peers (λ peer,
    rounds ← Ret (range_by concurrency batch);
    prog_for rounds (λ _,
      prog_for (seqZ 0 batch) (λ _, prog_try (np_ping node peer ;; mret tt) (λ _, mret tt)))).

(** The results of [async_run_phase], or the first exception of a worker. *)
Definition gathered (op : Z → prog W bool) (c : command) (concurrency : Z) (r : result item) : Prop :=
  ∃ order w,
    (∃ x, async_run_phase perf_counter_ns op false (cmd_end c - cmd_start c) (cmd_start c) concurrency order w = Some x ∧
       r = Ok (Phase x)) ∨
    (∃ e, Ret (Raise e) ∈ (run_workers perf_counter_ns op false (cmd_end c - cmd_start c) (cmd_start c) concurrency order w).1 ∧
       r = Raise e).

Definition async_outcome (node : node_progs W) (concurrency : Z) (t : task) (r : result item) : Prop :=
  match t with
  | Boot => ∃ r', may_end (async_boot node concurrency) r' ∧ r = (r' ≫= λ _, Ok Ready)
  | Do c => gathered (λ i, phase_op (np_set node) (np_get node) c (bench_key i)) c concurrency r
  end.

(** **** [redis/bench.py]: the client is redis-py's *)
Section redis.
Context (client_ping : prog W unit) (client_set : string → pyval → prog W pyval) (client_get : string → prog W pyval).

(** The pings are alike, as above. *)
Definition redis_boot (concurrency : Z) : prog W unit :=
  prog_for (seqZ 0 concurrency) (λ _, prog_try client_ping (λ _, mret tt)).

Definition redis_outcome (concurrency : Z) (t : task) (r : result item) : Prop :=
  match t with
  | Boot => ∃ r', may_end (redis_boot concurrency) r' ∧ r = (r' ≫= λ _, Ok Ready)
  | Do c =>
      gathered (λ i, phase_op (λ k v, x ← client_set k v; mret (bool_decide (x ≠ VNone))) client_get c (bench_key i))
        c concurrency r
  end.
End redis.
End workers.

(** ** The system *)
Record system (A : Type) := mkSystem {
  sy_main : coord A;
  sy_slots : list slot;
  sy_results : list item;
  sy_printed : list string;
}.
Arguments mkSystem {A} _ _ _ _.
Arguments sy_main {A} _.
Arguments sy_slots {A} _.
Arguments sy_results {A} _.
Arguments sy_printed {A} _.

(** One step of [main]. *)
Inductive main_step {A} : system A → system A → Prop :=
  | step_start i k sls xs ls :
      main_step (mkSystem (CStart i k) sls xs ls) (mkSystem k (alter start_slot i sls) xs ls)
  | step_put i c k sls xs ls :
      main_step (mkSystem (CPut i c k) sls xs ls) (mkSystem k (alter (put_slot c) i sls) xs ls)
  | step_get k sls x xs ls :
      main_step (mkSystem (CGet k) sls (x :: xs) ls) (mkSystem (k x) sls xs ls)
  | step_now k t sls xs ls :
      main_step (mkSystem (CNow k) sls xs ls) (mkSystem (k t) sls xs ls)
  | step_print line k sls xs ls :
      main_step (mkSystem (CPrint line k) sls xs ls) (mkSystem k sls xs (ls ++ [line])).

(** One step of process [i], or of the thread that sends what it has put. *)
Inductive slot_step (outcome : nat → task → result item → Prop) (i : nat) : slot → slot → list item → Prop :=
  | step_end t cmds out x :
      outcome i t (Ok x) → slot_step outcome i (mkSlot (Busy t) cmds out) (mkSlot Waiting cmds (out ++ [x])) []
  | step_die t cmds out e :
      outcome i t (Raise e) → slot_step outcome i (mkSlot (Busy t) cmds out) (mkSlot (Died e) cmds out) []
  | step_take c cmds out :
      slot_step outcome i (mkSlot Waiting (Some c :: cmds) out) (mkSlot (Busy (Do c)) cmds out) []
  | step_stop cmds out :
      slot_step outcome i (mkSlot Waiting (None :: cmds) out) (mkSlot Stopped cmds out) []
  | step_send w cmds x out :
      slot_step outcome i (mkSlot w cmds (x :: out)) (mkSlot w cmds out) [x].

Inductive step {A} (outcome : nat → task → result item → Prop) : system A → system A → Prop :=
  | main_steps st st' : main_step st st' → step outcome st st'
  | slot_steps i s s' sent p sls xs ls :
      sls !! i = Some s → slot_step outcome i s s' sent →
      step outcome (mkSystem p sls xs ls) (mkSystem p (<[i := s']> sls) (xs ++ sent) ls).

(** Before [main] runs. *)
Definition launch {A} (p : coord A) (workers : Z) : system A :=
  mkSystem p (replicate (Z.to_nat workers) (mkSlot Unstarted [] [])) [] [].

(** ** The scripts *)
Inductive script (W : Type) :=
  | SyncBench (nodes : nat → node_progs W) (pool_max : Z)
  | AsyncBench (nodes : nat → node_progs W)
  | RedisBench (client_ping : prog W unit) (client_set : string → pyval → prog W pyval)
      (client_get : string → prog W pyval) (host : string) (port workers : Z).
Arguments SyncBench {W} _ _.
Arguments AsyncBench {W} _.
Arguments RedisBench {W} _ _ _ _ _ _.

Section script.
Context {W : Type} (sc : script W) (ops concurrency value_size : Z).

Definition script_workers : Z :=
  match sc with
  | SyncBench _ _ => Z.of_nat (length SYNC_ADDRS)
  | AsyncBench _ => Z.of_nat (length ASYNC_ADDRS)
  | RedisBench _ _ _ _ _ workers => workers
  end.

Definition script_main : coord ((list Z * Z) * (list Z * Z)) :=
  match sc with
  | SyncBench _ _ => sync_bench_main ops concurrency value_size
  | AsyncBench _ => async_bench_main ops concurrency value_size
  | RedisBench _ _ _ host port workers => redis_bench_main ops concurrency value_size host port workers
  end.

Definition script_outcome (perf_counter_ns : nat → Z) (i : nat) : task → result item → Prop :=
  match sc with
  | SyncBench nodes pool_max => sync_outcome perf_counter_ns (nodes i) concurrency pool_max
  | AsyncBench nodes => async_outcome perf_counter_ns (nodes i) concurrency
  | RedisBench ping set get _ _ _ => redis_outcome perf_counter_ns ping set get concurrency
  end.

(** The script, from its start on. *)
Definition script_step (perf_counter_ns : nat → Z) := step (A := (list Z * Z) * (list Z * Z)) (script_outcome perf_counter_ns).
Definition script_start : system ((list Z * Z) * (list Z * Z)) := launch script_main script_workers.
End script.
