(* ===== verification/BenchSpec.v ===== *)
(** * What the benchmarks of several processes count

    However [main] and the processes are interleaved, however long results stay with
    the process that put them, and whoever answers first: the results [main] adds up for
    a phase are one of each process, for the command of that phase. *)
From S2P Require Import Prelude Threads PyBase Types Store Workload Report Bench.

(** ** Ghosts

    What [main] has asked of the processes and received since it last had all answers:
    process [i] has been asked for [gh_task i] when [i] is below [gh_asked], and told to
    stop when it is below [gh_stops]. *)
Record ghost := mkGhost {
  gh_task : nat → task;
  gh_asked : nat;
  gh_got : list (nat * item);
  gh_stops : nat;
}.

Definition ask (g : ghost) : ghost := mkGhost (gh_task g) (S (gh_asked g)) (gh_got g) (gh_stops g).
Definition receive (i : nat) (x : item) (g : ghost) : ghost :=
  mkGhost (gh_task g) (gh_asked g) (gh_got g ++ [(i, x)]) (gh_stops g).
Definition tell_stop (g : ghost) : ghost := mkGhost (gh_task g) (gh_asked g) (gh_got g) (S (gh_stops g)).
Definition round (tasks : nat → task) : ghost := mkGhost tasks 0 [] 0.

(** A process that has not been asked yet. *)
Definition idle (t : task) : worker := match t with Boot => Unstarted | Do _ => Waiting end.

Section system.
Context (n : nat) (outcome : nat → task → result item → Prop).
Implicit Types (g : ghost) (s : slot) (i : nat).

Definition complete g : Prop := gh_asked g = n ∧ length (gh_got g) = n.

(** Where process [i] may be, [answered] telling whether its answer is in the pipe or
    with [main]. *)
Inductive slot_ok g (answered : bool) i : slot → Prop :=
  | ok_idle : gh_asked g ≤ i → answered = false → slot_ok g answered i (mkSlot (idle (gh_task g i)) [] [])
  | ok_todo c : i < gh_asked g → answered = false → gh_task g i = Do c →
      slot_ok g answered i (mkSlot Waiting [Some c] [])
  | ok_busy : i < gh_asked g → answered = false → slot_ok g answered i (mkSlot (Busy (gh_task g i)) [] [])
  | ok_put x : i < gh_asked g → answered = false → outcome i (gh_task g i) (Ok x) →
      slot_ok g answered i (mkSlot Waiting [] [x])
  | ok_dead e : i < gh_asked g → answered = false → outcome i (gh_task g i) (Raise e) →
      slot_ok g answered i (mkSlot (Died e) [] [])
  | ok_answered : i < gh_asked g → answered = true → gh_stops g ≤ i → slot_ok g answered i (mkSlot Waiting [] [])
  | ok_stopping : i < gh_asked g → answered = true → i < gh_stops g → slot_ok g answered i (mkSlot Waiting [None] [])
  | ok_stopped : i < gh_asked g → answered = true → i < gh_stops g → slot_ok g answered i (mkSlot Stopped [] []).

(** [P] is what the pipe holds, each item with the process it comes from. *)
Record pipe_ok g (P : list (nat * item)) : Prop := {
  po_nodup : NoDup (gh_got g ++ P).*1;
  po_from : Forall (λ ix, ix.1 < gh_asked g ∧ outcome ix.1 (gh_task g ix.1) (Ok ix.2)) (gh_got g ++ P);
  po_asked : gh_asked g ≤ n;
  po_stops : 0 < gh_stops g → complete g;
}.

Definition answered g (P : list (nat * item)) i : bool := bool_decide (i ∈ (gh_got g ++ P).*1).

Definition sys_ok {A} g (st : system A) : Prop :=
  length (sy_slots st) = n ∧ ∃ P, sy_results st = P.*2 ∧ pipe_ok g P ∧
    ∀ i s, sy_slots st !! i = Some s → slot_ok g (answered g P i) i s.

(** ** Programs that ask and then receive

    [cwp p Q g]: from [g] on, [p] asks one process after the other, and does not receive
    more than it has asked for, and when it ends [Q] holds. *)
Fixpoint cwp {A} (p : coord A) (Q : ghost → result A → Prop) (g : ghost) : Prop :=
  match p with
  | CRet r => Q g r
  | CStart i k => gh_asked g = i ∧ i < n ∧ gh_task g i = Boot ∧ cwp k Q (ask g)
  | CGet k => length (gh_got g) < gh_asked g ∧
      ∀ i x, i < gh_asked g → i ∉ (gh_got g).*1 → outcome i (gh_task g i) (Ok x) → cwp (k x) Q (receive i x g)
  | CPut i (Some c) k => ∃ g', (g' = g ∨ (complete g ∧ gh_stops g = 0 ∧
        ∃ tasks, (∀ j, tasks j ≠ Boot) ∧ g' = round tasks)) ∧
      gh_asked g' = i ∧ i < n ∧ gh_task g' i = Do c ∧ cwp k Q (ask g')
  | CPut i None k => complete g ∧ gh_stops g = i ∧ i < n ∧ cwp k Q (tell_stop g)
  | CNow k => ∀ t, cwp (k t) Q g
  | CPrint _ k => cwp k Q g
  end.

Lemma cwp_mono {A} (p : coord A) Q Q' g : cwp p Q g → (∀ g r, Q g r → Q' g r) → cwp p Q' g.
Proof.
  intros Hp HQ. revert g Hp.
  induction p as [r|i k IH|k IH|i [c|] k IH|k IH|line k IH]; intros g; simpl; [apply HQ|..].
  - intros (? & ? & ? & ?). split_and!; auto.
  - intros [? Hk]. split; [done|]. intros i x ???. by apply IH, Hk.
  - intros (g' & ? & ? & ? & ? & ?). exists g'. split_and!; auto.
  - intros (? & ? & ? & ?). split_and!; auto.
  - intros Hk t. by apply IH.
  - apply IH.
Qed.

Lemma cwp_bind {A B} (p : coord A) (f : A → coord B) Q g :
  cwp p (λ g r, match r with Ok a => cwp (f a) Q g | Raise e => Q g (Raise e) end) g → cwp (p ≫= f) Q g.
Proof.
  revert g. induction p as [[a|e]|i k IH|k IH|i [c|] k IH|k IH|line k IH]; intros g; simpl; [done|done|..].
  - intros (? & ? & ? & ?). split_and!; auto.
  - intros [? Hk]. split; [done|]. intros i x ???. by apply IH, Hk.
  - intros (g' & ? & ? & ? & ? & ?). exists g'. split_and!; auto.
  - intros (? & ? & ? & ?). split_and!; auto.
  - intros Hk t. by apply IH, Hk.
  - apply IH.
Qed.

(** ** The steps keep the system in order *)

Lemma complete_answered g P : complete g → pipe_ok g P → P = [] ∧ ∀ i, i < n → answered g P i = true.
Proof.
  intros [Ha Hg] [Hnd Hfrom _ _].
  assert (∀ i, i ∈ (gh_got g ++ P).*1 → i ∈ seq 0 n) as Hsub.
  { intros i (ix & -> & Hix)%list_elem_of_fmap. rewrite Forall_forall in Hfrom.
    destruct (Hfrom ix Hix). apply elem_of_seq. lia. }
  pose proof (submseteq_length _ _ (NoDup_submseteq _ _ Hnd Hsub)) as Hlen.
  rewrite length_fmap, length_app, length_seq in Hlen. assert (P = []) as -> by (apply length_zero_iff_nil; lia).
  split; [done|]. intros i Hi. apply bool_decide_eq_true.
  assert ((gh_got g ++ []).*1 ≡ₚ seq 0 n) as Hp.
  { apply submseteq_length_Permutation; [by apply NoDup_submseteq|]. rewrite length_fmap, length_app, length_seq. simpl. lia. }
  rewrite Hp. apply elem_of_seq. lia.
Qed.

(** All answers are in: nothing is on its way, and everybody waits. *)
Lemma sys_ok_round {A} g (st : system A) tasks :
  sys_ok g st → complete g → gh_stops g = 0 → (∀ j, tasks j ≠ Boot) → sys_ok (round tasks) st.
Proof.
  intros (Hlen & P & Hres & HP & Hs) Hc Hst Ht. destruct (complete_answered g P Hc HP) as [-> Hans].
  split; [done|]. exists []. split; [done|]. split.
  { split; simpl; [constructor|constructor|lia|lia]. }
  intros i s Hi. specialize (Hs i s Hi). pose proof (lookup_lt_Some _ _ _ Hi) as Hlt.
  rewrite Hans in Hs by lia.
  assert (answered (round tasks) [] i = false) as -> by (apply bool_decide_eq_false; set_solver).
  inversion Hs; subst; try done; [|lia..].
  pose proof (ok_idle (round tasks) false i ltac:(simpl; lia) eq_refl) as Hok. simpl in Hok.
  specialize (Ht i). by destruct (tasks i).
Qed.

(** What happens to one process leaves the others where they are. *)
Lemma slots_alter {A} g g' P P' (sls : list slot) i s s' (p : coord A) xs ls :
  length sls = n → xs = P'.*2 → pipe_ok g' P' →
  (∀ j sj, sls !! j = Some sj → slot_ok g (answered g P j) j sj) →
  sls !! i = Some s →
  (∀ j sj, j ≠ i → slot_ok g (answered g P j) j sj → slot_ok g' (answered g' P' j) j sj) →
  slot_ok g' (answered g' P' i) i s' →
  sys_ok g' (mkSystem p (<[i := s']> sls) xs ls).
Proof.
  intros Hlen Hxs HP Hs Hi Hothers Hs'. split; [simpl; by rewrite length_insert|]. exists P'. split; [done|]. split; [done|].
  intros j sj [(<- & <- & _)|[Hne Hj]]%list_lookup_insert_Some; [done|]. apply Hothers; [done|]. by apply Hs.
Qed.

Lemma alter_lookup (f : slot → slot) i (sls : list slot) s : sls !! i = Some s → alter f i sls = <[i := f s]> sls.
Proof.
  intros Hi. apply list_eq. intros j. rewrite list_lookup_alter, list_lookup_insert.
  pose proof (lookup_lt_Some _ _ _ Hi). case_decide as Hij; [subst j|]; [|by rewrite decide_False by naive_solver].
  rewrite Hi, decide_True by done. done.
Qed.

Lemma ask_others g b j i s : j ≠ i → gh_asked g = i → slot_ok g b j s → slot_ok (ask g) b j s.
Proof.
  intros Hne Hi Hs. destruct Hs.
  - apply (ok_idle (ask g)); simpl; [lia|done].
  - eapply (ok_todo (ask g)); simpl; [lia|done..].
  - apply (ok_busy (ask g)); simpl; [lia|done].
  - apply (ok_put (ask g)); simpl; [lia|done..].
  - apply (ok_dead (ask g)); simpl; [lia|done..].
  - apply (ok_answered (ask g)); simpl; [lia|done..].
  - apply (ok_stopping (ask g)); simpl; [lia|done..].
  - apply (ok_stopped (ask g)); simpl; [lia|done..].
Qed.

Lemma stop_others g b j i s : j ≠ i → gh_stops g = i → slot_ok g b j s → slot_ok (tell_stop g) b j s.
Proof.
  intros Hne Hi Hs. destruct Hs.
  - by apply (ok_idle (tell_stop g)).
  - by eapply (ok_todo (tell_stop g)).
  - by apply (ok_busy (tell_stop g)).
  - by apply (ok_put (tell_stop g)).
  - by apply (ok_dead (tell_stop g)).
  - apply (ok_answered (tell_stop g)); simpl; [done..|lia].
  - apply (ok_stopping (tell_stop g)); simpl; [done..|lia].
  - apply (ok_stopped (tell_stop g)); simpl; [done..|lia].
Qed.

Lemma receive_same g b i x j s : slot_ok g b j s → slot_ok (receive i x g) b j s.
Proof.
  intros Hs. destruct Hs.
  - by apply (ok_idle (receive i x g)).
  - by eapply (ok_todo (receive i x g)).
  - by apply (ok_busy (receive i x g)).
  - by apply (ok_put (receive i x g)).
  - by apply (ok_dead (receive i x g)).
  - by apply (ok_answered (receive i x g)).
  - by apply (ok_stopping (receive i x g)).
  - by apply (ok_stopped (receive i x g)).
Qed.

Lemma pipe_ask g P : gh_asked g < n → gh_stops g = 0 → pipe_ok g P → pipe_ok (ask g) P.
Proof.
  intros Hlt Hst [Hnd Hf Ha _]. split; simpl; [done| |lia|lia].
  eapply Forall_impl; [exact Hf|]. intros ix [? ?]. split; [simpl; lia|done].
Qed.

(** Nobody has been told to stop while an answer is missing. *)
Lemma no_stops g P i : pipe_ok g P → i < n → answered g P i = false → gh_stops g = 0.
Proof.
  intros HP Hi Ha. destruct (gh_stops g) as [|k] eqn:Hk; [done|]. exfalso.
  destruct (complete_answered g P) as [_ Hall]; [apply HP; lia|done|]. by rewrite Hall in Ha.
Qed.

Lemma idle_slot g P i s (HP : pipe_ok g P) :
  gh_asked g = i → slot_ok g (answered g P i) i s → s = mkSlot (idle (gh_task g i)) [] [] ∧ answered g P i = false.
Proof. intros Hi Hs. inversion Hs; subst; try lia. by split. Qed.

Lemma step_ask {A} g (p : coord A) sls xs ls i s' (f : slot → slot) :
  sys_ok g (mkSystem p sls xs ls) → gh_asked g = i → i < n →
  f (mkSlot (idle (gh_task g i)) [] []) = s' → (∀ b, b = false → slot_ok (ask g) b i s') →
  ∀ p' : coord A, sys_ok (ask g) (mkSystem p' (alter f i sls) xs ls).
Proof.
  intros (Hlen & P & Hres & HP & Hs) Hi Hlt Hf Hok p'. simpl in *.
  destruct (lookup_lt_is_Some_2 sls i) as [s Hsi]; [lia|].
  destruct (idle_slot g P i s HP Hi (Hs i s Hsi)) as [-> Hb].
  rewrite (alter_lookup _ _ _ _ Hsi), Hf.
  eapply (slots_alter g (ask g) P P); [done|done| |done|done| |].
  - apply pipe_ask; [lia|by eapply no_stops|done].
  - intros j sj Hne. by eapply ask_others.
  - by apply Hok.
Qed.

Lemma main_step_ok {A} (st st' : system A) g Q :
  main_step st st' → sys_ok g st → cwp (sy_main st) Q g →
  ∃ g', sys_ok g' st' ∧ cwp (sy_main st') Q g'.
Proof.
  intros Hstep Hok Hp. destruct Hstep; simpl in Hp; try done.
  - destruct Hp as (Hi & Hlt & Ht & Hk). exists (ask g). split; [|done].
    eapply step_ask; [done..|]. intros b ->. unfold start_slot. cbn [sl_cmds sl_out]. rewrite <- Ht.
    apply (ok_busy (ask g)); simpl; [lia|done].
  - destruct c as [c|].
    + destruct Hp as (g' & Hg' & Hi & Hlt & Ht & Hk). exists (ask g'). split; [|done].
      assert (sys_ok g' (mkSystem (CPut i (Some c) k) sls xs ls)) as Hok'.
      { destruct Hg' as [->|(Hc & Hst & tasks & Hts & ->)]; [done|]. by eapply sys_ok_round. }
      eapply step_ask; [done..|]. intros b ->. rewrite Ht. apply (ok_todo (ask g')); simpl; [lia|done|exact Ht].
    + destruct Hp as (Hc & Hst & Hlt & Hk). exists (tell_stop g). split; [|done].
      destruct Hok as (Hlen & P & Hres & HP & Hs). simpl in *. destruct (complete_answered g P Hc HP) as [-> Hans].
      destruct (lookup_lt_is_Some_2 sls i) as [s Hsi]; [lia|]. pose proof (Hs i s Hsi) as Hsi'.
      rewrite Hans in Hsi' by lia. rewrite (alter_lookup _ _ _ _ Hsi).
      eapply (slots_alter g (tell_stop g) [] []); [done|done| |done|done| |].
      * destruct HP as [? ? ? ?]. by split.
      * intros j sj Hne. by eapply stop_others.
      * change (answered (tell_stop g) [] i) with (answered g [] i). rewrite Hans by lia.
        inversion Hsi'; subst; try done; [|lia..]. apply ok_stopping; simpl; [lia|done|lia].
  - destruct Hp as [Hlen Hk]. destruct Hok as (Hl & [|[i y] P] & Hres & HP & Hs); [done|].
    simpl in *. injection Hres as -> Hres. exists (receive i y g). pose proof HP as [Hnd Hf Ha Hst].
    split.
    + split; [done|]. exists P. split; [done|].
      assert (gh_got (receive i y g) ++ P = gh_got g ++ (i, y) :: P) as Heq by (simpl; by rewrite <- app_assoc).
      split.
      * split; rewrite ?Heq; [done..|]. intros H0.
        by destruct (complete_answered g ((i, y) :: P) (Hst H0) HP) as [[=] _].
      * intros j sj Hj. specialize (Hs j sj Hj). unfold answered in *. rewrite Heq. by apply receive_same.
    + apply Hk.
      * apply Forall_app in Hf as [_ [? _]%Forall_cons]. naive_solver.
      * rewrite fmap_app in Hnd. apply NoDup_app in Hnd as (_ & Hd & _). intros Hin. apply (Hd i Hin). left.
      * apply Forall_app in Hf as [_ [? _]%Forall_cons]. naive_solver.
  - exists g. split; [exact Hok|apply Hp].
  - exists g. split; [exact Hok|apply Hp].
Qed.

(** A process goes on with what it was asked; its answer gets into the pipe with its
    number. *)
Lemma slot_step_ok {A} (p p' : coord A) g sls xs ls i s s' sent :
  sls !! i = Some s → slot_step outcome i s s' sent → sys_ok g (mkSystem p sls xs ls) →
  sys_ok g (mkSystem p' (<[i := s']> sls) (xs ++ sent) ls).
Proof.
  intros Hi Hstep (Hlen & P & Hres & HP & Hs). simpl in *. pose proof (Hs i s Hi) as Hsi.
  assert (∀ s'', slot_ok g (answered g P i) i s'' → sys_ok g (mkSystem p' (<[i := s'']> sls) (xs ++ []) ls)) as Hsame.
  { intros s'' Hs''. eapply (slots_alter g g P P); [done|by rewrite app_nil_r|done..]. }
  destruct Hstep; [apply Hsame; inversion Hsi; subst; try by destruct (gh_task g i)..|].
  - by apply ok_put.
  - by apply ok_dead.
  - match goal with H : gh_task g i = Do c |- _ => rewrite <- H end. by apply ok_busy.
  - by apply ok_stopped.
  - inversion Hsi as [| | |x' Hlt Hans Hx| | | |]; subst. pose proof HP as [Hnd Hf Ha Hst].
    assert (i ∉ (gh_got g ++ P).*1) as Hfresh by by apply bool_decide_eq_false in Hans.
    assert (i < n) as Hin by (rewrite <- Hlen; by eapply lookup_lt_Some).
    pose proof (no_stops g P i HP Hin Hans) as H0.
    eapply (slots_alter g g P (P ++ [(i, x)])); [done| | |done|done| |].
    + by rewrite fmap_app.
    + split; rewrite ?app_assoc.
      * rewrite fmap_app. apply NoDup_app. split_and!; [done| |apply NoDup_singleton]. simpl. set_solver.
      * apply Forall_app. split; [done|]. by constructor.
      * done.
      * lia.
    + intros j sj Hne Hj. replace (answered g (P ++ [(i, x)]) j) with (answered g P j); [done|].
      unfold answered. apply bool_decide_ext. rewrite app_assoc, (fmap_app _ (_ ++ _)). set_solver.
    + apply ok_answered; [done| |lia]. apply bool_decide_eq_true. rewrite app_assoc, fmap_app. set_solver.
Qed.

Lemma step_ok {A} (st st' : system A) g Q :
  step outcome st st' → sys_ok g st → cwp (sy_main st) Q g →
  ∃ g', sys_ok g' st' ∧ cwp (sy_main st') Q g'.
Proof.
  intros Hstep Hok Hp. destruct Hstep as [st st' Hm|]; [by eapply main_step_ok|].
  exists g. split; [|done]. by eapply slot_step_ok.
Qed.

Lemma steps_ok {A} (st st' : system A) g Q :
  rtc (step outcome) st st' → sys_ok g st → cwp (sy_main st) Q g →
  ∃ g', sys_ok g' st' ∧ cwp (sy_main st') Q g'.
Proof.
  intros Hsteps. revert g. induction Hsteps as [st|st1 st2 st3 H12 _ IH]; intros g Hok Hp; [by exists g|].
  destruct (step_ok st1 st2 g Q H12 Hok Hp) as (g' & ? & ?). by eapply IH.
Qed.

(** ** Nothing gets stuck *)

(** While an answer is missing there is a process that has been asked and has not
    answered. *)
Lemma missing_answer g P :
  pipe_ok g P → length (gh_got g ++ P) < gh_asked g → ∃ i, i < gh_asked g ∧ answered g P i = false.
Proof.
  intros HP Hlt. destruct (decide (Forall (λ i, i ∈ (gh_got g ++ P).*1) (seq 0 (gh_asked g)))) as [Hall|Hn].
  - rewrite Forall_forall in Hall. pose proof (submseteq_length _ _ (NoDup_submseteq _ _ (NoDup_seq 0 (gh_asked g)) Hall)) as Hlen.
    rewrite length_seq, length_fmap in Hlen. lia.
  - apply not_Forall_Exists in Hn; [|apply _]. apply Exists_exists in Hn as (i & Hi%elem_of_seq & Hin).
    exists i. split; [lia|]. by apply bool_decide_eq_false.
Qed.

(** Unless it has died, such a process has something to do. *)
Lemma slot_moves g i s :
  slot_ok g false i s → i < gh_asked g → (∃ e, sl_worker s = Died e) ∨ (∃ r, outcome i (gh_task g i) r) →
  (∃ e, sl_worker s = Died e) ∨ ∃ s' sent, slot_step outcome i s s' sent.
Proof.
  intros Hs Hi Hmove. destruct Hs; try done; [lia|..].
  - right. do 2 eexists. apply step_take.
  - destruct Hmove as [[e [=]]|[[x|e] Hr]]; right; do 2 eexists; [by eapply step_end|by eapply step_die].
  - right. do 2 eexists. apply step_send.
  - left. by exists e.
Qed.

Lemma progress {A} g (st : system A) Q :
  sys_ok g st → cwp (sy_main st) Q g → (∀ i t, ∃ r, outcome i t r) → (∀ i t e, ¬ outcome i t (Raise e)) →
  (∃ r, sy_main st = CRet r) ∨ ∃ st', step outcome st st'.
Proof.
  intros (Hlen & P & Hres & HP & Hs) Hp Htotal Hlive. destruct st as [p sls xs ls]. simpl in *.
  destruct p as [r|i k|k|i c k|k|line k]; [by left; exists r|..].
  1: right; eexists; apply main_steps, step_start.
  2: right; eexists; apply main_steps, step_put.
  2: right; eexists; apply main_steps, (step_now _ (Float.of_Z 0)).
  2: right; eexists; apply main_steps, step_print.
  right. destruct xs as [|x xs]; [|eexists; apply main_steps, step_get].
  destruct P as [|[? ?] P]; [|done]. destruct Hp as [Hlt _].
  destruct (missing_answer g [] HP) as (i & Hi & Hans); [by rewrite app_nil_r|].
  destruct (lookup_lt_is_Some_2 sls i) as [s Hsi]; [pose proof (po_asked _ _ HP); lia|].
  pose proof (Hs i s Hsi) as Hok. rewrite Hans in Hok.
  destruct (slot_moves g i s Hok Hi) as [[e He]|(s' & sent & Hstep)]; [right; apply Htotal| |].
  - inversion Hok; subst; try done; [by destruct (gh_task g i)|]. by edestruct Hlive.
  - eexists. by eapply slot_steps.
Qed.

(** A process that has died has not answered, and [main] has not received all it asked for. *)
Lemma died_incomplete {A} g (st : system A) i s e :
  sys_ok g st → sy_slots st !! i = Some s → sl_worker s = Died e → ¬ complete g.
Proof.
  intros (Hlen & P & _ & HP & Hs) Hi He Hc. destruct (complete_answered g P Hc HP) as [-> Hans].
  specialize (Hs i s Hi). rewrite Hans in Hs by (rewrite <- Hlen; by eapply lookup_lt_Some).
  inversion Hs; subst; done.
Qed.
End system.

(** ** Nothing goes on for ever *)

Definition worker_cost (w : worker) : nat := match w with Busy _ => 2 | _ => 0 end.
Definition slot_cost (s : slot) : nat := worker_cost (sl_worker s) + 3 * length (sl_cmds s) + length (sl_out s).

(** [p] takes [main] no more than [b] steps, and leaves the processes no more than that to do. *)
Fixpoint within_cost {A} (p : coord A) (b : nat) : Prop :=
  match p with
  | CRet _ => True
  | CStart _ k => ∃ b', 3 + b' ≤ b ∧ within_cost k b'
  | CGet k => ∃ b', 1 + b' ≤ b ∧ ∀ x, within_cost (k x) b'
  | CPut _ _ k => ∃ b', 4 + b' ≤ b ∧ within_cost k b'
  | CNow k => ∃ b', 1 + b' ≤ b ∧ ∀ t, within_cost (k t) b'
  | CPrint _ k => ∃ b', 1 + b' ≤ b ∧ within_cost k b'
  end.

Lemma within_mono {A} (p : coord A) b b' : within_cost p b → b ≤ b' → within_cost p b'.
Proof.
  destruct p; simpl; [done|..]; intros (b0 & ? & ?) ?; exists b0; (split; [lia|done]).
Qed.

Lemma cost_bind {A B} (p : coord A) (f : A → coord B) b b' :
  within_cost p b → (∀ a, within_cost (f a) b') → within_cost (p ≫= f) (b + b').
Proof.
  intros Hp Hf. revert b Hp. induction p as [[a|e]|i k IH|k IH|i c k IH|k IH|line k IH]; intros b Hp; simpl in *.
  1: eapply within_mono; [apply Hf|lia].
  1: done.
  all: destruct Hp as (b0 & ? & Hk); exists (b0 + b'); split; [lia|]; auto.
Qed.

Lemma within_for {X} (xs : list X) (body : X → coord unit) b :
  (∀ x, within_cost (body x) b) → within_cost (coord_for xs body) (b * length xs).
Proof.
  intros Hb. induction xs as [|x xs IH]; [done|]. eapply within_mono; [by apply cost_bind|]. simpl. lia.
Qed.

Lemma within_map {X B} (xs : list X) (body : X → coord B) b :
  (∀ x, within_cost (body x) b) → within_cost (coord_map xs body) (b * length xs).
Proof.
  intros Hb. induction xs as [|x xs IH]; [done|].
  eapply within_mono; [apply (cost_bind _ _ b (b * length xs)); [apply Hb|]|simpl; lia].
  intros y. eapply within_mono; [apply (cost_bind _ _ (b * length xs) 0); [apply IH|done]|lia].
Qed.

Definition sum_cost (sls : list slot) : nat := foldr (λ s c, slot_cost s + c) 0 sls.

Lemma sum_cost_insert sls i s s' :
  sls !! i = Some s → sum_cost (<[i := s']> sls) + slot_cost s = sum_cost sls + slot_cost s'.
Proof.
  revert i. induction sls as [|s0 sls IH]; intros [|i] Hi; simplify_eq/=; [lia|]. specialize (IH i Hi). lia.
Qed.

Lemma sum_cost_alter (f : slot → slot) sls i c :
  (∀ s, slot_cost (f s) ≤ slot_cost s + c) → sum_cost (alter f i sls) ≤ sum_cost sls + c.
Proof.
  intros Hf. revert i. induction sls as [|s0 sls IH]; intros [|i]; simpl; [lia|lia|specialize (Hf s0); lia|].
  specialize (IH i). unfold alter in IH. lia.
Qed.

(** Every step uses something up. *)
Lemma step_costs {A} outcome (st st' : system A) b :
  step outcome st st' → within_cost (sy_main st) b →
  ∃ b', within_cost (sy_main st') b' ∧ b' + sum_cost (sy_slots st') < b + sum_cost (sy_slots st).
Proof.
  intros Hstep Hb. destruct Hstep as [st st' Hm|i s s' sent p sls xs ls Hi Hs].
  - destruct Hm; simpl in *; destruct Hb as (b' & ? & ?); exists b'; (split; [done|]); try lia.
    + pose proof (sum_cost_alter start_slot sls i 2 ltac:(intros [w cs o]; unfold slot_cost; simpl; lia)). lia.
    + pose proof (sum_cost_alter (put_slot c) sls i 3
        ltac:(intros [w cs o]; unfold slot_cost; simpl; rewrite length_app; simpl; lia)). lia.
  - exists b. split; [done|]. simpl. pose proof (sum_cost_insert sls i s s' Hi).
    assert (slot_cost s' < slot_cost s); [|lia]. destruct Hs; unfold slot_cost; simpl; rewrite ?length_app; simpl; lia.
Qed.

Lemma steps_cost {A} outcome k (st st' : system A) b :
  nsteps (step outcome) k st st' → within_cost (sy_main st) b → k ≤ b + sum_cost (sy_slots st).
Proof.
  intros Hsteps. revert b. induction Hsteps as [st|k st1 st2 st3 H12 _ IH]; intros b Hb; [lia|].
  destruct (step_costs outcome st1 st2 b H12 Hb) as (b' & Hb' & Hlt). specialize (IH b' Hb'). lia.
Qed.

(** ** The program of [main] *)

(** What an outcome is: ["ready"], and otherwise one latency or error for each operation. *)
Record lawful (outcome : nat → task → result item → Prop) : Prop := {
  lw_boot i x : outcome i Boot (Ok x) → x = Ready;
  lw_do i c x : outcome i (Do c) (Ok x) → ∃ lats errs, x = Phase (lats, errs) ∧
    (Z.of_nat (length lats) + errs = Z.max 0 (cmd_end c - cmd_start c))%Z;
}.

Section main.
Context (outcome : nat → task → result item → Prop) (laws : lawful outcome) (workers : Z).
Abbreviation n := (Z.to_nat workers).
Abbreviation wp := (cwp n outcome).
Implicit Types (g : ghost).

(** The command of process [i]. *)
Definition share (phase : string) (ops_per_node value_size : Z) (i : nat) : command :=
  mkCommand phase (Z.of_nat i * ops_per_node) ((Z.of_nat i + 1) * ops_per_node) value_size.

(** One result of each process, for its command. *)
Definition answers (c : nat → command) (L : list (nat * (list Z * Z))) : Prop :=
  L.*1 ≡ₚ seq 0 n ∧ Forall (λ ir, outcome ir.1 (Do (c ir.1)) (Ok (Phase ir.2))) L.

(** All latencies, and the number of errors. *)
Definition total (L : list (nat * (list Z * Z))) : list Z * Z := (mjoin L.*2.*1, foldr Z.add 0%Z L.*2.*2).

Definition idle_main g : Prop := complete n g ∧ gh_stops g = 0.

Lemma wp_start k m Q g :
  gh_asked g = k → k + m = n → (∀ i, gh_task g i = Boot) →
  Q (mkGhost (gh_task g) n (gh_got g) (gh_stops g)) (Ok tt) →
  wp (coord_for (seq k m) (λ i, CStart i done)) Q g.
Proof.
  revert k g. induction m as [|m IH]; intros k [ts a got st] Ha Hk Ht HQ; simpl in *.
  - by replace a with n by lia.
  - split_and!; [done|lia|done|]. apply IH; simpl; [lia|lia|done|done].
Qed.

(** Everybody has been asked, and [m] answers are missing. *)
Record missing g (m : nat) : Prop := {
  ms_asked : gh_asked g = n;
  ms_got : length (gh_got g) + m = n;
  ms_nodup : NoDup (gh_got g).*1;
  ms_range : ∀ i, i ∈ (gh_got g).*1 → i < n;
}.

Lemma missing_receive g m i x : missing g (S m) → i < gh_asked g → i ∉ (gh_got g).*1 → missing (receive i x g) m.
Proof.
  intros [Ha Hg Hnd Hr] Hi Hnew. split; simpl; [done|rewrite length_app; simpl; lia|..]; rewrite fmap_app.
  - apply NoDup_app. split_and!; [done| |apply NoDup_singleton]. simpl. set_solver.
  - intros j [Hj|Hj%list_elem_of_singleton]%elem_of_app; [by apply Hr|]. simpl in Hj. subst j. lia.
Qed.

Lemma missing_none g : missing g 0 → (gh_got g).*1 ≡ₚ seq 0 n.
Proof.
  intros [Ha Hg Hnd Hr]. apply submseteq_length_Permutation; [|rewrite length_fmap, length_seq; lia].
  apply NoDup_submseteq; [done|]. intros i Hi%Hr. apply elem_of_seq. lia.
Qed.

Lemma wp_ready k m Q g :
  missing g m → (∀ i, gh_task g i = Boot) → gh_stops g = 0 → (∀ g', idle_main g' → Q g' (Ok tt)) →
  wp (coord_for (seq k m) (λ _, get_ready)) Q g.
Proof.
  revert k g. induction m as [|m IH]; intros k g Hm Ht Hst HQ; cbn [seq coord_for].
  - apply HQ. destruct Hm. split; [split; [done|lia]|done].
  - apply cwp_bind. split; [destruct Hm; lia|]. intros i x Hi Hnew Hout. rewrite Ht in Hout.
    rewrite (lw_boot _ laws i x Hout). apply IH; [by apply missing_receive|done..].
Qed.

Definition tag (L : list (nat * (list Z * Z))) : list (nat * item) := (λ ir, (ir.1, Phase ir.2)) <$> L.

Lemma wp_get c k m Lg Q g :
  missing g m → (∀ i, gh_task g i = Do (c i)) → gh_stops g = 0 → gh_got g = tag Lg →
  Forall (λ ir, outcome ir.1 (Do (c ir.1)) (Ok (Phase ir.2))) Lg →
  (∀ L g', answers c (Lg ++ L) → idle_main g' → Q g' (Ok (Phase <$> L.*2))) →
  wp (coord_map (seq k m) (λ _, CGet mret)) Q g.
Proof.
  revert k g Lg Q. induction m as [|m IH]; intros k g Lg Q Hm Ht Hst Hg HL HQ; cbn [seq coord_map].
  - apply (HQ []).
    + rewrite app_nil_r. split; [|done]. rewrite <- (missing_none g Hm), Hg. unfold tag.
      by rewrite <- list_fmap_compose.
    + destruct Hm. split; [split; [done|lia]|done].
  - apply cwp_bind. split; [destruct Hm; lia|]. intros i x Hi Hnew Hout. rewrite Ht in Hout.
    destruct (lw_do _ laws i (c i) x Hout) as (lats & errs & -> & _). simpl. apply cwp_bind.
    apply (IH (S k) _ (Lg ++ [(i, (lats, errs))])); [by apply missing_receive|done|done| | |].
    + simpl. unfold tag in *. by rewrite fmap_app, Hg.
    + apply Forall_app. split; [done|]. by constructor.
    + intros L g' Hans Hidle. rewrite <- app_assoc in Hans. apply (HQ ((i, (lats, errs)) :: L)); done.
Qed.

Lemma wp_put c k m Q g :
  gh_asked g = k → k + m = n → gh_got g = [] → gh_stops g = 0 → (∀ i, gh_task g i = Do (c i)) →
  (∀ g', missing g' n → (∀ i, gh_task g' i = Do (c i)) → gh_stops g' = 0 → gh_got g' = [] → Q g' (Ok tt)) →
  wp (coord_for (seq k m) (λ i, CPut i (Some (c i)) done)) Q g.
Proof.
  revert k g. induction m as [|m IH]; intros k g Ha Hk Hg Hst Ht HQ; cbn [seq coord_for].
  - apply HQ; [|done..]. split; rewrite ?Hg; simpl; [lia|lia|constructor|set_solver].
  - apply cwp_bind. exists g. split_and!; [by left|done|lia|done|]. apply IH; simpl; try done; lia.
Qed.

(** A new round; when there are no processes it is over at once. *)
Lemma wp_put_all c Q g :
  idle_main g →
  (∀ g', missing g' n → (∀ i, 0 < n → gh_task g' i = Do (c i)) → gh_stops g' = 0 → gh_got g' = [] → Q g' (Ok tt)) →
  wp (coord_for (processes workers) (λ i, CPut i (Some (c i)) done)) Q g.
Proof.
  intros [[Ha Hg] Hst] HQ. unfold processes. destruct (Nat.eq_dec n 0) as [H0|H0].
  - rewrite H0. apply HQ; [|intros; lia|done|by apply length_zero_iff_nil; lia].
    destruct (gh_got g) eqn:Hgot; [|simpl in Hg; lia]. split; rewrite ?Hgot; simpl; [done|done|constructor|set_solver].
  - destruct n as [|m] eqn:Hn; [done|]. cbn [seq coord_for]. apply cwp_bind. rewrite <- Hn.
    exists (round (λ i, Do (c i))). split_and!; [|done|lia|done|].
    { right. split; [split; [by rewrite Hn|by rewrite Hn]|]. split; [done|]. by exists (λ i, Do (c i)). }
    apply (wp_put c 1 m); simpl; try done. intros g' Hm ???. rewrite Hn in Hm. by apply HQ.
Qed.

Lemma wp_stop k m Q g :
  complete n g → gh_stops g = k → k + m = n → (∀ g', complete n g' → Q g' (Ok tt)) →
  wp (coord_for (seq k m) (λ i, CPut i None done)) Q g.
Proof.
  revert k g. induction m as [|m IH]; intros k g Hc Hst Hk HQ; cbn [seq coord_for]; [by apply HQ|].
  apply cwp_bind. split_and!; [done|done|lia|]. apply IH; simpl; [done|lia|lia|done].
Qed.

Lemma wp_print_all lines Q g : Q g (Ok tt) → wp (print_all lines) Q g.
Proof. unfold print_all. induction lines as [|l ls IH]; intros HQ; [done|]. simpl. by apply IH. Qed.

(** One phase: everybody is asked, everybody answers. *)
Lemma wp_timed_phase phase q v Q g :
  idle_main g →
  (∀ L t g', answers (share phase q v) L → idle_main g' → Q g' (Ok (Phase <$> L.*2, t))) →
  wp (timed_phase phase workers q v) Q g.
Proof.
  intros Hidle HQ. unfold timed_phase. apply cwp_bind, (wp_put_all (share phase q v)); [done|].
  intros g1 Hm Ht Hst Hg. apply cwp_bind. intros t0. cbn [cwp mret coord_ret].
  apply cwp_bind. unfold processes.
  destruct (Nat.eq_dec n 0) as [H0|H0].
  - rewrite H0 in *. intros t1. apply (HQ []); [split; [by rewrite H0|constructor]|].
    destruct Hm. split; [split; [lia|]|done]. rewrite Hg. simpl. lia.
  - apply (wp_get (share phase q v) 0 n []); [done|intros; apply Ht; lia|done|done|constructor|].
    intros L g' Hans Hidle' t1. by apply HQ.
Qed.
Lemma flatten_total L : flatten (Phase <$> L.*2) = Ok (total L).
Proof.
  unfold flatten, total.
  assert (foldr (λ x rest, r ← unpack x; rs ← rest; Ok (r :: rs)) (Ok []) (Phase <$> L.*2) = Ok L.*2) as ->; [|done].
  induction L as [|[i r] L IH]; [done|]. csimpl. by rewrite IH.
Qed.

(** What [main] ends with, for what it received. *)
Definition report (w : list Z * Z) (tw : Float.t) (r : list Z * Z) (tr : Float.t) :
    result ((list Z * Z) * (list Z * Z)) :=
  print_results "WRITES" w.1 tw w.2 ;;
  print_results "READS " r.1 tr r.2 ;;
  Ok (w, r).

Definition concluded (ops value_size : Z) (r : result ((list Z * Z) * (list Z * Z))) : Prop :=
  if bool_decide (workers = 0)%Z then r = Raise ZeroDivisionError else
  ∃ W R tw tr, answers (share "write" (ops / workers) value_size) W ∧
    answers (share "read" (ops / workers) value_size) R ∧ r = report (total W) tw (total R) tr.

Lemma wp_coordinate banner ops value_size :
  wp (coordinate banner ops workers value_size) (λ g r, complete n g ∧ concluded ops value_size r) (round (λ _, Boot)).
Proof.
  unfold coordinate. apply cwp_bind, wp_print_all, cwp_bind, wp_start; [done|done|done|].
  apply cwp_bind. cbn [cwp]. apply cwp_bind, wp_ready; [|done|done|].
  { split; simpl; [done|done|constructor|set_solver]. }
  intros g1 Hg1. apply cwp_bind. cbn [cwp]. apply cwp_bind. cbn [cwp]. unfold floor_div, concluded.
  case_bool_decide as H0; [by destruct Hg1|]. apply cwp_bind. cbn [cwp].
  apply cwp_bind, wp_timed_phase; [done|]. intros W tw g2 HW Hg2. apply cwp_bind. cbn [cwp].
  apply cwp_bind, wp_timed_phase; [done|]. intros R tr g3 HR [Hg3 Hst].
  apply cwp_bind, wp_stop; [done|done|done|]. intros g4 Hg4.
  apply cwp_bind. cbn [cwp fst snd]. rewrite flatten_total. apply cwp_bind. cbn [cwp]. rewrite flatten_total.
  assert (∀ r, r = report (total W) tw (total R) tr → complete n g4 ∧ ∃ W R tw tr,
    answers (share "write" (ops / workers) value_size) W ∧
    answers (share "read" (ops / workers) value_size) R ∧ r = report (total W) tw (total R) tr) as Hend.
  { intros r Hr. split; [done|]. by exists W, R, tw, tr. }
  unfold report in Hend. apply cwp_bind. cbn [cwp].
  destruct (print_results "WRITES" _ _ _) as [lines|e]; [|by apply Hend].
  apply cwp_bind, wp_print_all, cwp_bind. cbn [cwp].
  destruct (print_results "READS " _ _ _) as [lines'|e]; [|by apply Hend].
  apply cwp_bind, wp_print_all. by apply Hend.
Qed.

(** The counts of a phase, for the operations every process was given. *)
Lemma answers_count phase q v L :
  (0 ≤ q)%Z → answers (share phase q v) L →
  (Z.of_nat (length (total L).1) + (total L).2 = Z.of_nat n * q)%Z.
Proof.
  intros Hq [Hperm Hall]. assert (length L = n) as Hlen.
  { by rewrite <- (length_fmap fst), Hperm, length_seq. }
  rewrite <- Hlen. clear Hperm Hlen. unfold total. induction Hall as [|[i [lats errs]] L Hr _ IH]; [done|].
  csimpl. rewrite length_app, Nat2Z.inj_add. simpl in IH.
  destruct (lw_do _ laws _ _ _ Hr) as (l & e & [= <- <-] & Hc). simpl in Hc. lia.
Qed.
End main.

(** *** How long [main] is *)
Lemma print_results_length label lats elapsed errors lines :
  print_results label lats elapsed errors = Ok lines → length lines ≤ 12.
Proof.
  unfold print_results. case_bool_decide; [by intros [= <-]; simpl; lia|].
  intros Hp. destruct (if Float.ltb _ _ then _ else _) as [ops_s|e]; [|done]. simpl in Hp.
  destruct (if bool_decide (errors = 0)%Z then _ else _) as [el|e] eqn:Hel; [|done]. simpl in Hp.
  destruct (match merge_sort Z.le lats with [] => _ | _ => _ end) as [ll|e] eqn:Hll; [|done]. simpl in Hp.
  injection Hp as <-. simpl. rewrite length_app. simpl. rewrite length_app. simpl.
  assert (length el ≤ 1 ∧ length ll ≤ 4) as [? ?]; [|lia]. split.
  - case_bool_decide; [by simplify_eq/=; lia|]. destruct (Num.int_div _ _); simplify_eq/=. lia.
  - destruct (merge_sort Z.le lats); [by simplify_eq/=; lia|].
    repeat match type of Hll with context [latency_line ?a ?b ≫= _] => destruct (latency_line a b); [|done]; simpl in Hll end.
    by simplify_eq/=; lia.
Qed.

Lemma within_print lines b : length lines ≤ b → within_cost (print_all lines) b.
Proof.
  intros Hb. eapply within_mono; [apply (within_for _ _ 1)|lia]. intros l. by exists 0.
Qed.

Lemma within_put (workers : Z) (c : nat → option command) :
  within_cost (coord_for (processes workers) (λ i, CPut i (c i) done)) (4 * Z.to_nat workers).
Proof.
  eapply within_mono; [apply (within_for _ _ 4)|unfold processes; rewrite length_seq; lia]. intros i. by exists 0.
Qed.

Lemma within_timed phase workers q v : within_cost (timed_phase phase workers q v) (5 * Z.to_nat workers + 2).
Proof.
  unfold timed_phase. eapply within_mono; [apply cost_bind; [apply within_put|]|].
  - intros []. apply (cost_bind _ _ 1); [by exists 0|]. intros t0.
    apply cost_bind; [apply (within_map _ _ 1); intros; by exists 0|]. intros rs.
    apply (cost_bind _ _ 1 0); [by exists 0|done].
  - unfold processes. rewrite length_seq. lia.
Qed.

Lemma cost_ret {A} (r : result A) : within_cost (CRet r) 0.
Proof. done. Qed.

Definition main_bound (banner : list string) (workers : Z) : nat := length banner + 18 * Z.to_nat workers + 32.

Lemma within_coordinate banner ops workers value_size :
  within_cost (coordinate banner ops workers value_size) (main_bound banner workers).
Proof.
  set (n := Z.to_nat workers). unfold coordinate.
  eapply within_mono.
  { eapply cost_bind; [by apply within_print|intros []].
    eapply cost_bind; [apply (within_for _ _ 3); intros i; by exists 0|intros []].
    eapply (cost_bind _ _ 1); [by exists 0|intros []].
    eapply cost_bind; [apply (within_for _ _ 1); intros i; exists 0; split; [lia|by intros []]|intros []].
    eapply (cost_bind _ _ 1); [by exists 0|intros []].
    eapply cost_bind; [apply cost_ret|intros q].
    eapply (cost_bind _ _ 1); [by exists 0|intros []].
    eapply cost_bind; [apply within_timed|intros writes].
    eapply (cost_bind _ _ 1); [by exists 0|intros []].
    eapply cost_bind; [apply within_timed|intros reads].
    eapply cost_bind; [apply within_put|intros []].
    eapply cost_bind; [apply cost_ret|intros w]. eapply cost_bind; [apply cost_ret|intros r].
    eapply (within_mono _ 24); [|reflexivity].
    destruct (print_results "WRITES" w.1 writes.2 w.2) as [lines|e] eqn:Hw; [|done].
    change (within_cost (print_all lines ≫= λ _, (CRet (print_results "READS " r.1 reads.2 r.2) ≫= λ ls,
      print_all ls ;; mret (w, r))) (12 + 12)).
    eapply cost_bind; [apply within_print; by eapply print_results_length|intros []].
    destruct (print_results "READS " r.1 reads.2 r.2) as [lines'|e] eqn:Hr; [|done].
    change (within_cost (print_all lines' ;; mret (w, r)) 12).
    apply (cost_bind _ _ 12 0); [apply within_print; by eapply print_results_length|done]. }
  unfold main_bound, processes. rewrite !length_seq. lia.
Qed.

(** ** The outcomes of the three scripts *)

Lemma collect_all_ok l e rs v : collect l e rs = Ok v → ∃ pairs, rs = Ok <$> pairs.
Proof.
  revert l e. induction rs as [|[[ls es]|ex] rs IH]; intros l e Hc; [by exists []| |done].
  destruct (IH _ _ Hc) as [pairs ->]. by exists ((ls, es) :: pairs).
Qed.

Lemma collect_raise l e rs ex : collect l e rs = Raise ex → Raise ex ∈ rs.
Proof.
  revert l e. induction rs as [|[[ls es]|ex'] rs IH]; intros l e Hc; [done| |].
  - right. by eapply IH.
  - injection Hc as ->. left.
Qed.

Section outcomes.
Context {W : Type} (perf_counter_ns : nat → Z).

(** *** Threads *)
Section threads.
Context (worker_fn : Z → prog (W * nat) (list Z * Z)) (concurrency : Z) (order completed : list nat) (s s' : W * nat).
Hypothesis positive : (0 < concurrency)%Z.
Hypothesis everyone : completed ≡ₚ processes concurrency.

Lemma sync_phase_inv r :
  sync_run_phase concurrency worker_fn order completed s = (Some r, s') →
  ∃ results in_order, Forall2 (λ tid res, may_end (worker_fn tid) res) (seqZ 0 concurrency) results ∧
    mapM (results !!.) completed = Some in_order ∧ r = collect [] 0 in_order.
Proof.
  unfold sync_run_phase. rewrite bool_decide_eq_false_2 by lia. intros [= Hr _].
  destruct (mapM outcome_of _) as [results|] eqn:Hres; [|done]. simpl in Hr.
  destruct (mapM _ completed) as [in_order|] eqn:Hin; [|done]. injection Hr as <-.
  exists results, in_order. split; [|done]. apply Forall2_same_length_lookup.
  pose proof (length_mapM _ _ _ Hres) as Hlen. rewrite interleave_length in Hlen. simpl in Hlen. rewrite length_fmap in Hlen.
  split; [done|]. intros i tid res Ht Hi. apply mapM_Some in Hres.
  destruct (Forall2_lookup_r _ _ _ _ _ Hres Hi) as (p & Hp & Hout).
  destruct p as [r|]; [|done]. injection Hout as ->.
  eapply interleave_may_end; [|exact Hp]. simpl. by rewrite list_lookup_fmap, Ht.
Qed.

Lemma completed_all {A} (results in_order : list A) :
  length results = Z.to_nat concurrency → mapM (results !!.) completed = Some in_order →
  ∀ x, x ∈ in_order ↔ x ∈ results.
Proof.
  intros Hlen Hin x. apply mapM_Some in Hin. split.
  - intros [j Hj]%list_elem_of_lookup_1. destruct (Forall2_lookup_r _ _ _ _ _ Hin Hj) as (i & _ & Hi).
    by eapply list_elem_of_lookup_2.
  - intros [i Hi]%list_elem_of_lookup_1.
    assert (i ∈ completed) as [j Hj]%list_elem_of_lookup_1.
    { rewrite everyone. apply elem_of_seq. apply lookup_lt_Some in Hi. lia. }
    destruct (Forall2_lookup_l _ _ _ _ _ Hin Hj) as (y & Hy & Hiy). rewrite Hi in Hiy. injection Hiy as ->.
    by eapply list_elem_of_lookup_2.
Qed.
End threads.

Lemma sync_lawful (nodes : nat → node_progs W) concurrency pool_max :
  lawful (λ i, sync_outcome perf_counter_ns (nodes i) concurrency pool_max).
Proof.
  split.
  - intros i x (r & _ & Hr). by destruct r; simplify_eq/=.
  - intros i c x (order & completed & s & s' & r & Hperm & Hrun & Hr).
    destruct r as [[lats errs]|]; [|done]. injection Hr as ->. exists lats, errs. split; [done|].
    destruct (decide (0 < concurrency)%Z) as [Hc|Hc].
    2: { unfold sync_run_phase in Hrun. by rewrite bool_decide_eq_true_2 in Hrun by lia. }
    destruct (sync_phase_inv _ _ _ _ _ _ Hc _ Hrun) as (results & in_order & Hall & Hin & Hcol).
    pose proof (Forall2_length _ _ _ Hall) as Hlen. rewrite length_seqZ in Hlen.
    destruct (collect_all_ok _ _ _ _ (eq_sym Hcol)) as [pairs' Hpairs'].
    assert (∃ pairs, results = Ok <$> pairs) as [pairs ->].
    { assert (Forall (λ x, ∃ p, x = Ok p) results) as Hok.
      { apply Forall_forall. intros x Hx. apply (completed_all _ _ Hc Hperm _ _ (eq_sym Hlen) Hin) in Hx.
        rewrite Hpairs' in Hx. apply list_elem_of_fmap in Hx as (p & -> & _). by exists p. }
      clear -Hok. induction Hok as [|x results [p ->] _ [pairs ->]]; [by exists []|]. by exists (p :: pairs). }
    rewrite length_fmap in Hlen.
    destruct (collect_completed pairs completed) as (l & Hcoll & Hl).
    { rewrite Hperm. unfold processes. by rewrite Hlen. }
    rewrite Hin in Hcoll. simpl in Hcoll. injection Hcoll as Hcoll. rewrite Hcoll in Hcol. injection Hcol as -> ->.
    rewrite Hl. clear Hl Hcoll Hin Hpairs' Hlen Hrun.
    assert (Z.max 0 (cmd_end c - cmd_start c) =
      Z.of_nat (length (mjoin (strides (cmd_end c - cmd_start c) concurrency))))%Z as ->.
    { rewrite strides_permutation, length_seqZ by done. lia. }
    unfold strides. apply Forall2_fmap_r in Hall.
    induction Hall as [|tid [ls es] tids pairs Hend _ IH]; [done|]. csimpl. rewrite !length_app, !Nat2Z.inj_add.
    destruct (node_worker_counts _ _ _ _ _ _ _ Hend) as [(l' & e' & [= -> ->] & Hcount)|(? & ? & [=] & _)].
    simpl in Hcount. lia.
Qed.

(** *** Coroutines *)
Lemma gathered_lawful (op : Z → prog W bool) c concurrency x :
  (0 < concurrency)%Z → gathered perf_counter_ns op c concurrency (Ok x) →
  ∃ lats errs, x = Phase (lats, errs) ∧ (Z.of_nat (length lats) + errs = Z.max 0 (cmd_end c - cmd_start c))%Z.
Proof.
  intros Hc (order & w & [(r & Hrun & [= ->])|(e & _ & [=])]). destruct r as [lats errs]. exists lats, errs.
  split; [done|]. unfold async_run_phase in Hrun. destruct (all_returned _) as [rs|] eqn:Hg; [|done].
  injection Hrun as <- <-. by destruct (all_returned_complete _ _ _ _ _ _ _ _ _ Hc Hg) as (_ & ? & _).
Qed.
End outcomes.

(** *** Outcomes exist, and raise only where a method of the node does *)

(** A program that never raises. *)
Definition never_raises {S A} (p : prog S A) : Prop := ∀ e, ¬ may_end p (Raise e).

Lemma never_ret {S A} (a : A) : never_raises (mret a : prog S A).
Proof. intros e [=]. Qed.

Lemma never_bind {S A B} (p : prog S A) (f : A → prog S B) :
  never_raises p → (∀ a, never_raises (f a)) → never_raises (p ≫= f).
Proof.
  intros Hp Hf e [(a & _ & He)|(e' & He & _)]%may_end_bind; [by apply (Hf a e)|by apply (Hp e')].
Qed.

Lemma never_for {S X} (xs : list X) (body : X → prog S unit) :
  (∀ x, never_raises (body x)) → never_raises (prog_for xs body).
Proof.
  intros Hb. induction xs as [|x xs IH]; [apply never_ret|]. apply never_bind; [apply Hb|intros []; apply IH].
Qed.

Lemma never_try {S A} (p : prog S A) h : (∀ e, never_raises (h e)) → never_raises (prog_try p h).
Proof.
  intros Hh. induction p as [[a|e]|X m k IH]; intros e' He; simpl in He; [done|by eapply Hh|].
  destruct He as [s He]. by eapply IH.
Qed.

#[local] Hint Resolve never_ret : core.

(** The methods of a node never raise. *)
Record node_healthy {W} (node : node_progs W) : Prop := {
  nh_start : never_raises (np_start node);
  nh_peers : never_raises (np_peers node);
  nh_ping p : never_raises (np_ping node p);
  nh_set k v : never_raises (np_set node k v);
  nh_get k : never_raises (np_get node k);
}.

Definition script_healthy {W} (sc : script W) : Prop :=
  match sc with
  | SyncBench nodes _ | AsyncBench nodes => ∀ i, node_healthy (nodes i)
  | RedisBench _ set get _ _ _ => (∀ k v, never_raises (set k v)) ∧ ∀ k, never_raises (get k)
  end.

Section more_outcomes.
Context {W : Type} (perf_counter_ns : nat → Z).

Lemma phase_op_healthy (set : string → pyval → prog W bool) (get : string → prog W pyval) c k :
  (∀ k v, never_raises (set k v)) → (∀ k, never_raises (get k)) → never_raises (phase_op set get c k).
Proof.
  intros Hs Hg. unfold phase_op. case_decide; [apply Hs|]. apply never_bind; [apply Hg|intros; apply never_ret].
Qed.

Lemma sync_boot_healthy (node : node_progs W) concurrency pool_max :
  node_healthy node → never_raises (sync_boot node concurrency pool_max).
Proof.
  intros [? ? ? ? ?]. apply never_bind; [done|intros _]. apply never_bind; [done|intros peers].
  apply never_for. intros p. apply never_for. intros _. by apply never_bind.
Qed.

Lemma async_boot_healthy (node : node_progs W) concurrency :
  node_healthy node → (0 < concurrency)%Z → never_raises (async_boot node concurrency).
Proof.
  intros [? ? ? ? ?] Hc. apply never_bind; [done|intros _]. apply never_bind; [done|intros peers].
  apply never_for. intros p. unfold range_by. rewrite bool_decide_eq_false_2 by lia.
  apply never_bind; [intros e [=]|intros rounds]. apply never_for. intros _. apply never_for. intros _.
  apply never_try. intros e. apply never_ret.
Qed.

Lemma redis_boot_healthy (ping : prog W unit) concurrency : never_raises (redis_boot ping concurrency).
Proof. apply never_for. intros _. apply never_try. intros e. apply never_ret. Qed.

Lemma gathered_some (op : Z → prog W bool) c concurrency :
  inhabited W → ∃ r, gathered perf_counter_ns op c concurrency r.
Proof.
  intros [w]. destruct (interleave_finishes
    (run_workers perf_counter_ns op false (cmd_end c - cmd_start c) (cmd_start c) concurrency [] w)) as [order Hfin].
  change (Forall (λ p, finished p = true)
    (run_workers perf_counter_ns op false (cmd_end c - cmd_start c) (cmd_start c) concurrency order w).1) in Hfin.
  destruct (async_run_phase perf_counter_ns op false (cmd_end c - cmd_start c) (cmd_start c) concurrency order w) as [x|] eqn:Hrun.
  { exists (Ok (Phase x)), order, w. left. by exists x. }
  unfold async_run_phase, all_returned in Hrun. set (ws := (run_workers _ _ _ _ _ _ _ _).1) in *.
  assert (∃ e, Ret (Raise e) ∈ ws) as [e He].
  { destruct (mapM returned ws) as [rs|] eqn:Hm; [done|]. apply mapM_None in Hm. apply Exists_exists in Hm as (p & Hp & Hret).
    rewrite Forall_forall in Hfin. specialize (Hfin p Hp). destruct p as [[b|e]|]; try done. by exists e. }
  exists (Raise e), order, w. right. by exists e.
Qed.

Lemma gathered_healthy (op : Z → prog W bool) c concurrency e :
  (∀ i, never_raises (op i)) → ¬ gathered perf_counter_ns op c concurrency (Raise e).
Proof.
  intros Hop (order & w & [(x & _ & [=])|(e' & He & [= <-])]).
  destruct (run_workers_safe perf_counter_ns op false (cmd_end c - cmd_start c) (cmd_start c) concurrency order w)
    as (helds & [Hlen Hwp] & _).
  apply list_elem_of_lookup_1 in He as [j Hj]. destruct (lookup_lt_is_Some_2 helds j) as [held Hh].
  { rewrite Hlen. by eapply lookup_lt_Some. }
  specialize (Hwp j held _ Hh Hj). simpl in Hwp. destruct Hwp as [i Hi]. by apply (Hop i e).
Qed.

Lemma sync_some (node : node_progs W) concurrency pool_max c :
  inhabited W → ∃ r, sync_outcome perf_counter_ns node concurrency pool_max (Do c) r.
Proof.
  intros [w]. simpl. set (fn := node_worker _ _ _ _).
  destruct (decide (0 < concurrency)%Z) as [Hc|Hc].
  2: { exists (Raise ValueError), [], [], (w, 0), (w, 0), (Raise ValueError). unfold processes.
       replace (Z.to_nat concurrency) with 0 by lia. split; [done|]. split; [|done].
       unfold sync_run_phase. by rewrite bool_decide_eq_true_2 by lia. }
  destruct (interleave_finishes (fn <$> seqZ 0 concurrency, (w, 0))) as [order Hfin].
  destruct (interleave order _) as [ts s'] eqn:Hrun. simpl in Hfin.
  assert (∃ results, mapM outcome_of ts = Some results) as [results Hres].
  { destruct (mapM outcome_of ts) as [rs|] eqn:Hm; [by exists rs|]. apply mapM_None in Hm. apply Exists_exists in Hm as (p & Hp & Ho).
    rewrite Forall_forall in Hfin. specialize (Hfin p Hp). by destruct p. }
  assert (length results = Z.to_nat concurrency) as Hlen.
  { rewrite <- (length_mapM _ _ _ Hres). pose proof (interleave_length order (fn <$> seqZ 0 concurrency, (w, 0))) as Hl.
    rewrite Hrun in Hl. simpl in Hl. by rewrite Hl, length_fmap, length_seqZ. }
  exists (collect [] 0 results ≫= λ x, Ok (Phase x)), order, (processes concurrency), (w, 0), s', (collect [] 0 results).
  split; [done|]. split; [|done]. unfold sync_run_phase. rewrite bool_decide_eq_false_2 by lia. rewrite Hrun. simpl.
  rewrite Hres. simpl. assert (mapM (results !!.) (processes concurrency) = Some results) as ->; [|done].
  apply mapM_Some, Forall2_same_length_lookup. unfold processes. rewrite length_seq. split; [done|].
  intros i x y [-> _]%lookup_seq. done.
Qed.

Lemma sync_healthy (node : node_progs W) concurrency pool_max c e :
  node_healthy node → (0 < concurrency)%Z → ¬ sync_outcome perf_counter_ns node concurrency pool_max (Do c) (Raise e).
Proof.
  intros Hn Hc (order & completed & s & s' & r & Hperm & Hrun & Hr). destruct r as [x|e']; [done|].
  destruct (sync_phase_inv _ _ _ _ _ _ Hc _ Hrun) as (results & in_order & Hall & Hin & Hcol).
  pose proof (Forall2_length _ _ _ Hall) as Hlen. rewrite length_seqZ in Hlen.
  symmetry in Hcol. apply collect_raise in Hcol. apply (completed_all _ _ Hc Hperm _ _ (eq_sym Hlen) Hin) in Hcol.
  apply list_elem_of_lookup_1 in Hcol as [j Hj]. destruct (Forall2_lookup_r _ _ _ _ _ Hall Hj) as (tid & _ & Hend).
  destruct (node_worker_counts _ _ _ _ _ _ _ Hend) as [(l & ? & [=] & _)|(k & e'' & _ & He)].
  eapply (phase_op_healthy (np_set node) (np_get node) c k); [apply Hn|apply Hn|done].
Qed.
End more_outcomes.

Section scripts.
Context {W : Type} (perf_counter_ns : nat → Z) (sc : script W) (ops concurrency value_size : Z).
Hypothesis workers_there : (0 < concurrency)%Z.

Lemma script_lawful : lawful (script_outcome sc concurrency perf_counter_ns).
Proof.
  assert (∀ (r' : result unit) x, Ok x = (r' ≫= λ _, Ok Ready) → x = Ready) as Hboot.
  { intros [u|e] x Hx; by simplify_eq/=. }
  destruct sc as [nodes pool_max|nodes|ping set get h p k]; simpl; [apply sync_lawful|..]; split.
  1,3: intros i x (r' & _ & Hr); by eapply Hboot.
  all: intros i c x Hx; by eapply gathered_lawful.
Qed.

Lemma script_total i t : inhabited W → ∃ r, script_outcome sc concurrency perf_counter_ns i t r.
Proof.
  intros HW. destruct t as [|c].
  - destruct sc as [nodes pool_max|nodes|ping set get h p k]; simpl.
    + destruct (may_end_some (sync_boot (nodes i) concurrency pool_max) HW) as [r Hr]. by exists (r ≫= λ _, Ok Ready), r.
    + destruct (may_end_some (async_boot (nodes i) concurrency) HW) as [r Hr]. by exists (r ≫= λ _, Ok Ready), r.
    + destruct (may_end_some (redis_boot ping concurrency) HW) as [r Hr]. by exists (r ≫= λ _, Ok Ready), r.
  - destruct sc as [nodes pool_max|nodes|ping set get h p k]; simpl; [|by apply gathered_some..].
    by apply (sync_some perf_counter_ns (nodes i) concurrency pool_max c).
Qed.

Lemma script_never_raises i t e : script_healthy sc → ¬ script_outcome sc concurrency perf_counter_ns i t (Raise e).
Proof.
  intros Hh. destruct t as [|c].
  - destruct sc as [nodes pool_max|nodes|ping set get h p k]; simpl in *; intros (r & Hr & Heq);
      (destruct r as [u|e']; [done|]).
    + by apply (sync_boot_healthy (nodes i) concurrency pool_max (Hh i) e').
    + by apply (async_boot_healthy (nodes i) concurrency (Hh i) workers_there e').
    + by apply (redis_boot_healthy ping concurrency e').
  - destruct sc as [nodes pool_max|nodes|ping set get h p k]; simpl in *.
    + by apply (sync_healthy perf_counter_ns (nodes i) concurrency pool_max c e (Hh i)).
    + apply gathered_healthy. intros j. apply phase_op_healthy; apply Hh.
    + apply gathered_healthy. intros j. destruct Hh as [Hs Hg]. apply phase_op_healthy; [|done].
      intros k' v. apply never_bind; [apply Hs|intros; apply never_ret].
Qed.

Lemma script_wp :
  cwp (Z.to_nat (script_workers sc)) (script_outcome sc concurrency perf_counter_ns)
    (script_main sc ops concurrency value_size)
    (λ g r, complete (Z.to_nat (script_workers sc)) g ∧
       concluded (script_outcome sc concurrency perf_counter_ns) (script_workers sc) ops value_size r) (round (λ _, Boot)).
Proof. pose proof script_lawful as Hl. destruct sc; apply wp_coordinate; done. Qed.

Lemma launch_ok outcome {A} (p : coord A) workers : sys_ok (Z.to_nat workers) outcome (round (λ _, Boot)) (launch p workers).
Proof.
  split; [apply length_replicate|]. exists []. split; [done|]. split; [split; simpl; [constructor|constructor|lia|lia]|].
  intros i s [-> _]%lookup_replicate. apply (ok_idle _ (round (λ _, Boot))); [simpl; lia|].
  apply bool_decide_eq_false. set_solver.
Qed.

Lemma script_invariant st :
  rtc (script_step sc concurrency perf_counter_ns) (script_start sc ops concurrency value_size) st →
  ∃ g, sys_ok (Z.to_nat (script_workers sc)) (script_outcome sc concurrency perf_counter_ns) g st ∧
    cwp (Z.to_nat (script_workers sc)) (script_outcome sc concurrency perf_counter_ns) (sy_main st)
      (λ g r, complete (Z.to_nat (script_workers sc)) g ∧
         concluded (script_outcome sc concurrency perf_counter_ns) (script_workers sc) ops value_size r) g.
Proof. intros Hsteps. eapply steps_ok; [exact Hsteps|apply launch_ok|apply script_wp]. Qed.

(** C31. The benchmarks count what they did.  [main] and its processes share one queue of
    results without names or phases on them; still, in every interleaving, what [main]
    adds up under WRITES is one result of each process for its write command, under READS
    one of each for its read command, and the latencies and errors of either number
    [ops - ops mod n], the operations of [n] processes with [ops // n] each.  It never
    takes a result for ["ready"] or the other way round, and where a process has died it
    does not end: it waits for an answer that cannot come.  The concurrency is positive. *)
Theorem bench_counts st :
  let n := script_workers sc in
  rtc (script_step sc concurrency perf_counter_ns) (script_start sc ops concurrency value_size) st →
  (∀ r, sy_main st = CRet r →
    if bool_decide (n = 0)%Z then r = Raise ZeroDivisionError else
    ∃ W R tw tr,
      answers (script_outcome sc concurrency perf_counter_ns) n (share "write" (ops / n) value_size) W ∧
      answers (script_outcome sc concurrency perf_counter_ns) n (share "read" (ops / n) value_size) R ∧
      r = report (total W) tw (total R) tr ∧
      ((0 < n)%Z → (0 ≤ ops)%Z →
        (Z.of_nat (length (total W).1) + (total W).2 = ops - ops mod n)%Z ∧
        (Z.of_nat (length (total R).1) + (total R).2 = ops - ops mod n)%Z)) ∧
  (∀ i s e, sy_slots st !! i = Some s → sl_worker s = Died e → ∀ r, sy_main st ≠ CRet r).
Proof.
  intros n Hsteps. destruct (script_invariant st Hsteps) as (g & Hok & Hp). split.
  - intros r Hr. rewrite Hr in Hp. destruct Hp as [_ Hp]. unfold concluded in Hp. fold n in Hp.
    case_bool_decide as H0; [done|]. destruct Hp as (Wl & R & tw & tr & HW & HR & Hrep). exists Wl, R, tw, tr.
    split; [done|]. split; [done|]. split; [done|]. intros Hn Hops.
    assert (0 ≤ ops / n)%Z by (apply Z.div_pos; lia). pose proof (Z_div_mod_eq_full ops n).
    rewrite (answers_count _ script_lawful n _ _ _ Wl ltac:(done) HW), (answers_count _ script_lawful n _ _ _ R ltac:(done) HR).
    rewrite Z2Nat.id by lia. lia.
  - intros i s e Hi He r Hr. rewrite Hr in Hp. destruct Hp as [Hc _]. by eapply died_incomplete.
Qed.

Lemma run_bounded k st :
  nsteps (script_step sc concurrency perf_counter_ns) k (script_start sc ops concurrency value_size) st →
  k ≤ 18 * Z.to_nat (script_workers sc) + 38.
Proof.
  intros Hsteps.
  assert (∃ banner, within_cost (script_main sc ops concurrency value_size) (main_bound banner (script_workers sc)) ∧
    length banner ≤ 6) as (banner & Hb & Hlen).
  { destruct sc; eexists; (split; [apply within_coordinate|simpl; lia]). }
  pose proof (steps_cost _ _ _ _ _ Hsteps Hb) as Hk. simpl in Hk.
  assert (sum_cost (replicate (Z.to_nat (script_workers sc)) (mkSlot Unstarted [] [])) = 0) as H0.
  { clear. by induction (Z.to_nat (script_workers sc)). }
  rewrite H0 in Hk. unfold main_bound in Hk. lia.
Qed.

Lemma run_goes_on st :
  inhabited W → script_healthy sc →
  rtc (script_step sc concurrency perf_counter_ns) (script_start sc ops concurrency value_size) st →
  (∃ r, sy_main st = CRet r) ∨ ∃ st', script_step sc concurrency perf_counter_ns st st'.
Proof.
  intros HW Hh Hsteps. destruct (script_invariant st Hsteps) as (g & Hok & Hp).
  eapply progress; [exact Hok|exact Hp|intros; by apply script_total|intros; by apply script_never_raises].
Qed.

(** So there are runs to the end. *)
Lemma run_ends :
  inhabited W → script_healthy sc →
  ∃ st r, rtc (script_step sc concurrency perf_counter_ns) (script_start sc ops concurrency value_size) st ∧
    sy_main st = CRet r.
Proof.
  intros HW Hh.
  assert (∀ k, (∃ st r, rtc (script_step sc concurrency perf_counter_ns) (script_start sc ops concurrency value_size) st ∧
      sy_main st = CRet r) ∨
    ∃ st, nsteps (script_step sc concurrency perf_counter_ns) k (script_start sc ops concurrency value_size) st) as Hk.
  { induction k as [|k [Hend|[st Hst]]]; [right; eexists; constructor|by left|].
    assert (rtc (script_step sc concurrency perf_counter_ns) (script_start sc ops concurrency value_size) st) as Hr
      by (apply rtc_nsteps; by exists k).
    destruct (run_goes_on st HW Hh Hr) as [[r Hm]|[st' Hs]]; [left; by exists st, r|].
    right. exists st'. by eapply nsteps_r. }
  destruct (Hk (S (18 * Z.to_nat (script_workers sc) + 38))) as [Hend|[st Hst]]; [done|].
  apply run_bounded in Hst. lia.
Qed.

(** C32. Where nothing raises and the concurrency is positive, the benchmarks end.  No run
    of [main] and its processes has more than a fixed number of steps, whatever the
    interleaving, and as long as [main] has not ended somebody has a step to take: no
    message is lost and nobody waits for ever. *)
Theorem bench_completes k st :
  inhabited W → script_healthy sc →
  nsteps (script_step sc concurrency perf_counter_ns) k (script_start sc ops concurrency value_size) st →
  k ≤ 18 * Z.to_nat (script_workers sc) + 38 ∧
  ((∃ r, sy_main st = CRet r) ∨ ∃ st', script_step sc concurrency perf_counter_ns st st').
Proof.
  intros HW Hh Hsteps. split; [by eapply run_bounded|]. apply run_goes_on; [done..|]. apply rtc_nsteps. by exists k.
Qed.
End scripts.

(** Nodes all of whose calls succeed, on a world that does not change. *)
Definition constant_node : node_progs unit :=
  mkNodeProgs unit (mret tt) (mret []) (λ _, mret true) (λ _ _, mret true) (λ _, mret VNone).

Definition sample_bench : script unit := AsyncBench (λ _, constant_node).

Lemma sample_bench_healthy : script_healthy sample_bench.
Proof. intros i. split; intros; apply never_ret. Qed.

(** A hundred operations on three nodes: ninety-nine of each kind are counted. *)
Lemma bench_counts_witness :
  ∃ st W R tw tr, rtc (script_step sample_bench 64 Z.of_nat) (script_start sample_bench 100 64 8) st ∧
    sy_main st = CRet (report (total W) tw (total R) tr) ∧
    (Z.of_nat (length (total W).1) + (total W).2 = 99)%Z ∧ (Z.of_nat (length (total R).1) + (total R).2 = 99)%Z.
Proof.
  destruct (run_ends Z.of_nat sample_bench 100 64 8 ltac:(lia) (inhabits tt) sample_bench_healthy) as (st & r & Hst & Hr).
  destruct (bench_counts Z.of_nat sample_bench 100 64 8 ltac:(lia) st Hst) as [Hend _].
  destruct (Hend r Hr) as (Wl & R & tw & tr & _ & _ & Heq & Hcount). rewrite Heq in Hr.
  destruct (Hcount ltac:(done) ltac:(lia)) as [HW HR].
  exists st, Wl, R, tw, tr. split; [exact Hst|]. split; [exact Hr|]. split; [exact HW|exact HR].
Defined.

Lemma bench_completes_witness :
  (∃ r, sy_main (script_start sample_bench 100 64 8) = CRet r) ∨
  ∃ st', script_step sample_bench 64 Z.of_nat (script_start sample_bench 100 64 8) st'.
Proof.
  apply (bench_completes Z.of_nat sample_bench 100 64 8 ltac:(lia) 0 _ (inhabits tt) sample_bench_healthy). constructor.
Defined.
