(* ===== verification/StoreBench.v ===== *)
(** * The store benchmarks ([benchmarks/store])

    Threads that set, get and delete a stride of keys each, on one [LocalStore]. *)
From S2P Require Import Prelude Threads PyBase PyDict Types Store LwwStore BasicStore Workload.

(** The store the threads share, their progress reporter, and the number of readings
    the clocks have had. *)
Record store_bench := mkStoreBench {
  sb_store : basic_store;
  sb_progress : progress;
  sb_readings : nat;
}.

Section benches.
Context (perf_counter_ns : nat → Z) (clocks : nat → clock).
Context (value : pyval) (ops n_threads : Z).
Implicit Types (s : store_bench) (k : string).

Definition now : M store_bench Z := λ s,
  (Ok (perf_counter_ns (sb_readings s)),
   mkStoreBench (sb_store s) (sb_progress s) (S (sb_readings s))).

Definition on_store {A} : M basic_store A → M store_bench A :=
  zoom sb_store (λ d s, mkStoreBench d (sb_progress s) (sb_readings s)).

Definition on_progress {A} : M progress A → M store_bench A :=
  zoom sb_progress (λ p s, mkStoreBench (sb_store s) p (sb_readings s)).

Definition bench_set k : M store_bench bool := λ s,
  on_store (basic_set (clocks (sb_readings s)) k value None) s.
Definition bench_get k : M store_bench pyval := λ s,
  on_store (basic_get (clocks (sb_readings s)) k) s.
Definition bench_delete k : M store_bench bool := on_store (basic_delete k).

(** The loops of the three workers of [multi_thread_bench.py]; they differ in the
    operation, which tells whether it counts as an error. *)
Fixpoint worker_loop (op : string → M store_bench bool) (keys lats : list Z) (errors : Z) :
    prog store_bench (list Z * Z) :=
  match keys with
  | [] => mret (lats, errors)
  | i :: keys =>
      t ← act now;
      failed ← act (op (bench_key i));
      t' ← act now;
      act (on_progress (tick ops 1)) ;;
      worker_loop op keys (lats ++ [t' - t]%Z) (if failed : bool then errors + 1 else errors)%Z
  end.

Definition set_op k : M store_bench bool := bench_set k ;; mret false.
Definition get_op k : M store_bench bool := v ← bench_get k; mret (negb (is_not_none v)).
Definition delete_op k : M store_bench bool := bench_delete k ;; mret false.

Definition stride_worker (op : string → M store_bench bool) (tid : Z) : prog store_bench (list Z * Z) :=
  worker_loop op (py_range tid ops n_threads) [] 0.

Definition _make_set_worker : Z → prog store_bench (list Z * Z) := stride_worker set_op.
Definition _make_get_worker : Z → prog store_bench (list Z * Z) := stride_worker get_op.
Definition _make_delete_worker : Z → prog store_bench (list Z * Z) := stride_worker delete_op.

(** [run_worker] of [bench.py]: all three operations on each key, with the
    latencies of each kind. *)
Fixpoint run_worker_loop (keys w g d : list Z) : prog store_bench (list Z * list Z * list Z) :=
  match keys with
  | [] => mret (w, g, d)
  | i :: keys =>
      let key := bench_key i in
      t ← act now; act (bench_set key) ;; t1 ← act now;
      t2 ← act now; act (bench_get key) ;; t3 ← act now;
      t4 ← act now; act (bench_delete key) ;; t5 ← act now;
      run_worker_loop keys (w ++ [t1 - t]%Z) (g ++ [t3 - t2]%Z) (d ++ [t5 - t4]%Z)
  end.

Definition run_worker (tid : Z) : prog store_bench (list Z * list Z * list Z) :=
  run_worker_loop (py_range tid ops n_threads) [] [] [].

(** [_prepop]. *)
Definition _prepop : M store_bench unit :=
  for_each (seqZ 0 ops) (λ i, bench_set (bench_key i) ;; mret tt).

(** A phase: a new progress reporter and the threads, in the given order of actions
    and of completion. *)
Definition run_phase (worker_fn : Z → prog store_bench (list Z * Z)) (order completed : list nat) s :
    option (result (list Z * Z)) * store_bench :=
  sync_run_phase n_threads worker_fn order completed
    (mkStoreBench (sb_store s) progress_start (sb_readings s)).

(** The three phases of [run_one] on a new store, each with its schedule. *)
Definition run_one (set_sched get_sched del_sched : list nat * list nat) :
    list (option (result (list Z * Z))) * store_bench :=
  let '(r1, s1) := run_phase _make_set_worker set_sched.1 set_sched.2
    (mkStoreBench [] progress_start 0) in
  let '(_, s2) := _prepop s1 in
  let '(r2, s3) := run_phase _make_get_worker get_sched.1 get_sched.2 s2 in
  let '(r3, s4) := run_phase _make_delete_worker del_sched.1 del_sched.2 s3 in
  ([r1; r2; r3], s4).

(** ** Points-to

    A thread holds, for each of its keys, whether the store has the value for it. *)
Abbreviation cell := (string * bool)%type.

Definition content (b : bool) : option basic_entry := if b then Some (value, None) else None.

Record bench_inv (d0 : basic_store) (held : gset cell) s : Prop := {
  bi_wf : dict_wf (sb_store s);
  bi_held k b : (k, b) ∈ held → dict_get (sb_store s) k = content b;
  bi_rest k : (∀ i, (0 ≤ i < ops)%Z → k ≠ bench_key i) → dict_get (sb_store s) k = dict_get d0 k;
  bi_progress : progress_inv ops (sb_progress s);
}.

#[local] Definition anything (_ : cell) (_ _ : store_bench) : Prop := True.

#[local] Instance anything_unchanged : Unchanged anything.
Proof. by split. Qed.

Abbreviation bwp d0 := (wp (bench_inv d0) anything).

Lemma content_inj b b' : content b = content b' → b = b'.
Proof. by destruct b, b'. Qed.

(** An action on one key. *)
Lemma wp_cell {X : Type} (d0 : basic_store) (h : gset cell) (i : Z) (b b' : bool)
    (m : M store_bench X) (Q : gset cell → result X → Prop) (post : result X → Prop) :
  (0 ≤ i < ops)%Z → (∀ b2, (bench_key i, b2) ∉ h) →
  (∀ s, dict_wf (sb_store s) → dict_get (sb_store s) (bench_key i) = content b →
     ∃ r s', m s = (r, s') ∧ post r ∧ sb_progress s' = sb_progress s ∧ dict_wf (sb_store s') ∧
     ∀ k, dict_get (sb_store s') k =
       if decide (bench_key i = k) then content b' else dict_get (sb_store s) k) →
  (∀ r, post r → Q ({[(bench_key i, b')]} ∪ h) r) →
  bwp d0 ({[(bench_key i, b)]} ∪ h) (act m) Q.
Proof.
  intros Hi Hno Hm HQ. apply wp_act. intros others s Hd [Hwf Hheld Hrest Hp].
  assert (dict_get (sb_store s) (bench_key i) = content b) as Ho by (apply Hheld; set_solver).
  assert (∀ b2, (bench_key i, b2) ∈ others → False) as Hoth.
  { intros b2 Hin. apply (Hd (bench_key i, b)); [set_solver|].
    assert (b2 = b) as <-; [|done]. apply content_inj. rewrite <- Ho. symmetry. apply Hheld. set_solver. }
  destruct (Hm s Hwf Ho) as (r & s' & -> & Hr & Hp' & Hwf' & Hget).
  exists ({[(bench_key i, b')]} ∪ h). simpl. split_and!; [| |done|by apply HQ].
  - intros [k b2] [[= -> ->]%elem_of_singleton|Hin]%elem_of_union Hin'; [by eapply Hoth|set_solver].
  - split; [done| | |congruence].
    + intros k b2 Hin. rewrite Hget. case_decide as Hk.
      * subst k. apply elem_of_union in Hin as [[[= ->]%elem_of_singleton|Hin]%elem_of_union|Hin];
          [done|by destruct (Hno b2)|by destruct (Hoth b2)].
      * apply Hheld. apply elem_of_union in Hin as [[[= -> ->]%elem_of_singleton|Hin]%elem_of_union|Hin];
          [done|set_solver..].
    + intros k Hk. rewrite Hget, decide_False by (intros Heq; by eapply (Hk i)). by apply Hrest.
Qed.

(** An action that leaves the store alone. *)
Lemma wp_aside {X : Type} (d0 : basic_store) (h : gset cell) (m : M store_bench X)
    (Q : gset cell → result X → Prop) :
  (∀ s, sb_store (m s).2 = sb_store s ∧
    (progress_inv ops (sb_progress s) → progress_inv ops (sb_progress (m s).2))) →
  (∀ s, Q h (m s).1) → bwp d0 h (act m) Q.
Proof.
  intros Hm HQ. apply wp_act. intros others s Hd [Hwf Hheld Hrest Hp]. exists h.
  destruct (Hm s) as [Heq Hprog]. split; [done|]. split; [|by split]. split; rewrite ?Heq; auto.
Qed.

Lemma wp_now (d0 : basic_store) (h : gset cell) (Q : gset cell → result Z → Prop) :
  (∀ t, Q h (Ok t)) → bwp d0 h (act now) Q.
Proof. intros HQ. apply wp_aside; [by split|]. intros s. apply HQ. Qed.

Lemma wp_tick (d0 : basic_store) (h : gset cell) (Q : gset cell → result unit → Prop) :
  (0 ≤ ops)%Z → Q h (Ok tt) → bwp d0 h (act (on_progress (tick ops 1))) Q.
Proof. intros Hops HQ. apply wp_aside; [|done]. intros s. split; [done|]. by apply tick_inv. Qed.

(** ** The workers *)

(** What an operation does to the store of a key. *)
Definition op_spec {A} (m : string → M store_bench A) (b b' : bool) (post : A → Prop) : Prop :=
  ∀ i s, dict_wf (sb_store s) → dict_get (sb_store s) (bench_key i) = content b →
    ∃ a s', m (bench_key i) s = (Ok a, s') ∧ post a ∧ sb_progress s' = sb_progress s ∧
      dict_wf (sb_store s') ∧
      ∀ k, dict_get (sb_store s') k =
        if decide (bench_key i = k) then content b' else dict_get (sb_store s) k.

Lemma wp_op {A : Type} (d0 : basic_store) (h : gset cell) (i : Z) (b b' : bool)
    (m : string → M store_bench A) (Q : gset cell → result A → Prop) (post : A → Prop) :
  op_spec m b b' post → (0 ≤ i < ops)%Z → (∀ b2, (bench_key i, b2) ∉ h) →
  (∀ a, post a → Q ({[(bench_key i, b')]} ∪ h) (Ok a)) →
  bwp d0 ({[(bench_key i, b)]} ∪ h) (act (m (bench_key i))) Q.
Proof.
  intros Hm Hi Hno HQ.
  apply wp_cell with (b' := b') (post := λ r, ∃ a, r = Ok a ∧ post a); [done|done| |].
  - intros s Hwf Ho. destruct (Hm i s Hwf Ho) as (a & s' & Hrun & ? & ? & ? & ?).
    exists (Ok a), s'. split_and!; eauto.
  - intros r (a & -> & Ha). by apply HQ.
Qed.

Lemma bench_set_spec b : op_spec bench_set b true (λ _, True).
Proof.
  intros i s Hwf _. eexists true, _. split; [done|]. split_and!; [done|done|by apply dict_set_wf|].
  intros k. simpl. rewrite !dict_get_lookup, dict_set_lookup. case_decide as Hk.
  - subst k. by rewrite lookup_insert_eq.
  - by rewrite lookup_insert_ne.
Qed.

Lemma bench_get_spec b : op_spec bench_get b b (.= if b then value else VNone).
Proof.
  intros i s Hwf Ho. unfold bench_get, on_store, zoom. rewrite basic_get_run, Ho.
  eexists _, _. split; [reflexivity|].
  assert (BasicSpec.read (monotonic (clocks (sb_readings s))) (content b) =
    (if b then value else VNone, content b)) as -> by by destruct b.
  split_and!; [done|done|by apply dict_alter_wf|]. intros k. simpl. rewrite dict_alter_get by done.
  case_decide; [by subst; rewrite Ho; destruct b|done].
Qed.

Lemma bench_delete_spec b : op_spec bench_delete b false (λ _, True).
Proof.
  intros i s Hwf _. unfold bench_delete, on_store, basic_delete. unfold_M. eexists _, _.
  split; [reflexivity|]. split_and!; [done|done|by apply dict_remove_wf|].
  intros k. simpl. rewrite !dict_get_lookup, dict_remove_lookup by done. case_decide as Hk.
  - subst k. by rewrite lookup_delete_eq.
  - by rewrite lookup_delete_ne.
Qed.

(** An operation whose result is only looked at. *)
Lemma op_spec_then {A B} (m : string → M store_bench A) (f : A → B) b b' post post' :
  op_spec m b b' post → (∀ a, post a → post' (f a)) →
  op_spec (λ k, a ← m k; mret (f a)) b b' post'.
Proof.
  intros Hm Hf i s Hwf Ho. destruct (Hm i s Hwf Ho) as (a & s' & Hrun & Ha & ?).
  exists (f a), s'. split; [by step_M Hrun|]. auto.
Qed.

(** What a thread holds for some keys. *)
Definition cells (b : bool) (keys : list Z) : gset cell :=
  list_to_set ((λ i, (bench_key i, b)) <$> keys).

Lemma elem_of_cells (b : bool) (keys : list Z) k (b' : bool) : (k, b') ∈ cells b keys ↔ b' = b ∧ ∃ i, i ∈ keys ∧ k = bench_key i.
Proof.
  unfold cells. rewrite elem_of_list_to_set, list_elem_of_fmap. split.
  - intros (i & [= -> ->] & Hi). eauto.
  - intros (-> & i & Hi & ->). eauto.
Qed.

Lemma cells_cons (b : bool) (i : Z) (keys : list Z) : cells b (i :: keys) = {[(bench_key i, b)]} ∪ cells b keys.
Proof. done. Qed.

(** The keys still to come are apart from the next one and from what is done. *)
Lemma cells_apart (b : bool) (i : Z) (keys : list Z) (h : gset cell) :
  NoDup (i :: keys) → (∀ j b2, j ∈ i :: keys → (bench_key j, b2) ∉ h) →
  (∀ b2, (bench_key i, b2) ∉ cells b keys ∪ h) ∧
  ∀ b' j b2, j ∈ keys → (bench_key j, b2) ∉ {[(bench_key i, b')]} ∪ h.
Proof.
  intros [Hi _]%NoDup_cons Hno. split.
  - intros b2 [(_ & j & Hj & ->%bench_key_inj)%elem_of_cells|Hin]%elem_of_union; [done|].
    by apply (Hno i b2); [left|].
  - intros b' j b2 Hj [[->%bench_key_inj _]%elem_of_singleton%pair_eq|Hin]%elem_of_union; [done|].
    by apply (Hno j b2); [right|].
Qed.

(** A program that works through keys of its own: started with each of them as [b]
    says, it leaves them as [b'] says, with a result in [out]. *)
Definition works {A : Type} (body : list Z → prog store_bench A) (b b' : bool)
    (out : list Z → A → Prop) : Prop :=
  ∀ (d0 : basic_store) (keys : list Z) (h : gset cell), NoDup keys → (∀ i, i ∈ keys → 0 ≤ i < ops)%Z →
    (∀ i b2, i ∈ keys → (bench_key i, b2) ∉ h) →
    bwp d0 (cells b keys ∪ h) (body keys)
      (λ h' r, (∃ a, r = Ok a ∧ out keys a) ∧ cells b' keys ∪ h ⊆ h').

Lemma worker_loop_works (op : string → M store_bench bool) (b b' : bool) (lats : list Z) (errors : Z) :
  op_spec op b b' (.= false) →
  works (λ keys, worker_loop op keys lats errors) b b'
    (λ keys a, length a.1 = length lats + length keys ∧ a.2 = errors).
Proof.
  intros Hop d0 keys. revert lats. induction keys as [|i keys IH]; intros lats h Hnd Hb Hno.
  { split; [exists (lats, errors); split; [done|simpl; lia]|set_solver]. }
  destruct (cells_apart b i keys h Hnd Hno) as [Happ Hno']. apply NoDup_cons in Hnd as [Hi Hnd].
  assert (0 ≤ i < ops)%Z as Hi' by (apply Hb; left).
  cbn [worker_loop]. rewrite cells_cons, <- union_assoc_L.
  apply wp_bind, wp_now. intros t. apply wp_bind, wp_op with b' (.= false); [done..|]. intros ? ->.
  apply wp_bind, wp_now. intros t'. apply wp_bind, wp_tick; [lia|].
  replace ({[(bench_key i, b')]} ∪ (cells b keys ∪ h)) with (cells b keys ∪ ({[(bench_key i, b')]} ∪ h))
    by (apply set_eq; set_solver).
  eapply wp_mono; [apply IH; [done|intros j Hj; apply Hb; by right|intros j b2 Hj; by apply Hno']|].
  intros h' r [([lats' errs] & -> & Hlen & Herr) Hsub]. simpl in *. subst errs. split.
  - eexists. split; [done|]. rewrite length_app in Hlen. simpl in *. split; [lia|done].
  - rewrite cells_cons. set_solver.
Qed.

Lemma run_worker_works (w g d : list Z) :
  works (λ keys, run_worker_loop keys w g d) false false (λ keys a,
    length a.1.1 = length w + length keys ∧ length a.1.2 = length g + length keys ∧
    length a.2 = length d + length keys).
Proof.
  intros d0 keys. revert w g d. induction keys as [|i keys IH]; intros w g d h Hnd Hb Hno.
  { split; [exists (w, g, d); split; [done|simpl; lia]|set_solver]. }
  destruct (cells_apart false i keys h Hnd Hno) as [Happ Hno']. apply NoDup_cons in Hnd as [Hi Hnd].
  assert (0 ≤ i < ops)%Z as Hi' by (apply Hb; left).
  cbn [run_worker_loop]. rewrite cells_cons, <- union_assoc_L.
  apply wp_bind, wp_now. intros t. apply wp_bind. eapply wp_op; [apply bench_set_spec|done..|]. intros ? _.
  apply wp_bind, wp_now. intros t1. apply wp_bind, wp_now. intros t2.
  apply wp_bind. eapply wp_op; [apply bench_get_spec|done..|]. intros ? ->.
  apply wp_bind, wp_now. intros t3. apply wp_bind, wp_now. intros t4.
  apply wp_bind. eapply wp_op; [apply bench_delete_spec|done..|]. intros ? _.
  apply wp_bind, wp_now. intros t5.
  replace ({[(bench_key i, false)]} ∪ (cells false keys ∪ h)) with
    (cells false keys ∪ ({[(bench_key i, false)]} ∪ h)) by (apply set_eq; set_solver).
  eapply wp_mono; [apply IH; [done|intros j Hj; apply Hb; by right|intros j b2 Hj; by apply Hno']|].
  intros h' r [(out & -> & Hout) Hsub]. split; [|set_solver].
  exists out. split; [done|]. rewrite !length_app in Hout. simpl in *. lia.
Qed.

(** ** The threads together *)

(** The store where every key of the benchmark is as [b] says, and the others as in
    [d0]. *)
Record filled (b : bool) (d0 : basic_store) (d : basic_store) : Prop := {
  fl_wf : dict_wf d;
  fl_keys i : (0 ≤ i < ops)%Z → dict_get d (bench_key i) = content b;
  fl_rest k : (∀ i, (0 ≤ i < ops)%Z → k ≠ bench_key i) → dict_get d k = dict_get d0 k;
}.

Lemma threads_work {A : Type} (body : list Z → prog store_bench A) (b b' : bool)
    (out : list Z → A → Prop) (d0 : basic_store) (order : list nat) s :
  (0 < n_threads)%Z → works body b b' out → filled b d0 (sb_store s) →
  progress_inv ops (sb_progress s) →
  let st := interleave order (body <$> strides ops n_threads, s) in
  progress_inv ops (sb_progress st.2) ∧
  (∀ i r, st.1 !! i = Some (Ret r) →
    ∃ keys a, strides ops n_threads !! i = Some keys ∧ r = Ok a ∧ out keys a) ∧
  (Forall (λ p, finished p = true) st.1 → filled b' d0 (sb_store st.2)).
Proof.
  intros Hn Hbody [Hwf Hkeys Hrest] Hp st.
  set (Q := λ i (h' : gset cell) (r : result A), ∃ keys, strides ops n_threads !! i = Some keys ∧
    (∃ a, r = Ok a ∧ out keys a) ∧ cells b' keys ⊆ h').
  assert (∀ i keys j, strides ops n_threads !! i = Some keys → j ∈ keys → (0 ≤ j < ops)%Z) as Hin.
  { intros i keys j (? & ? & ->)%elem_of_strides Hj. rewrite elem_of_py_range in Hj by done. lia. }
  assert (∃ helds, safe_threads (bench_inv d0) anything Q helds st) as (helds & [Hlen Hsafe] & _ & Hinv).
  { apply interleave_safe with (cells b <$> strides ops n_threads); [apply _|]. split; [|split]; simpl.
    - split; [by rewrite !length_fmap|]. intros i held p. rewrite !list_lookup_fmap.
      destruct (strides ops n_threads !! i) as [keys|] eqn:Hi; [|done]. intros [= <-] [= <-].
      assert (NoDup keys) as Hnd.
      { apply elem_of_strides in Hi as (? & _ & ->). by apply NoDup_py_range. }
      rewrite <- (union_empty_r_L (cells b keys)).
      eapply wp_mono; [apply Hbody; [done|by eauto|set_solver]|].
      intros h' r [Hr Hsub]. exists keys. split_and!; [done|done|set_solver].
    - intros i j h1 h2 Hne. rewrite !list_lookup_fmap.
      intros (k1 & H1 & ->)%fmap_Some (k2 & H2 & ->)%fmap_Some.
      intros [k b2] (_ & x & Hx & ->)%elem_of_cells (_ & y & Hy & Heq%bench_key_inj)%elem_of_cells.
      subst y. apply Hne. by eapply strides_disjoint.
    - split; [done| |done|done]. intros k b2 (h & (keys & -> & Hk)%list_elem_of_fmap & Hkb)%elem_of_union_list.
      apply elem_of_cells in Hkb as (-> & i & Hi & ->). apply list_elem_of_lookup_1 in Hk as [j Hj].
      by eapply Hkeys, Hin. }
  destruct Hinv as [Hwf' Hheld Hrest' Hp']. split_and!; [done| |].
  - intros i r Hi. destruct (lookup_lt_is_Some_2 helds i) as [h Hh].
    { rewrite Hlen. by eapply lookup_lt_Some. }
    destruct (Hsafe i h _ Hh Hi) as (keys & ? & (a & ? & ?) & _). eauto 6.
  - intros Hfin. split; [done| |done]. intros i Hi.
    assert (i ∈ mjoin (strides ops n_threads)) as Hmem.
    { rewrite strides_permutation by done. apply elem_of_seqZ. lia. }
    apply list_elem_of_join in Hmem as (keys & Hik & [j Hj]%list_elem_of_lookup_1).
    assert (length st.1 = length (strides ops n_threads)) as Hlst.
    { unfold st. rewrite interleave_length. apply length_fmap. }
    destruct (lookup_lt_is_Some_2 st.1 j) as [p Hpj]; [rewrite Hlst; by eapply lookup_lt_Some|].
    destruct (lookup_lt_is_Some_2 helds j) as [h Hh]; [rewrite Hlen; by eapply lookup_lt_Some|].
    rewrite Forall_lookup in Hfin. specialize (Hfin j p Hpj). destruct p as [r|]; [|done].
    destruct (Hsafe j h _ Hh Hpj) as (keys' & Hkeys' & _ & Hsub). simplify_eq.
    apply Hheld. apply elem_of_union_list. exists h. split; [by eapply list_elem_of_lookup_2|].
    apply Hsub, elem_of_cells. eauto.
Qed.

Lemma stride_length keys i :
  strides ops n_threads !! i = Some keys → keys = py_range (Z.of_nat i) ops n_threads.
Proof. by intros (_ & _ & ->)%elem_of_strides. Qed.

Lemma strides_total :
  (0 < n_threads)%Z → length (mjoin (strides ops n_threads)) = Z.to_nat ops.
Proof. intros Hn. rewrite strides_permutation by done. apply length_seqZ. Qed.

(** The outcomes of threads that have all ended, one for each stride. *)
Lemma phase_outcomes (op : string → M store_bench bool) (b b' : bool) (d0 : basic_store)
    (order : list nat) s results :
  (0 < n_threads)%Z → op_spec op b b' (.= false) → filled b d0 (sb_store s) →
  progress_inv ops (sb_progress s) →
  let st := interleave order (stride_worker op <$> seqZ 0 n_threads, s) in
  mapM outcome_of st.1 = Some results →
  filled b' d0 (sb_store st.2) ∧
  ∃ pairs, results = Ok <$> pairs ∧ length pairs = Z.to_nat n_threads ∧
    foldr Z.add 0%Z pairs.*2 = 0%Z ∧ length (mjoin pairs.*1) = Z.to_nat ops.
Proof.
  intros Hn Hop Hfill Hp st Hres.
  destruct (threads_work (λ keys, worker_loop op keys [] 0) b b' _ d0 order s Hn
    (worker_loop_works op b b' [] 0 Hop) Hfill Hp) as (_ & Hout & Hfin).
  unfold strides in Hout, Hfin. rewrite <- list_fmap_compose in Hout, Hfin.
  change (interleave order (_, s)) with st in Hout, Hfin. fold (strides ops n_threads) in Hout.
  apply mapM_Some in Hres. split.
  { apply Hfin. apply Forall_lookup. intros i p Hi.
    destruct (Forall2_lookup_l _ _ _ _ _ Hres Hi) as (r & _ & Hr). by destruct p. }
  assert (Forall2 (λ keys r, ∃ a : list Z * Z, r = Ok a ∧ length a.1 = length keys ∧ a.2 = 0%Z)
    (strides ops n_threads) results) as Hall.
  { assert (length st.1 = length (strides ops n_threads)) as Hlen.
    { unfold st. rewrite interleave_length. unfold strides. simpl. by rewrite !length_fmap. }
    apply Forall2_same_length_lookup. apply Forall2_length in Hres as Hlen'.
    split; [congruence|]. intros i keys r Hk Hr.
    destruct (Forall2_lookup_r _ _ _ _ _ Hres Hr) as (p & Hpi & Hpr).
    destruct p as [r'|]; [|done]. injection Hpr as ->.
    destruct (Hout i r Hpi) as (keys' & a & Hk' & -> & Hlen1 & Herr). simplify_eq. eauto. }
  clear -Hn Hall. assert (length (strides ops n_threads) = Z.to_nat n_threads) as Hlen.
  { unfold strides. by rewrite length_fmap, length_seqZ. }
  rewrite <- (strides_total Hn). rewrite <- Hlen. clear Hn Hlen.
  induction Hall as [|keys r kss rs (a & -> & Ha & He) _ IH]; [by exists []|].
  destruct IH as (pairs & -> & Hl & Hs & Hj). exists (a :: pairs). csimpl.
  rewrite He, Hs, !length_app, Hj, Ha. split_and!; [done|lia|lia|lia].
Qed.

(** A phase whose threads have all ended. *)
Lemma phase_done (op : string → M store_bench bool) (b b' : bool) (d0 : basic_store)
    (order completed : list nat) s r s' :
  (0 < n_threads)%Z → (0 ≤ ops)%Z → op_spec op b b' (.= false) → filled b d0 (sb_store s) →
  completed ≡ₚ seq 0 (Z.to_nat n_threads) →
  run_phase (stride_worker op) order completed s = (Some r, s') →
  (∃ lats, r = Ok (lats, 0%Z) ∧ Z.of_nat (length lats) = ops) ∧ filled b' d0 (sb_store s').
Proof.
  intros Hn Hops Hop Hfill Hperm. unfold run_phase, sync_run_phase.
  rewrite bool_decide_eq_false_2 by lia.
  destruct (mapM outcome_of _) as [results|] eqn:Hres; [|done].
  eapply phase_outcomes in Hres as [Hfill' (pairs & -> & Hlen & Hsum & Htot)]; [|done..|].
  - destruct (collect_completed pairs completed) as (lats & Hcol & Hlats); [by rewrite Hlen|].
    cbn [mbind option_bind] in *. rewrite Hcol, Hsum. intros [= <- <-].
    split; [|exact Hfill']. exists lats. split; [done|]. rewrite Hlats, Htot. lia.
  - unfold progress_inv. simpl. by rewrite Z.min_l by lia.
Qed.

Lemma prepop_filled d0 s :
  filled true d0 (sb_store s) → ∃ s', _prepop s = (Ok tt, s') ∧ filled true d0 (sb_store s').
Proof.
  intros Hs. apply (for_each_returns_inv (λ s, filled true d0 (sb_store s))); [|done].
  clear s Hs. intros i s Hi%elem_of_seqZ [Hwf Hkeys Hrest].
  destruct (bench_set_spec true i s Hwf) as (r & s' & Hrun & _ & _ & Hwf' & Hget); [apply Hkeys; lia|].
  exists s'. split; [by step_M Hrun|].
  assert (∀ k, dict_get (sb_store s') k = dict_get (sb_store s) k) as Hsame.
  { intros k. rewrite Hget. case_decide as Hk; [|done]. subst k. symmetry. apply Hkeys. lia. }
  split; [done|intros j Hj; rewrite Hsame; auto|intros k Hk; rewrite Hsame; auto].
Qed.

Lemma filled_empty d : filled false [] d → d = [].
Proof.
  intros [Hwf Hkeys Hrest].
  assert (∀ k, dict_get d k = None) as Hnone.
  { intros k. destruct (decide (Exists (λ i, k = bench_key i) (seqZ 0 ops)))
      as [(i & Hi%elem_of_seqZ & ->)%Exists_exists|Hno].
    - apply (Hkeys i). lia.
    - apply Hrest. intros i Hi ->. apply Hno, Exists_exists. exists i. split; [|done]. apply elem_of_seqZ. lia. }
  destruct d as [|[k e] d]; [done|]. specialize (Hnone k). simpl in Hnone. by rewrite decide_True in Hnone.
Qed.

(** The threads of a phase can be brought to their ends. *)
Lemma phase_ends (op : string → M store_bench bool) s :
  (0 < n_threads)%Z → ∃ order r s',
    run_phase (stride_worker op) order (seq 0 (Z.to_nat n_threads)) s = (Some r, s').
Proof.
  intros Hn. unfold run_phase, sync_run_phase. rewrite bool_decide_eq_false_2 by lia.
  set (st0 := (stride_worker op <$> seqZ 0 n_threads,
    mkStoreBench (sb_store s) progress_start (sb_readings s))).
  destruct (interleave_finishes st0) as [order Hfin]. exists order.
  assert (∃ rs, mapM outcome_of (interleave order st0).1 = Some rs) as [rs Hrs].
  { apply mapM_is_Some. eapply Forall_impl; [exact Hfin|]. intros [r|] Hp; [by eexists|done]. }
  assert (length rs = Z.to_nat n_threads) as Hlen.
  { apply mapM_Some, Forall2_length in Hrs. rewrite <- Hrs, interleave_length. unfold st0. simpl.
    by rewrite length_fmap, length_seqZ. }
  assert (mapM (rs !!.) (seq 0 (Z.to_nat n_threads)) = Some rs) as Hseq.
  { apply mapM_Some, Forall2_same_length_lookup. split; [by rewrite length_seq|].
    intros i x y [-> _]%lookup_seq. done. }
  rewrite Hrs. simpl. rewrite Hseq. by eexists _, _.
Qed.

(** The multi-threaded benchmark does what it reports.  The threads of each phase
    can be brought to their ends; and however they are interleaved and in whatever
    order they complete, each of the three phases then reports one latency per
    operation and no error (the reads find every key), and the store is empty again
    after the last. *)
Theorem run_one_exact :
  (0 < n_threads)%Z → (0 ≤ ops)%Z → value ≠ VNone →
  let all := seq 0 (Z.to_nat n_threads) in
  (∃ o1 o2 o3 r1 r2 r3 s, run_one (o1, all) (o2, all) (o3, all) = ([Some r1; Some r2; Some r3], s)) ∧
  ∀ o1 o2 o3 c1 c2 c3 r1 r2 r3 s, c1 ≡ₚ all → c2 ≡ₚ all → c3 ≡ₚ all →
    run_one (o1, c1) (o2, c2) (o3, c3) = ([Some r1; Some r2; Some r3], s) →
    Forall (λ r, ∃ lats, r = Ok (lats, 0%Z) ∧ Z.of_nat (length lats) = ops) [r1; r2; r3] ∧
    sb_store s = [].
Proof.
  intros Hn Hops Hv all. split.
  { destruct (phase_ends set_op (mkStoreBench [] progress_start 0) Hn) as (o1 & r1 & s1 & H1).
    destruct (_prepop s1) as [o s2] eqn:H2.
    destruct (phase_ends get_op s2 Hn) as (o2 & r2 & s3 & H3).
    destruct (phase_ends delete_op s3 Hn) as (o3 & r3 & s4 & H4).
    exists o1, o2, o3, r1, r2, r3, s4. unfold run_one, _make_set_worker, _make_get_worker, _make_delete_worker.
    simpl fst. simpl snd. unfold all. by rewrite H1, H2, H3, H4. }
  intros o1 o2 o3 c1 c2 c3 r1 r2 r3 s Hp1 Hp2 Hp3. unfold run_one. simpl fst. simpl snd.
  destruct (run_phase _make_set_worker _ _ _) as [p1 s1] eqn:H1.
  destruct (_prepop s1) as [o s2] eqn:H2.
  destruct (run_phase _make_get_worker _ _ _) as [p2 s3] eqn:H3.
  destruct (run_phase _make_delete_worker _ _ _) as [p3 s4] eqn:H4. intros [= -> -> -> <-].
  eapply phase_done with (b := false) (b' := true) (d0 := []) in H1 as [Hr1 Hf1]; [|done|done| | |done].
  2: { eapply op_spec_then; [apply bench_set_spec|done]. }
  2: { split; simpl; [constructor|done|done]. }
  destruct (prepop_filled [] s1 Hf1) as (s2' & H2' & Hf2). rewrite H2' in H2. injection H2 as _ <-.
  eapply phase_done with (b := true) (b' := true) (d0 := []) in H3 as [Hr2 Hf3]; [|done|done| |done|done].
  2: { eapply op_spec_then; [apply bench_get_spec|]. intros ? ->. simpl. destruct value eqn:Hval; done || by destruct Hv. }
  eapply phase_done with (b := true) (b' := false) (d0 := []) in H4 as [Hr3 Hf4]; [|done|done| |done|done].
  2: { eapply op_spec_then; [apply bench_delete_spec|done]. }
  split; [by repeat constructor|by apply filled_empty].
Qed.

(** [bench.py]: every thread ends with one latency of each kind per key of its stride,
    and the store is as it was. *)
Theorem run_worker_exact order s :
  (0 < n_threads)%Z → sb_store s = [] → progress_inv ops (sb_progress s) →
  let st := interleave order (run_worker <$> seqZ 0 n_threads, s) in
  (∀ i r, st.1 !! i = Some (Ret r) → ∃ w g d, r = Ok (w, g, d) ∧
     let n := length (py_range (Z.of_nat i) ops n_threads) in
     length w = n ∧ length g = n ∧ length d = n) ∧
  (Forall (λ p, finished p = true) st.1 → sb_store st.2 = []).
Proof.
  intros Hn Hs Hp st.
  destruct (threads_work _ false false _ [] order s Hn (run_worker_works [] [] [])) as (_ & Hout & Hfin).
  { rewrite Hs. split; [constructor|done|done]. }
  { done. }
  unfold strides in Hout, Hfin. rewrite <- list_fmap_compose in Hout, Hfin.
  change (interleave order (_, s)) with st in Hout, Hfin. fold (strides ops n_threads) in Hout. split.
  - intros i r Hi. destruct (Hout i r Hi) as (keys & [[w g] d] & Hk & -> & Hlen).
    apply stride_length in Hk as ->. by exists w, g, d.
  - intros Hall. by apply filled_empty, Hfin.
Qed.
End benches.

Lemma run_one_exact_witness :
  let all := seq 0 (Z.to_nat 2) in
  let one := run_one Z.of_nat (λ _, sample_clock) (VBytes "xx") 3 2 in
  (∃ o1 o2 o3 r1 r2 r3 s, one (o1, all) (o2, all) (o3, all) = ([Some r1; Some r2; Some r3], s)) ∧
  ∀ o1 o2 o3 c1 c2 c3 r1 r2 r3 s, c1 ≡ₚ all → c2 ≡ₚ all → c3 ≡ₚ all →
    one (o1, c1) (o2, c2) (o3, c3) = ([Some r1; Some r2; Some r3], s) →
    Forall (λ r, ∃ lats, r = Ok (lats, 0%Z) ∧ Z.of_nat (length lats) = 3%Z) [r1; r2; r3] ∧
    sb_store s = [].
Proof. apply (run_one_exact Z.of_nat (λ _, sample_clock) (VBytes "xx") 3 2); lia || done. Defined.

(** The second thread of the first phase overtakes the first. *)
Example run_one_runs :
  let sched := (replicate 20 1 ++ replicate 20 0, [1; 0]) in
  (run_one Z.of_nat (λ _, sample_clock) (VBytes "xx") 3 2 sched sched sched).1 =
    replicate 3 (Some (Ok ([1; 1; 1]%Z, 0%Z))).
Proof. vm_compute. reflexivity. Qed.
