(* ===== verification/StoreReport.v ===== *)
(** * The programs of the store benchmarks ([benchmarks/store])

    [main] of [bench.py], and [run_one], [run_sweep] and [main] of [multi_thread_bench.py],
    with what they print.  The threads and the store are those of [StoreBench]; elapsed
    times are arguments. *)
From Stdlib Require Import SpecFloat.
From S2P Require Import Prelude Threads PyBase PyDict Types Store LwwStore BasicStore Workload Report StoreBench.

(** ** [bench.py] *)

(** What a thread has appended to its lists when it has ended: nothing if it has raised. *)
Definition thread_lists (p : prog store_bench (list Z * list Z * list Z)) : option (list Z * list Z * list Z) :=
  match p with
  | Ret (Ok ls) => Some ls
  | Ret (Raise _) => Some ([], [], [])
  | Act _ _ => None
  end.

(** The lines printed at the end, for the lists of the threads. *)
Definition bench_lines (elapsed : Float.t) (ls : list (list Z * list Z * list Z)) : result (list string) :=
  let all_write := mjoin ls.*1.*1 in
  let all_get := mjoin ls.*1.*2 in
  let all_del := mjoin ls.*2 in
  sets ← print_results "SET   " all_write elapsed 0;
  gets ← print_results "GET   " all_get elapsed 0;
  deletes ← print_results "DELETE" all_del elapsed 0;
  let total_ops := Z.of_nat (length all_write + length all_get + length all_del) in
  rate ← Num.float_div (Float.of_Z total_ops) elapsed;
  Ok (sets ++ gets ++ deletes ++
      [newline +:+ "  combined throughput : " +:+ Fmt.fixed_commas 0 rate +:+ " ops/s  (" +:+
       Fmt.commas total_ops +:+ " ops in " +:+ Fmt.fixed 4 elapsed +:+ "s)"]).

Section programs.
Context (perf_counter_ns : nat → Z) (clocks : nat → clock) (ops value_size : Z).

(** [b"x" * value_size]. *)
Definition store_value : pyval := VBytes (Fmt.repeat_str "x" (Z.to_nat value_size)).

(** [main], once all its threads have been joined. *)
Definition store_bench_main (n_threads : Z) (order : list nat) (elapsed : Float.t) : option (result (list string)) :=
  let '(threads, _) := interleave order
    (run_worker perf_counter_ns clocks store_value ops n_threads <$> seqZ 0 n_threads,
     mkStoreBench basic_init progress_start 0) in
  ls ← mapM thread_lists threads;
  Some (
    report ← bench_lines elapsed ls;
    Ok ([newline +:+ "LocalStore micro-benchmark";
         "  ops     : " +:+ Fmt.commas ops;
         "  threads : " +:+ Int.to_str n_threads;
         "  value   : " +:+ Int.to_str value_size +:+ " bytes" +:+ newline] ++ report)).

(** ** [multi_thread_bench.py] *)

(** What a phase prints when it is over, and its throughput. *)
Definition phase_report (name : string) (elapsed : Float.t) (r : result (list Z * Z)) : result (list string * Float.t) :=
  r ← r;
  lines ← print_results name r.1 elapsed r.2;
  rate ← (if Float.ltb (Float.of_Z 0) elapsed
          then Num.float_div (Float.of_Z (Z.of_nat (length r.1))) elapsed else Ok (Float.of_Z 0));
  Ok (["  " +:+ name +:+ "  " +:+ Fmt.right 9 (Fmt.commas ops) +:+ " / " +:+ Fmt.commas ops] ++ lines, rate).

(** [run_one] with its lines, for the schedules and the times of the phases: none while a
    thread of a phase is at work, an exception where a phase raises. *)
Record phase_run := mkPhaseRun { pr_sched : list nat * list nat; pr_elapsed : Float.t }.

Fixpoint phase_reports (phases : list (string * Float.t)) (rs : list (option (result (list Z * Z)))) :
    option (result (list string * list Float.t)) :=
  match phases, rs with
  | (name, elapsed) :: phases, r :: rs =>
      r ← r;
      match phase_report name elapsed r with
      | Raise e => Some (Raise e)
      | Ok (lines, rate) =>
          rest ← phase_reports phases rs;
          Some (rest ← rest; Ok (lines ++ rest.1, rate :: rest.2))
      end
  | _, _ => Some (Ok ([], []))
  end.

Definition run_one_report (n_threads : Z) (set_run get_run del_run : phase_run) :
    option (result (list string * list Float.t)) :=
  phase_reports
    [("SET   ", pr_elapsed set_run); ("GET   ", pr_elapsed get_run); ("DELETE", pr_elapsed del_run)]
    (run_one perf_counter_ns clocks store_value ops n_threads (pr_sched set_run) (pr_sched get_run) (pr_sched del_run)).1.

(** [while t <= max_threads: thread_counts.append(t); t *= 2]. *)
Fixpoint doublings (fuel : nat) (t max_threads : Z) : list Z :=
  match fuel with
  | O => []
  | S fuel => if bool_decide (t <= max_threads)%Z then t :: doublings fuel (t * 2) max_threads else []
  end.

(** The thread counts of a sweep, whose last is looked at; the loop doubles [t] in each
    round, so that it has fewer rounds than [max_threads] and one more. *)
Definition sweep_counts (max_threads : Z) : result (list Z) :=
  let counts := doublings (S (Z.to_nat max_threads)) 1 max_threads in
  match last counts with
  | None => Raise IndexError
  | Some l => Ok (if bool_decide (l ≠ max_threads) then counts ++ [max_threads] else counts)
  end.

Definition sweep_header : string :=
  Fmt.right 8 "threads" +:+ "  " +:+ Fmt.right 14 "SET ops/s" +:+ "  " +:+
  Fmt.right 14 "GET ops/s" +:+ "  " +:+ Fmt.right 14 "DELETE ops/s".

Definition sweep_row (n : Z) (rates : list Float.t) : string :=
  let cell i := Fmt.right 14 (Fmt.fixed_commas 0 (default (Float.of_Z 0) (rates !! i))) in
  Fmt.right 8 (Int.to_str n) +:+ "  " +:+ cell 0 +:+ "  " +:+ cell 1 +:+ "  " +:+ cell 2.

Definition double_rule : string := Fmt.repeat_str "═" 60.

(** The runs of a sweep: their lines and the rows of the summary. *)
Fixpoint sweep_runs (runs : Z → phase_run * phase_run * phase_run) (counts : list Z) :
    option (result (list string * list string)) :=
  match counts with
  | [] => Some (Ok ([], []))
  | n :: counts =>
      let '(s, g, d) := runs n in
      one ← run_one_report n s g d;
      match one with
      | Raise e => Some (Raise e)
      | Ok (lines, rates) =>
          rest ← sweep_runs runs counts;
          Some (rest ← rest;
                Ok ([newline +:+ double_rule; "  threads = " +:+ Int.to_str n; double_rule] ++ lines ++ rest.1,
                    sweep_row n rates :: rest.2))
      end
  end.

Definition run_sweep (runs : Z → phase_run * phase_run * phase_run) (max_threads : Z) : option (result (list string)) :=
  match sweep_counts max_threads with
  | Raise e => Some (Raise e)
  | Ok counts =>
      out ← sweep_runs runs counts;
      Some (out ← out;
            Ok (out.1 ++
                [newline +:+ newline +:+ double_rule; "  Scaling summary"; double_rule;
                 "  ops / thread-count : " +:+ Fmt.commas ops;
                 "  value size         : " +:+ Int.to_str value_size +:+ " bytes" +:+ newline;
                 "  " +:+ sweep_header; "  " +:+ Fmt.repeat_str "─" (Fmt.width sweep_header)] ++
                (String.append "  " <$> out.2) ++ [""]))
  end.

(** [main], the arguments being parsed. *)
Definition multi_thread_main (threads : Z) (sweep : bool) (runs : Z → phase_run * phase_run * phase_run) :
    option (result (list string)) :=
  let head :=
    [newline +:+ "LocalStore multi-threaded benchmark"; "  ops        : " +:+ Fmt.commas ops;
     "  threads    : " +:+ Int.to_str threads; "  value size : " +:+ Int.to_str value_size +:+ " bytes";
     "  sweep      : " +:+ (if sweep then "True" else "False")] in
  body ← (if sweep then run_sweep runs threads else
          let '(s, g, d) := runs threads in
          one ← run_one_report threads s g d; Some (one ← one; Ok one.1));
  Some (body ← body; Ok (head ++ body)).
End programs.

(** ** The thread counts of a sweep *)

Lemma doublings_spec fuel t m :
  (0 < t)%Z → (m < t * 2 ^ Z.of_nat fuel)%Z →
  ∃ k : nat, doublings fuel t m = (λ i, t * 2 ^ i)%Z <$> seqZ 0 (Z.of_nat k) ∧
    (m < t * 2 ^ Z.of_nat k)%Z ∧ (k ≠ O → t * 2 ^ (Z.of_nat k - 1) ≤ m)%Z.
Proof.
  revert t. induction fuel as [|fuel IH]; intros t Ht Hm; cbn [doublings].
  { exists 0. simpl in *. split; [done|]. split; [lia|done]. }
  case_bool_decide as Hle; [|exists 0; simpl; split; [done|]; split; [lia|done]].
  destruct (IH (t * 2)%Z) as (k & Hk & Hlt & Hge); [lia| |].
  { rewrite Nat2Z.inj_succ, Z.pow_succ_r in Hm by lia. lia. }
  exists (S k). rewrite Nat2Z.inj_succ, Z.pow_succ_r by lia. split_and!; [|lia|].
  - assert (seqZ 0 (Z.succ (Z.of_nat k)) = 0%Z :: (Z.add 1 <$> seqZ 0 (Z.of_nat k))) as ->.
    { rewrite seqZ_cons by lia. rewrite fmap_add_seqZ. repeat f_equal; lia. }
    rewrite Hk. csimpl. rewrite Z.pow_0_r, Z.mul_1_r. f_equal. rewrite <- list_fmap_compose.
    apply list_fmap_ext. intros ? i Hi. apply list_elem_of_lookup_2, elem_of_seqZ in Hi. simpl.
    rewrite Z.pow_add_r by lia. lia.
  - intros _. replace (Z.succ (Z.of_nat k) - 1)%Z with (Z.of_nat k) by lia.
    destruct k as [|k]; [simpl; lia|]. specialize (Hge ltac:(lia)).
    replace (Z.of_nat (S k)) with (Z.succ (Z.of_nat (S k) - 1)) by lia. rewrite Z.pow_succ_r by lia. lia.
Qed.

(** A sweep runs at every power of two up to the given number of threads and at that number
    itself, in increasing order and each once; there is no such number below one, where the
    look at the last of no counts raises. *)
Theorem sweep_counts_spec m :
  match sweep_counts m with
  | Ok counts => (1 ≤ m)%Z ∧ StronglySorted Z.lt counts ∧ last counts = Some m ∧
      ∀ n, n ∈ counts ↔ n = m ∨ (n ≤ m)%Z ∧ ∃ i, (0 ≤ i)%Z ∧ n = (2 ^ i)%Z
  | Raise e => e = IndexError ∧ (m < 1)%Z
  end.
Proof.
  unfold sweep_counts. destruct (doublings_spec (S (Z.to_nat m)) 1 m) as (k & -> & Hlt & Hge); [lia| |].
  { rewrite Z.mul_1_l. pose proof (Z.pow_gt_lin_r 2 (Z.of_nat (S (Z.to_nat m)))). lia. }
  rewrite Z.mul_1_l in Hlt. set (pow := λ i, (1 * 2 ^ i)%Z).
  destruct k as [|k]; [simpl in *; split; [done|lia]|]. specialize (Hge ltac:(done)).
  replace (Z.of_nat (S k) - 1)%Z with (Z.of_nat k) in Hge by lia.
  assert (∀ i, (0 ≤ i)%Z → (0 < pow i)%Z) as Hpos by (intros i Hi; unfold pow; pose proof (Z.pow_pos_nonneg 2 i); lia).
  assert (∀ i j, (0 ≤ i < j)%Z → (pow i < pow j)%Z) as Hmono.
  { intros i j Hij. unfold pow. rewrite !Z.mul_1_l. apply Z.pow_lt_mono_r; lia. }
  assert (StronglySorted Z.lt (pow <$> seqZ 0 (Z.of_nat (S k)))) as Hsorted.
  { clear -Hmono. induction (S k) as [|j IH]; [constructor|]. rewrite seqZ_S, fmap_app.
    apply StronglySorted_app. split_and!; [|done|repeat constructor].
    intros x y (i & -> & Hi%elem_of_seqZ)%list_elem_of_fmap Hy. apply list_elem_of_singleton in Hy as ->. apply Hmono. lia. }
  assert (∀ n, n ∈ pow <$> seqZ 0 (Z.of_nat (S k)) ↔ (n ≤ m)%Z ∧ ∃ i, (0 ≤ i)%Z ∧ n = (2 ^ i)%Z) as Hin.
  { intros n. rewrite list_elem_of_fmap. split.
    - intros (i & -> & Hi%elem_of_seqZ). split; [|exists i; unfold pow; lia]. destruct (decide (i = Z.of_nat k)) as [->|Hne]; [done|].
      specialize (Hmono i (Z.of_nat k) ltac:(lia)). unfold pow in *. lia.
    - intros (Hn & i & Hi & ->). exists i. split; [unfold pow; lia|]. apply elem_of_seqZ. split; [lia|].
      destruct (decide (i < 0 + Z.of_nat (S k))%Z); [done|].
      pose proof (Z.pow_le_mono_r 2 (Z.of_nat (S k)) i). lia. }
  assert (last (pow <$> seqZ 0 (Z.of_nat (S k))) = Some (pow (Z.of_nat k))) as Hlast
    by (rewrite seqZ_S, fmap_app; csimpl; by rewrite last_snoc).
  rewrite Hlast. assert (1 ≤ m)%Z by (specialize (Hpos (Z.of_nat k)); unfold pow in *; lia).
  case_bool_decide as Hne; (split; [done|]).
  - split_and!; [|apply last_snoc|].
    + apply StronglySorted_app. split_and!; [|done|repeat constructor].
      intros x y (i & -> & Hi%elem_of_seqZ)%list_elem_of_fmap Hy. apply list_elem_of_singleton in Hy as ->.
      destruct (decide (i = Z.of_nat k)) as [->|Hi']; [unfold pow in *; lia|].
      specialize (Hmono i (Z.of_nat k) ltac:(lia)). unfold pow in *. lia.
    + intros n. rewrite elem_of_app, Hin, list_elem_of_singleton. naive_solver.
  - split_and!; [done|by rewrite Hlast, Hne|].
    intros n. rewrite Hin. split; [by right|]. intros [->|Hn]; [|done]. split; [lia|]. exists (Z.of_nat k). unfold pow in Hne. lia.
Qed.
