(* ===== verification/TcpBench.v ===== *)
(** * The TCP benchmark ([benchmarks/tcp/server.py], [client.py])

    A bare echo of blocks of 1024 bytes, the floor against which a round trip of the nodes
    is measured.  Both sides receive into a buffer that is allocated once; how the
    network cuts the stream is arbitrary. *)
From S2P Require Import Prelude PyBase Bytes Types Wire Report.

(** ** Receiving into a buffer *)

(** The socket and the buffer. *)
Record buffered := mkBuffered { bu_sock : sock; bu_buf : list byte }.

Definition on_conn {A} : M sock A → M buffered A := zoom bu_sock (λ k s, mkBuffered k (bu_buf s)).

(** [view[at:at + len(data)] = data]. *)
Definition splice (at_ : nat) (data buf : list byte) : list byte :=
  take at_ buf ++ data ++ drop (at_ + length data) buf.

(** [sock.recv_into(view[recvd:])]: the number of bytes received. *)
Definition recv_into (recvd : nat) : M buffered nat :=
  s ← get_state;
  data ← on_conn (recv (length (bu_buf s) - recvd));
  modify (λ s, mkBuffered (bu_sock s) (splice recvd data (bu_buf s))) ;;
  mret (length data).

(** [while recvd < size: ...], raising [broken] when the peer has closed.  Every round
    receives a byte at least, so [size] rounds do. *)
Fixpoint fill_loop (broken : exn) (size fuel recvd : nat) : M buffered unit :=
  if bool_decide (recvd < size) then
    match fuel with
    | O => raise AssertionError
    | S fuel =>
        n ← recv_into recvd;
        if bool_decide (n = 0) then raise broken else fill_loop broken size fuel (recvd + n)
    end
  else mret tt.

Definition fill_buffer (broken : exn) (size : nat) : M buffered unit := fill_loop broken size size 0.

(** ** The server *)
Definition BUF_SIZE : nat := 1024.

(** One block.  [ConnectionResetError] is an [OSError]. *)
Definition echo_block : M buffered unit :=
  fill_buffer OSError BUF_SIZE ;;
  s ← get_state;
  on_conn (sendall (bu_buf s)).

(** [while True: ...], which only an exception ends: [None] when the fuel does first. *)
Fixpoint echo_blocks (fuel : nat) : M buffered (option exn) :=
  match fuel with
  | O => mret None
  | S fuel => λ s,
      match echo_block s with
      | (Ok _, s') => echo_blocks fuel s'
      | (Raise e, s') => (Ok (Some e), s')
      end
  end.

(** [OSError] and what derives from it, [ConnectionResetError] and [BrokenPipeError] among them. *)
Definition is_os_error (e : exn) : bool :=
  bool_decide (e ∈ [OSError; TimeoutError; BlockingIOError; InterruptedError; GaiError]).

(** One accepted connection; the buffer is that of the connections before.  [true] when the client has gone. *)
Definition serve_connection (fuel : nat) : M buffered bool :=
  ended ← echo_blocks fuel;
  match ended with
  | None => mret false
  | Some e => if is_os_error e then mret true else raise e
  end.

(** The accepted connections one after the other, as they are when they are over. *)
Fixpoint tcp_server (fuel : nat) (conns : list sock) (buf : list byte) : result (list (bool * sock)) * list byte :=
  match conns with
  | [] => (mret [], buf)
  | k :: conns =>
      match serve_connection fuel (mkBuffered k buf) with
      | (Ok gone, s) =>
          let '(rest, buf') := tcp_server fuel conns (bu_buf s) in (rest ≫= λ l, mret ((gone, bu_sock s) :: l), buf')
      | (Raise e, s) => (Raise e, bu_buf s)
      end
  end.

(** ** The client *)
Definition PAYLOAD_SIZE : nat := 1024.
Definition payload : list byte := replicate PAYLOAD_SIZE x61.

Section client.
Context (perf_counter : nat → Float.t).

(** One round trip. *)
Definition round_trip_block : M buffered unit :=
  on_conn (sendall payload) ;;
  fill_buffer RuntimeError PAYLOAD_SIZE.

(** [while time.perf_counter() < end_time: ...]; [k] counts the readings.  [None] when the fuel ends first. *)
Fixpoint timed_rounds (fuel k : nat) (end_time : Float.t) (ops : nat) : M buffered (option nat) :=
  if Float.ltb (perf_counter k) end_time then
    match fuel with
    | O => mret None
    | S fuel => round_trip_block ;; timed_rounds fuel (S k) end_time (S ops)
    end
  else mret (Some ops).

(** [run_once] on a connection that has been opened, from the reading [k] on. *)
Definition run_once (fuel k : nat) (duration : Float.t) (conn : sock) : result (option nat) * sock :=
  let end_time := Float.add (perf_counter k) duration in
  let '(r, s) := timed_rounds fuel (S k) end_time 0 (mkBuffered conn (replicate PAYLOAD_SIZE x00)) in (r, bu_sock s).

(** [run_once] with the opening of its connection. *)
Definition connect_and_run (fuel k : nat) (duration : Float.t) (conn : result sock) : result (option nat) :=
  conn ← conn;
  (run_once fuel k duration conn).1.

(** [main] of the client, the arguments being parsed, as the lines it prints; [k1] and [k2] are
    the readings with which the warm-up and the measurement begin, [elapsed] what the latter
    took and [text] what an exception prints as.  A warm-up that fails is the end of it. *)
Definition client_main (text : exn → string) (fuel k1 k2 : nat) (warmup duration elapsed : Float.t)
    (conn1 conn2 : result sock) : result (option (list string)) :=
  match connect_and_run fuel k1 warmup conn1 with
  | Raise e => Ok (Some ["Warmup failed: " +:+ text e])
  | Ok None => Ok None
  | Ok (Some _) =>
      ops ← connect_and_run fuel k2 duration conn2;
      match ops with
      | None => Ok None
      | Some ops =>
          rate ← Num.float_div (Float.of_Z (Z.of_nat ops)) elapsed;
          Ok (Some ["Duration measured: " +:+ Fmt.fixed 6 elapsed +:+ " s";
                    "Total ops:         " +:+ Int.to_str (Z.of_nat ops);
                    "Ops/sec:           " +:+ Fmt.fixed 2 rate])
      end
  end.
End client.

(** ** Filling the buffer *)

Lemma length_splice at_ data buf :
  at_ + length data ≤ length buf → length (splice at_ data buf) = length buf.
Proof. intros Hle. unfold splice. rewrite !length_app, length_take, length_drop. lia. Qed.

Lemma take_splice at_ data buf :
  at_ ≤ length buf → take (at_ + length data) (splice at_ data buf) = take at_ buf ++ data.
Proof.
  intros Hle. unfold splice. rewrite (app_assoc (take at_ buf)). apply take_app_length'.
  rewrite length_app, length_take. lia.
Qed.

Lemma recv_into_run recvd k buf data k' :
  recv (length buf - recvd) k = (Ok data, k') →
  recv_into recvd (mkBuffered k buf) = (Ok (length data), mkBuffered k' (splice recvd data buf)).
Proof. intros Hr. unfold recv_into, on_conn. unfold_M. cbn [bu_sock bu_buf]. by rewrite Hr. Qed.

(** Where the reading loop of the wire protocol succeeds, the buffer takes what it reads. *)
Lemma fill_ok broken size fuel recvd k buf out k' :
  length buf = size → recvd ≤ size → recv_loop fuel (size - recvd) (take recvd buf) k = (Ok out, k') →
  fill_loop broken size fuel recvd (mkBuffered k buf) = (Ok tt, mkBuffered k' out).
Proof.
  revert recvd k buf. induction fuel as [|fuel IH]; intros recvd k buf Hlen Hle Hr; cbn [fill_loop]; case_bool_decide as Hlt.
  - destruct (size - recvd) eqn:Hn; [lia|done].
  - replace (size - recvd) with 0 in Hr by lia. injection Hr as <- <-. by rewrite take_ge by lia.
  - destruct (size - recvd) as [|need] eqn:Hn; [lia|]. cbn [recv_loop] in Hr. unfold mbind at 1, M_bind at 1 in Hr.
    destruct (recv (S need) k) as [[data|e] k1] eqn:Hrecv; [|done].
    assert (recv_into recvd (mkBuffered k buf) = (Ok (length data), mkBuffered k1 (splice recvd data buf))) as Hrun.
    { apply recv_into_run. by rewrite Hlen, Hn. }
    step_M Hrun. destruct data as [|b data]; [done|]. rewrite bool_decide_eq_false_2 by (simpl; lia).
    assert (length (b :: data) ≤ S need) as Hd.
    { revert Hrecv. unfold recv. destruct (s_in k) as [|[b0 bs|e] i]; [done| |done]. intros Heq.
      assert (b :: data = take (S need) (b0 :: bs)) as -> by congruence. rewrite length_take. lia. }
    apply IH; [rewrite length_splice; lia|lia|]. rewrite take_splice by lia. rewrite <- Hr. f_equal. lia.
  - destruct (size - recvd) eqn:Hn; [|lia]. injection Hr as <- <-. by rewrite take_ge by lia.
Qed.

Lemma fill_prefix broken size k buf bs rest :
  length buf = size → length bs = size → rx_bytes (s_in k) = Some (bs ++ rest) →
  ∃ i, fill_buffer broken size (mkBuffered k buf) = (Ok tt, mkBuffered (set_in i k) bs) ∧ rx_bytes i = Some rest.
Proof.
  intros Hlen Hbs Hrx. destruct (read_rx_prefix size [] _ _ _ Hrx Hbs) as (i & Hr & Hi).
  exists i. split; [|done]. apply fill_ok; [done|lia|]. rewrite Nat.sub_0_r, recv_loop_read by done. by rewrite take_0, Hr.
Qed.

(** The peer closes before the block is complete. *)
Lemma fill_short broken size fuel recvd k buf bs :
  length buf = size → rx_bytes (s_in k) = Some bs → recvd + length bs < size → length bs < fuel →
  ∃ buf', fill_loop broken size fuel recvd (mkBuffered k buf) = (Raise broken, mkBuffered (set_in [] k) buf') ∧
    length buf' = size.
Proof.
  revert recvd k buf bs. induction fuel as [|fuel IH]; intros recvd k buf bs Hlen Hrx Hlt Hf; [lia|].
  cbn [fill_loop]. rewrite bool_decide_eq_true_2 by lia. destruct k as [i o f]. simpl in Hrx.
  destruct (size - recvd) as [|room] eqn:Hn; [lia|].
  destruct i as [|[b bs1|e] i]; [| |done].
  - assert (recv_into recvd (mkBuffered (mkSock [] o f) buf) = (Ok 0, mkBuffered (mkSock [] o f) (splice recvd [] buf))) as Hrun.
    { apply (recv_into_run recvd _ buf []). by rewrite Hlen, Hn. }
    step_M Hrun. exists (splice recvd [] buf). split; [done|]. rewrite length_splice; simpl; lia.
  - simpl in Hrx. destruct (rx_bytes i) as [l|] eqn:Hi; [|done]. injection Hrx as <-. simpl in Hlt, Hf. rewrite length_app in Hlt, Hf.
    assert (recv_into recvd (mkBuffered (mkSock (Data b bs1 :: i) o f) buf) =
      (Ok (length (b :: bs1)), mkBuffered (mkSock i o f) (splice recvd (b :: bs1) buf))) as Hrun.
    { apply recv_into_run. rewrite Hlen, Hn. unfold recv. cbn [s_in]. by rewrite take_ge, drop_ge by (simpl; lia). }
    step_M Hrun. rewrite bool_decide_eq_false_2 by (simpl; lia).
    edestruct (IH (recvd + length (b :: bs1)) (mkSock i o f) (splice recvd (b :: bs1) buf) l) as (buf' & Hrun' & Hlen');
      [rewrite length_splice; simpl; lia|done|simpl; lia|lia|].
    by exists buf'.
Qed.

(** ** The server gives back whole blocks *)

(** Whatever the pieces in which a client's bytes arrive, and whatever the buffer holds from the
    connections before: the server sends back every whole block, in order, and nothing of a
    last incomplete one; when the client has closed the handling ends quietly. *)
Theorem echo_whole_blocks fuel k buf bs :
  length buf = BUF_SIZE → rx_bytes (s_in k) = Some bs → s_fault k = None → length bs < fuel * BUF_SIZE →
  ∃ n buf' k', serve_connection fuel (mkBuffered k buf) = (Ok true, mkBuffered k' buf') ∧ length buf' = BUF_SIZE ∧
    n * BUF_SIZE ≤ length bs < S n * BUF_SIZE ∧ s_out k' = s_out k ++ take (n * BUF_SIZE) bs ∧ s_in k' = [].
Proof.
  intros Hbuf Hbs Hf Hfuel.
  assert (∃ n buf' k', echo_blocks fuel (mkBuffered k buf) = (Ok (Some OSError), mkBuffered k' buf') ∧ length buf' = BUF_SIZE ∧
    n * BUF_SIZE ≤ length bs < S n * BUF_SIZE ∧ s_out k' = s_out k ++ take (n * BUF_SIZE) bs ∧ s_in k' = []) as H.
  { revert k buf bs Hbuf Hbs Hf Hfuel. induction fuel as [|fuel IH]; intros k buf bs Hbuf Hbs Hf Hfuel; [simpl in Hfuel; lia|].
    cbn [echo_blocks]. destruct (decide (length bs < BUF_SIZE)) as [Hshort|Hlong].
    - destruct (fill_short OSError BUF_SIZE BUF_SIZE 0 k buf bs) as (buf' & Hrun & Hlen); [done|done|lia|lia|].
      exists 0, buf', (set_in [] k). split_and!; [|done|lia|lia|by rewrite Nat.mul_0_l, take_0, app_nil_r|done].
      unfold echo_block, fill_buffer. by rewrite (M_bind_Raise _ _ _ _ _ Hrun).
    - destruct (fill_prefix OSError BUF_SIZE k buf (take BUF_SIZE bs) (drop BUF_SIZE bs)) as (i & Hrun & Hi);
        [done|rewrite length_take; lia|by rewrite take_drop|].
      set (k1 := set_out (s_out k ++ take BUF_SIZE bs) (set_in i k)).
      assert (echo_block (mkBuffered k buf) = (Ok tt, mkBuffered k1 (take BUF_SIZE bs))) as ->.
      { unfold echo_block. step_M Hrun. unfold on_conn, sendall. unfold_M. cbn [bu_sock bu_buf set_in s_fault]. by rewrite Hf. }
      destruct (IH k1 (take BUF_SIZE bs) (drop BUF_SIZE bs)) as (n & buf' & k' & Hrun' & Hlen & Hn & Ho & Hin);
        [rewrite length_take; lia|done|done|rewrite length_drop; lia|].
      exists (S n), buf', k'. rewrite length_drop in Hn. split_and!; [done|done|lia|lia| |done].
      rewrite Ho. unfold k1. simpl s_out. rewrite <- app_assoc. f_equal.
      rewrite <- (take_drop BUF_SIZE bs) at 3. rewrite take_app_ge by (rewrite length_take; lia).
      do 2 f_equal. rewrite length_take. lia. }
  destruct H as (n & buf' & k' & Hrun & Hrest). exists n, buf', k'. split; [|done].
  unfold serve_connection. by step_M Hrun.
Qed.

(** So for each of the connections that it accepts, one after the other. *)
Theorem server_serves_all fuel conns buf :
  length buf = BUF_SIZE →
  Forall (λ k, s_fault k = None ∧ ∃ bs, rx_bytes (s_in k) = Some bs ∧ length bs < fuel * BUF_SIZE) conns →
  ∃ ks buf', tcp_server fuel conns buf = (Ok ((true,.) <$> ks), buf') ∧
    Forall2 (λ k k', ∃ n bs, rx_bytes (s_in k) = Some bs ∧ n * BUF_SIZE ≤ length bs < S n * BUF_SIZE ∧
      s_out k' = s_out k ++ take (n * BUF_SIZE) bs) conns ks.
Proof.
  intros Hbuf Hall. revert buf Hbuf. induction Hall as [|k conns (Hf & bs & Hbs & Hfuel) Hall IH]; intros buf Hbuf.
  { by exists [], buf. }
  destruct (echo_whole_blocks fuel k buf bs Hbuf Hbs Hf Hfuel) as (n & buf1 & k' & Hrun & Hbuf1 & Hn & Ho & _).
  destruct (IH buf1 Hbuf1) as (ks & buf2 & Hrun2 & Hks). exists (k' :: ks), buf2.
  cbn [tcp_server]. rewrite Hrun. cbn [bu_buf bu_sock]. rewrite Hrun2. split; [done|].
  constructor; [by exists n, bs|done].
Qed.

(** ** The client counts its round trips *)

Lemma length_payload : length payload = PAYLOAD_SIZE.
Proof. apply length_replicate. Qed.

Section counting.
Context (perf_counter : nat → Float.t).

Lemma timed_rounds_run n fuel k end_time ops conn buf blocks rest :
  n ≤ fuel → (∀ j, j < n → Float.ltb (perf_counter (k + j)) end_time = true) → Float.ltb (perf_counter (k + n)) end_time = false →
  length buf = PAYLOAD_SIZE → s_fault conn = None → length blocks = n → Forall (λ b, length b = PAYLOAD_SIZE) blocks →
  rx_bytes (s_in conn) = Some (concat blocks ++ rest) →
  ∃ conn' buf', timed_rounds perf_counter fuel k end_time ops (mkBuffered conn buf) = (Ok (Some (ops + n)), mkBuffered conn' buf') ∧
    s_out conn' = s_out conn ++ concat (replicate n payload) ∧ rx_bytes (s_in conn') = Some rest.
Proof.
  revert fuel k ops conn buf blocks. induction n as [|n IH]; intros fuel k ops conn buf blocks Hf Hlt Hge Hbuf Hfault Hn Hall Hrx.
  - apply nil_length_inv in Hn as ->. rewrite Nat.add_0_r in Hge.
    assert (timed_rounds perf_counter fuel k end_time ops (mkBuffered conn buf) = (Ok (Some ops), mkBuffered conn buf)) as ->.
    { destruct fuel; simpl; by rewrite Hge. }
    exists conn, buf. rewrite Nat.add_0_r. simpl. by rewrite app_nil_r.
  - destruct fuel as [|fuel]; [lia|]. destruct blocks as [|b blocks]; [done|]. apply Forall_cons in Hall as [Hb Hall].
    cbn [timed_rounds]. pose proof (Hlt 0 ltac:(lia)) as H0. rewrite Nat.add_0_r in H0. rewrite H0.
    simpl in Hrx. rewrite <- app_assoc in Hrx.
    destruct (fill_prefix RuntimeError PAYLOAD_SIZE (set_out (s_out conn ++ payload) conn) buf b _ Hbuf Hb Hrx) as (i & Hrun & Hi).
    set (c1 := set_in i (set_out (s_out conn ++ payload) conn)).
    assert (round_trip_block (mkBuffered conn buf) = (Ok tt, mkBuffered c1 b)) as Hround.
    { unfold round_trip_block, on_conn, sendall. unfold mbind, M_bind, zoom. cbn [bu_sock bu_buf]. by rewrite Hfault. }
    destruct (IH fuel (S k) (S ops) c1 b blocks) as (conn' & buf' & Hrun' & Ho & Hin);
      [lia| | |done|done|simpl in Hn; lia|done|done|].
    { intros j Hj. replace (S k + j) with (k + S j) by lia. apply Hlt. lia. }
    { by replace (S k + n) with (k + S n) by lia. }
    exists conn', buf'. split_and!; [step_M Hround; rewrite Hrun'; do 3 f_equal; lia| |done].
    rewrite Ho. simpl. by rewrite <- app_assoc.
Qed.

(** The benchmark counts what it does.  Let the clock be before the deadline at the first [n]
    readings after it was set and not at the next.  A client on a connection to the echo server
    then makes [n] round trips and returns [n]: it sends [n] payloads, of which the server sends back
    each one, in whatever pieces they arrive on either side, and it waits for no more. *)
Theorem tcp_benchmark_counts n fuel server_fuel k duration client server buf rest :
  let end_time := Float.add (perf_counter k) duration in
  (∀ j, j < n → Float.ltb (perf_counter (S k + j)) end_time = true) → Float.ltb (perf_counter (S k + n)) end_time = false →
  n ≤ fuel → n < server_fuel → length buf = BUF_SIZE →
  s_fault client = None → s_out client = [] → s_fault server = None → s_out server = [] →
  rx_bytes (s_in server) = Some (concat (replicate n payload)) →
  let served := (serve_connection server_fuel (mkBuffered server buf)).2 in
  rx_bytes (s_in client) = Some (s_out (bu_sock served) ++ rest) →
  ∃ client', run_once perf_counter fuel k duration client = (Ok (Some n), client') ∧
    s_out client' = concat (replicate n payload) ∧ rx_bytes (s_in client') = Some rest.
Proof.
  intros end_time Hlt Hge Hf Hsf Hbuf Hcf Hco Hsft Hso Hsrv served Hcl.
  assert (length (concat (replicate n payload)) = n * BUF_SIZE) as Hlen.
  { clear. induction n as [|n IH]; [done|]. cbn [replicate concat]. rewrite length_app, IH, length_payload. unfold PAYLOAD_SIZE, BUF_SIZE. lia. }
  destruct (echo_whole_blocks server_fuel server buf _ Hbuf Hsrv Hsft) as (m & buf' & server' & Hrun & _ & Hm & Ho & _).
  { rewrite Hlen. unfold BUF_SIZE. lia. }
  assert (m = n) as -> by (rewrite Hlen in Hm; unfold BUF_SIZE in Hm; lia).
  unfold served in Hcl. rewrite Hrun in Hcl. cbn [snd bu_sock] in Hcl. rewrite Ho, Hso, take_ge in Hcl by (rewrite Hlen; lia).
  destruct (timed_rounds_run n fuel (S k) end_time 0 client (replicate PAYLOAD_SIZE x00) (replicate n payload) rest)
    as (client' & b & Hrun' & Hout & Hin); [done|done|done|apply length_replicate|done|apply length_replicate| |done|].
  { apply Forall_replicate, length_payload. }
  exists client'. unfold run_once. fold end_time. rewrite Hrun'. split; [done|]. by rewrite Hout, Hco.
Qed.
End counting.
