(* ===== verification/Profile.v ===== *)
(** * The profilers ([profilers/sync.py] and [profilers/async.py])

    The loops both scripts run a cluster through, and the medians they take of its
    layers.  What they print of them is left out, as is what [cProfile] observes. *)
From Stdlib Require Import SpecFloat Ascii.
From S2P Require Import Prelude Async Threads PyBase Bytes PyDict Types Store LwwStore BasicStore Ring Dispatcher Wire.
From S2P Require Import PoolOps Consistency Discovery Gossip GossipSpec Node NodeSpec Replicas Cluster ClusterSpec ClusterTtl Fleet Startup Process QuickStart Web Workload.

(** ** Medians *)
Section timing.
Context {W : Type} (perf_counter_ns : nat → Z).
Implicit Types (w : W).

Definition on_world {A} (m : M W A) : M (W * nat) A := zoom fst (λ w s, (w, s.2)) m.

(** The times of [reps] calls of [fn], each between two readings of the counter. *)
Fixpoint timings {A} (fn : M W A) (reps : nat) : M (W * nat) (list Z) :=
  match reps with
  | O => mret []
  | S reps =>
      t0 ← read_counter perf_counter_ns;
      on_world fn ;;
      t1 ← read_counter perf_counter_ns;
      times ← timings fn reps;
      mret ((t1 - t0)%Z :: times)
  end.

(** [times.sort()], then [times[len(times) // 2]]. *)
Definition middle (times : list Z) : result Z :=
  from_option Ok (Raise IndexError) (merge_sort Z.le times !! (length times / 2)).

(** The median of the times of [reps] calls, and what the function makes of it. *)
Definition timeit_with {A B} (num : Z → B) (fn : M W A) (reps : Z) : M (W * nat) B :=
  times ← timings fn (Z.to_nat reps);
  lift_result (t ← middle times; mret (num t)).

Definition _timeit_sync {A} (fn : M W A) (reps : Z) : M (W * nat) Z := timeit_with id fn reps.

(** The coroutine function is awaited in each round. *)
Definition _timeit_async {A} (coro_fn : M W A) (reps : Z) : M (W * nat) Z := timeit_with id coro_fn reps.

(** [profilers/sync.py] makes a float of the median. *)
Definition _timeit {A} (fn : M W A) (reps : Z) : M (W * nat) Float.t := timeit_with Float.of_Z fn reps.

(** *** What a median is *)

Lemma filter_none {A} (P : A → Prop) `{!∀ x, Decision (P x)} l : (∀ x, x ∈ l → ¬ P x) → filter P l = [].
Proof.
  intros Hn. destruct (filter P l) as [|x l'] eqn:Hf; [done|]. exfalso.
  assert (x ∈ filter P l) as Hx by (rewrite Hf; left). apply list_elem_of_filter in Hx as [HP Hx]. by eapply Hn.
Qed.

(** In a sorted list few are below, and few are above, the one in the middle. *)
Lemma sorted_middle l low m high :
  StronglySorted Z.le l → l = low ++ m :: high →
  length (filter (λ t, t < m)%Z l) ≤ length low ∧ length (filter (λ t, m < t)%Z l) ≤ length high.
Proof.
  intros Hs ->. apply StronglySorted_app in Hs as (Hcross & _ & Hhigh).
  apply StronglySorted_inv in Hhigh as [_ Hhigh]. rewrite Forall_forall in Hhigh. rewrite !filter_app. split.
  - rewrite (filter_none _ (m :: high)), app_nil_r; [apply length_filter|].
    intros x [->|Hx]%elem_of_cons; [lia|]. specialize (Hhigh x Hx). lia.
  - rewrite (filter_none _ low), filter_cons_False by (lia || (intros x Hx; specialize (Hcross x m Hx ltac:(left)); lia)).
    apply length_filter.
Qed.

Lemma middle_spec times :
  match middle times with
  | Ok m => m ∈ times ∧ 2 * length (filter (λ t, t < m)%Z times) ≤ length times ∧
      2 * length (filter (λ t, m < t)%Z times) ≤ length times
  | Raise e => times = [] ∧ e = IndexError
  end.
Proof.
  unfold middle. pose proof (merge_sort_Permutation Z.le times) as Hp.
  assert (StronglySorted Z.le (merge_sort Z.le times)) as Hs by apply (StronglySorted_merge_sort Z.le).
  rewrite <- (Permutation_length Hp). set (l := merge_sort Z.le times) in *.
  destruct (l !! (length l / 2)) as [m|] eqn:Hm; simpl.
  2: { apply lookup_ge_None_1 in Hm. destruct times as [|t ts]; [done|]. apply Permutation_length in Hp. simpl in Hp.
       pose proof (Nat.div_lt (length l) 2). lia. }
  split; [rewrite <- Hp; by eapply list_elem_of_lookup_2|].
  pose proof (lookup_lt_Some _ _ _ Hm) as Hi. pose proof (Nat.div_mod_eq (length l) 2) as Hd.
  pose proof (Nat.mod_upper_bound (length l) 2) as Hlt.
  destruct (sorted_middle l (take (length l / 2) l) m (drop (S (length l / 2)) l)) as [Hl Hh];
    [done|symmetry; by apply take_drop_middle|]. rewrite length_take in Hl. rewrite length_drop in Hh.
  rewrite <- !Hp. lia.
Qed.

(** The loop, for what each round does to the world. *)
Lemma timings_run {A} (fn : M W A) (Inv : nat → W → Prop) (n i : nat) w k :
  (∀ j w, i ≤ j < i + n → Inv j w → ∃ a w', fn w = (Ok a, w') ∧ Inv (S j) w') → Inv i w →
  ∃ w', timings fn n (w, k) =
      (Ok ((λ j, perf_counter_ns (k + 2 * j + 1) - perf_counter_ns (k + 2 * j))%Z <$> seq 0 n), (w', k + 2 * n)) ∧
    Inv (i + n) w'.
Proof.
  revert i w k. induction n as [|n IH]; intros i w k Hfn Hw.
  { exists w. rewrite !Nat.add_0_r. by split. }
  destruct (Hfn i w) as (a & w1 & Hrun & Hw1); [lia|done|].
  destruct (IH (S i) w1 (S (S k))) as (w2 & Hrun2 & Hw2); [intros j w'' Hj; apply Hfn; lia|done|].
  exists w2. split; [|by replace (i + S n) with (S i + n) by lia].
  cbn [timings]. unfold read_counter, on_world. unfold_M. simpl. rewrite Hrun. simpl. rewrite Hrun2.
  f_equal; [|f_equal; lia]. f_equal. rewrite <- fmap_S_seq, <- list_fmap_compose. f_equal.
  - f_equal; f_equal; lia.
  - apply list_fmap_ext. intros ? j _. simpl. f_equal; f_equal; lia.
Qed.

Definition durations (k n : nat) : list Z :=
  (λ j, perf_counter_ns (k + 2 * j + 1) - perf_counter_ns (k + 2 * j))%Z <$> seq 0 n.

Lemma timeit_run {A B} (num : Z → B) (fn : M W A) (Inv : nat → W → Prop) reps w k :
  let n := Z.to_nat reps in
  (∀ j w, j < n → Inv j w → ∃ a w', fn w = (Ok a, w') ∧ Inv (S j) w') → Inv 0 w → (0 < reps)%Z →
  ∃ m w', timeit_with num fn reps (w, k) = (Ok (num m), (w', k + 2 * n)) ∧
    middle (durations k n) = Ok m ∧ Inv n w'.
Proof.
  intros n Hfn Hw Hn. destruct (timings_run fn Inv n 0 w k) as (w' & Hrun & Hw'); [intros j w'' Hj; apply Hfn; lia|done|].
  fold (durations k n) in Hrun. pose proof (middle_spec (durations k n)) as Hm.
  unfold timeit_with. fold n. step_M Hrun. unfold lift_result.
  destruct (middle (durations k n)) as [m|e]; [by exists m, w'|].
  destruct Hm as [Hnil%(f_equal length) _]. unfold durations in Hnil. rewrite length_fmap, length_seq in Hnil. simpl in Hnil. lia.
Qed.

(** What the profilers report.  The function is called [reps] times and never again,
    and each call is timed by two readings of the counter that nothing else comes between;
    the result is one of the times, and at most half of them are shorter and at most half
    longer.  For [reps] of zero or less the call raises [IndexError], nothing having been
    called. *)
Theorem timeit_median {A} (fn : M W A) (Inv : nat → W → Prop) reps w k :
  (∀ j w, (Z.of_nat j < reps)%Z → Inv j w → ∃ a w', fn w = (Ok a, w') ∧ Inv (S j) w') → Inv 0 w →
  let n := Z.to_nat reps in
  if bool_decide (0 < reps)%Z then
    ∃ m w', _timeit_sync fn reps (w, k) = (Ok m, (w', k + 2 * n)) ∧
      _timeit fn reps (w, k) = (Ok (Float.of_Z m), (w', k + 2 * n)) ∧ Inv n w' ∧
      m ∈ durations k n ∧ 2 * length (filter (λ t, t < m)%Z (durations k n)) ≤ n ∧
      2 * length (filter (λ t, m < t)%Z (durations k n)) ≤ n
  else _timeit_sync fn reps (w, k) = (Raise IndexError, (w, k)) ∧ _timeit fn reps (w, k) = (Raise IndexError, (w, k)).
Proof.
  intros Hfn Hw n. case_bool_decide as Hreps.
  2: { unfold _timeit_sync, _timeit, timeit_with. by replace (Z.to_nat reps) with 0 by lia. }
  assert (∀ j w, j < n → Inv j w → ∃ a w', fn w = (Ok a, w') ∧ Inv (S j) w') as Hfn' by (intros j w'' Hj; apply Hfn; lia).
  destruct (timeit_run (λ m, (m, Float.of_Z m)) fn Inv reps w k Hfn' Hw Hreps) as (m & w' & Hrun & Hm & Hw').
  pose proof (middle_spec (durations k n)) as Hspec. fold n in Hm. rewrite Hm in Hspec.
  assert (length (durations k n) = n) as Hlen by (unfold durations; by rewrite length_fmap, length_seq).
  rewrite Hlen in Hspec. exists m, w'. revert Hrun. unfold _timeit_sync, _timeit, timeit_with, mbind, M_bind, lift_result.
  destruct (timings _ _ _) as [[ts|] s]; [|done]. destruct (middle ts); [|done]. unfold mret, result_ret. intros Heq. by simplify_eq/=.
Qed.
End timing.

(** ** The clusters the profilers start

    All nodes are in the process of the profiler, with the default ring and pool. *)

Definition ADDRS : list string := ["127.0.0.1:7401"; "127.0.0.1:7402"; "127.0.0.1:7403"].
Definition ADDRS_async : list string := ["127.0.0.1:7301"; "127.0.0.1:7302"; "127.0.0.1:7303"].

(** [b"x" * 64]. *)
Definition VALUE : pyval := VBytes (Nat.iter 64 (String "x"%char) EmptyString).

(** In [profilers/sync.py] a node discovers all addresses, its own among them. *)
Definition _make_nodes : result (list (NodeInfo * node_state ring script)) :=
  make_nodes node_new (λ _, peers ← static_init ADDRS; mret (StaticDiscovery peers)) "127.0.0.1" ADDRS.

Definition _make_nodes_async : result (list (NodeInfo * node_state ring script)) :=
  make_nodes node_new_async (all_but ADDRS_async) "127.0.0.1" ADDRS_async.

Section loops.
Context `{Resolver} (clk : nat → NodeInfo → clock).

(** [node.set(f"k{i}", VALUE); node.get(f"k{i}")], each call at clocks of its own. *)
Definition set_get (node : NodeInfo) (i : Z) : M process unit :=
  process_call default_replication (mkCall node None (clk (2 * Z.to_nat i)) (CSet (bench_key i) VALUE None)) ;;
  process_call default_replication (mkCall node None (clk (2 * Z.to_nat i + 1)) (CGet (bench_key i))) ;;
  mret tt.

Definition _bench_loop (node : NodeInfo) (ops : Z) : M process unit := for_each (seqZ 0 ops) (set_get node).

(** A new cluster, all its nodes started, each with its announcements in the order given
    if it is asyncio. *)
Definition set_up (make : result (list (NodeInfo * node_state ring script))) (order : option (list nat)) :
    M process (list NodeInfo) :=
  nodes ← lift_result make;
  add_nodes nodes ;;
  start_nodes (clk 0) ((λ n, (n, order)) <$> nodes.*1) ;;
  mret nodes.*1.

(** [for n in nodes: n.stop()]. *)
Definition tear_down (nodes : list NodeInfo) (order : option (list nat)) : M process unit :=
  stop_nodes (clk 0) ((λ n, (n, order)) <$> nodes).

Definition run_cprofile (ops : Z) : M process unit :=
  nodes ← set_up _make_nodes None;
  node ← lift_result (from_option Ok (Raise IndexError) (nodes !! 0));
  _bench_loop node ops ;;
  tear_down nodes None.
End loops.

(** *** The coroutines of [_bench_coro] *)

(** The counter they share, the indexes they took from it, and the world of the nodes. *)
Record coro (W : Type) := mkCoro { co_counter : Z; co_taken : list Z; co_world : W }.
Arguments mkCoro {W} _ _ _.
Arguments co_counter {W} _.
Arguments co_taken {W} _.
Arguments co_world {W} _.

Section coroutines.
Context {W : Type} (nodes : list NodeInfo) (ops : Z).
(** [set] and [get] of a node, between whose actions other coroutines may run. *)
Context (node_set_prog : NodeInfo → string → pyval → prog W bool) (node_get_prog : NodeInfo → string → prog W pyval).

(** From the test of the counter to the first [await]. *)
Definition co_take : M (coro W) (option Z) := λ s,
  let i := co_counter s in
  if bool_decide (i >= ops)%Z then (Ok None, s)
  else (Ok (Some i), mkCoro (i + 1)%Z (co_taken s ++ [i]) (co_world s)).

(** [nodes[i % len(nodes)]], for [i] from 0. *)
Definition node_of (i : Z) : result NodeInfo :=
  match nodes with
  | [] => Raise ZeroDivisionError
  | _ => from_option Ok (Raise IndexError) (nodes !! Z.to_nat (i mod Z.of_nat (length nodes)))
  end.

Definition co_op (i : Z) : prog W unit :=
  n ← Ret (node_of i);
  node_set_prog n (bench_key i) VALUE ;;
  node_get_prog n (bench_key i) ;;
  mret tt.

(** [worker]; [false] when the fuel ends before the operations do. *)
Fixpoint co_worker (fuel : nat) : prog (coro W) bool :=
  match fuel with
  | O => mret false
  | S fuel =>
      taken ← act co_take;
      match taken with
      | None => mret true
      | Some i =>
          prog_zoom co_world (λ w s, mkCoro (co_counter s) (co_taken s) w) (co_op i) ;;
          co_worker fuel
      end
  end.

(** [gather] over the workers, each of which needs no more rounds than there are
    operations, and one to see that there are none left. *)
Definition _bench_coro (concurrency : Z) (order : list nat) (w : W) : list (prog (coro W) bool) * coro W :=
  interleave order (replicate (Z.to_nat concurrency) (co_worker (S (Z.to_nat ops))), mkCoro 0 [] w).

End coroutines.

(** ** The layers *)

(** What [socket.recv] and [reader.read] have in common here. *)
Fixpoint echo_loop (bufsize fuel : nat) : M sock bool :=
  match fuel with
  | O => mret false
  | S fuel =>
      data ← recv bufsize;
      match data with
      | [] => mret true
      | _ => sendall data ;; echo_loop bufsize fuel
      end
  end.

(** [_handle] and [echo_server], whose rounds the fuel bounds; [true] when the client has
    closed. *)
Definition _handle : nat → M sock bool := echo_loop (Z.to_nat 65536).
Definition echo_server : nat → M sock bool := echo_loop (Z.to_nat 4096).

Section layers.
Context `{Resolver} `{Pickle} (perf_counter_ns : nat → Z) (clk : nat → NodeInfo → clock).

(** What the timed functions act on: the [LocalStore], the socket to the echo server, the
    cluster with the number of calls made so far, and the cells of the closures. *)
Record layers := mkLayers {
  l_store : basic_store;
  l_sock : sock;
  l_process : process;
  l_calls : nat;
  l_key_idx : Z;
  l_get_keys : list string;
  l_get_i : Z;
}.

Definition on_local {A} : M basic_store A → M layers A :=
  zoom l_store (λ d s, mkLayers d (l_sock s) (l_process s) (l_calls s) (l_key_idx s) (l_get_keys s) (l_get_i s)).
Definition on_sock {A} : M sock A → M layers A :=
  zoom l_sock (λ k s, mkLayers (l_store s) k (l_process s) (l_calls s) (l_key_idx s) (l_get_keys s) (l_get_i s)).
Definition on_process {A} : M process A → M layers A :=
  zoom l_process (λ p s, mkLayers (l_store s) (l_sock s) p (l_calls s) (l_key_idx s) (l_get_keys s) (l_get_i s)).

(** One call through a node, at the clocks of its moment. *)
Definition timed_call (node : NodeInfo) (order : option (list nat)) (op : client_op) : M layers reply := λ s,
  on_process (process_call default_replication (mkCall node order (clk (l_calls s)) op))
    (mkLayers (l_store s) (l_sock s) (l_process s) (S (l_calls s)) (l_key_idx s) (l_get_keys s) (l_get_i s)).

Definition full_set (node : NodeInfo) (order : option (list nat)) : M layers unit :=
  s ← get_state;
  let k := bench_key (l_key_idx s) in
  modify (λ s, mkLayers (l_store s) (l_sock s) (l_process s) (l_calls s) (l_key_idx s + 1) (l_get_keys s) (l_get_i s)) ;;
  timed_call node order (CSet k VALUE None) ;;
  mret tt.

Definition full_get (node : NodeInfo) (order : option (list nat)) : M layers unit :=
  s ← get_state;
  k ← lift_result
    match l_get_keys s with
    | [] => Raise ZeroDivisionError
    | keys => from_option Ok (Raise IndexError) (keys !! Z.to_nat (l_get_i s mod Z.of_nat (length keys)))
    end;
  modify (λ s, mkLayers (l_store s) (l_sock s) (l_process s) (l_calls s) (l_key_idx s) (l_get_keys s) (l_get_i s + 1)) ;;
  timed_call node order (CGet k) ;;
  mret tt.

(** [_get_keys[:] = [f"k{i}" for i in range(key_idx[0])]]. *)
Definition list_keys : M layers unit := modify (λ s,
  mkLayers (l_store s) (l_sock s) (l_process s) (l_calls s) (l_key_idx s) (bench_key <$> seqZ 0 (l_key_idx s)) (l_get_i s)).

(** [_warm_rtt] and [raw_rtt]. *)
Definition round_trip (bufsize : nat) (data : list byte) : M layers unit :=
  on_sock (sendall data ;; recv bufsize ;; mret tt).

(** [Message(MessageType.SET, {"key": "bench", "value": VALUE})]. *)
Definition bench_message : Message :=
  mkMessage SET (Some (mkPayload (Some "bench") (Some VALUE) None None None None None None None None)).

(** [ring.add(NodeInfo.from_address(a))] for each address. *)
Definition bench_ring (addrs : list string) : result ring :=
  ns ← static_init addrs;
  mret (foldl (λ r n, ring_add n r) ring_init ns).

(** [node._pool.execute(...)] four times for each peer of the node's ring. *)
Definition ping_peer (node peer : NodeInfo) : M (node_state ring world) unit :=
  if decide (peer = node) then mret tt
  else for_each (seq 0 4) (λ _, remote_execute peer (mkMessage PING (Some no_fields)) ;; mret tt).

Definition warm_node (node : NodeInfo) : M (node_state ring world) unit :=
  s ← get_state;
  for_each (r_nodes (g_ring (n_gossip s))) (ping_peer node).

Definition pre_warm (nodes : list NodeInfo) : M layers unit :=
  for_each nodes (λ node, on_process (at_process node (clk 0) (warm_node node))).

(** The medians, in the order in which they are taken. *)
Record medians (T : Type) := mkMedians {
  store_set_ns : T; store_get_ns : T; ring_ns : T; enc_ns : T; dec_ns : T;
  raw_rtt_ns : T; full_set_ns : T; full_get_ns : T;
}.
Arguments mkMedians {T} _ _ _ _ _ _ _ _.
Arguments ring_ns {T} _.
Arguments enc_ns {T} _.
Arguments dec_ns {T} _.
Arguments raw_rtt_ns {T} _.
Arguments full_set_ns {T} _.

(** The layers below the nodes, in both step timings: the store, the ring, [pickle] and a
    socket, for the addresses and the number of bytes to read from the echo server. *)
Definition time_layers {T} (num : Z → T) (addrs : list string) (bufsize : list byte → nat) (c : clock) (ops : Z) :
    M (layers * nat) (T * T * T * T * T * T) :=
  let timeit {A} : M layers A → Z → M (layers * nat) T := timeit_with perf_counter_ns num in
  let reps := Z.min ops 5000 in
  store_set ← timeit (on_local (basic_set c "bench" VALUE None)) reps;
  store_get ← timeit (on_local (basic_get c "bench")) reps;
  ring ← lift_result (bench_ring addrs);
  lookup ← timeit (mret (ring_get_node ring "bench-key")) reps;
  enc ← timeit (lift_result (dumps bench_message)) reps;
  enc_data ← lift_result (dumps bench_message);
  dec ← timeit (lift_result (loads enc_data)) reps;
  on_world (for_each (seq 0 10) (λ _, round_trip (bufsize enc_data) enc_data)) ;;
  rtt ← timeit (round_trip (bufsize enc_data) enc_data) (Z.min reps 500);
  mret (store_set, store_get, lookup, enc, dec, rtt).

(** The cluster, for its nodes, the order of an asyncio node's requests and what precedes
    the timed calls. *)
Definition time_cluster {T} (num : Z → T) (make : result (list (NodeInfo * node_state ring script)))
    (order : option (list nat)) (warm : list NodeInfo → M layers unit) (ops : Z) : M (layers * nat) (T * T) :=
  let timeit {A} : M layers A → Z → M (layers * nat) T := timeit_with perf_counter_ns num in
  let reps := Z.min ops 5000 in
  nodes ← on_world (on_process (set_up clk make order));
  on_world (warm nodes) ;;
  node ← lift_result (from_option Ok (Raise IndexError) (nodes !! 0));
  fset ← timeit (full_set node order) (Z.min reps 500);
  on_world list_keys ;;
  fget ← timeit (full_get node order) (Z.min reps 500);
  on_world (on_process (tear_down clk nodes order)) ;;
  mret (fset, fget).

Definition step_timing {T} (num : Z → T) (addrs : list string) (make : result (list (NodeInfo * node_state ring script)))
    (order : option (list nat)) (bufsize : list byte → nat) (warm : list NodeInfo → M layers unit) (c : clock) (ops : Z) :
    M (layers * nat) (medians T) :=
  below ← time_layers num addrs bufsize c ops;
  calls ← time_cluster num make order warm ops;
  let '(store_set, store_get, lookup, enc, dec, rtt) := below in
  mret (mkMedians store_set store_get lookup enc dec rtt calls.1 calls.2).

(** The last lines of [run_step_timing]: the protocol, and what is left of [node.set]
    ([max(0.0, x)] is [0.0] unless [x] is greater). *)
Definition overhead_floats (m : medians Float.t) : Float.t * Float.t :=
  let protocol := Float.add (Float.add (raw_rtt_ns m) (enc_ns m)) (dec_ns m) in
  let rest := SFsub 53 1024 (SFsub 53 1024 (full_set_ns m) protocol) (ring_ns m) in
  (protocol, if Float.ltb (Float.of_Z 0) rest then rest else Float.of_Z 0).

Definition overhead_ints (m : medians Z) : Z * Z :=
  let protocol := (raw_rtt_ns m + enc_ns m + dec_ns m)%Z in
  (protocol, Z.max 0 (full_set_ns m - protocol - ring_ns m)).

Definition run_step_timing (c : clock) (ops : Z) : M (layers * nat) (medians Float.t * (Float.t * Float.t)) :=
  m ← step_timing Float.of_Z ADDRS _make_nodes None (λ _, Z.to_nat 65536) pre_warm c ops;
  mret (m, overhead_floats m).

Definition _step_timing (order : list nat) (c : clock) (ops : Z) : M (layers * nat) (medians Z * (Z * Z)) :=
  m ← step_timing id ADDRS_async _make_nodes_async (Some order) length (λ _, mret tt) c ops;
  mret (m, overhead_ints m).

(** [main], the arguments being parsed. *)
Definition profile_main (c : clock) (ops : Z) (skip_cprofile : bool) :
    M (layers * nat) (medians Float.t * (Float.t * Float.t)) :=
  (if skip_cprofile then mret tt else on_world (on_process (run_cprofile clk ops))) ;;
  run_step_timing c ops.
End layers.

(** ** The loop fills the cluster *)
Section filling.
Context `{Resolver} (clk : nat → NodeInfo → clock) (ns : list NodeInfo) (keys : gset string) (node : NodeInfo).
Hypothesis node_there : node ∈ ns.
Hypothesis clocks_positive : ∀ i, (0 < time_ns (clk i node))%Z.

Definition filled_entry (i : Z) : entry := mkEntry (Val VALUE) None (time_ns (clk (2 * Z.to_nat i) node)).

Definition fill (m : gmap string entry) (idxs : list Z) : gmap string entry :=
  foldl (λ m i, <[bench_key i := filled_entry i]> m) m idxs.

Lemma threaded_ok i op :
  op_key op ∈ keys → lasting op → call_ok default_replication ns keys (mkCall node None (clk i) op).
Proof. intros Hk Hl. unfold call_ok. split; [exact node_there|]. split; [|exact I]. intros _. split; [exact Hl|apply clocks_positive]. Qed.

Lemma set_get_run p m i :
  one_store default_replication ns keys (MuxPool false) p m → bench_key i ∈ keys → m !! bench_key i = None →
  ∃ p', set_get clk node i p = (Ok tt, p') ∧
    one_store default_replication ns keys (MuxPool false) p' (<[bench_key i := filled_entry i]> m).
Proof.
  intros His Hk Hm.
  destruct (process_call_run default_replication ns keys
    (mkCall node None (clk (2 * Z.to_nat i)) (CSet (bench_key i) VALUE None)) (MuxPool false) p m His) as (r & p1 & Hrun & His1).
  { done. }
  { by apply threaded_ok. }
  rewrite store_step_effect in His1. cbn [c_op c_clock c_via op_key] in His1.
  assert (partial_alter (op_effect (clk (2 * Z.to_nat i) node) (CSet (bench_key i) VALUE None)) (bench_key i) m =
    <[bench_key i := filled_entry i]> m) as Heq.
  { apply map_eq. intros k. destruct (decide (k = bench_key i)) as [->|Hne].
    - by rewrite lookup_partial_alter_eq, lookup_insert_eq, Hm.
    - by rewrite lookup_partial_alter_ne, lookup_insert_ne. }
  rewrite Heq in His1.
  destruct (process_call_run default_replication ns keys
    (mkCall node None (clk (2 * Z.to_nat i + 1)) (CGet (bench_key i))) (MuxPool false) p1 _ His1) as (r' & p2 & Hrun2 & His2).
  { done. }
  { by apply threaded_ok. }
  exists p2. split; [unfold set_get; step_M Hrun; by step_M Hrun2|].
  rewrite store_step_effect in His2. cbn [c_op c_clock c_via op_key op_effect] in His2.
  assert (durable (filled_entry i)) as Hd by (split; [done|apply clocks_positive]).
  replace (partial_alter _ _ _) with (<[bench_key i := filled_entry i]> m) in His2; [done|].
  apply map_eq. intros k. destruct (decide (k = bench_key i)) as [->|Hne]; [|by rewrite lookup_partial_alter_ne].
  rewrite lookup_partial_alter_eq, !lookup_insert_eq. cbn [op_effect]. by rewrite read_durable.
Qed.

Lemma bench_loop_run idxs p m :
  one_store default_replication ns keys (MuxPool false) p m → NoDup idxs →
  (∀ i, i ∈ idxs → bench_key i ∈ keys ∧ m !! bench_key i = None) →
  ∃ p', for_each idxs (set_get clk node) p = (Ok tt, p') ∧ one_store default_replication ns keys (MuxPool false) p' (fill m idxs).
Proof.
  intros His Hnd. revert p m His. induction Hnd as [|i idxs Hi Hnd IH]; intros p m His Hk; [by exists p|].
  destruct (Hk i ltac:(left)) as [Hik Him].
  destruct (set_get_run p m i His Hik Him) as (p1 & Hrun & His1).
  destruct (IH p1 _ His1) as (p2 & Hrun2 & His2).
  { intros j Hj. destruct (Hk j ltac:(by right)) as [? ?]. split; [done|].
    rewrite lookup_insert_ne; [done|]. intros ->%bench_key_inj. done. }
  exists p2. split; [|done]. cbn [for_each]. by step_M Hrun.
Qed.

Lemma lookup_fill m idxs k :
  fill m idxs !! k = match list_find (λ i, k = bench_key i) idxs with
    | Some (_, i) => Some (filled_entry i) | None => m !! k end.
Proof.
  revert m. induction idxs as [|i idxs IH]; intros m; [done|]. cbn [fill foldl]. rewrite (IH _ : fill _ idxs !! k = _).
  simpl. destruct (decide (k = bench_key i)) as [->|Hne].
  - rewrite lookup_insert_eq. destruct (list_find _ idxs) as [[j i']|] eqn:Hf; [|done].
    apply list_find_Some in Hf as (_ & ->%bench_key_inj & _). done.
  - rewrite lookup_insert_ne by done. by destruct (list_find _ idxs) as [[]|].
Qed.

(** The loop that [cProfile] observes does what it is to measure: in a healthy and empty
    cluster it ends without an exception, and afterwards the replicas of each of its keys
    hold the value, stamped with the time of its [set], and those of other keys nothing. *)
Theorem bench_loop_fills ops p :
  one_store default_replication ns keys (MuxPool false) p ∅ → (∀ i, (0 ≤ i < ops)%Z → bench_key i ∈ keys) →
  ∃ p' m, _bench_loop clk node ops p = (Ok tt, p') ∧ one_store default_replication ns keys (MuxPool false) p' m ∧
    (∀ i, (0 ≤ i < ops)%Z → m !! bench_key i = Some (filled_entry i)) ∧
    (∀ k, (∀ i, (0 ≤ i < ops)%Z → k ≠ bench_key i) → m !! k = None).
Proof.
  intros His Hk. destruct (bench_loop_run (seqZ 0 ops) p ∅ His) as (p' & Hrun & His').
  { apply NoDup_seqZ. }
  { intros i Hi%elem_of_seqZ. split; [apply Hk; lia|apply lookup_empty]. }
  exists p', (fill ∅ (seqZ 0 ops)). split; [done|]. split; [done|]. split.
  - intros i Hi. rewrite lookup_fill. destruct (list_find _ _) as [[j i']|] eqn:Hf.
    + by apply list_find_Some in Hf as (_ & ->%bench_key_inj & _).
    + rewrite list_find_None, Forall_forall in Hf. exfalso. apply (Hf i); [apply elem_of_seqZ; lia|done].
  - intros k Hne. rewrite lookup_fill. destruct (list_find _ _) as [[j i']|] eqn:Hf; [|apply lookup_empty].
    apply list_find_Some in Hf as (Hj & -> & _). apply list_elem_of_lookup_2, elem_of_seqZ in Hj.
    destruct (Hne i'); [lia|done].
Qed.
End filling.

(** ** The coroutines use every index once *)
Section coroutines_spec.
Context {W : Type} (nodes : list NodeInfo) (ops : Z).
Context (node_set_prog : NodeInfo → string → pyval → prog W bool) (node_get_prog : NodeInfo → string → prog W pyval).
Implicit Types (s : coro W) (held : gset (nat * Z)).

(** A worker holds marks [(k, b)] that stand for its having seen the counter at [b] or more. *)
Record coro_inv held s : Prop := {
  ci_counter : (0 ≤ co_counter s ≤ Z.max 0 ops)%Z;
  ci_taken : co_taken s = seqZ 0 (co_counter s);
  ci_seen k b : (k, b) ∈ held → (b ≤ co_counter s)%Z;
}.

#[local] Definition whatever (_ : nat * Z) (_ _ : coro W) : Prop := True.

#[local] Instance whatever_unchanged : Unchanged whatever.
Proof. by split. Qed.

Abbreviation cwp := (wp coro_inv whatever).

Lemma coro_mark held s b :
  coro_inv held s → (b ≤ co_counter s)%Z → ∃ k, ((k, b) ∉ held) ∧ coro_inv ({[(k, b)]} ∪ held) s.
Proof.
  intros [? ? Hseen] Hb. destruct (exist_fresh (set_map (D := gset nat) fst held)) as [k Hk].
  exists k. split.
  - intros Hin. apply Hk, elem_of_map. by exists (k, b).
  - split; [done..|]. intros k' b' [[= -> ->]%elem_of_singleton|Hin]%elem_of_union; [done|by eapply Hseen].
Qed.

(** A worker that ends has seen the operations used up, or fails as one of its calls does. *)
Definition co_post held (r : result bool) : Prop :=
  match r with
  | Ok b => b = true ∧ ∃ k, (k, ops) ∈ held
  | Raise e => ∃ i, may_end (co_op nodes node_set_prog node_get_prog i) (Raise e)
  end.

Lemma wp_co_take held (j : Z) (Q : gset (nat * Z) → result (option Z) → Prop) :
  (j = 0 ∨ ∃ k, (k, j) ∈ held)%Z →
  (∀ k, Q ({[(k, ops)]} ∪ held) (Ok None)) →
  (∀ i k, (j < ops)%Z → Q ({[(k, j + 1)%Z]} ∪ held) (Ok (Some i))) →
  cwp held (act (co_take ops)) Q.
Proof.
  intros Hj Hnone Hsome. apply wp_act. intros others s Hd Hinv. pose proof Hinv as [Hc Ht Hseen].
  assert (j ≤ co_counter s)%Z as Hjc by (destruct Hj as [->|[k Hk]]; [lia|apply (Hseen k); set_solver]).
  unfold co_take. case_bool_decide as Hge; cbn [fst snd].
  - destruct (coro_mark _ s ops Hinv ltac:(lia)) as (k & Hk & Hinv').
    exists ({[(k, ops)]} ∪ held). rewrite <- (assoc_L (∪)). split; [set_solver|]. by split_and!.
  - set (s' := mkCoro _ _ _). assert (coro_inv (held ∪ others) s') as Hinv'.
    { split; simpl; [lia| |].
      - rewrite Ht, seqZ_app by lia. done.
      - intros k b Hin. specialize (Hseen k b Hin). lia. }
    destruct (coro_mark _ s' (j + 1)%Z Hinv' ltac:(simpl; lia)) as (k & Hk & Hinv'').
    exists ({[(k, (j + 1)%Z)]} ∪ held). rewrite <- (assoc_L (∪)). split; [set_solver|]. split_and!; [done|done|].
    apply Hsome. lia.
Qed.

Lemma wp_co_worker (fuel : nat) (j : Z) held :
  (j = 0 ∨ ∃ k, (k, j) ∈ held)%Z → (0 ≤ j ≤ Z.max 0 ops)%Z → (Z.max 0 ops < j + Z.of_nat fuel)%Z →
  cwp held (co_worker nodes ops node_set_prog node_get_prog fuel) co_post.
Proof.
  revert j held. induction fuel as [|fuel IH]; intros j held Hj Hb Hf; [lia|].
  cbn [co_worker]. apply wp_bind, (wp_co_take held j); [done|..].
  - intros k. simpl. split; [done|]. exists k. set_solver.
  - intros i k Hlt. apply wp_bind, wp_zoom.
    + intros h s w [? ? ?]. by split.
    + done.
    + intros [[]|e] Hend; [|by eexists]. apply (IH (j + 1)%Z); [right; exists k; set_solver|lia..].
Qed.

(** However the workers are scheduled, the indexes they take are [0], [1], ..., each once
    and in order; a worker only fails as a call of a node does; and when there is a worker
    and all of them have ended without failing, every index below [ops] has been taken. *)
Theorem bench_coro_exact concurrency order w :
  let st := _bench_coro nodes ops node_set_prog node_get_prog concurrency order w in
  (co_counter st.2 ≤ Z.max 0 ops)%Z ∧ co_taken st.2 = seqZ 0 (co_counter st.2) ∧
  (∀ r, Ret r ∈ st.1 → r = Ok true ∨
     ∃ e i, r = Raise e ∧ may_end (co_op nodes node_set_prog node_get_prog i) (Raise e)) ∧
  ((0 < concurrency)%Z → Forall (λ p, p = Ret (Ok true)) st.1 → co_taken st.2 = seqZ 0 ops).
Proof.
  assert (∃ helds, safe_threads coro_inv whatever (λ _, co_post) helds
    (_bench_coro nodes ops node_set_prog node_get_prog concurrency order w)) as (helds & [Hlen Hwp] & _ & Hinv).
  { eapply interleave_safe; [apply _|].
    rewrite <- (length_replicate (Z.to_nat concurrency) (co_worker nodes ops node_set_prog node_get_prog (S (Z.to_nat ops)))) at 1.
    apply (safe_start coro_inv whatever (λ _, co_post)).
    - intros i p [-> _]%lookup_replicate. apply (wp_co_worker _ 0); [by left|lia..].
    - split; simpl; [lia|done|set_solver]. }
  assert (length (_bench_coro nodes ops node_set_prog node_get_prog concurrency order w).1 = Z.to_nat concurrency) as Hn.
  { unfold _bench_coro. rewrite interleave_length. apply length_replicate. }
  set (st := _bench_coro _ _ _ _ _ _ _) in *. destruct Hinv as [Hc Ht Hseen]. intros st'. subst st'.
  split; [lia|]. split; [done|]. split.
  - intros r [i Hi]%list_elem_of_lookup_1. destruct (lookup_lt_is_Some_2 helds i) as [held Hh].
    { rewrite Hlen. by eapply lookup_lt_Some. }
    specialize (Hwp i held _ Hh Hi). destruct r as [b|e]; simpl in Hwp.
    + left. by destruct Hwp as [-> _].
    + right. destruct Hwp as [x ?]. by exists e, x.
  - intros Hpos Hall. destruct (lookup_lt_is_Some_2 helds 0) as [held H0]; [rewrite Hlen, Hn; lia|].
    destruct (lookup_lt_is_Some_2 st.1 0) as [p Hp]; [lia|].
    specialize (Hwp 0 held p H0 Hp). rewrite Forall_lookup in Hall. rewrite (Hall 0 p Hp) in Hwp.
    destruct Hwp as (_ & k & Hk). assert (ops ≤ co_counter st.2)%Z.
    { apply (Hseen k). apply elem_of_union_list. exists held. split; [|done]. by eapply list_elem_of_lookup_2. }
    rewrite Ht. unfold seqZ. do 2 f_equal. lia.
Qed.
End coroutines_spec.

(** ** The echo server gives back what it gets *)

Lemma echo_returns bufsize k bs fuel :
  0 < bufsize → rx_bytes (s_in k) = Some bs → s_fault k = None → length bs < fuel →
  ∃ k', echo_loop bufsize fuel k = (Ok true, k') ∧ s_out k' = s_out k ++ bs ∧ s_in k' = [].
Proof.
  intros Hb. revert k bs. induction fuel as [|fuel IH]; intros [i o f] bs Hbs Hf Hlen; [lia|].
  simpl in Hbs, Hf. subst f. cbn [echo_loop]. unfold_M. unfold recv. destruct bufsize as [|n]; [lia|].
  cbn [s_in]. destruct i as [|[b bs1|e] i]; [|simpl in Hbs|done].
  { injection Hbs as <-. eexists. split; [done|]. by rewrite app_nil_r. }
  destruct (rx_bytes i) as [rest|] eqn:Hi; [|done]. injection Hbs as <-. rewrite firstn_cons. cbn [drop].
  unfold sendall, set_in. cbn [s_fault s_out set_out].
  destruct (IH (set_out (o ++ b :: take n bs1) (mkSock (unread (drop n bs1) i) o None)) (drop n bs1 ++ rest)) as (k' & Hrun & Ho & Hin).
  { simpl. by rewrite rx_bytes_unread, Hi. }
  { done. }
  { simpl in Hlen. rewrite length_app, length_drop. rewrite length_app in Hlen. lia. }
  exists k'. split; [exact Hrun|]. split; [|done]. rewrite Ho. simpl. rewrite <- app_assoc. simpl.
  by rewrite (app_assoc (take n bs1)), take_drop.
Qed.
