(* ===== verification/ProfileSpec.v ===== *)
(** * The step timings run to completion

    The medians of [Profile.step_timing] are taken of calls that all succeed, on a cluster
    in which every key that is read has been written. *)
From Stdlib Require Import SpecFloat.
From S2P Require Import Prelude Async Threads PyBase Bytes PyDict Types Store LwwStore BasicStore Ring Dispatcher Wire.
From S2P Require Import PoolOps Consistency Discovery Gossip GossipSpec Node NodeSpec Replicas Cluster ClusterSpec ClusterTtl Fleet Startup Process QuickStart Web Workload Profile.

#[local] Existing Instance scripted_pool.

Section spec.
Context `{Resolver} `{Pickle} (perf_counter_ns : nat → Z) (clk : nat → NodeInfo → clock).
Context (ns : list NodeInfo) (keys : gset string) (kind : shared_pool) (order : option (list nat)).
Hypothesis pool_open : pool_closed kind = false.
Hypothesis order_suits : how kind order = order.
Hypothesis clocks_positive : ∀ i n, (0 < time_ns (clk i n))%Z.
Hypothesis order_ok : match order with
  | None => True
  | Some o => ∀ key, key ∈ keys → o ≡ₚ seq 0 (length (ring_get_nodes ns key default_replication))
  end.
Implicit Types (s : layers).

Abbreviation stands p := (∃ m, one_store default_replication ns keys kind p m).

(** A socket on which the bytes arrive in pieces, without errors. *)
Definition sock_fine (k : sock) : Prop := s_fault k = None ∧ is_Some (rx_bytes (s_in k)).

Lemma recv_fine n k : sock_fine k → ∃ bs k', recv n k = (Ok bs, k') ∧ sock_fine k'.
Proof.
  destruct k as [i o f]. intros [Hf [bs Hbs]]. simpl in *. unfold recv. destruct n as [|n]; [eexists _, _; split; [done|]; by split; [|eexists]|].
  destruct i as [|[b bs1|e] i]; cbn [s_in]; [eexists _, _; split; [done|]; by split; [|eexists]| |done].
  eexists _, _. split; [done|]. split; [done|]. simpl in *. rewrite rx_bytes_unread.
  destruct (rx_bytes i); [|done]. by eexists.
Qed.

Lemma round_trip_run bufsize data s :
  sock_fine (l_sock s) → ∃ s', round_trip bufsize data s = (Ok tt, s') ∧ sock_fine (l_sock s') ∧
    (l_store s', l_process s', l_calls s', l_key_idx s', l_get_keys s', l_get_i s') =
    (l_store s, l_process s, l_calls s, l_key_idx s, l_get_keys s, l_get_i s).
Proof.
  intros [Hf Hi]. destruct (recv_fine bufsize (set_out (s_out (l_sock s) ++ data) (l_sock s))) as (bs & k' & Hrun & Hk'); [by split|].
  exists (mkLayers (l_store s) k' (l_process s) (l_calls s) (l_key_idx s) (l_get_keys s) (l_get_i s)).
  split; [|by split]. unfold round_trip, on_sock. erewrite zoom_run; [done|].
  unfold sendall. unfold_M. rewrite Hf. by rewrite Hrun.
Qed.

(** A timed call in a healthy cluster. *)
Lemma timed_call_run node op s :
  node ∈ ns → op_key op ∈ keys → lasting op → stands (l_process s) →
  ∃ r s', timed_call clk node order op s = (Ok r, s') ∧ stands (l_process s') ∧ l_calls s' = S (l_calls s) ∧
    (l_store s', l_sock s', l_key_idx s', l_get_keys s', l_get_i s') =
    (l_store s, l_sock s, l_key_idx s, l_get_keys s, l_get_i s).
Proof.
  intros Hn Hk Hl [m His].
  destruct (process_call_run default_replication ns keys (mkCall node order (clk (l_calls s)) op) kind (l_process s) m His order_suits)
    as (r & p' & Hrun & His').
  { split; [done|]. split; [intros _; split; [done|apply clocks_positive]|]. simpl. destruct order as [o|]; [by apply order_ok|done]. }
  eexists r, _. split; [unfold timed_call, on_process; erewrite zoom_run by exact Hrun; reflexivity|].
  simpl. split; [by eexists|done].
Qed.

(** What the timed functions of the cluster leave behind after [j] calls. *)
Definition setting (n j : nat) s : Prop :=
  stands (l_process s) ∧ l_key_idx s = Z.of_nat j ∧ l_get_i s = 0%Z.
Definition getting (n j : nat) s : Prop :=
  stands (l_process s) ∧ l_key_idx s = Z.of_nat n ∧
  l_get_keys s = bench_key <$> seqZ 0 (Z.of_nat n) ∧ l_get_i s = Z.of_nat j.

Lemma full_set_run node n j s :
  node ∈ ns → (∀ i, (0 ≤ i < Z.of_nat n)%Z → bench_key i ∈ keys) → j < n → setting n j s →
  ∃ s', full_set clk node order s = (Ok tt, s') ∧ setting n (S j) s'.
Proof.
  intros Hn Hk Hj (Hst & Hidx & Hi). unfold full_set. unfold_M.
  destruct (timed_call_run node (CSet (bench_key (l_key_idx s)) VALUE None)
    (mkLayers (l_store s) (l_sock s) (l_process s) (l_calls s) (l_key_idx s + 1) (l_get_keys s) (l_get_i s))) as (r & s' & Hrun & Hst' & _ & Hrest);
    [done|apply Hk; lia|done|done|].
  unfold_M. rewrite Hrun. exists s'. split; [done|]. injection Hrest as _ _ Hki _ Hgi.
  split; [done|]. rewrite Hki, Hgi. simpl. split; [lia|done].
Qed.

Lemma full_get_run node n j s :
  node ∈ ns → (∀ i, (0 ≤ i < Z.of_nat n)%Z → bench_key i ∈ keys) → j < n → getting n j s →
  ∃ s', full_get clk node order s = (Ok tt, s') ∧ getting n (S j) s'.
Proof.
  intros Hn Hk Hj (Hst & Hidx & Hkeys & Hi). unfold full_get. unfold_M.
  assert (l_get_keys s !! Z.to_nat (l_get_i s mod Z.of_nat (length (l_get_keys s))) = Some (bench_key (Z.of_nat j))) as Hkey.
  { rewrite Hkeys, length_fmap, length_seqZ, Hi, Z2Nat.id, Z.mod_small, Nat2Z.id by lia.
    rewrite list_lookup_fmap, lookup_seqZ_lt by lia. simpl. do 2 f_equal. }
  destruct (l_get_keys s) as [|k0 ks] eqn:Hks; [done|]. rewrite Hkey. cbn [from_option]. rewrite <- Hks in *.
  destruct (timed_call_run node (CGet (bench_key (Z.of_nat j)))
    (mkLayers (l_store s) (l_sock s) (l_process s) (l_calls s) (l_key_idx s) (l_get_keys s) (l_get_i s + 1))) as (r & s' & Hrun & Hst' & _ & Hrest);
    [done|apply Hk; lia|done|done|].
  unfold_M. rewrite Hrun. exists s'. split; [done|]. injection Hrest as _ _ Hki Hgk Hgi.
  split; [done|]. rewrite Hki, Hgk, Hgi. simpl. split; [done|]. split; [done|lia].
Qed.
(** ** Setting up, warming and tearing down *)

Lemma set_up_run (nodes : list (NodeInfo * node_state ring script)) (order' : option (list nat)) :
  NoDup ns → ns ≠ [] → (∀ key, key ∈ keys → no_ties key ns) → nodes.*1 = ns →
  starting ns [] (in_process (mkProcess [] kind (list_to_map nodes))) →
  ∃ p, set_up clk (Ok nodes) order' (new_process kind) = (Ok ns, p) ∧ one_store default_replication ns keys kind p ∅.
Proof.
  intros Hnd Hne Hun Hns Hs.
  destruct (start_nodes_run ns [] _ (clk 0) ((λ n, (n, order')) <$> ns) Hnd Hs) as (p & Hrun & Hs' & Hk);
    [by apply Forall_fmap, Forall_forall|].
  exists p. split.
  - unfold set_up, add_nodes. unfold_M. cbn [ps_ring ps_pool ps_nodes new_process]. rewrite (right_id_L ∅ (∪)), Hns.
    unfold ring_init. by rewrite Hrun.
  - split; [|done]. eapply started_is_store; [done|done|done|exact Hs'|].
    intros x Hx. rewrite app_nil_r, elem_of_reverse, <- list_fmap_compose. by rewrite list_fmap_id.
Qed.

Lemma tear_down_run (order' : option (list nat)) p :
  ns ≠ [] → stands p → ∃ p', tear_down clk ns order' p = (Ok tt, p').
Proof.
  intros Hne [m [His _]]. apply stop_nodes_run. intros e (n & -> & Hn)%list_elem_of_fmap.
  destruct (store_serving ns keys _ p m Hne His) as [_ Hl]. specialize (Hl n Hn). cbn [fst]. by destruct (ps_nodes p !! n).
Qed.

(** What a warm-up leaves as it is: everything that matters of the nodes, and all else. *)
Definition but_process s := (l_store s, l_sock s, l_calls s, l_key_idx s, l_get_keys s, l_get_i s).
Definition warms (warm : list NodeInfo → M layers unit) : Prop :=
  ∀ s, stands (l_process s) → ∃ s', warm ns s = (Ok tt, s') ∧ stands (l_process s') ∧ but_process s' = but_process s.

Lemma ping_same_told a : within same_told (warm_node a).
Proof.
  apply within_state. intros s. apply within_for_each; [exact _|]. intros n _. unfold ping_peer.
  case_decide; [apply within_ret; exact _|]. apply within_for_each; [exact _|]. intros i _.
  apply within_bind; [exact _|apply (keeps_execute false); by right|]. intros o. apply within_ret; exact _.
Qed.

Lemma warm_node_run a c fl nd m :
  is_store default_replication ns keys fl m → fl !! a = Some nd →
  at_node a c (warm_node a) fl = (Ok tt, fl).
Proof.
  intros His Ha. set (v := view_from a c fl nd).
  assert (∀ n, ∃ o, remote_execute n (mkMessage PING (Some no_fields)) v = (Ok o, v)) as Hping.
  { intros n. destruct (send_same (mkMessage PING (Some no_fields)) n (n_gossip v)) as [o Ho]; [done| |].
    - intros pr. unfold v. rewrite lookup_peers. case_decide; [done|]. destruct (fl !! n) as [nd'|]; [|done]. simpl.
      destruct (n_listening nd'); [|done]. intros [= <-]. split; [done|]. by eexists.
    - exists o. unfold remote_execute, on_gossip. by erewrite zoom_run by exact Ho. }
  assert (∀ x, ping_peer a x v = (Ok tt, v)) as Hpeer.
  { intros x. unfold ping_peer. case_decide; [done|]. destruct (Hping x) as [o Ho].
    apply for_each_same. intros _ _. by step_M Ho. }
  unfold at_node. rewrite Ha. fold v. unfold warm_node, mbind at 1, M_bind at 1. cbn [get_state]. rewrite for_each_same by done.
  rewrite (back_same a c) by done. unfold v. simpl. rewrite insert_id; [done|]. rewrite Ha. by destruct nd as [[] ? ? ?].
Qed.

Lemma pre_warm_warms : warms (pre_warm clk).
Proof.
  intros s Hs. apply (for_each_returns_inv (λ s', stands (l_process s') ∧ but_process s' = but_process s)); [|by split].
  intros a s1 Ha [[m (His & Hkd & _)] Hb]. destruct (is_there _ _ _ _ _ His a Ha) as (nd & Hnd & _).
  destruct (at_process_same a (clk 0) (warm_node a) (l_process s1) (ping_same_told a)) as (r & p' & Hrun & Hrun' & _ & Hk').
  erewrite warm_node_run in Hrun' by done. injection Hrun' as <- Hp.
  eexists. split; [unfold on_process; by erewrite zoom_run by exact Hrun|]. split; [|done].
  exists m. split; [rewrite Hp in His; exact His|]. split; [|exact pool_open]. cbn [l_process]. by rewrite Hk'.
Qed.

(** ** The step timing *)

(** The world of the layers, the socket and the cluster set aside. *)
Definition cells s := (l_process s, l_calls s, l_key_idx s, l_get_keys s, l_get_i s).

Lemma on_local_run {A} (m : M basic_store A) s :
  (∀ d, ∃ a d', m d = (Ok a, d')) → ∃ a s', on_local m s = (Ok a, s') ∧ l_sock s' = l_sock s ∧ cells s' = cells s.
Proof.
  intros Hm. destruct (Hm (l_store s)) as (a & d' & Hrun).
  exists a, (mkLayers d' (l_sock s) (l_process s) (l_calls s) (l_key_idx s) (l_get_keys s) (l_get_i s)).
  split; [|done]. unfold on_local. by erewrite zoom_run by exact Hrun.
Qed.

(** What a script needs to run: a pickle and an echo server that work, and a cluster to
    construct. *)
Record runnable (addrs : list string) (nodes : list (NodeInfo * node_state ring script)) (ops : Z) s : Prop := {
  rn_ops : (0 < ops)%Z;
  rn_ring : ∃ r, bench_ring addrs = Ok r;
  rn_pickle : ∃ data msg, dumps bench_message = Ok data ∧ loads data = Ok msg;
  rn_sock : sock_fine (l_sock s);
  rn_nodes : nodes.*1 = ns;
  rn_distinct : NoDup ns;
  rn_some : ns ≠ [];
  rn_untied key : key ∈ keys → no_ties key ns;
  rn_start : starting ns [] (in_process (mkProcess [] kind (list_to_map nodes)));
  rn_process : l_process s = new_process kind;
  rn_keys i : (0 ≤ i < Z.min ops 500)%Z → bench_key i ∈ keys;
  rn_cells : l_key_idx s = 0%Z ∧ l_get_i s = 0%Z;
}.

(** The part before the cluster. *)
Definition quiet s0 (_ : nat) s : Prop := sock_fine (l_sock s) ∧ cells s = cells s0.

Lemma local_quiet {A} (m : M basic_store A) s0 j s :
  (∀ d, ∃ a d', m d = (Ok a, d')) → quiet s0 j s → ∃ a s', on_local m s = (Ok a, s') ∧ quiet s0 (S j) s'.
Proof.
  intros Hm [Hk Hc]. destruct (on_local_run m s Hm) as (a & s' & Hrun & Hk' & Hc').
  exists a, s'. split; [done|]. split; congruence.
Qed.

Lemma trip_quiet bufsize data s0 j s :
  quiet s0 j s → ∃ a s', round_trip bufsize data s = (Ok a, s') ∧ quiet s0 (S j) s'.
Proof.
  intros [Hk Hc]. destruct (round_trip_run bufsize data s Hk) as (s' & Hrun & Hk' & Hc').
  exists tt, s'. split; [done|]. split; [done|]. unfold cells in *. congruence.
Qed.

Lemma time_layers_run {T} (num : Z → T) addrs nodes bufsize c ops s k :
  runnable addrs nodes ops s →
  let reps := Z.to_nat (Z.min ops 5000) in
  ∃ below s', time_layers perf_counter_ns num addrs bufsize c ops (s, k) =
      (Ok below, (s', k + 10 * reps + 2 * Z.to_nat (Z.min ops 500))) ∧ cells s' = cells s.
Proof.
  intros [Hops (r & Hring) (data & msg & Hdumps & Hloads) Hsock _ _ _ _ _ _ _ _] reps.
  destruct (timeit_run perf_counter_ns num (on_local (basic_set c "bench" VALUE None)) (quiet s) (Z.min ops 5000) s k)
    as (t1 & s1 & Hrun1 & _ & Hs1); [by intros ????; apply local_quiet; [intros d; eexists _, _|]|done|lia|].
  destruct (timeit_run perf_counter_ns num (on_local (basic_get c "bench")) (quiet s) (Z.min ops 5000) s1 (k + 2 * reps))
    as (t2 & s2 & Hrun2 & _ & Hs2); [by intros ????; apply local_quiet; [intros d; rewrite basic_get_run; eexists _, _|]|done|lia|].
  destruct (timeit_run perf_counter_ns num (mret (ring_get_node r "bench-key")) (quiet s) (Z.min ops 5000) s2 (k + 2 * reps + 2 * reps))
    as (t3 & s3 & Hrun3 & _ & Hs3); [by intros ????; eexists _, _|done|lia|].
  destruct (timeit_run perf_counter_ns num (lift_result (dumps bench_message)) (quiet s) (Z.min ops 5000) s3 (k + 2 * reps + 2 * reps + 2 * reps))
    as (t4 & s4 & Hrun4 & _ & Hs4); [rewrite Hdumps; by intros ????; eexists _, _|done|lia|].
  destruct (timeit_run perf_counter_ns num (lift_result (loads data)) (quiet s) (Z.min ops 5000) s4 (k + 2 * reps + 2 * reps + 2 * reps + 2 * reps))
    as (t5 & s5 & Hrun5 & _ & Hs5); [rewrite Hloads; by intros ????; eexists _, _|done|lia|].
  destruct (for_each_returns_inv (quiet s 0) (seq 0 10) (λ _, round_trip (bufsize data) data) s5) as (s6 & Hrun6 & Hs6); [|exact Hs5|].
  { intros x s' _ Hq. destruct (trip_quiet (bufsize data) data s 0 s' Hq) as ([] & s'' & ? & ?). by exists s''. }
  destruct (timeit_run perf_counter_ns num (round_trip (bufsize data) data) (quiet s) (Z.min (Z.min ops 5000) 500) s6 (k + 2 * reps + 2 * reps + 2 * reps + 2 * reps + 2 * reps))
    as (t7 & s7 & Hrun7 & _ & [_ Hs7]); [by intros ????; apply trip_quiet|done|lia|].
  eexists _, s7. split; [|done]. unfold time_layers. step_M Hrun1. step_M Hrun2. rewrite Hring.
  rewrite (M_bind_Ok (lift_result (Ok r)) _ _ r (s2, k + 2 * reps + 2 * reps)) by done. step_M Hrun3. step_M Hrun4. rewrite Hdumps.
  erewrite (M_bind_Ok (lift_result (Ok data))) by reflexivity. step_M Hrun5.
  erewrite (M_bind_Ok (on_world _)) by (by apply zoom_run). step_M Hrun7. unfold mret, M_ret. do 2 f_equal.
  replace (Z.min (Z.min ops 5000) 500) with (Z.min ops 500) by lia. lia.
Qed.

Lemma time_cluster_run {T} (num : Z → T) addrs nodes warm ops s0 s k :
  runnable addrs nodes ops s0 → warms warm → cells s = cells s0 →
  let n := Z.to_nat (Z.min ops 500) in
  ∃ calls s', time_cluster perf_counter_ns clk num (Ok nodes) order warm ops (s, k) = (Ok calls, (s', k + 4 * n)) ∧
    l_key_idx s' = Z.of_nat n ∧ l_get_i s' = Z.of_nat n.
Proof.
  intros [Hops _ _ _ Hns Hnd Hne Hun Hstart Hnew Hkeys [Hidx Hgi]] Hwarm [= Hp _ Hki _ Hgs] n.
  assert (Z.min (Z.min ops 5000) 500 = Z.min ops 500) as Hmin by lia.
  destruct (set_up_run nodes order Hnd Hne Hun Hns Hstart) as (p1 & Hrun1 & Hst1). rewrite <- Hnew, <- Hp in Hrun1.
  set (s0' := mkLayers (l_store s) (l_sock s) p1 (l_calls s) (l_key_idx s) (l_get_keys s) (l_get_i s)).
  destruct (Hwarm s0' (ex_intro _ ∅ Hst1)) as (s1 & Hwarm1 & Hst1' & [= _ _ _ Hidx1 _ Hgi1]).
  assert (∃ node rest, ns = node :: rest) as (node & rest & Hhead) by (destruct ns; [done|by eexists _, _]).
  assert (node ∈ ns) as Hnode by (rewrite Hhead; left).
  assert (∀ i, (0 ≤ i < Z.of_nat n)%Z → bench_key i ∈ keys) as Hkeys' by (intros i Hi; apply Hkeys; lia).
  destruct (timeit_run perf_counter_ns num (full_set clk node order) (setting n) (Z.min (Z.min ops 5000) 500) s1 k)
    as (t2 & s2 & Hrun2 & _ & Hst2 & Hidx2 & Hgi2).
  { rewrite Hmin. intros j s' Hj Hs'. destruct (full_set_run node n j s') as (s'' & ? & ?); [done..|]. by exists tt, s''. }
  { split; [done|]. split; [|by rewrite Hgi1, Hgs]. rewrite Hidx1. simpl. lia. }
  { lia. }
  rewrite Hmin in Hidx2. fold n in Hidx2.
  set (s3 := mkLayers (l_store s2) (l_sock s2) (l_process s2) (l_calls s2) (l_key_idx s2) (bench_key <$> seqZ 0 (l_key_idx s2)) (l_get_i s2)).
  destruct (timeit_run perf_counter_ns num (full_get clk node order) (getting n) (Z.min (Z.min ops 5000) 500) s3 (k + 2 * n))
    as (t4 & s4 & Hrun4 & _ & Hst4 & Hidx4 & _ & Hgi4).
  { rewrite Hmin. intros j s' Hj Hs'. destruct (full_get_run node n j s') as (s'' & ? & ?); [done..|]. by exists tt, s''. }
  { split; [done|]. simpl. split_and!; [done|by rewrite Hidx2|lia]. }
  { lia. }
  rewrite Hmin in Hrun2, Hrun4, Hgi4. fold n in Hrun2, Hrun4, Hgi4.
  destruct (tear_down_run order (l_process s4) Hne Hst4) as (p5 & Hrun5).
  eexists _, (mkLayers (l_store s4) (l_sock s4) p5 (l_calls s4) (l_key_idx s4) (l_get_keys s4) (l_get_i s4)).
  split; [|done]. unfold time_cluster. rewrite Hmin.
  rewrite (M_bind_Ok _ _ _ ns (s0', k)) by (unfold on_world, on_process; by erewrite zoom_run by (by apply zoom_run)).
  rewrite (M_bind_Ok _ _ _ tt (s1, k)) by (unfold on_world; by erewrite zoom_run by exact Hwarm1).
  rewrite (M_bind_Ok _ _ _ node (s1, k)) by by rewrite Hhead.
  step_M Hrun2. rewrite (M_bind_Ok _ _ _ tt (s3, k + 2 * n)) by done. step_M Hrun4.
  erewrite M_bind_Ok by (unfold on_world, on_process; by apply zoom_run, zoom_run).
  unfold mret, M_ret. do 2 f_equal. simpl. lia.
Qed.

Lemma step_timing_run {T} (num : Z → T) addrs nodes bufsize warm c ops s k :
  runnable addrs nodes ops s → warms warm →
  ∃ meds s', step_timing perf_counter_ns clk num addrs (Ok nodes) order bufsize warm c ops (s, k) =
      (Ok meds, (s', k + 10 * Z.to_nat (Z.min ops 5000) + 6 * Z.to_nat (Z.min ops 500))) ∧
    l_key_idx s' = Z.min ops 500 ∧ l_get_i s' = Z.min ops 500.
Proof.
  intros Hrn Hwarm. destruct (time_layers_run num addrs nodes bufsize c ops s k Hrn) as (below & s1 & Hrun1 & Hc1).
  destruct (time_cluster_run num addrs nodes warm ops s s1 (k + 10 * Z.to_nat (Z.min ops 5000) + 2 * Z.to_nat (Z.min ops 500)) Hrn Hwarm Hc1)
    as (calls & s2 & Hrun2 & Hk2 & Hg2).
  pose proof (rn_ops _ _ _ _ Hrn) as Hops. destruct below as [[[[[? ?] ?] ?] ?] ?].
  eexists _, s2. split; [|split; lia]. unfold step_timing. step_M Hrun1. step_M Hrun2.
  unfold mret, M_ret. do 2 f_equal. lia.
Qed.
End spec.

(** ** The two scripts *)
Section scripts.
Context `{Resolver} `{Pickle} (perf_counter_ns : nat → Z) (clk : nat → NodeInfo → clock).

Definition members_at (first : Z) : list NodeInfo :=
  (λ i, mkNodeInfo "127.0.0.1" (first + i)) <$> [0; 1; 2]%Z.

Lemma members_nodup first : NoDup (members_at first).
Proof. apply NoDup_fmap_2_strong; [intros x y _ _ [=]; lia|]. by apply (bool_decide_eq_true_1 (NoDup _)). Qed.

Abbreviation startable ns k nodes := (starting ns [] (in_process (mkProcess [] k (list_to_map nodes)))).

Lemma sync_cluster : ∃ nodes, _make_nodes = Ok nodes ∧ nodes.*1 = members_at 7401 ∧ startable (members_at 7401) (MuxPool false) nodes.
Proof.
  exists ((λ n, (n, node_init [] [] (StaticDiscovery (members_at 7401)))) <$> members_at 7401).
  split; [by vm_compute|]. split; [done|].
  apply starting_new; [|by intros n nd (n' & [= -> ->] & _)%list_elem_of_fmap].
  apply starting_init; [done|apply members_nodup|].
  intros n nd (n' & [= -> ->] & Hn')%list_elem_of_fmap. eexists. split; [done|]. intros x. set_solver.
Qed.

Lemma async_cluster : ∃ nodes, _make_nodes_async = Ok nodes ∧ nodes.*1 = members_at 7301 ∧ startable (members_at 7301) AsyncPool nodes.
Proof.
  exists ((λ n, (n, node_init [] [] (StaticDiscovery (filter (λ m, m ≠ n) (members_at 7301))))) <$> members_at 7301).
  split; [by vm_compute|]. split; [done|].
  apply starting_new; [|by intros n nd (n' & [= -> ->] & _)%list_elem_of_fmap].
  apply starting_init; [done|apply members_nodup|].
  intros n nd (n' & [= -> ->] & Hn')%list_elem_of_fmap. eexists. split; [done|]. intros x.
  rewrite list_elem_of_filter. destruct (decide (x = n')); naive_solver.
Qed.

Definition timed_keys (ops : Z) : gset string := list_to_set (bench_key <$> seqZ 0 (Z.min ops 500)).

Lemma elem_of_timed_keys ops key : key ∈ timed_keys ops ↔ ∃ i, key = bench_key i ∧ (0 ≤ i < Z.min ops 500)%Z.
Proof.
  unfold timed_keys. rewrite elem_of_list_to_set, list_elem_of_fmap.
  split; intros (i & -> & Hi); exists i; (split; [done|]); apply elem_of_seqZ in Hi || apply elem_of_seqZ; lia.
Qed.

Definition no_ties_between (first ops : Z) : Prop :=
  ∀ i, (0 ≤ i < Z.min ops 500)%Z → no_ties (bench_key i) (members_at first).

Lemma cluster_runnable first kind addrs nodes ops (s : layers) :
  (0 < ops)%Z → (∃ data msg, dumps bench_message = Ok data ∧ loads data = Ok msg) → sock_fine (l_sock s) →
  l_key_idx s = 0%Z ∧ l_get_i s = 0%Z → no_ties_between first ops → (∃ r, bench_ring addrs = Ok r) →
  nodes.*1 = members_at first → startable (members_at first) kind nodes → l_process s = new_process kind →
  runnable (members_at first) (timed_keys ops) kind addrs nodes ops s.
Proof.
  intros Hops Hp Hs Hc Ht Hr Hn Hst Hnew. constructor; try done.
  - apply members_nodup.
  - intros key (i & -> & Hi)%elem_of_timed_keys. by apply Ht.
  - intros i Hi. apply elem_of_timed_keys. by exists i.
Qed.

(** What the [cProfile] pass leaves to the step timing that follows it in the same process: a
    pool that delivers no answer, and a stopped node in the ring. *)
Theorem cprofile_closes_pool ops :
  (∀ i n, (0 < time_ns (clk i n))%Z) → (∀ i, (0 ≤ i < ops)%Z → no_ties (bench_key i) (members_at 7401)) →
  ∃ p, run_cprofile clk ops (new_process (MuxPool false)) = (Ok tt, p) ∧ ps_pool p = MuxPool true ∧
    ps_ring p = [mkNodeInfo "127.0.0.1" 7403].
Proof.
  intros Hclk Hun. set (keys := list_to_set (bench_key <$> seqZ 0 ops) : gset string).
  assert (∀ key, key ∈ keys ↔ ∃ i, key = bench_key i ∧ (0 ≤ i < ops)%Z) as Hkeys.
  { intros key. unfold keys. rewrite elem_of_list_to_set, list_elem_of_fmap. by setoid_rewrite elem_of_seqZ. }
  destruct sync_cluster as (nodes & Hmake & Hn & Hst).
  destruct (set_up_run clk (members_at 7401) keys (MuxPool false) eq_refl nodes None) as (p1 & Hrun1 & His);
    [apply members_nodup|done|by intros key (i & -> & Hi)%Hkeys; apply Hun|done|done|].
  destruct (bench_loop_run clk (members_at 7401) keys (mkNodeInfo "127.0.0.1" 7401) ltac:(left) (λ i, Hclk i _) (seqZ 0 ops) p1 ∅ His)
    as (p2 & Hrun2 & His2 & Hk2 & _); [apply NoDup_seqZ| |].
  { intros i Hi%elem_of_seqZ. split; [|apply lookup_empty]. apply Hkeys. exists i. split; [done|lia]. }
  destruct (stopped_nodes_leave (clk 0) [mkNodeInfo "127.0.0.1" 7401; mkNodeInfo "127.0.0.1" 7402] (mkNodeInfo "127.0.0.1" 7403)
    ((λ n, (n, None)) <$> members_at 7401) p2) as (p3 & Hrun3 & Hr3 & _ & _ & Hk3);
    [apply (members_nodup 7401)|by eapply (store_serving (members_at 7401))|done|rewrite Hk2; by repeat constructor|].
  rewrite Hk2 in Hk3.
  exists p3. split; [|done]. unfold run_cprofile. rewrite Hmake. step_M Hrun1.
  rewrite (M_bind_Ok _ _ _ (mkNodeInfo "127.0.0.1" 7401) p1) by done. unfold _bench_loop. step_M Hrun2. exact Hrun3.
Qed.

(** Each script runs in a process of its own that has just imported the modules. *)
Definition imported (k : shared_pool) (s : layers) : layers :=
  mkLayers (l_store s) (l_sock s) (new_process k) (l_calls s) (l_key_idx s) (l_get_keys s) (l_get_i s).

(** Both step timings complete.  Given a [pickle] and an echo server that work, for any
    positive number of operations and members of which no two tie for the timed keys, they
    raise no exception: every set and get of the cluster succeeds, a get only ever being
    made of a key that has been set, and the counter is read twice for each of the
    [min(ops, 5000)] rounds of the five layers without a network and of the
    [min(ops, 500)] rounds of the other three. *)
Theorem step_timings_complete c ops order (s : layers) k :
  (0 < ops)%Z → (∃ data msg, dumps bench_message = Ok data ∧ loads data = Ok msg) → sock_fine (l_sock s) →
  l_key_idx s = 0%Z ∧ l_get_i s = 0%Z → (∀ i n, (0 < time_ns (clk i n))%Z) → order ≡ₚ [0; 1] →
  no_ties_between 7401 ops → no_ties_between 7301 ops →
  let readings := k + 10 * Z.to_nat (Z.min ops 5000) + 6 * Z.to_nat (Z.min ops 500) in
  (∃ m s', run_step_timing perf_counter_ns clk c ops (imported (MuxPool false) s, k) = (Ok (m, overhead_floats m), (s', readings)) ∧
     l_key_idx s' = Z.min ops 500 ∧ l_get_i s' = Z.min ops 500) ∧
  (∃ m s', _step_timing perf_counter_ns clk order c ops (imported AsyncPool s, k) = (Ok (m, overhead_ints m), (s', readings)) ∧
     l_key_idx s' = Z.min ops 500 ∧ l_get_i s' = Z.min ops 500).
Proof.
  intros Hops Hp Hs Hc Hclk Hord Hsync Hasync readings. split.
  - destruct sync_cluster as (nodes & Hmake & Hn & Hst).
    destruct (step_timing_run perf_counter_ns clk (members_at 7401) (timed_keys ops) (MuxPool false) None eq_refl eq_refl Hclk I Float.of_Z ADDRS nodes
      (λ _, Z.to_nat 65536) (pre_warm clk) c ops (imported (MuxPool false) s) k) as (m & s' & Hrun & Hidx).
    + apply (cluster_runnable 7401); [exact Hops|exact Hp|exact Hs|exact Hc|done|eexists; by vm_compute|done|done|done].
    + by apply pre_warm_warms.
    + exists m, s'. split; [|done]. unfold run_step_timing. rewrite Hmake. by step_M Hrun.
  - destruct async_cluster as (nodes & Hmake & Hn & Hst).
    assert (∀ key, key ∈ timed_keys ops → order ≡ₚ seq 0 (length (ring_get_nodes (members_at 7301) key default_replication))) as Hord'.
    { intros key _. by rewrite ring_get_nodes_length. }
    destruct (step_timing_run perf_counter_ns clk (members_at 7301) (timed_keys ops) AsyncPool (Some order) eq_refl eq_refl Hclk Hord' id ADDRS_async nodes
      length (λ _, mret tt) c ops (imported AsyncPool s) k) as (m & s' & Hrun & Hidx).
    + apply (cluster_runnable 7301); [exact Hops|exact Hp|exact Hs|exact Hc|done|eexists; by vm_compute|done|done|done].
    + intros s0 Hs0. by exists s0.
    + exists m, s'. split; [|done]. unfold _step_timing. rewrite Hmake. by step_M Hrun.
Qed.
End scripts.

Section samples.
#[local] Existing Instance no_resolver.

(** A counter that ticks faster and faster. *)
Definition sample_counter (i : nat) : Z := (Z.of_nat i * Z.of_nat i)%Z.

Definition count_up : M nat unit := λ w, (Ok tt, S w).

Lemma timeit_median_witness :
  ∃ m w', _timeit_sync sample_counter count_up 3 (0, 0) = (Ok m, (w', 6)) ∧
    _timeit sample_counter count_up 3 (0, 0) = (Ok (Float.of_Z m), (w', 6)) ∧ w' = 3 ∧
    m ∈ durations sample_counter 0 3 ∧ 2 * length (filter (λ t, t < m)%Z (durations sample_counter 0 3)) ≤ 3 ∧
    2 * length (filter (λ t, m < t)%Z (durations sample_counter 0 3)) ≤ 3.
Proof.
  apply (timeit_median sample_counter count_up (λ j w, w = j) 3 0 0); [|done].
  intros j w _ ->. by eexists _, _.
Defined.

(** [_timeit(fn, 0)], and one of three rounds that take 1, 5 and 9 nanoseconds. *)
Example timeit_nothing : (_timeit sample_counter count_up 0 (0, 0)).1 = Raise IndexError.
Proof. vm_compute. reflexivity. Qed.

Example timeit_three : (_timeit_sync sample_counter count_up 3 (0, 0)).1 = Ok 5%Z.
Proof. vm_compute. reflexivity. Qed.

Definition ticking (i : nat) : NodeInfo → clock := wall (10 + Z.of_nat i).

Lemma two_untied key : key ∈ timed_keys 2 → no_ties key sample_ring.
Proof.
  intros (i & -> & Hi)%elem_of_timed_keys. assert (i = 0 ∨ i = 1)%Z as [->| ->] by lia;
    apply no_ties_nodup, (bool_decide_eq_true_1 (NoDup _)); vm_compute; reflexivity.
Qed.

Lemma bench_loop_fills_witness :
  ∃ p' m, _bench_loop ticking node1 2 (sample_running (MuxPool false)) = (Ok tt, p') ∧
    one_store default_replication sample_ring (timed_keys 2) (MuxPool false) p' m ∧
    (∀ i, (0 ≤ i < 2)%Z → m !! bench_key i = Some (filled_entry ticking node1 i)) ∧
    (∀ k, (∀ i, (0 ≤ i < 2)%Z → k ≠ bench_key i) → m !! k = None).
Proof.
  apply (bench_loop_fills ticking sample_ring (timed_keys 2) node1).
  - unfold sample_ring. left.
  - intros i. simpl. lia.
  - by apply sample_running_store; [apply two_untied|].
  - intros i Hi. apply elem_of_timed_keys. exists i. split; [done|lia].
Defined.

(** A pickle of the one message of the step timing. *)
Definition bench_pickle : Pickle := {|
  dumps msg := if decide (msg = bench_message) then Ok [Byte.x42] else Raise PicklingError;
  loads data := if decide (data = [Byte.x42]) then Ok bench_message else Raise UnpicklingError;
|}.

(** The echo server has sent nothing yet. *)
Definition sample_layers : layers := mkLayers [] (mkSock [] [] None) (new_process AsyncPool) 0 0 [] 0.

Lemma between_checked first :
  forallb (λ i, bool_decide (NoDup ((λ n, _score n (bench_key i)) <$> members_at first))) [0; 1]%Z = true →
  no_ties_between first 2.
Proof.
  intros Hall i Hi. rewrite forallb_forall in Hall. apply no_ties_nodup.
  apply (bool_decide_eq_true_1 (NoDup _)), Hall. assert (i = 0 ∨ i = 1)%Z as [->| ->] by lia; simpl; auto.
Qed.

Lemma step_timings_complete_witness :
  (∃ m s', run_step_timing (H0 := bench_pickle) sample_counter ticking sample_clock 2 (imported (MuxPool false) sample_layers, 0) =
       (Ok (m, overhead_floats m), (s', 32)) ∧ l_key_idx s' = 2%Z ∧ l_get_i s' = 2%Z) ∧
  (∃ m s', _step_timing (H0 := bench_pickle) sample_counter ticking [1; 0] sample_clock 2 (imported AsyncPool sample_layers, 0) =
       (Ok (m, overhead_ints m), (s', 32)) ∧ l_key_idx s' = 2%Z ∧ l_get_i s' = 2%Z).
Proof.
  apply (step_timings_complete (H0 := bench_pickle) sample_counter ticking sample_clock 2 [1; 0] sample_layers 0).
  - lia.
  - exists [Byte.x42], bench_message. by vm_compute.
  - split; [done|]. by eexists.
  - done.
  - intros i n. simpl. lia.
  - apply Permutation_swap.
  - apply between_checked. vm_compute. reflexivity.
  - apply between_checked. vm_compute. reflexivity.
Defined.
End samples.
