(* ===== verification/ProfileReport.v ===== *)
(** * What the profilers print, and the rest of their passes

    The tables of both step timings as the list of their lines, the pass of the asyncio
    profiler that [cProfile] observes, and the accepting side of the echo server. *)
From Stdlib Require Import SpecFloat Ascii.
From S2P Require Import Prelude Async Threads PyBase Bytes PyDict Types Store LwwStore Ring Wire PoolOps Discovery Gossip Node.
From S2P Require Import Cluster Process QuickStart Workload Report Profile.

#[local] Arguments store_set_ns {T} _.
#[local] Arguments store_get_ns {T} _.
#[local] Arguments ring_ns {T} _.
#[local] Arguments enc_ns {T} _.
#[local] Arguments dec_ns {T} _.
#[local] Arguments raw_rtt_ns {T} _.
#[local] Arguments full_set_ns {T} _.
#[local] Arguments full_get_ns {T} _.

(** ** Formats *)

(** [fmt_ns] of both profilers, with a digit more than that of the benchmarks. *)
Definition profile_fmt_ns (ns : num) : result string :=
  if Num.ltb_int ns 1000 then Ok (Fmt.fixed 1 (Num.to_float ns) +:+ " ns") else
  if Num.ltb_int ns 1000000 then x ← Num.div_int ns 1000; Ok (Fmt.fixed 2 x +:+ " µs") else
  x ← Num.div_int ns 1000000; Ok (Fmt.fixed 3 x +:+ " ms").

Definition profile_fmt_ns_async (ns : num) : result string := profile_fmt_ns ns.

(** [round(x)] of a float, to the even integer in the middle of two. *)
Definition py_round (x : Float.t) : result Z :=
  match x with
  | S754_zero _ => Ok 0%Z
  | S754_infinity _ => Raise OverflowError
  | S754_nan => Raise ValueError
  | S754_finite s m e => Ok (let n := Num.scaled 0 m e in if s : bool then - n else n)%Z
  end.

Definition bar (frac : Float.t) (width : Z) : result string :=
  filled ← py_round (Num.mul frac (Float.of_Z width));
  Ok (Fmt.repeat_str "█" (Z.to_nat filled) +:+ Fmt.repeat_str "░" (Z.to_nat (width - filled))).

Definition section_lines (title : string) : list string :=
  let rule := Fmt.repeat_str "━" 60 in
  [newline +:+ rule; "  " +:+ title; rule].
Definition section_lines_async (title : string) : list string := section_lines title.

(** ** The tables *)

(** [ns or one], and [x / y] on numbers of the same kind. *)
Definition or_one (ns : num) : num :=
  match ns with
  | NInt z => if bool_decide (z = 0)%Z then NInt 1 else ns
  | NFloat (S754_zero _) => NFloat (Float.of_Z 1)
  | NFloat _ => ns
  end.

Definition num_div (x y : num) : result Float.t :=
  match y with
  | NInt b => Num.div_int x b
  | NFloat f => Num.float_div (Num.to_float x) f
  end.

(** One line of the table. *)
Definition table_line (baseline : num) (row : string * num * string) : result string :=
  let '(name, ns, note) := row in
  t ← profile_fmt_ns ns;
  frac ← num_div ns baseline;
  Ok ("  " +:+ Fmt.left 26 name +:+ "  " +:+ Fmt.right 10 t +:+ "  " +:+
      Fmt.right 13 (Fmt.fixed 1 (Num.mul frac (Float.of_Z 100))) +:+ "%  " +:+ note).

Fixpoint table_lines (baseline : num) (rows : list (string * num * string)) : result (list string) :=
  match rows with
  | [] => Ok []
  | row :: rows => l ← table_line baseline row; ls ← table_lines baseline rows; Ok (l :: ls)
  end.

Definition table_rows {T} (wrap : T → num) (cluster_note : string) (m : medians T) : list (string * num * string) :=
  [("LocalStore.set", wrap (store_set_ns m), "pure dict write + lock");
   ("LocalStore.get", wrap (store_get_ns m), "pure dict read + lock");
   ("RendezvousRing lookup", wrap (ring_ns m), "sha256 × n_nodes");
   ("pickle.dumps (msg)", wrap (enc_ns m), "encode request");
   ("pickle.loads (msg)", wrap (dec_ns m), "decode response");
   ("raw TCP roundtrip", wrap (raw_rtt_ns m), "warm socket, loopback kernel cost");
   ("node.set  (full)", wrap (full_set_ns m), cluster_note);
   ("node.get  (full)", wrap (full_get_ns m), cluster_note)].

Definition table_header : list string :=
  [newline +:+ "  " +:+ Fmt.left 26 "Operation" +:+ "  " +:+ Fmt.right 10 "Median" +:+ "  " +:+
     Fmt.right 14 "% of node.set" +:+ "  Notes";
   "  " +:+ Fmt.repeat_str "─" 26 +:+ "  " +:+ Fmt.repeat_str "─" 10 +:+ "  " +:+
     Fmt.repeat_str "─" 14 +:+ "  " +:+ Fmt.repeat_str "─" 30].

(** The lines below the title: the table, and where the time of [node.set] goes. *)
Definition report_lines {T} (wrap : T → num) (cluster_note rest_label : string) (m : medians T) (o : T * T) :
    result (list string) :=
  rows ← table_lines (or_one (wrap (full_set_ns m))) (table_rows wrap cluster_note m);
  protocol ← profile_fmt_ns (wrap o.1);
  whole ← profile_fmt_ns (wrap (full_set_ns m));
  rest ← profile_fmt_ns (wrap o.2);
  Ok (table_header ++ rows ++
      [""; "  Protocol overhead (encode+decode+RTT) : " +:+ protocol;
       "  node.set total                        : " +:+ whole;
       rest_label +:+ rest]).

Definition sync_report (m : medians Float.t) : result (list string) :=
  report_lines NFloat "ring + MuxPool + pickle + TCP" "  MuxPool / selector thread overhead    : " m (overhead_floats m).

Definition async_report (event_loop : string) (m : medians Z) : result (list string) :=
  ls ← report_lines NInt "ring + pool + pickle + TCP" "  Coroutine/pool scheduling overhead    : " m (overhead_ints m);
  Ok (ls ++ [newline +:+ "  Event loop : " +:+ event_loop]).

(** The integers of the asyncio profiler show where all the time of [node.set] went, unless
    the parts, measured apart, exceed the whole. *)
Lemma overhead_ints_add_up (m : medians Z) :
  let '(protocol, rest) := overhead_ints m in
  (0 ≤ rest)%Z ∧ (full_set_ns m ≤ protocol + ring_ns m + rest)%Z ∧
  ((protocol + ring_ns m ≤ full_set_ns m)%Z → (protocol + ring_ns m + rest = full_set_ns m)%Z).
Proof. unfold overhead_ints. lia. Qed.

Lemma table_lines_length baseline rows ls : table_lines baseline rows = Ok ls → length ls = length rows.
Proof.
  revert ls. induction rows as [|row rows IH]; intros ls; simpl; [by intros [= <-]|].
  destruct (table_line baseline row) as [l|]; [|done]. simpl.
  destruct (table_lines baseline rows) as [ls'|]; [|done]. intros [= <-]. simpl. by rewrite (IH ls').
Qed.

(** ** The pass of the asyncio profiler that is profiled *)
Section cprofile.
Context (clk : nat → NodeInfo → clock).
Context (node_set_prog : NodeInfo → string → pyval → prog process bool) (node_get_prog : NodeInfo → string → prog process pyval).

(** The workers' results, as [gather] gives them: the first exception there is, and [false]
    while one of them is at work. *)
Fixpoint gathered_workers {S} (ws : list (prog S bool)) : result bool :=
  match ws with
  | [] => Ok true
  | Ret (Ok b) :: ws => rest ← gathered_workers ws; Ok (b && rest)
  | Ret (Raise e) :: _ => Raise e
  | Act _ _ :: ws => rest ← gathered_workers ws; Ok false
  end.

(** [_bench_coro] on the nodes of this process, for a schedule of its workers. *)
Definition bench_process (nodes : list NodeInfo) (ops concurrency : Z) (order : list nat) : M process bool := λ p,
  let '(ws, s) := _bench_coro nodes ops node_set_prog node_get_prog concurrency order p in
  (gathered_workers ws, co_world s).

(** [_run_cprofile], the announcements of the nodes taking effect in the order [ann]. *)
Definition _run_cprofile `{Resolver} (ann order : list nat) (ops concurrency : Z) : M process bool :=
  nodes ← set_up clk _make_nodes_async (Some ann);
  finished ← bench_process nodes ops concurrency order;
  tear_down clk nodes (Some ann) ;;
  mret finished.

(** [main] of the asyncio profiler. *)
Definition profile_main_async `{Resolver} `{Pickle} (perf_counter_ns : nat → Z) (ann order : list nat) (c : clock)
    (ops concurrency : Z) (skip_cprofile : bool) : M (layers * nat) (medians Z * (Z * Z)) :=
  (if skip_cprofile then mret tt
   else on_world (on_process (_run_cprofile ann order ops concurrency ;; mret tt))) ;;
  _step_timing perf_counter_ns clk ann c ops.
End cprofile.

(** ** The echo server accepts *)

(** [serve], for what each round sees of the flag and what its [accept] does: the sockets
    handed to [_handle].  A time-out is another round; any other error leaves the loop with
    the server socket open. *)
Fixpoint echo_accept (rounds : list (bool * accept_event)) : result unit * list sock :=
  match rounds with
  | [] => (Ok tt, [])
  | (stopped, ev) :: rounds =>
      if stopped : bool then (Ok tt, []) else
      match ev with
      | Accepted k => let '(r, ks) := echo_accept rounds in (r, k :: ks)
      | AcceptTimeout => echo_accept rounds
      | AcceptError => (Raise OSError, [])
      end
  end.

(** Where no [accept] fails it takes the connections the accept loop of a node takes. *)
Lemma echo_accept_like_node rounds :
  (∀ b, (b, AcceptError) ∉ rounds) → echo_accept rounds = (Ok tt, _accept_loop rounds).
Proof.
  induction rounds as [|[[] ev] rounds IH]; intros Hne; [done..|]. cbn [echo_accept _accept_loop].
  rewrite IH by set_solver. destruct ev; [done..|]. destruct (Hne false). left.
Qed.
